(* ===== verification/_CoqProject ===== *)
-Q . S2P
Prelude.v
Float64.v
Sys.v
DeviceIO.v
DeviceIOProps.v
Protocol.v
Wire.v
Gates.v
Kernel.v
KernelSpec.v
GHZ.v
KernelReal.v
KernelProps.v
Daemon.v
NormFixed.v
Adapter.v
AdapterProps.v
Frontend.v
FrontendSystem.v
FrontendProps.v
FrontendCalls.v
EndToEnd.v
Outcome.v
CString.v
Lexer.v
LexerProps.v
Syntax.v
Parser.v
ParserProps.v
Grammar.v
Compiler.v
ByteVM.v
CompilerProps.v
VMProps.v
State2.v
State2Props.v
Pipeline.v
PipelineProps.v
Console.v
StateN.v
StateNProps.v
QCircuit.v
QCircuitProps.v
QCircuitReal.v
QCircuitText.v
QasmExport.v
QasmExportProps.v
Qbc.v
QbcProps.v
Numerals.v
KernelCLI.v
KernelCLIProps.v
DeviceClient.v
DeviceClientProps.v
Server.v
ServerProps.v
Drag.v
Interp.v
InterpProps.v
