(* ===== verification/Prelude.v ===== *)
(** * QBIT NOVA C: verification library

    QBIT NOVA C simulates a small quantum processor on a classical host and has
    a language for small quantum programs. The device stack, from the
    simulation up to the device interface:

    - the state-vector kernel ([src/quantum/qcpu_kernel.c]): [2^n] complex
      amplitudes, the gates H, X and CX, the GHZ preparation, a xorshift
      generator, measurement and shots;
    - the wire format ([src/device/qcpu_device_wire.c]) of the protocol
      structures ([src/device/qcpu_device_protocol.h]): 24-byte requests and
      56-byte responses;
    - deadline-bounded socket I/O ([src/device/qcpu_device_io.c]);
    - the daemon ([src/device/qcpud.c]): reads a request, runs the kernel,
      writes a response;
    - the adapter ([src/device/qcpu_qcpud_adapter.c]): a back end of the front
      end that forwards an exchange to the daemon and can be canceled from
      another thread;
    - the front end ([src/device/qcpu_mock_frontend.c]) with the interface of
      [include/uapi/qcpu_device_uapi.h]: one device, at most one session and
      one exchange in flight, run by a worker thread under a deadline.

    The front end calls a back end through function pointers; the adapter is
    one, and calls the socket I/O and the wire format; the daemon calls the
    socket I/O, the wire format and the kernel.

    The language: the lexer ([src/lexer/lexer.c]) and the parser
    ([src/parser/parser.c]) make a syntax tree, the compiler
    ([src/compiler/compiler.c]) turns it into bytecode, and the byte VM
    ([src/vm/byte_vm.c]) runs it, with single qubits as pairs of real
    amplitudes; actions pass the allow list of [src/adapter/safe_adapter.c].
    The runner ([src/qnova.c]) composes them, and gives bytecode of programs
    that name it to the two-qubit VM ([src/vm/state2_vm.c],
    [src/quantum/state2.c]) instead. The tree interpreter
    ([src/vm/interpreter.c]) is a second implementation of the language.

    The programs around them: the exporter to OpenQASM
    ([src/tools/qasm_export.c]), the circuit VM ([src/quantum/qcircuit.c]), the
    n-qubit demonstration ([src/quantum/stateN.c]), the command-line kernel
    ([src/tools/qnova_kernel_cli.c]), the client of the daemon
    ([src/tools/qnova_device_client.c]) and a stub ([src/drag.c]).

    ** Files

    - [Prelude]: machine integers with their wrap-around ([wrap], [c_shl]),
      loops ([for_range], [for_ctl]) with their invariant rules, the hint
      databases and tactics ([unbool], [case_tests]).
    - [Float64]: the class [FloatOps] of number types, binary64 by SpecFloat,
      the bits of a double, and the class [GHZFloat] of facts about 0, 1 and
      [1/sqrt 2] that the GHZ state needs.
    - [Sys]: programs that call the operating system. [prog] is a finite
      program with system calls and critical sections; the class [OS] states
      what the code relies on (clock range, [read] and [send] semantics, fresh
      descriptors); [wp] is a weakest precondition for one thread among others
      (rely [R], invariant [Inv]), sound for the small steps [step]
      ([wp_sound]) and able to finish ([wp_returns]). [script_os] is an
      executable instance, and [clocked_os] the same with a clock that every
      call moves on.
    - [Protocol] (Modules [Device], [Uapi]) and [Wire]: structures, encoders
      and decoders on byte buffers.
    - [Kernel]: the kernel's functions. [Gates]: the loop over pairs of
      amplitudes that the gates share. [KernelSpec]: what each function
      computes. [GHZ]: the GHZ state, its norm and its samples.
    - [DeviceIO]: the socket I/O and its [wp] rules. [Daemon]: the daemon's
      work on one connection and its contract [answers]. [Server]: the process
      around it, [main] of [qcpud.c], an interaction tree whose event [Serve]
      is the call of [serve_connection]; [guard] is the contract of the process
      as a monitor of its events, among them [Signal], at which the handler sets
      the flag and closes the published socket. [NormFixed]: the Q32.32 form of the norm.
      [Adapter]: the adapter with its mutex and the canceling threads
      ([cancel_step]). [Frontend]: the front end, one function per stretch
      under the mutex; [FrontendSystem]: the threads ([fstep]) and their
      invariant [sinv].
    - [CString]: C strings and character classes. [Outcome]: results of the
      language passes, and printed output. [Lexer] and [Parser]: the static
      arrays [tokens] and [tok_count], [pos], and the tree that is built.
      [Grammar]: the programs, their tokens and their text. [Syntax]: syntax
      trees and instructions. [Compiler]: [emit] and [compile] on the list of
      instructions emitted so far; [Qbc]: the same on the bytes of the static
      array, with [save_qbc] and [load_qbc].
    - [ByteVM]: the tables of the VM as the record [vm], one function per
      C function, [vm_step] for one round of the instruction loop, and the
      action filter. [State2]: the two-qubit state and its VM. [Pipeline]: the
      runner. [Interp]: the tree interpreter.
    - [Console]: the monad of the command-line programs: undefined, out of
      fuel, or the lines printed and a value or an exit status. [Numerals]:
      [strtoull] and the grammar of what it reads. On them [StateN],
      [QCircuit], [QasmExport], [KernelCLI], [DeviceClient] and [Drag], one per
      program; [DeviceClient] talks to the daemon with [DeviceIO] and [Wire].

    A record has the fields of its struct; a function has the name of its C
    function, a loop body or a critical section that of the function with a
    suffix. A null pointer is [None]. Undefined behaviour (an access outside a
    buffer or to freed memory, an undefined shift, signed overflow) is the
    result [None], the program [Undefined] or the predicate [undefined].
    Results of system calls and allocations are arguments or answers of [OS].

    ** Theorems

    - [KernelProps]: each gate is its index formula although the loops work in
      place, X and CX are involutions, the GHZ preparation gives the GHZ state
      and validates in binary64, measurement collapses and repeats, shots add
      up and hit only the two GHZ states, the generator is injective and never
      zero, any sequence of calls is safe, errors change nothing. [KernelReal]:
      over the reals the gates keep the norm and H is an involution.
    - [Wire]: round trips in both directions, and every rejection.
    - [DeviceIOProps]: whole buffers are read and written without loss,
      repetition or overrun, for every operating system, and the functions
      return whatever errors the calls answer, as long as time passes and
      interruptions end ([timely]).
    - [Daemon]: every packet is answered as the contract allows; serving a
      connection leaves exactly the request and the response on the streams,
      and ends.
    - [AdapterProps]: cancellation never shuts down a descriptor that is not
      the exchange's own; a result 0 means the bytes on the wire are the
      request's and the response's; the exchange ends; the two protocols are
      translated field by field; the remaining time is rounded up.
    - [FrontendProps], [FrontendCalls]: in every interleaving there is one
      exchange in flight, no freed task is used, no task leaks, the device can
      always become idle again, every result is sound and counted, destruction
      is safe; what each call does, and one defect: an answer that arrives just
      as the wait times out is lost ([late_answer_lost]).
    - [EndToEnd]: from an accepted request through adapter, daemon and kernel
      back to a verdict of success.
    - [ServerProps]: in every trace of the daemon's process, signals included,
      only its own or a stale socket is removed, connections are accepted only
      once the socket is private, listening and known to the signal handler,
      each is served once and closed; a signal closes that socket and no other
      descriptor, and [accept] is called on it at most once after that; the end
      cleans up, unless the file cannot be removed. One defect: a signal that
      comes before the handler knows the socket does not stop the accept loop
      ([early_stop_lost]).
    - [LexerProps]: the scanner computes the tokens of a declarative lexical
      grammar. [ParserProps], [Grammar]: the parser ends on every token array
      with a well-typed tree, or reads past the array, which an incomplete
      statement makes it do ([parse_overrun]); scanning and parsing the text
      of a program gives its tree.
    - [CompilerProps]: running compiled code is running the tree
      ([exec_tree]), although the VM finds the ends of blocks by scanning.
      [QbcProps]: a saved bytecode file is read back as the same program.
      [VMProps]: the VM's tables stay within their bounds on any bytecode, its
      qubits stay normalised over the reals, and one defect: its CNOT copies
      the control over the target ([cnot_copies]).
    - [PipelineProps]: when compiling is defined, and what the runner prints
      for the text of a program of the grammar within the compiler's limits:
      the meaning of its tree on the byte VM ([exec_tree]) or, when the text
      names it, on the two-qubit VM ([sweep]). [InterpProps]: on the common
      part of the language the tree interpreter and the byte VM agree.
    - [State2Props]: over the reals the two-qubit VM is the kernel on two
      qubits; the Bell program measures equal bits in every number type with
      the facts of [BellFloat], binary64 included.
    - [StateNProps]: the GHZ demonstration. [QCircuitProps], [QCircuitReal],
      [QCircuitText]: the circuit VM is defined on circuits within their
      register, unitary over the reals, agrees with the kernel on the gates
      they share, and reads back circuit files; a register declared again and
      smaller is undefined behaviour ([shrunk_register]).
    - [QasmExportProps]: names, numbering and lines of the exported program,
      and its meaning. On two qubits, for the gates the two-qubit VM has (H on
      the first, CNOT from the first to the second) followed by measurements,
      that VM ends as the exported statements say. On others the two differ:
      for [hadamard b] or [cnot b a] the exporter states a gate where the VM
      prints a notice.
    - [KernelCLIProps]: output and exit status for every command line.
      [DeviceClientProps]: the same for the client over every operating system,
      and what it prints when [serve_connection] runs on the other end of its
      connection. [Drag]: what the stub
      prints.

    ** Fuel and bounds

    Loops over arrays are bounded by the array. The retry loops of the socket
    I/O take fuel: one unit per round, [Spin] when it runs out. The code goes
    round again only after an interruption, after a byte was transferred, or
    after a wait before its deadline; so when every call is answered and takes
    time that the clock shows, and signals interrupt [read] and [send] finitely
    often ([timely]), the interruptions, the bytes and the nanoseconds before
    the deadline bound the rounds ([rounds]), whatever else the calls answer.
    That many units suffice ([io_terminates], [serve_connection_terminates],
    [exchange_terminates], [client_terminates]). The accept loop of the daemon
    may run forever; it is an [iter] of an interaction tree and takes no fuel.
    The scanners of texts ([tokenize], the lines of circuit files and of the
    stub) take the length of the text, since every round consumes a character.
    The parser takes [parse_fuel], three units per token and a few more;
    [parse_total_typed] shows that it is enough on every array. Kernels have 1
    to 20 qubits, as the code enforces. [run_bytecode] takes fuel, one unit per
    instruction; a bytecode loop may be long, and [compile_correct] shows that
    for compiled programs some fuel is enough. A monotonic clock below [2^33]
    seconds is assumed.

    ** Assumptions on the C library

    [rand], [atof], [cexp] and [cabs] are parameters; of [cexp] the laws
    [CexpLaw] on imaginary arguments and of [cabs] the laws [CabsLaw] are used.
    [strtoull] is that of C17, without binary prefixes; the locale is C, so that
    bytes above 127 are in no character class. Whether an allocation
    succeeds is an argument, except in the parser, where [calloc] is taken to
    succeed. [sigemptyset] is taken to succeed. Floating-point operations round
    to nearest and are not contracted. The mutex and condition primitives
    are assumed to work; a condition wait may return at any time with any
    result. In [server_keeps_contract] [accept] succeeds only on an open socket
    and with a new descriptor, [close] releases its descriptor, whatever it
    returns, and the stop flag reads as the handler left it.

    ** Not modelled

    [free_ast] and the calls of [free] and [fclose] at the end of the runner,
    which only release memory and a file; the log lines of
    [serve_connection]; the tests and benchmarks. *)

From Stdlib Require Import ZArith Lia ZifyBool.
From stdpp Require Import base list numbers.

(** ** Scope and notations of the development *)

Declare Scope qnova_scope.
Delimit Scope qnova_scope with qnova.
Open Scope Z_scope.

(** A C pointer argument: [None] is [NULL], [Some a] points to [a]. *)
Abbreviation ptr A := (option A) (only parsing).
Abbreviation NULL := None (only parsing).

(** ** Machine integers

    An unsigned [w]-bit integer is a [Z] in [[0, 2^w)]; [wrap w] is the
    conversion to that width. A shift by the operand's width or more is
    undefined in C: [c_shl] and [c_shr] then give [None]. *)

Definition wrap (w z : Z) : Z := z mod 2 ^ w.
Abbreviation u8 := (wrap 8).
Abbreviation u16 := (wrap 16).
Abbreviation u32 := (wrap 32).
Abbreviation u64 := (wrap 64).

Definition in_width (w z : Z) : Prop := 0 <= z < 2 ^ w.

Definition c_shl (w x n : Z) : option Z :=
  if (0 <=? n) && (n <? w) then Some (wrap w (Z.shiftl x n)) else None.

Definition c_shr (w x n : Z) : option Z :=
  if (0 <=? n) && (n <? w) then Some (Z.shiftr x n) else None.

(** [(i >> p) & 1] *)
Definition index_bit (i p : Z) : option Z := (λ b, Z.land b 1) <$> c_shr 64 i p.

#[global] Instance in_width_dec w z : Decision (in_width w z).
Proof. unfold in_width. apply _. Defined.

(** ** Loops

    [None] is undefined behaviour (an access outside an object, a null
    pointer dereferenced, an undefined shift). [for_range body i k s] runs
    [body i], [body (i+1)], ... for [k] iterations. [for_ctl] is the same loop
    with a [return] or [break] inside: the body says [Next] to go on and
    [Stop] to leave the loop with a result. *)

Section Loops.
Context {S : Type}.

Fixpoint for_range (body : nat → S → option S) (i k : nat) (s : S) : option S :=
  match k with
  | O => Some s
  | Datatypes.S k' => s' ← body i s; for_range body (Datatypes.S i) k' s'
  end.

Context {R : Type}.

Inductive ctl : Type :=
| Next (s : S)
| Stop (r : R).

Fixpoint for_ctl (body : nat → S → option ctl) (i k : nat) (s : S) : option ctl :=
  match k with
  | O => Some (Next s)
  | Datatypes.S k' =>
      c ← body i s;
      match c with
      | Next s' => for_ctl body (Datatypes.S i) k' s'
      | Stop r => Some (Stop r)
      end
  end.

(** Loop rules: an invariant indexed by the loop counter. *)
Lemma for_range_inv (I : nat → S → Prop) body i k s :
  I i s →
  (∀ j t, (i ≤ j < i + k)%nat → I j t →
     ∃ t', body j t = Some t' ∧ I (Datatypes.S j) t') →
  ∃ s', for_range body i k s = Some s' ∧ I (i + k)%nat s'.
Proof.
  revert i s. induction k as [|k IH]; intros i s Hi Hstep; simpl.
  - exists s. by rewrite Nat.add_0_r.
  - destruct (Hstep i s ltac:(lia) Hi) as (t & -> & Ht). simpl.
    destruct (IH (Datatypes.S i) t Ht) as (s' & Hs' & HI).
    { intros j u Hj Hu. apply Hstep; [lia|done]. }
    exists s'. split; [done|]. by replace (i + Datatypes.S k)%nat with (Datatypes.S i + k)%nat by lia.
Qed.

Lemma for_ctl_inv (I : nat → S → Prop) (Q : R → Prop) body i k s :
  I i s →
  (∀ j t, (i ≤ j < i + k)%nat → I j t →
     (∃ t', body j t = Some (Next t') ∧ I (Datatypes.S j) t') ∨
     (∃ r, body j t = Some (Stop r) ∧ Q r)) →
  (∃ s', for_ctl body i k s = Some (Next s') ∧ I (i + k)%nat s') ∨
  (∃ r, for_ctl body i k s = Some (Stop r) ∧ Q r).
Proof.
  revert i s. induction k as [|k IH]; intros i s Hi Hstep; simpl.
  - left. exists s. by rewrite Nat.add_0_r.
  - destruct (Hstep i s ltac:(lia) Hi) as [(t & -> & Ht)|(r & -> & HQ)]; simpl; [|by eauto].
    replace (i + Datatypes.S k)%nat with (Datatypes.S i + k)%nat by lia.
    apply IH; [done|]. intros j u Hj Hu. apply Hstep; [lia|done].
Qed.

Lemma for_ctl_stop_at body i k s j r :
  (i ≤ j < i + k)%nat →
  (∀ m, (i ≤ m < j)%nat → body m s = Some (Next s)) →
  body j s = Some (Stop r) →
  for_ctl body i k s = Some (Stop r).
Proof.
  revert i. induction k as [|k IH]; intros i Hj Hpre Hstop; [lia|]. simpl.
  destruct (decide (i = j)) as [->|Hne]; [by rewrite Hstop|].
  rewrite Hpre by lia. simpl. apply IH; [lia| |done]. intros m Hm. apply Hpre. lia.
Qed.

Lemma for_range_app body i k l s :
  for_range body i (k + l) s = for_range body i k s ≫= for_range body (i + k) l.
Proof.
  revert i s. induction k as [|k IH]; intros i s; simpl.
  - by rewrite Nat.add_0_r.
  - destruct (body i s) as [t|]; simpl; [|done]. rewrite IH.
    by replace (i + Datatypes.S k)%nat with (Datatypes.S i + k)%nat by lia.
Qed.
End Loops.
Arguments ctl : clear implicits.

(** ** Wrap-around *)

Lemma wrap_small w z : in_width w z → wrap w z = z.
Proof. intros. by apply Z.mod_small. Qed.

Lemma wrap_in_width w z : 0 <= w → in_width w (wrap w z).
Proof. intros. apply Z.mod_pos_bound. by apply Z.pow_pos_nonneg. Qed.

Lemma c_shl_one n w : 0 <= n < w → c_shl w 1 n = Some (2 ^ n).
Proof.
  intros [H0 Hw]. unfold c_shl.
  rewrite (proj2 (Z.leb_le 0 n) H0), (proj2 (Z.ltb_lt n w) Hw). simpl.
  rewrite Z.shiftl_1_l, wrap_small; [done|]. split; [apply Z.pow_nonneg; lia|].
  apply Z.pow_lt_mono_r; lia.
Qed.

Lemma index_bit_spec i p : 0 <= p < 64 → index_bit i p = Some (Z.b2z (Z.testbit i p)).
Proof.
  intros Hp. unfold index_bit, c_shr. destruct (Z.leb_spec 0 p), (Z.ltb_spec p 64); try lia. cbn.
  f_equal. rewrite Z.testbit_spec', Z.shiftr_div_pow2 by lia. change 1 with (Z.ones 1) at 1. by rewrite Z.land_ones.
Qed.

Lemma lxor_in_width w a b : 0 <= w → in_width w a → in_width w b → in_width w (Z.lxor a b).
Proof.
  unfold in_width. intros Hw Ha Hb. assert (0 <= Z.lxor a b) by (apply Z.lxor_nonneg; lia).
  split; [done|]. destruct (decide (Z.lxor a b = 0)) as [->|]; [lia|].
  apply Z.log2_lt_pow2; [lia|]. eapply Z.le_lt_trans; [apply Z.log2_lxor; lia|].
  destruct (decide (w = 0)) as [->|]; [simpl in *; assert (a = 0) as -> by lia; assert (b = 0) as -> by lia; done|].
  apply Z.max_lub_lt.
  - destruct (decide (a = 0)) as [->|]; [simpl; lia|]. apply Z.log2_lt_pow2; lia.
  - destruct (decide (b = 0)) as [->|]; [simpl; lia|]. apply Z.log2_lt_pow2; lia.
Qed.

Lemma shiftr_in_width w a n : in_width w a → 0 <= n → in_width w (Z.shiftr a n).
Proof.
  unfold in_width. intros Ha Hn. rewrite Z.shiftr_div_pow2 by done.
  assert (0 < 2 ^ n) by (apply Z.pow_pos_nonneg; lia). split; [apply Z.div_pos; lia|].
  apply Z.div_lt_upper_bound; nia.
Qed.

(** ** One bit of an index

    The gates select basis states by one bit of the index. [flip_bit p i] is
    [i] with bit [p] inverted. *)

Section Bits.
Context (p : Z) (Hp : 0 <= p).

Lemma land_pow2_eqb i : (Z.land i (2 ^ p) =? 0) = negb (Z.testbit i p).
Proof.
  destruct (Z.testbit i p) eqn:Hb; simpl.
  - apply Z.eqb_neq. intros H. assert (Z.testbit (Z.land i (2 ^ p)) p = true) as Ht.
    { rewrite Z.land_spec, Hb, Z.pow2_bits_true by done. done. }
    rewrite H, Z.testbit_0_l in Ht. done.
  - apply Z.eqb_eq. apply Z.bits_inj'. intros k Hk.
    rewrite Z.land_spec, Z.testbit_0_l, Z.pow2_bits_eqb by done.
    destruct (Z.eqb_spec p k) as [<-|]; [by rewrite Hb|]. by rewrite andb_false_r.
Qed.

Lemma lor_pow2 i : Z.testbit i p = false → Z.lor i (2 ^ p) = i + 2 ^ p.
Proof.
  intros Hb. assert (Z.land i (2 ^ p) = 0) by (apply Z.eqb_eq; by rewrite land_pow2_eqb, Hb).
  pose proof (Z.add_lor_land i (2 ^ p)). lia.
Qed.

Lemma testbit_add_pow2 i : Z.testbit i p = false → Z.testbit (i + 2 ^ p) p = true.
Proof. intros Hb. rewrite <-lor_pow2, Z.lor_spec, Z.pow2_bits_true by done. by rewrite orb_true_r. Qed.

Lemma testbit_add_pow2_ne i q :
  Z.testbit i p = false → q ≠ p → Z.testbit (i + 2 ^ p) q = Z.testbit i q.
Proof.
  intros Hb Hne. rewrite <-lor_pow2, Z.lor_spec by done.
  rewrite Z.pow2_bits_false by lia. by rewrite orb_false_r.
Qed.

Lemma sub_pow2_clear i : Z.testbit i p = true → Z.testbit (i - 2 ^ p) p = false.
Proof.
  intros Hb. assert (i = Z.ldiff i (2 ^ p) + 2 ^ p) as Hi.
  { rewrite <-lor_pow2.
    - apply Z.bits_inj'. intros k Hk.
      rewrite Z.lor_spec, Z.ldiff_spec, Z.pow2_bits_eqb by done.
      destruct (Z.eqb_spec p k) as [<-|]; [rewrite Hb; done|].
      simpl. by rewrite andb_true_r, orb_false_r.
    - rewrite Z.ldiff_spec, Z.pow2_bits_true by done. by rewrite andb_false_r. }
  replace (i - 2 ^ p) with (Z.ldiff i (2 ^ p)) by lia.
  rewrite Z.ldiff_spec, Z.pow2_bits_true by done. by rewrite andb_false_r.
Qed.

Lemma testbit_le i : 0 <= i → Z.testbit i p = true → 2 ^ p <= i.
Proof.
  intros Hi Hb. destruct (Z.le_gt_cases (2 ^ p) i) as [|Hlt]; [done|].
  rewrite (Z.bits_above_log2 i p) in Hb; [done|done|].
  destruct (decide (i = 0)) as [->|]; [rewrite Z.testbit_0_l in Hb; done|].
  apply Z.log2_lt_pow2; lia.
Qed.

Lemma testbit_above i k : 0 <= i < 2 ^ k → k <= p → Z.testbit i p = false.
Proof.
  intros Hi Hk. destruct (Z.testbit i p) eqn:Hb; [|done].
  pose proof (testbit_le i (proj1 Hi) Hb).
  pose proof (Z.pow_le_mono_r 2 k p ltac:(lia) Hk). lia.
Qed.

Lemma add_pow2_lt i n :
  0 <= i < 2 ^ n → p < n → Z.testbit i p = false → i + 2 ^ p < 2 ^ n.
Proof.
  intros [Hi Hn] Hpn Hb. rewrite <-lor_pow2 by done.
  assert (0 <= Z.lor i (2 ^ p)) as H0 by (apply Z.lor_nonneg; split; [done|apply Z.pow_nonneg; lia]).
  destruct (decide (Z.lor i (2 ^ p) = 0)) as [->|]; [apply Z.pow_pos_nonneg; lia|].
  apply Z.log2_lt_pow2; [lia|]. rewrite Z.log2_lor, Z.log2_pow2 by (try done; apply Z.pow_nonneg; lia).
  apply Z.max_lub_lt; [|lia].
  destruct (decide (i = 0)) as [->|]; [simpl; lia|]. apply Z.log2_lt_pow2; lia.
Qed.

Definition flip_bit (i : Z) : Z :=
  if Z.testbit i p then i - 2 ^ p else i + 2 ^ p.

Lemma testbit_flip i : Z.testbit (flip_bit i) p = negb (Z.testbit i p).
Proof.
  unfold flip_bit. destruct (Z.testbit i p) eqn:Hb; [by apply sub_pow2_clear|by apply testbit_add_pow2].
Qed.

Lemma testbit_flip_ne i q : q ≠ p → Z.testbit (flip_bit i) q = Z.testbit i q.
Proof.
  intros Hne. unfold flip_bit. destruct (Z.testbit i p) eqn:Hb; [|by apply testbit_add_pow2_ne].
  rewrite <-(testbit_add_pow2_ne (i - 2 ^ p) q) by (done || by apply sub_pow2_clear).
  by replace (i - 2 ^ p + 2 ^ p) with i by lia.
Qed.

Lemma flip_bit_involutive i : flip_bit (flip_bit i) = i.
Proof.
  unfold flip_bit at 1. rewrite testbit_flip. unfold flip_bit.
  destruct (Z.testbit i p); simpl; lia.
Qed.

Lemma flip_bit_range i n : 0 <= i < 2 ^ n → p < n → 0 <= flip_bit i < 2 ^ n.
Proof.
  intros Hi Hn. assert (0 < 2 ^ p) by (apply Z.pow_pos_nonneg; lia).
  unfold flip_bit. destruct (Z.testbit i p) eqn:Hb.
  - pose proof (testbit_le i (proj1 Hi) Hb). lia.
  - pose proof (add_pow2_lt i n Hi Hn Hb). lia.
Qed.
End Bits.

(** ** Sums of counters *)

Definition sumZ (l : list Z) : Z := foldr Z.add 0 l.

Lemma sumZ_replicate n : sumZ (replicate n 0) = 0.
Proof. induction n; simpl; lia. Qed.

Lemma sumZ_insert l i (x y : Z) : l !! i = Some x → sumZ (<[i := y]> l) = sumZ l - x + y.
Proof.
  revert i. induction l as [|z l IH]; intros [|i] Hx; simplify_eq/=; [lia|]. rewrite IH by done. lia.
Qed.

Lemma sumZ_elem_le l i x : Forall (λ c, 0 <= c) l → l !! i = Some x → x <= sumZ l.
Proof.
  intros Hl. revert i. induction Hl as [|z l Hz Hl IH]; intros [|i] Hx; simplify_eq/=.
  - clear IH. assert (0 <= sumZ l); [|lia]. induction Hl; simpl; lia.
  - specialize (IH i Hx). lia.
Qed.

(** ** Automation *)

(** Case analysis on the tests of the code under scrutiny. *)
Ltac case_tests :=
  repeat match goal with
  | |- context [if ?b then _ else _] => destruct b eqn:?
  | H : context [if ?b then _ else _] |- _ => destruct b eqn:?
  end.

(** Boolean comparisons of the source turned into propositions. *)
Ltac unbool :=
  repeat match goal with
  | H : (_ && _)%bool = true |- _ => apply andb_prop in H as [? ?]
  | H : (_ || _)%bool = false |- _ => apply orb_false_elim in H as [? ?]
  | H : (_ =? _) = true |- _ => apply Z.eqb_eq in H
  | H : (_ =? _) = false |- _ => apply Z.eqb_neq in H
  | H : (_ <=? _) = true |- _ => apply Z.leb_le in H
  | H : (_ <=? _) = false |- _ => apply Z.leb_gt in H
  | H : (_ <? _) = true |- _ => apply Z.ltb_lt in H
  | H : (_ <? _) = false |- _ => apply Z.ltb_ge in H
  | H : negb _ = true |- _ => apply negb_true_iff in H
  | H : negb _ = false |- _ => apply negb_false_iff in H
  end.

Create HintDb qnova.
Create Rewrite HintDb qnova.
#[export] Hint Resolve wrap_in_width : qnova.
#[export] Hint Rewrite wrap_small using done : qnova.
