(* ===== verification/Float64.v ===== *)
(** * Floating-point numbers of the C sources

    The C code computes on [double]. [FloatOps] is the interface its numeric
    routines use; the instance [b64_ops] is IEEE-754 binary64 with rounding to
    nearest even, computed by the Standard Library's executable specification
    [SpecFloat] (mantissa and exponent in [Z]; no axiom and no primitive
    float). A second instance, the real numbers, is in [KernelReal].

    The file also has the bit pattern of a [double] (what [memcpy] to a
    [uint64_t] shows; NaN payloads are not distinguished, every NaN is the
    quiet NaN) and the x87 [long double] format used by the norm conversion. *)

From Stdlib Require Import ZArith Lia ZifyBool SpecFloat.
From stdpp Require Import base list numbers.
From S2P Require Import Prelude.
Open Scope Z_scope.

(** ** The interface *)

Class FloatOps (F : Type) := {
  f_of_Z : Z → F;
  f_add : F → F → F;
  f_sub : F → F → F;
  f_mul : F → F → F;
  f_div : F → F → F;
  f_sqrt : F → F;
  f_abs : F → F;
  f_ltb : F → F → bool;
  f_leb : F → F → bool;
  f_isfinite : F → bool
}.

Declare Scope float_scope.
Delimit Scope float_scope with float.
Infix "+" := f_add : float_scope.
Infix "-" := f_sub : float_scope.
Infix "*" := f_mul : float_scope.
Infix "/" := f_div : float_scope.
Infix "<" := f_ltb : float_scope.
Infix "<=" := f_leb : float_scope.

Section Derived.
Context {F : Type} `{FloatOps F}.
Definition f_zero : F := f_of_Z 0.
Definition f_one : F := f_of_Z 1.
(** [1.0 / sqrt(2.0)] *)
Definition inv_sqrt2 : F := f_div (f_of_Z 1) (f_sqrt (f_of_Z 2)).
End Derived.

(** What the state preparation relies on: the few exact sums and products of
    0, 1 and [inv_sqrt2] it computes, and that the squared amplitude is
    strictly positive. Both binary64 and the reals satisfy them. *)
Class GHZFloat (F : Type) `{FloatOps F} := {
  ghz_add_0_0 : f_add f_zero f_zero = f_zero;
  ghz_add_1_0 : f_add f_one f_zero = f_one;
  ghz_add_0_1 : f_add f_zero f_one = f_one;
  ghz_sub_1_0 : f_sub f_one f_zero = f_one;
  ghz_sub_0_0 : f_sub f_zero f_zero = f_zero;
  ghz_mul_0_0 : f_mul f_zero f_zero = f_zero;
  ghz_mul_1_1 : f_mul f_one f_one = f_one;
  ghz_mul_0_s : f_mul f_zero inv_sqrt2 = f_zero;
  ghz_mul_1_s : f_mul f_one inv_sqrt2 = inv_sqrt2;
  ghz_sq_add_0 : f_add (f_mul inv_sqrt2 inv_sqrt2) f_zero = f_mul inv_sqrt2 inv_sqrt2;
  ghz_0_add_sq : f_add f_zero (f_mul inv_sqrt2 inv_sqrt2) = f_mul inv_sqrt2 inv_sqrt2
}.
#[export] Hint Rewrite @ghz_add_0_0 @ghz_add_1_0 @ghz_add_0_1 @ghz_sub_1_0 @ghz_sub_0_0
  @ghz_mul_0_0 @ghz_mul_1_1 @ghz_mul_0_s @ghz_mul_1_s @ghz_sq_add_0 @ghz_0_add_sq
  using typeclasses eauto : qnova.

(** ** Binary64 *)

Abbreviation double := spec_float.

Definition b64_of_Z (z : Z) : double := binary_normalize 53 1024 z 0 false.

Definition sf_isfinite (x : double) : bool :=
  match x with S754_nan | S754_infinity _ => false | _ => true end.

#[export] Instance b64_ops : FloatOps double := {|
  f_of_Z := b64_of_Z;
  f_add := SFadd 53 1024;
  f_sub := SFsub 53 1024;
  f_mul := SFmul 53 1024;
  f_div := SFdiv 53 1024;
  f_sqrt := SFsqrt 53 1024;
  f_abs := SFabs;
  f_ltb := SFltb;
  f_leb := SFleb;
  f_isfinite := sf_isfinite
|}.

#[export] Instance b64_ghz : GHZFloat double.
Proof. split; vm_compute; reflexivity. Qed.

Definition valid_double (x : double) : Prop := valid_binary 53 1024 x = true.

(** The literal [1e-12]. *)
Definition lit_1em12 : double := S754_finite false 4951760157141521 (-92).

(** The decimal literals [1e-9] and [3.14159265358979323846] of the circuit
    sources, as the number type has them. *)
Class FloatLits (F : Type) := { lit_1em9 : F; lit_pi : F }.

#[export] Instance b64_lits : FloatLits double := {|
  lit_1em9 := S754_finite false 4835703278458517 (-82);
  lit_pi := S754_finite false 7074237752028440 (-51)
|}.

(** [-x]; the sign of a NaN apart, negation is multiplication by [-1]. *)
Definition f_neg {F} `{FloatOps F} (x : F) : F := f_mul (f_of_Z (-1)) x.

(** ** The bit pattern of a double *)

Definition double_to_u64 (x : double) : Z :=
  let sgn (s : bool) := if s then 2 ^ 63 else 0 in
  match x with
  | S754_zero s => sgn s
  | S754_infinity s => sgn s + 2047 * 2 ^ 52
  | S754_nan => 2047 * 2 ^ 52 + 2 ^ 51
  | S754_finite s m e =>
      if Z.pos m <? 2 ^ 52 then sgn s + Z.pos m
      else sgn s + (e + 1075) * 2 ^ 52 + (Z.pos m - 2 ^ 52)
  end.

Definition u64_to_double (bits : Z) : double :=
  let s := Z.testbit bits 63 in
  let ex := (bits / 2 ^ 52) mod 2 ^ 11 in
  let frac := bits mod 2 ^ 52 in
  if ex =? 0 then
    match frac with Zpos m => S754_finite s m (-1074) | _ => S754_zero s end
  else if ex =? 2047 then
    if frac =? 0 then S754_infinity s else S754_nan
  else
    S754_finite s (Z.to_pos (2 ^ 52 + frac)) (ex - 1075).

(** Patterns of NaNs. *)
Definition nan_bits (bits : Z) : bool :=
  ((bits / 2 ^ 52) mod 2 ^ 11 =? 2047) && negb (bits mod 2 ^ 52 =? 0).

Lemma digits2_pos_bounds m :
  2 ^ (Z.pos (digits2_pos m) - 1) <= Z.pos m < 2 ^ Z.pos (digits2_pos m).
Proof.
  induction m as [m IH|m IH|]; simpl digits2_pos; [| |done];
    rewrite Pos2Z.inj_succ, (Z.pow_succ_r 2) by lia;
    replace (Z.succ (Z.pos (digits2_pos m)) - 1) with (Z.succ (Z.pos (digits2_pos m) - 1)) by lia;
    rewrite (Z.pow_succ_r 2) by lia; lia.
Qed.

Lemma digits2_pos_le m d : Z.pos m < 2 ^ d → Z.pos (digits2_pos m) <= d.
Proof.
  intros Hm. pose proof (digits2_pos_bounds m) as [Hl _].
  destruct (Z.le_gt_cases (Z.pos (digits2_pos m)) d) as [|Hgt]; [done|].
  assert (2 ^ d <= 2 ^ (Z.pos (digits2_pos m) - 1)) by (apply Z.pow_le_mono_r; lia). lia.
Qed.

Lemma digits2_pos_ge m d : 0 <= d → 2 ^ d <= Z.pos m → d < Z.pos (digits2_pos m).
Proof.
  intros Hd Hm. pose proof (digits2_pos_bounds m) as [_ Hu].
  apply (Z.pow_lt_mono_r_iff 2); lia.
Qed.

(** A valid finite double is subnormal or has a full 53-bit mantissa. *)
Lemma bounded_cases m e :
  bounded 53 1024 m e = true ↔
  (Z.pos m < 2 ^ 52 ∧ e = -1074) ∨ (2 ^ 52 <= Z.pos m < 2 ^ 53 ∧ -1074 <= e <= 971).
Proof.
  pose proof (digits2_pos_bounds m) as Hd.
  unfold bounded, canonical_mantissa, fexp, emin. rewrite andb_true_iff, Z.eqb_eq, Z.leb_le.
  split.
  - intros [Hc He]. destruct (Z.lt_ge_cases (Z.pos m) (2 ^ 52)) as [Hlt|Hge].
    + left. pose proof (digits2_pos_le m 52 Hlt). lia.
    + right. pose proof (digits2_pos_ge m 52 ltac:(lia) Hge).
      assert (Z.pos (digits2_pos m) = 53) as Hd53 by lia. rewrite Hd53 in Hd. lia.
  - intros [[Hlt ->]|[[Hge Hlt] He]].
    + pose proof (digits2_pos_le m 52 Hlt). lia.
    + pose proof (digits2_pos_ge m 52 ltac:(lia) Hge). pose proof (digits2_pos_le m 53 Hlt). lia.
Qed.

(** Reading the three fields of a pattern back. *)
Lemma bits_fields (s : bool) ex frac :
  0 <= ex < 2 ^ 11 → 0 <= frac < 2 ^ 52 →
  let bits := (if s then 2 ^ 63 else 0) + ex * 2 ^ 52 + frac in
  Z.testbit bits 63 = s ∧ (bits / 2 ^ 52) mod 2 ^ 11 = ex ∧ bits mod 2 ^ 52 = frac.
Proof.
  intros Hex Hfr bits. assert (bits / 2 ^ 63 = if s then 1 else 0) as H63.
  { subst bits. destruct s; Z.to_euclidean_division_equations; lia. }
  rewrite Z.testbit_odd, Z.shiftr_div_pow2, H63 by done.
  split; [by destruct s|]. subst bits.
  destruct s; Z.to_euclidean_division_equations; lia.
Qed.

Lemma bits_split bits :
  in_width 64 bits →
  bits = (if Z.testbit bits 63 then 2 ^ 63 else 0)
         + (bits / 2 ^ 52) mod 2 ^ 11 * 2 ^ 52 + bits mod 2 ^ 52.
Proof.
  intros [H0 H1]. rewrite Z.testbit_odd, Z.shiftr_div_pow2 by done.
  assert (bits / 2 ^ 63 = 0 ∨ bits / 2 ^ 63 = 1) as Hq by (Z.to_euclidean_division_equations; lia).
  assert (2 ^ 63 * (bits / 2 ^ 63) <= bits < 2 ^ 63 * (bits / 2 ^ 63) + 2 ^ 63) as Hb
    by (Z.to_euclidean_division_equations; lia).
  destruct Hq as [Hq|Hq]; rewrite Hq in *; simpl Z.odd; cbv iota;
    Z.to_euclidean_division_equations; lia.
Qed.

(** The pattern as sign, exponent field and fraction field. *)
Lemma double_to_u64_fields x :
  valid_double x →
  ∃ s ex frac, 0 <= ex < 2 ^ 11 ∧ 0 <= frac < 2 ^ 52 ∧
    double_to_u64 x = (if s : bool then 2 ^ 63 else 0) + ex * 2 ^ 52 + frac ∧
    match x with
    | S754_zero s' => s' = s ∧ ex = 0 ∧ frac = 0
    | S754_infinity s' => s' = s ∧ ex = 2047 ∧ frac = 0
    | S754_nan => s = false ∧ ex = 2047 ∧ frac = 2 ^ 51
    | S754_finite s' m e => s' = s ∧
        (ex = 0 ∧ frac = Z.pos m ∧ e = -1074 ∨
         ex ≠ 0 ∧ ex ≠ 2047 ∧ Z.pos m = 2 ^ 52 + frac ∧ e = ex - 1075)
    end.
Proof.
  unfold valid_double. destruct x as [s|s| |s m e]; simpl valid_binary; intros Hv.
  - exists s, 0, 0. repeat split; try lia. simpl; lia.
  - exists s, 2047, 0. repeat split; try lia. simpl; lia.
  - exists false, 2047, (2 ^ 51). repeat split; lia.
  - unfold double_to_u64. apply bounded_cases in Hv as [[Hm ->]|[[Hl Hu] He]].
    + rewrite (proj2 (Z.ltb_lt _ _) Hm). exists s, 0, (Z.pos m). split_and!; lia.
    + rewrite (proj2 (Z.ltb_ge _ _) Hl). exists s, (e + 1075), (Z.pos m - 2 ^ 52).
      split_and!; lia.
Qed.

Lemma double_to_u64_range x : valid_double x → in_width 64 (double_to_u64 x).
Proof.
  intros (s & ex & fr & Hex & Hfr & -> & _)%double_to_u64_fields.
  unfold in_width. destruct s; lia.
Qed.

Lemma u64_to_double_to_u64 x : valid_double x → u64_to_double (double_to_u64 x) = x.
Proof.
  intros (s & ex & fr & Hex & Hfr & -> & Hx)%double_to_u64_fields.
  pose proof (bits_fields s ex fr Hex Hfr) as (Hs & He & Hf). cbv zeta in *.
  unfold u64_to_double. rewrite Hs, He, Hf.
  destruct x as [s'|s'| |s' m e].
  - by destruct Hx as (-> & -> & ->).
  - by destruct Hx as (-> & -> & ->).
  - by destruct Hx as (-> & -> & ->).
  - destruct Hx as (-> & [(-> & -> & ->)|(H0 & H1 & Hm & ->)]); [done|].
    rewrite (proj2 (Z.eqb_neq _ _) H0), (proj2 (Z.eqb_neq _ _) H1). by rewrite <-Hm.
Qed.

Lemma double_to_u64_to_double bits :
  in_width 64 bits → nan_bits bits = false → double_to_u64 (u64_to_double bits) = bits.
Proof.
  intros Hw Hn. pose proof (bits_split bits Hw) as Hb. unfold nan_bits in Hn.
  unfold u64_to_double.
  assert (0 <= (bits / 2 ^ 52) mod 2 ^ 11 < 2 ^ 11) as Hex by (apply Z.mod_pos_bound; lia).
  assert (0 <= bits mod 2 ^ 52 < 2 ^ 52) as Hfr by (apply Z.mod_pos_bound; lia).
  revert Hb Hn Hex Hfr. generalize ((bits / 2 ^ 52) mod 2 ^ 11) (bits mod 2 ^ 52) (Z.testbit bits 63).
  intros ex fr s -> Hn Hex Hfr.
  destruct (Z.eqb_spec ex 0) as [->|He0].
  { destruct fr as [|m|m]; [simpl; lia| |lia]. simpl double_to_u64.
    rewrite (proj2 (Z.ltb_lt _ _) (proj2 Hfr)). lia. }
  destruct (Z.eqb_spec ex 2047) as [->|He1].
  { destruct (Z.eqb_spec fr 0) as [->|]; [simpl; lia|done]. }
  unfold double_to_u64. rewrite Z2Pos.id by lia.
  rewrite (proj2 (Z.ltb_ge _ _)) by lia. lia.
Qed.

Lemma u64_to_double_valid bits : valid_double (u64_to_double bits).
Proof.
  unfold valid_double, u64_to_double.
  assert (0 <= (bits / 2 ^ 52) mod 2 ^ 11 < 2 ^ 11) as Hex by (apply Z.mod_pos_bound; lia).
  assert (0 <= bits mod 2 ^ 52 < 2 ^ 52) as Hfr by (apply Z.mod_pos_bound; lia).
  revert Hex Hfr. generalize ((bits / 2 ^ 52) mod 2 ^ 11) (bits mod 2 ^ 52) (Z.testbit bits 63).
  intros ex fr s Hex Hfr.
  destruct (Z.eqb_spec ex 0); [destruct fr as [|m|m]; try done|].
  - apply bounded_cases. left. lia.
  - destruct (Z.eqb_spec ex 2047); [by destruct (fr =? 0)|].
    apply bounded_cases. right. rewrite Z2Pos.id by lia. lia.
Qed.

#[export] Hint Resolve double_to_u64_range u64_to_double_valid : qnova.

(** ** Exact conversions and scalings *)

Lemma iter_pos_nat {A} (f : A → A) n x : SpecFloat.iter_pos f n x = Nat.iter (Pos.to_nat n) f x.
Proof.
  revert x. induction n as [n IH|n IH|]; intros x; simpl SpecFloat.iter_pos; [| |done];
    rewrite !IH, <-Nat.iter_add.
  - replace (Pos.to_nat n~1) with (Datatypes.S (Pos.to_nat n + Pos.to_nat n)) by lia.
    by rewrite Nat.iter_succ_r.
  - by replace (Pos.to_nat n~0) with (Pos.to_nat n + Pos.to_nat n)%nat by lia.
Qed.

Lemma shr_exact_nat m k :
  Nat.iter k shr_1 (Build_shr_record (Z.pos m * 2 ^ Z.of_nat k) false false) =
  Build_shr_record (Z.pos m) false false.
Proof.
  induction k as [|k IH]; [by rewrite Z.mul_1_r|]. rewrite Nat.iter_succ_r, <-IH. f_equal.
  replace (Z.pos m * 2 ^ Z.of_nat (Datatypes.S k)) with (2 * (Z.pos m * 2 ^ Z.of_nat k))
    by (rewrite Nat2Z.inj_succ, Z.pow_succ_r by lia; lia).
  assert (0 < Z.pos m * 2 ^ Z.of_nat k) as H by (assert (0 < 2 ^ Z.of_nat k) by (apply Z.pow_pos_nonneg; lia); nia).
  by destruct (Z.pos m * 2 ^ Z.of_nat k).
Qed.

Lemma shr_exact m k e :
  0 <= k →
  shr (Build_shr_record (Z.pos m * 2 ^ k) false false) e k =
  (Build_shr_record (Z.pos m) false false, e + k).
Proof.
  intros Hk. destruct k as [|k|k]; [by rewrite Z.mul_1_r, Z.add_0_r| |lia].
  unfold shr. rewrite iter_pos_nat. f_equal. rewrite <-(shr_exact_nat m (Pos.to_nat k)).
  by rewrite positive_nat_Z.
Qed.

Lemma digits2_pos_unique m d : 2 ^ (d - 1) <= Z.pos m < 2 ^ d → 0 < d → Z.pos (digits2_pos m) = d.
Proof.
  intros [Hl Hu] Hd. pose proof (digits2_pos_le m d Hu).
  pose proof (digits2_pos_ge m (d - 1) ltac:(lia) Hl). lia.
Qed.

Lemma digits2_shift m k :
  2 ^ 52 <= Z.pos m < 2 ^ 53 → 0 <= k → Zdigits2 (Z.pos m * 2 ^ k) = 53 + k.
Proof.
  intros Hm Hk. assert (0 < 2 ^ k) by (apply Z.pow_pos_nonneg; lia).
  destruct (Z.pos m * 2 ^ k) as [|q|q] eqn:Hq; [nia| |nia]. simpl.
  apply digits2_pos_unique; [|lia]. rewrite <-Hq.
  replace (53 + k - 1) with (52 + k) by lia. rewrite !Z.pow_add_r by lia. nia.
Qed.

(** A 53-bit mantissa with [k] zero bits appended rounds to itself. *)
Lemma binary_round_aux_exact s m k e :
  2 ^ 52 <= Z.pos m < 2 ^ 53 → 0 <= k → -1074 <= e + k <= 971 →
  binary_round_aux 53 1024 s (Z.pos m * 2 ^ k) e loc_Exact = S754_finite s m (e + k).
Proof.
  intros Hm Hk He. unfold binary_round_aux, shr_fexp, fexp, emin. simpl shr_record_of_loc.
  rewrite digits2_shift by done.
  replace (Z.max (53 + k + e - 53) (3 - 1024 - 53) - e) with k by lia.
  rewrite shr_exact by done. simpl loc_of_shr_record. simpl shr_m. unfold round_nearest_even.
  rewrite <-(Z.mul_1_r (Z.pos m)). change 1 with (2 ^ 0). rewrite digits2_shift by (done || lia).
  replace (Z.max (53 + 0 + (e + k) - 53) (3 - 1024 - 53) - (e + k)) with 0 by lia.
  simpl. rewrite (proj2 (Z.leb_le _ _)) by lia. by rewrite Pos.mul_1_r.
Qed.

Lemma Pos_iter_xO m d : Z.pos (Pos.iter xO m d) = Z.pos m * 2 ^ Z.pos d.
Proof.
  revert m. induction d as [|d IH] using Pos.peano_ind; intros m; [simpl; lia|].
  rewrite Pos.iter_succ, Pos2Z.inj_xO, IH, Pos2Z.inj_succ, Z.pow_succ_r by lia. lia.
Qed.

(** Conversion of a 53-bit unsigned integer to [double] is exact. *)
Lemma b64_of_Z_exact v :
  0 < v < 2 ^ 53 →
  ∃ m d, b64_of_Z v = S754_finite false m (- d) ∧ 0 <= d <= 52 ∧
    2 ^ 52 <= Z.pos m < 2 ^ 53 ∧ Z.pos m = v * 2 ^ d.
Proof.
  intros [Hv Hu]. destruct v as [|v|v]; [lia| |lia]. unfold b64_of_Z, binary_normalize, binary_round.
  pose proof (digits2_pos_le v 53 Hu). pose proof (digits2_pos_bounds v) as [Hl Hh].
  set (d := 53 - Z.pos (digits2_pos v)) in *.
  assert (2 ^ 52 <= Z.pos v * 2 ^ d < 2 ^ 53) as Hm.
  { replace 52 with (Z.pos (digits2_pos v) - 1 + d) by lia.
    replace (2 ^ 53) with (2 ^ (Z.pos (digits2_pos v) + d)) by (f_equal; lia).
    rewrite !Z.pow_add_r by lia. assert (0 < 2 ^ d) by (apply Z.pow_pos_nonneg; lia). nia. }
  unfold fexp, emin. rewrite Z.add_0_r.
  replace (Z.max (Z.pos (digits2_pos v) - 53) (3 - 1024 - 53)) with (- d) by lia.
  assert (∃ m, shl_align v 0 (- d) = (m, - d) ∧ Z.pos m = Z.pos v * 2 ^ d) as (m & -> & Hmd).
  { unfold shl_align. rewrite Z.sub_0_r. destruct (- d) as [|p|p] eqn:Hd.
    - exists v. replace d with 0 by lia. split; [done|lia].
    - lia.
    - exists (Pos.iter xO v p). rewrite Pos_iter_xO. replace d with (Z.pos p) by lia. done. }
  rewrite <-Hmd in Hm. exists m, d. split_and!; try lia.
  pose proof (binary_round_aux_exact false m 0 (- d) ltac:(lia) ltac:(lia) ltac:(lia)) as Hr.
  rewrite Z.mul_1_r, Z.add_0_r in Hr. done.
Qed.

(** [(double)v * 2^-53] for a 53-bit [v] is in [[0, 1)]. *)
Definition two_m53 : double := f_div (f_of_Z 1) (f_of_Z 9007199254740992).

Lemma b64_unit_range v :
  0 <= v < 2 ^ 53 →
  let x := f_mul (f_of_Z v) two_m53 in
  f_ltb x f_zero = false ∧ f_ltb x f_one = true.
Proof.
  intros Hv. destruct (decide (v = 0)) as [->|Hne]; [split; vm_compute; reflexivity|].
  destruct (b64_of_Z_exact v ltac:(lia)) as (m & d & Hx & Hd & Hm & _). simpl f_of_Z. rewrite Hx.
  change two_m53 with (S754_finite false 4503599627370496 (-105)). simpl f_mul.
  unfold SFmul. rewrite Pos2Z.inj_mul. change 4503599627370496%positive with (2 ^ 52)%positive.
  change (Z.pos (2 ^ 52)) with (2 ^ 52). simpl xorb.
  rewrite binary_round_aux_exact by lia. split; [done|].
  change (@f_one double _) with (S754_finite false 4503599627370496 (-52)). simpl f_ltb.
  unfold SFltb, SFcompare.
  assert (Z.compare (- d + -105 + 52) (-52) = Lt) as -> by (apply Z.compare_lt_iff; lia). done.
Qed.
