(* ===== verification/Sys.v ===== *)
(** * Programs that call the operating system

    The device stack talks to sockets, clocks and signals and shares state
    under a mutex. Such a C function is a [prog]: a tree of system calls, each
    with a continuation for every answer, and of critical sections ([Crit]),
    each an atomic update of the shared state that waits while it is not
    enabled (another thread holds the mutex). [Undefined] is undefined
    behaviour; [Spin] is a loop whose fuel ran out.

    The operating system is a parameter, the class [OS]: a relation that says
    which answers a call may get, with the documented behaviour of POSIX the
    code relies on as its laws. [wp] is the weakest precondition of a program
    run among other threads ([R] is what they may do between two of its steps,
    [Inv] what must hold at every step), [wp_sound] relates it to the
    small-step semantics [step], and [run] executes a program against a
    scripted operating system. *)

From Stdlib Require Import ZArith Lia ZifyBool.
From stdpp Require Import base list numbers relations gmap.
From S2P Require Import Prelude.
Open Scope Z_scope.

(** ** Constants of the platform (Linux) *)

Definition EINTR : Z := 4.
Definition ENOENT : Z := 2.
Definition EIO : Z := 5.
Definition EBADF : Z := 9.
Definition EAGAIN : Z := 11.
Definition ENOMEM : Z := 12.
Definition EFAULT : Z := 14.
Definition EBUSY : Z := 16.
Definition ENODEV : Z := 19.
Definition EINVAL : Z := 22.
Definition ENOTTY : Z := 25.
Definition ERANGE : Z := 34.
Definition ENAMETOOLONG : Z := 36.
Definition EPROTO : Z := 71.
Definition EPROTONOSUPPORT : Z := 93.
Definition EOPNOTSUPP : Z := 95.
Definition ETIMEDOUT : Z := 110.
Definition ECONNREFUSED : Z := 111.
Definition EINPROGRESS : Z := 115.
Definition ECANCELED : Z := 125.

Definition POLLIN : Z := 1.
Definition POLLOUT : Z := 4.
Definition POLLERR : Z := 8.
Definition POLLHUP : Z := 16.
Definition POLLNVAL : Z := 32.
Definition O_NONBLOCK : Z := 2048.
Definition INT_MAX : Z := 2147483647.
Definition UINT64_MAX : Z := 18446744073709551615.

(** ** System calls and their answers *)

(** The answer of [read]: bytes, end of file (0), or [-1] with [errno]. *)
Inductive read_answer : Set :=
| RData (bs : list Z)
| REof
| RErr (errno : Z).

(** The answer of [send]: a count (possibly 0) or [-1] with [errno]. *)
Inductive send_answer : Set :=
| WCount (n : Z)
| WErr (errno : Z).

(** The answer of [poll]: ready with [revents], 0 (timeout), or [-1]. *)
Inductive poll_answer : Set :=
| PReady (revents : Z)
| PTimeout
| PErr (errno : Z).

(** A call that returns a descriptor or [-1] with [errno]. *)
Inductive fd_answer : Set :=
| FdOk (fd : Z)
| FdErr (errno : Z).

Inductive sys : Set → Type :=
| Clock : sys (Z * Z + Z)                     (* clock_gettime: seconds and nanoseconds, or the errno *)
| GetFl (fd : Z) : sys (Z + Z)                (* fcntl F_GETFL: the flags, or the errno *)
| SetFl (fd flags : Z) : sys Z                (* fcntl F_SETFL: 0, or the errno *)
| StopFlag : sys bool                         (* a read of the volatile stop flag *)
| Poll (fd events timeout : Z) : sys poll_answer
| Read (fd : Z) (n : Z) : sys read_answer
| Send (fd : Z) (bs : list Z) : sys send_answer
| Socket : sys fd_answer
| Connect (fd : Z) (path : list Z) : sys Z    (* 0, or the errno *)
| GetSockErr (fd : Z) : sys (Z + Z)           (* getsockopt SO_ERROR: its value, or the errno *)
| Shutdown (fd how : Z) : sys bool            (* success *)
| Close (fd : Z) : sys Z.                     (* 0, or the errno *)

Definition SHUT_WR : Z := 1.
Definition SHUT_RDWR : Z := 2.

(** ** Programs *)

Inductive prog (S A : Type) : Type :=
| Ret (a : A)
| Sys {X : Set} (c : sys X) (k : X → prog S A)
| Crit {X : Set} (f : S → option (X * S)) (k : X → prog S A)
| Undefined
| Spin.
Arguments Ret {S A}.
Arguments Sys {S A X}.
Arguments Crit {S A X}.
Arguments Undefined {S A}.
Arguments Spin {S A}.

#[global] Instance prog_ret S : MRet (prog S) := λ A a, Ret a.

Fixpoint prog_bind_fix {S A B} (f : A → prog S B) (p : prog S A) : prog S B :=
  match p with
  | Ret a => f a
  | Sys c k => Sys c (λ x, prog_bind_fix f (k x))
  | Crit g k => Crit g (λ x, prog_bind_fix f (k x))
  | Undefined => Undefined
  | Spin => Spin
  end.

#[global] Instance prog_bind S : MBind (prog S) := λ A B f p, prog_bind_fix f p.

Definition call {S} {X : Set} (c : sys X) : prog S X := Sys c Ret.
Definition crit {S} {X : Set} (f : S → option (X * S)) : prog S X := Crit f Ret.

(** Signed 64-bit arithmetic: an overflow is undefined. *)
Definition i64 {S} (z : Z) : prog S Z :=
  if (- 2 ^ 63 <=? z) && (z <? 2 ^ 63) then Ret z else Undefined.

(** A value whose absence is undefined behaviour. *)
Definition defined {S A} (o : option A) : prog S A :=
  match o with Some a => Ret a | None => Undefined end.

(** ** The operating system *)

Class OS (W : Type) := {
  os_step {X : Set} : sys X → W → X → W → Prop;
  (** What has been read from and written to each descriptor. *)
  recvd : W → Z → list Z;
  sent : W → Z → list Z;
  (** The descriptors of the process that are open. *)
  fd_open : W → Z → Prop;
  (** The monotonic clock does not overflow a 64-bit count of nanoseconds. *)
  os_clock w sec nsec w' : os_step Clock w (inl (sec, nsec)) w' →
    0 <= sec < 2 ^ 33 ∧ 0 <= nsec < 1000000000;
  (** [read] returns at most as many bytes as asked for, and at least one
      when it returns any; they are the next bytes of the stream. *)
  os_read fd n w bs w' : os_step (Read fd n) w (RData bs) w' →
    0 < Z.of_nat (length bs) <= n ∧ Forall (in_width 8) bs ∧ recvd w' fd = recvd w fd ++ bs;
  os_read_none fd n w a w' : os_step (Read fd n) w a w' →
    (∀ bs, a ≠ RData bs) → recvd w' fd = recvd w fd;
  (** [send] takes a prefix of the buffer. *)
  os_send fd bs w n w' : os_step (Send fd bs) w (WCount n) w' →
    0 <= n <= Z.of_nat (length bs) ∧ sent w' fd = sent w fd ++ take (Z.to_nat n) bs;
  os_send_err fd bs w e w' : os_step (Send fd bs) w (WErr e) w' → sent w' fd = sent w fd;
  (** A new descriptor is non-negative and was closed; its streams are empty. *)
  os_socket w fd w' : os_step Socket w (FdOk fd) w' →
    0 <= fd ∧ ¬ fd_open w fd ∧ fd_open w' fd ∧ recvd w' fd = [] ∧ sent w' fd = [];
  (** After [close] the descriptor is closed, whatever it returns. *)
  os_close fd w e w' : os_step (Close fd) w e w' → ¬ fd_open w' fd;
  (** Other calls leave the streams alone, and only [socket] and [close]
      change which descriptors are open. *)
  os_frame_recvd {X : Set} (c : sys X) w x w' fd : os_step c w x w' →
    match c with Read fd' _ => fd ≠ fd' | Socket | Close _ => fd_open w fd | _ => True end →
    recvd w' fd = recvd w fd;
  os_frame_sent {X : Set} (c : sys X) w x w' fd : os_step c w x w' →
    match c with Send fd' _ => fd ≠ fd' | Socket | Close _ => fd_open w fd | _ => True end →
    sent w' fd = sent w fd;
  os_frame_open {X : Set} (c : sys X) w x w' fd : os_step c w x w' →
    match c with Socket => fd_open w fd | Close fd' => fd ≠ fd' | _ => True end →
    fd_open w fd → fd_open w' fd
}.

(** ** Weakest preconditions *)

Section WP.
Context {S W : Type} `{OS W}.

(** What the other threads may do between two steps, what must hold at every
    step, and whether running out of fuel is allowed. Where a critical section
    waits for another thread, that thread can let it in. *)
Context (R : S * W → S * W → Prop) (Inv : S → W → Prop) (spin_ok : Prop).

Fixpoint wp {A} (p : prog S A) (Q : A → S → W → Prop) (s : S) (w : W) : Prop :=
  Inv s w ∧
  match p with
  | Ret a => Q a s w
  | Sys c k => ∀ s1 w1, R (s, w) (s1, w1) → Inv s1 w1 → ∀ x w2, os_step c w1 x w2 → wp (k x) Q s1 w2
  | Crit f k => ∀ s1 w1, R (s, w) (s1, w1) → Inv s1 w1 →
      (∃ s2 w2, R (s1, w1) (s2, w2) ∧ is_Some (f s2)) ∧
      ∀ x s2, f s1 = Some (x, s2) → wp (k x) Q s2 w1
  | Undefined => False
  | Spin => spin_ok
  end.

Lemma wp_inv {A} (p : prog S A) Q s w : wp p Q s w → Inv s w.
Proof. by destruct p; intros [? _]. Qed.

Lemma wp_ret {A} (a : A) (Q : A → S → W → Prop) s w : Inv s w → Q a s w → wp (Ret a) Q s w.
Proof. by split. Qed.

Lemma wp_bind {A B} (f : A → prog S B) p Q s w :
  wp p (λ a s w, wp (f a) Q s w) s w → wp (p ≫= f) Q s w.
Proof.
  unfold mbind, prog_bind. revert s w.
  induction p as [a|X c k IH|X g k IH| |]; intros s w; simpl; intros [Hi Hp]; try done.
  - split; [done|]. intros s1 w1 HR Hi1 x w2 Hstep. apply IH. by eapply Hp.
  - split; [done|]. intros s1 w1 HR Hi1. destruct (Hp s1 w1 HR Hi1) as [Hen Hf]. split; [done|]. eauto.
Qed.

Lemma wp_mono {A} (p : prog S A) (Q Q' : A → S → W → Prop) s w :
  wp p Q s w → (∀ a s w, Inv s w → Q a s w → Q' a s w) → wp p Q' s w.
Proof.
  intros Hp HQ. revert s w Hp. induction p as [a|X c k IH|X g k IH| |]; intros s w; simpl; intros [Hi Hp]; try done.
  - split; [done|]. by apply HQ.
  - split; [done|]. intros. by eapply IH, Hp.
  - split; [done|]. intros s1 w1 HR Hi1. destruct (Hp s1 w1 HR Hi1) as [Hen Hf]. split; [done|]. eauto.
Qed.

Lemma wp_call {X : Set} (c : sys X) (Q : X → S → W → Prop) s w :
  Inv s w →
  (∀ s1 w1 x w2, R (s, w) (s1, w1) → Inv s1 w1 → os_step c w1 x w2 → Inv s1 w2 ∧ Q x s1 w2) →
  wp (call c) Q s w.
Proof. intros Hi HQ. split; [done|]. simpl. eauto. Qed.

Lemma wp_crit {X : Set} (f : S → option (X * S)) (Q : X → S → W → Prop) s w :
  Inv s w →
  (∀ s1 w1, R (s, w) (s1, w1) → Inv s1 w1 → ∃ s2 w2, R (s1, w1) (s2, w2) ∧ is_Some (f s2)) →
  (∀ s1 w1 x s2, R (s, w) (s1, w1) → Inv s1 w1 → f s1 = Some (x, s2) → Inv s2 w1 ∧ Q x s2 w1) →
  wp (crit f) Q s w.
Proof. intros Hi Hen HQ. split; [done|]. simpl. eauto. Qed.

Lemma wp_defined {A} (o : option A) (a : A) (Q : A → S → W → Prop) s w :
  o = Some a → Inv s w → Q a s w → wp (defined o) Q s w.
Proof. intros ->. by split. Qed.

Lemma wp_i64 z (Q : Z → S → W → Prop) s w :
  - 2 ^ 63 <= z < 2 ^ 63 → Inv s w → Q z s w → wp (i64 z) Q s w.
Proof.
  intros Hz Hi HQ. unfold i64. assert ((- 2 ^ 63 <=? z) && (z <? 2 ^ 63) = true) as -> by lia. by split.
Qed.

(** ** Small steps *)

(** A step of the program, or of another thread. *)
Inductive step {A} : prog S A * S * W → prog S A * S * W → Prop :=
| step_sys {X : Set} (c : sys X) k s w x w' :
    os_step c w x w' → step (Sys c k, s, w) (k x, s, w')
| step_crit {X : Set} (f : S → option (X * S)) k s w x s' :
    f s = Some (x, s') → step (Crit f k, s, w) (k x, s', w)
| step_env p s w s' w' :
    R (s, w) (s', w') → step (p, s, w) (p, s', w').

Context (Hrefl : ∀ x, R x x) (Htrans : ∀ x y z, R x y → R y z → R x z).
Context (Hinv : ∀ s w s' w', Inv s w → R (s, w) (s', w') → Inv s' w').

(** A configuration that a program with a precondition can reach. *)
Definition good {A} (Q : A → S → W → Prop) (c : prog S A * S * W) : Prop :=
  ∃ s0 w0, wp c.1.1 Q s0 w0 ∧ R (s0, w0) (c.1.2, c.2).

Lemma good_steps {A} (Q : A → S → W → Prop) c c' : rtc step c c' → good Q c → good Q c'.
Proof using Htrans Hrefl Hinv.
  induction 1 as [|c c1 c2 Hc _ IH]; [done|]. intros Hg. apply IH. revert Hg.
  destruct Hc as [X e k s1 w1 x w2 Hos|X f k s1 w1 x s2 Hf|q s1 w1 s2 w2 HR1]; intros (s0 & w0 & Hp & HR); simpl in *.
  - destruct Hp as [Hi Hp]. exists s1, w2. split; [by eapply Hp; eauto|done].
  - destruct Hp as [Hi Hp]. exists s2, w1. split; [|done]. destruct (Hp s1 w1 HR ltac:(eauto)) as [_ Hk]. by apply Hk.
  - exists s0, w0. eauto.
Qed.

(** Soundness: along every interleaving the invariant holds, undefined
    behaviour is not reached, and a result satisfies the postcondition up to
    the later steps of the other threads. *)
Lemma wp_sound {A} (p p' : prog S A) Q s w s' w' :
  wp p Q s w → rtc step (p, s, w) (p', s', w') →
  Inv s' w' ∧ p' ≠ Undefined ∧ (p' = Spin → spin_ok) ∧
  (∀ a, p' = Ret a → ∃ s0 w0, Q a s0 w0 ∧ R (s0, w0) (s', w')).
Proof using Htrans Hrefl Hinv.
  intros Hwp Hsteps. apply (good_steps Q) in Hsteps as (s0 & w0 & Hp & HR); [|by exists s, w]. simpl in *. split_and!.
  - eapply Hinv; [by eapply wp_inv|done].
  - intros ->. by destruct Hp.
  - intros ->. by destruct Hp.
  - intros a ->. destruct Hp. eauto.
Qed.

(** An operating system that answers every call. *)
Definition responsive : Prop := ∀ (X : Set) (c : sys X) w, ∃ x w', os_step c w x w'.

(** Progress: when fuel cannot run out and every call is answered, the program
    can return from every configuration it reaches. A program is finite, so
    there is nothing else it can do but wait for the other threads. *)
Lemma wp_returns {A} (p : prog S A) Q s w s' w' p' :
  responsive → ¬ spin_ok → wp p Q s w → rtc step (p, s, w) (p', s', w') →
  ∃ a s1 w1, rtc step (p', s', w') (Ret a, s1, w1) ∧ ∃ s0 w0, Q a s0 w0 ∧ R (s0, w0) (s1, w1).
Proof using Htrans Hrefl Hinv.
  intros Hos Hspin Hwp Hsteps. apply (good_steps Q) in Hsteps; [|by exists s, w]. clear Hwp.
  destruct Hsteps as (s0 & w0 & Hp & HR). simpl in *. revert s0 w0 s' w' Hp HR.
  induction p' as [a|X c k IH|X f k IH| |]; intros s0 w0 s' w' [Hi Hp] HR; simpl in *; [|..|done|done].
  - exists a, s', w'. split; [done|]. eauto.
  - destruct (Hos X c w') as (x & w2 & Hstep). specialize (Hp s' w' HR ltac:(eauto) x w2 Hstep).
    destruct (IH x s' w2 s' w2 Hp (Hrefl _)) as (a & s1 & w1 & Hsteps & HQ).
    exists a, s1, w1. split; [|done]. by eapply rtc_l; [by apply step_sys|].
  - destruct (Hp s' w' HR ltac:(eauto)) as [(s2 & w2 & HR2 & [[x s3] Hf]) _].
    destruct (Hp s2 w2 ltac:(eauto) ltac:(eauto)) as [_ Hk]. specialize (Hk x s3 Hf).
    destruct (IH x s3 w2 s3 w2 Hk (Hrefl _)) as (a & s1 & w1 & Hsteps & HQ).
    exists a, s1, w1. split; [|done].
    eapply rtc_l; [by apply step_env|]. by eapply rtc_l; [by apply step_crit|].
Qed.

(** Whatever the other threads and the operating system do, the program avoids
    undefined behaviour, never runs out of fuel, and can always go on to return. *)
Definition always_returns {A} (p : prog S A) (s : S) (w : W) : Prop :=
  ∀ p' s' w', rtc step (p, s, w) (p', s', w') →
    p' ≠ Undefined ∧ p' ≠ Spin ∧ ∃ a s1 w1, rtc step (p', s', w') (Ret a, s1, w1).

Lemma wp_always_returns {A} (p : prog S A) Q s w :
  responsive → ¬ spin_ok → wp p Q s w → always_returns p s w.
Proof using Htrans Hrefl Hinv.
  intros Hos Hspin Hwp p' s' w' Hsteps. destruct (wp_sound _ _ _ _ _ _ _ Hwp Hsteps) as (_ & Hu & Hsp & _).
  destruct (wp_returns _ _ _ _ _ _ _ Hos Hspin Hwp Hsteps) as (a & s1 & w1 & Hret & _). split_and!; eauto.
Qed.
End WP.
#[global] Arguments wp : simpl never.

(** ** A scripted operating system

    Each list holds the answers still to be given; the defaults at the end of
    a script are failures. An answer the laws of [OS] exclude is corrected. *)

Record sworld := {
  sw_clock : list (option (Z * Z));
  sw_stop : list bool;
  sw_poll : list poll_answer;
  sw_read : list read_answer;
  sw_send : list send_answer;
  sw_socket : list fd_answer;
  sw_connect : list Z;
  sw_recvd : gmap Z (list Z);
  sw_sent : gmap Z (list Z);
  sw_open : gset Z
}.

Definition log_of (m : gmap Z (list Z)) (fd : Z) : list Z := default [] (m !! fd).

Definition good_clock (t : Z * Z) : bool :=
  (0 <=? t.1) && (t.1 <? 2 ^ 33) && (0 <=? t.2) && (t.2 <? 1000000000).

Definition good_bytes (bs : list Z) : bool := forallb (λ b, (0 <=? b) && (b <? 256)) bs.

Definition script_answer {X : Set} (c : sys X) (w : sworld) : X * sworld :=
  let '(Build_sworld clk stp pll rds snd sck cnn rm sm op) := w in
  match c in sys X return X * sworld with
  | Clock =>
      (match clk with Some t :: _ => if good_clock t then inl t else inr EINVAL | _ => inr EINVAL end,
       Build_sworld (tail clk) stp pll rds snd sck cnn rm sm op)
  | GetFl _ => (inl 0, w)
  | SetFl _ _ => (0, w)
  | StopFlag => (default false (head stp), Build_sworld clk (tail stp) pll rds snd sck cnn rm sm op)
  | Poll _ _ _ => (default PTimeout (head pll), Build_sworld clk stp (tail pll) rds snd sck cnn rm sm op)
  | Read fd n =>
      match rds with
      | RData bs :: rest =>
          let now := take (Z.to_nat n) bs in
          if (0 <? Z.of_nat (length now)) && good_bytes now then
            let later := drop (Z.to_nat n) bs in
            (RData now,
             Build_sworld clk stp pll (match later with [] => rest | _ => RData later :: rest end)
               snd sck cnn (<[fd := log_of rm fd ++ now]> rm) sm op)
          else (REof, Build_sworld clk stp pll rest snd sck cnn rm sm op)
      | a :: rest => (a, Build_sworld clk stp pll rest snd sck cnn rm sm op)
      | [] => (REof, w)
      end
  | Send fd bs =>
      match snd with
      | WCount n :: rest =>
          let n := Z.max 0 (Z.min n (Z.of_nat (length bs))) in
          (WCount n,
           Build_sworld clk stp pll rds rest sck cnn rm
             (<[fd := log_of sm fd ++ take (Z.to_nat n) bs]> sm) op)
      | a :: rest => (a, Build_sworld clk stp pll rds rest sck cnn rm sm op)
      | [] => (WErr EIO, w)
      end
  | Socket =>
      match sck with
      | FdOk fd :: rest =>
          if (0 <=? fd) && bool_decide (fd ∉ op) then
            (FdOk fd, Build_sworld clk stp pll rds snd rest cnn (<[fd := []]> rm) (<[fd := []]> sm) ({[fd]} ∪ op))
          else (FdErr EIO, Build_sworld clk stp pll rds snd rest cnn rm sm op)
      | FdErr e :: rest => (FdErr e, Build_sworld clk stp pll rds snd rest cnn rm sm op)
      | [] => (FdErr EIO, w)
      end
  | Connect _ _ => (default EIO (head cnn), Build_sworld clk stp pll rds snd sck (tail cnn) rm sm op)
  | GetSockErr _ => (inl 0, w)
  | Shutdown _ _ => (true, w)
  | Close fd => (0, Build_sworld clk stp pll rds snd sck cnn rm sm (op ∖ {[fd]}))
  end.

Lemma log_of_insert m fd fd' l :
  log_of (<[fd := l]> m) fd' = if decide (fd = fd') then l else log_of m fd'.
Proof. unfold log_of. rewrite lookup_insert. by case_decide. Qed.

Lemma good_bytes_spec bs : good_bytes bs = true → Forall (in_width 8) bs.
Proof.
  intros Hb. apply Forall_forall. intros b Hin. unfold good_bytes in Hb.
  rewrite forallb_forall in Hb. specialize (Hb b ltac:(by apply list_elem_of_In)). unfold in_width. lia.
Qed.

(** Every way the script can answer the call at hand. *)
Ltac script_case :=
  intros;
  cbv beta in *; match goal with H : script_answer _ ?w = _ |- _ => destruct w end;
  unfold script_answer in *; simpl in *; repeat case_match; simplify_eq/=; unbool;
  rewrite ?log_of_insert, ?decide_True, ?decide_False by congruence.

#[local] Obligation Tactic := idtac.

#[global] Program Instance script_os : OS sworld := {|
  os_step X c w x w' := script_answer c w = (x, w');
  recvd w fd := log_of (sw_recvd w) fd;
  sent w fd := log_of (sw_sent w) fd;
  fd_open w fd := fd ∈ sw_open w
|}.
Next Obligation. script_case. unfold good_clock in *. simpl in *. lia. Qed.
Next Obligation.
  script_case; (split; [|split; [by apply good_bytes_spec|done]]); rewrite length_take in *; lia.
Qed.
Next Obligation. script_case; naive_solver. Qed.
Next Obligation. script_case. split; [lia|done]. Qed.
Next Obligation. by script_case. Qed.
Next Obligation. script_case. case_bool_decide as Hop; [|done]. set_solver. Qed.
Next Obligation. script_case. set_solver. Qed.
Next Obligation. script_case; try done. all: case_bool_decide; case_decide; set_solver. Qed.
Next Obligation. script_case; try done. all: case_bool_decide; case_decide; set_solver. Qed.
Next Obligation. script_case; set_solver. Qed.

(** The script with a clock that shows the time of the world, in nanoseconds;
    every call takes one. *)
Definition clocked_answer {X : Set} (c : sys X) (w : sworld * Z) : X * (sworld * Z) :=
  match c in sys X return X * (sworld * Z) with
  | Clock =>
      let t := (w.2 / 1000000000, w.2 mod 1000000000) in
      (if good_clock t then inl t else inr EINVAL, (w.1, w.2 + 1))
  | c => let '(x, w1) := script_answer c w.1 in (x, (w1, w.2 + 1))
  end.

(** A call of the clocked script leaves what the script would, the clock apart. *)
Lemma clocked_script {X : Set} (c : sys X) w x w' :
  clocked_answer c w = (x, w') → match c with Clock => w'.1 = w.1 | _ => os_step c w.1 x w'.1 end.
Proof.
  destruct c; cbn [clocked_answer]; try by intros [= <- <-].
  all: match goal with |- context [script_answer ?c ?w] => destruct (script_answer c w) as [y w1] eqn:Ha end.
  all: intros [= <- <-]; exact Ha.
Qed.

#[global] Program Instance clocked_os : OS (sworld * Z) | 10 := {|
  os_step X c w x w' := clocked_answer c w = (x, w');
  recvd w := recvd w.1;
  sent w := sent w.1;
  fd_open w := fd_open w.1
|}.
Next Obligation.
  intros w sec nsec w' [= Hx _]. destruct (good_clock _) eqn:Hg; [|done]. injection Hx as <- <-.
  unfold good_clock in Hg. cbn [fst snd] in Hg. lia.
Qed.
Next Obligation. intros fd n w bs w' Hc%clocked_script. by apply os_read in Hc. Qed.
Next Obligation. intros fd n w a w' Hc%clocked_script Ha. by eapply os_read_none. Qed.
Next Obligation. intros fd bs w n w' Hc%clocked_script. by apply os_send in Hc. Qed.
Next Obligation. intros fd bs w e w' Hc%clocked_script. by eapply os_send_err. Qed.
Next Obligation. intros w fd w' Hc%clocked_script. by apply os_socket in Hc. Qed.
Next Obligation. intros fd w e w' Hc%clocked_script. by eapply os_close. Qed.
Next Obligation.
  intros X c w x w' fd Hc%clocked_script Hf. destruct c; try (by eapply (os_frame_recvd _ _ _ _ _ Hc)). by rewrite Hc.
Qed.
Next Obligation.
  intros X c w x w' fd Hc%clocked_script Hf. destruct c; try (by eapply (os_frame_sent _ _ _ _ _ Hc)). by rewrite Hc.
Qed.
Next Obligation.
  intros X c w x w' fd Hc%clocked_script Hf Ho. destruct c; try (by eapply (os_frame_open _ _ _ _ _ Hc)). by rewrite Hc.
Qed.

(** Executing a program against the script. *)
Inductive outcome (A : Type) :=
| Done (a : A)
| Crashed
| Looping.
Arguments Done {A}.
Arguments Crashed {A}.
Arguments Looping {A}.

Fixpoint run {S A} (p : prog S A) (s : S) (w : sworld) : outcome (A * S * sworld) :=
  match p with
  | Ret a => Done (a, s, w)
  | Sys c k => let '(x, w) := script_answer c w in run (k x) s w
  | Crit f k => match f s with Some (x, s) => run (k x) s w | None => Looping end
  | Undefined => Crashed
  | Spin => Looping
  end.
