(* ===== verification/DeviceIO.v ===== *)
(** * Deadline-bounded socket I/O

    [src/device/qcpu_device_io.c]: read or write a whole buffer on a
    non-blocking descriptor before a deadline, and connect to a Unix socket.
    A function is a [prog]; its loops take fuel. [stop] is whether a stop flag
    was passed. [errno] is threaded through the functions after which a caller
    reads it: they take its value and return the new one with their result. *)

From Stdlib Require Import ZArith Lia ZifyBool.
From stdpp Require Import base list numbers.
From S2P Require Import Prelude.
From S2P Require Import Sys.
Open Scope Z_scope.

Definition IO_TIMEOUT_MS : Z := 2000.

Inductive QCPUDeviceIOStatus : Set :=
| IO_OK
| IO_ERROR
| IO_TIMEOUT
| IO_STOPPED.

#[global] Instance QCPUDeviceIOStatus_eq_dec : EqDecision QCPUDeviceIOStatus.
Proof. solve_decision. Defined.

(** The value of the enumerator. *)
Definition io_status_value (s : QCPUDeviceIOStatus) : Z :=
  match s with IO_OK => 0 | IO_ERROR => -1 | IO_TIMEOUT => -2 | IO_STOPPED => -3 end.

(** The size of [sun_path]. *)
Definition SUN_PATH_SIZE : Z := 108.

Section IO.
Context {S : Type}.
Abbreviation prog := (prog S).

Definition monotonic_milliseconds (errno : Z) : prog (Z * Z) :=
  now ← call Clock;
  match now with
  | inr e => mret (-1, e)
  | inl (tv_sec, tv_nsec) =>
      a ← i64 (tv_sec * 1000);
      ms ← i64 (a + Z.quot tv_nsec 1000000);
      mret (ms, errno)
  end.

Definition set_nonblocking (file_descriptor errno : Z) : prog (QCPUDeviceIOStatus * Z) :=
  fl ← call (GetFl file_descriptor);
  match fl with
  | inr e => mret (IO_ERROR, e)
  | inl flags =>
      if negb (Z.land flags O_NONBLOCK =? 0) then mret (IO_OK, errno)
      else
        e ← call (SetFl file_descriptor (Z.lor flags O_NONBLOCK));
        if negb (e =? 0) then mret (IO_ERROR, e) else mret (IO_OK, errno)
  end.

(** [stop_flag != NULL && *stop_flag != 0] *)
Definition stopped (stop : bool) : prog bool :=
  if stop then call StopFlag else mret false.

Fixpoint wait_until_ready (fuel : nat) (file_descriptor events deadline_ms : Z) (stop : bool)
    (errno : Z) : prog (QCPUDeviceIOStatus * Z) :=
  match fuel with
  | O => Spin
  | Datatypes.S fuel =>
      s ← stopped stop;
      if s : bool then mret (IO_STOPPED, errno) else
      '(now_ms, errno) ← monotonic_milliseconds errno;
      if now_ms <? 0 then mret (IO_ERROR, errno) else
      remaining_ms ← i64 (deadline_ms - now_ms);
      if remaining_ms <=? 0 then mret (IO_TIMEOUT, errno) else
      let poll_timeout := if INT_MAX <? remaining_ms then INT_MAX else remaining_ms in
      result ← call (Poll file_descriptor events poll_timeout);
      match result with
      | PReady revents =>
          if negb (Z.land revents POLLNVAL =? 0) then mret (IO_ERROR, errno)
          else if negb (Z.land revents events =? 0) then mret (IO_OK, errno)
          else if negb (Z.land revents (Z.lor POLLERR POLLHUP) =? 0) then mret (IO_ERROR, errno)
          else wait_until_ready fuel file_descriptor events deadline_ms stop errno
      | PTimeout => mret (IO_TIMEOUT, errno)
      | PErr e =>
          if e =? EINTR then wait_until_ready fuel file_descriptor events deadline_ms stop e
          else mret (IO_ERROR, e)
      end
  end.

(** [prepare_deadline]: [*deadline_ms], or [None] for the status
    [IO_ERROR]. The pointer is never null. *)
Definition prepare_deadline (timeout_ms errno : Z) : prog (option Z * Z) :=
  if timeout_ms <=? 0 then mret (None, errno)
  else
    '(now_ms, errno) ← monotonic_milliseconds errno;
    if now_ms <? 0 then mret (None, errno)
    else d ← i64 (now_ms + timeout_ms); mret (Some d, errno).

(** The loop of [qcpu_device_read_all]; [buffer[completed ..]] receives the
    bytes, and a write past its end is undefined. *)
Fixpoint read_loop (fuel : nat) (file_descriptor deadline_ms : Z) (stop : bool) (size : Z)
    (completed : nat) (buffer : list Z) : prog (QCPUDeviceIOStatus * list Z) :=
  if size <=? Z.of_nat completed then mret (IO_OK, buffer)
  else
    match fuel with
    | O => Spin
    | Datatypes.S fuel =>
        s ← stopped stop;
        if s : bool then mret (IO_STOPPED, buffer) else
        result ← call (Read file_descriptor (size - Z.of_nat completed));
        match result with
        | RData bs =>
            if Z.of_nat (completed + length bs) <=? Z.of_nat (length buffer) then
              read_loop fuel file_descriptor deadline_ms stop size (completed + length bs)
                (list_inserts completed bs buffer)
            else Undefined
        | REof => mret (IO_ERROR, buffer)
        | RErr errno =>
            if errno =? EINTR then
              read_loop fuel file_descriptor deadline_ms stop size completed buffer
            else if errno =? EAGAIN then
              '(wait_status, _) ← wait_until_ready fuel file_descriptor POLLIN deadline_ms stop errno;
              if decide (wait_status = IO_OK) then
                read_loop fuel file_descriptor deadline_ms stop size completed buffer
              else mret (wait_status, buffer)
            else mret (IO_ERROR, buffer)
        end
    end.

(** The checks before both loops; [errno] is not read after them. *)
Definition prepare_io (file_descriptor : Z) (buffer : ptr (list Z)) (timeout_ms : Z)
    : prog (option (Z * list Z)) :=
  if file_descriptor <? 0 then mret None else
  match buffer with
  | None => mret None
  | Some buffer =>
      '(d, errno) ← prepare_deadline timeout_ms 0;
      match d with
      | None => mret None
      | Some deadline_ms =>
          '(nb, _) ← set_nonblocking file_descriptor errno;
          if decide (nb = IO_OK) then mret (Some (deadline_ms, buffer)) else mret None
      end
  end.

Definition qcpu_device_read_all (fuel : nat) (file_descriptor : Z) (buffer : ptr (list Z)) (size : Z)
    (timeout_ms : Z) (stop : bool) : prog (QCPUDeviceIOStatus * ptr (list Z)) :=
  ready ← prepare_io file_descriptor buffer timeout_ms;
  match ready with
  | None => mret (IO_ERROR, buffer)
  | Some (deadline_ms, buffer) =>
      '(st, buffer) ← read_loop fuel file_descriptor deadline_ms stop size 0 buffer;
      mret (st, Some buffer)
  end.

(** The loop of [qcpu_device_write_all]; reading past the end of the buffer
    is undefined. *)
Fixpoint write_loop (fuel : nat) (file_descriptor deadline_ms : Z) (stop : bool) (size : Z)
    (completed : nat) (buffer : list Z) : prog QCPUDeviceIOStatus :=
  if size <=? Z.of_nat completed then mret IO_OK
  else
    match fuel with
    | O => Spin
    | Datatypes.S fuel =>
        s ← stopped stop;
        if s : bool then mret IO_STOPPED else
        if Z.of_nat (length buffer) <? size then Undefined else
        result ← call (Send file_descriptor (take (Z.to_nat size - completed) (drop completed buffer)));
        match result with
        | WCount n =>
            if 0 <? n then
              write_loop fuel file_descriptor deadline_ms stop size (completed + Z.to_nat n) buffer
            else mret IO_ERROR
        | WErr errno =>
            if errno =? EINTR then
              write_loop fuel file_descriptor deadline_ms stop size completed buffer
            else if errno =? EAGAIN then
              '(wait_status, _) ← wait_until_ready fuel file_descriptor POLLOUT deadline_ms stop errno;
              if decide (wait_status = IO_OK) then
                write_loop fuel file_descriptor deadline_ms stop size completed buffer
              else mret wait_status
            else mret IO_ERROR
        end
    end.

Definition qcpu_device_write_all (fuel : nat) (file_descriptor : Z) (buffer : ptr (list Z)) (size : Z)
    (timeout_ms : Z) (stop : bool) : prog QCPUDeviceIOStatus :=
  ready ← prepare_io file_descriptor buffer timeout_ms;
  match ready with
  | None => mret IO_ERROR
  | Some (deadline_ms, buffer) => write_loop fuel file_descriptor deadline_ms stop size 0 buffer
  end.

(** [close] on an error path: it overwrites [errno] only when it fails. *)
Definition close_keep (fd errno : Z) : prog Z :=
  e ← call (Close fd); mret (if e =? 0 then errno else e).

(** [qcpu_device_connect_unix]: the descriptor or a negative status, and
    [errno]. The path is the string's bytes without the terminator. *)
Definition qcpu_device_connect_unix (fuel : nat) (errno : Z) (socket_path : ptr (list Z)) (timeout_ms : Z)
    : prog (Z * Z) :=
  match socket_path with
  | None => mret (io_status_value IO_ERROR, EINVAL)
  | Some path =>
      if (timeout_ms <=? 0) || (SUN_PATH_SIZE <=? Z.of_nat (length path))
      then mret (io_status_value IO_ERROR, EINVAL) else
      sock ← call Socket;
      match sock with
      | FdErr e => mret (io_status_value IO_ERROR, e)
      | FdOk fd =>
          '(nb, errno) ← set_nonblocking fd errno;
          if decide (nb ≠ IO_OK) then
            errno ← close_keep fd errno; mret (io_status_value IO_ERROR, errno) else
          c ← call (Connect fd path);
          if c =? 0 then mret (fd, errno) else
          let errno := c in
          if negb (errno =? EINPROGRESS) && negb (errno =? EAGAIN) then
            errno ← close_keep fd errno; mret (io_status_value IO_ERROR, errno) else
          '(d, errno) ← prepare_deadline timeout_ms errno;
          match d with
          | None => errno ← close_keep fd errno; mret (io_status_value IO_ERROR, errno)
          | Some deadline_ms =>
              '(wait_status, errno) ← wait_until_ready fuel fd POLLOUT deadline_ms false errno;
              if decide (wait_status ≠ IO_OK) then
                errno ← close_keep fd errno; mret (io_status_value wait_status, errno) else
              so ← call (GetSockErr fd);
              match so with
              | inr e => errno ← close_keep fd e; mret (io_status_value IO_ERROR, errno)
              | inl socket_error =>
                  if negb (socket_error =? 0) then
                    errno ← close_keep fd socket_error; mret (io_status_value IO_ERROR, errno)
                  else mret (fd, errno)
              end
          end
      end
  end.
End IO.

(** ** Assertions that survive *)

(** Calls that touch no stream and open or close nothing. *)
Definition control {X : Set} (c : sys X) : bool :=
  match c with
  | Read _ _ | Send _ _ | Socket | Close _ | Shutdown _ _ => false
  | _ => true
  end.

Definition reads (fd : Z) {X : Set} (c : sys X) : bool :=
  match c with Read fd' _ => fd =? fd' | _ => control c end.
Definition sends (fd : Z) {X : Set} (c : sys X) : bool :=
  match c with Send fd' _ => fd =? fd' | _ => control c end.

Section Specs.
Context {S W : Type} `{OS W} (R : S * W → S * W → Prop) (Inv : S → W → Prop) (spin_ok : Prop).
Abbreviation wp := (wp R Inv spin_ok).

(** [P] implies the invariant and survives the steps of the other threads and
    the allowed calls of this one. *)
Record stable (allowed : ∀ X : Set, sys X → bool) (P : S → W → Prop) : Prop := {
  st_inv s w : P s w → Inv s w;
  st_env s w s' w' : R (s, w) (s', w') → P s w → P s' w';
  st_call (X : Set) (c : sys X) s w x w' : allowed X c = true → os_step c w x w' → P s w → P s w'
}.

(** A reading of the clock in milliseconds. *)
Definition millis (sec nsec : Z) : Z := sec * 1000 + Z.quot nsec 1000000.

(** When fuel suffices. [enough n w]: for an operation that is about to compute
    its deadline. [fuel_left d r n w]: for a loop with the deadline [d] that has [r]
    bytes to go. One unit may be spent on a reading of the clock before the
    deadline, on a byte transferred, and on an interrupted [read] or [send], and
    on nothing else. *)
Record fuel_law (max_timeout max_size : Z) (enough : nat → W → Prop) : Type := {
  fuel_left : Z → Z → nat → W → Prop;
  fl_max : max_timeout <= INT_MAX;
  fl_env n s w s' w' : R (s, w) (s', w') → enough n w → enough n w';
  fl_call n (X : Set) (c : sys X) w x w' : os_step c w x w' → enough n w → enough n w';
  fl_start n w sec nsec w' timeout size : os_step Clock w (inl (sec, nsec)) w' →
    0 < timeout <= max_timeout → 0 <= size <= max_size →
    enough n w → fuel_left (millis sec nsec + timeout) size n w';
  fl_one d r w : fuel_left d r 1 w → spin_ok;
  fl_up d r n w : fuel_left d r n w → fuel_left d r (Datatypes.S n) w;
  fl_left_env d r n s w s' w' : R (s, w) (s', w') → fuel_left d r n w → fuel_left d r n w';
  fl_left_call d r n (X : Set) (c : sys X) w x w' : os_step c w x w' → fuel_left d r n w → fuel_left d r n w';
  fl_data d r n k w : 0 < k <= r → fuel_left d r (Datatypes.S n) w → fuel_left d (r - k) n w;
  fl_clock d r n w sec nsec w' : os_step Clock w (inl (sec, nsec)) w' → millis sec nsec < d →
    fuel_left d r (Datatypes.S n) w → fuel_left d r n w';
  fl_read d r n fd m w w' : os_step (Read fd m) w (RErr EINTR) w' → fuel_left d r (Datatypes.S n) w → fuel_left d r n w';
  fl_send d r n fd bs w w' : os_step (Send fd bs) w (WErr EINTR) w' → fuel_left d r (Datatypes.S n) w → fuel_left d r n w'
}.

(** When running out of fuel is allowed, any fuel suffices. *)
Lemma fuel_law_any max_size : spin_ok → fuel_law INT_MAX max_size (λ _ _, True).
Proof. intros. by exists (λ _ _ _ _, True). Qed.

Context (max_timeout max_size : Z) (enough : nat → W → Prop) (HF : fuel_law max_timeout max_size enough).
Abbreviation suffices := (fuel_left _ _ _ HF).

Definition fueled (n : nat) (P : S → W → Prop) (s : S) (w : W) : Prop := P s w ∧ enough n w.
Definition running (d r : Z) (n : nat) (P : S → W → Prop) (s : S) (w : W) : Prop := P s w ∧ suffices d r n w.

Lemma fueled_stable allowed n P : stable allowed P → stable allowed (fueled n P).
Proof.
  intros [Hi He Hc]. split.
  - intros s w [Hp _]. eauto.
  - intros s w s' w' HR [Hp Hn]. split; [eauto|]. by eapply fl_env.
  - intros X c s w x w' Hcc Hos [Hp Hn]. split; [eauto|]. by eapply fl_call.
Qed.

Lemma running_stable allowed d r n P : stable allowed P → stable allowed (running d r n P).
Proof.
  intros [Hi He Hc]. split.
  - intros s w [Hp _]. eauto.
  - intros s w s' w' HR [Hp Hn]. split; [eauto|]. by eapply fl_left_env.
  - intros X c s w x w' Hcc Hos [Hp Hn]. split; [eauto|]. by eapply fl_left_call.
Qed.

Lemma running_up d r n P s w : running d r n P s w → running d r (Datatypes.S n) P s w.
Proof. intros [? ?]. split; [done|]. by apply fl_up. Qed.

Lemma stable_control allowed P :
  (∀ X (c : sys X), control c = true → allowed X c = true) → stable allowed P → stable (@control) P.
Proof. intros Hsub [Hi He Hc]. split; eauto. Qed.

Lemma reads_control fd X (c : sys X) : control c = true → reads fd c = true.
Proof. by destruct c. Qed.
Lemma sends_control fd X (c : sys X) : control c = true → sends fd c = true.
Proof. by destruct c. Qed.

Section Control.
Context (P : S → W → Prop) (allowed : ∀ X : Set, sys X → bool).
Context (HP : stable allowed P).

Lemma wp_stable_call {X : Set} (c : sys X) (Q : X → S → W → Prop) s w :
  allowed X c = true → P s w →
  (∀ s1 w1 x w2, R (s, w) (s1, w1) → P s1 w1 → os_step c w1 x w2 → P s1 w2 → Q x s1 w2) →
  wp (call c) Q s w.
Proof.
  intros Ha Hp HQ. destruct HP as [Hi He Hc]. apply wp_call; [by eapply Hi|].
  intros s1 w1 x w2 HR _ Hos. assert (P s1 w1) by eauto. assert (P s1 w2) by eauto. split; eauto.
Qed.

Lemma wp_stable_ret {A} (a : A) (Q : A → S → W → Prop) s w : P s w → Q a s w → wp (mret a) Q s w.
Proof. intros Hp HQ. apply wp_ret; [by eapply st_inv|done]. Qed.
End Control.

(** The helpers of the loops touch nothing an assertion can speak of. *)
Section Helpers.
Context (P : S → W → Prop) (HP : stable (@control) P).
Implicit Types (s : S) (w : W).

Ltac helper_call := apply wp_bind; eapply (wp_stable_call P _ HP); [done|done|]; intros ?s ?w ?x ?w _ _ ?Hos ?HPw.
Ltac helper_ret := eapply (wp_stable_ret P _ HP); [done|].

(** A time in milliseconds, or [-1]. *)
Definition ms_range (z : Z) : Prop := -1 <= z < 2 ^ 44.

(** What is known after a reading of the clock, [Q], may speak of it. *)
Lemma wp_monotonic errno (Q : Z → S → W → Prop) s w :
  (∀ s w sec nsec w', P s w → P s w' → os_step Clock w (inl (sec, nsec)) w' → Q (millis sec nsec) s w') →
  P s w → wp (monotonic_milliseconds errno) (λ r s w, P s w ∧ ms_range r.1 ∧ (0 <= r.1 → Q r.1 s w)) s w.
Proof.
  intros HQ Hp. unfold monotonic_milliseconds. apply wp_bind. eapply (wp_stable_call P _ HP); [done|done|].
  intros s1 w1 x w2 _ Hp1 Hos Hp2. destruct x as [[sec nsec]|e].
  - pose proof (HQ _ _ _ _ _ Hp1 Hp2 Hos) as HQ2. unfold millis in HQ2.
    apply os_clock in Hos as [Hs Hn]. pose proof (st_inv _ _ HP _ _ Hp2).
    assert (0 <= Z.quot nsec 1000000 < 1000) by (Z.to_euclidean_division_equations; lia).
    apply wp_bind, wp_i64; [lia|done|]. apply wp_bind, wp_i64; [lia|done|]. helper_ret.
    split; [done|]. unfold ms_range. simpl. split; [lia|done].
  - helper_ret. unfold ms_range. simpl. split; [done|]. split; [lia|]. lia.
Qed.

Lemma wp_set_nonblocking fd errno s w :
  P s w → wp (set_nonblocking fd errno) (λ _ s w, P s w) s w.
Proof.
  intros Hp. unfold set_nonblocking. helper_call. destruct x as [flags|e]; [|by helper_ret].
  case_match; [by helper_ret|]. helper_call. case_match; by helper_ret.
Qed.

Lemma wp_stopped stop s w : P s w → wp (stopped stop) (λ b s w, P s w ∧ (stop = false → b = false)) s w.
Proof.
  intros Hp. unfold stopped. destruct stop; [|by helper_ret].
  eapply (wp_stable_call P _ HP); [done|done|]. intros. by split.
Qed.

Definition deadline_range (d : Z) : Prop := 0 <= d < 2 ^ 45.

End Helpers.

(** With a deadline there is fuel for a loop over [size] bytes. *)
Lemma wp_prepare_deadline P fuel size timeout errno s w :
  stable (@control) P → timeout <= max_timeout → 0 <= size <= max_size → fueled fuel P s w →
  wp (prepare_deadline timeout errno)
    (λ r s w, fueled fuel P s w ∧
       ∀ d, r.1 = Some d → 0 < timeout ∧ deadline_range d ∧ suffices d size fuel w) s w.
Proof.
  intros HP Ht Hsz Hp. pose proof (fl_max _ _ _ HF). pose proof (fueled_stable _ fuel P HP) as HPF.
  unfold prepare_deadline, INT_MAX, deadline_range in *.
  destruct (Z.leb_spec timeout 0); [by apply (wp_stable_ret _ _ HPF)|].
  apply wp_bind. eapply wp_mono.
  { apply (wp_monotonic _ HPF errno (λ ms _ w, suffices (ms + timeout) size fuel w)); [|done].
    intros s1 w1 sec nsec w2 [_ Hn] _ Hos. eapply fl_start; [done|lia|done|done]. }
  intros [ms e] s1 w1 Hi (Hp1 & Hms & Hleft). unfold ms_range in Hms. cbn [fst] in *.
  destruct (Z.ltb_spec ms 0); [by apply (wp_stable_ret _ _ HPF)|].
  apply wp_bind, wp_i64; [lia|done|]. apply (wp_stable_ret _ _ HPF); [done|]. split; [done|]. intros d [= <-].
  split; [lia|]. split; [lia|]. apply Hleft. lia.
Qed.

Lemma wp_prepare_io P fuel size fd buf timeout s w :
  stable (@control) P → timeout <= max_timeout → 0 <= size <= max_size → fueled fuel P s w →
  wp (prepare_io fd buf timeout)
    (λ r s w, P s w ∧ ∀ d b, r = Some (d, b) →
       0 <= fd ∧ 0 < timeout ∧ buf = Some b ∧ deadline_range d ∧ suffices d size fuel w) s w.
Proof.
  intros HP Ht Hsz Hp. assert (P s w) as Hp0 by apply Hp.
  pose proof (λ A (a : A) Q, wp_stable_ret P _ HP a Q) as Hret. unfold prepare_io.
  destruct (Z.ltb_spec fd 0); [by apply Hret|]. destruct buf as [buf|]; [|by apply Hret].
  apply wp_bind. eapply wp_mono; [by apply (wp_prepare_deadline P fuel size)|].
  intros [[d|] e] s1 w1 _ [[Hp1 _] Hd]; [|by apply Hret]. destruct (Hd d eq_refl) as (Htp & Hdr & Hleft).
  pose proof (running_stable _ d size fuel P HP) as HPR.
  apply wp_bind. eapply wp_mono; [by apply (wp_set_nonblocking _ HPR)|]. intros [nb e'] s2 w2 _ [Hp2 Hl2].
  destruct (decide (nb = IO_OK)); (apply Hret; [done|]); [|done]. split; [done|]. intros ? ? [= <- <-].
  split_and!; try done; lia.
Qed.

(** What waiting leaves; success has paid for one round of the caller. *)
Definition wait_post (P : S → W → Prop) (deadline r : Z) (fuel : nat) (stop : bool)
    (res : QCPUDeviceIOStatus * Z) (s : S) (w : W) : Prop :=
  P s w ∧ (res.1 = IO_OK → suffices deadline r fuel w) ∧ (stop = false → res.1 ≠ IO_STOPPED).

(** Waiting costs a reading of the clock before the deadline for each round. *)
Lemma wp_wait P fuel fd events deadline r stop errno s w :
  stable (@control) P → deadline_range deadline → running deadline r (Datatypes.S fuel) P s w →
  wp (wait_until_ready fuel fd events deadline stop errno) (wait_post P deadline r fuel stop) s w.
Proof.
  intros HP Hd. revert errno s w. induction fuel as [|fuel IH]; intros errno s w Hp; cbn [wait_until_ready].
  { destruct Hp as [Hp Hn]. split; [by eapply st_inv|]. by eapply fl_one. }
  pose proof (running_stable _ deadline r (Datatypes.S (Datatypes.S fuel)) P HP) as HPS.
  apply wp_bind. eapply wp_mono; [by apply (wp_stopped _ HPS)|]. intros b s1 w1 _ [Hp1 Hb].
  destruct b; [apply (wp_stable_ret _ _ HP); [apply Hp1|]; split; [apply Hp1|]; naive_solver|]. cbv iota.
  apply wp_bind. eapply wp_mono.
  { apply (wp_monotonic _ HPS errno (λ ms _ w, ms < deadline → suffices deadline r (Datatypes.S fuel) w)); [|done].
    intros s2 w2 sec nsec w3 [_ Hl] _ Hos Hlt. by eapply fl_clock. }
  intros [ms e] s2 w2 Hi2 ([Hp2 _] & Hms & Hleft). cbn [fst] in *.
  destruct (Z.ltb_spec ms 0); [by apply (wp_stable_ret _ _ HP)|]. unfold deadline_range, ms_range in *.
  apply wp_bind, wp_i64; [lia|done|]. destruct (Z.leb_spec (deadline - ms) 0); [by apply (wp_stable_ret _ _ HP)|].
  specialize (Hleft ltac:(lia) ltac:(lia)). pose proof (running_stable _ deadline r (Datatypes.S fuel) P HP) as HPR.
  apply wp_bind. eapply (wp_stable_call _ _ HPR); [done|done|]. intros s3 w3 x w4 _ _ _ Hp4.
  assert (∀ e, wp (wait_until_ready fuel fd events deadline stop e)
    (wait_post P deadline r (Datatypes.S fuel) stop) s3 w4) as Hagain.
  { intros e'. eapply wp_mono; [by apply IH|]. intros ? ? ? _ (? & Hl & ?). split_and!; [done| |done].
    intros Hok. by apply fl_up, Hl. }
  assert (∀ st (e : Z), st ≠ IO_STOPPED → wp (mret (st, e))
    (wait_post P deadline r (Datatypes.S fuel) stop) s3 w4) as Hleave.
  { intros st e' Hst. destruct Hp4. apply (wp_stable_ret _ _ HP); [done|]. by split_and!. }
  destruct x as [revents| |er]; [|by apply Hleave|].
  - do 3 (destruct (negb _); [by apply Hleave|]). by apply Hagain.
  - destruct (er =? EINTR); [by apply Hagain|by apply Hleave].
Qed.

(** ** Reading and writing a whole buffer *)

(** [P], and the bytes read from (or written to) [fd] so far. *)
Definition with_recvd (P : S → W → Prop) (fd : Z) (r : list Z) (s : S) (w : W) : Prop :=
  P s w ∧ recvd w fd = r.
Definition with_sent (P : S → W → Prop) (fd : Z) (r : list Z) (s : S) (w : W) : Prop :=
  P s w ∧ sent w fd = r.

(** While [P] holds, the other threads leave a stream of [fd] alone. *)
Definition env_keeps (P : S → W → Prop) (log : W → Z → list Z) (fd : Z) : Prop :=
  ∀ s w s' w', P s w → R (s, w) (s', w') → log w' fd = log w fd.

Lemma with_recvd_stable P fd r :
  env_keeps P recvd fd → stable (@reads fd) P → stable (@control) (with_recvd P fd r).
Proof.
  intros Henv [Hi He Hc]. split.
  - intros s w [Hp _]. eauto.
  - intros s w s' w' HR [Hp Hr]. split; [eauto|]. by rewrite (Henv _ _ _ _ Hp HR).
  - intros X c s w x w' Hcc Hos [Hp Hr]. split; [by eapply Hc; [apply reads_control|..]|].
    rewrite <-Hr. eapply os_frame_recvd; [done|]. by destruct c.
Qed.

Lemma with_sent_stable P fd r :
  env_keeps P sent fd → stable (@sends fd) P → stable (@control) (with_sent P fd r).
Proof.
  intros Henv [Hi He Hc]. split.
  - intros s w [Hp _]. eauto.
  - intros s w s' w' HR [Hp Hr]. split; [eauto|]. by rewrite (Henv _ _ _ _ Hp HR).
  - intros X c s w x w' Hcc Hos [Hp Hr]. split; [by eapply Hc; [apply sends_control|..]|].
    rewrite <-Hr. eapply os_frame_sent; [done|]. by destruct c.
Qed.

(** What a read loop leaves: the bytes [got] came next on the stream and are
    in the buffer from [completed] on; with [IO_OK] they are all there. *)
Definition read_post (P : S → W → Prop) (fd size : Z) (stop : bool) (completed : nat) (buf r0 : list Z)
    (res : QCPUDeviceIOStatus * list Z) (s : S) (w : W) : Prop :=
  P s w ∧ ∃ got, Forall (in_width 8) got ∧ recvd w fd = r0 ++ got ∧
    res.2 = list_inserts completed got buf ∧ Z.of_nat (completed + length got) <= size ∧
    (res.1 = IO_OK → Z.of_nat (completed + length got) = size) ∧
    (stop = false → res.1 ≠ IO_STOPPED).

Lemma read_post_none P fd size stop completed buf r0 st s w :
  with_recvd P fd r0 s w → Z.of_nat completed <= size → (st = IO_OK → Z.of_nat completed = size) →
  (stop = false → st ≠ IO_STOPPED) →
  read_post P fd size stop completed buf r0 (st, buf) s w.
Proof.
  intros [Hp Hr] Hle Hok Hst. split; [done|]. exists []. rewrite app_nil_r, Nat.add_0_r. by split_and!.
Qed.

Lemma read_post_more P fd size stop completed buf r0 bs res s w :
  Forall (in_width 8) bs →
  read_post P fd size stop (completed + length bs) (list_inserts completed bs buf) (r0 ++ bs) res s w →
  read_post P fd size stop completed buf r0 res s w.
Proof.
  intros Hbs (Hp & got & Hb & Hr & Hbuf & Hle & Hok & Hst). split; [done|]. exists (bs ++ got).
  rewrite length_app, Hr, <-app_assoc, Hbuf, Nat.add_assoc. split_and!; try done.
  - by apply Forall_app.
  - by rewrite list_inserts_app_l, Nat.add_comm.
Qed.

(** Leaving the loop with the bytes read so far. *)
Lemma wp_read_leave P fd size stop completed buf r0 st s w :
  stable (@reads fd) P → with_recvd P fd r0 s w → Z.of_nat completed <= size →
  (st = IO_OK → Z.of_nat completed = size) → (stop = false → st ≠ IO_STOPPED) →
  wp (mret (st, buf)) (read_post P fd size stop completed buf r0) s w.
Proof.
  intros HP Hw Hle Hok Hns. apply wp_ret; [by eapply (st_inv _ _ HP), Hw|]. by apply read_post_none.
Qed.

(** The bytes to go. *)
Definition to_go (size : Z) (completed : nat) : Z := size - Z.of_nat completed.

Lemma wp_read_loop P fd fuel deadline stop size completed buf r0 s w :
  env_keeps P recvd fd → stable (@reads fd) P → deadline_range deadline →
  Z.of_nat completed <= size <= Z.of_nat (length buf) →
  running deadline (to_go size completed) fuel (with_recvd P fd r0) s w →
  wp (read_loop fuel fd deadline stop size completed buf) (read_post P fd size stop completed buf r0) s w.
Proof.
  intros Henv HP Hd. pose proof (λ r, with_recvd_stable P fd r Henv HP) as Hst.
  pose proof (λ g n r, running_stable _ deadline g n _ (Hst r)) as Hsr.
  revert completed buf r0 s w. induction fuel as [|fuel IH]; intros completed buf r0 s w Hsz Hw; cbn [read_loop].
  { destruct Hw as [Hw Hn]. case_match; [eapply wp_read_leave; [done|done|lia|intros; try done; lia|done]|].
    split; [by eapply (st_inv _ _ (Hst r0))|by eapply fl_one, fl_up]. }
  case_match; [eapply wp_read_leave; [done|apply Hw|lia|intros; try done; lia|done]|].
  apply wp_bind. eapply wp_mono; [by apply (wp_stopped _ (Hsr (to_go size completed) (Datatypes.S fuel) r0))|]. intros b s1 w1 _ [Hw1 Hb].
  destruct b; [eapply wp_read_leave; [done|apply Hw1|lia|done|naive_solver]|]. cbv iota.
  apply wp_bind. apply wp_call; [by eapply (st_inv _ _ (Hst r0)), Hw1|].
  intros s2 w2 x w3 HR _ Hos. destruct (st_env _ _ (Hsr (to_go size completed) (Datatypes.S fuel) r0) _ _ _ _ HR Hw1) as [[Hp2 Hr2] Hn2].
  assert (P s2 w3) as Hp3 by (eapply (st_call _ _ HP); [|done|done]; simpl; lia).
  split; [by eapply (st_inv _ _ HP)|]. destruct x as [bs| |e]; cbv iota.
  - pose proof (fl_left_call _ _ _ HF _ _ _ _ _ _ _ _ Hos Hn2) as Hn3. apply os_read in Hos as (Hlen & Hbytes & Hrec).
    assert ((Z.of_nat (completed + length bs) <=? Z.of_nat (length buf)) = true) as -> by lia.
    eapply wp_mono; [apply (IH _ _ (r0 ++ bs))|].
    + rewrite length_inserts. lia.
    + split; [split; [done|by rewrite Hrec, Hr2]|].
      replace (to_go size (completed + length bs)) with (to_go size completed - Z.of_nat (length bs)) by (unfold to_go; lia).
      apply fl_data; [unfold to_go; lia|done].
    + intros. by apply read_post_more with bs.
  - apply os_read_none in Hos; [|done]. apply wp_read_leave; [done|split; [done|by rewrite Hos]|lia|done|done].
  - assert (with_recvd P fd r0 s2 w3) as Hw3 by (split; [done|]; by rewrite (os_read_none _ _ _ _ _ Hos)).
    destruct (Z.eqb_spec e EINTR) as [->|]; [apply IH; [done|]; split; [done|]; by eapply fl_read|].
    destruct (e =? EAGAIN); [|eapply wp_read_leave; [done|done|lia|intros; try done; lia|done]].
    apply wp_bind. eapply wp_mono.
    { apply (wp_wait (with_recvd P fd r0) _ _ _ _ (to_go size completed)); [apply Hst|done|]. split; [done|]. by eapply fl_left_call. }
    intros [st e'] s4 w4 _ (Hw4 & Hn4 & Hns). cbn [fst] in *.
    case_decide as Hst4; [apply IH; [done|]; split; [done|by apply Hn4]|].
    eapply wp_read_leave; [done|done|lia|done|naive_solver].
Qed.

(** Reading a whole buffer: never undefined; the bytes stored are those that
    came next on the stream, and with [IO_OK] the buffer is full of them. *)
Lemma wp_read_all P fd fuel buf size timeout stop r0 s w :
  env_keeps P recvd fd → stable (@reads fd) P → timeout <= max_timeout →
  0 <= size <= Z.of_nat (length buf) → size <= max_size → fueled fuel (with_recvd P fd r0) s w →
  wp (qcpu_device_read_all fuel fd (Some buf) size timeout stop)
    (λ r s w, ∃ buf', r.2 = Some buf' ∧ read_post P fd size stop 0 buf r0 (r.1, buf') s w) s w.
Proof.
  intros Henv HP Ht Hsz Hmax Hw. pose proof (with_recvd_stable P fd r0 Henv HP) as Hst.
  unfold qcpu_device_read_all. apply wp_bind. eapply wp_mono; [apply (wp_prepare_io _ fuel size fd (Some buf) timeout _ _ Hst); [done|lia|done]|].
  intros [[d b]|] s1 w1 Hi [Hw1 Hd].
  - destruct (Hd d b eq_refl) as (_ & _ & [= <-] & Hrange & Hleft). apply wp_bind. eapply wp_mono.
    + apply (wp_read_loop P fd fuel d stop size 0 buf r0); [done..|lia|]. split; [done|]. unfold to_go. by rewrite Z.sub_0_r.
    + intros [st buf'] s2 w2 Hi2 Hpost. apply wp_ret; [done|]. exists buf'. by split.
  - apply wp_ret; [done|]. exists buf. split; [done|].
    by apply read_post_none; [apply Hw1|lia|..].
Qed.

(** What a write loop leaves: [put], the next part of the buffer, went to the
    stream; with [IO_OK] that is all of it. *)
Definition write_post (P : S → W → Prop) (fd size : Z) (stop : bool) (completed : nat) (buf r0 : list Z)
    (st : QCPUDeviceIOStatus) (s : S) (w : W) : Prop :=
  P s w ∧ ∃ n : nat, sent w fd = r0 ++ take n (drop completed buf) ∧ Z.of_nat (completed + n) <= size ∧
    (st = IO_OK → Z.of_nat (completed + n) = size) ∧ (stop = false → st ≠ IO_STOPPED).

Lemma write_post_none P fd size stop completed buf r0 st s w :
  with_sent P fd r0 s w → Z.of_nat completed <= size → (st = IO_OK → Z.of_nat completed = size) →
  (stop = false → st ≠ IO_STOPPED) →
  write_post P fd size stop completed buf r0 st s w.
Proof.
  intros [Hp Hr] Hle Hok Hst. split; [done|]. exists 0%nat. rewrite take_0, app_nil_r, Nat.add_0_r. by split_and!.
Qed.

Lemma write_post_more P fd size stop completed buf r0 m st s w :
  write_post P fd size stop (completed + m) buf (r0 ++ take m (drop completed buf)) st s w →
  write_post P fd size stop completed buf r0 st s w.
Proof.
  intros (Hp & n & Hr & Hle & Hok & Hst). split; [done|]. exists (m + n)%nat.
  rewrite Hr, Nat.add_assoc, <-app_assoc. split_and!; try done. f_equal.
  by rewrite <-drop_drop, take_take_drop.
Qed.

Lemma wp_write_leave P fd size stop completed buf r0 st s w :
  stable (@sends fd) P → with_sent P fd r0 s w → Z.of_nat completed <= size →
  (st = IO_OK → Z.of_nat completed = size) → (stop = false → st ≠ IO_STOPPED) →
  wp (mret st) (write_post P fd size stop completed buf r0) s w.
Proof.
  intros HP Hw Hle Hok Hns. apply wp_ret; [by eapply (st_inv _ _ HP), Hw|]. by apply write_post_none.
Qed.

Lemma wp_write_loop P fd fuel deadline stop size completed buf r0 s w :
  env_keeps P sent fd → stable (@sends fd) P → deadline_range deadline →
  Z.of_nat completed <= size <= Z.of_nat (length buf) →
  running deadline (to_go size completed) fuel (with_sent P fd r0) s w →
  wp (write_loop fuel fd deadline stop size completed buf) (write_post P fd size stop completed buf r0) s w.
Proof.
  intros Henv HP Hd. pose proof (λ r, with_sent_stable P fd r Henv HP) as Hst.
  pose proof (λ g n r, running_stable _ deadline g n _ (Hst r)) as Hsr.
  revert completed r0 s w. induction fuel as [|fuel IH]; intros completed r0 s w Hsz Hw; cbn [write_loop].
  { destruct Hw as [Hw Hn]. case_match; [eapply wp_write_leave; [done|done|lia|intros; try done; lia|done]|].
    split; [by eapply (st_inv _ _ (Hst r0))|by eapply fl_one, fl_up]. }
  case_match; [eapply wp_write_leave; [done|apply Hw|lia|intros; try done; lia|done]|].
  apply wp_bind. eapply wp_mono; [by apply (wp_stopped _ (Hsr (to_go size completed) (Datatypes.S fuel) r0))|]. intros b s1 w1 _ [Hw1 Hb].
  destruct b; [eapply wp_write_leave; [done|apply Hw1|lia|done|naive_solver]|].
  assert ((Z.of_nat (length buf) <? size) = false) as -> by lia. cbv iota.
  apply wp_bind. apply wp_call; [by eapply (st_inv _ _ (Hst r0)), Hw1|].
  intros s2 w2 x w3 HR _ Hos. destruct (st_env _ _ (Hsr (to_go size completed) (Datatypes.S fuel) r0) _ _ _ _ HR Hw1) as [[Hp2 Hr2] Hn2].
  assert (P s2 w3) as Hp3 by (eapply (st_call _ _ HP); [|done|done]; simpl; lia).
  split; [by eapply (st_inv _ _ HP)|]. destruct x as [n|e]; cbv iota.
  - pose proof (fl_left_call _ _ _ HF _ _ _ _ _ _ _ _ Hos Hn2) as Hn3. apply os_send in Hos as (Hlen & Hsent).
    rewrite length_take, length_drop in Hlen. rewrite take_take, Hr2 in Hsent.
    replace (Z.to_nat n `min` (Z.to_nat size - completed))%nat with (Z.to_nat n) in Hsent by lia.
    assert (with_sent P fd (r0 ++ take (Z.to_nat n) (drop completed buf)) s2 w3) as Hw3 by by split.
    destruct (Z.ltb_spec 0 n).
    + eapply wp_mono; [apply (IH (completed + Z.to_nat n)%nat (r0 ++ take (Z.to_nat n) (drop completed buf))); [lia|]|].
      * split; [done|]. replace (to_go size (completed + Z.to_nat n)) with (to_go size completed - n) by (unfold to_go; lia).
        apply fl_data; [unfold to_go; lia|done].
      * intros. by apply write_post_more with (Z.to_nat n).
    + apply wp_ret; [by eapply (st_inv _ _ HP)|]. apply write_post_more with (Z.to_nat n).
      apply write_post_none; [apply Hw3|lia|done|done].
  - assert (with_sent P fd r0 s2 w3) as Hw3 by (split; [done|]; by rewrite (os_send_err _ _ _ _ _ Hos)).
    destruct (Z.eqb_spec e EINTR) as [->|]; [apply IH; [done|]; split; [done|]; by eapply fl_send|].
    destruct (e =? EAGAIN); [|eapply wp_write_leave; [done|done|lia|intros; try done; lia|done]].
    apply wp_bind. eapply wp_mono.
    { apply (wp_wait (with_sent P fd r0) _ _ _ _ (to_go size completed)); [apply Hst|done|]. split; [done|]. by eapply fl_left_call. }
    intros [st e'] s4 w4 _ (Hw4 & Hn4 & Hns). cbn [fst] in *.
    case_decide as Hst4; [apply IH; [done|]; split; [done|by apply Hn4]|].
    eapply wp_write_leave; [done|done|lia|done|naive_solver].
Qed.

(** Writing a whole buffer: never undefined; what reaches the stream is a
    prefix of the buffer, and with [IO_OK] all of it. *)
Lemma wp_write_all P fd fuel buf size timeout stop r0 s w :
  env_keeps P sent fd → stable (@sends fd) P → timeout <= max_timeout →
  0 <= size <= Z.of_nat (length buf) → size <= max_size → fueled fuel (with_sent P fd r0) s w →
  wp (qcpu_device_write_all fuel fd (Some buf) size timeout stop)
    (write_post P fd size stop 0 buf r0) s w.
Proof.
  intros Henv HP Ht Hsz Hmax Hw. pose proof (with_sent_stable P fd r0 Henv HP) as Hst.
  unfold qcpu_device_write_all. apply wp_bind. eapply wp_mono; [apply (wp_prepare_io _ fuel size fd (Some buf) timeout _ _ Hst); [done|lia|done]|].
  intros [[d b]|] s1 w1 Hi [Hw1 Hd].
  - destruct (Hd d b eq_refl) as (_ & _ & [= <-] & Hrange & Hleft). apply wp_write_loop; [done..|lia|].
    split; [done|]. unfold to_go. by rewrite Z.sub_0_r.
  - apply wp_ret; [done|]. apply write_post_none; [apply Hw1|lia|done|done].
Qed.

(** ** Connecting *)

(** Any call. *)
Definition anything {X : Set} (c : sys X) : bool := true.

(** The other threads neither close an open descriptor nor use its streams. *)
Definition env_respects : Prop :=
  ∀ s w s' w', R (s, w) (s', w') → ∀ fd, fd_open w fd →
    fd_open w' fd ∧ recvd w' fd = recvd w fd ∧ sent w' fd = sent w fd.

(** [P], and a new descriptor nothing was sent or received on. *)
Definition fresh_fd (P : S → W → Prop) (fd : Z) (s : S) (w : W) : Prop :=
  P s w ∧ fd_open w fd ∧ recvd w fd = [] ∧ sent w fd = [].

Lemma fresh_fd_stable P fd :
  env_respects → stable (@anything) P → stable (@control) (fresh_fd P fd).
Proof.
  intros Henv [Hi He Hc]. split.
  - intros s w [Hp _]. eauto.
  - intros s w s' w' HR (Hp & Ho & Hr & Hs). destruct (Henv _ _ _ _ HR fd Ho) as (Ho' & Hr' & Hs').
    split; [eauto|]. by rewrite Hr', Hs'.
  - intros X c s w x w' Hcc Hos (Hp & Ho & Hr & Hs). split; [by eapply Hc|].
    rewrite (os_frame_recvd c w x w' fd Hos), (os_frame_sent c w x w' fd Hos) by by destruct c.
    split; [|done]. eapply os_frame_open; [done| |done]. by destruct c.
Qed.

Lemma wp_close_keep P fd errno s w :
  stable (@anything) P → P s w → wp (close_keep fd errno) (λ _ s w, P s w) s w.
Proof.
  intros HP Hp. unfold close_keep. apply wp_bind. eapply (wp_stable_call P _ HP); [done|done|].
  intros s1 w1 x w2 _ _ _ Hp2. by apply (wp_stable_ret P _ HP).
Qed.

(** A connection is a new descriptor; otherwise the result is [IO_ERROR] or
    [IO_TIMEOUT]. *)
Definition connect_post (P : S → W → Prop) (r : Z * Z) (s : S) (w : W) : Prop :=
  P s w ∧ (0 <= r.1 → fresh_fd P r.1 s w) ∧ (r.1 < 0 → r.1 = -1 ∨ r.1 = -2).

Lemma wp_connect P fuel errno path timeout s w :
  env_respects → stable (@anything) P → timeout <= max_timeout → 0 <= max_size → fueled fuel P s w →
  wp (qcpu_device_connect_unix fuel errno path timeout) (connect_post P) s w.
Proof.
  intros Henv HP Ht Hmax Hw.
  assert (Hneg : ∀ st e s w, st ≠ IO_OK → st ≠ IO_STOPPED → P s w →
    wp (mret (io_status_value st, e)) (connect_post P) s w).
  { intros st e s' w' Hne Hns Hp. eapply (wp_stable_ret P _ HP); [done|].
    split; [done|]. destruct st; simpl; naive_solver lia. }
  assert (Hclose : ∀ fd st e s w, st ≠ IO_OK → st ≠ IO_STOPPED → P s w →
    wp (errno ← close_keep fd e; mret (io_status_value st, errno)) (connect_post P) s w).
  { intros fd st e s' w' Hne Hns Hp. apply wp_bind. eapply wp_mono; [by apply wp_close_keep|]. eauto. }
  unfold qcpu_device_connect_unix. destruct path as [path|]; [|by apply Hneg; try apply Hw].
  destruct (_ || _); [by apply Hneg; try apply Hw|]. apply wp_bind.
  eapply (wp_stable_call _ _ (fueled_stable _ fuel P HP)); [done|done|].
  intros s1 w1 [fd|e] w2 _ _ Hos [Hp2 Hn2]; [|by apply Hneg].
  apply os_socket in Hos as (Hfd & _ & Hopen & Hr & Hs).
  pose proof (fresh_fd_stable P fd Henv HP) as Hsf. pose proof (fueled_stable _ fuel _ Hsf) as Hst.
  assert (fueled fuel (fresh_fd P fd) s1 w2) as Hf2 by done.
  assert (Hgood : ∀ e s w, fresh_fd P fd s w → wp (mret (fd, e)) (connect_post P) s w).
  { intros e s' w' [Hp' Hf']. eapply (wp_stable_ret P _ HP); [done|]. split; [done|]. simpl. split; [done|lia]. }
  apply wp_bind. eapply wp_mono; [by apply (wp_set_nonblocking _ Hst)|]. intros [nb e3] s3 w3 _ Hf3.
  case_decide; [by apply Hclose; try apply Hf3|].
  apply wp_bind. eapply (wp_stable_call _ _ Hst); [done|done|]. intros s4 w4 c w5 _ _ _ Hf5.
  destruct (c =? 0); [by apply Hgood, Hf5|]. cbv zeta.
  destruct (_ && _); [by apply Hclose; try apply Hf5|].
  apply wp_bind. eapply wp_mono; [apply (wp_prepare_deadline (fresh_fd P fd) fuel 0 _ _ _ _ Hsf); [done|lia|done]|].
  intros [[d|] e6] s6 w6 _ [Hf6 Hd]; [|by apply Hclose; try apply Hf6].
  destruct (Hd d eq_refl) as (_ & Hdr & Hleft). apply wp_bind.
  eapply wp_mono; [apply (wp_wait (fresh_fd P fd) _ _ _ _ 0); [done|done|]; split; [apply Hf6|by apply fl_up]|].
  intros [st e7] s7 w7 _ (Hf7 & _ & Hns). specialize (Hns eq_refl). simpl in Hns.
  case_decide; [by apply Hclose; try apply Hf7|].
  apply wp_bind. eapply (wp_stable_call _ _ Hsf); [done|done|]. intros s8 w8 [so|e8] w9 _ _ _ Hf9.
  - destruct (negb _); [by apply Hclose; try apply Hf9|]. by apply Hgood, Hf9.
  - by apply Hclose; try apply Hf9.
Qed.
End Specs.
