(* ===== verification/DeviceIOProps.v ===== *)
(** * Properties of the socket I/O

    For every operating system that keeps the laws of [OS]: reading and
    writing whole buffers neither loses, repeats nor reorders bytes and never
    leaves the buffer; when time passes and calls are interrupted only finitely
    often they return, by their deadline; and a message survives any
    fragmentation. *)

From Stdlib Require Import ZArith Lia ZifyBool.
From stdpp Require Import base list numbers relations gmap.
From S2P Require Import Prelude.
From S2P Require Import Sys.
From S2P Require Import DeviceIO.
Open Scope Z_scope.

(** ** A thread on its own *)

Section Alone.
Context {S W : Type} `{OS W}.

(** No other thread, and no invariant beyond what [P] says. *)
Definition alone : S * W → S * W → Prop := eq.
Definition no_inv : S → W → Prop := λ _ _, True.

Lemma alone_stable allowed (P : S → W → Prop) :
  (∀ (X : Set) (c : sys X) s w x w', allowed X c = true → os_step c w x w' → P s w → P s w') →
  stable alone no_inv allowed P.
Proof. intros Hc. split; [done|by intros s w s' w' [= -> ->]|done]. Qed.

Lemma alone_keeps P (log : W → Z → list Z) fd : env_keeps alone P log fd.
Proof. by intros s w s' w' _ [= -> ->]. Qed.

Lemma alone_sound {A} spin_ok (p p' : prog S A) Q s w s' w' :
  wp alone no_inv spin_ok p Q s w → rtc (step alone) (p, s, w) (p', s', w') →
  p' ≠ Undefined ∧ (p' = Spin → spin_ok) ∧ ∀ a, p' = Ret a → Q a s' w'.
Proof.
  intros Hwp Hsteps. remember (p, s, w) as c eqn:Hc. remember (p', s', w') as c' eqn:Hc'.
  revert p s w Hc Hwp. induction Hsteps as [c|c1 c2 c3 Hstep _ IH]; intros p s w -> Hwp; subst.
  - injection Hc' as -> -> ->. destruct p'; destruct Hwp as [_ Hp]; split_and!; try done. by intros ? [= <-].
  - inversion Hstep; subst; clear Hstep.
    + destruct Hwp as [Hi Hp]. eapply IH; [done..|]. by eapply Hp.
    + destruct Hwp as [Hi Hp]. eapply IH; [done..|]. by eapply Hp.
    + match goal with HR : alone _ _ |- _ => injection HR as <- <- end. by eapply IH.
Qed.
End Alone.

(** ** Whole buffers *)

(** Reading a buffer: for every operating system, [qcpu_device_read_all]
    on a buffer of the given size never runs into undefined behaviour; the
    bytes it stores are exactly those that came next on the stream, in order,
    from the start of the buffer, and [IO_OK] means the buffer holds nothing
    else. *)
Theorem read_all_correct {W} `{OS W} fuel fd buf timeout stop (w w' : W) p' :
  timeout <= INT_MAX →
  rtc (step alone)
    (qcpu_device_read_all fuel fd (Some buf) (Z.of_nat (length buf)) timeout stop, tt, w) (p', tt, w') →
  p' ≠ Undefined ∧
  ∀ st b, p' = Ret (st, b) → ∃ got,
    recvd w' fd = recvd w fd ++ got ∧ b = Some (list_inserts 0 got buf) ∧
    (length got <= length buf)%nat ∧ (st = IO_OK → b = Some got).
Proof.
  intros Ht Hsteps.
  assert (stable (S := ()) alone no_inv (@reads fd) (λ (_ : ()) (_ : W), True)) as Hst by by apply alone_stable.
  destruct (alone_sound True _ _ _ _ _ _ _
    (wp_read_all alone no_inv True INT_MAX (Z.of_nat (length buf)) (λ _ _, True) (fuel_law_any _ _ _ I) (λ _ _, True) fd fuel buf
       (Z.of_nat (length buf)) timeout stop (recvd w fd) tt w
       (alone_keeps _ _ _) Hst Ht ltac:(lia) ltac:(lia) ltac:(done)) Hsteps) as (Hu & _ & Hret).
  split; [done|]. intros st b ->. destruct (Hret _ eq_refl) as (buf' & Hb & _ & got & _ & Hr & Hbuf & Hle & Hok & _).
  simpl in *. subst. exists got. split_and!; [done|done|lia|]. intros ->. f_equal.
  rewrite <-(app_nil_r got) at 1. apply list_inserts_0_l. specialize (Hok eq_refl). lia.
Qed.

(** Writing a buffer: [qcpu_device_write_all] never runs into undefined
    behaviour; what reaches the stream is a prefix of the buffer, written
    once and in order, and [IO_OK] means all of it was written. *)
Theorem write_all_correct {W} `{OS W} fuel fd buf timeout stop (w w' : W) p' :
  timeout <= INT_MAX →
  rtc (step alone)
    (qcpu_device_write_all fuel fd (Some buf) (Z.of_nat (length buf)) timeout stop, tt, w) (p', tt, w') →
  p' ≠ Undefined ∧
  ∀ st, p' = Ret st → ∃ n, sent w' fd = sent w fd ++ take n buf ∧
    (st = IO_OK → sent w' fd = sent w fd ++ buf).
Proof.
  intros Ht Hsteps.
  assert (stable (S := ()) alone no_inv (@sends fd) (λ (_ : ()) (_ : W), True)) as Hst by by apply alone_stable.
  destruct (alone_sound True _ _ _ _ _ _ _
    (wp_write_all alone no_inv True INT_MAX (Z.of_nat (length buf)) (λ _ _, True) (fuel_law_any _ _ _ I) (λ _ _, True) fd fuel buf
       (Z.of_nat (length buf)) timeout stop (sent w fd) tt w
       (alone_keeps _ _ _) Hst Ht ltac:(lia) ltac:(lia) ltac:(done)) Hsteps) as (Hu & _ & Hret).
  split; [done|]. intros st ->. destruct (Hret _ eq_refl) as (_ & n & Hs & Hle & Hok & _).
  rewrite drop_0 in Hs. exists n. split; [done|]. intros ->. rewrite Hs. f_equal. apply take_ge.
  specialize (Hok eq_refl). lia.
Qed.

(** ** Termination *)

(** Time and interruptions. [now w] is the time in nanoseconds: every call takes
    some, and the clock shows the time at some moment of the call that reads it.
    [interrupts w] bounds how many more calls of [read] and [send] a signal
    interrupts. Nothing is said of other answers: the system may answer with any
    data, delays and errors, as often as it likes. *)
Record timely {W} `{OS W} (now : W → Z) (interrupts : W → nat) : Prop := {
  tm_time (X : Set) (c : sys X) w x w' : os_step c w x w' → now w < now w';
  tm_clock w sec nsec w' : os_step Clock w (inl (sec, nsec)) w' → now w <= sec * 1000000000 + nsec <= now w';
  tm_interrupts (X : Set) (c : sys X) w x w' : os_step c w x w' → (interrupts w' <= interrupts w)%nat;
  tm_read fd n w w' : os_step (Read fd n) w (RErr EINTR) w' → (interrupts w' < interrupts w)%nat;
  tm_send fd bs w w' : os_step (Send fd bs) w (WErr EINTR) w' → (interrupts w' < interrupts w)%nat
}.

(** Rounds that suffice for [size] bytes in [timeout] milliseconds: one for each
    interruption, for each byte, and for each nanosecond before the deadline. *)
Definition rounds (interrupts : nat) (timeout size : Z) : nat :=
  (interrupts + Z.to_nat size + Z.to_nat (timeout * 1000000) + 2)%nat.

#[global] Arguments rounds : simpl never.

Lemma millis_bounds sec nsec :
  0 <= nsec → millis sec nsec * 1000000 <= sec * 1000000000 + nsec < (millis sec nsec + 1) * 1000000.
Proof. unfold millis. Z.to_euclidean_division_equations. lia. Qed.

Lemma timely_fuel {S W} `{OS W} (R : S * W → S * W → Prop) (now : W → Z) (interrupts : W → nat) max_timeout max_size :
  timely now interrupts → max_timeout <= INT_MAX →
  (∀ s w s' w', R (s, w) (s', w') → now w <= now w' ∧ (interrupts w' <= interrupts w)%nat) →
  fuel_law R False max_timeout max_size (λ n w, (rounds (interrupts w) max_timeout max_size <= n)%nat).
Proof.
  intros [Htime Hclock Hint Hread Hsend] Hmax HR. unfold rounds.
  exists (λ d r n w, (interrupts w + Z.to_nat r + Z.to_nat (d * 1000000 - now w) + 1 < n)%nat); try done.
  - intros n s w s' w' Hstep ?. apply HR in Hstep. lia.
  - intros n X c w x w' Hos ?. apply Hint in Hos. lia.
  - intros n w sec nsec w' timeout size Hos ? ? ?. pose proof (os_clock _ _ _ _ Hos).
    pose proof (millis_bounds sec nsec). pose proof (Hint _ _ _ _ _ Hos). apply Hclock in Hos. lia.
  - lia.
  - intros. lia.
  - intros d r n s w s' w' Hstep ?. apply HR in Hstep. lia.
  - intros d r n X c w x w' Hos ?. pose proof (Htime _ _ _ _ _ Hos). apply Hint in Hos. lia.
  - intros d r n k w ? ?. lia.
  - intros d r n w sec nsec w' Hos Hlt ?. pose proof (os_clock _ _ _ _ Hos). pose proof (millis_bounds sec nsec).
    pose proof (Hint _ _ _ _ _ Hos). pose proof (Htime _ _ _ _ _ Hos). apply Hclock in Hos. lia.
  - intros d r n fd m w w' Hos ?. pose proof (Htime _ _ _ _ _ Hos). apply Hread in Hos. lia.
  - intros d r n fd bs w w' Hos ?. pose proof (Htime _ _ _ _ _ Hos). apply Hsend in Hos. lia.
Qed.

Lemma alone_fuel {S W} `{OS W} (now : W → Z) (interrupts : W → nat) max_timeout max_size :
  timely now interrupts → max_timeout <= INT_MAX →
  fuel_law (S := S) alone False max_timeout max_size (λ n w, (rounds (interrupts w) max_timeout max_size <= n)%nat).
Proof. intros Ht Hmax. apply (timely_fuel _ now); [done|done|]. by intros s w s' w' [= -> ->]. Qed.

Lemma alone_returns {W A} `{OS W} (p : prog () A) Q w :
  responsive → wp alone no_inv False p Q tt w → always_returns alone p tt w.
Proof.
  intros Hos Hwp. eapply wp_always_returns, Hwp; try done; unfold alone; congruence.
Qed.

(** C35 (termination): let every call be answered and take time, the clock show
    the time, and signals interrupt [read] and [send] finitely often; let the
    answers be otherwise arbitrary, errors that never go away included. Then as
    many rounds as there are interruptions, bytes and nanoseconds before the
    deadline suffice: along every execution neither function meets undefined
    behaviour or is left looping, and both can always go on to return. *)
Theorem io_terminates {W} `{OS W} (now : W → Z) (interrupts : W → nat) fuel fd buf timeout stop (w : W) :
  responsive (W := W) → timely now interrupts → timeout <= INT_MAX →
  (rounds (interrupts w) timeout (Z.of_nat (length buf)) <= fuel)%nat →
  always_returns alone
    (qcpu_device_read_all fuel fd (Some buf) (Z.of_nat (length buf)) timeout stop) tt w ∧
  always_returns alone
    (qcpu_device_write_all fuel fd (Some buf) (Z.of_nat (length buf)) timeout stop) tt w.
Proof.
  intros Hos Htime Ht Hfuel. pose proof (alone_fuel (S := ()) now interrupts timeout (Z.of_nat (length buf)) Htime Ht) as HF.
  split; eapply (alone_returns _ _ _ Hos).
  - apply (wp_read_all alone no_inv False _ _ _ HF (λ _ _, True) fd fuel buf _ timeout stop (recvd w fd));
      [apply alone_keeps|by apply alone_stable|lia|lia|lia|done].
  - apply (wp_write_all alone no_inv False _ _ _ HF (λ _ _, True) fd fuel buf _ timeout stop (sent w fd));
      [apply alone_keeps|by apply alone_stable|lia|lia|lia|done].
Qed.

(** ** The clocked script keeps time *)

Definition read_interrupted (a : read_answer) : bool := match a with RErr e => e =? EINTR | _ => false end.
Definition send_interrupted (a : send_answer) : bool := match a with WErr e => e =? EINTR | _ => false end.

Definition script_interrupts (w : sworld * Z) : nat :=
  (length (List.filter read_interrupted (sw_read w.1)) + length (List.filter send_interrupted (sw_send w.1)))%nat.

Lemma script_timely : timely snd script_interrupts.
Proof.
  assert (∀ (X : Set) (c : sys X) w x w', clocked_answer c w = (x, w') → w'.2 = w.2 + 1) as Htime.
  { intros X c w x w'. destruct c; cbn [clocked_answer]; try (by intros [= _ <-]).
    all: match goal with |- context [script_answer ?c ?w] => destruct (script_answer c w) end; by intros [= _ <-]. }
  split.
  - intros X c w x w' Hos%Htime. lia.
  - intros w sec nsec w' [= Hx <-]. destruct (good_clock _); [|done]. injection Hx as <- <-. cbn [snd].
    pose proof (Z.div_mod w.2 1000000000). lia.
  - intros X c w x w' Hos%clocked_script. unfold script_interrupts.
    destruct c; try (by rewrite Hos); revert Hos; unfold os_step, script_os; generalize w.1, w'.1; intros v v'; script_case; simpl;
      repeat match goal with |- context [(?e =? EINTR)%Z] => destruct (e =? EINTR)%Z end; simpl; lia.
  - intros fd n w w' Hos%clocked_script. unfold script_interrupts. revert Hos. unfold os_step, script_os.
    generalize w.1, w'.1. intros v v'. script_case; lia.
  - intros fd bs w w' Hos%clocked_script. unfold script_interrupts. revert Hos. unfold os_step, script_os.
    generalize w.1, w'.1. intros v v'. script_case; lia.
Qed.

(** A run against the script is an execution. *)
Lemma run_steps {S A} (p : prog S A) s w a s' w' :
  run p s w = Done (a, s', w') → rtc (step alone) (p, s, w) (Ret a, s', w').
Proof.
  revert s w. induction p as [b|X c k IH|X g k IH| |]; intros s w; simpl; try done.
  - by intros [= -> -> ->].
  - destruct (script_answer c w) as [x w1] eqn:Ha. intros Hrun. eapply rtc_l; [eapply step_sys; exact Ha|by apply IH].
  - destruct (g s) as [[x s1]|] eqn:Hg; [|done]. intros Hrun. eapply rtc_l; [by eapply step_crit|]. by apply IH.
Qed.

(** ** Witnesses *)

(** Five bytes arrive in two chunks, with an interruption and a wait between
    them; four bytes are sent one at a time. *)
Definition frag_world : sworld := {|
  sw_clock := replicate 9 (Some (5, 0));
  sw_stop := [];
  sw_poll := [PReady POLLIN];
  sw_read := [RData [1; 2]; RErr EINTR; RErr EAGAIN; RData [3; 4; 5; 6]];
  sw_send := [WCount 1; WErr EINTR; WCount 2; WCount 7];
  sw_socket := [];
  sw_connect := [];
  sw_recvd := ∅;
  sw_sent := ∅;
  sw_open := {[7]}
|}.

Definition frag_read : prog () (QCPUDeviceIOStatus * option (list Z)) :=
  qcpu_device_read_all 20 7 (Some [0; 0; 0; 0; 0]) 5 2000 false.
Definition frag_write : prog () QCPUDeviceIOStatus :=
  qcpu_device_write_all 20 7 (Some [9; 8; 7; 6]) 4 2000 false.

Definition world_after {S A} (o : outcome (A * S * sworld)) : sworld :=
  match o with Done (_, _, w) => w | _ => frag_world end.

Lemma read_all_correct_witness :
  run frag_read tt frag_world = Done (IO_OK, Some [1; 2; 3; 4; 5], tt, world_after (run frag_read tt frag_world)) ∧
  recvd (world_after (run frag_read tt frag_world)) 7 = [1; 2; 3; 4; 5].
Proof.
  assert (run frag_read tt frag_world =
    Done (IO_OK, Some [1; 2; 3; 4; 5], tt, world_after (run frag_read tt frag_world))) as Hrun by (vm_compute; reflexivity).
  split; [exact Hrun|]. apply run_steps in Hrun.
  destruct (read_all_correct 20 7 [0; 0; 0; 0; 0] 2000 false _ _ _ ltac:(unfold INT_MAX; lia) Hrun) as (_ & Hret).
  destruct (Hret _ _ eq_refl) as (got & -> & _ & _ & Hok). injection (Hok eq_refl) as <-. reflexivity.
Defined.

Lemma write_all_correct_witness :
  sent (world_after (run frag_write tt frag_world)) 7 = [9; 8; 7; 6].
Proof.
  assert (run frag_write tt frag_world =
    Done (IO_OK, tt, world_after (run frag_write tt frag_world))) as Hrun by (vm_compute; reflexivity).
  apply run_steps in Hrun.
  destruct (write_all_correct 20 7 [9; 8; 7; 6] 2000 false _ _ _ ltac:(unfold INT_MAX; lia) Hrun) as (_ & Hret).
  destruct (Hret _ eq_refl) as (n & _ & ->); reflexivity.
Defined.

Lemma clocked_responsive : responsive (W := sworld * Z).
Proof. intros X c w. destruct (clocked_answer c w) as [x w'] eqn:Ha. by exists x, w'. Qed.

Lemma io_terminates_witness :
  ∃ a s1 w1, rtc (step alone)
    (qcpu_device_read_all (rounds 2 2000 5) 7 (Some [0; 0; 0; 0; 0]) 5 2000 false, tt, (frag_world, 5000000000)) (Ret a, s1, w1).
Proof.
  destruct (io_terminates snd script_interrupts (rounds 2 2000 5) 7 [0; 0; 0; 0; 0] 2000 false (frag_world, 5000000000)
    clocked_responsive script_timely ltac:(unfold INT_MAX; lia)) as [Hread _].
  - assert (script_interrupts (frag_world, 5000000000) = 2%nat) as -> by reflexivity. apply Nat.le_refl.
  - destruct (Hread _ _ _ (rtc_refl _ _)) as (_ & _ & Hret). exact Hret.
Defined.
