(* ===== verification/Protocol.v ===== *)
(** * Protocol constants and structures

    [Device] is the v4.6 wire protocol of [src/device/qcpu_device_protocol.h]
    (client and daemon, a [double] norm); [Uapi] is the v4.7 device interface
    of [include/uapi/qcpu_device_uapi.h] (fixed-width fields only, a Q32.32
    norm). Unsigned fields are [Z]; [*_wf] says that a field fits its width. *)

From Stdlib Require Import ZArith Lia ZifyBool SpecFloat.
From stdpp Require Import base list numbers.
From S2P Require Import Prelude.
From S2P Require Import Float64.
Open Scope Z_scope.

Module Device.
Definition PROTOCOL_VERSION : Z := 1.
Definition REQUEST_MAGIC : Z := 0x51445631.
Definition RESPONSE_MAGIC : Z := 0x51525631.
Definition MAX_QUBITS : Z := 20.
Definition MAX_SHOTS : Z := 100.

Definition COMMAND_STATUS : Z := 1.
Definition COMMAND_RUN_GHZ : Z := 2.

(** [QCPUDeviceStatus] *)
Definition STATUS_OK : Z := 0.
Definition STATUS_BAD_MAGIC : Z := 1.
Definition STATUS_BAD_VERSION : Z := 2.
Definition STATUS_BAD_COMMAND : Z := 3.
Definition STATUS_RANGE : Z := 4.
Definition STATUS_KERNEL : Z := 5.
Definition STATUS_IO : Z := 6.

Definition FLAG_SOFTWARE_VIRTUAL_QCPU : Z := 1.
Definition FLAG_CLASSICAL_HOST : Z := 2.
Definition FLAG_PHYSICAL_QPU_ABSENT : Z := 4.
Definition FLAG_Q0_MOST_SIGNIFICANT : Z := 8.

Record Request := {
  req_magic : Z;
  req_version : Z;
  req_command : Z;
  req_qubits : Z;
  req_shots : Z;
  req_seed : Z
}.

Record Response := {
  rsp_magic : Z;
  rsp_version : Z;
  rsp_status : Z;
  rsp_flags : Z;
  rsp_qubits : Z;
  rsp_basis_states : Z;
  rsp_shots : Z;
  rsp_measured_state : Z;
  rsp_invalid_results : Z;
  rsp_norm : double
}.

Definition request_wf (r : Request) : Prop :=
  in_width 32 (req_magic r) ∧ in_width 16 (req_version r) ∧ in_width 16 (req_command r) ∧
  in_width 32 (req_qubits r) ∧ in_width 32 (req_shots r) ∧ in_width 64 (req_seed r).

Definition response_wf (r : Response) : Prop :=
  in_width 32 (rsp_magic r) ∧ in_width 16 (rsp_version r) ∧ in_width 16 (rsp_status r) ∧
  in_width 32 (rsp_flags r) ∧ in_width 32 (rsp_qubits r) ∧ in_width 64 (rsp_basis_states r) ∧
  in_width 64 (rsp_shots r) ∧ in_width 64 (rsp_measured_state r) ∧
  in_width 64 (rsp_invalid_results r) ∧ valid_double (rsp_norm r).

(** [memset(response, 0, sizeof *response)] *)
Definition zero_response : Response :=
  {| rsp_magic := 0; rsp_version := 0; rsp_status := 0; rsp_flags := 0; rsp_qubits := 0;
     rsp_basis_states := 0; rsp_shots := 0; rsp_measured_state := 0;
     rsp_invalid_results := 0; rsp_norm := S754_zero false |}.
End Device.

Module Uapi.
Definition ABI_VERSION : Z := 1.
Definition PROTOCOL_VERSION : Z := 1.
Definition REQUEST_MAGIC : Z := 0x51445631.
Definition RESPONSE_MAGIC : Z := 0x51525631.
Definition MAX_QUBITS : Z := 20.
Definition MAX_SHOTS : Z := 100.
Definition MAX_INFLIGHT : Z := 1.
Definition BACKEND_NAME_BYTES : Z := 32.
Definition DRIVER_VERSION_BYTES : Z := 16.

Definition COMMAND_STATUS : Z := 1.
Definition COMMAND_RUN_GHZ : Z := 2.

Definition STATUS_OK : Z := 0.
Definition STATUS_BAD_MAGIC : Z := 1.
Definition STATUS_BAD_VERSION : Z := 2.
Definition STATUS_BAD_COMMAND : Z := 3.
Definition STATUS_RANGE : Z := 4.
Definition STATUS_KERNEL : Z := 5.
Definition STATUS_IO : Z := 6.
Definition STATUS_BACKEND_ABSENT : Z := 7.
Definition STATUS_BUSY : Z := 8.
Definition STATUS_TIMEOUT : Z := 9.
Definition STATUS_CANCELED : Z := 10.

Definition FLAG_SOFTWARE_VIRTUAL_QCPU : Z := Z.shiftl 1 0.
Definition FLAG_CLASSICAL_HOST : Z := Z.shiftl 1 1.
Definition FLAG_PHYSICAL_QPU_ABSENT : Z := Z.shiftl 1 2.
Definition FLAG_Q0_MOST_SIGNIFICANT : Z := Z.shiftl 1 3.

Definition DEVICE_OFFLINE : Z := 0.
Definition DEVICE_IDLE : Z := 1.
Definition DEVICE_BUSY : Z := 2.
Definition DEVICE_ERROR : Z := 3.

Record request_v1 := {
  ureq_magic : Z;
  ureq_version : Z;
  ureq_command : Z;
  ureq_qubits : Z;
  ureq_shots : Z;
  ureq_seed : Z
}.

Record response_v1 := {
  ursp_magic : Z;
  ursp_version : Z;
  ursp_status : Z;
  ursp_flags : Z;
  ursp_qubits : Z;
  ursp_basis_states : Z;
  ursp_shots : Z;
  ursp_measured_state : Z;
  ursp_invalid_results : Z;
  ursp_norm_q32_32 : Z
}.

Record caps_v1 := {
  caps_abi_version : Z;
  caps_protocol_version : Z;
  caps_max_qubits : Z;
  caps_max_shots : Z;
  caps_max_inflight : Z;
  caps_flags : Z;
  caps_backend : list Z;
  caps_driver_version : list Z;
  caps_reserved : list Z
}.

Record status_v1 := {
  st_device_state : Z;
  st_active_client_sessions : Z;
  st_last_errno : Z;
  st_last_protocol_status : Z;
  st_completed_requests : Z;
  st_failed_requests : Z
}.

Record exchange_v1 := {
  ex_request : request_v1;
  ex_timeout_ns : Z;
  ex_response : response_v1
}.

Definition zero_response : response_v1 :=
  {| ursp_magic := 0; ursp_version := 0; ursp_status := 0; ursp_flags := 0; ursp_qubits := 0;
     ursp_basis_states := 0; ursp_shots := 0; ursp_measured_state := 0;
     ursp_invalid_results := 0; ursp_norm_q32_32 := 0 |}.
End Uapi.
