(* ===== verification/Wire.v ===== *)
(** * The wire format of the device protocol

    [src/device/qcpu_device_wire.c]: a request is 24 bytes and a response 56,
    every field little-endian at a fixed offset. A byte buffer is a list of
    [Z]; an access outside it is undefined behaviour ([None]). *)

From Stdlib Require Import ZArith Lia ZifyBool SpecFloat.
From stdpp Require Import base list numbers.
From S2P Require Import Prelude.
From S2P Require Import Float64.
From S2P Require Import Protocol.
Import Device.
Open Scope Z_scope.

Definition REQUEST_WIRE_SIZE : nat := 24.
Definition RESPONSE_WIRE_SIZE : nat := 56.

Abbreviation buffer := (list Z).

(** [buf[i] = v] *)
Definition store (buf : buffer) (i : nat) (v : Z) : option buffer :=
  if decide (i < length buf)%nat then Some (<[i := v]> buf) else None.

Definition put_u16_le (output : buffer) (off : nat) (value : Z) : option buffer :=
  output ← store output (off + 0) (u8 (Z.land value 0xff));
  store output (off + 1) (u8 (Z.shiftr value 8)).

Definition put_u32_le (output : buffer) (off : nat) (value : Z) : option buffer :=
  output ← store output (off + 0) (u8 (Z.land value 0xff));
  output ← store output (off + 1) (u8 (Z.land (Z.shiftr value 8) 0xff));
  output ← store output (off + 2) (u8 (Z.land (Z.shiftr value 16) 0xff));
  store output (off + 3) (u8 (Z.shiftr value 24)).

Definition put_u64_le (output : buffer) (off : nat) (value : Z) : option buffer :=
  for_range
    (λ index output, store output (off + index) (u8 (Z.shiftr value (Z.of_nat index * 8))))
    0 8 output.

Definition get_u16_le (input : buffer) (off : nat) : option Z :=
  b0 ← input !! (off + 0)%nat;
  b1 ← input !! (off + 1)%nat;
  Some (u16 (Z.lor b0 (Z.shiftl b1 8))).

Definition get_u32_le (input : buffer) (off : nat) : option Z :=
  b0 ← input !! (off + 0)%nat;
  b1 ← input !! (off + 1)%nat;
  b2 ← input !! (off + 2)%nat;
  b3 ← input !! (off + 3)%nat;
  Some (Z.lor (Z.lor (Z.lor b0 (u32 (Z.shiftl b1 8))) (u32 (Z.shiftl b2 16))) (u32 (Z.shiftl b3 24))).

Definition get_u64_le (input : buffer) (off : nat) : option Z :=
  for_range
    (λ index value,
       b ← input !! (off + index)%nat;
       Some (Z.lor value (u64 (Z.shiftl b (Z.of_nat index * 8)))))
    0 8 0.

(** [qcpu_device_encode_request]: the status and the output buffer. *)
Definition qcpu_device_encode_request (output : ptr buffer) (request : ptr Request)
    : option (Z * ptr buffer) :=
  match output, request with
  | Some output, Some request =>
      output ← put_u32_le output 0 (req_magic request);
      output ← put_u16_le output 4 (req_version request);
      output ← put_u16_le output 6 (req_command request);
      output ← put_u32_le output 8 (req_qubits request);
      output ← put_u32_le output 12 (req_shots request);
      output ← put_u64_le output 16 (req_seed request);
      Some (STATUS_OK, Some output)
  | _, _ => Some (STATUS_IO, output)
  end.

Definition qcpu_device_decode_request (request : ptr Request) (input : ptr buffer)
    (input_size : Z) : option (Z * ptr Request) :=
  match request, input with
  | Some _, Some input =>
      if negb (input_size =? Z.of_nat REQUEST_WIRE_SIZE) then Some (STATUS_IO, request)
      else
        magic ← get_u32_le input 0;
        version ← get_u16_le input 4;
        command ← get_u16_le input 6;
        qubits ← get_u32_le input 8;
        shots ← get_u32_le input 12;
        seed ← get_u64_le input 16;
        let r := {| req_magic := magic; req_version := version; req_command := command;
                    req_qubits := qubits; req_shots := shots; req_seed := seed |} in
        if negb (magic =? REQUEST_MAGIC) then Some (STATUS_BAD_MAGIC, Some r)
        else if negb (version =? PROTOCOL_VERSION) then Some (STATUS_BAD_VERSION, Some r)
        else Some (STATUS_OK, Some r)
  | _, _ => Some (STATUS_IO, request)
  end.

Definition qcpu_device_encode_response (output : ptr buffer) (response : ptr Response)
    : option (Z * ptr buffer) :=
  match output, response with
  | Some output, Some response =>
      output ← put_u32_le output 0 (rsp_magic response);
      output ← put_u16_le output 4 (rsp_version response);
      output ← put_u16_le output 6 (rsp_status response);
      output ← put_u32_le output 8 (rsp_flags response);
      output ← put_u32_le output 12 (rsp_qubits response);
      output ← put_u64_le output 16 (rsp_basis_states response);
      output ← put_u64_le output 24 (rsp_shots response);
      output ← put_u64_le output 32 (rsp_measured_state response);
      output ← put_u64_le output 40 (rsp_invalid_results response);
      output ← put_u64_le output 48 (double_to_u64 (rsp_norm response));
      Some (STATUS_OK, Some output)
  | _, _ => Some (STATUS_IO, output)
  end.

Definition qcpu_device_decode_response (response : ptr Response) (input : ptr buffer)
    (input_size : Z) : option (Z * ptr Response) :=
  match response, input with
  | Some _, Some input =>
      if negb (input_size =? Z.of_nat RESPONSE_WIRE_SIZE) then Some (STATUS_IO, response)
      else
        magic ← get_u32_le input 0;
        version ← get_u16_le input 4;
        status ← get_u16_le input 6;
        flags ← get_u32_le input 8;
        qubits ← get_u32_le input 12;
        basis_states ← get_u64_le input 16;
        shots ← get_u64_le input 24;
        measured_state ← get_u64_le input 32;
        invalid_results ← get_u64_le input 40;
        norm ← get_u64_le input 48;
        let r := {| rsp_magic := magic; rsp_version := version; rsp_status := status;
                    rsp_flags := flags; rsp_qubits := qubits; rsp_basis_states := basis_states;
                    rsp_shots := shots; rsp_measured_state := measured_state;
                    rsp_invalid_results := invalid_results; rsp_norm := u64_to_double norm |} in
        if negb (magic =? RESPONSE_MAGIC) then Some (STATUS_BAD_MAGIC, Some r)
        else if negb (version =? PROTOCOL_VERSION) then Some (STATUS_BAD_VERSION, Some r)
        else Some (STATUS_OK, Some r)
  | _, _ => Some (STATUS_IO, response)
  end.

(** ** Little-endian bytes of an integer *)

Fixpoint le_split (n : nat) (v : Z) : list Z :=
  match n with
  | O => []
  | S n => u8 v :: le_split n (Z.shiftr v 8)
  end.

Fixpoint le_combine (bs : list Z) : Z :=
  match bs with
  | [] => 0
  | b :: bs => b + 256 * le_combine bs
  end.

Definition bytes (bs : list Z) : Prop := Forall (in_width 8) bs.

Lemma le_combine_split n v : le_combine (le_split n v) = v mod 2 ^ (8 * Z.of_nat n).
Proof.
  revert v. induction n as [|n IH]; intros v; [by rewrite Z.mod_1_r|].
  cbn [le_split le_combine]. rewrite IH, Z.shiftr_div_pow2 by lia. unfold wrap.
  replace (8 * Z.of_nat (S n)) with (8 + 8 * Z.of_nat n) by lia. rewrite Z.pow_add_r by lia.
  rewrite Z.rem_mul_r by (try apply Z.pow_nonzero; try apply Z.pow_pos_nonneg; lia). done.
Qed.

Lemma le_combine_bound bs : bytes bs → 0 <= le_combine bs < 2 ^ (8 * Z.of_nat (length bs)).
Proof.
  induction 1 as [|b bs Hb _ IH]; [done|]. cbn [le_combine length].
  replace (8 * Z.of_nat (S (length bs))) with (8 + 8 * Z.of_nat (length bs)) by lia.
  rewrite Z.pow_add_r by lia. unfold in_width in Hb. lia.
Qed.

Lemma le_split_combine bs : bytes bs → le_split (length bs) (le_combine bs) = bs.
Proof.
  induction 1 as [|b bs Hb _ IH]; [done|]. cbn [length le_combine le_split].
  unfold in_width in Hb. rewrite Z.shiftr_div_pow2 by done. f_equal.
  - unfold wrap. Z.to_euclidean_division_equations; lia.
  - replace ((b + 256 * le_combine bs) / 2 ^ 8) with (le_combine bs); [done|].
    Z.to_euclidean_division_equations; lia.
Qed.

Lemma le_split_bytes n v : bytes (le_split n v).
Proof.
  revert v. induction n; intros v; [constructor|]. constructor; [by apply wrap_in_width|apply IHn].
Qed.

Lemma length_le_split n v : length (le_split n v) = n.
Proof. revert v. induction n; intros v; simpl; [done|]. by rewrite IHn. Qed.

(** ** The writers splice little-endian bytes into the buffer *)

Lemma u8_land v : u8 (Z.land v 0xff) = u8 v.
Proof. unfold wrap. change 0xff with (Z.ones 8). rewrite Z.land_ones by done. by rewrite Z.mod_mod. Qed.

Lemma store_ok buf i v : (i < length buf)%nat → store buf i v = Some (<[i := v]> buf).
Proof. intros. unfold store. by rewrite decide_True. Qed.

Ltac put_stores :=
  repeat (rewrite store_ok by (rewrite ?length_insert; lia); simpl).

Lemma put_u16_spec buf off v :
  (off + 2 <= length buf)%nat → put_u16_le buf off v = Some (list_inserts off (le_split 2 v) buf).
Proof.
  intros. unfold put_u16_le. put_stores. rewrite u8_land.
  rewrite !Nat.add_0_r, Nat.add_1_r, list_insert_insert_ne by lia. done.
Qed.

Lemma put_u32_spec buf off v :
  (off + 4 <= length buf)%nat → put_u32_le buf off v = Some (list_inserts off (le_split 4 v) buf).
Proof.
  intros. unfold put_u32_le. put_stores. rewrite !u8_land. f_equal. simpl.
  rewrite !Z.shiftr_shiftr by lia. simpl Z.add.
  replace (off + 3)%nat with (S (S (S off))) by lia. replace (off + 2)%nat with (S (S off)) by lia.
  replace (off + 1)%nat with (S off) by lia. rewrite Nat.add_0_r.
  rewrite (list_insert_insert_ne _ (S off) off), (list_insert_insert_ne _ (S (S off)) off),
    (list_insert_insert_ne _ (S (S (S off))) off), (list_insert_insert_ne _ (S (S off)) (S off)),
    (list_insert_insert_ne _ (S (S (S off))) (S off)) by lia.
  by rewrite (list_insert_insert_ne _ (S (S (S off))) (S (S off))) by lia.
Qed.

Lemma put_u64_loop v off k buf i :
  (off + i + k <= length buf)%nat →
  for_range (λ index output, store output (off + index) (u8 (Z.shiftr v (Z.of_nat index * 8)))) i k buf
  = Some (list_inserts (off + i) (le_split k (Z.shiftr v (Z.of_nat i * 8))) buf).
Proof.
  revert buf i. induction k as [|k IH]; intros buf i Hlen; [done|]. simpl for_range.
  rewrite store_ok by lia. simpl. rewrite IH by (rewrite length_insert; lia).
  f_equal. rewrite Z.shiftr_shiftr by lia.
  replace (Z.of_nat i * 8 + 8) with (Z.of_nat (S i) * 8) by lia.
  replace (S (off + i)) with (off + S i)%nat by lia.
  generalize (le_split k (Z.shiftr v (Z.of_nat (S i) * 8))). intros bs.
  rewrite list_insert_inserts_lt by lia. done.
Qed.

Lemma put_u64_spec buf off v :
  (off + 8 <= length buf)%nat → put_u64_le buf off v = Some (list_inserts off (le_split 8 v) buf).
Proof.
  intros. unfold put_u64_le. rewrite put_u64_loop by lia.
  by rewrite Nat.add_0_r, Z.shiftr_0_r.
Qed.

(** ** The readers combine consecutive bytes *)

Lemma le_combine_snoc bs b :
  le_combine (bs ++ [b]) = le_combine bs + b * 2 ^ (8 * Z.of_nat (length bs)).
Proof.
  induction bs as [|c bs IH]; cbn [app le_combine length]; [lia|]. rewrite IH.
  replace (8 * Z.of_nat (S (length bs))) with (8 + 8 * Z.of_nat (length bs)) by lia.
  rewrite Z.pow_add_r by lia. lia.
Qed.

Lemma lor_shiftl a b k : 0 <= k → 0 <= a < 2 ^ k → Z.lor a (Z.shiftl b k) = a + b * 2 ^ k.
Proof.
  intros Hk Ha. assert (Z.land a (Z.shiftl b k) = 0) as H.
  { apply Z.bits_inj'. intros i Hi. rewrite Z.land_spec, Z.testbit_0_l.
    destruct (Z.lt_ge_cases i k).
    - by rewrite Z.shiftl_spec_low, andb_false_r by done.
    - by rewrite (testbit_above i ltac:(lia) a k) by lia. }
  pose proof (Z.add_lor_land a (Z.shiftl b k)). rewrite Z.shiftl_mul_pow2 in * by done. lia.
Qed.

Lemma lor_byte w bs b :
  bytes bs → in_width 8 b → 8 * Z.of_nat (S (length bs)) <= w →
  Z.lor (le_combine bs) (wrap w (Z.shiftl b (8 * Z.of_nat (length bs)))) = le_combine (bs ++ [b]).
Proof.
  intros Hbs [Hb0 Hb1] Hw. pose proof (le_combine_bound bs Hbs).
  rewrite le_combine_snoc, wrap_small; [by rewrite lor_shiftl by lia|].
  unfold in_width. rewrite Z.shiftl_mul_pow2 by lia.
  assert (2 ^ (8 + 8 * Z.of_nat (length bs)) <= 2 ^ w) by (apply Z.pow_le_mono_r; lia).
  rewrite Z.pow_add_r in * by lia. nia.
Qed.

Definition slice (off n : nat) (buf : buffer) : list Z := take n (drop off buf).

Lemma slice_S off n buf b :
  buf !! (off + n)%nat = Some b → slice off (S n) buf = slice off n buf ++ [b].
Proof. intros. unfold slice. apply take_S_r. by rewrite lookup_drop. Qed.

Lemma slice_bytes off n buf : bytes buf → bytes (slice off n buf).
Proof. intros. by apply Forall_take, Forall_drop. Qed.

Lemma length_slice off n buf : (off + n <= length buf)%nat → length (slice off n buf) = n.
Proof. intros. unfold slice. rewrite length_take, length_drop. lia. Qed.

(** One more byte read and or-ed in. *)
Lemma read_byte w off n buf :
  bytes buf → (off + n < length buf)%nat → 8 * Z.of_nat (S n) <= w →
  ∃ b, buf !! (off + n)%nat = Some b ∧ in_width 8 b ∧
    Z.lor (le_combine (slice off n buf)) (wrap w (Z.shiftl b (8 * Z.of_nat n)))
    = le_combine (slice off (S n) buf).
Proof.
  intros Hbuf Hlt Hw. destruct (lookup_lt_is_Some_2 buf (off + n) Hlt) as [b Hb].
  exists b. pose proof (Forall_lookup_1 _ _ _ _ Hbuf Hb) as Hb8. split_and!; try done.
  rewrite (slice_S _ _ _ _ Hb). pose proof (length_slice off n buf ltac:(lia)) as Hl.
  rewrite <-Hl at 2. apply lor_byte; [by apply slice_bytes|done|]. by rewrite Hl.
Qed.

Lemma slice_1 off buf b : buf !! (off + 0)%nat = Some b → slice off 1 buf = [b].
Proof. intros Hb. by rewrite (slice_S _ _ _ _ Hb). Qed.

Lemma get_u16_spec buf off :
  bytes buf → (off + 2 <= length buf)%nat →
  get_u16_le buf off = Some (le_combine (slice off 2 buf)).
Proof.
  intros Hbuf Hlen. unfold get_u16_le.
  destruct (read_byte 16 off 0 buf Hbuf ltac:(lia) ltac:(lia)) as (b0 & H0 & Hw0 & _).
  destruct (read_byte 16 off 1 buf Hbuf ltac:(lia) ltac:(lia)) as (b1 & H1 & Hw1 & E1).
  rewrite H0. simpl. rewrite H1. simpl. f_equal. rewrite <-E1, (slice_1 _ _ _ H0).
  simpl le_combine. rewrite Z.add_0_r. unfold in_width in *.
  rewrite !wrap_small; [done| |]; unfold in_width.
  - rewrite Z.shiftl_mul_pow2 by done. lia.
  - rewrite lor_shiftl by lia. lia.
Qed.

Lemma get_u32_spec buf off :
  bytes buf → (off + 4 <= length buf)%nat →
  get_u32_le buf off = Some (le_combine (slice off 4 buf)).
Proof.
  intros Hbuf Hlen. unfold get_u32_le.
  destruct (read_byte 32 off 0 buf Hbuf ltac:(lia) ltac:(lia)) as (b0 & H0 & _ & _).
  destruct (read_byte 32 off 1 buf Hbuf ltac:(lia) ltac:(lia)) as (b1 & H1 & _ & E1).
  destruct (read_byte 32 off 2 buf Hbuf ltac:(lia) ltac:(lia)) as (b2 & H2 & _ & E2).
  destruct (read_byte 32 off 3 buf Hbuf ltac:(lia) ltac:(lia)) as (b3 & H3 & _ & E3).
  rewrite H0; simpl; rewrite H1; simpl; rewrite H2; simpl; rewrite H3; simpl. f_equal.
  rewrite <-E3, <-E2, <-E1, (slice_1 _ _ _ H0). simpl le_combine. by rewrite Z.add_0_r.
Qed.

Lemma get_u64_spec buf off :
  bytes buf → (off + 8 <= length buf)%nat →
  get_u64_le buf off = Some (le_combine (slice off 8 buf)).
Proof.
  intros Hbuf Hlen. unfold get_u64_le.
  destruct (for_range_inv (λ i v, v = le_combine (slice off i buf))
    (λ index value, b ← buf !! (off + index)%nat;
       Some (Z.lor value (u64 (Z.shiftl b (Z.of_nat index * 8))))) 0 8 0) as (v & -> & ->); [done| |done].
  intros i v Hi ->.
  destruct (read_byte 64 off i buf Hbuf ltac:(lia) ltac:(lia)) as (b & Hb & _ & E).
  rewrite Hb. simpl. eexists. split; [done|]. by rewrite Z.mul_comm, E.
Qed.

(** ** Layout and round trips *)

(** The documented layout: fields in order, little-endian, without padding. *)
Definition request_layout (r : Request) : list Z :=
  le_split 4 (req_magic r) ++ le_split 2 (req_version r) ++ le_split 2 (req_command r) ++
  le_split 4 (req_qubits r) ++ le_split 4 (req_shots r) ++ le_split 8 (req_seed r).

Definition response_layout (r : Response) : list Z :=
  le_split 4 (rsp_magic r) ++ le_split 2 (rsp_version r) ++ le_split 2 (rsp_status r) ++
  le_split 4 (rsp_flags r) ++ le_split 4 (rsp_qubits r) ++ le_split 8 (rsp_basis_states r) ++
  le_split 8 (rsp_shots r) ++ le_split 8 (rsp_measured_state r) ++
  le_split 8 (rsp_invalid_results r) ++ le_split 8 (double_to_u64 (rsp_norm r)).

Ltac puts :=
  repeat (first [ rewrite put_u64_spec by (rewrite ?length_inserts; lia)
                | rewrite put_u32_spec by (rewrite ?length_inserts; lia)
                | rewrite put_u16_spec by (rewrite ?length_inserts; lia) ]; cbn [mbind option_bind]).

Ltac gets :=
  repeat (first [ rewrite get_u64_spec by (done || lia)
                | rewrite get_u32_spec by (done || lia)
                | rewrite get_u16_spec by (done || lia) ]; cbn [mbind option_bind]).

(** Consecutive writes from offset 0 are one write of the concatenation. *)
Lemma inserts_append off (l1 l2 buf : list Z) :
  length l1 = off → list_inserts off l2 (list_inserts 0 l1 buf) = list_inserts 0 (l1 ++ l2) buf.
Proof. intros <-. by rewrite list_inserts_app_l, Nat.add_0_r. Qed.

Lemma inserts_all (l buf : list Z) : length l = length buf → list_inserts 0 l buf = l.
Proof. intros. rewrite <-(app_nil_r l) at 1. by apply list_inserts_0_l. Qed.

Ltac lengths := rewrite ?length_app, ?length_le_split; done.

Lemma encode_request_layout buf r :
  length buf = REQUEST_WIRE_SIZE →
  qcpu_device_encode_request (Some buf) (Some r) = Some (STATUS_OK, Some (request_layout r)).
Proof.
  unfold REQUEST_WIRE_SIZE. intros Hlen. unfold qcpu_device_encode_request. puts.
  rewrite (inserts_append 4), (inserts_append 6), (inserts_append 8), (inserts_append 12),
    (inserts_append 16), inserts_all by (rewrite ?Hlen; lengths).
  unfold request_layout. by rewrite <-!app_assoc.
Qed.

Lemma encode_response_layout buf r :
  length buf = RESPONSE_WIRE_SIZE →
  qcpu_device_encode_response (Some buf) (Some r) = Some (STATUS_OK, Some (response_layout r)).
Proof.
  unfold RESPONSE_WIRE_SIZE. intros Hlen. unfold qcpu_device_encode_response. puts.
  rewrite (inserts_append 4), (inserts_append 6), (inserts_append 8), (inserts_append 12),
    (inserts_append 16), (inserts_append 24), (inserts_append 32), (inserts_append 40),
    (inserts_append 48), inserts_all by (rewrite ?Hlen; lengths).
  unfold response_layout. by rewrite <-!app_assoc.
Qed.

Lemma request_layout_bytes r : bytes (request_layout r).
Proof. unfold request_layout, bytes. rewrite !Forall_app. split_and!; apply le_split_bytes. Qed.

Lemma response_layout_bytes r : bytes (response_layout r).
Proof. unfold response_layout, bytes. rewrite !Forall_app. split_and!; apply le_split_bytes. Qed.

(** What a full-size buffer decodes to, field by field. *)
Definition request_of_bytes (bs : list Z) : Request :=
  {| req_magic := le_combine (slice 0 4 bs); req_version := le_combine (slice 4 2 bs);
     req_command := le_combine (slice 6 2 bs); req_qubits := le_combine (slice 8 4 bs);
     req_shots := le_combine (slice 12 4 bs); req_seed := le_combine (slice 16 8 bs) |}.

Definition response_of_bytes (bs : list Z) : Response :=
  {| rsp_magic := le_combine (slice 0 4 bs); rsp_version := le_combine (slice 4 2 bs);
     rsp_status := le_combine (slice 6 2 bs); rsp_flags := le_combine (slice 8 4 bs);
     rsp_qubits := le_combine (slice 12 4 bs); rsp_basis_states := le_combine (slice 16 8 bs);
     rsp_shots := le_combine (slice 24 8 bs); rsp_measured_state := le_combine (slice 32 8 bs);
     rsp_invalid_results := le_combine (slice 40 8 bs);
     rsp_norm := u64_to_double (le_combine (slice 48 8 bs)) |}.

(** The status a decoder reports for the fields it read. *)
Definition header_status (expected magic version : Z) : Z :=
  if negb (magic =? expected) then STATUS_BAD_MAGIC
  else if negb (version =? PROTOCOL_VERSION) then STATUS_BAD_VERSION
  else STATUS_OK.

Lemma decode_request_of_bytes r0 bs :
  bytes bs → length bs = REQUEST_WIRE_SIZE →
  qcpu_device_decode_request (Some r0) (Some bs) (Z.of_nat REQUEST_WIRE_SIZE) =
  Some (header_status REQUEST_MAGIC (req_magic (request_of_bytes bs)) (req_version (request_of_bytes bs)),
        Some (request_of_bytes bs)).
Proof.
  unfold REQUEST_WIRE_SIZE. intros Hbs Hlen. unfold qcpu_device_decode_request.
  unfold REQUEST_WIRE_SIZE. rewrite Z.eqb_refl. simpl negb. gets.
  unfold header_status, request_of_bytes. cbn [req_magic req_version]. by case_tests.
Qed.

Lemma decode_response_of_bytes r0 bs :
  bytes bs → length bs = RESPONSE_WIRE_SIZE →
  qcpu_device_decode_response (Some r0) (Some bs) (Z.of_nat RESPONSE_WIRE_SIZE) =
  Some (header_status RESPONSE_MAGIC (rsp_magic (response_of_bytes bs)) (rsp_version (response_of_bytes bs)),
        Some (response_of_bytes bs)).
Proof.
  unfold RESPONSE_WIRE_SIZE. intros Hbs Hlen. unfold qcpu_device_decode_response.
  unfold RESPONSE_WIRE_SIZE. rewrite Z.eqb_refl. simpl negb. gets.
  unfold header_status, response_of_bytes. cbn [rsp_magic rsp_version]. by case_tests.
Qed.

Lemma combine_field n v w :
  in_width w v → w = 8 * Z.of_nat n → le_combine (le_split n v) = v.
Proof. intros Hv ->. rewrite le_combine_split. by apply wrap_small. Qed.

(** Bytes regroup into the fields they were split from. *)
Lemma slices_request bs :
  length bs = REQUEST_WIRE_SIZE →
  slice 0 4 bs ++ slice 4 2 bs ++ slice 6 2 bs ++ slice 8 4 bs ++ slice 12 4 bs ++ slice 16 8 bs = bs.
Proof.
  intros Hlen. unfold slice. rewrite (take_ge (drop 16 bs) 8) by (rewrite length_drop, Hlen; done).
  change 16%nat with (12 + 4)%nat. rewrite <-drop_drop, take_drop.
  change 12%nat with (8 + 4)%nat. rewrite <-drop_drop, take_drop.
  change 8%nat with (6 + 2)%nat. rewrite <-drop_drop, take_drop.
  change 6%nat with (4 + 2)%nat. rewrite <-drop_drop, take_drop.
  by rewrite drop_0, take_drop.
Qed.

Lemma slices_response bs :
  length bs = RESPONSE_WIRE_SIZE →
  slice 0 4 bs ++ slice 4 2 bs ++ slice 6 2 bs ++ slice 8 4 bs ++ slice 12 4 bs ++ slice 16 8 bs
  ++ slice 24 8 bs ++ slice 32 8 bs ++ slice 40 8 bs ++ slice 48 8 bs = bs.
Proof.
  intros Hlen. unfold slice. rewrite (take_ge (drop 48 bs) 8) by (rewrite length_drop, Hlen; done).
  change 48%nat with (40 + 8)%nat. rewrite <-drop_drop, take_drop.
  change 40%nat with (32 + 8)%nat. rewrite <-drop_drop, take_drop.
  change 32%nat with (24 + 8)%nat. rewrite <-drop_drop, take_drop.
  change 24%nat with (16 + 8)%nat. rewrite <-drop_drop, take_drop.
  change 16%nat with (12 + 4)%nat. rewrite <-drop_drop, take_drop.
  change 12%nat with (8 + 4)%nat. rewrite <-drop_drop, take_drop.
  change 8%nat with (6 + 2)%nat. rewrite <-drop_drop, take_drop.
  change 6%nat with (4 + 2)%nat. rewrite <-drop_drop, take_drop.
  by rewrite drop_0, take_drop.
Qed.

Lemma split_slice off n bs :
  bytes bs → (off + n <= length bs)%nat →
  le_split n (le_combine (slice off n bs)) = slice off n bs.
Proof.
  intros Hbs Hlen. rewrite <-(length_slice off n bs Hlen) at 1.
  by apply le_split_combine, slice_bytes.
Qed.

Lemma slice_width off n bs w :
  bytes bs → (off + n <= length bs)%nat → w = 8 * Z.of_nat n →
  in_width w (le_combine (slice off n bs)).
Proof.
  intros Hbs Hlen ->. pose proof (le_combine_bound _ (slice_bytes off n bs Hbs)) as H.
  by rewrite length_slice in H.
Qed.

Lemma request_of_layout r : request_wf r → request_of_bytes (request_layout r) = r.
Proof.
  destruct r as [m v c q s d]. intros (Hm & Hv & Hc & Hq & Hs & Hd). simpl in *.
  unfold request_of_bytes. f_equal.
  - by apply (combine_field 4 m 32).
  - by apply (combine_field 2 v 16).
  - by apply (combine_field 2 c 16).
  - by apply (combine_field 4 q 32).
  - by apply (combine_field 4 s 32).
  - by apply (combine_field 8 d 64).
Qed.

Lemma response_of_layout r : response_wf r → response_of_bytes (response_layout r) = r.
Proof.
  destruct r as [m v c q s d e g h i].
  intros (Hm & Hv & Hc & Hq & Hs & Hd & He & Hg & Hh & Hi). simpl in *.
  unfold response_of_bytes. f_equal.
  - by apply (combine_field 4 m 32).
  - by apply (combine_field 2 v 16).
  - by apply (combine_field 2 c 16).
  - by apply (combine_field 4 q 32).
  - by apply (combine_field 4 s 32).
  - by apply (combine_field 8 d 64).
  - by apply (combine_field 8 e 64).
  - by apply (combine_field 8 g 64).
  - by apply (combine_field 8 h 64).
  - etransitivity; [|by apply u64_to_double_to_u64]. f_equal.
    apply (combine_field 8 (double_to_u64 i) 64); [by apply double_to_u64_range|done].
Qed.

Lemma request_of_bytes_wf bs :
  bytes bs → length bs = REQUEST_WIRE_SIZE → request_wf (request_of_bytes bs).
Proof.
  unfold REQUEST_WIRE_SIZE. intros. repeat split; eapply slice_width; (done || lia).
Qed.

Lemma response_of_bytes_wf bs :
  bytes bs → length bs = RESPONSE_WIRE_SIZE → response_wf (response_of_bytes bs).
Proof.
  unfold RESPONSE_WIRE_SIZE. intros. split_and!; try (eapply slice_width; (done || lia)).
  apply u64_to_double_valid.
Qed.

(** ** Properties *)

(** Request round trip: encoding any request and decoding the 24 bytes
    gives back every field; the status is that of the magic and version
    checks. *)
Theorem request_roundtrip buf r0 r :
  request_wf r → length buf = REQUEST_WIRE_SIZE →
  ∃ wire,
    qcpu_device_encode_request (Some buf) (Some r) = Some (STATUS_OK, Some wire) ∧
    length wire = REQUEST_WIRE_SIZE ∧ bytes wire ∧
    qcpu_device_decode_request (Some r0) (Some wire) (Z.of_nat REQUEST_WIRE_SIZE) =
    Some (header_status REQUEST_MAGIC (req_magic r) (req_version r), Some r).
Proof.
  intros Hr Hbuf. exists (request_layout r). pose proof (request_layout_bytes r).
  rewrite encode_request_layout, decode_request_of_bytes, request_of_layout by done. done.
Qed.

Definition sample_request : Request :=
  {| req_magic := REQUEST_MAGIC; req_version := 1; req_command := COMMAND_RUN_GHZ; req_qubits := 3;
     req_shots := 10; req_seed := 424242 |}.

Lemma request_roundtrip_witness :
  ∃ wire,
    qcpu_device_encode_request (Some (replicate 24 0)) (Some sample_request) = Some (STATUS_OK, Some wire) ∧
    qcpu_device_decode_request (Some sample_request) (Some wire) 24 = Some (STATUS_OK, Some sample_request).
Proof.
  destruct (request_roundtrip (replicate 24 0) sample_request sample_request) as (wire & He & _ & _ & Hd).
  - unfold request_wf, in_width, sample_request. simpl. unfold REQUEST_MAGIC, COMMAND_RUN_GHZ. lia.
  - reflexivity.
  - exists wire. split; [exact He|exact Hd].
Defined.

(** C34 (response round trip): the same for responses, the norm included: the
    bits of the [double] survive. *)
Theorem response_roundtrip buf r0 r :
  response_wf r → length buf = RESPONSE_WIRE_SIZE →
  ∃ wire,
    qcpu_device_encode_response (Some buf) (Some r) = Some (STATUS_OK, Some wire) ∧
    length wire = RESPONSE_WIRE_SIZE ∧ bytes wire ∧
    qcpu_device_decode_response (Some r0) (Some wire) (Z.of_nat RESPONSE_WIRE_SIZE) =
    Some (header_status RESPONSE_MAGIC (rsp_magic r) (rsp_version r), Some r).
Proof.
  intros Hr Hbuf. exists (response_layout r). pose proof (response_layout_bytes r).
  rewrite encode_response_layout, decode_response_of_bytes, response_of_layout by done. done.
Qed.

Definition sample_response : Response :=
  {| rsp_magic := RESPONSE_MAGIC; rsp_version := 1; rsp_status := 0; rsp_flags := 15; rsp_qubits := 3;
     rsp_basis_states := 8; rsp_shots := 10; rsp_measured_state := 7; rsp_invalid_results := 0;
     rsp_norm := f_one |}.

Lemma response_roundtrip_witness :
  ∃ wire,
    qcpu_device_encode_response (Some (replicate 56 0)) (Some sample_response) = Some (STATUS_OK, Some wire) ∧
    qcpu_device_decode_response (Some zero_response) (Some wire) 56 = Some (STATUS_OK, Some sample_response).
Proof.
  destruct (response_roundtrip (replicate 56 0) zero_response sample_response) as (wire & He & _ & _ & Hd).
  - unfold response_wf, in_width, sample_response. simpl. unfold RESPONSE_MAGIC. split_and!; try lia. reflexivity.
  - reflexivity.
  - exists wire. split; [exact He|exact Hd].
Defined.

(** Packet round trip: any 24 bytes decode to a request whose encoding is
    the same bytes, and any 56 bytes whose norm field is not a NaN decode to a
    response whose encoding is the same bytes: the format has no slack. *)
Theorem packet_roundtrip wire24 wire56 buf24 buf56 q0 r0 :
  bytes wire24 → length wire24 = REQUEST_WIRE_SIZE → length buf24 = REQUEST_WIRE_SIZE →
  bytes wire56 → length wire56 = RESPONSE_WIRE_SIZE → length buf56 = RESPONSE_WIRE_SIZE →
  nan_bits (le_combine (slice 48 8 wire56)) = false →
  (∃ st q,
    qcpu_device_decode_request (Some q0) (Some wire24) (Z.of_nat REQUEST_WIRE_SIZE) = Some (st, Some q) ∧
    request_wf q ∧ qcpu_device_encode_request (Some buf24) (Some q) = Some (STATUS_OK, Some wire24)) ∧
  (∃ st r,
    qcpu_device_decode_response (Some r0) (Some wire56) (Z.of_nat RESPONSE_WIRE_SIZE) = Some (st, Some r) ∧
    response_wf r ∧ qcpu_device_encode_response (Some buf56) (Some r) = Some (STATUS_OK, Some wire56)).
Proof.
  intros Hw Hlen Hbuf Hw' Hlen' Hbuf' Hnan. split; eexists _, _.
  - rewrite decode_request_of_bytes, encode_request_layout by done. split; [done|].
    split; [by apply request_of_bytes_wf|]. unfold REQUEST_WIRE_SIZE in *.
    unfold request_layout, request_of_bytes. cbn [req_magic req_version req_command req_qubits req_shots req_seed].
    rewrite !split_slice by (done || lia). by rewrite slices_request.
  - rewrite decode_response_of_bytes, encode_response_layout by done. split; [done|].
    split; [by apply response_of_bytes_wf|]. unfold RESPONSE_WIRE_SIZE in *.
    unfold response_layout, response_of_bytes.
    cbn [rsp_magic rsp_version rsp_status rsp_flags rsp_qubits rsp_basis_states rsp_shots
         rsp_measured_state rsp_invalid_results rsp_norm].
    rewrite double_to_u64_to_double by (done || (eapply slice_width; (done || lia))).
    rewrite !split_slice by (done || lia). by rewrite slices_response.
Qed.

Lemma packet_roundtrip_witness :
  ∃ st q, qcpu_device_decode_request (Some sample_request) (Some (replicate 24 7)) 24 = Some (st, Some q) ∧
    qcpu_device_encode_request (Some (replicate 24 0)) (Some q) = Some (STATUS_OK, Some (replicate 24 7)).
Proof.
  destruct (packet_roundtrip (replicate 24 7) (replicate 56 7) (replicate 24 0) (replicate 56 0)
    sample_request zero_response) as [(st & q & Hd & _ & He) _]; try reflexivity.
  - apply Forall_replicate. unfold in_width. lia.
  - apply Forall_replicate. unfold in_width. lia.
  - exists st, q. split; [exact Hd|exact He].
Defined.

(** Wire errors: a null pointer or a packet of the wrong length is refused
    with [STATUS_IO] and nothing is written; a packet of the right length with
    a wrong magic number or version is refused with the matching status. *)
Theorem wire_rejects request response input size q r bs :
  (request = NULL ∨ input = NULL ∨ size ≠ 24 →
   qcpu_device_decode_request request input size = Some (STATUS_IO, request)) ∧
  (response = NULL ∨ input = NULL ∨ size ≠ 56 →
   qcpu_device_decode_response response input size = Some (STATUS_IO, response)) ∧
  (input = NULL ∨ request = NULL →
   qcpu_device_encode_request input request = Some (STATUS_IO, input)) ∧
  (input = NULL ∨ response = NULL →
   qcpu_device_encode_response input response = Some (STATUS_IO, input)) ∧
  (bytes bs → length bs = REQUEST_WIRE_SIZE →
   ∃ q', qcpu_device_decode_request (Some q) (Some bs) 24 =
     Some (if negb (le_combine (slice 0 4 bs) =? REQUEST_MAGIC) then STATUS_BAD_MAGIC
           else if negb (le_combine (slice 4 2 bs) =? PROTOCOL_VERSION) then STATUS_BAD_VERSION
           else STATUS_OK, Some q')) ∧
  (bytes bs → length bs = RESPONSE_WIRE_SIZE →
   ∃ r', qcpu_device_decode_response (Some r) (Some bs) 56 =
     Some (if negb (le_combine (slice 0 4 bs) =? RESPONSE_MAGIC) then STATUS_BAD_MAGIC
           else if negb (le_combine (slice 4 2 bs) =? PROTOCOL_VERSION) then STATUS_BAD_VERSION
           else STATUS_OK, Some r')).
Proof.
  split_and!.
  - unfold qcpu_device_decode_request. intros [-> | [-> | Hs]]; [done|by case_match|].
    destruct input; case_match; try done. rewrite (proj2 (Z.eqb_neq _ _)) by (exact Hs). done.
  - unfold qcpu_device_decode_response. intros [-> | [-> | Hs]]; [done|by case_match|].
    destruct input; case_match; try done. rewrite (proj2 (Z.eqb_neq _ _)) by (exact Hs). done.
  - unfold qcpu_device_encode_request. intros [-> | ->]; [done|by case_match].
  - unfold qcpu_device_encode_response. intros [-> | ->]; [done|by case_match].
  - intros Hb Hl. eexists. by apply (decode_request_of_bytes q bs).
  - intros Hb Hl. eexists. by apply (decode_response_of_bytes r bs).
Qed.

Lemma wire_rejects_witness :
  qcpu_device_decode_request (Some sample_request) (Some []) 23 = Some (STATUS_IO, Some sample_request) ∧
  ∃ q', qcpu_device_decode_request (Some sample_request) (Some (replicate 24 0)) 24 =
    Some (STATUS_BAD_MAGIC, Some q').
Proof.
  destruct (wire_rejects (Some sample_request) None (Some []) 23 sample_request zero_response [])
    as (H & _). split; [apply H; right; right; discriminate|].
  destruct (wire_rejects None None None 0 sample_request zero_response (replicate 24 0))
    as (_ & _ & _ & _ & Hq & _). apply Hq; [|reflexivity]. apply Forall_replicate. unfold in_width. lia.
Defined.
