(* ===== verification/Gates.v ===== *)
(** * In-place gate loops

    Every gate of the code walks over the indices of the state vector, skips
    those whose target bit is set (or whose control bit is clear) and rewrites
    the pair of entries [i] and [i | mask] in place. [pair_body] is that loop
    body for an arbitrary selection and an arbitrary two-by-two map; the
    theorem [pair_loop_spec] says what the whole in-place loop computes, entry
    by entry of the original vector. The gates of the kernel, of the circuit
    VM and of the N-qubit demo are instances. *)

From Stdlib Require Import ZArith Lia ZifyBool.
From stdpp Require Import base list numbers.
From S2P Require Import Prelude.
Open Scope Z_scope.

Section PairLoop.
Context {A : Type}.
Implicit Types a : list A.

(** Entry [i] of a vector. *)
Definition at_ (a : list A) (i : Z) : option A := a !! Z.to_nat i.

Definition pair_body (sel : Z → bool) (p : Z) (f : A → A → A * A) (index : nat) (a : list A)
    : option (list A) :=
  let i := Z.of_nat index in
  if sel i then
    x ← at_ a i;
    y ← at_ a (i + 2 ^ p);
    Some (<[Z.to_nat (i + 2 ^ p) := (f x y).2]> (<[Z.to_nat i := (f x y).1]> a))
  else Some a.

(** The index of the pair an entry belongs to. *)
Definition pair_base (p j : Z) : Z := if Z.testbit j p then j - 2 ^ p else j.

(** The value the loop leaves at index [j]. *)
Definition pair_spec (sel : Z → bool) (p : Z) (f : A → A → A * A) (a : list A) (j : Z) : option A :=
  let i := pair_base p j in
  if sel i then
    x ← at_ a i;
    y ← at_ a (i + 2 ^ p);
    Some (if Z.testbit j p then (f x y).2 else (f x y).1)
  else at_ a j.

Context (n p : Z) (Hp : 0 <= p < n).

Lemma pair_base_range j : 0 <= j < 2 ^ n → 0 <= pair_base p j <= j.
Proof.
  intros Hj. unfold pair_base. assert (0 < 2 ^ p) by (apply Z.pow_pos_nonneg; lia).
  destruct (Z.testbit j p) eqn:Hb; [|lia]. pose proof (testbit_le p j ltac:(lia) Hb). lia.
Qed.

Lemma pair_base_clear j : Z.testbit (pair_base p j) p = false.
Proof.
  unfold pair_base. destruct (Z.testbit j p) eqn:Hb; [|done]. apply sub_pow2_clear; [lia|done].
Qed.

(** Another bit is the same in both indices of a pair. *)
Lemma pair_base_other q j : q ≠ p → Z.testbit (pair_base p j) q = Z.testbit j q.
Proof.
  intros Hq. unfold pair_base. destruct (Z.testbit j p) eqn:Hb; [|done].
  rewrite <-(testbit_add_pow2_ne p ltac:(lia) (j - 2 ^ p) q) by (done || (apply sub_pow2_clear; (lia || done))).
  by replace (j - 2 ^ p + 2 ^ p) with j by lia.
Qed.

Lemma pair_base_low i : Z.testbit i p = false → pair_base p i = i.
Proof. intros Hb. unfold pair_base. by rewrite Hb. Qed.

Lemma pair_base_high i : Z.testbit i p = false → pair_base p (i + 2 ^ p) = i.
Proof. intros Hb. unfold pair_base. rewrite testbit_add_pow2 by (lia || done). lia. Qed.

Lemma pair_base_eq i j : pair_base p j = i → j = i ∨ j = i + 2 ^ p.
Proof. unfold pair_base. destruct (Z.testbit j p); lia. Qed.

Lemma at_lt a j : 0 <= j < Z.of_nat (length a) → ∃ x, at_ a j = Some x.
Proof. intros. apply lookup_lt_is_Some_2. lia. Qed.

Lemma at_insert_eq a i v : 0 <= i < Z.of_nat (length a) → at_ (<[Z.to_nat i := v]> a) i = Some v.
Proof. intros. unfold at_. apply list_lookup_insert_eq. lia. Qed.

Lemma at_insert_ne a i j v : 0 <= i → 0 <= j → i ≠ j → at_ (<[Z.to_nat i := v]> a) j = at_ a j.
Proof. intros. unfold at_. apply list_lookup_insert_ne. lia. Qed.

Context (sel : Z → bool) (f : A → A → A * A).
Hypothesis sel_clear : ∀ i, sel i = true → Z.testbit i p = false.

(** One iteration extends the part of the vector already rewritten. *)
Lemma pair_step a b k :
  Z.of_nat (length a) = 2 ^ n → length b = length a →
  Z.of_nat k < 2 ^ n →
  (∀ j, 0 <= j < 2 ^ n →
     at_ b j = if pair_base p j <? Z.of_nat k then pair_spec sel p f a j else at_ a j) →
  ∃ b', pair_body sel p f k b = Some b' ∧ length b' = length a ∧
    ∀ j, 0 <= j < 2 ^ n →
      at_ b' j = if pair_base p j <? Z.of_nat (S k) then pair_spec sel p f a j else at_ a j.
Proof.
  intros Ha Hb Hk Hinv. unfold pair_body. remember (Z.of_nat k) as i eqn:Hik.
  assert (0 < 2 ^ p) by (apply Z.pow_pos_nonneg; lia).
  destruct (sel i) eqn:Hs.
  - pose proof (sel_clear i Hs) as Hc. pose proof (add_pow2_lt p ltac:(lia) i n ltac:(lia) ltac:(lia) Hc).
    rewrite (Hinv i), (Hinv (i + 2 ^ p)) by lia.
    rewrite (pair_base_low i Hc), (pair_base_high i Hc), Z.ltb_irrefl.
    destruct (at_lt a i ltac:(lia)) as [x Hx]. destruct (at_lt a (i + 2 ^ p) ltac:(lia)) as [y Hy].
    rewrite Hx, Hy. simpl. eexists. split; [done|]. split; [by rewrite !length_insert|].
    intros j Hj. destruct (decide (pair_base p j = i)) as [Hji|Hji].
    + assert (Hlt : (pair_base p j <? Z.of_nat (S k)) = true) by lia. rewrite Hlt.
      unfold pair_spec. rewrite Hji, Hs, Hx, Hy. simpl.
      destruct (pair_base_eq i j Hji) as [->| ->].
      * rewrite at_insert_ne by lia. rewrite at_insert_eq by lia. by rewrite Hc.
      * rewrite at_insert_eq by (rewrite length_insert; lia). by rewrite testbit_add_pow2 by (lia || done).
    + assert (Hlt : (pair_base p j <? Z.of_nat (S k)) = (pair_base p j <? i)) by lia. rewrite Hlt.
      rewrite <-Hinv by done. rewrite !at_insert_ne; try lia; [done|..]; intros <-; apply Hji.
      * by apply pair_base_low.
      * by apply pair_base_high.
  - eexists. split; [done|]. split; [done|]. intros j Hj. rewrite Hinv by done.
    destruct (decide (pair_base p j = i)) as [Hji|Hji].
    + unfold pair_spec. rewrite Hji, Hs. by case_tests.
    + by assert ((pair_base p j <? Z.of_nat (S k)) = (pair_base p j <? i)) as -> by lia.
Qed.

Theorem pair_loop_spec a :
  Z.of_nat (length a) = 2 ^ n →
  ∃ a', for_range (pair_body sel p f) 0 (Z.to_nat (2 ^ n)) a = Some a' ∧
    length a' = length a ∧
    ∀ j, 0 <= j < 2 ^ n → at_ a' j = pair_spec sel p f a j.
Proof.
  intros Ha.
  destruct (for_range_inv (λ k b, length b = length a ∧ ∀ j, 0 <= j < 2 ^ n →
    at_ b j = if pair_base p j <? Z.of_nat k then pair_spec sel p f a j else at_ a j)
    (pair_body sel p f) 0 (Z.to_nat (2 ^ n)) a) as (a' & Hrun & Hlen & Hspec).
  - split; [done|]. intros j Hj. pose proof (pair_base_range j Hj).
    by assert ((pair_base p j <? Z.of_nat 0) = false) as -> by lia.
  - intros k b Hk [Hlen Hb].
    destruct (pair_step a b k Ha Hlen ltac:(lia) Hb) as (b' & -> & ? & ?). eauto.
  - exists a'. split_and!; [done|done|]. intros j Hj. rewrite Hspec by done.
    pose proof (pair_base_range j Hj).
    by assert ((pair_base p j <? Z.of_nat (0 + Z.to_nat (2 ^ n))) = true) as -> by lia.
Qed.

(** Two loops in a row compose the maps. *)
Lemma pair_spec_compose (g : A → A → A * A) a a' j :
  Z.of_nat (length a) = 2 ^ n → 0 <= j < 2 ^ n →
  (∀ i, 0 <= i < 2 ^ n → at_ a' i = pair_spec sel p f a i) →
  pair_spec sel p g a' j = pair_spec sel p (λ x y, g (f x y).1 (f x y).2) a j.
Proof.
  intros Hl Hj Ha'. unfold pair_spec. destruct (sel (pair_base p j)) eqn:Hs.
  - pose proof (pair_base_range j Hj). pose proof (pair_base_clear j) as Hc.
    pose proof (add_pow2_lt p ltac:(lia) (pair_base p j) n ltac:(lia) ltac:(lia) Hc).
    assert (0 < 2 ^ p) by (apply Z.pow_pos_nonneg; lia).
    rewrite !Ha' by lia. unfold pair_spec.
    rewrite (pair_base_low _ Hc), (pair_base_high _ Hc), Hs.
    rewrite Hc, testbit_add_pow2 by (lia || done).
    destruct (at_ a (pair_base p j)); [|done]. simpl. by destruct (at_ a (pair_base p j + 2 ^ p)).
  - rewrite Ha' by done. unfold pair_spec. by rewrite Hs.
Qed.
End PairLoop.

(** A map that changes nothing leaves every entry. *)
Lemma pair_spec_id {A} n p sel (f : A → A → A * A) a j :
  0 <= p < n → Z.of_nat (length a) = 2 ^ n → 0 <= j < 2 ^ n →
  (∀ x y, f x y = (x, y)) → pair_spec sel p f a j = at_ a j.
Proof.
  intros Hp Hl Hj Hf. unfold pair_spec. destruct (sel (pair_base p j)); [|done].
  pose proof (pair_base_range n p Hp j Hj). pose proof (pair_base_clear n p Hp j) as Hc.
  pose proof (add_pow2_lt p ltac:(lia) (pair_base p j) n ltac:(lia) ltac:(lia) Hc).
  assert (0 < 2 ^ p) by (apply Z.pow_pos_nonneg; lia).
  destruct (at_lt a (pair_base p j) ltac:(lia)) as [x Hx].
  destruct (at_lt a (pair_base p j + 2 ^ p) ltac:(lia)) as [y Hy]. rewrite Hx, Hy. simpl.
  rewrite Hf. unfold pair_base in Hx, Hy. destruct (Z.testbit j p); [|by rewrite Hx].
  by replace (j - 2 ^ p + 2 ^ p) with j in Hy by lia.
Qed.

(** Exchanging the two entries. *)
Definition swap_map {A} (x y : A) : A * A := (y, x).

(** A swapped pair: the entry at the index with the target bit inverted. *)
Lemma pair_spec_swap {A} n p sel (a : list A) j :
  0 <= p < n → Z.of_nat (length a) = 2 ^ n → 0 <= j < 2 ^ n →
  pair_spec sel p swap_map a j = if sel (pair_base p j) then at_ a (flip_bit p j) else at_ a j.
Proof.
  intros Hp Hl Hj. unfold pair_spec. destruct (sel (pair_base p j)); [|done].
  pose proof (pair_base_range n p Hp j Hj). pose proof (pair_base_clear n p Hp j) as Hc.
  pose proof (add_pow2_lt p ltac:(lia) (pair_base p j) n ltac:(lia) ltac:(lia) Hc).
  assert (0 < 2 ^ p) by (apply Z.pow_pos_nonneg; lia).
  destruct (at_lt a (pair_base p j) ltac:(lia)) as [x Hx].
  destruct (at_lt a (pair_base p j + 2 ^ p) ltac:(lia)) as [y Hy]. rewrite Hx, Hy. simpl.
  unfold flip_bit. unfold pair_base in Hx, Hy. destruct (Z.testbit j p); by rewrite ?Hx, ?Hy.
Qed.

(** A property every iteration keeps holds after the loop. *)
Lemma for_range_preserves {S} (Q : S → Prop) body i k s s' :
  (∀ j t t', body j t = Some t' → Q t → Q t') → for_range body i k s = Some s' → Q s → Q s'.
Proof.
  intros Hb. revert i s. induction k as [|k IH]; intros i s Hrun HQ; simplify_eq/=; [done|].
  destruct (body i s) as [t|] eqn:Ht; [|done]. simpl in Hrun. eapply IH; eauto.
Qed.

(** Two vectors of the same length with the same entries are equal. *)
Lemma at_ext {A} (a b : list A) :
  length a = length b → (∀ j, 0 <= j < Z.of_nat (length a) → at_ a j = at_ b j) → a = b.
Proof.
  intros Hlen Heq. apply list_eq. intros i. destruct (decide (i < length a)%nat) as [Hi|Hi].
  - specialize (Heq (Z.of_nat i) ltac:(lia)). unfold at_ in Heq. by rewrite Nat2Z.id in Heq.
  - rewrite !lookup_ge_None_2 by lia. done.
Qed.

(** Loops whose bodies agree on the iterations made. *)
Lemma for_range_ext {S} (f g : nat → S → option S) i k s :
  (∀ j t, (i ≤ j < i + k)%nat → f j t = g j t) → for_range f i k s = for_range g i k s.
Proof.
  revert i s. induction k as [|k IH]; intros i s Hfg; [done|]. simpl. rewrite Hfg by lia.
  destruct (g i s); simpl; [|done]. apply IH. intros. apply Hfg. lia.
Qed.
