(* ===== verification/Kernel.v ===== *)
(** * The state-vector kernel

    [src/quantum/qcpu_kernel.c]: the amplitudes of [n] qubits in an array of
    [2^n] complex numbers, the gates H, X and CX as in-place loops over the
    array (qubit 0 is the most significant bit of the index), the GHZ
    preparation, sampling with a xorshift generator, measurement and shots.

    Everything is parametric in the floating-point type ([FloatOps]). A
    kernel pointer is an option ([None] is [NULL]); a result [None] is
    undefined behaviour (an access outside the array, an undefined shift). The
    outcome of [calloc] is a parameter. Multiplying a complex number by a real
    one multiplies both parts, as in C11 Annex G; no fused multiply-add. *)

From Stdlib Require Import ZArith Lia ZifyBool.
From stdpp Require Import base list numbers strings.
From S2P Require Import Prelude.
From S2P Require Import Float64.
Open Scope Z_scope.

Definition KERNEL_MAX_QUBITS : Z := 20.
Definition SIZE_MAX_BITS : Z := 64.
Definition DEFAULT_SEED : Z := 0x9e3779b97f4a7c15.

Inductive QCPUStatus :=
| QCPU_OK
| QCPU_ERR_ARGUMENT
| QCPU_ERR_RANGE
| QCPU_ERR_ALLOC
| QCPU_ERR_STATE.

#[global] Instance QCPUStatus_eq_dec : EqDecision QCPUStatus.
Proof. solve_decision. Defined.

Record complex (F : Type) := mk_complex { re : F; im : F }.
Arguments mk_complex {F}.
Arguments re {F}.
Arguments im {F}.

Record QCPUKernel (F : Type) := mk_kernel {
  qubit_count : Z;
  state_count : Z;
  amplitudes : ptr (list (complex F));
  rng_state : Z;
  measured : Z;
  measured_state : Z
}.
Arguments mk_kernel {F}.
Arguments qubit_count {F}.
Arguments state_count {F}.
Arguments amplitudes {F}.
Arguments rng_state {F}.
Arguments measured {F}.
Arguments measured_state {F}.

Record QCPUShotResult := {
  sr_shots : Z;
  sr_state_count : Z;
  sr_counts : ptr (list Z)
}.

Section Kernel.
Context {F : Type} `{FloatOps F}.

Abbreviation kernel := (QCPUKernel F).
Abbreviation amp := (complex F).

Definition c_zero : amp := mk_complex f_zero f_zero.
(** [1.0 + 0.0 * I] *)
Definition c_one : amp := mk_complex f_one f_zero.
Definition c_add (x y : amp) : amp := mk_complex (f_add (re x) (re y)) (f_add (im x) (im y)).
Definition c_sub (x y : amp) : amp := mk_complex (f_sub (re x) (re y)) (f_sub (im x) (im y)).
Definition c_scale (x : amp) (s : F) : amp := mk_complex (f_mul (re x) s) (f_mul (im x) s).
(** [real_part * real_part + imag_part * imag_part] *)
Definition c_norm2 (x : amp) : F := f_add (f_mul (re x) (re x)) (f_mul (im x) (im x)).

(** Field updates. *)
Definition with_amplitudes (k : kernel) (a : ptr (list amp)) : kernel :=
  mk_kernel (qubit_count k) (state_count k) a (rng_state k) (measured k) (measured_state k).
Definition with_rng (k : kernel) (r : Z) : kernel :=
  mk_kernel (qubit_count k) (state_count k) (amplitudes k) r (measured k) (measured_state k).
Definition with_measured (k : kernel) (m : Z) : kernel :=
  mk_kernel (qubit_count k) (state_count k) (amplitudes k) (rng_state k) m (measured_state k).
Definition with_measured_state (k : kernel) (s : Z) : kernel :=
  mk_kernel (qubit_count k) (state_count k) (amplitudes k) (rng_state k) (measured k) s.
(** [memset(kernel, 0, sizeof *kernel)] *)
Definition zero_kernel : kernel := mk_kernel 0 0 NULL 0 0 0.

(** An array access; outside the array it is undefined. *)
Definition load (a : list amp) (i : Z) : option amp :=
  if 0 <=? i then a !! Z.to_nat i else None.
Definition store_amp (a : list amp) (i : Z) (v : amp) : option (list amp) :=
  if (0 <=? i) && (i <? Z.of_nat (length a)) then Some (<[Z.to_nat i := v]> a) else None.

Definition qcpu_kernel_ready (k : ptr kernel) : option bool :=
  match k with
  | None => Some false
  | Some k =>
      match amplitudes k with
      | None => Some false
      | Some _ =>
          if qubit_count k =? 0 then Some false
          else n ← c_shl SIZE_MAX_BITS 1 (qubit_count k); Some (state_count k =? n)
      end
  end.

Definition qcpu_qubit_mask (k : kernel) (qubit : Z) : option Z :=
  c_shl SIZE_MAX_BITS 1 (u64 (u64 (qubit_count k - 1) - qubit)).

Definition qcpu_rng_next (k : kernel) : Z * kernel :=
  let value := rng_state k in
  let value := if value =? 0 then DEFAULT_SEED else value in
  let value := Z.lxor value (Z.shiftr value 12) in
  let value := Z.lxor value (u64 (Z.shiftl value 25)) in
  let value := Z.lxor value (Z.shiftr value 27) in
  (u64 (value * 2685821657736338717), with_rng k value).

Definition qcpu_rng_unit (k : kernel) : F * kernel :=
  let '(value, k) := qcpu_rng_next k in
  (f_mul (f_of_Z (Z.shiftr value 11)) (f_div (f_of_Z 1) (f_of_Z 9007199254740992)), k).

(** The loop of [qcpu_kernel_sample]: the first index whose cumulative
    probability exceeds the threshold, and the last index in any case. *)
Definition sample_body (a : list amp) (count : Z) (threshold : F)
    (index : nat) (cumulative : F) : option (ctl F Z) :=
  x ← a !! index;
  let cumulative := f_add cumulative (c_norm2 x) in
  if f_ltb threshold cumulative || (u64 (Z.of_nat index + 1) =? count)
  then Some (Stop (Z.of_nat index))
  else Some (Next cumulative).

(** The status, the kernel and the sampled state ([*state] is untouched on
    an error). *)
Definition qcpu_kernel_sample (k : ptr kernel) (state : ptr Z)
    : option (QCPUStatus * ptr kernel * ptr Z) :=
  ready ← qcpu_kernel_ready k;
  match ready, k, state with
  | true, Some k, Some _ =>
      let '(threshold, k) := qcpu_rng_unit k in
      a ← amplitudes k;
      r ← for_ctl (sample_body a (state_count k) threshold) 0 (Z.to_nat (state_count k)) f_zero;
      match r with
      | Stop index => Some (QCPU_OK, Some k, Some index)
      | Next _ => Some (QCPU_ERR_STATE, Some k, state)
      end
  | _, _, _ => Some (QCPU_ERR_ARGUMENT, k, state)
  end.

Definition qcpu_kernel_reset (k : ptr kernel) : option (QCPUStatus * ptr kernel) :=
  ready ← qcpu_kernel_ready k;
  match ready, k with
  | true, Some k =>
      a ← amplitudes k;
      if Z.of_nat (length a) <? state_count k then None else
      let a := replicate (Z.to_nat (state_count k)) c_zero ++ drop (Z.to_nat (state_count k)) a in
      a ← store_amp a 0 c_one;
      Some (QCPU_OK, Some (with_measured_state (with_measured (with_amplitudes k (Some a)) 0) 0))
  | _, _ => Some (QCPU_ERR_ARGUMENT, k)
  end.

(** [alloc_ok] is whether [calloc] succeeds. *)
Definition qcpu_kernel_init (alloc_ok : bool) (k : ptr kernel) (qubits seed : Z)
    : option (QCPUStatus * ptr kernel) :=
  match k with
  | None => Some (QCPU_ERR_ARGUMENT, k)
  | Some _ =>
      if (qubits =? 0) || (KERNEL_MAX_QUBITS <? qubits) || (SIZE_MAX_BITS <=? qubits)
      then Some (QCPU_ERR_RANGE, k)
      else
        n ← c_shl SIZE_MAX_BITS 1 qubits;
        let rng := if seed =? 0 then DEFAULT_SEED else seed in
        if alloc_ok
        then qcpu_kernel_reset
               (Some (mk_kernel qubits n (Some (replicate (Z.to_nat n) c_zero)) rng 0 0))
        else Some (QCPU_ERR_ALLOC, Some zero_kernel)
  end.

Definition qcpu_kernel_free (k : ptr kernel) : ptr kernel :=
  match k with None => None | Some _ => Some zero_kernel end.

(** Loop bodies of the gates. *)
Definition h_body (mask : Z) (scale : F) (index : nat) (a : list amp) : option (list amp) :=
  let index := Z.of_nat index in
  if negb (Z.land index mask =? 0) then Some a
  else
    let paired := Z.lor index mask in
    first ← load a index;
    second ← load a paired;
    a ← store_amp a index (c_scale (c_add first second) scale);
    store_amp a paired (c_scale (c_sub first second) scale).

Definition x_body (mask : Z) (index : nat) (a : list amp) : option (list amp) :=
  let index := Z.of_nat index in
  if negb (Z.land index mask =? 0) then Some a
  else
    let paired := Z.lor index mask in
    temporary ← load a index;
    second ← load a paired;
    a ← store_amp a index second;
    store_amp a paired temporary.

Definition cx_body (control_mask target_mask : Z) (index : nat) (a : list amp)
    : option (list amp) :=
  let index := Z.of_nat index in
  if (Z.land index control_mask =? 0) || negb (Z.land index target_mask =? 0) then Some a
  else
    let paired := Z.lor index target_mask in
    temporary ← load a index;
    second ← load a paired;
    a ← store_amp a index second;
    store_amp a paired temporary.

Definition qcpu_kernel_apply_h (k : ptr kernel) (qubit : Z) : option (QCPUStatus * ptr kernel) :=
  ready ← qcpu_kernel_ready k;
  match ready, k with
  | true, Some k' =>
      if qubit_count k' <=? qubit then Some (QCPU_ERR_RANGE, k)
      else
        mask ← qcpu_qubit_mask k' qubit;
        a ← amplitudes k';
        a ← for_range (h_body mask inv_sqrt2) 0 (Z.to_nat (state_count k')) a;
        Some (QCPU_OK, Some (with_measured (with_amplitudes k' (Some a)) 0))
  | _, _ => Some (QCPU_ERR_ARGUMENT, k)
  end.

Definition qcpu_kernel_apply_x (k : ptr kernel) (qubit : Z) : option (QCPUStatus * ptr kernel) :=
  ready ← qcpu_kernel_ready k;
  match ready, k with
  | true, Some k' =>
      if qubit_count k' <=? qubit then Some (QCPU_ERR_RANGE, k)
      else
        mask ← qcpu_qubit_mask k' qubit;
        a ← amplitudes k';
        a ← for_range (x_body mask) 0 (Z.to_nat (state_count k')) a;
        Some (QCPU_OK, Some (with_measured (with_amplitudes k' (Some a)) 0))
  | _, _ => Some (QCPU_ERR_ARGUMENT, k)
  end.

Definition qcpu_kernel_apply_cx (k : ptr kernel) (control target : Z)
    : option (QCPUStatus * ptr kernel) :=
  ready ← qcpu_kernel_ready k;
  match ready, k with
  | true, Some k' =>
      if (qubit_count k' <=? control) || (qubit_count k' <=? target) || (control =? target)
      then Some (QCPU_ERR_RANGE, k)
      else
        control_mask ← qcpu_qubit_mask k' control;
        target_mask ← qcpu_qubit_mask k' target;
        a ← amplitudes k';
        a ← for_range (cx_body control_mask target_mask) 0 (Z.to_nat (state_count k')) a;
        Some (QCPU_OK, Some (with_measured (with_amplitudes k' (Some a)) 0))
  | _, _ => Some (QCPU_ERR_ARGUMENT, k)
  end.

(** The CX chain of [qcpu_kernel_apply_ghz]: qubits [1 .. n-1], leaving on
    the first error. *)
Definition ghz_body (qubit : nat) (k : ptr kernel)
    : option (ctl (ptr kernel) (QCPUStatus * ptr kernel)) :=
  '(status, k) ← qcpu_kernel_apply_cx k (Z.of_nat qubit - 1) (Z.of_nat qubit);
  if decide (status = QCPU_OK) then Some (Next k) else Some (Stop (status, k)).

Definition qcpu_kernel_apply_ghz (k : ptr kernel) : option (QCPUStatus * ptr kernel) :=
  ready ← qcpu_kernel_ready k;
  match ready, k with
  | true, Some k' =>
      '(status, k) ← qcpu_kernel_reset k;
      if decide (status ≠ QCPU_OK) then Some (status, k) else
      '(status, k) ← qcpu_kernel_apply_h k 0;
      if decide (status ≠ QCPU_OK) then Some (status, k) else
      r ← for_ctl ghz_body 1 (Z.to_nat (qubit_count k') - 1) k;
      match r with
      | Next k => Some (QCPU_OK, k)
      | Stop r => Some r
      end
  | _, _ => Some (QCPU_ERR_ARGUMENT, k)
  end.

Definition norm_body (a : list amp) (index : nat) (norm : F) : option F :=
  x ← a !! index; Some (f_add norm (c_norm2 x)).

Definition qcpu_kernel_norm (k : ptr kernel) : option F :=
  ready ← qcpu_kernel_ready k;
  match ready, k with
  | true, Some k =>
      a ← amplitudes k;
      for_range (norm_body a) 0 (Z.to_nat (state_count k)) f_zero
  | _, _ => Some f_zero
  end.

Definition qcpu_kernel_validate (k : ptr kernel) (tolerance : F) : option QCPUStatus :=
  ready ← qcpu_kernel_ready k;
  if negb ready || f_leb tolerance f_zero then Some QCPU_ERR_ARGUMENT
  else
    norm ← qcpu_kernel_norm k;
    if negb (f_isfinite norm) || f_ltb tolerance (f_abs (f_sub norm f_one))
    then Some QCPU_ERR_STATE else Some QCPU_OK.

Definition qcpu_kernel_measure (k : ptr kernel) (out : ptr Z)
    : option (QCPUStatus * ptr kernel * ptr Z) :=
  ready ← qcpu_kernel_ready k;
  match ready, out with
  | true, Some _ =>
      '(status, k, state) ← qcpu_kernel_sample k (Some 0);
      if decide (status ≠ QCPU_OK) then Some (status, k, out) else
      k ← k;
      state ← state;
      a ← amplitudes k;
      if Z.of_nat (length a) <? state_count k then None else
      let a := replicate (Z.to_nat (state_count k)) c_zero ++ drop (Z.to_nat (state_count k)) a in
      a ← store_amp a state c_one;
      Some (QCPU_OK,
            Some (with_measured_state (with_measured (with_amplitudes k (Some a)) 1) state),
            Some state)
  | _, _ => Some (QCPU_ERR_ARGUMENT, k, out)
  end.

Definition zero_result : QCPUShotResult :=
  {| sr_shots := 0; sr_state_count := 0; sr_counts := NULL |}.

Definition qcpu_shot_result_free (r : ptr QCPUShotResult) : ptr QCPUShotResult :=
  match r with None => None | Some _ => Some zero_result end.

(** One shot: sample and count, leaving on the first error. *)
Definition shot_body (shot : nat) (s : ptr kernel * list Z)
    : option (ctl (ptr kernel * list Z) (QCPUStatus * ptr kernel)) :=
  let '(k, counts) := s in
  '(status, k, state) ← qcpu_kernel_sample k (Some 0);
  if decide (status ≠ QCPU_OK) then Some (Stop (status, k)) else
  state ← state;
  if negb (0 <=? state) then None else
  c ← counts !! Z.to_nat state;
  Some (Next (k, <[Z.to_nat state := u64 (c + 1)]> counts)).

Definition qcpu_kernel_run_shots (alloc_ok : bool) (k : ptr kernel) (shots : Z)
    (result : ptr QCPUShotResult) : option (QCPUStatus * ptr kernel * ptr QCPUShotResult) :=
  ready ← qcpu_kernel_ready k;
  match ready, k, result with
  | true, Some k', Some _ =>
      if shots =? 0 then Some (QCPU_ERR_ARGUMENT, k, result) else
      if negb alloc_ok then Some (QCPU_ERR_ALLOC, k, Some zero_result) else
      r ← for_ctl shot_body 0 (Z.to_nat shots) (k, replicate (Z.to_nat (state_count k')) 0);
      match r with
      | Next (k, counts) =>
          Some (QCPU_OK, k, Some {| sr_shots := shots; sr_state_count := state_count k';
                                    sr_counts := Some counts |})
      | Stop (status, k) => Some (status, k, qcpu_shot_result_free result)
      end
  | _, _, _ => Some (QCPU_ERR_ARGUMENT, k, result)
  end.
End Kernel.

Definition qcpu_status_string (s : QCPUStatus) : string :=
  match s with
  | QCPU_OK => "QCPU_OK"
  | QCPU_ERR_ARGUMENT => "QCPU_ERR_ARGUMENT"
  | QCPU_ERR_RANGE => "QCPU_ERR_RANGE"
  | QCPU_ERR_ALLOC => "QCPU_ERR_ALLOC"
  | QCPU_ERR_STATE => "QCPU_ERR_STATE"
  end.
