(* ===== verification/KernelSpec.v ===== *)
(** * What the kernel operations compute

    Functional specification of [Kernel]: readiness is an invariant, the gate
    loops compute their two-by-two maps on the original vector, no operation
    on a ready kernel has undefined behaviour, sampling always picks a state
    of the vector, and the error branches leave the kernel alone. All of it
    holds for any floating-point type. *)

From Stdlib Require Import ZArith Lia ZifyBool.
From stdpp Require Import base list numbers.
From S2P Require Import Prelude.
From S2P Require Import Float64.
From S2P Require Import Gates.
From S2P Require Import Kernel.
Open Scope Z_scope.

Section Spec.
Context {F : Type} `{FloatOps F}.
Abbreviation kernel := (QCPUKernel F).
Abbreviation amp := (complex F).
Implicit Types (k : kernel) (a : list amp).

(** A ready kernel of [n] qubits whose vector is [a]. *)
Record kernel_at (n : Z) (a : list amp) (k : kernel) : Prop := {
  ka_range : 1 <= n <= KERNEL_MAX_QUBITS;
  ka_qubits : qubit_count k = n;
  ka_states : state_count k = 2 ^ n;
  ka_amps : amplitudes k = Some a;
  ka_length : Z.of_nat (length a) = 2 ^ n;
  ka_rng : in_width 64 (rng_state k)
}.

Lemma pow2_le_20 n : 1 <= n <= KERNEL_MAX_QUBITS → 2 <= 2 ^ n <= 2 ^ 20.
Proof.
  unfold KERNEL_MAX_QUBITS. intros. split.
  - change 2 with (2 ^ 1) at 1. apply Z.pow_le_mono_r; lia.
  - apply Z.pow_le_mono_r; lia.
Qed.

Lemma ready_at n a k : kernel_at n a k → qcpu_kernel_ready (Some k) = Some true.
Proof.
  intros [Hn Hq Hs Ha Hl Hr]. unfold qcpu_kernel_ready, KERNEL_MAX_QUBITS in *.
  rewrite Ha, Hq, Hs. rewrite (proj2 (Z.eqb_neq n 0)) by lia.
  rewrite c_shl_one by (unfold SIZE_MAX_BITS; lia). simpl. by rewrite Z.eqb_refl.
Qed.

Lemma mask_at n a k q :
  kernel_at n a k → 0 <= q < n → qcpu_qubit_mask k q = Some (2 ^ (n - 1 - q)).
Proof.
  intros [Hn Hq _ _ _ _] Hlt. unfold qcpu_qubit_mask, KERNEL_MAX_QUBITS in *. rewrite Hq.
  rewrite !(wrap_small 64) by (rewrite ?(wrap_small 64); unfold in_width; lia).
  apply c_shl_one. unfold SIZE_MAX_BITS. lia.
Qed.

(** ** The gate loops as instances of the pair loop *)

Definition h_map (s : F) (x y : amp) : amp * amp :=
  (c_scale (c_add x y) s, c_scale (c_sub x y) s).
Definition sel_target (p i : Z) : bool := negb (Z.testbit i p).
Definition sel_controlled (c p i : Z) : bool := Z.testbit i c && negb (Z.testbit i p).

Lemma load_at a i : 0 <= i → load a i = at_ a i.
Proof. intros Hi. unfold load. by rewrite (proj2 (Z.leb_le 0 i) Hi). Qed.

Lemma store_at a i v x : 0 <= i → at_ a i = Some x → store_amp a i v = Some (<[Z.to_nat i := v]> a).
Proof.
  intros Hi Hx. apply lookup_lt_Some in Hx. unfold store_amp.
  by assert ((0 <=? i) && (i <? Z.of_nat (length a)) = true) as -> by lia.
Qed.

(** Both stores of a body, once its two loads succeeded. *)
Lemma store_pair a i p x y u v :
  0 <= i → 0 <= p → at_ a i = Some x → at_ a (i + 2 ^ p) = Some y →
  (a' ← store_amp a i u; store_amp a' (i + 2 ^ p) v) =
  Some (<[Z.to_nat (i + 2 ^ p) := v]> (<[Z.to_nat i := u]> a)).
Proof.
  intros Hi Hp Hx Hy. assert (0 < 2 ^ p) by (apply Z.pow_pos_nonneg; lia).
  rewrite (store_at a i u x) by done. simpl.
  apply store_at with y; [lia|]. rewrite at_insert_ne by lia. done.
Qed.

Lemma h_body_pair p s i a :
  0 <= p → h_body (2 ^ p) s i a = pair_body (sel_target p) p (h_map s) i a.
Proof.
  intros Hp. unfold h_body, pair_body, sel_target. rewrite land_pow2_eqb, negb_involutive by done.
  destruct (Z.testbit (Z.of_nat i) p) eqn:Hb; [done|]. simpl negb. cbv iota.
  rewrite lor_pow2, !load_at by (done || (assert (0 < 2 ^ p) by (apply Z.pow_pos_nonneg; lia); lia)).
  destruct (at_ a (Z.of_nat i)) as [x|] eqn:Hx; [|done]. simpl.
  destruct (at_ a (Z.of_nat i + 2 ^ p)) as [y|] eqn:Hy; [|done]. simpl.
  by apply (store_pair a (Z.of_nat i) p x y); try lia.
Qed.

Lemma swap_body_pair p i a :
  0 <= p → Z.testbit (Z.of_nat i) p = false →
  (temporary ← load a (Z.of_nat i);
   second ← load a (Z.lor (Z.of_nat i) (2 ^ p));
   a ← store_amp a (Z.of_nat i) second;
   store_amp a (Z.lor (Z.of_nat i) (2 ^ p)) temporary) =
  (x ← at_ a (Z.of_nat i); y ← at_ a (Z.of_nat i + 2 ^ p);
   Some (<[Z.to_nat (Z.of_nat i + 2 ^ p) := (swap_map x y).2]>
           (<[Z.to_nat (Z.of_nat i) := (swap_map x y).1]> a))).
Proof.
  intros Hp Hb.
  rewrite lor_pow2, !load_at by (done || (assert (0 < 2 ^ p) by (apply Z.pow_pos_nonneg; lia); lia)).
  destruct (at_ a (Z.of_nat i)) as [x|] eqn:Hx; [|done]. simpl.
  destruct (at_ a (Z.of_nat i + 2 ^ p)) as [y|] eqn:Hy; [|done]. simpl.
  by apply (store_pair a (Z.of_nat i) p x y); try lia.
Qed.

Lemma x_body_pair p i a :
  0 <= p → x_body (2 ^ p) i a = pair_body (sel_target p) p swap_map i a.
Proof.
  intros Hp. unfold x_body, pair_body, sel_target. rewrite land_pow2_eqb, negb_involutive by done.
  destruct (Z.testbit (Z.of_nat i) p) eqn:Hb; [done|]. by apply swap_body_pair.
Qed.

Lemma cx_body_pair c p i a :
  0 <= c → 0 <= p → cx_body (2 ^ c) (2 ^ p) i a = pair_body (sel_controlled c p) p swap_map i a.
Proof.
  intros Hc Hp. unfold cx_body, pair_body, sel_controlled.
  rewrite !land_pow2_eqb, negb_involutive by done.
  destruct (Z.testbit (Z.of_nat i) c); [|done]. simpl.
  destruct (Z.testbit (Z.of_nat i) p) eqn:Hb; [done|]. by apply swap_body_pair.
Qed.

Lemma sel_target_clear p i : sel_target p i = true → Z.testbit i p = false.
Proof. unfold sel_target. by destruct (Z.testbit i p). Qed.

Lemma sel_controlled_clear c p i : sel_controlled c p i = true → Z.testbit i p = false.
Proof. unfold sel_controlled. destruct (Z.testbit i p), (Z.testbit i c); done. Qed.

(** ** The gates on a ready kernel *)

(** The kernel after a gate: a new vector, nothing measured. *)
Definition gated (k : kernel) (a : list amp) : kernel :=
  with_measured (with_amplitudes k (Some a)) 0.

Lemma gated_at n a a' k : kernel_at n a k → length a' = length a → kernel_at n a' (gated k a').
Proof. intros [] Hl. split; try done. by rewrite Hl. Qed.

Lemma apply_h_spec n a k q :
  kernel_at n a k → 0 <= q < n →
  ∃ a', qcpu_kernel_apply_h (Some k) q = Some (QCPU_OK, Some (gated k a')) ∧
    kernel_at n a' (gated k a') ∧
    (∀ j, 0 <= j < 2 ^ n →
      at_ a' j = pair_spec (sel_target (n - 1 - q)) (n - 1 - q) (h_map inv_sqrt2) a j) ∧
    for_range (pair_body (sel_target (n - 1 - q)) (n - 1 - q) (h_map inv_sqrt2)) 0
      (Z.to_nat (2 ^ n)) a = Some a'.
Proof.
  intros Hk Hq. pose proof Hk as [_ Hn Hs Ha Hl _].
  destruct (pair_loop_spec n (n - 1 - q) ltac:(lia) (sel_target (n - 1 - q)) (h_map inv_sqrt2)
    (sel_target_clear _) a Hl) as (a' & Hrun & Hlen & Hspec).
  exists a'. split_and!; [|by eapply gated_at|done|done].
  unfold qcpu_kernel_apply_h. rewrite (ready_at _ _ _ Hk). simpl. rewrite Hn.
  assert ((n <=? q) = false) as -> by lia. rewrite (mask_at _ _ _ _ Hk Hq). simpl. rewrite Ha. simpl.
  rewrite Hs, (for_range_ext _ (pair_body (sel_target (n - 1 - q)) (n - 1 - q) (h_map inv_sqrt2))).
  - by rewrite Hrun.
  - intros. apply h_body_pair. lia.
Qed.

Lemma apply_x_spec n a k q :
  kernel_at n a k → 0 <= q < n →
  ∃ a', qcpu_kernel_apply_x (Some k) q = Some (QCPU_OK, Some (gated k a')) ∧
    kernel_at n a' (gated k a') ∧
    (∀ j, 0 <= j < 2 ^ n → at_ a' j = at_ a (flip_bit (n - 1 - q) j)) ∧
    for_range (pair_body (sel_target (n - 1 - q)) (n - 1 - q) swap_map) 0
      (Z.to_nat (2 ^ n)) a = Some a'.
Proof.
  intros Hk Hq. pose proof Hk as [_ Hn Hs Ha Hl _].
  destruct (pair_loop_spec n (n - 1 - q) ltac:(lia) (sel_target (n - 1 - q)) swap_map
    (sel_target_clear _) a Hl) as (a' & Hrun & Hlen & Hspec).
  exists a'. split_and!; [|by eapply gated_at| |done].
  - unfold qcpu_kernel_apply_x. rewrite (ready_at _ _ _ Hk). simpl. rewrite Hn.
    assert ((n <=? q) = false) as -> by lia. rewrite (mask_at _ _ _ _ Hk Hq). simpl. rewrite Ha. simpl.
    rewrite Hs, (for_range_ext _ (pair_body (sel_target (n - 1 - q)) (n - 1 - q) swap_map)).
    + by rewrite Hrun.
    + intros. apply x_body_pair. lia.
  - intros j Hj. rewrite Hspec, pair_spec_swap with (n := n) by (done || lia). unfold sel_target.
    by rewrite (pair_base_clear n) by lia.
Qed.

Lemma apply_cx_spec n a k c t :
  kernel_at n a k → 0 <= c < n → 0 <= t < n → c ≠ t →
  ∃ a', qcpu_kernel_apply_cx (Some k) c t = Some (QCPU_OK, Some (gated k a')) ∧
    kernel_at n a' (gated k a') ∧
    (∀ j, 0 <= j < 2 ^ n →
      at_ a' j = if Z.testbit j (n - 1 - c) then at_ a (flip_bit (n - 1 - t) j) else at_ a j) ∧
    for_range (pair_body (sel_controlled (n - 1 - c) (n - 1 - t)) (n - 1 - t) swap_map) 0
      (Z.to_nat (2 ^ n)) a = Some a'.
Proof.
  intros Hk Hc Ht Hne. pose proof Hk as [_ Hn Hs Ha Hl _].
  destruct (pair_loop_spec n (n - 1 - t) ltac:(lia) (sel_controlled (n - 1 - c) (n - 1 - t)) swap_map
    (sel_controlled_clear _ _) a Hl) as (a' & Hrun & Hlen & Hspec).
  exists a'. split_and!; [|by eapply gated_at| |done].
  - unfold qcpu_kernel_apply_cx. rewrite (ready_at _ _ _ Hk). simpl. rewrite Hn.
    assert ((n <=? c) || (n <=? t) || (c =? t) = false) as -> by lia.
    rewrite (mask_at _ _ _ _ Hk Hc). simpl. rewrite (mask_at _ _ _ _ Hk Ht). simpl. rewrite Ha. simpl.
    rewrite Hs, (for_range_ext _
      (pair_body (sel_controlled (n - 1 - c) (n - 1 - t)) (n - 1 - t) swap_map)).
    + by rewrite Hrun.
    + intros. apply cx_body_pair; lia.
  - intros j Hj. rewrite Hspec, pair_spec_swap with (n := n) by (done || lia). unfold sel_controlled.
    rewrite (pair_base_clear n), (pair_base_other n), andb_true_r by lia. done.
Qed.

(** ** Reset and initialisation *)

(** The basis state [s] of [n] qubits. *)
Definition basis (n s : Z) : list amp := <[Z.to_nat s := c_one]> (replicate (Z.to_nat (2 ^ n)) c_zero).

Lemma length_basis n s : 0 <= n → Z.of_nat (length (basis n s)) = 2 ^ n.
Proof.
  intros. unfold basis. rewrite length_insert, length_replicate.
  assert (0 < 2 ^ n) by (apply Z.pow_pos_nonneg; lia). lia.
Qed.

Lemma at_basis n s j :
  0 <= s < 2 ^ n → 0 <= j < 2 ^ n → at_ (basis n s) j = Some (if j =? s then c_one else c_zero).
Proof.
  intros Hs Hj. unfold basis, at_. destruct (Z.eqb_spec j s) as [->|Hne].
  - rewrite list_lookup_insert_eq; [done|]. rewrite length_replicate. lia.
  - rewrite list_lookup_insert_ne by lia. apply lookup_replicate. split; [done|]. lia.
Qed.

(** Clearing the whole vector and setting one entry, as [reset] and
    [measure] do. *)
Lemma clear_and_set n a s :
  Z.of_nat (length a) = 2 ^ n → 0 <= s < 2 ^ n →
  store_amp (replicate (Z.to_nat (2 ^ n)) c_zero ++ drop (Z.to_nat (2 ^ n)) a) s c_one
  = Some (basis n s).
Proof.
  intros Hl Hs. rewrite drop_ge, app_nil_r by lia. unfold store_amp. rewrite length_replicate.
  by assert ((0 <=? s) && (s <? Z.of_nat (Z.to_nat (2 ^ n))) = true) as -> by lia.
Qed.

Lemma reset_spec n a k :
  kernel_at n a k →
  ∃ k', qcpu_kernel_reset (Some k) = Some (QCPU_OK, Some k') ∧ kernel_at n (basis n 0) k' ∧
    rng_state k' = rng_state k ∧ measured k' = 0 ∧ measured_state k' = 0.
Proof.
  intros Hk. pose proof Hk as [Hn Hq Hs Ha Hl Hr]. pose proof (pow2_le_20 n Hn).
  unfold qcpu_kernel_reset. rewrite (ready_at _ _ _ Hk). simpl. rewrite Ha. simpl. rewrite Hs.
  assert ((Z.of_nat (length a) <? 2 ^ n) = false) as -> by lia.
  rewrite clear_and_set by lia. simpl. eexists. split; [done|]. split; [|done].
  split; try done. apply length_basis. lia.
Qed.

Lemma init_spec (k0 : kernel) n seed :
  1 <= n <= KERNEL_MAX_QUBITS → in_width 64 seed →
  ∃ k', qcpu_kernel_init true (Some k0) n seed = Some (QCPU_OK, Some k') ∧
    kernel_at n (basis n 0) k' ∧ rng_state k' = (if seed =? 0 then DEFAULT_SEED else seed).
Proof.
  intros Hn Hseed. unfold qcpu_kernel_init. pose proof (pow2_le_20 n Hn).
  unfold KERNEL_MAX_QUBITS, SIZE_MAX_BITS in *.
  assert ((n =? 0) || (20 <? n) || (64 <=? n) = false) as -> by lia.
  rewrite c_shl_one by lia. simpl.
  destruct (reset_spec n (replicate (Z.to_nat (2 ^ n)) c_zero)
    (mk_kernel n (2 ^ n) (Some (replicate (Z.to_nat (2 ^ n)) c_zero))
       (if seed =? 0 then DEFAULT_SEED else seed) 0 0)) as (k' & -> & Hk' & Hrng & _); [|by eauto].
  split; try done; simpl; [rewrite length_replicate; lia|]. by case_tests.
Qed.

(** ** Sampling, measurement, shots *)

Lemma rng_next_width k :
  in_width 64 (rng_state k) → in_width 64 (rng_state (qcpu_rng_next k).2).
Proof.
  intros Hr. unfold qcpu_rng_next. simpl.
  assert (in_width 64 (if rng_state k =? 0 then DEFAULT_SEED else rng_state k)) as Hv by by case_tests.
  revert Hv. generalize (if rng_state k =? 0 then DEFAULT_SEED else rng_state k). intros v Hv.
  repeat first [ apply lxor_in_width | apply shiftr_in_width | apply wrap_in_width | done ].
Qed.

Lemma rng_unit_kernel k : (qcpu_rng_unit k).2 = (qcpu_rng_next k).2.
Proof. unfold qcpu_rng_unit. by destruct (qcpu_rng_next k). Qed.

Lemma rng_next_at n a k : kernel_at n a k → kernel_at n a (qcpu_rng_next k).2.
Proof. intros []. split; try done. by apply rng_next_width. Qed.

(** Sampling never fails: it picks a state of the vector. *)
Lemma sample_loop_ok n a threshold :
  0 <= n < 64 → Z.of_nat (length a) = 2 ^ n →
  ∃ s, for_ctl (sample_body a (2 ^ n) threshold) 0 (Z.to_nat (2 ^ n)) f_zero = Some (Stop s) ∧
    0 <= s < 2 ^ n.
Proof.
  intros Hn Hl. assert (0 < 2 ^ n) by (apply Z.pow_pos_nonneg; lia).
  assert (2 ^ n < 2 ^ 64) by (apply Z.pow_lt_mono_r; lia).
  destruct (for_ctl_inv (λ i _, Z.of_nat i < 2 ^ n) (λ s, 0 <= s < 2 ^ n)
    (sample_body a (2 ^ n) threshold) 0 (Z.to_nat (2 ^ n)) f_zero) as [(s & _ & Hs)|(s & Hs)].
  - lia.
  - intros j t Hj Hlt. unfold sample_body.
    destruct (lookup_lt_is_Some_2 a j ltac:(lia)) as [x ->]. simpl.
    rewrite (wrap_small 64) by (unfold in_width; lia).
    case_tests; [right; eexists; split; [done|lia]|]. left. eexists. split; [done|].
    apply orb_false_elim in Heqb as [_ Hne]. lia.
  - lia.
  - eauto.
Qed.

Lemma sample_spec n a k st :
  kernel_at n a k →
  ∃ s, qcpu_kernel_sample (Some k) (Some st) =
         Some (QCPU_OK, Some (qcpu_rng_next k).2, Some s) ∧ 0 <= s < 2 ^ n ∧
    for_ctl (sample_body a (2 ^ n) (qcpu_rng_unit k).1) 0 (Z.to_nat (2 ^ n)) f_zero = Some (Stop s).
Proof.
  intros Hk. pose proof (rng_next_at _ _ _ Hk) as [_ _ Hs Ha _ _].
  pose proof Hk as [Hn _ _ _ Hl _]. unfold KERNEL_MAX_QUBITS in Hn.
  destruct (sample_loop_ok n a (qcpu_rng_unit k).1 ltac:(lia) Hl) as (s & Hrun & Hrange).
  exists s. split; [|done]. unfold qcpu_kernel_sample. rewrite (ready_at _ _ _ Hk).
  rewrite <-rng_unit_kernel in *. destruct (qcpu_rng_unit k) as [threshold k'].
  cbn [mbind option_bind fst snd] in *. rewrite Ha. cbn [mbind option_bind]. by rewrite Hs, Hrun.
Qed.

(** The kernel after measuring [s]. *)
Definition collapsed (k : kernel) (n s : Z) : kernel :=
  with_measured_state (with_measured (with_amplitudes k (Some (basis n s))) 1) s.

Lemma measure_spec n a k out :
  kernel_at n a k →
  ∃ s, let k' := collapsed (qcpu_rng_next k).2 n s in
    qcpu_kernel_measure (Some k) (Some out) = Some (QCPU_OK, Some k', Some s) ∧
    0 <= s < 2 ^ n ∧ kernel_at n (basis n s) k' ∧
    for_ctl (sample_body a (2 ^ n) (qcpu_rng_unit k).1) 0 (Z.to_nat (2 ^ n)) f_zero = Some (Stop s).
Proof.
  intros Hk. pose proof (rng_next_at _ _ _ Hk) as Hk'. pose proof Hk' as [Hn Hq Hs Ha Hl Hr].
  destruct (sample_spec n a k 0 Hk) as (s & Hrun & Hrange & Hloop). exists s. simpl.
  split; [|split; [done|split; [|done]]].
  - unfold qcpu_kernel_measure. rewrite (ready_at _ _ _ Hk). cbn [mbind option_bind].
    rewrite Hrun. cbn [mbind option_bind]. rewrite decide_False by tauto.
    rewrite Ha. cbn [mbind option_bind]. rewrite Hs. assert ((Z.of_nat (length a) <? 2 ^ n) = false) as -> by lia.
    by rewrite clear_and_set by done.
  - split; try done. apply length_basis. unfold KERNEL_MAX_QUBITS in Hn. lia.
Qed.

(** Every state the vector [a] can yield satisfies [P]. *)
Definition samples_in (n : Z) (a : list amp) (P : Z → Prop) : Prop :=
  ∀ threshold s,
    for_ctl (sample_body a (2 ^ n) threshold) 0 (Z.to_nat (2 ^ n)) f_zero = Some (Stop s) → P s.

(** Counters after [i] shots. *)
Record counted (n : Z) (P : Z → Prop) (i : Z) (counts : list Z) : Prop := {
  ct_length : Z.of_nat (length counts) = 2 ^ n;
  ct_nonneg : Forall (λ c, 0 <= c) counts;
  ct_sum : sumZ counts = i;
  ct_states : ∀ s c, counts !! s = Some c → c ≠ 0 → P (Z.of_nat s)
}.

Lemma counted_step n P i counts s :
  counted n P i counts → 0 <= s < 2 ^ n → P s → i + 1 < 2 ^ 64 →
  ∃ c, counts !! Z.to_nat s = Some c ∧
    counted n P (i + 1) (<[Z.to_nat s := u64 (c + 1)]> counts).
Proof.
  intros [Hl Hn Hs HP] Hrange HPs Hi.
  destruct (lookup_lt_is_Some_2 counts (Z.to_nat s) ltac:(lia)) as [c Hc]. exists c.
  pose proof (sumZ_elem_le _ _ _ Hn Hc). pose proof (Forall_lookup_1 _ _ _ _ Hn Hc) as Hc0. simpl in Hc0.
  rewrite (wrap_small 64) by (unfold in_width; lia). split; [done|]. split.
  - by rewrite length_insert.
  - apply Forall_insert; [done|]. lia.
  - rewrite (sumZ_insert _ _ c) by done. lia.
  - intros t d Hd Hne. destruct (decide (t = Z.to_nat s)) as [->|Hts].
    + by rewrite Z2Nat.id by lia.
    + rewrite list_lookup_insert_ne in Hd by done. by eapply HP.
Qed.

Lemma run_shots_spec n a k shots r0 P :
  kernel_at n a k → 0 < shots < 2 ^ 64 → samples_in n a P →
  ∃ k' counts,
    qcpu_kernel_run_shots true (Some k) shots (Some r0) =
      Some (QCPU_OK, Some k', Some {| sr_shots := shots; sr_state_count := 2 ^ n;
                                      sr_counts := Some counts |}) ∧
    kernel_at n a k' ∧ counted n P shots counts.
Proof.
  intros Hk Hshots HP. pose proof Hk as [Hn _ Hs _ _ _]. pose proof (pow2_le_20 n Hn).
  destruct (for_ctl_inv
    (λ i s, ∃ k' counts, s = (Some k', counts) ∧ kernel_at n a k' ∧ counted n P (Z.of_nat i) counts)
    (λ _, False) shot_body 0 (Z.to_nat shots) (Some k, replicate (Z.to_nat (2 ^ n)) 0))
    as [(s' & Hrun & k' & counts & -> & Hk' & Hc)|(? & _ & [])].
  - eexists _, _. split; [done|]. split; [done|]. split.
    + rewrite length_replicate. lia.
    + by apply Forall_replicate.
    + apply sumZ_replicate.
    + intros s c [-> _]%lookup_replicate. done.
  - intros i ? Hi (k' & counts & -> & Hk' & Hc). left.
    destruct (sample_spec n a k' 0 Hk') as (s & Hsample & Hrange & Hloop).
    destruct (counted_step n P (Z.of_nat i) counts s Hc Hrange (HP _ _ Hloop) ltac:(lia)) as (c & Hlook & Hc').
    unfold shot_body. rewrite Hsample. cbn [mbind option_bind]. rewrite decide_False by tauto.
    cbn [mbind option_bind]. assert (negb (0 <=? s) = false) as -> by lia. rewrite Hlook.
    cbn [mbind option_bind]. eexists. split; [done|]. eexists _, _. split; [done|].
    split; [by apply rng_next_at|]. by replace (Z.of_nat (S i)) with (Z.of_nat i + 1) by lia.
  - exists k', counts. unfold qcpu_kernel_run_shots. rewrite (ready_at _ _ _ Hk). cbn [mbind option_bind].
    assert ((shots =? 0) = false) as -> by lia. simpl negb. cbv iota. rewrite Hs, Hrun.
    cbn [mbind option_bind]. split_and!; try done.
    replace (Z.of_nat (0 + Z.to_nat shots)) with shots in Hc by lia. done.
Qed.
End Spec.
