(* ===== verification/GHZ.v ===== *)
(** * The GHZ preparation, its norm and its measurements

    The vector [qcpu_kernel_apply_ghz] leaves, for every number of qubits and
    every floating-point type with the few exact identities of [GHZFloat]:
    amplitude [1/sqrt 2] at the all-zero and the all-one state and zero
    elsewhere. From it: what can be sampled, the norm of the vector, the norm
    after a measurement, and (for binary64) that a second measurement gives
    the state of the first. *)

From Stdlib Require Import ZArith Lia ZifyBool SpecFloat.
From stdpp Require Import base list numbers.
From S2P Require Import Prelude.
From S2P Require Import Float64.
From S2P Require Import Gates.
From S2P Require Import Kernel.
From S2P Require Import KernelSpec.
Open Scope Z_scope.

(** The number with bits [p .. n-1] set. *)
Definition high_ones (n p : Z) : Z := 2 ^ n - 2 ^ p.

Lemma testbit_high_ones n p i : 0 <= p <= n → 0 <= i → Z.testbit (high_ones n p) i = (p <=? i) && (i <? n).
Proof.
  intros Hp Hi. unfold high_ones.
  replace (2 ^ n - 2 ^ p) with (Z.shiftl (Z.ones (n - p)) p).
  - rewrite Z.shiftl_spec by lia. destruct (Z.leb_spec p i) as [Hle|Hlt]; simpl.
    + destruct (Z.ltb_spec i n); [apply Z.ones_spec_low; lia|apply Z.ones_spec_high; lia].
    + apply Z.testbit_neg_r. lia.
  - rewrite Z.shiftl_mul_pow2, Z.ones_equiv by lia. unfold Z.pred.
    rewrite Z.mul_add_distr_r, <-Z.pow_add_r by lia. replace (n - p + p) with n by lia. lia.
Qed.

(** ** Two-state vectors

    The vectors the preparation goes through, for any type of amplitudes: [x] at
    the states 0 and [t], [z] elsewhere. *)

Section TwoAt.
Context {A : Type} (x z : A).
Implicit Types a : list A.

Definition two_at (n t : Z) (a : list A) : Prop :=
  ∀ j, 0 <= j < 2 ^ n → at_ a j = Some (if (j =? 0) || (j =? t) then x else z).

(** A map on pairs, applied at the top bit of a vector with [one] at state 0. *)
Lemma h_two_at n (f : A → A → A * A) (one : A) a0 a' :
  1 <= n → f one z = (x, x) → f z z = (z, z) →
  (∀ j, 0 <= j < 2 ^ n → at_ a0 j = Some (if j =? 0 then one else z)) →
  (∀ j, 0 <= j < 2 ^ n → at_ a' j = pair_spec (sel_target (n - 1)) (n - 1) f a0 j) →
  two_at n (high_ones n (n - 1)) a'.
Proof.
  intros Hn Hone Hzero Ha0 Hspec j Hj. rewrite Hspec by done. set (p := n - 1).
  assert (0 < 2 ^ p) by (apply Z.pow_pos_nonneg; lia).
  assert (high_ones n p = 2 ^ p) as ->.
  { unfold high_ones. replace n with (Z.succ p) by lia. rewrite Z.pow_succ_r by lia. lia. }
  pose proof (pair_base_clear n p ltac:(lia) j) as Hc.
  pose proof (pair_base_range n p ltac:(lia) j Hj) as Hr.
  pose proof (add_pow2_lt p ltac:(lia) (pair_base p j) n ltac:(lia) ltac:(lia) Hc) as Hlt.
  unfold pair_spec, sel_target. rewrite Hc. simpl negb. cbv iota.
  rewrite !Ha0 by lia. cbn [mbind option_bind].
  assert ((pair_base p j + 2 ^ p =? 0) = false) as -> by lia.
  unfold pair_base in *. destruct (Z.testbit j p) eqn:Hb.
  - destruct (Z.eqb_spec (j - 2 ^ p) 0) as [Hz|Hz].
    + assert ((j =? 0) || (j =? 2 ^ p) = true) as -> by lia. by rewrite Hone.
    + assert ((j =? 0) || (j =? 2 ^ p) = false) as -> by lia. by rewrite Hzero.
  - destruct (Z.eqb_spec j 0) as [Hz|Hz]; [by rewrite Hone|].
    assert ((j =? 2 ^ p) = false) as ->; [|by rewrite Hzero].
    apply Z.eqb_neq. intros ->. by rewrite Z.pow2_bits_true in Hb by lia.
Qed.

(** One CX of the chain moves the second state one bit down. *)
Lemma cx_two_at n q a a' :
  1 <= q < n →
  two_at n (high_ones n (n - q)) a →
  (∀ j, 0 <= j < 2 ^ n →
     at_ a' j = if Z.testbit j (n - 1 - (q - 1)) then at_ a (flip_bit (n - 1 - q) j) else at_ a j) →
  two_at n (high_ones n (n - 1 - q)) a'.
Proof.
  intros Hq Ha Hspec j Hj. rewrite Hspec by done.
  replace (n - 1 - (q - 1)) with (n - q) by lia. set (c := n - q) in *. set (p := n - 1 - q).
  assert (Ht : ∀ i, 0 <= i → Z.testbit (high_ones n c) i = (c <=? i) && (i <? n))
    by (intros; apply testbit_high_ones; lia).
  assert (Ht' : ∀ i, 0 <= i → Z.testbit (high_ones n p) i = (p <=? i) && (i <? n))
    by (intros; apply testbit_high_ones; lia).
  assert (Hflip : flip_bit p (high_ones n c) = high_ones n p).
  { unfold flip_bit. rewrite Ht by lia. assert ((c <=? p) && (p <? n) = false) as -> by lia.
    unfold high_ones. replace c with (Z.succ p) by lia. rewrite Z.pow_succ_r by lia. lia. }
  destruct (Z.testbit j c) eqn:Hb.
  - rewrite Ha by (apply flip_bit_range; lia).
    assert ((flip_bit p j =? 0) = false) as ->.
    { apply Z.eqb_neq. intros Hz. assert (Z.testbit (flip_bit p j) c = true) as Hbit
        by (by rewrite testbit_flip_ne by lia). by rewrite Hz, Z.testbit_0_l in Hbit. }
    assert ((j =? 0) = false) as -> by (apply Z.eqb_neq; intros ->; by rewrite Z.testbit_0_l in Hb).
    simpl. destruct (Z.eqb_spec (flip_bit p j) (high_ones n c)) as [Heq|Hne].
    + rewrite <-Hflip, <-Heq, flip_bit_involutive, Z.eqb_refl by lia. done.
    + destruct (Z.eqb_spec j (high_ones n p)) as [->|]; [|done]. exfalso. apply Hne.
      rewrite <-Hflip. apply flip_bit_involutive. lia.
  - rewrite Ha by done. assert ((j =? high_ones n c) = false) as ->.
    { apply Z.eqb_neq. intros ->. rewrite Ht in Hb by lia. lia. }
    assert ((j =? high_ones n p) = false) as ->; [|done].
    apply Z.eqb_neq. intros ->. rewrite Ht' in Hb by lia. lia.
Qed.

End TwoAt.

Section GHZ.
Context {F : Type} `{GHZFloat F}.
Abbreviation kernel := (QCPUKernel F).
Abbreviation amp := (complex F).
Implicit Types (k : kernel) (a : list amp).

Definition c_ghz : amp := mk_complex inv_sqrt2 f_zero.

(** Amplitude [1/sqrt 2] at states 0 and [t], zero elsewhere. *)
Definition two_states : Z → Z → list amp → Prop := two_at c_ghz c_zero.

Lemma h_map_zero : h_map inv_sqrt2 c_zero c_zero = (c_zero, c_zero) :> amp * amp.
Proof.
  unfold h_map, c_scale, c_add, c_sub, c_zero. cbn [re im].
  by rewrite ghz_add_0_0, ghz_sub_0_0, ghz_mul_0_s.
Qed.

Lemma h_map_one : h_map inv_sqrt2 c_one c_zero = (c_ghz, c_ghz) :> amp * amp.
Proof.
  unfold h_map, c_scale, c_add, c_sub, c_zero, c_one, c_ghz. cbn [re im].
  by rewrite ghz_add_0_0, ghz_sub_0_0, ghz_add_1_0, ghz_sub_1_0, ghz_mul_0_s, ghz_mul_1_s.
Qed.

(** H on qubit 0 of the all-zero state. *)
Lemma h_basis n a' :
  1 <= n →
  (∀ j, 0 <= j < 2 ^ n →
     at_ a' j = pair_spec (sel_target (n - 1 - 0)) (n - 1 - 0) (h_map inv_sqrt2) (basis n 0) j) →
  two_states n (high_ones n (n - 1)) a'.
Proof.
  rewrite Z.sub_0_r. intros Hn. apply (h_two_at _ _ _ _ c_one); [done|apply h_map_one|apply h_map_zero|].
  intros j Hj. apply at_basis; lia.
Qed.

(** The state prepared by [qcpu_kernel_apply_ghz]. *)
Definition ghz_at (n : Z) (k : kernel) : Prop :=
  ∃ a, kernel_at n a k ∧ two_states n (2 ^ n - 1) a.

Lemma apply_ghz_spec n a k :
  kernel_at n a k →
  ∃ k', qcpu_kernel_apply_ghz (Some k) = Some (QCPU_OK, Some k') ∧ ghz_at n k' ∧
    rng_state k' = rng_state k ∧ measured k' = 0.
Proof.
  intros Hk. pose proof Hk as [Hn Hq _ _ _ _]. unfold qcpu_kernel_apply_ghz.
  rewrite (ready_at _ _ _ Hk). cbn [mbind option_bind].
  destruct (reset_spec n a k Hk) as (k0 & -> & Hk0 & Hr0 & _). cbn [mbind option_bind].
  rewrite decide_False by tauto.
  destruct (apply_h_spec n _ k0 0 Hk0 ltac:(lia)) as (a1 & -> & Hk1 & Hspec1 & _). cbn [mbind option_bind].
  rewrite decide_False by tauto. rewrite Hq.
  destruct (for_ctl_inv
    (λ i s, ∃ k' a', s = Some k' ∧ kernel_at n a' k' ∧ two_states n (high_ones n (n - Z.of_nat i)) a' ∧
       rng_state k' = rng_state k ∧ measured k' = 0)
    (λ _, False) ghz_body 1 (Z.to_nat n - 1) (Some (gated k0 a1)))
    as [(s & -> & k' & a' & -> & Hk' & Ha' & Hr' & Hm')|(? & _ & [])].
  - eexists _, _. split_and!; [done|done| |done|done]. by apply h_basis; [lia|].
  - intros q s Hq' (k' & a' & -> & Hk' & Ha' & Hr' & Hm'). left.
    destruct (apply_cx_spec n a' k' (Z.of_nat q - 1) (Z.of_nat q) Hk' ltac:(lia) ltac:(lia) ltac:(lia))
      as (a2 & Hcx & Hk2 & Hspec2 & _).
    unfold ghz_body. rewrite Hcx. cbn [mbind option_bind]. rewrite decide_True by done.
    eexists. split; [done|]. eexists _, _. split_and!; [done|done| |done|done].
    replace (n - Z.of_nat (S q)) with (n - 1 - Z.of_nat q) by lia.
    eapply cx_two_at; [|done|done]. lia.
  - cbn [mbind option_bind]. exists k'. split_and!; [done| |done|done]. exists a'. split; [done|].
    replace (n - Z.of_nat (1 + (Z.to_nat n - 1))) with 0 in Ha' by lia. done.
Qed.

(** ** Sampling *)

Lemma c_norm2_zero : c_norm2 c_zero = f_zero :> F.
Proof. unfold c_norm2, c_zero. cbn [re im]. by rewrite ghz_mul_0_0, ghz_add_0_0. Qed.
Lemma c_norm2_one : c_norm2 c_one = f_one :> F.
Proof. unfold c_norm2, c_one. cbn [re im]. by rewrite ghz_mul_1_1, ghz_mul_0_0, ghz_add_1_0. Qed.

(** [1/sqrt 2] squared, as computed. *)
Definition half : F := f_mul inv_sqrt2 inv_sqrt2.
Lemma half_0_l : f_add f_zero half = half.
Proof. apply ghz_0_add_sq. Qed.
Lemma half_0_r : f_add half f_zero = half.
Proof. apply ghz_sq_add_0. Qed.
Lemma c_norm2_ghz : c_norm2 c_ghz = half.
Proof. unfold c_norm2, c_ghz. cbn [re im]. by rewrite ghz_mul_0_0, ghz_sq_add_0. Qed.

(** Entry [i] of a two-state vector, as a list entry. *)
Lemma two_states_lookup n a (i : nat) :
  two_states n (2 ^ n - 1) a → Z.of_nat i < 2 ^ n →
  a !! i = Some (if (Z.of_nat i =? 0) || (Z.of_nat i =? 2 ^ n - 1) then c_ghz else c_zero).
Proof. intros Ha Hi. rewrite <-(Ha (Z.of_nat i)) by lia. unfold at_. by rewrite Nat2Z.id. Qed.

(** Whatever the threshold, only the all-zero and the all-one state can be
    sampled from the GHZ vector. *)
Lemma ghz_samples n a :
  1 <= n < 64 → two_states n (2 ^ n - 1) a → samples_in n a (λ s, s = 0 ∨ s = 2 ^ n - 1).
Proof.
  intros Hn Ha threshold s. assert (2 <= 2 ^ n) by (change 2 with (2 ^ 1) at 1; apply Z.pow_le_mono_r; lia).
  assert (2 ^ n < 2 ^ 64) by (apply Z.pow_lt_mono_r; lia).
  assert (Hbody : ∀ i cum, (Z.of_nat i < 2 ^ n) → sample_body a (2 ^ n) threshold i cum =
    let cum := f_add cum (if (Z.of_nat i =? 0) || (Z.of_nat i =? 2 ^ n - 1) then half else f_zero) in
    if f_ltb threshold cum || (Z.of_nat i =? 2 ^ n - 1) then Some (Stop (Z.of_nat i)) else Some (Next cum)).
  { intros i cum Hi. unfold sample_body. rewrite (two_states_lookup n) by done. cbn [mbind option_bind].
    rewrite (wrap_small 64) by (unfold in_width; lia).
    replace (Z.of_nat i + 1 =? 2 ^ n) with (Z.of_nat i =? 2 ^ n - 1) by lia.
    destruct ((Z.of_nat i =? 0) || (Z.of_nat i =? 2 ^ n - 1)); by rewrite ?c_norm2_ghz, ?c_norm2_zero. }
  replace (Z.to_nat (2 ^ n)) with (S (Z.to_nat (2 ^ n - 1))) by lia. cbn [for_ctl].
  rewrite Hbody by lia. cbv zeta. rewrite Z.eqb_refl. simpl (true || _). cbv iota.
  rewrite half_0_l. assert ((Z.of_nat 0 =? 2 ^ n - 1) = false) as -> by lia.
  rewrite orb_false_r. destruct (f_ltb threshold half) eqn:Hlt; cbn [mbind option_bind].
  { intros [= <-]. by left. }
  rewrite (for_ctl_stop_at _ _ _ _ (Z.to_nat (2 ^ n - 1)) (2 ^ n - 1)); [intros [= <-]; by right|lia|..].
  - intros m Hm. rewrite Hbody by lia. cbv zeta.
    assert ((Z.of_nat m =? 0) || (Z.of_nat m =? 2 ^ n - 1) = false) as -> by lia.
    rewrite half_0_r, Hlt.
    by assert ((Z.of_nat m =? 2 ^ n - 1) = false) as -> by lia.
  - rewrite Hbody by lia. cbv zeta.
    assert ((Z.of_nat (Z.to_nat (2 ^ n - 1)) =? 2 ^ n - 1) = true) as -> by lia.
    rewrite orb_true_r. f_equal. f_equal. lia.
Qed.

(** ** Norms *)

Lemma norm_loop_ghz n a :
  1 <= n → two_states n (2 ^ n - 1) a →
  for_range (norm_body a) 0 (Z.to_nat (2 ^ n)) f_zero = Some (f_add half half).
Proof.
  intros Hn Ha. assert (2 <= 2 ^ n) by (change 2 with (2 ^ 1) at 1; apply Z.pow_le_mono_r; lia).
  destruct (for_range_inv
    (λ i v, v = if Z.of_nat i =? 0 then f_zero else if Z.of_nat i <=? 2 ^ n - 1 then half else f_add half half)
    (norm_body a) 0 (Z.to_nat (2 ^ n)) f_zero) as (v & -> & ->); [done| |].
  - intros i v Hi ->. unfold norm_body. rewrite (two_states_lookup n) by (done || lia).
    cbn [mbind option_bind]. eexists. split; [done|].
    assert ((Z.of_nat (S i) =? 0) = false) as -> by lia.
    destruct (Z.eqb_spec (Z.of_nat i) 0) as [Hz|Hz]; simpl orb.
    + assert ((Z.of_nat (S i) <=? 2 ^ n - 1) = true) as -> by lia. by rewrite c_norm2_ghz, half_0_l.
    + assert ((Z.of_nat i <=? 2 ^ n - 1) = true) as -> by lia.
      destruct (Z.eqb_spec (Z.of_nat i) (2 ^ n - 1)) as [Hl|Hl].
      * assert ((Z.of_nat (S i) <=? 2 ^ n - 1) = false) as -> by lia. by rewrite c_norm2_ghz.
      * assert ((Z.of_nat (S i) <=? 2 ^ n - 1) = true) as -> by lia. by rewrite c_norm2_zero, half_0_r.
  - assert ((Z.of_nat (0 + Z.to_nat (2 ^ n)) =? 0) = false) as -> by lia.
    by assert ((Z.of_nat (0 + Z.to_nat (2 ^ n)) <=? 2 ^ n - 1) = false) as -> by lia.
Qed.

Lemma norm_ghz n k : ghz_at n k → qcpu_kernel_norm (Some k) = Some (f_add half half).
Proof.
  intros (a & Hk & Ha). pose proof Hk as [Hn _ Hs Hamp _ _]. unfold qcpu_kernel_norm.
  rewrite (ready_at _ _ _ Hk). cbn [mbind option_bind]. rewrite Hamp. cbn [mbind option_bind].
  rewrite Hs. apply norm_loop_ghz; [lia|done].
Qed.

Lemma basis_lookup n s (i : nat) :
  0 <= s < 2 ^ n → Z.of_nat i < 2 ^ n →
  (basis n s : list amp) !! i = Some (if Z.of_nat i =? s then c_one else c_zero).
Proof. intros Hs Hi. rewrite <-(at_basis n s (Z.of_nat i)) by lia. unfold at_. by rewrite Nat2Z.id. Qed.

Lemma norm_basis n s k :
  0 <= s < 2 ^ n → kernel_at n (basis n s) k → qcpu_kernel_norm (Some k) = Some f_one.
Proof.
  intros Hs Hk. pose proof Hk as [Hn _ Hst Hamp _ _]. unfold qcpu_kernel_norm.
  rewrite (ready_at _ _ _ Hk). cbn [mbind option_bind]. rewrite Hamp. cbn [mbind option_bind]. rewrite Hst.
  destruct (for_range_inv (λ i v, v = if Z.of_nat i <=? s then f_zero else f_one)
    (norm_body (basis n s)) 0 (Z.to_nat (2 ^ n)) f_zero) as (v & -> & ->).
  - by assert ((Z.of_nat 0 <=? s) = true) as -> by lia.
  - intros i v Hi ->. unfold norm_body. rewrite basis_lookup by lia. cbn [mbind option_bind].
    eexists. split; [done|]. destruct (Z.eqb_spec (Z.of_nat i) s) as [<-|Hne].
    + rewrite Z.leb_refl. assert ((Z.of_nat (S i) <=? Z.of_nat i) = false) as -> by lia.
      by rewrite c_norm2_one, ghz_add_0_1.
    + rewrite c_norm2_zero. destruct (Z.leb_spec (Z.of_nat i) s) as [Hle|Hgt].
      * assert ((Z.of_nat (S i) <=? s) = true) as -> by lia. by rewrite ghz_add_0_0.
      * assert ((Z.of_nat (S i) <=? s) = false) as -> by lia. by rewrite ghz_add_1_0.
  - by assert ((Z.of_nat (0 + Z.to_nat (2 ^ n)) <=? s) = false) as -> by lia.
Qed.

(** A basis state yields itself for every threshold in [[0, 1)]. *)
Lemma sample_basis n s threshold :
  0 <= n < 64 → 0 <= s < 2 ^ n →
  f_ltb threshold f_zero = false → f_ltb threshold f_one = true →
  for_ctl (sample_body (basis n s) (2 ^ n) threshold) 0 (Z.to_nat (2 ^ n)) f_zero = Some (Stop s).
Proof.
  intros Hn Hs Hlo Hhi. assert (2 ^ n < 2 ^ 64) by (apply Z.pow_lt_mono_r; lia).
  rewrite (for_ctl_stop_at _ _ _ _ (Z.to_nat s) s); [done|lia|..].
  - intros i Hi. unfold sample_body. rewrite basis_lookup by lia. cbn [mbind option_bind].
    assert ((Z.of_nat i =? s) = false) as -> by lia. rewrite c_norm2_zero, ghz_add_0_0, Hlo. simpl orb.
    rewrite (wrap_small 64) by (unfold in_width; lia).
    by assert ((Z.of_nat i + 1 =? 2 ^ n) = false) as -> by lia.
  - unfold sample_body. rewrite basis_lookup by lia. cbn [mbind option_bind].
    assert ((Z.of_nat (Z.to_nat s) =? s) = true) as -> by lia.
    rewrite c_norm2_one, ghz_add_0_1, Hhi. simpl. f_equal. f_equal. lia.
Qed.
End GHZ.

(** ** Binary64 facts *)

Lemma rng_next_value_width {F} (k : QCPUKernel F) : in_width 64 (qcpu_rng_next k).1.
Proof. unfold qcpu_rng_next. simpl. by apply wrap_in_width. Qed.

Lemma rng_unit_b64 (k : QCPUKernel double) :
  f_ltb (qcpu_rng_unit k).1 f_zero = false ∧ f_ltb (qcpu_rng_unit k).1 f_one = true.
Proof.
  unfold qcpu_rng_unit. pose proof (rng_next_value_width k) as Hv.
  destruct (qcpu_rng_next k) as [v k']. cbn [fst] in *. apply b64_unit_range.
  unfold in_width in Hv. rewrite Z.shiftr_div_pow2 by done. Z.to_euclidean_division_equations; lia.
Qed.

(** The GHZ norm in binary64 is within [1e-12] of 1. *)
Lemma validate_ghz n (k : QCPUKernel double) :
  ghz_at n k → qcpu_kernel_validate (Some k) lit_1em12 = Some QCPU_OK.
Proof.
  intros Hk. pose proof Hk as (a & Hka & _). unfold qcpu_kernel_validate. rewrite (ready_at _ _ _ Hka).
  cbn [mbind option_bind]. rewrite (norm_ghz n) by done. vm_compute. reflexivity.
Qed.
