(* ===== verification/KernelReal.v ===== *)
(** * The kernel over the real numbers

    The idealised instance of [FloatOps]: exact real arithmetic. Over it the
    gates are unitary: each keeps the norm the code computes, and H is its own
    inverse. (X and CX are involutions over every number type, binary64
    included: see [KernelProps].) *)

From Stdlib Require Import ZArith Lia ZifyBool Reals Lra.
From stdpp Require Import base list numbers.
From S2P Require Import Prelude.
From S2P Require Import Float64.
From S2P Require Import Gates.
From S2P Require Import Kernel.
From S2P Require Import KernelSpec.
Open Scope Z_scope.

Definition Rltb (x y : R) : bool := if Rlt_dec x y then true else false.
Definition Rleb (x y : R) : bool := if Rle_dec x y then true else false.

#[export] Instance real_ops : FloatOps R := {|
  f_of_Z := IZR;
  f_add := Rplus;
  f_sub := Rminus;
  f_mul := Rmult;
  f_div := Rdiv;
  f_sqrt := sqrt;
  f_abs := Rabs;
  f_ltb := Rltb;
  f_leb := Rleb;
  f_isfinite := λ _, true
|}.

#[export] Instance real_ghz : GHZFloat R.
Proof. split; unfold f_zero, f_one, inv_sqrt2; simpl; lra. Qed.

(** Twice the square of [1/sqrt 2] is 1. *)
Lemma inv_sqrt2_sq : (2 * (inv_sqrt2 * inv_sqrt2) = 1)%R.
Proof.
  unfold inv_sqrt2. simpl. pose proof (sqrt_sqrt 2 ltac:(lra)) as H.
  assert (sqrt 2 ≠ 0%R) by (pose proof (sqrt_lt_R0 2 ltac:(lra)); lra).
  replace 2%R with (sqrt 2 * sqrt 2)%R at 1 by done. field. done.
Qed.

(** The squared norm of a vector. *)
Definition vnorm (a : list (complex R)) : R := foldr (λ x acc, (c_norm2 x + acc)%R) 0%R a.

Lemma vnorm_app a b : vnorm (a ++ b) = (vnorm a + vnorm b)%R.
Proof.
  induction a as [|x a IH]; [unfold vnorm at 2; simpl; lra|].
  change (c_norm2 x + vnorm (a ++ b) = c_norm2 x + vnorm a + vnorm b)%R. lra.
Qed.

Lemma vnorm_insert a i x y :
  a !! i = Some x → vnorm (<[i := y]> a) = (vnorm a - c_norm2 x + c_norm2 y)%R.
Proof.
  revert i. induction a as [|z a IH]; intros [|i] Hx; simplify_eq/=; [lra|].
  specialize (IH i Hx). lra.
Qed.

Lemma norm_vnorm n a (k : QCPUKernel R) :
  kernel_at n a k → qcpu_kernel_norm (Some k) = Some (vnorm a).
Proof.
  intros Hk. pose proof Hk as [_ _ Hs Ha Hl _]. unfold qcpu_kernel_norm.
  rewrite (ready_at _ _ _ Hk). cbn [mbind option_bind]. rewrite Ha. cbn [mbind option_bind]. rewrite Hs, <-Hl.
  rewrite Nat2Z.id.
  destruct (for_range_inv (λ i v, v = vnorm (take i a)) (norm_body a) 0 (length a) (f_zero : R))
    as (v & -> & ->); [done| |by rewrite take_ge by lia].
  intros i v Hi ->. destruct (lookup_lt_is_Some_2 a i ltac:(lia)) as [x Hx].
  unfold norm_body. rewrite Hx. cbn [mbind option_bind]. eexists. split; [done|].
  rewrite (take_S_r _ _ _ Hx), vnorm_app.
  change (vnorm (take i a) + c_norm2 x = vnorm (take i a) + (c_norm2 x + 0))%R. lra.
Qed.

(** A pair loop with a norm-preserving map keeps the norm. *)
Definition unitary_map (f : complex R → complex R → complex R * complex R) : Prop :=
  ∀ x y, (c_norm2 (f x y).1 + c_norm2 (f x y).2 = c_norm2 x + c_norm2 y)%R.

Lemma pair_loop_norm sel p f i m (a a' : list (complex R)) :
  0 <= p → unitary_map f → for_range (pair_body sel p f) i m a = Some a' → vnorm a' = vnorm a.
Proof.
  intros Hp Hf Hrun. apply (for_range_preserves (λ b, vnorm b = vnorm a) _ _ _ _ _ ) with (2 := Hrun); [|done].
  intros j t t' Hb Ht. unfold pair_body in Hb. assert (0 < 2 ^ p) by (apply Z.pow_pos_nonneg; lia).
  destruct (sel (Z.of_nat j)); [|by simplify_eq].
  destruct (at_ t (Z.of_nat j)) as [x|] eqn:Hx; [|done].
  destruct (at_ t (Z.of_nat j + 2 ^ p)) as [y|] eqn:Hy; [|done]. simpl in Hb. simplify_eq.
  rewrite (vnorm_insert _ _ y), (vnorm_insert _ _ x) by (done || (rewrite list_lookup_insert_ne by lia; done)).
  specialize (Hf x y). rewrite Ht in *. lra.
Qed.

Lemma h_map_unitary : unitary_map (h_map inv_sqrt2).
Proof.
  pose proof inv_sqrt2_sq as Hs. revert Hs. generalize (@inv_sqrt2 R _). intros s Hs.
  intros [xr xi] [yr yi]. unfold h_map, c_norm2, c_scale, c_add, c_sub. simpl.
  transitivity (2 * (s * s) * (xr * xr + xi * xi + yr * yr + yi * yi))%R; [ring|]. rewrite Hs. ring.
Qed.

Lemma swap_map_unitary : unitary_map swap_map.
Proof. intros x y. unfold swap_map. simpl. lra. Qed.

(** Unitarity: in exact real arithmetic, H on any qubit, X on any qubit and
    CX on any two different qubits succeed and keep the norm that
    [qcpu_kernel_norm] computes. *)
Theorem gates_preserve_norm n a (k : QCPUKernel R) q c t :
  kernel_at n a k → 0 <= q < n → 0 <= c < n → 0 <= t < n → c ≠ t →
  (∃ k', qcpu_kernel_apply_h (Some k) q = Some (QCPU_OK, Some k') ∧
     qcpu_kernel_norm (Some k') = qcpu_kernel_norm (Some k)) ∧
  (∃ k', qcpu_kernel_apply_x (Some k) q = Some (QCPU_OK, Some k') ∧
     qcpu_kernel_norm (Some k') = qcpu_kernel_norm (Some k)) ∧
  (∃ k', qcpu_kernel_apply_cx (Some k) c t = Some (QCPU_OK, Some k') ∧
     qcpu_kernel_norm (Some k') = qcpu_kernel_norm (Some k)).
Proof.
  intros Hk Hq Hc Ht Hne. rewrite (norm_vnorm n a k Hk). split_and!.
  - destruct (apply_h_spec n a k q Hk Hq) as (a' & -> & Hk' & _ & Hrun). eexists. split; [done|].
    rewrite (norm_vnorm n a' _ Hk'). f_equal. eapply pair_loop_norm, Hrun; [lia|apply h_map_unitary].
  - destruct (apply_x_spec n a k q Hk Hq) as (a' & -> & Hk' & _ & Hrun). eexists. split; [done|].
    rewrite (norm_vnorm n a' _ Hk'). f_equal. eapply pair_loop_norm, Hrun; [lia|apply swap_map_unitary].
  - destruct (apply_cx_spec n a k c t Hk Hc Ht Hne) as (a' & -> & Hk' & _ & Hrun). eexists. split; [done|].
    rewrite (norm_vnorm n a' _ Hk'). f_equal. eapply pair_loop_norm, Hrun; [lia|apply swap_map_unitary].
Qed.

(** Two qubits in the state [(3/5, 0, 4/5 i, 0)]. *)
Definition real_amps : list (complex R) :=
  [mk_complex (3/5) 0; mk_complex 0 0; mk_complex 0 (4/5); mk_complex 0 0]%R.
Definition real_kernel : QCPUKernel R := {|
  qubit_count := 2; state_count := 4; amplitudes := Some real_amps; rng_state := 1; measured := 0; measured_state := 0
|}.

Lemma real_kernel_at : kernel_at 2 real_amps real_kernel.
Proof. split; try done; unfold KERNEL_MAX_QUBITS; lia. Qed.

Lemma gates_preserve_norm_witness :
  ∃ k', qcpu_kernel_apply_cx (Some real_kernel) 0 1 = Some (QCPU_OK, Some k') ∧
    qcpu_kernel_norm (Some k') = qcpu_kernel_norm (Some real_kernel).
Proof.
  apply (gates_preserve_norm 2 real_amps real_kernel 1 0 1); [apply real_kernel_at|lia|lia|lia|lia].
Defined.

(** H twice is the identity. *)
Lemma h_map_involutive x y :
  h_map inv_sqrt2 (h_map inv_sqrt2 x y).1 (h_map inv_sqrt2 x y).2 = (x, y) :> complex R * complex R.
Proof.
  pose proof inv_sqrt2_sq as Hs. revert Hs. generalize (@inv_sqrt2 R _). intros s Hs.
  destruct x as [xr xi], y as [yr yi]. unfold h_map, c_scale, c_add, c_sub. simpl.
  repeat f_equal.
  - transitivity (2 * (s * s) * xr)%R; [ring|]. rewrite Hs. ring.
  - transitivity (2 * (s * s) * xi)%R; [ring|]. rewrite Hs. ring.
  - transitivity (2 * (s * s) * yr)%R; [ring|]. rewrite Hs. ring.
  - transitivity (2 * (s * s) * yi)%R; [ring|]. rewrite Hs. ring.
Qed.

(** H is its own inverse: in exact real arithmetic, H applied twice to the
    same qubit gives back the amplitudes. *)
Theorem apply_h_involutive n a (k : QCPUKernel R) q :
  kernel_at n a k → 0 <= q < n →
  ∃ k1 k2, qcpu_kernel_apply_h (Some k) q = Some (QCPU_OK, Some k1) ∧
    qcpu_kernel_apply_h (Some k1) q = Some (QCPU_OK, Some k2) ∧
    amplitudes k2 = amplitudes k.
Proof.
  intros Hk Hq. pose proof Hk as [_ _ _ Ha Hl _].
  destruct (apply_h_spec n a k q Hk Hq) as (a1 & Hr1 & Hk1 & Hs1 & _).
  destruct (apply_h_spec n a1 (gated k a1) q Hk1 Hq) as (a2 & Hr2 & Hk2 & Hs2 & _).
  eexists _, _. split; [done|]. split; [done|]. simpl. rewrite Ha. f_equal.
  pose proof (ka_length _ _ _ Hk2) as Hl2. apply at_ext; [lia|]. intros j Hj. rewrite Hl2 in Hj.
  rewrite Hs2, (pair_spec_compose n (n - 1 - q) ltac:(lia) _ (h_map inv_sqrt2) (h_map inv_sqrt2) a a1) by done.
  apply (pair_spec_id n); try (done || lia). apply h_map_involutive.
Qed.

Lemma apply_h_involutive_witness :
  ∃ k1 k2, qcpu_kernel_apply_h (Some real_kernel) 1 = Some (QCPU_OK, Some k1) ∧
    qcpu_kernel_apply_h (Some k1) 1 = Some (QCPU_OK, Some k2) ∧ amplitudes k2 = Some real_amps.
Proof. apply (apply_h_involutive 2 real_amps real_kernel 1); [apply real_kernel_at|lia]. Defined.
