(* ===== verification/KernelProps.v ===== *)
(** * Properties of the state-vector kernel

    The theorems about [src/quantum/qcpu_kernel.c]: safety of any sequence of
    calls, the gates as maps of the state vector, involutions, the GHZ state,
    measurement, shots, the random generator and the error branches. *)

From Stdlib Require Import ZArith Lia ZifyBool SpecFloat Znumtheory.
From stdpp Require Import base list numbers.
From S2P Require Import Prelude.
From S2P Require Import Float64.
From S2P Require Import Gates.
From S2P Require Import Kernel.
From S2P Require Import KernelSpec.
From S2P Require Import GHZ.
Open Scope Z_scope.

(** ** A concrete kernel for the witnesses: two qubits in state 0 *)

Definition demo : QCPUKernel double := mk_kernel 2 4 (Some (basis 2 0)) 424242 0 0.

Lemma demo_at : kernel_at 2 (basis 2 0) demo.
Proof. split; try (done || (unfold KERNEL_MAX_QUBITS; lia)). Qed.

(** ** Sequences of operations *)

(** A call on an initialised kernel; the number types are those of C, so the
    arguments are any 64-bit values. *)
Inductive kernel_op :=
| OpReset
| OpH (qubit : Z)
| OpX (qubit : Z)
| OpCX (control target : Z)
| OpGHZ
| OpNorm
| OpMeasure
| OpShots (alloc_ok : bool) (shots : Z).

Definition op_args_ok (o : kernel_op) : Prop :=
  match o with
  | OpH q | OpX q => in_width 64 q
  | OpCX c t => in_width 64 c ∧ in_width 64 t
  | OpShots _ s => in_width 64 s
  | _ => True
  end.

Section Ops.
Context {F : Type} `{GHZFloat F}.

Definition run_op (k : ptr (QCPUKernel F)) (o : kernel_op) : option (QCPUStatus * ptr (QCPUKernel F)) :=
  match o with
  | OpReset => qcpu_kernel_reset k
  | OpH q => qcpu_kernel_apply_h k q
  | OpX q => qcpu_kernel_apply_x k q
  | OpCX c t => qcpu_kernel_apply_cx k c t
  | OpGHZ => qcpu_kernel_apply_ghz k
  | OpNorm => _ ← qcpu_kernel_norm k; Some (QCPU_OK, k)
  | OpMeasure => '(st, k, _) ← qcpu_kernel_measure k (Some 0); Some (st, k)
  | OpShots ok s => '(st, k, _) ← qcpu_kernel_run_shots ok k s (Some zero_result); Some (st, k)
  end.

Fixpoint run_ops (k : ptr (QCPUKernel F)) (l : list kernel_op) : option (ptr (QCPUKernel F)) :=
  match l with
  | [] => Some k
  | o :: l => '(_, k) ← run_op k o; run_ops k l
  end.

Lemma norm_defined n a (k : QCPUKernel F) :
  kernel_at n a k → ∃ v, qcpu_kernel_norm (Some k) = Some v.
Proof.
  intros Hk. pose proof Hk as [_ _ Hs Ha Hl _]. unfold qcpu_kernel_norm.
  rewrite (ready_at _ _ _ Hk). cbn [mbind option_bind]. rewrite Ha. cbn [mbind option_bind]. rewrite Hs.
  destruct (for_range_inv (λ _ _, True) (norm_body a) 0 (Z.to_nat (2 ^ n)) f_zero) as (v & -> & _); [done| |eauto].
  intros i v Hi _. destruct (lookup_lt_is_Some_2 a i ltac:(lia)) as [x Hx].
  unfold norm_body. rewrite Hx. simpl. eauto.
Qed.

(** Out-of-range qubits are refused and the kernel is untouched. *)
Lemma gates_range n a (k : QCPUKernel F) q c t :
  kernel_at n a k →
  (n <= q → qcpu_kernel_apply_h (Some k) q = Some (QCPU_ERR_RANGE, Some k) ∧
            qcpu_kernel_apply_x (Some k) q = Some (QCPU_ERR_RANGE, Some k)) ∧
  (n <= c ∨ n <= t ∨ c = t → qcpu_kernel_apply_cx (Some k) c t = Some (QCPU_ERR_RANGE, Some k)).
Proof.
  intros Hk. pose proof (ka_qubits _ _ _ Hk) as Hq.
  unfold qcpu_kernel_apply_h, qcpu_kernel_apply_x, qcpu_kernel_apply_cx.
  rewrite (ready_at _ _ _ Hk). cbn [mbind option_bind]. rewrite Hq. split.
  - intros Hle. by assert ((n <=? q) = true) as -> by lia.
  - intros Hor. by assert ((n <=? c) || (n <=? t) || (c =? t) = true) as -> by lia.
Qed.

(** One call keeps the kernel ready. *)
Lemma run_op_ready n a (k : QCPUKernel F) o :
  kernel_at n a k → op_args_ok o →
  ∃ st k' a', run_op (Some k) o = Some (st, Some k') ∧ kernel_at n a' k'.
Proof.
  intros Hk Ho. destruct o as [|q|q|c t| | | |ok s]; simpl in *.
  - destruct (reset_spec n a k Hk) as (k' & -> & Hk' & _). eauto 6.
  - destruct (Z.lt_ge_cases q n).
    + destruct (apply_h_spec n a k q Hk) as (a' & -> & Hk' & _); [unfold in_width in Ho; lia|]. eauto 6.
    + rewrite (proj1 (proj1 (gates_range n a k q 0 0 Hk) ltac:(lia))). eauto 6.
  - destruct (Z.lt_ge_cases q n).
    + destruct (apply_x_spec n a k q Hk) as (a' & -> & Hk' & _); [unfold in_width in Ho; lia|]. eauto 6.
    + rewrite (proj2 (proj1 (gates_range n a k q 0 0 Hk) ltac:(lia))). eauto 6.
  - unfold in_width in Ho. destruct (decide (n <= c ∨ n <= t ∨ c = t)) as [Hr|Hr].
    + rewrite (proj2 (gates_range n a k 0 c t Hk) Hr). eauto 6.
    + destruct (apply_cx_spec n a k c t Hk) as (a' & -> & Hk' & _); [lia|lia|lia|]. eauto 6.
  - destruct (apply_ghz_spec n a k Hk) as (k' & -> & (a' & Hk' & _) & _). eauto 6.
  - destruct (norm_defined n a k Hk) as (v & ->). cbn [mbind option_bind]. eauto 6.
  - destruct (measure_spec n a k 0 Hk) as (s & -> & _ & Hk' & _). cbn [mbind option_bind]. eauto 6.
  - destruct ok; [destruct (decide (s = 0)) as [->|Hs]|].
    + unfold qcpu_kernel_run_shots. rewrite (ready_at _ _ _ Hk). simpl. eauto 6.
    + destruct (run_shots_spec n a k s zero_result (λ _, True) Hk) as (k' & counts & -> & Hk' & _).
      * unfold in_width in Ho. lia.
      * done.
      * cbn [mbind option_bind]. eauto 6.
    + unfold qcpu_kernel_run_shots. rewrite (ready_at _ _ _ Hk). cbn [mbind option_bind].
      destruct (s =? 0); simpl; eauto 6.
Qed.

Lemma run_ops_ready n a (k : QCPUKernel F) l :
  kernel_at n a k → Forall op_args_ok l →
  ∃ k' a', run_ops (Some k) l = Some (Some k') ∧ kernel_at n a' k'.
Proof.
  intros Hk Hl. revert k a Hk. induction Hl as [|o l Ho _ IH]; intros k a Hk; simpl; [eauto|].
  destruct (run_op_ready n a k o Hk Ho) as (st & k' & a' & -> & Hk'). cbn [mbind option_bind]. eauto.
Qed.
End Ops.

(** C33 (kernel safety): after a successful [qcpu_kernel_init] of 1 to 20
    qubits, any sequence of calls with any 64-bit arguments runs without
    undefined behaviour and leaves a ready kernel of the same size. *)
Theorem kernel_calls_safe {F} `{GHZFloat F} (k0 : QCPUKernel F) n seed l :
  1 <= n <= KERNEL_MAX_QUBITS → in_width 64 seed → Forall op_args_ok l →
  ∃ k k' a', qcpu_kernel_init true (Some k0) n seed = Some (QCPU_OK, Some k) ∧
    run_ops (Some k) l = Some (Some k') ∧ kernel_at n a' k'.
Proof.
  intros Hn Hseed Hl. destruct (init_spec k0 n seed Hn Hseed) as (k & Hinit & Hk & _).
  destruct (run_ops_ready n _ k l Hk Hl) as (k' & a' & Hrun & Hk'). eauto 6.
Qed.

Lemma kernel_calls_safe_witness :
  ∃ k k' a', qcpu_kernel_init true (Some (zero_kernel : QCPUKernel double)) 2 7 = Some (QCPU_OK, Some k) ∧
    run_ops (Some k) [OpGHZ; OpX 9; OpMeasure; OpCX 0 1] = Some (Some k') ∧ kernel_at 2 a' k'.
Proof.
  apply (kernel_calls_safe zero_kernel 2 7 [OpGHZ; OpX 9; OpMeasure; OpCX 0 1]).
  - unfold KERNEL_MAX_QUBITS. lia.
  - unfold in_width. lia.
  - repeat constructor; unfold in_width; lia.
Defined.

(** ** The gates *)

(** Hadamard: on a ready kernel, for every index [i] whose bit of qubit
    [q] (qubit 0 most significant) is clear, H replaces the pair of amplitudes
    [x] at [i] and [y] at [i + 2^(n-1-q)] by [(x + y) / sqrt 2] and
    [(x - y) / sqrt 2] of the original values, although the loop works in
    place. *)
Theorem apply_h_correct {F} `{FloatOps F} n a (k : QCPUKernel F) q :
  kernel_at n a k → 0 <= q < n →
  ∃ a', qcpu_kernel_apply_h (Some k) q = Some (QCPU_OK, Some (gated k a')) ∧
    kernel_at n a' (gated k a') ∧
    ∀ i x y, 0 <= i < 2 ^ n → Z.testbit i (n - 1 - q) = false →
      at_ a i = Some x → at_ a (i + 2 ^ (n - 1 - q)) = Some y →
      at_ a' i = Some (c_scale (c_add x y) inv_sqrt2) ∧
      at_ a' (i + 2 ^ (n - 1 - q)) = Some (c_scale (c_sub x y) inv_sqrt2).
Proof.
  intros Hk Hq. destruct (apply_h_spec n a k q Hk Hq) as (a' & Hrun & Hk' & Hs & _).
  exists a'. split_and!; [done|done|]. intros i x y Hi Hb Hx Hy.
  pose proof (add_pow2_lt (n - 1 - q) ltac:(lia) i n Hi ltac:(lia) Hb).
  assert (0 < 2 ^ (n - 1 - q)) by (apply Z.pow_pos_nonneg; lia).
  rewrite !Hs by lia. unfold pair_spec, sel_target.
  rewrite (pair_base_low _ i Hb), (pair_base_high n (n - 1 - q) ltac:(lia) i Hb), Hb, Hx, Hy. simpl.
  by rewrite testbit_add_pow2 by (lia || done).
Qed.

Lemma apply_h_correct_witness :
  ∃ a', qcpu_kernel_apply_h (Some demo) 0 = Some (QCPU_OK, Some (gated demo a')) ∧
    at_ a' 0 = Some (c_scale (c_add c_one c_zero) inv_sqrt2) ∧
    at_ a' 2 = Some (c_scale (c_sub c_one c_zero) inv_sqrt2).
Proof.
  destruct (apply_h_correct 2 (basis 2 0) demo 0 demo_at ltac:(lia)) as (a' & Hrun & _ & Hpair).
  exists a'. split; [exact Hrun|]. apply (Hpair 0 c_one c_zero); [lia|reflexivity..].
Defined.

(** X: X moves every amplitude to the index with the qubit's bit inverted,
    and applying it twice restores the vector, for every number type. *)
Theorem apply_x_correct {F} `{FloatOps F} n a (k : QCPUKernel F) q :
  kernel_at n a k → 0 <= q < n →
  ∃ a' k2, qcpu_kernel_apply_x (Some k) q = Some (QCPU_OK, Some (gated k a')) ∧
    (∀ j, 0 <= j < 2 ^ n → at_ a' j = at_ a (flip_bit (n - 1 - q) j)) ∧
    qcpu_kernel_apply_x (Some (gated k a')) q = Some (QCPU_OK, Some k2) ∧
    amplitudes k2 = amplitudes k.
Proof.
  intros Hk Hq. destruct (apply_x_spec n a k q Hk Hq) as (a1 & Hr1 & Hk1 & Hs1 & _).
  destruct (apply_x_spec n a1 _ q Hk1 Hq) as (a2 & Hr2 & Hk2 & Hs2 & _).
  exists a1, (gated (gated k a1) a2). split_and!; try done. simpl. rewrite (ka_amps _ _ _ Hk). f_equal.
  pose proof (ka_length _ _ _ Hk). pose proof (ka_length _ _ _ Hk2). apply at_ext; [lia|].
  intros j Hj. rewrite Hs2, Hs1 by (try apply flip_bit_range; lia). by rewrite flip_bit_involutive by lia.
Qed.

Lemma apply_x_correct_witness :
  ∃ a', qcpu_kernel_apply_x (Some demo) 1 = Some (QCPU_OK, Some (gated demo a')) ∧
    at_ a' 1 = Some c_one.
Proof.
  destruct (apply_x_correct 2 (basis 2 0) demo 1 demo_at ltac:(lia)) as (a' & k2 & Hrun & Hs & _).
  exists a'. split; [exact Hrun|]. rewrite Hs by lia. reflexivity.
Defined.

(** CX: CX inverts the target's bit exactly where the control's bit is
    set, and applying it twice restores the vector, for every number type. *)
Theorem apply_cx_correct {F} `{FloatOps F} n a (k : QCPUKernel F) c t :
  kernel_at n a k → 0 <= c < n → 0 <= t < n → c ≠ t →
  ∃ a' k2, qcpu_kernel_apply_cx (Some k) c t = Some (QCPU_OK, Some (gated k a')) ∧
    (∀ j, 0 <= j < 2 ^ n →
       at_ a' j = if Z.testbit j (n - 1 - c) then at_ a (flip_bit (n - 1 - t) j) else at_ a j) ∧
    qcpu_kernel_apply_cx (Some (gated k a')) c t = Some (QCPU_OK, Some k2) ∧
    amplitudes k2 = amplitudes k.
Proof.
  intros Hk Hc Ht Hne. destruct (apply_cx_spec n a k c t Hk Hc Ht Hne) as (a1 & Hr1 & Hk1 & Hs1 & _).
  destruct (apply_cx_spec n a1 _ c t Hk1 Hc Ht Hne) as (a2 & Hr2 & Hk2 & Hs2 & _).
  exists a1, (gated (gated k a1) a2). split_and!; try done. simpl. rewrite (ka_amps _ _ _ Hk). f_equal.
  pose proof (ka_length _ _ _ Hk). pose proof (ka_length _ _ _ Hk2). apply at_ext; [lia|].
  intros j Hj. rewrite Hs2 by lia. destruct (Z.testbit j (n - 1 - c)) eqn:Hb.
  - rewrite Hs1 by (apply flip_bit_range; lia). rewrite testbit_flip_ne, Hb by lia.
    by rewrite flip_bit_involutive by lia.
  - rewrite Hs1 by lia. by rewrite Hb.
Qed.

Lemma apply_cx_correct_witness :
  ∃ a', qcpu_kernel_apply_cx (Some demo) 0 1 = Some (QCPU_OK, Some (gated demo a')) ∧
    at_ a' 0 = Some c_one.
Proof.
  destruct (apply_cx_correct 2 (basis 2 0) demo 0 1 demo_at ltac:(lia) ltac:(lia) ltac:(lia))
    as (a' & k2 & Hrun & Hs & _).
  exists a'. split; [exact Hrun|]. rewrite Hs by lia. reflexivity.
Defined.

(** ** The GHZ state, measurement and shots *)

(** C3 (GHZ preparation): on any ready kernel, whatever its vector, the GHZ
    preparation succeeds and leaves amplitude [1/sqrt 2] at the all-zero and
    the all-one state and zero everywhere else. In binary64 the norm of that
    vector passes [qcpu_kernel_validate] with tolerance [1e-12]. *)
Theorem ghz_correct n a (k : QCPUKernel double) :
  kernel_at n a k →
  ∃ k' a', qcpu_kernel_apply_ghz (Some k) = Some (QCPU_OK, Some k') ∧ kernel_at n a' k' ∧
    (∀ j, 0 <= j < 2 ^ n →
       at_ a' j = Some (if (j =? 0) || (j =? 2 ^ n - 1) then mk_complex inv_sqrt2 f_zero else c_zero)) ∧
    qcpu_kernel_validate (Some k') lit_1em12 = Some QCPU_OK.
Proof.
  intros Hk. destruct (apply_ghz_spec n a k Hk) as (k' & Hrun & Hg & _).
  pose proof (validate_ghz n k' Hg). destruct Hg as (a' & Hk' & Ha'). exists k', a'. by split_and!.
Qed.

Lemma ghz_correct_witness :
  ∃ k' a', qcpu_kernel_apply_ghz (Some demo) = Some (QCPU_OK, Some k') ∧ kernel_at 2 a' k' ∧
    at_ a' 3 = Some (mk_complex inv_sqrt2 f_zero) ∧ at_ a' 1 = Some c_zero.
Proof.
  destruct (ghz_correct 2 (basis 2 0) demo demo_at) as (k' & a' & Hrun & Hk' & Ha' & _).
  exists k', a'. rewrite !Ha' by lia. by split_and!.
Defined.

(** C32 (measurement): measuring a ready kernel always succeeds with a state of
    the vector, records it, and leaves the vector of that basis state, whose
    norm is exactly 1; measuring again gives the same state, whatever the
    random generator yields. *)
Theorem measure_correct n a (k : QCPUKernel double) out :
  kernel_at n a k →
  ∃ s k', qcpu_kernel_measure (Some k) (Some out) = Some (QCPU_OK, Some k', Some s) ∧
    0 <= s < 2 ^ n ∧ measured k' = 1 ∧ measured_state k' = s ∧
    amplitudes k' = Some (basis n s) ∧ qcpu_kernel_norm (Some k') = Some f_one ∧
    ∃ k'', qcpu_kernel_measure (Some k') (Some out) = Some (QCPU_OK, Some k'', Some s).
Proof.
  intros Hk. destruct (measure_spec n a k out Hk) as (s & Hrun & Hs & Hk' & _).
  exists s, (collapsed (qcpu_rng_next k).2 n s). do 5 (split; [done|]). split.
  - by apply (norm_basis n s).
  - destruct (measure_spec n _ _ out Hk') as (s' & Hrun' & _ & _ & Hloop).
    destruct (rng_unit_b64 (collapsed (qcpu_rng_next k).2 n s)) as [Hlo Hhi].
    pose proof (ka_range _ _ _ Hk) as Hn. unfold KERNEL_MAX_QUBITS in Hn.
    rewrite (sample_basis n s) in Hloop by (done || lia). injection Hloop as <-. eauto.
Qed.

Lemma measure_correct_witness :
  ∃ s k', qcpu_kernel_measure (Some demo) (Some 0) = Some (QCPU_OK, Some k', Some s) ∧
    amplitudes k' = Some (basis 2 s) ∧ 0 <= s < 4.
Proof.
  destruct (measure_correct 2 (basis 2 0) demo 0 demo_at) as (s & k' & Hrun & Hs & _ & _ & Ha & _).
  exists s, k'. split; [exact Hrun|]. split; [exact Ha|exact Hs].
Defined.

(** Shots: running [shots] shots on the GHZ state fills one counter per
    basis state; the counters add up to [shots], and only the all-zero and the
    all-one state are ever counted. The vector is not disturbed. *)
Theorem ghz_shots_correct {F} `{GHZFloat F} n a (k : QCPUKernel F) shots r0 :
  kernel_at n a k → 0 < shots < 2 ^ 64 →
  ∃ kg k' counts, qcpu_kernel_apply_ghz (Some k) = Some (QCPU_OK, Some kg) ∧
    qcpu_kernel_run_shots true (Some kg) shots (Some r0) =
      Some (QCPU_OK, Some k', Some {| sr_shots := shots; sr_state_count := 2 ^ n;
                                      sr_counts := Some counts |}) ∧
    amplitudes k' = amplitudes kg ∧
    Z.of_nat (length counts) = 2 ^ n ∧ sumZ counts = shots ∧
    ∀ s c, counts !! s = Some c → c ≠ 0 → Z.of_nat s = 0 ∨ Z.of_nat s = 2 ^ n - 1.
Proof.
  intros Hk Hshots. destruct (apply_ghz_spec n a k Hk) as (kg & Hg & (ag & Hkg & Hag) & _).
  pose proof (ka_range _ _ _ Hk) as Hn. unfold KERNEL_MAX_QUBITS in Hn.
  destruct (run_shots_spec n ag kg shots r0 _ Hkg Hshots (ghz_samples n ag ltac:(lia) Hag))
    as (k' & counts & Hrun & Hk' & [Hl _ Hsum Hst]).
  exists kg, k', counts. split_and!; try done.
  by rewrite (ka_amps _ _ _ Hk'), (ka_amps _ _ _ Hkg).
Qed.

Lemma ghz_shots_correct_witness :
  ∃ kg k' counts, qcpu_kernel_apply_ghz (Some demo) = Some (QCPU_OK, Some kg) ∧
    qcpu_kernel_run_shots true (Some kg) 10 (Some zero_result) =
      Some (QCPU_OK, Some k', Some {| sr_shots := 10; sr_state_count := 4; sr_counts := Some counts |}) ∧
    sumZ counts = 10.
Proof.
  destruct (ghz_shots_correct 2 (basis 2 0) demo 10 zero_result demo_at ltac:(lia))
    as (kg & k' & counts & Hg & Hrun & _ & _ & Hsum & _).
  exists kg, k', counts. split; [exact Hg|]. split; [exact Hrun|exact Hsum].
Defined.

(** ** The random generator *)

(** [x xor f x] determines [x] when [f] is linear and fixes only 0. *)
Lemma lxor_shift_inj f a b :
  (∀ x y, f (Z.lxor x y) = Z.lxor (f x) (f y)) → (∀ z, 0 <= z → f z = z → z = 0) →
  0 <= a → 0 <= b → Z.lxor a (f a) = Z.lxor b (f b) → a = b.
Proof.
  intros Hlin Hfix Ha Hb Heq. apply Z.lxor_eq, Hfix; [apply Z.lxor_nonneg; lia|].
  rewrite Hlin. apply Z.bits_inj'. intros i Hi. apply (f_equal (λ z, Z.testbit z i)) in Heq.
  rewrite !Z.lxor_spec in *.
  destruct (Z.testbit a i), (Z.testbit b i), (Z.testbit (f a) i), (Z.testbit (f b) i); done.
Qed.

Lemma shiftr_fix n z : 0 < n → 0 <= z → Z.shiftr z n = z → z = 0.
Proof.
  intros Hn Hz. rewrite Z.shiftr_div_pow2 by lia. intros Heq.
  assert (2 <= 2 ^ n) by (change 2 with (2 ^ 1) at 1; apply Z.pow_le_mono_r; lia).
  pose proof (Z.mul_div_le z (2 ^ n) ltac:(lia)). rewrite Heq in *. nia.
Qed.

Lemma shiftl_fix n w z : 0 < n → 0 <= w → wrap w (Z.shiftl z n) = z → z = 0.
Proof.
  intros Hn Hw Heq. apply Z.bits_inj'. intros i Hi. rewrite Z.testbit_0_l.
  revert i Hi. refine (Zlt_0_ind _ _). intros i IH Hi. rewrite <-Heq.
  unfold wrap. rewrite <-Z.land_ones by done. rewrite Z.land_spec, Z.shiftl_spec by done.
  destruct (Z.lt_ge_cases i n); [by rewrite Z.testbit_neg_r by lia|]. by rewrite IH by lia.
Qed.

(** The state after [qcpu_rng_next], as a function of the non-zero state. *)
Definition rng_mix (v : Z) : Z :=
  let v := Z.lxor v (Z.shiftr v 12) in
  let v := Z.lxor v (u64 (Z.shiftl v 25)) in
  Z.lxor v (Z.shiftr v 27).

Lemma rng_mix_inj a b : in_width 64 a → in_width 64 b → rng_mix a = rng_mix b → a = b.
Proof.
  intros Ha Hb Heq.
  assert (Hr : ∀ n v w, 0 < n → in_width 64 v → in_width 64 w →
    Z.lxor v (Z.shiftr v n) = Z.lxor w (Z.shiftr w n) → v = w).
  { intros n v w Hn Hv Hw. apply (lxor_shift_inj (λ z, Z.shiftr z n)); [|by intros; eapply shiftr_fix|apply Hv|apply Hw].
    intros. apply Z.shiftr_lxor. }
  assert (Hl : ∀ v w, in_width 64 v → in_width 64 w →
    Z.lxor v (u64 (Z.shiftl v 25)) = Z.lxor w (u64 (Z.shiftl w 25)) → v = w).
  { intros v w Hv Hw. apply (lxor_shift_inj (λ z, u64 (Z.shiftl z 25))); [|by intros; apply (shiftl_fix 25 64)|apply Hv|apply Hw].
    intros x y. unfold wrap. rewrite <-!Z.land_ones, Z.shiftl_lxor by done.
    apply Z.bits_inj'. intros i Hi. rewrite !Z.land_spec, !Z.lxor_spec, !Z.land_spec.
    by destruct (Z.testbit (Z.shiftl x 25) i), (Z.testbit (Z.shiftl y 25) i), (Z.testbit (Z.ones 64) i). }
  assert (Hw : ∀ v, in_width 64 v → in_width 64 (Z.lxor v (Z.shiftr v 12))).
  { intros. apply lxor_in_width; [done|done|]. by apply shiftr_in_width. }
  apply Hr in Heq; [|done|repeat first [apply lxor_in_width|apply shiftr_in_width|apply wrap_in_width|done]..].
  apply Hl in Heq; [|by apply Hw..]. by apply Hr in Heq.
Qed.

(** Random generator: from a non-zero 64-bit state the next state is a
    non-zero 64-bit number, so the zero state that would fix the xorshift is
    never reached, and distinct states have distinct successors; the values
    used as thresholds lie in [[0, 1)]. *)
Theorem rng_next_correct (k1 k2 : QCPUKernel double) :
  in_width 64 (rng_state k1) → in_width 64 (rng_state k2) → rng_state k1 ≠ 0 → rng_state k2 ≠ 0 →
  let n1 := rng_state (qcpu_rng_next k1).2 in
  let n2 := rng_state (qcpu_rng_next k2).2 in
  in_width 64 n1 ∧ n1 ≠ 0 ∧ (n1 = n2 → rng_state k1 = rng_state k2) ∧
  f_ltb (qcpu_rng_unit k1).1 f_zero = false ∧ f_ltb (qcpu_rng_unit k1).1 f_one = true.
Proof.
  intros H1 H2 Hne1 Hne2.
  assert (∀ k : QCPUKernel double, rng_state k ≠ 0 →
    rng_state (qcpu_rng_next k).2 = rng_mix (rng_state k)) as Hmix.
  { intros k Hk. unfold qcpu_rng_next, rng_mix. simpl. by rewrite (proj2 (Z.eqb_neq _ 0) Hk). }
  cbv zeta. destruct (rng_unit_b64 k1) as [Hlo Hhi]. split_and!; [..|done|done].
  - by apply rng_next_width.
  - rewrite Hmix by done. intros Hz. apply Hne1. by apply (rng_mix_inj _ 0).
  - rewrite !Hmix by done. by apply rng_mix_inj.
Qed.

Lemma rng_next_correct_witness :
  rng_state (qcpu_rng_next demo).2 ≠ 0 ∧ in_width 64 (rng_state (qcpu_rng_next demo).2).
Proof.
  assert (in_width 64 (rng_state demo)) as Hw by (split; simpl; lia).
  destruct (rng_next_correct demo demo Hw Hw ltac:(done) ltac:(done)) as (H1 & H2 & _).
  split; [exact H2|exact H1].
Defined.

(** ** Error branches *)

(** The calls that take a kernel, all refused when it is not ready. *)
Definition refused_all {F} `{FloatOps F} (k : ptr (QCPUKernel F)) : Prop :=
  qcpu_kernel_reset k = Some (QCPU_ERR_ARGUMENT, k) ∧
  qcpu_kernel_apply_ghz k = Some (QCPU_ERR_ARGUMENT, k) ∧
  (∀ q, qcpu_kernel_apply_h k q = Some (QCPU_ERR_ARGUMENT, k) ∧
        qcpu_kernel_apply_x k q = Some (QCPU_ERR_ARGUMENT, k)) ∧
  (∀ c t, qcpu_kernel_apply_cx k c t = Some (QCPU_ERR_ARGUMENT, k)) ∧
  (∀ out, qcpu_kernel_measure k out = Some (QCPU_ERR_ARGUMENT, k, out)) ∧
  (∀ ok s r, qcpu_kernel_run_shots ok k s r = Some (QCPU_ERR_ARGUMENT, k, r)) ∧
  (∀ tol, qcpu_kernel_validate k tol = Some QCPU_ERR_ARGUMENT) ∧
  qcpu_kernel_norm k = Some f_zero.

Lemma not_ready_refused {F} `{FloatOps F} (k : ptr (QCPUKernel F)) :
  qcpu_kernel_ready k = Some false → refused_all k.
Proof.
  intros Hr. unfold refused_all, qcpu_kernel_reset, qcpu_kernel_apply_ghz, qcpu_kernel_apply_h,
    qcpu_kernel_apply_x, qcpu_kernel_apply_cx, qcpu_kernel_measure, qcpu_kernel_run_shots,
    qcpu_kernel_validate, qcpu_kernel_norm. rewrite Hr. by split_and!.
Qed.

(** Kernel errors: initialising outside 1 to 20 qubits is refused and
    leaves the kernel alone; a failed allocation leaves the zeroed kernel; a
    null pointer, a zeroed kernel and a freed kernel are refused by every
    call, which changes nothing. *)
Theorem kernel_errors {F} `{FloatOps F} (k : QCPUKernel F) n seed :
  0 <= n →
  qcpu_kernel_init true NULL n seed = Some (QCPU_ERR_ARGUMENT, NULL) ∧
  (∀ ok, n = 0 ∨ KERNEL_MAX_QUBITS < n → qcpu_kernel_init ok (Some k) n seed = Some (QCPU_ERR_RANGE, Some k)) ∧
  (1 <= n <= KERNEL_MAX_QUBITS →
     qcpu_kernel_init false (Some k) n seed = Some (QCPU_ERR_ALLOC, Some zero_kernel)) ∧
  refused_all (F := F) NULL ∧ refused_all (qcpu_kernel_free (Some k)).
Proof.
  intros Hn. unfold qcpu_kernel_init, KERNEL_MAX_QUBITS, SIZE_MAX_BITS. split_and!.
  - done.
  - intros ok Hr. by assert ((n =? 0) || (20 <? n) || (64 <=? n) = true) as -> by lia.
  - intros Hr. assert ((n =? 0) || (20 <? n) || (64 <=? n) = false) as -> by lia.
    by rewrite c_shl_one by lia.
  - by apply not_ready_refused.
  - by apply not_ready_refused.
Qed.

Lemma kernel_errors_witness :
  qcpu_kernel_init true (Some demo) 21 7 = Some (QCPU_ERR_RANGE, Some demo) ∧
  refused_all (qcpu_kernel_free (Some demo)).
Proof.
  destruct (kernel_errors demo 21 7 ltac:(lia)) as (_ & Hr & _ & _ & Hf).
  split; [apply Hr; right; reflexivity|exact Hf].
Defined.
