(* ===== verification/Daemon.v ===== *)
(** * The device daemon

    [src/device/qcpud.c]: how a request is answered ([process_run_ghz],
    [process_request]) and how a connection is served ([serve_connection]).
    [alloc_k] and [alloc_s] are whether the two allocations of a run succeed
    (the vector and the counters); [kernel], [request] and the wire buffers
    start with the unspecified contents of local variables. The log lines on
    the standard streams are not modelled. *)

From Stdlib Require Import ZArith Lia ZifyBool SpecFloat.
From stdpp Require Import base list numbers relations.
From S2P Require Import Prelude.
From S2P Require Import Sys.
From S2P Require Import Float64.
From S2P Require Import Protocol.
From S2P Require Import Wire.
From S2P Require Import DeviceIO.
From S2P Require Import DeviceIOProps.
From S2P Require Import Gates.
From S2P Require Import Kernel.
From S2P Require Import KernelSpec.
From S2P Require Import GHZ.
Import Device.
Open Scope Z_scope.

Definition device_flags : Z :=
  Z.lor (Z.lor (Z.lor FLAG_SOFTWARE_VIRTUAL_QCPU FLAG_CLASSICAL_HOST) FLAG_PHYSICAL_QPU_ABSENT)
    FLAG_Q0_MOST_SIGNIFICANT.

Definition response_init : Response :=
  {| rsp_magic := RESPONSE_MAGIC; rsp_version := PROTOCOL_VERSION; rsp_status := 0;
     rsp_flags := device_flags; rsp_qubits := 0; rsp_basis_states := 0; rsp_shots := 0;
     rsp_measured_state := 0; rsp_invalid_results := 0; rsp_norm := S754_zero false |}.

(** [response->status = s] *)
Definition with_status (r : Response) (s : Z) : Response :=
  {| rsp_magic := rsp_magic r; rsp_version := rsp_version r; rsp_status := s; rsp_flags := rsp_flags r;
     rsp_qubits := rsp_qubits r; rsp_basis_states := rsp_basis_states r; rsp_shots := rsp_shots r;
     rsp_measured_state := rsp_measured_state r; rsp_invalid_results := rsp_invalid_results r;
     rsp_norm := rsp_norm r |}.

(** One round of the loop that counts the outcomes a GHZ state excludes. *)
Definition invalid_body (counts : list Z) (final_state : Z) (state : nat) (invalid_results : Z) : option Z :=
  if negb (Z.of_nat state =? 0) && negb (Z.of_nat state =? final_state)
  then c ← counts !! state; Some (u64 (invalid_results + c))
  else Some invalid_results.

(** The response [process_run_ghz] leaves; [None] is undefined behaviour. *)
Definition process_run_ghz (alloc_k alloc_s : bool) (kernel : QCPUKernel double) (request : Request)
    (response : Response) : option Response :=
  if (req_qubits request =? 0) || (MAX_QUBITS <? req_qubits request) ||
     (req_shots request =? 0) || (MAX_SHOTS <? req_shots request)
  then Some (with_status response STATUS_RANGE)
  else
    '(kernel_status, kernel) ← qcpu_kernel_init alloc_k (Some kernel) (req_qubits request) (req_seed request);
    if decide (kernel_status ≠ QCPU_OK) then Some (with_status response STATUS_KERNEL) else
    '(kernel_status, kernel) ← qcpu_kernel_apply_ghz kernel;
    kernel_status ← (if decide (kernel_status = QCPU_OK)
                     then qcpu_kernel_validate kernel lit_1em12 else Some kernel_status);
    '(kernel_status, kernel, shot_result) ←
      (if decide (kernel_status = QCPU_OK)
       then qcpu_kernel_run_shots alloc_s kernel (req_shots request) (Some zero_result)
       else Some (kernel_status, kernel, Some zero_result));
    '(kernel_status, kernel, invalid_results, measured_state) ←
      (if decide (kernel_status = QCPU_OK) then
         k ← kernel;
         let final_state := u64 (state_count k - 1) in
         sr ← shot_result;
         counts ← sr_counts sr;
         invalid_results ← for_range (invalid_body counts final_state) 0 (Z.to_nat (sr_state_count sr)) 0;
         '(kernel_status, kernel, measured_state) ← qcpu_kernel_measure kernel (Some 0);
         measured_state ← measured_state;
         Some (kernel_status, kernel, invalid_results, measured_state)
       else Some (kernel_status, kernel, 0, 0));
    if decide (kernel_status ≠ QCPU_OK) then Some (with_status response STATUS_KERNEL) else
    k ← kernel;
    norm ← qcpu_kernel_norm kernel;
    Some {| rsp_magic := rsp_magic response; rsp_version := rsp_version response;
            rsp_status := STATUS_OK; rsp_flags := rsp_flags response;
            rsp_qubits := req_qubits request; rsp_basis_states := state_count k;
            rsp_shots := req_shots request; rsp_measured_state := measured_state;
            rsp_invalid_results := invalid_results; rsp_norm := norm |}.

Definition process_request (alloc_k alloc_s : bool) (kernel : QCPUKernel double) (request : Request)
    : option Response :=
  let response := response_init in
  if req_command request =? COMMAND_STATUS then Some (with_status response STATUS_OK)
  else if req_command request =? COMMAND_RUN_GHZ then process_run_ghz alloc_k alloc_s kernel request response
  else Some (with_status response STATUS_BAD_COMMAND).

(** The response to a request packet: decoding errors become its status. *)
Definition answer_packet (alloc_k alloc_s : bool) (kernel : QCPUKernel double) (request : Request)
    (request_wire : list Z) : option Response :=
  '(protocol_status, request) ←
    qcpu_device_decode_request (Some request) (Some request_wire) (Z.of_nat REQUEST_WIRE_SIZE);
  request ← request;
  if negb (protocol_status =? STATUS_OK)
  then Some (with_status response_init (u16 protocol_status))
  else process_request alloc_k alloc_s kernel request.

Definition serve_connection {S} (fuel : nat) (alloc_k alloc_s : bool) (kernel : QCPUKernel double)
    (request : Request) (request_wire response_wire : list Z) (client_fd : Z) : prog S Z :=
  '(io_status, wire) ←
    qcpu_device_read_all fuel client_fd (Some request_wire) (Z.of_nat REQUEST_WIRE_SIZE) IO_TIMEOUT_MS true;
  if decide (io_status ≠ IO_OK) then mret (-1) else
  wire ← defined wire;
  response ← defined (answer_packet alloc_k alloc_s kernel request wire);
  '(status, out) ← defined (qcpu_device_encode_response (Some response_wire) (Some response));
  if negb (status =? STATUS_OK) then mret (-1) else
  io_status ←
    qcpu_device_write_all fuel client_fd out (Z.of_nat RESPONSE_WIRE_SIZE) IO_TIMEOUT_MS true;
  if decide (io_status ≠ IO_OK) then mret (-1) else mret 0.

(** ** What a run answers *)

(** The loop finds nothing when only the two GHZ outcomes were counted. *)
Lemma invalid_loop_zero n counts :
  Z.of_nat (length counts) = 2 ^ n → 0 <= n < 64 →
  (∀ s c, counts !! s = Some c → c ≠ 0 → Z.of_nat s = 0 ∨ Z.of_nat s = 2 ^ n - 1) →
  for_range (invalid_body counts (u64 (2 ^ n - 1))) 0 (Z.to_nat (2 ^ n)) 0 = Some 0.
Proof.
  intros Hl Hn Hc. assert (0 < 2 ^ n) by (apply Z.pow_pos_nonneg; lia).
  assert (2 ^ n < 2 ^ 64) by (apply Z.pow_lt_mono_r; lia).
  rewrite (wrap_small 64) by (unfold in_width; lia).
  destruct (for_range_inv (λ _ v, v = 0) (invalid_body counts (2 ^ n - 1)) 0 (Z.to_nat (2 ^ n)) 0)
    as (v & -> & ->); [done| |done].
  intros i v Hi ->. unfold invalid_body. destruct (lookup_lt_is_Some_2 counts i ltac:(lia)) as [c Hlook].
  case_tests; [|by eauto]. rewrite Hlook. cbn [mbind option_bind].
  destruct (decide (c = 0)) as [->|Hne]; [eexists; split; [done|]; done|].
  destruct (Hc i c Hlook Hne); unbool; lia.
Qed.

(** The response to a run that succeeds. *)
Definition ghz_response (r0 : Response) (q shots s : Z) : Response :=
  {| rsp_magic := rsp_magic r0; rsp_version := rsp_version r0; rsp_status := STATUS_OK;
     rsp_flags := rsp_flags r0; rsp_qubits := q; rsp_basis_states := 2 ^ q; rsp_shots := shots;
     rsp_measured_state := s; rsp_invalid_results := 0; rsp_norm := f_one |}.

Lemma run_ghz_ok kernel r r0 :
  1 <= req_qubits r <= MAX_QUBITS → 1 <= req_shots r <= MAX_SHOTS → in_width 64 (req_seed r) →
  ∃ s, process_run_ghz true true kernel r r0 = Some (ghz_response r0 (req_qubits r) (req_shots r) s) ∧
    (s = 0 ∨ s = 2 ^ req_qubits r - 1).
Proof.
  unfold MAX_QUBITS, MAX_SHOTS. intros Hq Hs Hseed. unfold process_run_ghz, MAX_QUBITS, MAX_SHOTS.
  set (q := req_qubits r) in *.
  assert ((q =? 0) || (20 <? q) || (req_shots r =? 0) || (100 <? req_shots r) = false) as -> by lia.
  destruct (init_spec kernel q (req_seed r) Hq Hseed) as (k0 & -> & Hk0 & _). cbn [mbind option_bind].
  rewrite decide_False by tauto.
  destruct (apply_ghz_spec q _ k0 Hk0) as (k1 & -> & Hg & _). cbn [mbind option_bind].
  rewrite decide_True, (validate_ghz q k1 Hg) by done. cbn [mbind option_bind]. rewrite decide_True by done.
  destruct Hg as (a1 & Hk1 & Ha1). pose proof (ghz_samples q a1 ltac:(lia) Ha1) as Hsamples.
  destruct (run_shots_spec q a1 k1 (req_shots r) zero_result _ Hk1 ltac:(lia) Hsamples)
    as (k2 & counts & -> & Hk2 & [Hl _ _ Hc]). cbn [mbind option_bind]. rewrite decide_True by done.
  rewrite (ka_states _ _ _ Hk2). cbn [sr_counts sr_state_count mbind option_bind].
  rewrite (invalid_loop_zero q) by (done || lia). cbn [mbind option_bind].
  destruct (measure_spec q a1 k2 0 Hk2) as (s & -> & Hrange & Hk3 & Hloop). cbn [mbind option_bind].
  rewrite decide_False by tauto. rewrite (norm_basis q s) by done. cbn [mbind option_bind].
  exists s. split; [|by eapply Hsamples]. unfold ghz_response. by rewrite (ka_states _ _ _ Hk3).
Qed.

(** Allocation failures. *)
Lemma run_ghz_alloc alloc_k alloc_s kernel r r0 :
  1 <= req_qubits r <= MAX_QUBITS → 1 <= req_shots r <= MAX_SHOTS → in_width 64 (req_seed r) →
  alloc_k && alloc_s = false →
  process_run_ghz alloc_k alloc_s kernel r r0 = Some (with_status r0 STATUS_KERNEL).
Proof.
  unfold MAX_QUBITS, MAX_SHOTS. intros Hq Hs Hseed Halloc. unfold process_run_ghz, MAX_QUBITS, MAX_SHOTS.
  set (q := req_qubits r) in *.
  assert ((q =? 0) || (20 <? q) || (req_shots r =? 0) || (100 <? req_shots r) = false) as -> by lia.
  destruct alloc_k; simpl in Halloc; subst.
  - destruct (init_spec kernel q (req_seed r) Hq Hseed) as (k0 & -> & Hk0 & _). cbn [mbind option_bind].
    rewrite decide_False by tauto.
    destruct (apply_ghz_spec q _ k0 Hk0) as (k1 & -> & Hg & _). cbn [mbind option_bind].
    rewrite decide_True, (validate_ghz q k1 Hg) by done. cbn [mbind option_bind]. rewrite decide_True by done.
    destruct Hg as (a1 & Hk1 & _). unfold qcpu_kernel_run_shots. rewrite (ready_at _ _ _ Hk1).
    cbn [mbind option_bind]. by assert ((req_shots r =? 0) = false) as -> by lia.
  - unfold qcpu_kernel_init, KERNEL_MAX_QUBITS, SIZE_MAX_BITS.
    assert ((q =? 0) || (20 <? q) || (64 <=? q) = false) as -> by lia. by rewrite c_shl_one by lia.
Qed.

Lemma run_ghz_range alloc_k alloc_s kernel r r0 :
  ¬ (1 <= req_qubits r <= MAX_QUBITS ∧ 1 <= req_shots r <= MAX_SHOTS) →
  0 <= req_qubits r → 0 <= req_shots r →
  process_run_ghz alloc_k alloc_s kernel r r0 = Some (with_status r0 STATUS_RANGE).
Proof.
  unfold process_run_ghz, MAX_QUBITS, MAX_SHOTS. intros Hr Hq Hs.
  by assert ((req_qubits r =? 0) || (20 <? req_qubits r) || (req_shots r =? 0) || (100 <? req_shots r) = true)
    as -> by lia.
Qed.

(** ** The contract of the daemon *)

Definition valid_run (q : Request) : Prop :=
  1 <= req_qubits q <= MAX_QUBITS ∧ 1 <= req_shots q <= MAX_SHOTS.

#[global] Instance valid_run_dec q : Decision (valid_run q).
Proof. unfold valid_run. apply _. Defined.

(** The responses the protocol allows to a request; [memory] is whether the
    run got the memory it needs. *)
Inductive answers (memory : bool) (q : Request) : Response → Prop :=
| ans_status :
    req_command q = COMMAND_STATUS → answers memory q (with_status response_init STATUS_OK)
| ans_unknown :
    req_command q ≠ COMMAND_STATUS → req_command q ≠ COMMAND_RUN_GHZ →
    answers memory q (with_status response_init STATUS_BAD_COMMAND)
| ans_range :
    req_command q = COMMAND_RUN_GHZ → ¬ valid_run q → answers memory q (with_status response_init STATUS_RANGE)
| ans_memory :
    req_command q = COMMAND_RUN_GHZ → valid_run q → memory = false →
    answers memory q (with_status response_init STATUS_KERNEL)
| ans_ghz s :
    req_command q = COMMAND_RUN_GHZ → valid_run q → memory = true → s = 0 ∨ s = 2 ^ req_qubits q - 1 →
    answers memory q (ghz_response response_init (req_qubits q) (req_shots q) s).

Lemma answers_wf memory q r : request_wf q → answers memory q r → response_wf r.
Proof.
  unfold request_wf, in_width. intros (_ & _ & _ & Hq & Hs & _) Ha.
  destruct Ha as [_|_ _|_ _|_ _ _|s _ [Hvq Hvs] _ Hst];
    try (unfold response_wf, in_width; simpl;
         unfold RESPONSE_MAGIC, PROTOCOL_VERSION, STATUS_OK, STATUS_BAD_COMMAND, STATUS_RANGE, STATUS_KERNEL;
         split_and!; (lia || done)).
  unfold MAX_QUBITS, MAX_SHOTS in *.
  assert (2 ^ req_qubits q <= 2 ^ 20) by (apply Z.pow_le_mono_r; lia).
  assert (0 < 2 ^ req_qubits q) by (apply Z.pow_pos_nonneg; lia).
  unfold response_wf, in_width; simpl; unfold RESPONSE_MAGIC, PROTOCOL_VERSION, STATUS_OK.
  split_and!; (lia || done).
Qed.

Lemma process_request_ok alloc_k alloc_s kernel q :
  request_wf q →
  ∃ r, process_request alloc_k alloc_s kernel q = Some r ∧ answers (alloc_k && alloc_s) q r.
Proof.
  unfold request_wf, in_width. intros (_ & _ & _ & Hq & Hs & Hseed). unfold process_request.
  destruct (Z.eqb_spec (req_command q) COMMAND_STATUS); [eexists; split; [done|]; by constructor|].
  destruct (Z.eqb_spec (req_command q) COMMAND_RUN_GHZ); [|eexists; split; [done|]; by constructor].
  destruct (decide (valid_run q)) as [Hv|Hv].
  - destruct (alloc_k && alloc_s) eqn:Halloc.
    + apply andb_prop in Halloc as [-> ->]. destruct Hv as [Hvq Hvs].
      destruct (run_ghz_ok kernel q response_init Hvq Hvs Hseed) as (s & -> & Hst).
      eexists. split; [done|]. by apply ans_ghz.
    + rewrite run_ghz_alloc by (done || apply Hv). eexists. split; [done|]. by apply ans_memory.
  - rewrite run_ghz_range by (done || lia). eexists. split; [done|]. by apply ans_range.
Qed.

(** The contract for a packet: a well-formed header is answered as a request,
    any other packet with the status of its header. *)
Definition packet_answers (memory : bool) (wire : list Z) (r : Response) : Prop :=
  let q := request_of_bytes wire in
  let st := header_status REQUEST_MAGIC (req_magic q) (req_version q) in
  if st =? STATUS_OK then answers memory q r else r = with_status response_init st.

Lemma answer_packet_ok alloc_k alloc_s kernel q0 wire :
  bytes wire → length wire = REQUEST_WIRE_SIZE →
  ∃ r, answer_packet alloc_k alloc_s kernel q0 wire = Some r ∧
    packet_answers (alloc_k && alloc_s) wire r ∧ response_wf r.
Proof.
  intros Hb Hl. pose proof (request_of_bytes_wf wire Hb Hl) as Hwf. unfold answer_packet, packet_answers.
  rewrite decode_request_of_bytes by done. cbn [mbind option_bind].
  set (st := header_status _ _ _).
  assert (in_width 16 st) as Hst.
  { unfold st, header_status, in_width, STATUS_BAD_MAGIC, STATUS_BAD_VERSION, STATUS_OK. case_tests; lia. }
  destruct (st =? STATUS_OK); simpl negb; cbv iota.
  - destruct (process_request_ok alloc_k alloc_s kernel _ Hwf) as (r & -> & Ha).
    exists r. split_and!; [done|done|by eapply answers_wf].
  - eexists. split; [done|]. rewrite (wrap_small 16) by done. split; [done|].
    unfold response_wf, with_status, response_init; simpl. split_and!; try done.
Qed.

(** ** Properties *)

(** A run: a request for 1 to 20 qubits and 1 to 100 shots, with any seed,
    is answered OK: the number of basis states is [2^qubits], the measured
    state is all zeros or all ones, no shot gave another state, and the norm
    is exactly 1. *)
Theorem daemon_run_correct kernel q :
  request_wf q → req_command q = COMMAND_RUN_GHZ → valid_run q →
  ∃ r, process_request true true kernel q = Some r ∧
    rsp_magic r = RESPONSE_MAGIC ∧ rsp_version r = PROTOCOL_VERSION ∧ rsp_status r = STATUS_OK ∧
    rsp_flags r = 15 ∧ rsp_qubits r = req_qubits q ∧ rsp_basis_states r = 2 ^ req_qubits q ∧
    rsp_shots r = req_shots q ∧ (rsp_measured_state r = 0 ∨ rsp_measured_state r = 2 ^ req_qubits q - 1) ∧
    rsp_invalid_results r = 0 ∧ rsp_norm r = f_one.
Proof.
  intros (_ & _ & _ & _ & _ & Hseed) Hc [Hvq Hvs]. unfold process_request. rewrite Hc. simpl.
  destruct (run_ghz_ok kernel q response_init Hvq Hvs Hseed) as (s & -> & Hst). eexists. split; [done|].
  by split_and!.
Qed.

Lemma daemon_run_correct_witness :
  ∃ r, process_request true true zero_kernel sample_request = Some r ∧
    rsp_basis_states r = 8 ∧ rsp_invalid_results r = 0 ∧ rsp_norm r = f_one.
Proof.
  destruct (daemon_run_correct zero_kernel sample_request) as (r & Hr & _ & _ & _ & _ & _ & Hb & _ & _ & Hi & Hn).
  - unfold request_wf, in_width, sample_request. simpl. unfold REQUEST_MAGIC, COMMAND_RUN_GHZ. lia.
  - reflexivity.
  - unfold valid_run, MAX_QUBITS, MAX_SHOTS. simpl. lia.
  - exists r. split; [exact Hr|]. split; [exact Hb|]. split; [exact Hi|exact Hn].
Defined.

(** C4 (refinement): the daemon answers every 24-byte packet, whatever it
    contains and whether or not memory is available, with a response the
    contract allows, whose fields fit the wire format. *)
Theorem daemon_refines_contract alloc_k alloc_s kernel q0 wire :
  bytes wire → length wire = REQUEST_WIRE_SIZE →
  ∃ r, answer_packet alloc_k alloc_s kernel q0 wire = Some r ∧
    packet_answers (alloc_k && alloc_s) wire r ∧ response_wf r.
Proof. apply answer_packet_ok. Qed.

Lemma daemon_refines_contract_witness :
  ∃ r, answer_packet true false zero_kernel sample_request (request_layout sample_request) = Some r ∧
    packet_answers false (request_layout sample_request) r.
Proof.
  destruct (daemon_refines_contract true false zero_kernel sample_request (request_layout sample_request))
    as (r & Hr & Hp & _).
  - apply request_layout_bytes.
  - reflexivity.
  - exists r. split; [exact Hr|exact Hp].
Defined.

(** ** Serving a connection *)

Section Serve.
Context {W : Type} `{OS W} (fd : Z) (memory : bool) (r0 s0 : list Z).

(** What a served connection leaves on its two streams. *)
Definition served (res : Z) (w : W) : Prop :=
  ∃ packet r, length packet = REQUEST_WIRE_SIZE ∧ bytes packet ∧ recvd w fd = r0 ++ packet ∧
    packet_answers memory packet r ∧ response_wf r ∧
    ((res = 0 ∧ sent w fd = s0 ++ response_layout r) ∨
     (res = -1 ∧ ∃ n, sent w fd = s0 ++ take n (response_layout r))).

(** A connection given up before an answer was written. *)
Definition dropped (res : Z) (w : W) : Prop :=
  res = -1 ∧ sent w fd = s0 ∧ ∃ got, recvd w fd = r0 ++ got.

Context (spin_ok : Prop) (max_timeout max_size : Z) (enough : nat → W → Prop).
Context (Htimeout : IO_TIMEOUT_MS <= max_timeout) (Hsize : Z.of_nat RESPONSE_WIRE_SIZE <= max_size).
Context (HF : fuel_law (S := ()) alone spin_ok max_timeout max_size enough).
Abbreviation wp1 := (wp (S := ()) alone no_inv spin_ok).

Lemma wp_serve fuel alloc_k alloc_s kernel q0 request_wire response_wire w :
  memory = alloc_k && alloc_s →
  length request_wire = REQUEST_WIRE_SIZE → length response_wire = RESPONSE_WIRE_SIZE →
  recvd w fd = r0 → sent w fd = s0 → enough fuel w →
  wp1 (serve_connection fuel alloc_k alloc_s kernel q0 request_wire response_wire fd)
    (λ res _ w, served res w ∨ dropped res w) tt w.
Proof.
  intros Hmem Hin Hout Hr Hs Hn. unfold serve_connection. apply wp_bind.
  eapply wp_mono; [eapply (wp_read_all alone no_inv spin_ok max_timeout max_size enough HF
    (fueled enough fuel (λ _ w, sent w fd = s0)) fd fuel request_wire (Z.of_nat REQUEST_WIRE_SIZE) IO_TIMEOUT_MS true r0)|].
  { apply alone_keeps. }
  { eapply fueled_stable; [exact HF|]. apply alone_stable. intros X c s w1 x w2 Hc Hos <-.
    eapply os_frame_sent; [done|]. by destruct c. }
  { done. }
  { rewrite Hin. lia. }
  { unfold REQUEST_WIRE_SIZE, RESPONSE_WIRE_SIZE in *. lia. }
  { done. }
  intros [st b] [] w1 _ (buf & Hb & [Hs1 Hn1] & got & Hbytes & Hr1 & Hbuf & _ & Hok & _). cbn [fst snd] in *. subst b.
  case_decide as Hst; [apply wp_ret; [done|]; right; split; [done|]; split; [done|]; by exists got|].
  assert (st = IO_OK) as -> by (by destruct st; try (exfalso; apply Hst)). specialize (Hok eq_refl).
  rewrite inserts_all in Hbuf by lia. subst buf. assert (length got = REQUEST_WIRE_SIZE) as Hlen by lia.
  apply wp_bind, wp_ret; [done|].
  destruct (answer_packet_ok alloc_k alloc_s kernel q0 got Hbytes Hlen) as (r & -> & Hans & Hwf).
  apply wp_bind, wp_ret; [done|]. cbv beta. rewrite encode_response_layout by done. apply wp_bind, wp_ret; [done|]. cbv beta.
  simpl negb. cbv iota. apply wp_bind.
  eapply wp_mono; [eapply (wp_write_all alone no_inv spin_ok max_timeout max_size enough HF
    (λ _ w, recvd w fd = r0 ++ got) fd fuel (response_layout r) (Z.of_nat RESPONSE_WIRE_SIZE)
    IO_TIMEOUT_MS true s0)|].
  { apply alone_keeps. }
  { apply alone_stable. intros X c s w2 x w3 Hc Hos <-. eapply os_frame_recvd; [done|]. by destruct c. }
  { done. }
  { simpl. unfold RESPONSE_WIRE_SIZE. lia. }
  { done. }
  { done. }
  intros st [] w2 _ (Hr2 & n & Hs2 & _ & Hok2 & _). rewrite drop_0 in Hs2.
  case_decide as Hst2; apply wp_ret; try done; left; exists got, r; subst memory; split_and!; try done.
  - right. split; [done|]. by exists n.
  - left. split; [done|]. assert (st = IO_OK) as -> by (by destruct st; try (exfalso; apply Hst2)).
    specialize (Hok2 eq_refl). rewrite Hs2. f_equal. apply take_ge.
    change (length (response_layout r)) with RESPONSE_WIRE_SIZE. lia.
Qed.
End Serve.

(** C5 (a connection): for every operating system, serving a connection never
    runs into undefined behaviour, and when it returns 0 it has read exactly
    one 24-byte packet from the client and written exactly one 56-byte
    response to it, one the contract allows for that packet; when it returns
    -1 it has written at most a prefix of such a response. *)
Theorem serve_connection_correct {W} `{OS W} fuel alloc_k alloc_s kernel q0 request_wire response_wire fd
    (w w' : W) p' :
  length request_wire = REQUEST_WIRE_SIZE → length response_wire = RESPONSE_WIRE_SIZE →
  rtc (step alone)
    (serve_connection fuel alloc_k alloc_s kernel q0 request_wire response_wire fd, tt, w) (p', tt, w') →
  p' ≠ Undefined ∧
  ∀ res, p' = Ret res →
    served fd (alloc_k && alloc_s) (recvd w fd) (sent w fd) res w' ∨
    dropped fd (recvd w fd) (sent w fd) res w'.
Proof.
  intros Hin Hout Hsteps. destruct (alone_sound True _ _ _ _ _ _ _
    (wp_serve fd _ _ _ True INT_MAX (Z.of_nat RESPONSE_WIRE_SIZE) (λ _ _, True) ltac:(done) ltac:(done) (fuel_law_any _ _ _ I) fuel alloc_k alloc_s kernel q0 request_wire
       response_wire w eq_refl Hin Hout eq_refl eq_refl I) Hsteps) as (Hu & _ & Hret). by split.
Qed.

(** A connection ends: when every call is answered and takes time, the clock
    shows the time and signals interrupt finitely often ([timely]), the rounds of
    one operation suffice for serving a connection: along every execution it can
    go on to return. *)
Theorem serve_connection_terminates {W} `{OS W} (now : W → Z) (interrupts : W → nat) fuel alloc_k alloc_s kernel q0
    request_wire response_wire fd (w : W) :
  responsive (W := W) → timely now interrupts →
  (rounds (interrupts w) IO_TIMEOUT_MS (Z.of_nat RESPONSE_WIRE_SIZE) <= fuel)%nat →
  length request_wire = REQUEST_WIRE_SIZE → length response_wire = RESPONSE_WIRE_SIZE →
  always_returns alone (serve_connection fuel alloc_k alloc_s kernel q0 request_wire response_wire fd) tt w.
Proof.
  intros Hos Htime Hfuel Hin Hout. eapply (alone_returns _ _ _ Hos).
  by apply (wp_serve fd (alloc_k && alloc_s) (recvd w fd) (sent w fd) False IO_TIMEOUT_MS (Z.of_nat RESPONSE_WIRE_SIZE) _
    ltac:(done) ltac:(done) (alone_fuel now interrupts IO_TIMEOUT_MS (Z.of_nat RESPONSE_WIRE_SIZE) Htime ltac:(done))).
Qed.

(** A client that sends the sample request in two parts. *)
Definition client_world : sworld := {|
  sw_clock := replicate 9 (Some (5, 0));
  sw_stop := [];
  sw_poll := [];
  sw_read := [RData (take 10 (request_layout sample_request)); RData (drop 10 (request_layout sample_request))];
  sw_send := [WCount 30; WCount 30];
  sw_socket := [];
  sw_connect := [];
  sw_recvd := ∅;
  sw_sent := ∅;
  sw_open := {[7]}
|}.

Definition serve_demo : prog () Z :=
  serve_connection 40 true true zero_kernel sample_request (replicate 24 0) (replicate 56 0) 7.

Lemma serve_connection_correct_witness :
  served 7 true [] [] 0 (world_after (run serve_demo tt client_world)).
Proof.
  assert (run serve_demo tt client_world = Done (0, tt, world_after (run serve_demo tt client_world))) as Hrun
    by (vm_compute; reflexivity).
  apply run_steps in Hrun.
  destruct (serve_connection_correct 40 true true zero_kernel sample_request (replicate 24 0) (replicate 56 0) 7
    _ _ _ eq_refl eq_refl Hrun) as (_ & Hret).
  destruct (Hret 0 eq_refl) as [Hs|[Hd _]]; [exact Hs|discriminate Hd].
Defined.

Lemma serve_connection_terminates_witness :
  ∃ a s1 w1, rtc (step alone)
    (serve_connection (rounds 0 2000 56) true true zero_kernel sample_request (replicate 24 0) (replicate 56 0) 7, tt,
     (client_world, 5000000000)) (Ret a, s1, w1).
Proof.
  destruct (serve_connection_terminates snd script_interrupts (rounds 0 2000 56) true true zero_kernel sample_request
    (replicate 24 0) (replicate 56 0) 7 (client_world, 5000000000) clocked_responsive script_timely (Nat.le_refl _)
    eq_refl eq_refl _ _ _ (rtc_refl _ _)) as (_ & _ & Hret). exact Hret.
Defined.
