(* ===== verification/NormFixed.v ===== *)
(** * The norm as a fixed-point number

    [qcpu_mock_norm_to_q32_32] of [src/device/qcpu_mock_frontend.c]: a [double]
    in [[0, 1 + 2^-40]] as an unsigned Q32.32 number, computed in [long double].
    A [long double] is the 80-bit extended format (64-bit significand). *)

From Stdlib Require Import ZArith Lia ZifyBool SpecFloat.
From stdpp Require Import base list numbers.
From S2P Require Import Prelude.
From S2P Require Import Sys.
From S2P Require Import Float64.
Open Scope Z_scope.

(** ** Extended precision *)

Definition long_double := spec_float.
Definition ld_add : long_double → long_double → long_double := SFadd 64 16384.
Definition ld_mul : long_double → long_double → long_double := SFmul 64 16384.
Definition ld_of_Z (z : Z) : long_double := binary_normalize 64 16384 z 0 false.
(** [0.5L] *)
Definition ld_half : long_double := binary_normalize 64 16384 1 (-1) false.

(** The exact conversion of a [double]. *)
Definition ld_of_double (x : double) : long_double :=
  match x with
  | S754_finite s m e => binary_normalize 64 16384 (cond_Zopp s (Zpos m)) e s
  | _ => x
  end.

(** The largest integer not above a finite number. *)
Definition ld_floor_Z (x : long_double) : Z :=
  match x with
  | S754_finite s m e => Z.shiftl (cond_Zopp s (Zpos m)) e
  | _ => 0
  end.

Definition floorl (x : long_double) : long_double :=
  match x with
  | S754_finite s m e => if 0 <=? e then x else binary_normalize 64 16384 (ld_floor_Z x) 0 s
  | _ => x
  end.

(** [(uint64_t)x] for a non-negative integral value in range. *)
Definition ld_to_u64 (x : long_double) : Z := u64 (ld_floor_Z x).

(** ** The conversion *)

Definition tolerance : double := S754_finite false 4503599627370496 (-92).

(** [inl q] is 0 with [*out = q]; [inr e] is -1 with [errno = e]. *)
Definition qcpu_mock_norm_to_q32_32 (norm : double) (out : ptr Z) : Z + Z :=
  match out with
  | None => inr EINVAL
  | Some _ =>
      if negb (f_isfinite norm) || f_ltb norm f_zero then inr ERANGE
      else if f_ltb (f_add f_one tolerance) norm then inr ERANGE
      else
        let clamped := if f_ltb f_one norm then ld_of_Z 1 else ld_of_double norm in
        let scaled := ld_mul clamped (ld_of_Z 4294967296) in
        let rounded := floorl (ld_add scaled ld_half) in
        if SFltb rounded (ld_of_Z 0) || SFltb (ld_of_Z 4294967296) rounded then inr ERANGE
        else inl (ld_to_u64 rounded)
  end.

Example q32_one : qcpu_mock_norm_to_q32_32 f_one (Some 0) = inl (2 ^ 32).
Proof. reflexivity. Qed.
Example q32_zero : qcpu_mock_norm_to_q32_32 f_zero (Some 0) = inl 0.
Proof. reflexivity. Qed.
Example q32_half : qcpu_mock_norm_to_q32_32 (f_div f_one (f_of_Z 2)) (Some 0) = inl (2 ^ 31).
Proof. reflexivity. Qed.
(** Just above 1, within the tolerance: clamped. *)
Example q32_above : qcpu_mock_norm_to_q32_32 (S754_finite false 4503599627370497 (-52)) (Some 0) = inl (2 ^ 32).
Proof. reflexivity. Qed.
(** The smallest subnormal. *)
Example q32_tiny : qcpu_mock_norm_to_q32_32 (S754_finite false 1 (-1074)) (Some 0) = inl 0.
Proof. reflexivity. Qed.
(** Half a unit rounds up, just less rounds down. *)
Example q32_ulp : qcpu_mock_norm_to_q32_32 (f_div f_one (f_of_Z (2 ^ 33))) (Some 0) = inl 1.
Proof. reflexivity. Qed.
Example q32_below_ulp :
  qcpu_mock_norm_to_q32_32 (S754_finite false 9007199254740991 (-86)) (Some 0) = inl 0.
Proof. reflexivity. Qed.
