(* ===== verification/Adapter.v ===== *)
(** * The daemon adapter

    [src/device/qcpu_qcpud_adapter.c]: a back end of the v4.7 front end that
    forwards an exchange to the v4.6 daemon over a Unix socket, and can be
    canceled from another thread.

    The mutable fields of [struct qcpu_qcpud_adapter] are [adapter] (the socket
    path never changes); [mutex] says who holds its mutex. [qcpu_qcpud_exchange]
    is a program of the exchanging thread; [qcpu_qcpud_cancel] runs in other
    threads, one micro-step ([cancel_step]) at a time. A section of the
    exchange that only updates the fields is one atomic step, enabled when the
    mutex is free; the section of [qcpu_adapter_register_fd] also calls
    [shutdown] and is a lock step, the call and an unlock step. *)

From Stdlib Require Import ZArith Lia ZifyBool SpecFloat.
From stdpp Require Import base list numbers relations.
From S2P Require Import Prelude.
From S2P Require Import Sys.
From S2P Require Import Float64.
From S2P Require Import Protocol.
From S2P Require Import Wire.
From S2P Require Import DeviceIO.
From S2P Require Import NormFixed.
Open Scope Z_scope.

(** ** State *)

Record adapter := {
  active_fd : Z;
  active : bool;
  cancel_requested : bool
}.

(** Who holds the mutex: nobody, the exchanging thread, a canceling thread
    about to shut a descriptor down, or one about to unlock. *)
Inductive mutex_holder :=
| Free
| Exchanging
| CancelShut (fd : Z)
| CancelUnlock.

Record ashared := {
  ad : adapter;
  mutex : mutex_holder
}.

(** A critical section: enabled when the mutex is free. *)
Definition locked {X : Set} (f : adapter → X * adapter) (s : ashared) : option (X * ashared) :=
  match mutex s with
  | Free => let '(x, a) := f (ad s) in Some (x, {| ad := a; mutex := Free |})
  | _ => None
  end.

(** ** Sections *)

Definition qcpu_adapter_is_canceled : ashared → option (bool * ashared) :=
  locked (λ a, (cancel_requested a, a)).

Definition qcpu_adapter_begin : ashared → option (Z * ashared) :=
  locked (λ a,
    if active a then (- EBUSY, a)
    else (0, {| active := true; cancel_requested := false; active_fd := -1 |})).

Definition register_lock (fd : Z) (s : ashared) : option (bool * ashared) :=
  match mutex s with
  | Free =>
      Some (cancel_requested (ad s),
            {| ad := {| active_fd := fd; active := active (ad s); cancel_requested := cancel_requested (ad s) |};
               mutex := Exchanging |})
  | _ => None
  end.

Definition register_unlock (s : ashared) : option (unit * ashared) :=
  Some (tt, {| ad := ad s; mutex := Free |}).

Definition qcpu_adapter_register_fd (fd : Z) : prog ashared bool :=
  canceled ← crit (register_lock fd);
  _ ← (if canceled : bool then call (Shutdown fd SHUT_RDWR) else mret true);
  _ ← crit register_unlock;
  mret canceled.

Definition finish_section : ashared → option (bool * ashared) :=
  locked (λ a, (cancel_requested a, {| active_fd := -1; active := false; cancel_requested := false |})).

Definition qcpu_adapter_finish (fd result : Z) : prog ashared Z :=
  canceled ← crit finish_section;
  _ ← (if 0 <=? fd then call (Close fd) else mret 0);
  mret (if canceled : bool then - ECANCELED else result).

(** ** Time *)

Definition qcpu_adapter_now_ns {S} : prog S Z :=
  now ← call Clock;
  match now with
  | inr _ => mret UINT64_MAX
  | inl (tv_sec, tv_nsec) => mret (u64 (u64 (u64 tv_sec * 1000000000) + u64 tv_nsec))
  end.

(** The milliseconds left, rounded up and clamped to [INT_MAX]; 0 when the
    deadline has passed or the clock fails. *)
Definition ms_left (absolute_deadline_ns now_ns : Z) : Z :=
  if (now_ns =? UINT64_MAX) || (absolute_deadline_ns <=? now_ns) then 0
  else
    let remaining_ns := u64 (absolute_deadline_ns - now_ns) in
    let remaining_ms := remaining_ns / 1000000 in
    let remaining_ms := if negb (remaining_ns mod 1000000 =? 0) then u64 (remaining_ms + 1) else remaining_ms in
    if INT_MAX <? remaining_ms then INT_MAX else remaining_ms.

Definition qcpu_adapter_remaining_ms {S} (absolute_deadline_ns : Z) : prog S Z :=
  now_ns ← qcpu_adapter_now_ns;
  mret (ms_left absolute_deadline_ns now_ns).

(** ** Translation between the two protocols *)

Definition qcpu_adapter_status (status : Z) : Z :=
  if status =? Device.STATUS_OK then Uapi.STATUS_OK
  else if status =? Device.STATUS_BAD_MAGIC then Uapi.STATUS_BAD_MAGIC
  else if status =? Device.STATUS_BAD_VERSION then Uapi.STATUS_BAD_VERSION
  else if status =? Device.STATUS_BAD_COMMAND then Uapi.STATUS_BAD_COMMAND
  else if status =? Device.STATUS_RANGE then Uapi.STATUS_RANGE
  else if status =? Device.STATUS_KERNEL then Uapi.STATUS_KERNEL
  else if status =? Device.STATUS_IO then Uapi.STATUS_IO
  else Uapi.STATUS_IO.

Definition qcpu_adapter_status_result (status : Z) : Z :=
  if status =? Uapi.STATUS_OK then 0
  else if status =? Uapi.STATUS_BAD_MAGIC then - EPROTO
  else if status =? Uapi.STATUS_BAD_VERSION then - EPROTONOSUPPORT
  else if status =? Uapi.STATUS_BAD_COMMAND then - EOPNOTSUPP
  else if status =? Uapi.STATUS_RANGE then - ERANGE
  else - EIO.

Definition qcpu_adapter_flags (flags : Z) : Z :=
  let translated := 0 in
  let translated := if negb (Z.land flags Device.FLAG_SOFTWARE_VIRTUAL_QCPU =? 0)
    then Z.lor translated Uapi.FLAG_SOFTWARE_VIRTUAL_QCPU else translated in
  let translated := if negb (Z.land flags Device.FLAG_CLASSICAL_HOST =? 0)
    then Z.lor translated Uapi.FLAG_CLASSICAL_HOST else translated in
  let translated := if negb (Z.land flags Device.FLAG_PHYSICAL_QPU_ABSENT =? 0)
    then Z.lor translated Uapi.FLAG_PHYSICAL_QPU_ABSENT else translated in
  if negb (Z.land flags Device.FLAG_Q0_MOST_SIGNIFICANT =? 0)
  then Z.lor translated Uapi.FLAG_Q0_MOST_SIGNIFICANT else translated.

(** [inl r] is 0 with the translated request; [inr e] is the result [e]. *)
Definition qcpu_adapter_translate_request (request : Uapi.request_v1) : Device.Request + Z :=
  let build command :=
    {| Device.req_magic := Device.REQUEST_MAGIC; Device.req_version := Device.PROTOCOL_VERSION;
       Device.req_command := command; Device.req_qubits := Uapi.ureq_qubits request;
       Device.req_shots := Uapi.ureq_shots request; Device.req_seed := Uapi.ureq_seed request |} in
  if Uapi.ureq_command request =? Uapi.COMMAND_STATUS then inl (build Device.COMMAND_STATUS)
  else if Uapi.ureq_command request =? Uapi.COMMAND_RUN_GHZ then inl (build Device.COMMAND_RUN_GHZ)
  else inr (- EOPNOTSUPP).

(** The result and the translated response. *)
Definition qcpu_adapter_translate_response (source : Device.Response) : Z * Uapi.response_v1 :=
  let build status norm :=
    {| Uapi.ursp_magic := Uapi.RESPONSE_MAGIC; Uapi.ursp_version := Uapi.PROTOCOL_VERSION;
       Uapi.ursp_status := status; Uapi.ursp_flags := qcpu_adapter_flags (Device.rsp_flags source);
       Uapi.ursp_qubits := Device.rsp_qubits source;
       Uapi.ursp_basis_states := Device.rsp_basis_states source;
       Uapi.ursp_shots := Device.rsp_shots source;
       Uapi.ursp_measured_state := Device.rsp_measured_state source;
       Uapi.ursp_invalid_results := Device.rsp_invalid_results source;
       Uapi.ursp_norm_q32_32 := norm |} in
  match qcpu_mock_norm_to_q32_32 (Device.rsp_norm source) (Some 0) with
  | inr _ => (- EIO, build Uapi.STATUS_KERNEL 0)
  | inl norm_q32_32 =>
      let status := qcpu_adapter_status (Device.rsp_status source) in
      (qcpu_adapter_status_result status, build status norm_q32_32)
  end.

Definition qcpu_adapter_io_result (io_status : QCPUDeviceIOStatus) : prog ashared Z :=
  canceled ← crit qcpu_adapter_is_canceled;
  mret (if canceled : bool then - ECANCELED
        else if decide (io_status = IO_TIMEOUT) then - ETIMEDOUT else - EIO).

(** ** The exchange *)

(** [finish], keeping the response. *)
Definition finish_with (fd result : Z) (response : Uapi.response_v1) : prog ashared (Z * ptr Uapi.response_v1) :=
  r ← qcpu_adapter_finish fd result; mret (r, Some response).

(** From the registered descriptor on: write the request, shut the write side
    down, read and translate the response. [junk] is what the local variables
    hold before they are assigned. *)
Definition exchange_on (fuel : nat) (junk : Device.Response) (response_wire : list Z) (fd : Z)
    (request_wire : list Z) (absolute_deadline_ns : Z) (response : Uapi.response_v1)
    : prog ashared (Z * ptr Uapi.response_v1) :=
  timeout_ms ← qcpu_adapter_remaining_ms absolute_deadline_ns;
  if timeout_ms <=? 0 then finish_with fd (- ETIMEDOUT) response else
  io_status ← qcpu_device_write_all fuel fd (Some request_wire) (Z.of_nat REQUEST_WIRE_SIZE) timeout_ms false;
  if decide (io_status ≠ IO_OK) then
    result ← qcpu_adapter_io_result io_status; finish_with fd result response else
  shut ← call (Shutdown fd SHUT_WR);
  if negb shut then
    canceled ← crit qcpu_adapter_is_canceled;
    finish_with fd (if canceled : bool then - ECANCELED else - EIO) response else
  timeout_ms ← qcpu_adapter_remaining_ms absolute_deadline_ns;
  if timeout_ms <=? 0 then finish_with fd (- ETIMEDOUT) response else
  '(io_status, wire) ←
    qcpu_device_read_all fuel fd (Some response_wire) (Z.of_nat RESPONSE_WIRE_SIZE) timeout_ms false;
  if decide (io_status ≠ IO_OK) then
    result ← qcpu_adapter_io_result io_status; finish_with fd result response else
  '(status, translated_response) ←
    defined (qcpu_device_decode_response (Some junk) wire (Z.of_nat RESPONSE_WIRE_SIZE));
  if negb (status =? Device.STATUS_OK) then finish_with fd (- EIO) response else
  translated_response ← defined translated_response;
  let '(result, response) := qcpu_adapter_translate_response translated_response in
  finish_with fd result response.

(** [context] is the adapter, by its socket path; the result comes with the
    contents of [*response]. *)
Definition qcpu_qcpud_exchange (fuel : nat) (errno : Z) (junk : Device.Response)
    (request_wire response_wire : list Z) (context : ptr (list Z)) (request : ptr Uapi.request_v1)
    (absolute_deadline_ns : Z) (response : ptr Uapi.response_v1)
    : prog ashared (Z * ptr Uapi.response_v1) :=
  match context, request, response with
  | Some socket_path, Some request, Some _ =>
      let response := Uapi.zero_response in
      result ← crit qcpu_adapter_begin;
      if negb (result =? 0) then mret (result, Some response) else
      match qcpu_adapter_translate_request request with
      | inr result => finish_with (-1) result response
      | inl translated_request =>
          '(status, wire) ← defined (qcpu_device_encode_request (Some request_wire) (Some translated_request));
          if negb (status =? Device.STATUS_OK) then finish_with (-1) (- EIO) response else
          wire ← defined wire;
          timeout_ms ← qcpu_adapter_remaining_ms absolute_deadline_ns;
          if timeout_ms <=? 0 then finish_with (-1) (- ETIMEDOUT) response else
          '(fd, errno) ← qcpu_device_connect_unix fuel errno (Some socket_path) timeout_ms;
          if fd <? 0 then
            finish_with (-1)
              (if fd =? io_status_value IO_TIMEOUT then - ETIMEDOUT
               else if (errno =? ENOENT) || (errno =? ECONNREFUSED) then - ENODEV else - EIO) response
          else
            canceled ← qcpu_adapter_register_fd fd;
            if canceled : bool then finish_with fd (- ECANCELED) response
            else exchange_on fuel junk response_wire fd wire absolute_deadline_ns response
      end
  | _, _, _ => mret (- EINVAL, response)
  end.

(** ** Cancellation from another thread *)

(** The body of the section: the request is recorded when an exchange is
    active, and its descriptor, if it has one, is to be shut down. *)
Definition cancel_mark (a : adapter) : adapter :=
  if active a then {| active_fd := active_fd a; active := active a; cancel_requested := true |} else a.

Definition cancel_next (a : adapter) : mutex_holder :=
  if active a && (0 <=? active_fd a) then CancelShut (active_fd a) else CancelUnlock.

Definition cancel_lock (s : ashared) : option (option Z * ashared) :=
  match mutex s with
  | Free =>
      Some (match cancel_next (ad s) with CancelShut fd => Some fd | _ => None end,
            {| ad := cancel_mark (ad s); mutex := cancel_next (ad s) |})
  | _ => None
  end.

Definition cancel_unlock (s : ashared) : option (unit * ashared) :=
  Some (tt, {| ad := ad s; mutex := Free |}).

Definition qcpu_qcpud_cancel (context : ptr (list Z)) : prog ashared Z :=
  match context with
  | None => mret (- EINVAL)
  | Some _ =>
      fd ← crit cancel_lock;
      _ ← (match fd with Some fd => call (Shutdown fd SHUT_RDWR) | None => mret true end);
      _ ← crit cancel_unlock;
      mret 0
  end.

Section Cancel.
(** What the threads that do not use the adapter may do. *)
Context {W : Type} `{OS W} (other : W → W → Prop).

(** One step of [qcpu_qcpud_cancel] in some thread: its first section, its
    [shutdown] (the mutex is then held, with the descriptor to shut down), its
    unlock; or a step of a thread that does not use the adapter, which may open
    descriptors and use those it opened. *)
Inductive cancel_step : ashared * W → ashared * W → Prop :=
| cs_lock s w x s' :
    cancel_lock s = Some (x, s') → cancel_step (s, w) (s', w)
| cs_shutdown s fd w ok w' :
    mutex s = CancelShut fd → os_step (Shutdown fd SHUT_RDWR) w ok w' → cancel_step (s, w) (s, w')
| cs_unlock s w x s' :
    mutex s ≠ Free → mutex s ≠ Exchanging → cancel_unlock s = Some (x, s') → cancel_step (s, w) (s', w)
| cs_other s w w' :
    other w w' → (∀ fd, fd_open w fd → fd_open w' fd ∧ recvd w' fd = recvd w fd ∧ sent w' fd = sent w fd) →
    cancel_step (s, w) (s, w').

Definition cancels : ashared * W → ashared * W → Prop := rtc cancel_step.
End Cancel.

(** ** Creation and destruction *)

(** [qcpu_qcpud_adapter_create]: the adapter and its path, or the error.
    [inr None] is the failure of [calloc], whose errno the function keeps. *)
Definition qcpu_qcpud_adapter_create (alloc_ok : bool) (mutex_result : Z) (out_present : bool)
    (socket_path : ptr (list Z)) : (list Z * adapter) + option Z :=
  match out_present, socket_path with
  | true, Some (c :: path') =>
      let path := c :: path' in
      if SUN_PATH_SIZE <=? Z.of_nat (length path) then inr (Some ENAMETOOLONG)
      else if negb alloc_ok then inr None
      else if negb (mutex_result =? 0) then inr (Some mutex_result)
      else inl (path, {| active_fd := -1; active := false; cancel_requested := false |})
  | _, _ => inr (Some EINVAL)
  end.

(** [qcpu_qcpud_adapter_destroy]: 0, or the error. *)
Definition qcpu_qcpud_adapter_destroy (mutex_result : Z) (a : ptr adapter) : Z :=
  match a with
  | None => EINVAL
  | Some a => if active a then EBUSY else mutex_result
  end.
