(* ===== verification/AdapterProps.v ===== *)
(** * Properties of the adapter

    The exchange among canceling threads: along every interleaving a
    [shutdown] by a canceling thread hits the descriptor of the running
    exchange while it is open, no undefined behaviour is reached, and the
    result is what the streams say; the translation of the two protocols and
    the arithmetic of the deadline. *)

From Stdlib Require Import ZArith Lia ZifyBool SpecFloat.
From stdpp Require Import base list numbers relations gmap.
From S2P Require Import Prelude.
From S2P Require Import Sys.
From S2P Require Import Float64.
From S2P Require Import Protocol.
From S2P Require Import Wire.
From S2P Require Import DeviceIO.
From S2P Require Import DeviceIOProps.
From S2P Require Import NormFixed.
From S2P Require Import Adapter.
Open Scope Z_scope.

(** ** The invariant *)

Section Inv.
Context {W : Type} `{OS W} {other : W → W → Prop}.
Abbreviation cancel_step := (cancel_step other).
Abbreviation cancels := (cancels other).

(** A published descriptor belongs to the active exchange and is open; a
    canceling thread about to call [shutdown] holds the published descriptor;
    an idle adapter is reset. *)
Record adapter_inv (s : ashared) (w : W) : Prop := {
  ai_fd : 0 <= active_fd (ad s) → active (ad s) = true ∧ fd_open w (active_fd (ad s));
  ai_idle : active (ad s) = false → active_fd (ad s) = -1 ∧ cancel_requested (ad s) = false;
  ai_shut fd : mutex s = CancelShut fd → fd = active_fd (ad s) ∧ 0 <= fd
}.

(** The published descriptor and whether an exchange is active. *)
Definition same_exchange (s s' : ashared) : Prop :=
  active_fd (ad s') = active_fd (ad s) ∧ active (ad s') = active (ad s) ∧
  (cancel_requested (ad s) = true → cancel_requested (ad s') = true) ∧
  (active (ad s) = false → ad s' = ad s).

(** A canceling thread keeps the invariant, changes only the request flag of
    an active exchange, never takes the mutex from the exchanging thread, and
    leaves open descriptors and their streams alone. *)
Lemma cancel_step_keeps s w s' w' :
  cancel_step (s, w) (s', w') → adapter_inv s w →
  adapter_inv s' w' ∧ same_exchange s s' ∧
  (mutex s = Exchanging → s' = s) ∧ (mutex s ≠ Exchanging → mutex s' ≠ Exchanging) ∧
  ∀ fd, fd_open w fd → fd_open w' fd ∧ recvd w' fd = recvd w fd ∧ sent w' fd = sent w fd.
Proof.
  intros Hstep [Hfd Hidle Hshut]. inversion Hstep as [? ? x ? Hl|? fd ? ok ? Hm Hos|? ? x ? Hf He Hu|? ? ? _ Hother]; subst.
  - unfold cancel_lock in Hl. destruct s as [[fd act req] []]; simplify_eq/=. unfold cancel_mark, cancel_next, same_exchange in *.
    destruct act; simpl in *.
    + split_and!; try done; [split; simpl; [exact Hfd|done|]|by destruct (0 <=? fd)].
      intros fd'. destruct (Z.leb_spec 0 fd); [by intros [= ->]|done].
    + by split_and!.
  - assert (∀ fd', fd_open w fd' → fd_open w' fd' ∧ recvd w' fd' = recvd w fd' ∧ sent w' fd' = sent w fd') as Hfr.
    { intros fd' Ho. split_and!; [by eapply os_frame_open|by eapply os_frame_recvd|by eapply os_frame_sent]. }
    split_and!; try done. split; [|done|done]. intros Hge. destruct (Hfd Hge) as [? Ho]. split; [done|]. by apply Hfr.
  - unfold cancel_unlock in Hu. simplify_eq/=. by split_and!.
  - split_and!; try done. split; [|done|done]. intros Hge. destruct (Hfd Hge) as [? Ho]. split; [done|]. by apply Hother.
Qed.

Lemma same_exchange_trans s1 s2 s3 : same_exchange s1 s2 → same_exchange s2 s3 → same_exchange s1 s3.
Proof.
  unfold same_exchange. intros (H1 & H2 & H3 & H4) (G1 & G2 & G3 & G4). split_and!; [congruence..|tauto|].
  intros Hf. rewrite G4 by congruence. by apply H4.
Qed.

Lemma cancels_keep s w s' w' :
  cancels (s, w) (s', w') → adapter_inv s w →
  adapter_inv s' w' ∧ same_exchange s s' ∧
  (mutex s = Exchanging → s' = s) ∧ (mutex s ≠ Exchanging → mutex s' ≠ Exchanging) ∧
  ∀ fd, fd_open w fd → fd_open w' fd ∧ recvd w' fd = recvd w fd ∧ sent w' fd = sent w fd.
Proof.
  intros Hr. remember (s, w) as c eqn:Hc. remember (s', w') as c' eqn:Hc'. revert s w Hc.
  induction Hr as [c|c1 [s2 w2] c3 Hstep _ IH]; intros s w ->; intros Hinv.
  - injection Hc' as -> ->. by split_and!.
  - destruct (cancel_step_keeps _ _ _ _ Hstep Hinv) as (Hi2 & Hs2 & Hm2 & Hn2 & Hf2).
    destruct (IH Hc' _ _ eq_refl Hi2) as (Hi & Hs & Hm & Hn & Hf). split_and!; try tauto.
    + by eapply same_exchange_trans.
    + intros Hx. rewrite <-(Hm2 Hx). apply Hm. by rewrite (Hm2 Hx).
    + intros fd Ho. destruct (Hf2 fd Ho) as (Ho2 & ? & ?). destruct (Hf fd Ho2) as (? & -> & ->). done.
Qed.
End Inv.

(** ** The exchange *)

Lemma locked_free {X : Set} (f : adapter → X * adapter) s : mutex s = Free → is_Some (locked f s).
Proof. unfold locked. intros ->. destruct (f (ad s)). eauto. Qed.

(** The adapter between exchanges. *)
Definition idle : adapter := {| active_fd := -1; active := false; cancel_requested := false |}.

Section Exchange.
Context {W : Type} `{OS W} {other : W → W → Prop} (spin_ok : Prop) (max_size : Z) (enough : nat → W → Prop).
Abbreviation cancels := (cancels other).
Context (Hsize : Z.of_nat RESPONSE_WIRE_SIZE <= max_size).
Context (HF : fuel_law (S := ashared) cancels spin_ok INT_MAX max_size enough).
Abbreviation awp := (wp cancels adapter_inv spin_ok).

(** Open descriptors survive the other threads. *)
Lemma cancels_respect : env_respects (S := ashared) (W := W) cancels.
Proof.
  intros s w s' w' HR. remember (s, w) as c eqn:Hc. remember (s', w') as c' eqn:Hc'. revert s w Hc.
  induction HR as [c|c1 [s2 w2] c3 Hstep _ IH]; intros s w -> fd Ho.
  - by injection Hc' as -> ->.
  - assert (fd_open w2 fd ∧ recvd w2 fd = recvd w fd ∧ sent w2 fd = sent w fd) as (Ho2 & Hr2 & Hs2).
    { inversion Hstep; subst; try done; [|by eauto].
      split_and!; [by eapply os_frame_open|by eapply os_frame_recvd|by eapply os_frame_sent]. }
    destruct (IH Hc' _ _ eq_refl fd Ho2) as (? & -> & ->). done.
Qed.

(** A section that takes the mutex is let in: a canceling thread that holds it
    can always unlock. *)
Lemma wp_lock {X : Set} (f : ashared → option (X * ashared)) (Q : X → ashared → W → Prop) s w :
  (∀ s, mutex s = Free → is_Some (f s)) → adapter_inv s w → mutex s ≠ Exchanging →
  (∀ s1 w1 x s2, cancels (s, w) (s1, w1) → adapter_inv s1 w1 → f s1 = Some (x, s2) → adapter_inv s2 w1 ∧ Q x s2 w1) →
  awp (crit f) Q s w.
Proof.
  intros Hf Hi Hm HQ. apply wp_crit; [done| |done]. intros s1 w1 HR Hi1.
  destruct (cancels_keep _ _ _ _ HR Hi) as (_ & _ & _ & Hm1 & _). specialize (Hm1 Hm).
  assert (mutex s1 = Free ∨ mutex s1 ≠ Free) as [Hfree|Hheld] by (destruct (mutex s1); auto).
  - exists s1, w1. split; [apply rtc_refl|]. by apply Hf.
  - exists {| ad := ad s1; mutex := Free |}, w1. split; [|by apply Hf].
    eapply rtc_once, (cs_unlock other s1 w1 tt); [done|done|reflexivity].
Qed.

(** The exchange before it has a descriptor. *)
Definition connecting (s : ashared) (w : W) : Prop :=
  adapter_inv s w ∧ active (ad s) = true ∧ active_fd (ad s) = -1 ∧ mutex s ≠ Exchanging.

Lemma connecting_stable : stable cancels adapter_inv (@anything) connecting.
Proof.
  split.
  - by intros s w [Hi _].
  - intros s w s' w' HR (Hi & Ha & Hf & Hm).
    destruct (cancels_keep _ _ _ _ HR Hi) as (Hi' & (Hf' & Ha' & _ & _) & _ & Hm' & _).
    split_and!; [done|congruence|congruence|auto].
  - intros X c s w x w' _ _ ([Hfd Hidle Hshut] & Ha & Hf & Hm). split_and!; try done.
    split; [lia|done|done].
Qed.

(** The exchange with its descriptor published. *)
Definition session (fd : Z) (s : ashared) (w : W) : Prop :=
  adapter_inv s w ∧ active (ad s) = true ∧ active_fd (ad s) = fd ∧ 0 <= fd ∧ mutex s ≠ Exchanging ∧
  fd_open w fd.

(** Every call but [socket] and [close]. *)
Definition keeps_open {X : Set} (c : sys X) : bool :=
  match c with Close _ | Socket => false | _ => true end.

Lemma session_stable fd : stable cancels adapter_inv (@keeps_open) (session fd).
Proof.
  split.
  - by intros s w [Hi _].
  - intros s w s' w' HR (Hi & Ha & Hf & Hge & Hm & Ho).
    destruct (cancels_keep _ _ _ _ HR Hi) as (Hi' & (Hf' & Ha' & _ & _) & _ & Hm' & Hfr).
    split_and!; [done|congruence|congruence|done|auto|by apply Hfr].
  - intros X c s w x w' Hc Hos ([Hfd Hidle Hshut] & Ha & Hf & Hge & Hm & Ho).
    assert (fd_open w' fd) by (eapply os_frame_open; [done| |done]; by destruct c).
    split_and!; try done. split; [|done|done]. intros _. rewrite Hf. done.
Qed.

(** [session], and what the two streams hold. *)
Definition session_logs (fd : Z) (r t : list Z) (s : ashared) (w : W) : Prop :=
  session fd s w ∧ recvd w fd = r ∧ sent w fd = t.

Lemma session_logs_stable fd r t :
  stable cancels adapter_inv (λ X c, match c with Shutdown _ _ => true | _ => control c end) (session_logs fd r t).
Proof.
  destruct (session_stable fd) as [Hi He Hc]. split.
  - intros s w [Hp _]. eauto.
  - intros s w s' w' HR (Hp & Hr & Ht). pose proof Hp as (_ & _ & _ & _ & _ & Ho).
    destruct (cancels_respect _ _ _ _ HR fd Ho) as (_ & Hr' & Ht'). split_and!; [eauto|congruence..].
  - intros X c s w x w' Hcc Hos (Hp & Hr & Ht). split_and!.
    + eapply Hc; [|done|done]. by destruct c.
    + rewrite <-Hr. eapply os_frame_recvd; [done|]. by destruct c.
    + rewrite <-Ht. eapply os_frame_sent; [done|]. by destruct c.
Qed.

(** An idle adapter depends on no descriptor. *)
Lemma idle_inv s (w w' : W) : ad s = idle → adapter_inv s w → adapter_inv s w'.
Proof. intros Ha [Hfd Hid Hsh]. split; [|done|done]. rewrite Ha. simpl. lia. Qed.

Lemma idle_cancels s w s' w' :
  ad s = idle → adapter_inv s w → cancels (s, w) (s', w') → ad s' = idle ∧ adapter_inv s' w'.
Proof.
  intros Ha Hi HR. destruct (cancels_keep _ _ _ _ HR Hi) as (Hi' & (_ & _ & _ & Hid) & _).
  split; [|done]. rewrite Hid; [done|]. by rewrite Ha.
Qed.

Lemma finish_section_idle s x s' (w : W) :
  finish_section s = Some (x, s') → ad s' = idle ∧ adapter_inv s' w.
Proof.
  unfold finish_section, locked. case_match; intros [= <- <-]. split; [done|]. by split.
Qed.

(** What [finish] leaves and returns. *)
Definition finished (fd result : Z) (response : Uapi.response_v1) (r t : list Z)
    (x : Z * option Uapi.response_v1) (s : ashared) (w : W) : Prop :=
  adapter_inv s w ∧ ad s = idle ∧ recvd w fd = r ∧ sent w fd = t ∧
  x.2 = Some response ∧ (x.1 = result ∨ x.1 = - ECANCELED).

Lemma wp_finish_session fd result response r t s w :
  session_logs fd r t s w → awp (finish_with fd result response) (finished fd result response r t) s w.
Proof.
  intros Hp. pose proof (session_logs_stable fd r t) as [Hi He _]. unfold finish_with, qcpu_adapter_finish.
  apply wp_bind, wp_bind, wp_lock; [apply locked_free|by eapply Hi|apply Hp|]. intros s1 w1 x s2 HR _ Hf.
  destruct (He _ _ _ _ HR Hp) as ((_ & _ & _ & Hge & _ & Ho) & Hr & Ht).
  destruct (finish_section_idle _ _ _ w1 Hf) as [Hid2 Hi2]. split; [done|].
  assert ((0 <=? fd) = true) as -> by lia. apply wp_bind, wp_call; [done|].
  intros s3 w3 e w4 HR3 Hi3 Hos. destruct (idle_cancels _ _ _ _ Hid2 Hi2 HR3) as [Hid3 _].
  destruct (cancels_respect _ _ _ _ HR3 fd Ho) as (Ho3 & Hr3 & Ht3).
  assert (adapter_inv s3 w4) as Hi4 by by eapply idle_inv. split; [done|].
  apply wp_ret; [done|]. apply wp_ret; [done|]. split_and!; try done.
  - rewrite (os_frame_recvd _ _ _ _ fd Hos) by done. congruence.
  - rewrite (os_frame_sent _ _ _ _ fd Hos) by done. congruence.
  - destruct x; simpl; auto.
Qed.

(** [finish] without a descriptor. *)
Lemma wp_finish_none result response s w :
  connecting s w →
  awp (finish_with (-1) result response)
    (λ x s w, adapter_inv s w ∧ ad s = idle ∧ x.2 = Some response ∧ (x.1 = result ∨ x.1 = - ECANCELED)) s w.
Proof.
  intros Hp. pose proof connecting_stable as [Hi He _]. unfold finish_with, qcpu_adapter_finish.
  apply wp_bind, wp_bind, wp_lock; [apply locked_free|by eapply Hi|apply Hp|]. intros s1 w1 x s2 HR _ Hf.
  destruct (finish_section_idle _ _ _ w1 Hf) as [Hid2 Hi2]. split; [done|].
  apply wp_bind, wp_ret; [done|]. apply wp_ret; [done|]. apply wp_ret; [done|].
  split_and!; try done. destruct x; simpl; auto.
Qed.

(** Reading the request flag changes nothing. *)
Lemma wp_is_canceled (P : ashared → W → Prop) allowed s w :
  stable cancels adapter_inv allowed P → (∀ s w, P s w → mutex s ≠ Exchanging) → P s w →
  awp (crit qcpu_adapter_is_canceled) (λ _ s w, P s w) s w.
Proof.
  intros [Hi He _] Hm Hp. apply wp_lock; [apply locked_free|by eapply Hi|by eapply Hm|]. intros s1 w1 x s2 HR Hi1 Hf.
  assert (P s1 w1) as Hp1 by eauto. unfold qcpu_adapter_is_canceled, locked in Hf.
  destruct s1 as [a []]; simplify_eq/=. by split; [eapply Hi|].
Qed.

Lemma wp_io_result (P : ashared → W → Prop) allowed st s w :
  stable cancels adapter_inv allowed P → (∀ s w, P s w → mutex s ≠ Exchanging) → P s w →
  awp (qcpu_adapter_io_result st) (λ r s w, P s w ∧ r ≠ 0) s w.
Proof.
  intros HP Hm Hp. unfold qcpu_adapter_io_result. apply wp_bind.
  eapply wp_mono; [by eapply wp_is_canceled|]. intros b s1 w1 Hi Hp1. apply wp_ret; [done|].
  split; [done|]. destruct b; [done|]. by case_decide.
Qed.

Lemma ms_left_range d n : 0 <= ms_left d n <= INT_MAX.
Proof.
  unfold ms_left, INT_MAX. case_tests; try lia; unfold wrap in *; Z.to_euclidean_division_equations; lia.
Qed.

Lemma wp_remaining (P : ashared → W → Prop) deadline s w :
  stable cancels adapter_inv (@control) P → P s w →
  awp (qcpu_adapter_remaining_ms deadline) (λ r s w, P s w ∧ 0 <= r <= INT_MAX) s w.
Proof.
  intros HP Hp. unfold qcpu_adapter_remaining_ms, qcpu_adapter_now_ns. apply wp_bind, wp_bind.
  eapply (wp_stable_call _ _ _ P _ HP); [done|done|]. intros s1 w1 x w2 _ _ _ Hp2.
  pose proof (st_inv _ _ _ _ HP _ _ Hp2).
  destruct x as [[sec nsec]|e]; apply wp_ret; try done; apply wp_ret; try done; (split; [done|]; apply ms_left_range).
Qed.

(** Publishing the descriptor. *)
Lemma wp_register n fd s w :
  0 <= fd → fueled enough n (fresh_fd connecting fd) s w →
  awp (qcpu_adapter_register_fd fd) (λ _ s w, fueled enough n (session_logs fd [] []) s w) s w.
Proof.
  intros Hge Hp.
  pose proof (fueled_stable _ _ _ _ _ _ HF _ n _
    (fresh_fd_stable cancels adapter_inv _ fd cancels_respect connecting_stable)) as [Hi He _].
  unfold qcpu_adapter_register_fd.
  apply wp_bind, wp_lock; [by intros [? []]; simpl; eauto|by eapply Hi|apply Hp|]. intros s1 w1 x s2 HR _ Hf.
  destruct (He _ _ _ _ HR Hp) as (((Hi1 & Ha1 & Hf1 & Hm1) & Ho1 & Hr1 & Ht1) & Hn1).
  unfold register_lock in Hf. destruct s1 as [[? ? ?] []]; simplify_eq/=.
  match goal with |- adapter_inv ?s2 _ ∧ _ => set (s2' := s2) end.
  assert (∀ w', fd_open w' fd → adapter_inv s2' w') as Hinv by (intros; split; done).
  split; [by apply Hinv|]. apply wp_bind.
  assert (∀ w', fd_open w' fd → recvd w' fd = [] → sent w' fd = [] → enough n w' →
    awp (crit register_unlock ≫= λ _, mret x) (λ _ s w, fueled enough n (session_logs fd [] []) s w) s2' w') as Hlater.
  { intros w' Ho' Hr' Ht' Hn'. apply wp_bind, wp_crit; [by apply Hinv|intros s3 w3 _ _; exists s3, w3; split; [apply rtc_refl|by eexists]|].
    intros s3 w3 [] s4 HR3 Hi3 Hu.
    destruct (cancels_keep _ _ _ _ HR3 (Hinv _ Ho')) as (_ & _ & Hsame & _ & Hfr).
    assert (enough n w3) by by eapply fl_env. rewrite Hsame in * by done.
    destruct (Hfr fd Ho') as (Ho3 & Hr3 & Ht3). unfold register_unlock in Hu. simplify_eq/=.
    assert (adapter_inv {| ad := ad s2'; mutex := Free |} w3) as Hi4 by by split.
    split; [done|]. apply wp_ret; [done|]. repeat split; try done; congruence. }
  destruct x; [|apply wp_ret; [by apply Hinv|]; by apply Hlater]. apply wp_call; [by apply Hinv|].
  intros s3 w3 ok w4 HR3 _ Hos. destruct (cancels_keep _ _ _ _ HR3 (Hinv _ Ho1)) as (_ & _ & Hsame & _ & Hfr).
  assert (enough n w4) by (eapply fl_call; [done..|]; by eapply fl_env).
  rewrite Hsame in * by done. destruct (Hfr fd Ho1) as (Ho3 & Hr3 & Ht3).
  assert (fd_open w4 fd) by by eapply os_frame_open. split; [by apply Hinv|]. apply Hlater; [done|..|done].
  - rewrite (os_frame_recvd _ _ _ _ fd Hos) by done. congruence.
  - rewrite (os_frame_sent _ _ _ _ fd Hos) by done. congruence.
Qed.

(** ** The whole exchange *)

(** What a returned exchange means: the adapter is idle again, and the result
    0 is the translation of 56 bytes received on a descriptor after the 24
    bytes of the translated request were sent on it. *)
Definition exchange_post (request : Uapi.request_v1) (x : Z * option Uapi.response_v1)
    (s : ashared) (w : W) : Prop :=
  adapter_inv s w ∧ ad s = idle ∧
  (x.1 = 0 → ∃ fd translated packet response,
     qcpu_adapter_translate_request request = inl translated ∧
     sent w fd = request_layout translated ∧ recvd w fd = packet ∧
     bytes packet ∧ length packet = RESPONSE_WIRE_SIZE ∧
     Device.rsp_magic (response_of_bytes packet) = Device.RESPONSE_MAGIC ∧
     Device.rsp_version (response_of_bytes packet) = Device.PROTOCOL_VERSION ∧
     qcpu_adapter_translate_response (response_of_bytes packet) = (0, response) ∧
     x.2 = Some response).

Lemma finished_error fd result response r t request x s w :
  result ≠ 0 → finished fd result response r t x s w → exchange_post request x s w.
Proof.
  intros Hne (Hi & Hid & _ & _ & _ & Hx). split_and!; try done. intros H0.
  destruct Hx as [Hx|Hx]; rewrite H0 in Hx; [congruence|done].
Qed.

Lemma wp_finish_error fd result response r t request s w :
  result ≠ 0 → session_logs fd r t s w →
  awp (finish_with fd result response) (exchange_post request) s w.
Proof.
  intros Hne Hp. eapply wp_mono; [by apply wp_finish_session|]. intros ? ? ? _. by apply finished_error.
Qed.

(** The precondition of the I/O functions. *)
Lemma io_stable fd r t :
  stable cancels adapter_inv (@control) (session_logs fd r t).
Proof. destruct (session_logs_stable fd r t) as [Hi He Hc]. split; [done|done|]. intros X c s w x w' Hcc. apply Hc. by destruct c. Qed.

Lemma write_env fd : env_keeps cancels (λ s w, session fd s w) sent fd.
Proof. intros s w s' w' (_ & _ & _ & _ & _ & Ho) HR. by apply (cancels_respect _ _ _ _ HR fd Ho). Qed.
Lemma read_env fd : env_keeps cancels (λ s w, session fd s w) recvd fd.
Proof. intros s w s' w' (_ & _ & _ & _ & _ & Ho) HR. by apply (cancels_respect _ _ _ _ HR fd Ho). Qed.

(** While writing, nothing is received, and while reading nothing is sent. *)
Definition writing (fd : Z) (n : nat) (s : ashared) (w : W) : Prop :=
  session fd s w ∧ recvd w fd = [] ∧ enough n w.
Definition reading (fd : Z) (t : list Z) (s : ashared) (w : W) : Prop :=
  session fd s w ∧ sent w fd = t.

Lemma writing_stable fd n : stable cancels adapter_inv (@sends fd) (writing fd n).
Proof.
  destruct (session_stable fd) as [Hi He Hc]. split.
  - intros s w [Hp _]. eauto.
  - intros s w s' w' HR (Hp & Hr & Hn). pose proof Hp as (_ & _ & _ & _ & _ & Ho).
    destruct (cancels_respect _ _ _ _ HR fd Ho) as (_ & Hr' & _). split_and!; [eauto|congruence|by eapply fl_env].
  - intros X c s w x w' Hcc Hos (Hp & Hr & Hn). split_and!.
    + eapply Hc; [|done|done]. by destruct c.
    + rewrite <-Hr. eapply os_frame_recvd; [done|]. by destruct c.
    + by eapply fl_call.
Qed.

Lemma reading_stable fd t : stable cancels adapter_inv (@reads fd) (reading fd t).
Proof.
  destruct (session_stable fd) as [Hi He Hc]. split.
  - intros s w [Hp _]. eauto.
  - intros s w s' w' HR (Hp & Ht). pose proof Hp as (_ & _ & _ & _ & _ & Ho).
    destruct (cancels_respect _ _ _ _ HR fd Ho) as (_ & _ & Ht'). split_and!; [eauto|congruence].
  - intros X c s w x w' Hcc Hos (Hp & Ht). split.
    + eapply Hc; [|done|done]. by destruct c.
    + rewrite <-Ht. eapply os_frame_sent; [done|]. by destruct c.
Qed.

Lemma keeps_weaken (P Q : ashared → W → Prop) log fd :
  (∀ s w, Q s w → P s w) → env_keeps cancels P log fd → env_keeps cancels Q log fd.
Proof. intros Hsub Henv s w s' w' Hq. apply Henv. auto. Qed.

(** Reading and translating the response. *)
Lemma wp_translate junk response0 request translated fd packet s w :
  qcpu_adapter_translate_request request = inl translated →
  bytes packet → length packet = RESPONSE_WIRE_SIZE →
  session_logs fd packet (request_layout translated) s w →
  awp ('(status, translated_response) ←
         defined (qcpu_device_decode_response (Some junk) (Some packet) (Z.of_nat RESPONSE_WIRE_SIZE));
       if negb (status =? Device.STATUS_OK) then finish_with fd (- EIO) response0 else
       translated_response ← defined translated_response;
       let '(result, response) := qcpu_adapter_translate_response translated_response in
       finish_with fd result response) (exchange_post request) s w.
Proof.
  intros Htr Hb Hl Hp. pose proof (st_inv _ _ _ _ (io_stable fd packet (request_layout translated)) _ _ Hp) as Hi.
  rewrite decode_response_of_bytes by done. apply wp_bind, wp_ret; [done|]. cbv beta iota.
  destruct (header_status _ _ _ =? Device.STATUS_OK) eqn:Hst; simpl negb; cbv iota; [|by eapply wp_finish_error].
  apply wp_bind, wp_ret; [done|]. cbv beta.
  destruct (qcpu_adapter_translate_response (response_of_bytes packet)) as [result response] eqn:Hresp.
  destruct (decide (result = 0)) as [->|Hne]; [|by eapply wp_finish_error].
  eapply wp_mono; [by apply wp_finish_session|]. intros [res out] s1 w1 _ (Hi1 & Hid & Hr & Ht & Hout & _).
  split_and!; try done. intros _. exists fd, translated, packet, response.
  assert (Device.rsp_magic (response_of_bytes packet) = Device.RESPONSE_MAGIC ∧
          Device.rsp_version (response_of_bytes packet) = Device.PROTOCOL_VERSION) as [? ?].
  { unfold header_status in Hst. case_tests; try done. unbool. done. }
  by split_and!.
Qed.

Lemma session_mutex fd r t s w : session_logs fd r t s w → mutex s ≠ Exchanging.
Proof. by intros ((_ & _ & _ & _ & ? & _) & _). Qed.

Lemma wp_exchange_on fuel junk response_wire fd request translated deadline response0 s w :
  qcpu_adapter_translate_request request = inl translated → length response_wire = RESPONSE_WIRE_SIZE →
  fueled enough fuel (session_logs fd [] []) s w →
  awp (exchange_on fuel junk response_wire fd (request_layout translated) deadline response0)
    (exchange_post request) s w.
Proof.
  intros Htr Hout Hp. unfold exchange_on.
  pose proof (λ r t, fueled_stable _ _ _ _ _ _ HF _ fuel _ (io_stable fd r t)) as Hst.
  apply wp_bind. eapply wp_mono; [by apply wp_remaining; [apply Hst|]|]. intros ms s1 w1 _ [Hp1 Hms].
  destruct (ms <=? 0); [by eapply wp_finish_error, Hp1|].
  apply wp_bind. eapply wp_mono.
  { apply (wp_write_all _ _ _ _ _ enough HF (writing fd fuel) fd fuel (request_layout translated)
      (Z.of_nat REQUEST_WIRE_SIZE) ms false []).
    - eapply keeps_weaken, write_env. by intros ? ? [? _].
    - apply writing_stable.
    - lia.
    - simpl. unfold REQUEST_WIRE_SIZE. lia.
    - unfold REQUEST_WIRE_SIZE, RESPONSE_WIRE_SIZE in *. lia.
    - destruct Hp1 as [(? & ? & ?) ?]. done. }
  intros st s2 w2 _ ((Hp2 & Hr2 & Hn2) & n & Ht2 & Hle & Hok & _). rewrite drop_0 in Ht2.
  assert (session_logs fd [] (take n (request_layout translated)) s2 w2) as Hs2 by done.
  case_decide as Hio.
  { apply wp_bind. eapply wp_mono; [by eapply wp_io_result; [apply io_stable|apply session_mutex|]|].
    intros res s3 w3 _ [Hp3 Hne]. by eapply wp_finish_error. }
  assert (st = IO_OK) as -> by (by destruct st; try (exfalso; apply Hio)). specialize (Hok eq_refl).
  rewrite take_ge in Hs2 by (change (length (request_layout translated)) with REQUEST_WIRE_SIZE; lia).
  apply wp_bind. eapply (wp_stable_call _ _ _ _ _ (fueled_stable _ _ _ _ _ _ HF _ fuel _
    (session_logs_stable fd [] (request_layout translated)))); [done|done|].
  intros s3 w3 shut w4 _ _ _ Hp4. destruct shut; simpl negb; cbv iota.
  2: { apply wp_bind. eapply wp_mono; [by eapply wp_is_canceled; [apply Hst|intros ? ? [Hl _]; by eapply session_mutex|]|].
       intros b s5 w5 _ Hp5. eapply wp_finish_error; [|apply Hp5]. by destruct b. }
  apply wp_bind. eapply wp_mono; [by apply wp_remaining; [apply Hst|]|]. intros ms2 s5 w5 _ [Hp5 Hms2].
  destruct (ms2 <=? 0); [by eapply wp_finish_error, Hp5|].
  apply wp_bind. eapply wp_mono.
  { apply (wp_read_all _ _ _ _ _ enough HF (reading fd (request_layout translated)) fd fuel response_wire
      (Z.of_nat RESPONSE_WIRE_SIZE) ms2 false []).
    - eapply keeps_weaken, read_env. by intros ? ? [? _].
    - apply reading_stable.
    - lia.
    - rewrite Hout. lia.
    - done.
    - destruct Hp5 as [(? & ? & ?) ?]. done. }
  intros [st b] s6 w6 _ (buf & Hb & (Hp6 & Ht6) & got & Hbytes & Hr6 & Hbuf & _ & Hok6 & _).
  cbn [fst snd] in *. subst b. assert (session_logs fd got (request_layout translated) s6 w6) as Hs6 by done.
  case_decide as Hio2.
  { apply wp_bind. eapply wp_mono; [by eapply wp_io_result; [apply io_stable|apply session_mutex|]|].
    intros res s7 w7 _ [Hp7 Hne]. by eapply wp_finish_error. }
  assert (st = IO_OK) as -> by (by destruct st; try (exfalso; apply Hio2)). specialize (Hok6 eq_refl).
  rewrite inserts_all in Hbuf by lia. subst buf. eapply wp_translate; [done|done|lia|done].
Qed.

Lemma wp_finish_none_error result response request s w :
  result ≠ 0 → connecting s w → awp (finish_with (-1) result response) (exchange_post request) s w.
Proof.
  intros Hne Hp. eapply wp_mono; [by apply wp_finish_none|]. intros x s1 w1 _ (Hi & Hid & _ & Hx).
  split_and!; try done. intros H0. destruct Hx as [Hx|Hx]; rewrite H0 in Hx; [congruence|done].
Qed.

Lemma begin_connecting s s' x (w : W) :
  ad s = idle → qcpu_adapter_begin s = Some (x, s') → x = 0 ∧ connecting s' w.
Proof.
  unfold qcpu_adapter_begin, locked. intros Ha. case_match; [|done..]. rewrite Ha. simpl.
  intros [= <- <-]. split; [done|]. by repeat split.
Qed.

Lemma wp_exchange fuel errno junk request_wire response_wire path request deadline response s w :
  length request_wire = REQUEST_WIRE_SIZE → length response_wire = RESPONSE_WIRE_SIZE →
  ad s = idle → mutex s ≠ Exchanging → adapter_inv s w → enough fuel w →
  awp (qcpu_qcpud_exchange fuel errno junk request_wire response_wire (Some path) (Some request) deadline
         (Some response)) (exchange_post request) s w.
Proof.
  intros Hin Hout Ha Hm Hi Hn. unfold qcpu_qcpud_exchange.
  apply wp_bind, wp_lock; [apply locked_free|done|done|]. intros s1 w1 x s2 HR Hi1 Hbegin.
  destruct (idle_cancels _ _ _ _ Ha Hi HR) as [Ha1 _].
  destruct (begin_connecting _ _ _ w1 Ha1 Hbegin) as [-> Hp2]. split; [apply Hp2|].
  assert (fueled enough fuel connecting s2 w1) as Hf2 by (split; [done|by eapply fl_env]).
  simpl negb. cbv iota. destruct (qcpu_adapter_translate_request request) as [translated|result] eqn:Htr.
  2: { apply wp_finish_none_error; [|done]. unfold qcpu_adapter_translate_request in Htr. by case_tests; simplify_eq. }
  rewrite encode_request_layout by done. apply wp_bind, wp_ret; [apply Hp2|]. cbv beta.
  simpl negb. cbv iota. apply wp_bind, wp_ret; [apply Hp2|]. cbv beta.
  pose proof (fueled_stable _ _ _ _ _ _ HF _ fuel _ connecting_stable) as Hst.
  apply wp_bind. eapply wp_mono; [apply wp_remaining; [|exact Hf2]; by eapply stable_control; [|exact Hst]|].
  intros ms s3 w3 _ [Hp3 Hms]. destruct (ms <=? 0); [by apply wp_finish_none_error, Hp3|].
  apply wp_bind. eapply wp_mono; [apply (wp_connect _ _ _ _ _ enough HF (fueled enough fuel connecting)); [|done|lia|lia|]|].
  { apply cancels_respect. }
  { split; [done|apply Hp3]. }
  intros [fd e] s4 w4 _ (Hp4 & Hfd & _). cbn [fst] in *. destruct (Z.ltb_spec fd 0).
  { apply wp_finish_none_error; [|apply Hp4]. by case_tests. }
  destruct (Hfd ltac:(lia)) as ((Hp5 & Hn5) & Ho5 & Hr5 & Ht5).
  apply wp_bind. eapply wp_mono; [apply (wp_register fuel); [lia|done]|]. intros b s6 w6 _ Hp6.
  destruct b; [eapply wp_finish_error; [done|apply Hp6]|]. by apply wp_exchange_on.
Qed.
End Exchange.

(** Every interleaving of an exchange with the other threads. *)
Lemma exchange_sound {W} `{OS W} (other : W → W → Prop) (spin_ok : Prop) enough fuel errno junk request_wire response_wire path
    request deadline response (s s' : ashared) (w w' : W) p' :
  fuel_law (S := ashared) (cancels other) spin_ok INT_MAX (Z.of_nat RESPONSE_WIRE_SIZE) enough → enough fuel w →
  length request_wire = REQUEST_WIRE_SIZE → length response_wire = RESPONSE_WIRE_SIZE →
  ad s = idle → mutex s = Free →
  rtc (step (cancels other))
    (qcpu_qcpud_exchange fuel errno junk request_wire response_wire (Some path) (Some request) deadline
       (Some response), s, w) (p', s', w') →
  adapter_inv s' w' ∧ p' ≠ Undefined ∧ (p' = Spin → spin_ok) ∧
  (∀ x, p' = Ret x → ∃ s0 w0, exchange_post request x s0 w0 ∧ cancels other (s0, w0) (s', w')).
Proof.
  intros HF Hn Hin Hout Ha Hm Hsteps.
  assert (adapter_inv s w) as Hi by (split; rewrite ?Ha, ?Hm; simpl; [lia|done|done]).
  eapply (wp_sound (cancels other) adapter_inv spin_ok); [| | | |exact Hsteps].
  - intros x. apply rtc_refl.
  - intros x y z. apply transitivity.
  - intros s1 w1 s2 w2 Hi1 HR. by apply (cancels_keep _ _ _ _ HR Hi1).
  - apply (wp_exchange spin_ok _ enough ltac:(done) HF); try done. by rewrite Hm.
Qed.

(** ** Properties *)

(** C11 (cancellation is safe): run an exchange while other threads cancel it at
    any moments and open descriptors of their own. Along every interleaving,
    for every operating system, no undefined behaviour is reached, and whenever
    a canceling thread is about to call [shutdown] the descriptor is open and
    is the one the active exchange published: it was not closed, so its number
    cannot have been reused. *)
Theorem cancel_safe {W} `{OS W} (other : W → W → Prop) fuel errno junk request_wire response_wire path request deadline response
    (s s' : ashared) (w w' : W) p' :
  length request_wire = REQUEST_WIRE_SIZE → length response_wire = RESPONSE_WIRE_SIZE →
  s = {| ad := idle; mutex := Free |} →
  rtc (step (cancels other))
    (qcpu_qcpud_exchange fuel errno junk request_wire response_wire (Some path) (Some request) deadline
       (Some response), s, w) (p', s', w') →
  p' ≠ Undefined ∧
  ∀ fd, mutex s' = CancelShut fd → active (ad s') = true ∧ active_fd (ad s') = fd ∧ fd_open w' fd.
Proof.
  intros Hin Hout -> Hsteps.
  apply (exchange_sound other True (λ _ _, True)) in Hsteps as ([Hfd _ Hsh] & Hu & _);
    [|by apply fuel_law_any|done..].
  split; [done|]. intros fd Hm. destruct (Hsh fd Hm) as [-> Hge]. destruct (Hfd Hge). done.
Qed.

(** C30 (the exchange): when an exchange that began on an idle adapter returns,
    the adapter is idle again, whatever was canceled meanwhile; and when it
    returns 0, it sent exactly the 24 bytes of the translated request on one
    descriptor, received exactly 56 bytes on it with the right magic number
    and version, and the response is their translation. *)
Theorem exchange_correct {W} `{OS W} (other : W → W → Prop) fuel errno junk request_wire response_wire path request deadline response
    (s s' : ashared) (w w' : W) x :
  length request_wire = REQUEST_WIRE_SIZE → length response_wire = RESPONSE_WIRE_SIZE →
  s = {| ad := idle; mutex := Free |} →
  rtc (step (cancels other))
    (qcpu_qcpud_exchange fuel errno junk request_wire response_wire (Some path) (Some request) deadline
       (Some response), s, w) (Ret x, s', w') →
  ad s' = idle ∧ ∃ s0 w0, exchange_post request x s0 w0 ∧ cancels other (s0, w0) (s', w').
Proof.
  intros Hin Hout -> Hsteps.
  apply (exchange_sound other True (λ _ _, True)) in Hsteps as (_ & _ & _ & Hret);
    [|by apply fuel_law_any|done..].
  destruct (Hret x eq_refl) as (s0 & w0 & Hpost & HR). split; [|by eauto].
  destruct Hpost as (Hi & Hid & _). by destruct (idle_cancels _ _ _ _ Hid Hi HR).
Qed.

(** C31 (an exchange ends): when every call is answered and takes time, the clock
    shows the time and signals interrupt finitely often ([timely]), also while
    threads that do not use the adapter run, the rounds of one operation suffice:
    whatever is canceled and whenever, and whatever errors the calls answer, the
    exchange can always go on to return. No canceling thread can block it for
    good. *)
Theorem exchange_terminates {W} `{OS W} (now : W → Z) (interrupts : W → nat) (other : W → W → Prop) fuel errno junk
    request_wire response_wire path request deadline response (s : ashared) (w : W) :
  responsive (W := W) → timely now interrupts →
  (∀ w w', other w w' → now w <= now w' ∧ (interrupts w' <= interrupts w)%nat) →
  (rounds (interrupts w) INT_MAX (Z.of_nat RESPONSE_WIRE_SIZE) <= fuel)%nat →
  length request_wire = REQUEST_WIRE_SIZE → length response_wire = RESPONSE_WIRE_SIZE →
  s = {| ad := idle; mutex := Free |} →
  always_returns (cancels other)
    (qcpu_qcpud_exchange fuel errno junk request_wire response_wire (Some path) (Some request) deadline
       (Some response)) s w.
Proof.
  intros Hos Htime Hother Hfuel Hin Hout ->.
  assert (∀ s1 w1 s2 w2, cancels other (s1, w1) (s2, w2) → now w1 <= now w2 ∧ (interrupts w2 <= interrupts w1)%nat) as HR.
  { intros s1 w1 s2 w2 HR.
    change (now (s1, w1).2 <= now (s2, w2).2 ∧ (interrupts (s2, w2).2 <= interrupts (s1, w1).2)%nat).
    revert HR. generalize (s1, w1) (s2, w2). induction 1 as [|c1 c2 c3 Hstep _ IH]; [done|].
    assert (now c1.2 <= now c2.2 ∧ (interrupts c2.2 <= interrupts c1.2)%nat); [|lia].
    destruct Hstep as [|s3 fd3 w3 ok3 w4 ? Hos'| |]; simpl; try (split; done); [|by apply Hother].
    pose proof (tm_time _ _ Htime _ _ _ _ _ Hos'). split; [lia|by eapply tm_interrupts]. }
  pose proof (timely_fuel (cancels other) now interrupts INT_MAX (Z.of_nat RESPONSE_WIRE_SIZE) Htime ltac:(done) HR) as HF.
  eapply (wp_always_returns (cancels other) adapter_inv False); [| | |done|by intros []|].
  - intros x. apply rtc_refl.
  - intros x y z. apply transitivity.
  - intros s1 w1 s2 w2 Hi1 HR1. by apply (cancels_keep _ _ _ _ HR1 Hi1).
  - apply (wp_exchange False _ _ ltac:(done) HF); done.
Qed.

(** A scripted daemon that answers the sample request. *)
Definition sample_uapi_request : Uapi.request_v1 :=
  {| Uapi.ureq_magic := Uapi.REQUEST_MAGIC; Uapi.ureq_version := 1; Uapi.ureq_command := Uapi.COMMAND_RUN_GHZ;
     Uapi.ureq_qubits := 3; Uapi.ureq_shots := 10; Uapi.ureq_seed := 424242 |}.

Definition daemon_world : sworld := {|
  sw_clock := replicate 9 (Some (5, 0));
  sw_stop := [];
  sw_poll := [PReady POLLIN];
  sw_read := [RErr EAGAIN; RData (response_layout sample_response)];
  sw_send := [WCount 20; WCount 30];
  sw_socket := [FdOk 7];
  sw_connect := [0];
  sw_recvd := ∅;
  sw_sent := ∅;
  sw_open := ∅
|}.

Definition exchange_demo : prog ashared (Z * option Uapi.response_v1) :=
  qcpu_qcpud_exchange 20 0 Device.zero_response (replicate 24 0) (replicate 56 0) (Some [47; 113])
    (Some sample_uapi_request) 6000000000 (Some Uapi.zero_response).

Definition idle_shared : ashared := {| ad := idle; mutex := Free |}.

(** Other threads that may do anything. *)
Definition anyone : sworld → sworld → Prop := λ _ _, True.

(** A run of the script is an execution among (silent) threads. *)
Lemma run_cancels {A} (p : prog ashared A) s w a s' w' :
  run p s w = Done (a, s', w') → rtc (step (cancels anyone)) (p, s, w) (Ret a, s', w').
Proof.
  revert s w. induction p as [b|X c k IH|X g k IH| |]; intros s w; simpl; try done.
  - by intros [= -> -> ->].
  - destruct (script_answer c w) as [x w1] eqn:Ha. intros Hrun. eapply rtc_l; [eapply step_sys; exact Ha|by apply IH].
  - destruct (g s) as [[x s1]|] eqn:Hg; [|done]. intros Hrun. eapply rtc_l; [by eapply step_crit|]. by apply IH.
Qed.

(** The first [n] steps of a program against the script. *)
Fixpoint run_n {A} (n : nat) (p : prog ashared A) (s : ashared) (w : sworld) : prog ashared A * ashared * sworld :=
  match n with
  | O => (p, s, w)
  | Datatypes.S n =>
      match p with
      | Sys c k => let '(x, w) := script_answer c w in run_n n (k x) s w
      | Crit f k => match f s with Some (x, s) => run_n n (k x) s w | None => (p, s, w) end
      | _ => (p, s, w)
      end
  end.

Lemma run_n_steps {A} n (p : prog ashared A) s w : rtc (step (cancels anyone)) (p, s, w) (run_n n p s w).
Proof.
  revert p s w. induction n as [|n IH]; intros [a|X c k|X f k| |] s w; simpl; try apply rtc_refl.
  - destruct (script_answer c w) as [x w1] eqn:Ha. eapply rtc_l; [eapply step_sys; exact Ha|apply IH].
  - destruct (f s) as [[x s1]|] eqn:Hf; [|apply rtc_refl]. eapply rtc_l; [by eapply step_crit|apply IH].
Qed.

Lemma exchange_correct_witness :
  ∃ x w', rtc (step (cancels anyone)) (exchange_demo, idle_shared, daemon_world) (Ret x, idle_shared, w') ∧ x.1 = 0 ∧
    ∃ s0 w0, exchange_post sample_uapi_request x s0 w0.
Proof.
  destruct (run exchange_demo idle_shared daemon_world) as [[[x s'] w']| |] eqn:Hrun;
    [|vm_compute in Hrun; discriminate Hrun|vm_compute in Hrun; discriminate Hrun].
  assert (x.1 = 0 ∧ s' = idle_shared) as [H0 Hs]
    by (vm_compute in Hrun; injection Hrun as <- <- <-; split; reflexivity).
  apply run_cancels in Hrun. rewrite Hs in Hrun. exists x, w'. split; [exact Hrun|]. split; [exact H0|].
  destruct (exchange_correct anyone 20 0 Device.zero_response (replicate 24 0) (replicate 56 0) [47; 113]
    sample_uapi_request 6000000000 Uapi.zero_response idle_shared idle_shared daemon_world w' x
    eq_refl eq_refl eq_refl Hrun) as (_ & s0 & w0 & Hpost & _). exists s0, w0. exact Hpost.
Defined.

(** The exchange up to its published descriptor, then a cancel that takes the
    mutex. *)
Lemma cancel_safe_witness :
  ∃ p' s' w', rtc (step (cancels anyone)) (exchange_demo, idle_shared, daemon_world) (p', s', w') ∧
    mutex s' = CancelShut 7 ∧ fd_open w' 7.
Proof.
  assert (∃ p' s' w', rtc (step (cancels anyone)) (exchange_demo, idle_shared, daemon_world) (p', s', w') ∧
    mutex s' = CancelShut 7) as (p' & s' & w' & Hsteps & Hm).
  { pose proof (run_n_steps 8 exchange_demo idle_shared daemon_world) as Hpre.
    destruct (run_n 8 exchange_demo idle_shared daemon_world) as [[p1 s1] w1] eqn:Hrun.
    assert (s1 = {| ad := {| active_fd := 7; active := true; cancel_requested := false |}; mutex := Free |}) as ->
      by (apply (f_equal (λ c, c.1.2)) in Hrun; vm_compute in Hrun; symmetry; exact Hrun).
    do 3 eexists. split.
    - eapply rtc_r; [exact Hpre|]. eapply step_env, rtc_once, cs_lock. reflexivity.
    - reflexivity. }
  exists p', s', w'. split; [exact Hsteps|]. split; [exact Hm|].
  destruct (cancel_safe anyone 20 0 Device.zero_response (replicate 24 0) (replicate 56 0) [47; 113]
    sample_uapi_request 6000000000 Uapi.zero_response idle_shared s' daemon_world w' p'
    eq_refl eq_refl eq_refl Hsteps) as (_ & Hopen). destruct (Hopen 7 Hm) as (_ & _ & Ho). exact Ho.
Defined.

(** Other threads, while time passes. *)
Definition steady_others (w w' : sworld * Z) : Prop :=
  w.2 <= w'.2 ∧ (script_interrupts w' <= script_interrupts w)%nat.

Lemma exchange_terminates_witness :
  ∃ a s1 w1, rtc (step (cancels steady_others))
    (qcpu_qcpud_exchange (rounds 0 INT_MAX 56) 0 Device.zero_response (replicate 24 0) (replicate 56 0) (Some [47; 113])
       (Some sample_uapi_request) 6000000000 (Some Uapi.zero_response), idle_shared, (daemon_world, 5000000000))
    (Ret a, s1, w1).
Proof.
  destruct (exchange_terminates snd script_interrupts steady_others (rounds 0 INT_MAX 56) 0 Device.zero_response
    (replicate 24 0) (replicate 56 0) [47; 113] sample_uapi_request 6000000000 Uapi.zero_response idle_shared
    (daemon_world, 5000000000) clocked_responsive script_timely ltac:(done) (Nat.le_refl _) eq_refl eq_refl eq_refl
    _ _ _ (rtc_refl _ _)) as (_ & _ & Hret). exact Hret.
Defined.

(** ** Deadlines *)

(** Remaining time: for 64-bit times, no time is left exactly when the
    clock failed or the deadline has passed; otherwise the remaining
    nanoseconds are rounded up to milliseconds, clamped to [INT_MAX], so a
    positive remainder never becomes a zero timeout. *)
Theorem ms_left_correct deadline now :
  in_width 64 deadline → in_width 64 now →
  (ms_left deadline now = 0 ↔ now = UINT64_MAX ∨ deadline <= now) ∧
  (now ≠ UINT64_MAX → now < deadline →
     let ms := ms_left deadline now in
     1 <= ms <= INT_MAX ∧ (ms - 1) * 1000000 < deadline - now ∧
     (ms < INT_MAX → deadline - now <= ms * 1000000)).
Proof.
  unfold in_width. intros Hd Hn. unfold ms_left, INT_MAX, UINT64_MAX.
  destruct (Z.eqb_spec now 18446744073709551615) as [Hm|Hm]; [split; [split; auto|done]|].
  destruct (Z.leb_spec deadline now) as [Hle|Hlt]; [split; [split; auto|lia]|]. simpl orb. cbv iota zeta.
  rewrite !(wrap_small 64) by (unfold in_width; Z.to_euclidean_division_equations; lia).
  split.
  - split; [|lia]. case_tests; unbool; Z.to_euclidean_division_equations; lia.
  - intros _ _. case_tests; unbool; split_and!; Z.to_euclidean_division_equations; lia.
Qed.

Lemma ms_left_correct_witness : ms_left 6000000001 5000000000 = 1001.
Proof.
  destruct (ms_left_correct 6000000001 5000000000) as [_ H]; [unfold in_width; lia..|].
  destruct (H ltac:(discriminate) ltac:(lia)) as (H1 & H2 & H3). unfold INT_MAX in *. lia.
Defined.

(** ** Translation *)

Lemma flag_bit f k m : 0 <= k → m = 2 ^ k → negb (Z.land f m =? 0) = Z.testbit f k.
Proof. intros Hk ->. by rewrite land_pow2_eqb, negb_involutive. Qed.

Lemma flags_land f : qcpu_adapter_flags f = Z.land f 15.
Proof.
  unfold qcpu_adapter_flags.
  rewrite (flag_bit f 0 Device.FLAG_SOFTWARE_VIRTUAL_QCPU), (flag_bit f 1 Device.FLAG_CLASSICAL_HOST),
    (flag_bit f 2 Device.FLAG_PHYSICAL_QPU_ABSENT), (flag_bit f 3 Device.FLAG_Q0_MOST_SIGNIFICANT) by done.
  change 15 with (Z.ones 4). apply Z.bits_inj'. intros i Hi. rewrite Z.land_spec, Z.testbit_ones_nonneg by done.
  assert (i = 0 ∨ i = 1 ∨ i = 2 ∨ i = 3 ∨ 4 <= i) as [->|[->|[->|[->|Hge]]]] by lia.
  1-4: destruct (Z.testbit f 0), (Z.testbit f 1), (Z.testbit f 2), (Z.testbit f 3); reflexivity.
  assert ((i <? 4) = false) as -> by lia. rewrite andb_false_r. apply (testbit_above i ltac:(lia) _ 4); [|lia].
  destruct (Z.testbit f 0), (Z.testbit f 1), (Z.testbit f 2), (Z.testbit f 3); vm_compute; split; congruence.
Qed.

(** Translation: the adapter passes a request on with the daemon's magic
    number and version and every parameter unchanged, and refuses an unknown
    command; it passes a response on field by field, with the status kept
    (unknown ones become IO), the four flags kept and the rest dropped, and
    reports [-EIO] with status KERNEL when the norm has no Q32.32 form. *)
Theorem translation_correct (q : Uapi.request_v1) (r : Device.Response) :
  (∀ t, qcpu_adapter_translate_request q = inl t →
     Device.req_magic t = Device.REQUEST_MAGIC ∧ Device.req_version t = Device.PROTOCOL_VERSION ∧
     Device.req_command t = Uapi.ureq_command q ∧ Device.req_qubits t = Uapi.ureq_qubits q ∧
     Device.req_shots t = Uapi.ureq_shots q ∧ Device.req_seed t = Uapi.ureq_seed q) ∧
  (qcpu_adapter_translate_request q = inr (- EOPNOTSUPP) ↔
     Uapi.ureq_command q ≠ Uapi.COMMAND_STATUS ∧ Uapi.ureq_command q ≠ Uapi.COMMAND_RUN_GHZ) ∧
  let '(res, u) := qcpu_adapter_translate_response r in
  Uapi.ursp_magic u = Uapi.RESPONSE_MAGIC ∧ Uapi.ursp_version u = Uapi.PROTOCOL_VERSION ∧
  Uapi.ursp_flags u = Z.land (Device.rsp_flags r) 15 ∧
  Uapi.ursp_qubits u = Device.rsp_qubits r ∧ Uapi.ursp_basis_states u = Device.rsp_basis_states r ∧
  Uapi.ursp_shots u = Device.rsp_shots r ∧ Uapi.ursp_measured_state u = Device.rsp_measured_state r ∧
  Uapi.ursp_invalid_results u = Device.rsp_invalid_results r ∧
  match qcpu_mock_norm_to_q32_32 (Device.rsp_norm r) (Some 0) with
  | inl v => Uapi.ursp_norm_q32_32 u = v ∧
      (0 <= Device.rsp_status r <= 6 → Uapi.ursp_status u = Device.rsp_status r) ∧
      (Device.rsp_status r < 0 ∨ 6 < Device.rsp_status r → Uapi.ursp_status u = Uapi.STATUS_IO) ∧
      (res = 0 ↔ Device.rsp_status r = Device.STATUS_OK)
  | inr _ => Uapi.ursp_status u = Uapi.STATUS_KERNEL ∧ res = - EIO
  end.
Proof.
  split_and!.
  - intros t. unfold qcpu_adapter_translate_request.
    destruct (Z.eqb_spec (Uapi.ureq_command q) Uapi.COMMAND_STATUS) as [->|]; [by intros [= <-]|].
    destruct (Z.eqb_spec (Uapi.ureq_command q) Uapi.COMMAND_RUN_GHZ) as [->|]; [by intros [= <-]|done].
  - unfold qcpu_adapter_translate_request.
    destruct (Z.eqb_spec (Uapi.ureq_command q) Uapi.COMMAND_STATUS); [naive_solver|].
    destruct (Z.eqb_spec (Uapi.ureq_command q) Uapi.COMMAND_RUN_GHZ); naive_solver.
  - unfold qcpu_adapter_translate_response. rewrite flags_land.
    destruct (qcpu_mock_norm_to_q32_32 _ _) as [v|e]; simpl; split_and!; try done;
      unfold qcpu_adapter_status_result, qcpu_adapter_status, Device.STATUS_OK, Device.STATUS_BAD_MAGIC,
        Device.STATUS_BAD_VERSION, Device.STATUS_BAD_COMMAND, Device.STATUS_RANGE, Device.STATUS_KERNEL,
        Device.STATUS_IO, Uapi.STATUS_OK, Uapi.STATUS_BAD_MAGIC, Uapi.STATUS_BAD_VERSION,
        Uapi.STATUS_BAD_COMMAND, Uapi.STATUS_RANGE, Uapi.STATUS_KERNEL, Uapi.STATUS_IO.
    + intros. case_tests; unbool; lia.
    + intros. case_tests; unbool; lia.
    + generalize (Device.rsp_status r) as st. intros st.
      destruct (Z.eqb_spec st 0) as [->|]; [done|]. split; [|done].
      repeat (case_match; unbool; try done).
Qed.
