(* ===== verification/Frontend.v ===== *)
(** * The mock device front end

    [src/device/qcpu_mock_frontend.c]: one virtual device with at most one
    session and at most one exchange in flight. An exchange runs the back end
    in a worker thread; the caller waits for it up to a deadline, cancels it,
    waits a grace period, and abandons it.

    Everything between taking and releasing the mutex (a condition wait
    releases it) is one function on [fstate]: the fields of [struct qcpu_mock]
    the threads share and the heap of exchange tasks. A task that is not in
    the heap was freed; touching it gives [None]. Function pointers and the
    opaque back-end context are numbers. [FrontendSystem] composes the
    sections into threads. *)

From Stdlib Require Import ZArith Lia ZifyBool.
From stdpp Require Import base list numbers gmap.
From S2P Require Import Prelude.
From S2P Require Import Sys.
From S2P Require Import Protocol.
Import Uapi.
Open Scope Z_scope.

Definition CANCEL_GRACE_NS : Z := 100000000.
Definition DEFAULT_TIMEOUT_NS : Z := 1000000000.
Definition MAX_TIMEOUT_NS : Z := 5000000000.
Definition REQUIRED_FLAGS : Z :=
  Z.lor (Z.lor (Z.lor FLAG_SOFTWARE_VIRTUAL_QCPU FLAG_CLASSICAL_HOST) FLAG_PHYSICAL_QPU_ABSENT)
    FLAG_Q0_MOST_SIGNIFICANT.

(** ** State *)

(** [struct qcpu_backend_ops]: the pointers, [None] when null. *)
Record backend_ops := {
  op_exchange : option Z;
  op_cancel : option Z
}.

Definition no_ops : backend_ops := {| op_exchange := None; op_cancel := None |}.

(** [struct qcpu_exchange_task] *)
Record task := {
  references : Z;
  t_ops : backend_ops;
  t_context : Z;
  t_request : request_v1;
  t_response : response_v1;
  t_deadline : Z;
  t_result : Z;
  t_done : bool;
  t_abandoned : bool
}.

(** [struct qcpu_mock], without the paths and the synchronisation objects. *)
Record mock := {
  backend_name : list Z;
  driver_version : list Z;
  m_ops : backend_ops;
  m_context : Z;
  backend_attached : bool;
  session_open : bool;
  busy : bool;
  cancel_requested : bool;
  cancel_sent : bool;
  lock_fd : Z;
  active_task : option nat;
  device_state : Z;
  last_errno : Z;
  last_protocol_status : Z;
  completed_requests : Z;
  failed_requests : Z
}.

Record fstate := {
  mk : mock;
  heap : gmap nat task
}.

(** ** Field updates *)

Definition set_result (m : mock) (e st : Z) : mock :=
  {| backend_name := backend_name m; driver_version := driver_version m; m_ops := m_ops m;
     m_context := m_context m; backend_attached := backend_attached m; session_open := session_open m;
     busy := busy m; cancel_requested := cancel_requested m; cancel_sent := cancel_sent m;
     lock_fd := lock_fd m; active_task := active_task m; device_state := device_state m;
     last_errno := e; last_protocol_status := st;
     completed_requests := completed_requests m; failed_requests := failed_requests m |}.

Definition set_state (m : mock) (d : Z) : mock :=
  {| backend_name := backend_name m; driver_version := driver_version m; m_ops := m_ops m;
     m_context := m_context m; backend_attached := backend_attached m; session_open := session_open m;
     busy := busy m; cancel_requested := cancel_requested m; cancel_sent := cancel_sent m;
     lock_fd := lock_fd m; active_task := active_task m; device_state := d;
     last_errno := last_errno m; last_protocol_status := last_protocol_status m;
     completed_requests := completed_requests m; failed_requests := failed_requests m |}.

(** [busy], the two cancel flags and [active_task]. *)
Definition set_flight (m : mock) (b creq csent : bool) (t : option nat) : mock :=
  {| backend_name := backend_name m; driver_version := driver_version m; m_ops := m_ops m;
     m_context := m_context m; backend_attached := backend_attached m; session_open := session_open m;
     busy := b; cancel_requested := creq; cancel_sent := csent;
     lock_fd := lock_fd m; active_task := t; device_state := device_state m;
     last_errno := last_errno m; last_protocol_status := last_protocol_status m;
     completed_requests := completed_requests m; failed_requests := failed_requests m |}.

Definition set_counts (m : mock) (c f : Z) : mock :=
  {| backend_name := backend_name m; driver_version := driver_version m; m_ops := m_ops m;
     m_context := m_context m; backend_attached := backend_attached m; session_open := session_open m;
     busy := busy m; cancel_requested := cancel_requested m; cancel_sent := cancel_sent m;
     lock_fd := lock_fd m; active_task := active_task m; device_state := device_state m;
     last_errno := last_errno m; last_protocol_status := last_protocol_status m;
     completed_requests := c; failed_requests := f |}.

Definition set_session (m : mock) (fd : Z) (open : bool) : mock :=
  {| backend_name := backend_name m; driver_version := driver_version m; m_ops := m_ops m;
     m_context := m_context m; backend_attached := backend_attached m; session_open := open;
     busy := busy m; cancel_requested := cancel_requested m; cancel_sent := cancel_sent m;
     lock_fd := fd; active_task := active_task m; device_state := device_state m;
     last_errno := last_errno m; last_protocol_status := last_protocol_status m;
     completed_requests := completed_requests m; failed_requests := failed_requests m |}.

Definition set_backend_fields (m : mock) (name : list Z) (ops : backend_ops) (context : Z) (att : bool)
    (d : Z) : mock :=
  {| backend_name := name; driver_version := driver_version m; m_ops := ops;
     m_context := context; backend_attached := att; session_open := session_open m;
     busy := busy m; cancel_requested := cancel_requested m; cancel_sent := cancel_sent m;
     lock_fd := lock_fd m; active_task := active_task m; device_state := d;
     last_errno := last_errno m; last_protocol_status := last_protocol_status m;
     completed_requests := completed_requests m; failed_requests := failed_requests m |}.

(** ** Helpers *)

(** [qcpu_copy_text] of a string (its bytes, without the terminator) into
    [size] bytes: truncated, terminated and padded with zeros. *)
Definition qcpu_copy_text (size : nat) (source : option (list Z)) : list Z :=
  match size with
  | O => []
  | Datatypes.S n =>
      match source with
      | None => replicate size 0
      | Some text => take n text ++ replicate (size - length (take n text)) 0
      end
  end.

(** The bytes of a C string in a buffer: up to the first zero. *)
Fixpoint c_string (bs : list Z) : list Z :=
  match bs with
  | [] => []
  | b :: bs => if b =? 0 then [] else b :: c_string bs
  end.

Definition qcpu_timespec_to_ns (t : Z * Z) : Z := u64 (u64 (u64 t.1 * 1000000000) + u64 t.2).

Definition qcpu_ns_to_timespec (value : Z) : Z * Z := (value / 1000000000, value mod 1000000000).

Definition qcpu_set_failure_response (exchange : option exchange_v1) (protocol_status : Z)
    : option exchange_v1 :=
  match exchange with
  | None => None
  | Some ex =>
      Some {| ex_request := ex_request ex; ex_timeout_ns := ex_timeout_ns ex;
              ex_response :=
                {| ursp_magic := RESPONSE_MAGIC; ursp_version := PROTOCOL_VERSION;
                   ursp_status := u16 protocol_status; ursp_flags := REQUIRED_FLAGS;
                   ursp_qubits := ureq_qubits (ex_request ex); ursp_basis_states := 0;
                   ursp_shots := ureq_shots (ex_request ex); ursp_measured_state := 0;
                   ursp_invalid_results := 0; ursp_norm_q32_32 := 0 |} |}
  end.

Definition qcpu_record_result_locked (m : mock) (error_number protocol_status : Z) : mock :=
  set_result m error_number protocol_status.

Definition qcpu_status_to_errno (status : Z) : Z :=
  if status =? STATUS_OK then 0
  else if status =? STATUS_BAD_MAGIC then EPROTO
  else if status =? STATUS_BAD_VERSION then EPROTONOSUPPORT
  else if status =? STATUS_BAD_COMMAND then EOPNOTSUPP
  else if status =? STATUS_RANGE then ERANGE
  else if (status =? STATUS_KERNEL) || (status =? STATUS_IO) then EIO
  else if status =? STATUS_BACKEND_ABSENT then ENODEV
  else if status =? STATUS_BUSY then EBUSY
  else if status =? STATUS_TIMEOUT then ETIMEDOUT
  else if status =? STATUS_CANCELED then ECANCELED
  else EIO.

Definition qcpu_status_known (status : Z) : bool := status <=? STATUS_CANCELED.

(** Whether a cancel is to be sent, and the new state. *)
Definition qcpu_request_cancel_locked (m : mock) : bool * mock :=
  if negb (busy m) || cancel_sent m then (false, m)
  else (match op_cancel (m_ops m) with Some _ => true | None => false end,
        set_flight m (busy m) true true (active_task m)).

Definition qcpu_finalize_exchange_locked (m : mock) (offline success : bool)
    (error_number protocol_status : Z) : mock :=
  let m := if success then set_counts m (u64 (completed_requests m + 1)) (failed_requests m)
           else set_counts m (completed_requests m) (u64 (failed_requests m + 1)) in
  let m := qcpu_record_result_locked m error_number protocol_status in
  let m := set_flight m false false false (active_task m) in
  set_state m (if offline || negb (backend_attached m) then DEVICE_OFFLINE else DEVICE_IDLE).

(** ** Validation *)

(** The verdict on a back end's response: [inl tt] accepts it; [inr] gives the
    error number, the protocol status and whether the device goes offline. A
    shift of 64 or more is undefined ([None]). *)
Definition qcpu_validate_backend_response (request : request_v1) (response : response_v1)
    : option (unit + Z * Z * bool) :=
  if negb (ursp_magic response =? RESPONSE_MAGIC) then Some (inr (EIO, STATUS_IO, false))
  else if negb (ursp_version response =? PROTOCOL_VERSION) then Some (inr (EIO, STATUS_IO, false))
  else if negb (qcpu_status_known (ursp_status response)) then Some (inr (EIO, STATUS_IO, false))
  else if negb (ursp_status response =? STATUS_OK) then
    Some (inr (qcpu_status_to_errno (ursp_status response), ursp_status response,
               ursp_status response =? STATUS_BACKEND_ABSENT))
  else if negb (Z.land (ursp_flags response) REQUIRED_FLAGS =? REQUIRED_FLAGS)
  then Some (inr (EIO, STATUS_IO, false))
  else if negb (ursp_qubits response =? ureq_qubits request) ||
          negb (ursp_shots response =? ureq_shots request)
  then Some (inr (EIO, STATUS_IO, false))
  else if Z.shiftl 1 32 <? ursp_norm_q32_32 response then Some (inr (EIO, STATUS_KERNEL, false))
  else if ureq_command request =? COMMAND_RUN_GHZ then
    states ← c_shl 64 1 (ureq_qubits request);
    if negb (ursp_basis_states response =? states) then Some (inr (EIO, STATUS_KERNEL, false))
    else
      let all_one_state := u64 (states - 1) in
      if negb (ursp_measured_state response =? 0) && negb (ursp_measured_state response =? all_one_state)
      then Some (inr (EIO, STATUS_KERNEL, false))
      else if negb (ursp_invalid_results response =? 0) then Some (inr (EIO, STATUS_KERNEL, false))
      else Some (inl tt)
  else Some (inl tt).

(** What the checks before an exchange find: an error, or the deadline.
    [clock] is the answer of [clock_gettime]. *)
Definition precheck (m : mock) (clock : option (Z * Z)) (request : request_v1) (timeout : Z)
    : Z + Z * Z :=
  if negb (ureq_magic request =? REQUEST_MAGIC) then inr (EPROTO, STATUS_BAD_MAGIC)
  else if negb (ureq_version request =? PROTOCOL_VERSION) then inr (EPROTONOSUPPORT, STATUS_BAD_VERSION)
  else if negb (ureq_command request =? COMMAND_STATUS) && negb (ureq_command request =? COMMAND_RUN_GHZ)
  then inr (EOPNOTSUPP, STATUS_BAD_COMMAND)
  else if (if ureq_command request =? COMMAND_STATUS
           then negb (ureq_qubits request =? 0) || negb (ureq_shots request =? 0)
           else (ureq_qubits request =? 0) || (MAX_QUBITS <? ureq_qubits request) ||
                (ureq_shots request =? 0) || (MAX_SHOTS <? ureq_shots request))
  then inr (ERANGE, STATUS_RANGE)
  else
    let timeout_ns := if timeout =? 0 then DEFAULT_TIMEOUT_NS else timeout in
    if MAX_TIMEOUT_NS <? timeout_ns then inr (ERANGE, STATUS_RANGE) else
    match clock with
    | None => inr (EIO, STATUS_IO)
    | Some now =>
        let now_ns := qcpu_timespec_to_ns now in
        if UINT64_MAX - now_ns <? timeout_ns then inr (ERANGE, STATUS_RANGE)
        else if busy m then inr (EBUSY, STATUS_BUSY)
        else if negb (backend_attached m) ||
                match op_exchange (m_ops m) with None => true | Some _ => false end
        then inr (ENODEV, STATUS_BACKEND_ABSENT)
        else inl (u64 (now_ns + timeout_ns))
    end.

(** The outcome: [inl (deadline, exchange)] accepts; [inr errno] is -1. The
    device state becomes offline when the back end is absent. *)
Definition qcpu_prevalidate_exchange_locked (m : mock) (clock : option (Z * Z))
    (exchange : option exchange_v1) : mock * option exchange_v1 * (Z + Z) :=
  let reject m ex e st :=
    (qcpu_record_result_locked m e st, qcpu_set_failure_response ex st, inr e) in
  if negb (session_open m) then reject m exchange EBUSY STATUS_BUSY else
  match exchange with
  | None => (qcpu_record_result_locked m EINVAL STATUS_RANGE, None, inr EINVAL)
  | Some ex =>
      let ex := {| ex_request := ex_request ex; ex_timeout_ns := ex_timeout_ns ex;
                   ex_response := zero_response |} in
      match precheck m clock (ex_request ex) (ex_timeout_ns ex) with
      | inl deadline => (m, Some ex, inl deadline)
      | inr (e, st) =>
          reject (if st =? STATUS_BACKEND_ABSENT then set_state m DEVICE_OFFLINE else m) (Some ex) e st
      end
  end.

(** ** Sections of [qcpu_exchange_ioctl] *)

(** What the operating system answers while an exchange is set up: the clock,
    the new task ([None] when [calloc] fails), and the results of preparing the
    thread attributes and of creating the worker. *)
Record submit_env := {
  se_clock : option (Z * Z);
  se_alloc : option nat;
  se_attr : Z;
  se_create : Z
}.

Definition new_task (m : mock) (request : request_v1) (deadline : Z) : task :=
  {| references := 2; t_ops := m_ops m; t_context := m_context m; t_request := request;
     t_response := zero_response; t_deadline := deadline; t_result := 0; t_done := false;
     t_abandoned := false |}.

(** From the lock to the first wait: [inl t] has started the worker of task
    [t]; [inr errno] returns -1. *)
Definition exchange_submit (s : fstate) (env : submit_env) (exchange : option exchange_v1)
    : fstate * option exchange_v1 * (nat + Z) :=
  let '(m, exchange, r) := qcpu_prevalidate_exchange_locked (mk s) (se_clock env) exchange in
  match r with
  | inr e => ({| mk := m; heap := heap s |}, exchange, inr e)
  | inl deadline =>
      let fail m e :=
        ({| mk := qcpu_finalize_exchange_locked m false false e STATUS_IO; heap := heap s |},
         qcpu_set_failure_response exchange STATUS_IO, inr e) in
      match se_alloc env, exchange with
      | Some t, Some ex =>
          let m1 := set_state (set_flight m true false false (Some t)) DEVICE_BUSY in
          let dropped := set_flight m1 true false false None in
          if negb (se_attr env =? 0) then fail dropped (se_attr env)
          else if negb (se_create env =? 0) then fail dropped (se_create env)
          else ({| mk := m1; heap := <[t := new_task m (ex_request ex) deadline]> (heap s) |},
                exchange, inl t)
      | _, _ => fail m ENOMEM
      end
  end.

(** Waking from the first wait with [wait_result]: [None] waits again (or, when
    the task is done, leaves the loop with the two flags below unset);
    [Some (timed_out, call_cancel)] leaves the loop. *)
Definition exchange_wake (s : fstate) (t : nat) (wait_result : Z) : option (fstate * option (bool * bool)) :=
  task ← heap s !! t;
  if (wait_result =? ETIMEDOUT) && negb (t_done task) then
    let '(call_cancel, m) := qcpu_request_cancel_locked (mk s) in
    Some ({| mk := m; heap := heap s |}, Some (true, call_cancel))
  else if negb (wait_result =? 0) && negb (wait_result =? EINTR) then
    let '(call_cancel, m) := qcpu_request_cancel_locked (mk s) in
    Some ({| mk := m; heap := heap s |}, Some (true, call_cancel))
  else if t_done task then Some (s, Some (false, false))
  else Some (s, None).

(** After locking again: whether to wait for the grace period. *)
Definition exchange_relock (s : fstate) (t : nat) (timed_out : bool) (clock : option (Z * Z)) : option bool :=
  task ← heap s !! t;
  if timed_out && negb (t_done task) then
    match clock with
    | None => Some false
    | Some now => Some (CANCEL_GRACE_NS <=? UINT64_MAX - qcpu_timespec_to_ns now)
    end
  else Some false.

(** Waking from the grace wait: whether to wait on. *)
Definition grace_wake (s : fstate) (t : nat) (wait_result : Z) : option bool :=
  task ← heap s !! t;
  if (wait_result =? ETIMEDOUT) && negb (t_done task) then Some false
  else if negb (wait_result =? 0) && negb (wait_result =? EINTR) then Some false
  else Some (negb (t_done task)).

(** The verdict on a finished task: the error number (0 for success), the
    protocol status and whether the device goes offline. *)
Definition exchange_verdict (m : mock) (task : task) (timed_out : bool) : option (Z * Z * bool) :=
  if timed_out then Some (ETIMEDOUT, STATUS_TIMEOUT, false)
  else if cancel_requested m || (t_result task =? - ECANCELED) then Some (ECANCELED, STATUS_CANCELED, false)
  else if negb (t_result task =? 0) then
    if t_result task =? - ENODEV then Some (ENODEV, STATUS_BACKEND_ABSENT, true)
    else if t_result task =? - ETIMEDOUT then Some (ETIMEDOUT, STATUS_TIMEOUT, false)
    else if t_result task =? - ECANCELED then Some (ECANCELED, STATUS_CANCELED, false)
    else if qcpu_status_known (ursp_status (t_response task)) &&
            negb (ursp_status (t_response task) =? STATUS_OK)
    then Some (qcpu_status_to_errno (ursp_status (t_response task)), ursp_status (t_response task),
               ursp_status (t_response task) =? STATUS_BACKEND_ABSENT)
    else Some (EIO, STATUS_IO, false)
  else
    v ← qcpu_validate_backend_response (t_request task) (t_response task);
    match v with
    | inl _ => Some (0, STATUS_OK, false)
    | inr (e, st, offline) => Some (e, st, offline)
    end.

Definition abandon (task : task) : fstate → nat → fstate := λ s t,
  {| mk := set_result (set_counts (mk s) (completed_requests (mk s)) (u64 (failed_requests (mk s) + 1)))
             ETIMEDOUT STATUS_TIMEOUT;
     heap := <[t := {| references := references task; t_ops := t_ops task; t_context := t_context task;
                       t_request := t_request task; t_response := t_response task;
                       t_deadline := t_deadline task; t_result := t_result task; t_done := t_done task;
                       t_abandoned := true |}]> (heap s) |}.

(** From the end of the waits to the unlock: the error number (0 is success)
    and what the caller finds in its exchange. *)
Definition exchange_finish (s : fstate) (t : nat) (timed_out : bool) (exchange : exchange_v1)
    : option (fstate * exchange_v1 * Z) :=
  task ← heap s !! t;
  if timed_out && negb (t_done task) then
    ex ← qcpu_set_failure_response (Some exchange) STATUS_TIMEOUT;
    Some (abandon task s t, ex, ETIMEDOUT)
  else
    '(e, st, offline) ← exchange_verdict (mk s) task timed_out;
    ex ← (if e =? 0
          then Some {| ex_request := ex_request exchange; ex_timeout_ns := ex_timeout_ns exchange;
                       ex_response := t_response task |}
          else qcpu_set_failure_response (Some exchange) st);
    let m := set_flight (mk s) (busy (mk s)) (cancel_requested (mk s)) (cancel_sent (mk s)) None in
    Some ({| mk := qcpu_finalize_exchange_locked m offline (e =? 0) e st; heap := heap s |}, ex, e).

(** [qcpu_task_release]: the last reference frees the task. *)
Definition qcpu_task_release (s : fstate) (t : nat) : option fstate :=
  task ← heap s !! t;
  if references task =? 1 then Some {| mk := mk s; heap := delete t (heap s) |}
  else Some {| mk := mk s;
               heap := <[t := {| references := u32 (references task - 1); t_ops := t_ops task;
                                 t_context := t_context task; t_request := t_request task;
                                 t_response := t_response task; t_deadline := t_deadline task;
                                 t_result := t_result task; t_done := t_done task;
                                 t_abandoned := t_abandoned task |}]> (heap s) |}.

(** ** The worker *)

(** The section of [qcpu_exchange_worker] after the back end returned [result]
    with [response] in the task. *)
Definition worker_done (s : fstate) (t : nat) (result : Z) (response : response_v1) : option fstate :=
  task ← heap s !! t;
  let task' := {| references := references task; t_ops := t_ops task; t_context := t_context task;
                  t_request := t_request task; t_response := response; t_deadline := t_deadline task;
                  t_result := result; t_done := true; t_abandoned := t_abandoned task |} in
  let m := mk s in
  let m := if t_abandoned task && bool_decide (active_task m = Some t) then
             set_state (set_flight m false false false None)
               (if negb (backend_attached m) || (result =? - ENODEV) then DEVICE_OFFLINE else DEVICE_IDLE)
           else m in
  Some {| mk := m; heap := <[t := task']> (heap s) |}.

(** ** Sessions *)

(** [qcpu_mock_open]: the answers of [open], [fchmod] and [flock] (0 or the
    errno, and for [open] the descriptor); the result is the errno, 0 for
    success. *)
Definition qcpu_mock_open (s : fstate) (open_ : Z + Z) (fchmod_ flock_ : Z) : fstate * Z :=
  let m := mk s in
  if session_open m then (s, EBUSY)
  else match open_ with
  | inr e => (s, e)
  | inl descriptor =>
      if negb (fchmod_ =? 0) then (s, fchmod_)
      else if negb (flock_ =? 0) then (s, if flock_ =? EAGAIN then EBUSY else flock_)
      else ({| mk := set_session m descriptor true; heap := heap s |}, 0)
  end.

(** The first section of [qcpu_mock_close]. [CloseError e] returns -1 with
    errno [e]; [CloseNow] goes on to release the session; [CloseWait c] waits
    for the exchange in flight, first calling the back end's cancel when [c]. *)
Inductive close_start :=
| CloseError (e : Z)
| CloseNow
| CloseWait (call_cancel : bool).

Definition close_begin (s : fstate) : option (fstate * close_start) :=
  let m := mk s in
  if negb (session_open m) then Some (s, CloseError EINVAL)
  else
    abandoned ← (match busy m, active_task m with
                 | true, Some t => task ← heap s !! t; Some (t_abandoned task)
                 | _, _ => Some false
                 end);
    if abandoned : bool then Some (s, CloseError EBUSY)
    else if busy m then
      let '(call_cancel, m) := qcpu_request_cancel_locked m in
      Some ({| mk := m; heap := heap s |}, CloseWait call_cancel)
    else Some (s, CloseNow).

(** The last section of [qcpu_mock_close]: [None] waits on while an exchange
    is in flight; otherwise the session ends. *)
Definition close_end (s : fstate) (unlock_ close_ : Z) : option (fstate * Z) :=
  if busy (mk s) then None
  else
    let descriptor := lock_fd (mk s) in
    let s' := {| mk := set_session (mk s) (-1) false; heap := heap s |} in
    Some (s', if 0 <=? descriptor then (if negb (unlock_ =? 0) then unlock_ else close_) else 0).

(** [qcpu_mock_destroy]: 0, or the errno, with the results of destroying the
    condition and the mutex. *)
Definition qcpu_mock_destroy (s : fstate) (cond_ mutex_ : Z) : Z :=
  if session_open (mk s) || busy (mk s) then EBUSY
  else if negb (cond_ =? 0) then cond_ else mutex_.

(** [qcpu_mock_set_backend]: the errno, 0 for success. *)
Definition STR_ABSENT : list Z := [97; 98; 115; 101; 110; 116].
Definition STR_BACKEND_DEFAULT : list Z := [115; 116; 97; 103; 101; 50; 45; 109; 111; 99; 107].
Definition STR_VERSION_DEFAULT : list Z := [118; 52; 46; 55; 45; 115; 116; 97; 103; 101; 50; 97].

Definition qcpu_mock_set_backend (s : fstate) (ops : option backend_ops) (context : Z)
    (name : option (list Z)) : fstate * Z :=
  let m := mk s in
  let size := Z.to_nat BACKEND_NAME_BYTES in
  if busy m then (s, EBUSY)
  else match ops with
  | None =>
      ({| mk := set_backend_fields m (qcpu_copy_text size (Some STR_ABSENT)) no_ops 0 false DEVICE_OFFLINE;
          heap := heap s |}, 0)
  | Some ops =>
      match op_exchange ops with
      | None => (s, EINVAL)
      | Some _ =>
          ({| mk := set_backend_fields m
                (qcpu_copy_text size (Some (default STR_BACKEND_DEFAULT name))) ops context true DEVICE_IDLE;
              heap := heap s |}, 0)
      end
  end.

(** ** Creation *)

Definition EPERM : Z := 1.
Definition ENOTDIR : Z := 20.
Definition PATH_MAX : nat := 4096.
(** "qcpu_mock.lock" *)
Definition LOCK_FILE : list Z := [113; 99; 112; 117; 95; 109; 111; 99; 107; 46; 108; 111; 99; 107].

(** The answers of [realpath] (a string or the errno), [stat] (mode and owner,
    or the errno) and [geteuid]; the result is the resolved directory as a
    string, or the errno. [None] is an empty or null argument. *)
Definition qcpu_validate_runtime_directory (runtime_dir : option (list Z)) (realpath_ : list Z + Z)
    (stat_ : Z * Z + Z) (euid : Z) (resolved_size : nat) : list Z + Z :=
  match runtime_dir with
  | None | Some [] => inr EINVAL
  | Some _ =>
      match realpath_ with
      | inr e => inr e
      | inl canonical =>
          if bool_decide (resolved_size ≤ length canonical)%nat then inr ENAMETOOLONG else
          match stat_ with
          | inr e => inr e
          | inl (st_mode, st_uid) =>
              if negb (Z.land st_mode 0xF000 =? 0x4000) then inr ENOTDIR
              else if negb (st_uid =? euid) then inr EPERM
              else if negb (Z.land st_mode 63 =? 0) then inr EPERM
              else inl (c_string (qcpu_copy_text resolved_size (Some canonical)))
          end
      end
  end.

(** The path of the lock file, or the errno. *)
Definition qcpu_build_lock_path (runtime_dir : list Z) : list Z + Z :=
  let path := runtime_dir ++ 47 :: LOCK_FILE in
  if bool_decide (PATH_MAX ≤ length path)%nat then inr ENAMETOOLONG else inl path.

(** What the operating system answers during a creation. *)
Record create_env := {
  ce_alloc : bool;
  ce_realpath : list Z + Z;
  ce_stat : Z * Z + Z;
  ce_euid : Z;
  ce_mutex : Z;
  ce_condattr : Z;
  ce_setclock : Z;
  ce_cond : Z
}.

(** [struct qcpu_mock_config] *)
Record mock_config := {
  cfg_runtime_dir : option (list Z);
  cfg_backend_name : option (list Z);
  cfg_driver_version : option (list Z);
  cfg_ops : option backend_ops;
  cfg_context : Z
}.

(** The new device and the path of its lock file, or the errno. *)
Definition qcpu_mock_create (env : create_env) (out_present : bool) (config : option mock_config)
    : mock * list Z + Z :=
  match out_present, config with
  | true, Some cfg =>
      if negb (ce_alloc env) then inr ENOMEM else
      match qcpu_validate_runtime_directory (cfg_runtime_dir cfg) (ce_realpath env) (ce_stat env)
              (ce_euid env) PATH_MAX with
      | inr e => inr e
      | inl dir =>
          match qcpu_build_lock_path dir with
          | inr e => inr e
          | inl lock_path =>
              if negb (ce_mutex env =? 0) then inr (ce_mutex env)
              else if negb (ce_condattr env =? 0) then inr (ce_condattr env)
              else if negb (ce_setclock env =? 0) then inr (ce_setclock env)
              else if negb (ce_cond env =? 0) then inr (ce_cond env)
              else
                let base att ops context d :=
                  {| backend_name := qcpu_copy_text (Z.to_nat BACKEND_NAME_BYTES)
                       (Some (default STR_BACKEND_DEFAULT (cfg_backend_name cfg)));
                     driver_version := qcpu_copy_text (Z.to_nat DRIVER_VERSION_BYTES)
                       (Some (default STR_VERSION_DEFAULT (cfg_driver_version cfg)));
                     m_ops := ops; m_context := context; backend_attached := att; session_open := false;
                     busy := false; cancel_requested := false; cancel_sent := false; lock_fd := -1;
                     active_task := None; device_state := d; last_errno := 0;
                     last_protocol_status := STATUS_OK; completed_requests := 0; failed_requests := 0 |} in
                match cfg_ops cfg with
                | Some ops =>
                    match op_exchange ops with
                    | None => inr EINVAL
                    | Some _ => inl (base true ops (cfg_context cfg) DEVICE_IDLE, lock_path)
                    end
                | None => inl (base false no_ops 0 DEVICE_OFFLINE, lock_path)
                end
          end
      end
  | _, _ => inr EINVAL
  end.

(** ** Queries *)

(** The filled structure, or the errno when the pointer is null. *)
Definition qcpu_fill_caps (s : fstate) (caps_present : bool) : caps_v1 + Z :=
  if negb caps_present then inr EINVAL
  else inl
    {| caps_abi_version := ABI_VERSION; caps_protocol_version := PROTOCOL_VERSION;
       caps_max_qubits := MAX_QUBITS; caps_max_shots := MAX_SHOTS; caps_max_inflight := MAX_INFLIGHT;
       caps_flags := REQUIRED_FLAGS;
       caps_backend := qcpu_copy_text (Z.to_nat BACKEND_NAME_BYTES) (Some (c_string (backend_name (mk s))));
       caps_driver_version :=
         qcpu_copy_text (Z.to_nat DRIVER_VERSION_BYTES) (Some (c_string (driver_version (mk s))));
       caps_reserved := replicate 8 0 |}.

Definition qcpu_fill_status (s : fstate) (status_present : bool) : status_v1 + Z :=
  if negb status_present then inr EINVAL
  else inl
    {| st_device_state := device_state (mk s);
       st_active_client_sessions := if session_open (mk s) then 1 else 0;
       st_last_errno := last_errno (mk s); st_last_protocol_status := last_protocol_status (mk s);
       st_completed_requests := completed_requests (mk s); st_failed_requests := failed_requests (mk s) |}.

(** ** Dispatch *)

(** [_IOR('Q', nr, size)] and [_IOWR('Q', nr, size)] *)
Definition ioc (dir nr size : Z) : Z :=
  Z.lor (Z.lor (Z.lor (Z.shiftl dir 30) (Z.shiftl size 16)) (Z.shiftl 81 8)) nr.
Definition IOC_GET_CAPS_V1 : Z := ioc 2 0 80.
Definition IOC_GET_STATUS_V1 : Z := ioc 2 1 32.
Definition IOC_EXCHANGE_V1 : Z := ioc 3 16 88.

Inductive ioctl_call :=
| IoctlCaps
| IoctlStatus
| IoctlExchange
| IoctlError (e : Z).

(** Which operation [qcpu_mock_ioctl] runs for a request code and a device
    pointer. *)
Definition qcpu_mock_ioctl (mock_present : bool) (request : Z) : ioctl_call :=
  if negb mock_present then IoctlError EINVAL
  else if request =? IOC_GET_CAPS_V1 then IoctlCaps
  else if request =? IOC_GET_STATUS_V1 then IoctlStatus
  else if request =? IOC_EXCHANGE_V1 then IoctlExchange
  else IoctlError ENOTTY.
