(* ===== verification/FrontendSystem.v ===== *)
(** * The threads of the front end

    The sections of [Frontend] composed into threads: any number of threads
    call [qcpu_mock_ioctl], [qcpu_mock_open], [qcpu_mock_close] and
    [qcpu_mock_set_backend]; each accepted exchange has a caller and a worker.
    A step ([fstep]) is one section of one thread, in any order. A condition
    wait may wake at any time with any result; the worker's back end may
    return anything.

    Callers and workers are indexed by their task. [results] logs what each
    exchange that started a worker returns: its exchange structure and errno. *)

From Stdlib Require Import ZArith Lia ZifyBool.
From stdpp Require Import base list numbers gmap relations.
From S2P Require Import Prelude.
From S2P Require Import Sys.
From S2P Require Import Protocol.
From S2P Require Import Frontend.
Import Uapi.
Open Scope Z_scope.

(** ** Threads *)

Inductive caller :=
| CWaiting (ex : exchange_v1)
| CUnlocked (ex : exchange_v1) (timed_out call_cancel : bool)
| CGrace (ex : exchange_v1)
| CReleasing.

Inductive worker :=
| WRunning
| WReleasing.

Inductive closer :=
| ClCanceling
| ClWaiting.

Record system := {
  fs : fstate;
  callers : gmap nat caller;
  workers : gmap nat worker;
  closers : gmap nat closer;
  results : list (exchange_v1 * Z)
}.

(** The exchange of a caller that still needs its task. *)
Definition in_exchange (c : option caller) : option exchange_v1 :=
  match c with
  | Some (CWaiting ex) | Some (CUnlocked ex _ _) | Some (CGrace ex) => Some ex
  | _ => None
  end.

(** The fields of a request and the status of a response are unsigned. *)
Definition request_unsigned (r : request_v1) : Prop := 0 <= ureq_qubits r ∧ 0 <= ureq_shots r.
Definition response_unsigned (r : response_v1) : Prop := 0 <= ursp_status r.

(** The section after the waits, and its log entry. *)
Definition finish_to (s : system) (t : nat) (r : fstate * exchange_v1 * Z) : system :=
  let '(f, ex, e) := r in
  {| fs := f; callers := <[t := CReleasing]> (callers s); workers := workers s; closers := closers s;
     results := results s ++ [(ex, e)] |}.

Definition with_fs (s : system) (f : fstate) : system :=
  {| fs := f; callers := callers s; workers := workers s; closers := closers s; results := results s |}.
Definition with_caller (s : system) (f : fstate) (t : nat) (c : caller) : system :=
  {| fs := f; callers := <[t := c]> (callers s); workers := workers s; closers := closers s;
     results := results s |}.
Definition with_closer (s : system) (f : fstate) (i : nat) (c : option closer) : system :=
  {| fs := f; callers := callers s; workers := workers s;
     closers := match c with Some c => <[i := c]> (closers s) | None => delete i (closers s) end;
     results := results s |}.

Inductive fstep (s : system) : system → Prop :=
(* qcpu_exchange_ioctl *)
| fs_reject ex env f ex' e :
    exchange_submit (fs s) env ex = (f, ex', inr e) → fstep s (with_fs s f)
| fs_submit ex env f ex' t :
    (se_alloc env = Some t → heap (fs s) !! t = None) → request_unsigned (ex_request ex) →
    exchange_submit (fs s) env (Some ex) = (f, Some ex', inl t) →
    fstep s {| fs := f; callers := <[t := CWaiting ex']> (callers s); workers := <[t := WRunning]> (workers s);
               closers := closers s; results := results s |}
| fs_wake_again t ex wait_result f :
    callers s !! t = Some (CWaiting ex) → exchange_wake (fs s) t wait_result = Some (f, None) →
    fstep s (with_fs s f)
| fs_wake t ex wait_result f timed_out call_cancel :
    callers s !! t = Some (CWaiting ex) →
    exchange_wake (fs s) t wait_result = Some (f, Some (timed_out, call_cancel)) →
    fstep s (with_caller s f t (CUnlocked ex timed_out call_cancel))
| fs_call_cancel t ex timed_out :
    callers s !! t = Some (CUnlocked ex timed_out true) →
    fstep s (with_caller s (fs s) t (CUnlocked ex timed_out false))
| fs_relock_grace t ex timed_out clock :
    callers s !! t = Some (CUnlocked ex timed_out false) →
    exchange_relock (fs s) t timed_out clock = Some true →
    fstep s (with_caller s (fs s) t (CGrace ex))
| fs_relock_finish t ex timed_out clock r :
    callers s !! t = Some (CUnlocked ex timed_out false) →
    exchange_relock (fs s) t timed_out clock = Some false →
    exchange_finish (fs s) t timed_out ex = Some r →
    fstep s (finish_to s t r)
| fs_grace_finish t ex wait_result r :
    callers s !! t = Some (CGrace ex) →
    grace_wake (fs s) t wait_result = Some false →
    exchange_finish (fs s) t true ex = Some r →
    fstep s (finish_to s t r)
| fs_caller_release t f :
    callers s !! t = Some CReleasing → qcpu_task_release (fs s) t = Some f →
    fstep s {| fs := f; callers := delete t (callers s); workers := workers s; closers := closers s;
               results := results s |}
(* qcpu_exchange_worker *)
| fs_worker_done t result response f :
    workers s !! t = Some WRunning → response_unsigned response →
    worker_done (fs s) t result response = Some f →
    fstep s {| fs := f; callers := callers s; workers := <[t := WReleasing]> (workers s);
               closers := closers s; results := results s |}
| fs_worker_release t f :
    workers s !! t = Some WReleasing → qcpu_task_release (fs s) t = Some f →
    fstep s {| fs := f; callers := callers s; workers := delete t (workers s); closers := closers s;
               results := results s |}
(* qcpu_mock_close *)
| fs_close_wait i f call_cancel :
    closers s !! i = None → close_begin (fs s) = Some (f, CloseWait call_cancel) →
    fstep s (with_closer s f i (Some (if call_cancel then ClCanceling else ClWaiting)))
| fs_close_cancel i :
    closers s !! i = Some ClCanceling → fstep s (with_closer s (fs s) i (Some ClWaiting))
| fs_close_end i unlock_ close_ f e :
    closers s !! i = Some ClWaiting → close_end (fs s) unlock_ close_ = Some (f, e) →
    fstep s (with_closer s f i None)
| fs_close_now i f0 unlock_ close_ f e :
    closers s !! i = None → close_begin (fs s) = Some (f0, CloseNow) →
    close_end f0 unlock_ close_ = Some (f, e) →
    fstep s (with_fs s f)
(* qcpu_mock_open, qcpu_mock_set_backend *)
| fs_open open_ fchmod_ flock_ f e :
    qcpu_mock_open (fs s) open_ fchmod_ flock_ = (f, e) → fstep s (with_fs s f)
| fs_set_backend ops context name f e :
    qcpu_mock_set_backend (fs s) ops context name = (f, e) → fstep s (with_fs s f).

(** A thread whose next section touches a freed task or shifts too far. *)
Inductive undefined (s : system) : Prop :=
| ub_wake t ex wait_result :
    callers s !! t = Some (CWaiting ex) → exchange_wake (fs s) t wait_result = None → undefined s
| ub_relock t ex timed_out c clock :
    callers s !! t = Some (CUnlocked ex timed_out c) → exchange_relock (fs s) t timed_out clock = None →
    undefined s
| ub_relock_finish t ex timed_out c clock :
    callers s !! t = Some (CUnlocked ex timed_out c) → exchange_relock (fs s) t timed_out clock = Some false →
    exchange_finish (fs s) t timed_out ex = None → undefined s
| ub_grace t ex wait_result :
    callers s !! t = Some (CGrace ex) → grace_wake (fs s) t wait_result = None → undefined s
| ub_grace_finish t ex :
    callers s !! t = Some (CGrace ex) → exchange_finish (fs s) t true ex = None → undefined s
| ub_caller_release t :
    callers s !! t = Some CReleasing → qcpu_task_release (fs s) t = None → undefined s
| ub_worker_done t result response :
    workers s !! t = Some WRunning → worker_done (fs s) t result response = None → undefined s
| ub_worker_release t :
    workers s !! t = Some WReleasing → qcpu_task_release (fs s) t = None → undefined s
| ub_close :
    close_begin (fs s) = None → undefined s.

(** ** The invariant *)

Record mock_ok (m : mock) : Prop := {
  mo_active : busy m = true ↔ is_Some (active_task m);
  mo_state : busy m = true ↔ device_state m = DEVICE_BUSY;
  mo_session : busy m = true → session_open m = true;
  mo_cancel : busy m = false → cancel_requested m = false ∧ cancel_sent m = false;
  mo_backend : backend_attached m = true → is_Some (op_exchange (m_ops m))
}.

(** A request that passed the checks. *)
Definition request_checked (r : request_v1) : Prop :=
  ureq_command r = COMMAND_RUN_GHZ → 1 <= ureq_qubits r <= MAX_QUBITS ∧ 1 <= ureq_shots r <= MAX_SHOTS.

(** A task, its caller and its worker: the reference count is the number of
    threads that hold it, only the task in flight has a caller waiting or a
    worker running, the task in flight is either waited for or abandoned to a
    running worker, and a caller that did not time out found it done. *)
Definition task_ok (act : option nat) (t : nat) (h : option task) (c : option caller) (w : option worker) : Prop :=
  match h with
  | None => c = None ∧ w = None ∧ act ≠ Some t
  | Some k =>
      references k = Z.b2z (bool_decide (is_Some c)) + Z.b2z (bool_decide (is_Some w)) ∧
      (is_Some c ∨ is_Some w) ∧
      (w = Some WRunning ↔ t_done k = false) ∧
      (w = Some WRunning → act = Some t) ∧
      (is_Some (in_exchange c) → act = Some t ∧ t_abandoned k = false) ∧
      (act = Some t → is_Some (in_exchange c) ∨ (t_abandoned k = true ∧ w = Some WRunning)) ∧
      (∀ ex cc, c = Some (CUnlocked ex false cc) → t_done k = true) ∧
      request_checked (t_request k)
  end.

Record sinv (s : system) : Prop := {
  si_mock : mock_ok (mk (fs s));
  si_task t : task_ok (active_task (mk (fs s))) t (heap (fs s) !! t) (callers s !! t) (workers s !! t)
}.

(** ** What the sections do to the device *)

Lemma finalize_ok m offline success e st :
  mock_ok m → active_task m = None →
  mock_ok (qcpu_finalize_exchange_locked m offline success e st) ∧
  active_task (qcpu_finalize_exchange_locked m offline success e st) = None.
Proof.
  intros [Ha Hs Hse Hc Hb] Hn. split; [|by destruct success]. unfold qcpu_finalize_exchange_locked.
  destruct success; (split; simpl; [| |done|done|done]);
    [rewrite Hn; split; [done|by intros []]|case_tests; done|rewrite Hn; split; [done|by intros []]|case_tests; done].
Qed.

Lemma request_cancel_ok m :
  mock_ok m → mock_ok (qcpu_request_cancel_locked m).2 ∧
  active_task (qcpu_request_cancel_locked m).2 = active_task m ∧
  completed_requests (qcpu_request_cancel_locked m).2 = completed_requests m.
Proof.
  intros Hm. pose proof Hm as [Ha Hs Hse Hc Hb]. unfold qcpu_request_cancel_locked.
  destruct (busy m) eqn:Hbusy; simpl; [|done]. destruct (cancel_sent m); simpl; [done|].
  done.
Qed.

Lemma result_ok m e st : mock_ok m → mock_ok (set_result m e st).
Proof. intros []. by split. Qed.

Lemma precheck_ok m clock r timeout :
  match precheck m clock r timeout with
  | inl _ => busy m = false ∧ is_Some (op_exchange (m_ops m)) ∧ backend_attached m = true ∧
             (request_unsigned r → request_checked r)
  | inr (e, st) => e ≠ 0 ∧ st ≠ STATUS_OK ∧ 0 <= st <= STATUS_CANCELED ∧
                   (st = STATUS_BACKEND_ABSENT → busy m = false)
  end.
Proof.
  unfold precheck, request_checked, request_unsigned, COMMAND_STATUS, COMMAND_RUN_GHZ.
  repeat (case_match; simplify_eq/=; try done). all: unbool; repeat split; eauto; unfold MAX_QUBITS, MAX_SHOTS in *; try lia.
  all: try (split; congruence || lia).
Qed.

(** A rejected exchange leaves the task in flight and the heap alone. *)
Lemma submit_reject s env ex f ex' e :
  exchange_submit s env ex = (f, ex', inr e) → mock_ok (mk s) →
  mock_ok (mk f) ∧ active_task (mk f) = active_task (mk s) ∧ heap f = heap s ∧
  completed_requests (mk f) = completed_requests (mk s).
Proof.
  unfold exchange_submit, qcpu_prevalidate_exchange_locked, qcpu_record_result_locked.
  intros Hsub Hm. pose proof Hm as [Ha Hs Hse Hc Hb].
  destruct (session_open (mk s)); simpl in Hsub; [|by simplify_eq; split_and!; [apply result_ok|..]].
  destruct ex as [ex|]; [|by simplify_eq; split_and!; [apply result_ok|..]]. simpl in Hsub.
  pose proof (precheck_ok (mk s) (se_clock env) (ex_request ex) (ex_timeout_ns ex)) as Hpre.
  destruct (precheck _ _ _ _) as [deadline|[e0 st]].
  - destruct Hpre as (Hbusy & _). assert (active_task (mk s) = None) as Hn.
    { apply eq_None_not_Some. intros Hsome. apply Ha in Hsome. congruence. }
    assert (∀ m e, mock_ok m → active_task m = None → completed_requests m = completed_requests (mk s) →
      mock_ok (qcpu_finalize_exchange_locked m false false e STATUS_IO) ∧
      active_task (qcpu_finalize_exchange_locked m false false e STATUS_IO) = active_task (mk s) ∧ heap s = heap s ∧
      completed_requests (qcpu_finalize_exchange_locked m false false e STATUS_IO) = completed_requests (mk s)) as Hfin.
    { intros m e' Hmo Hmn Hcr. destruct (finalize_ok m false false e' STATUS_IO Hmo Hmn) as [? Hact].
      rewrite Hact, Hn. done. }
    destruct (se_alloc env) as [t|]; [|simplify_eq/=; by apply Hfin].
    assert (∀ e', mock_ok (qcpu_finalize_exchange_locked
      (set_flight (set_state (set_flight (mk s) true false false (Some t)) DEVICE_BUSY) true false false None)
      false false e' STATUS_IO)) as Hdrop.
    { intros e'. unfold qcpu_finalize_exchange_locked. split; simpl; try done; by case_tests. }
    destruct (negb (se_attr env =? 0)); [simplify_eq/=; split_and!; [apply Hdrop|done..]|].
    destruct (negb (se_create env =? 0)); simplify_eq/=. split_and!; [apply Hdrop|done..].
  - destruct Hpre as (_ & _ & _ & Habs). simplify_eq/=.
    destruct (Z.eqb_spec st STATUS_BACKEND_ABSENT) as [->|]; [|by split_and!; [apply result_ok|..]].
    specialize (Habs eq_refl). split_and!; [|done..]. split; simpl; rewrite ?Habs in *; done.
Qed.

(** An accepted exchange takes the idle device. *)
Lemma submit_accept s env ex f ex' t :
  exchange_submit s env (Some ex) = (f, Some ex', inl t) → mock_ok (mk s) →
  se_alloc env = Some t ∧ busy (mk s) = false ∧ active_task (mk s) = None ∧
  mock_ok (mk f) ∧ active_task (mk f) = Some t ∧ ex_request ex' = ex_request ex ∧
  completed_requests (mk f) = completed_requests (mk s) ∧
  ∃ k, heap f = <[t := k]> (heap s) ∧ references k = 2 ∧ t_done k = false ∧ t_abandoned k = false ∧
    t_request k = ex_request ex ∧ (request_unsigned (ex_request ex) → request_checked (ex_request ex)).
Proof.
  unfold exchange_submit, qcpu_prevalidate_exchange_locked, qcpu_record_result_locked.
  intros Hsub Hm. pose proof Hm as [Ha Hs Hse Hc Hb].
  destruct (session_open (mk s)) eqn:Hopen; simpl in Hsub; [|done].
  pose proof (precheck_ok (mk s) (se_clock env) (ex_request ex) (ex_timeout_ns ex)) as Hpre.
  destruct (precheck _ _ _ _) as [deadline|[e0 st]]; [|done].
  destruct Hpre as (Hbusy & Hops & Hatt & Hreq). assert (active_task (mk s) = None) as Hn.
  { apply eq_None_not_Some. intros Hsome. apply Ha in Hsome. congruence. }
  destruct (se_alloc env) as [t'|]; [|done].
  destruct (negb (se_attr env =? 0)); [done|]. destruct (negb (se_create env =? 0)); [done|].
  simplify_eq/=. split_and!; try done.
  eexists. split; [done|]. by split_and!.
Qed.

(** ** Preservation *)

(** A change of the task in flight to or from [t] does not concern [t']. *)
Lemma task_ok_other act act' t t' h c w :
  t ≠ t' → act = None ∨ act = Some t → act' = None ∨ act' = Some t →
  task_ok act t' h c w → task_ok act' t' h c w.
Proof.
  intros Hne Hact Hact' Hok. destruct h as [k|]; simpl in *; [|destruct Hok as (? & ? & ?); split_and!; [done|done|destruct Hact'; congruence]].
  destruct Hok as (Hr & Hcw & Hd & Hw & Hc & Ha & Hu & Hq). split_and!; try done.
  - intros Hrun. specialize (Hw Hrun). destruct Hact; congruence.
  - intros Hin. destruct (Hc Hin). destruct Hact; congruence.
  - intros Hact2. destruct Hact'; congruence.
Qed.

Lemma sinv_mock s f :
  sinv s → mock_ok (mk f) → active_task (mk f) = active_task (mk (fs s)) → heap f = heap (fs s) →
  sinv (with_fs s f).
Proof. intros [Hm Ht] Hm' Ha Hh. split; simpl; [done|]. intros t. rewrite Ha, Hh. apply Ht. Qed.

Lemma sinv_update s s' t :
  sinv s → mock_ok (mk (fs s')) →
  active_task (mk (fs s')) = active_task (mk (fs s)) ∨
    (active_task (mk (fs s)) = None ∨ active_task (mk (fs s)) = Some t) ∧
    (active_task (mk (fs s')) = None ∨ active_task (mk (fs s')) = Some t) →
  (∀ t', t ≠ t' → heap (fs s') !! t' = heap (fs s) !! t' ∧ callers s' !! t' = callers s !! t' ∧
                  workers s' !! t' = workers s !! t') →
  task_ok (active_task (mk (fs s'))) t (heap (fs s') !! t) (callers s' !! t) (workers s' !! t) →
  sinv s'.
Proof.
  intros [_ Ht] Hm' Ha Hother Hok. split; [done|]. intros t'. destruct (decide (t = t')) as [<-|Hne]; [done|].
  destruct (Hother t' Hne) as (-> & -> & ->). destruct Ha as [->|[Ha Ha']]; [apply Ht|].
  by apply (task_ok_other (active_task (mk (fs s))) _ t).
Qed.

(** Moving a waiting caller on changes nothing about its task. *)
Lemma task_ok_caller act t h c c' w :
  is_Some (in_exchange (Some c)) → is_Some (in_exchange (Some c')) →
  (∀ ex cc, c' = CUnlocked ex false cc → ∀ k, h = Some k → t_done k = true) →
  task_ok act t h (Some c) w → task_ok act t h (Some c') w.
Proof.
  intros Hi Hi' Hdone Hok. destruct h as [k|]; simpl in *; [|naive_solver].
  destruct Hok as (Hr & Hcw & Hd & Hw & Hc & Ha & Hu & Hq). split_and!; try done; eauto.
  intros ex cc [= ->]. by eapply Hdone.
Qed.

Ltac maps := intros ? ?; simpl; rewrite ?lookup_insert_ne, ?lookup_delete_ne by done; done.

Lemma sinv_caller s f t c c' :
  sinv s → mock_ok (mk f) → active_task (mk f) = active_task (mk (fs s)) → heap f = heap (fs s) →
  callers s !! t = Some c → is_Some (in_exchange (Some c)) → is_Some (in_exchange (Some c')) →
  (∀ ex cc, c' = CUnlocked ex false cc → ∀ k, heap f !! t = Some k → t_done k = true) →
  sinv (with_caller s f t c').
Proof.
  intros Hs Hm Ha Hh Hc Hi Hi' Hd. apply (sinv_update s _ t); simpl; [done|done|by left| |].
  - intros t' Hne. by rewrite Hh, lookup_insert_ne.
  - rewrite lookup_insert_eq, Ha. eapply task_ok_caller; [exact Hi|done|done|].
    rewrite <-Hc, Hh. apply Hs.
Qed.

Lemma wake_ok s t wait_result f r :
  exchange_wake s t wait_result = Some (f, r) → mock_ok (mk s) →
  mock_ok (mk f) ∧ active_task (mk f) = active_task (mk s) ∧ heap f = heap s ∧
  completed_requests (mk f) = completed_requests (mk s) ∧
  (∀ cc, r = Some (false, cc) → ∀ k, heap f !! t = Some k → t_done k = true).
Proof.
  unfold exchange_wake. intros Hw Hm. destruct (heap s !! t) as [k|] eqn:Hk; [|done]. simpl in Hw.
  destruct (request_cancel_ok _ Hm) as (Hm' & Ha' & Hc').
  destruct (qcpu_request_cancel_locked (mk s)) as [cc m]. simpl in *.
  destruct (_ && _); [by simplify_eq/=|]. destruct (_ && _); [by simplify_eq/=|].
  destruct (t_done k) eqn:Hd; simplify_eq/=; split_and!; try done. intros cc' _ k'. rewrite Hk. by intros [= <-].
Qed.

(** The end of an exchange. *)
Lemma finish_ok s t c ex timed_out r :
  sinv s → callers s !! t = Some c → in_exchange (Some c) = Some ex →
  (timed_out = false → ∀ k, heap (fs s) !! t = Some k → t_done k = true) →
  exchange_finish (fs s) t timed_out ex = Some r → sinv (finish_to s t r).
Proof.
  intros Hs Hc Hin Hto. pose proof Hs as [Hm Ht]. specialize (Ht t). unfold exchange_finish.
  destruct (heap (fs s) !! t) as [k|] eqn:Hk; [|done]. simpl. rewrite Hc in Ht.
  destruct Ht as (Hr & Hcw & Hd & Hw & Hcc & Ha & Hu & Hq). rewrite Hin in Hcc, Ha.
  destruct (Hcc ltac:(eauto)) as [Hact Hab].
  destruct (timed_out && negb (t_done k)) eqn:Hcase.
  - intros [= <-]. apply andb_prop in Hcase as [_ Hnd]. apply negb_true_iff in Hnd.
    apply (sinv_update s _ t); simpl; [done|by destruct Hm; split|by left| |].
    + maps.
    + rewrite !lookup_insert_eq. simpl. apply Hd in Hnd as Hrun. rewrite Hrun in *. split_and!; try done; eauto.
  - intros Hfin. assert (t_done k = true) as Hdone by (destruct timed_out; [by destruct (t_done k)|by eapply Hto]).
    destruct (exchange_verdict (mk (fs s)) k timed_out) as [[[e st] offline]|]; [|done]. simpl in Hfin.
    destruct (if e =? 0 then _ else _) as [ex'|]; simplify_eq/=.
    match goal with |- context [qcpu_finalize_exchange_locked ?m offline ?b e st] =>
      assert (mock_ok (qcpu_finalize_exchange_locked m offline b e st) ∧
              active_task (qcpu_finalize_exchange_locked m offline b e st) = None) as [Hm' Ha'] end.
    { split; [|by destruct (e =? 0)]. destruct Hm as [Ma Ms Mse Mc Mb].
      unfold qcpu_finalize_exchange_locked. destruct (e =? 0); split; simpl; try done; by case_tests. }
    match goal with |- context [qcpu_finalize_exchange_locked ?m offline ?b e st] =>
      generalize dependent (qcpu_finalize_exchange_locked m offline b e st) end. intros m' Hm' Ha'.
    apply (sinv_update s _ t); simpl; [done|done|rewrite Ha'; auto| |].
    + maps.
    + rewrite Ha', lookup_insert_eq, Hk. simpl. split_and!; try done.
      * left. eauto.
      * intros Hrun. apply Hd in Hrun. congruence.
Qed.

(** Giving up a reference: the caller's, or the worker's. *)
Lemma release_heap s t f :
  qcpu_task_release s t = Some f →
  mk f = mk s ∧ ∃ k, heap s !! t = Some k ∧
    ((references k = 1 ∧ heap f = delete t (heap s)) ∨
     (references k ≠ 1 ∧ ∃ k', heap f = <[t := k']> (heap s) ∧ references k' = u32 (references k - 1) ∧
        t_done k' = t_done k ∧ t_abandoned k' = t_abandoned k ∧ t_request k' = t_request k)).
Proof.
  unfold qcpu_task_release. destruct (heap s !! t) as [k|]; [|done]. simpl.
  destruct (Z.eqb_spec (references k) 1); intros [= <-]; simpl.
  - split; [done|]. exists k. split; [done|]. by left.
  - split; [done|]. exists k. split; [done|]. right. split; [done|]. by eexists.
Qed.

Lemma b2z_is_Some {A} (o : option A) : Z.b2z (bool_decide (is_Some o)) = match o with Some _ => 1 | None => 0 end.
Proof. by destruct o. Qed.

Lemma caller_release_ok s t f :
  sinv s → callers s !! t = Some CReleasing → qcpu_task_release (fs s) t = Some f →
  sinv {| fs := f; callers := delete t (callers s); workers := workers s; closers := closers s;
          results := results s |}.
Proof.
  intros Hs Hc Hrel. pose proof Hs as [Hm Ht]. specialize (Ht t).
  apply release_heap in Hrel as (Hmk & k & Hk & Hcase). rewrite Hk, Hc in Ht.
  destruct Ht as (Hr & Hcw & Hd & Hw & Hcc & Ha & Hu & Hq). rewrite !b2z_is_Some in Hr.
  apply (sinv_update s _ t); simpl; [done|by rewrite Hmk|left; by rewrite Hmk| |]; rewrite ?Hmk.
  - intros t' Hne. rewrite lookup_delete_ne by done. split_and!; try done.
    destruct Hcase as [[_ ->]|(_ & k' & -> & _)]; [by rewrite lookup_delete_ne|by rewrite lookup_insert_ne].
  - rewrite lookup_delete_eq. destruct Hcase as [[H1 ->]|(H1 & k' & -> & Hr' & Hd' & Ha' & Hq')].
    + rewrite lookup_delete_eq. simpl. destruct (workers s !! t) as [w|]; [lia|]. split_and!; try done.
      intros Hact. destruct (Ha Hact) as [[]|[_ ?]]; done.
    + rewrite lookup_insert_eq. simpl. rewrite Hr', Hd', Ha', Hq', !b2z_is_Some.
      destruct (workers s !! t) as [w|]; [|lia]. rewrite Hr. split_and!; try done; eauto.
Qed.

Lemma worker_release_ok s t f :
  sinv s → workers s !! t = Some WReleasing → qcpu_task_release (fs s) t = Some f →
  sinv {| fs := f; callers := callers s; workers := delete t (workers s); closers := closers s;
          results := results s |}.
Proof.
  intros Hs Hw Hrel. pose proof Hs as [Hm Ht]. specialize (Ht t).
  apply release_heap in Hrel as (Hmk & k & Hk & Hcase). rewrite Hk, Hw in Ht.
  destruct Ht as (Hr & Hcw & Hd & Hwr & Hcc & Ha & Hu & Hq). rewrite !b2z_is_Some in Hr.
  assert (t_done k = true) as Hdone.
  { destruct (t_done k); [done|]. destruct Hd as [_ Hd]. by specialize (Hd eq_refl). }
  apply (sinv_update s _ t); simpl; [done|by rewrite Hmk|left; by rewrite Hmk| |]; rewrite ?Hmk.
  - intros t' Hne. rewrite lookup_delete_ne by done. split_and!; try done.
    destruct Hcase as [[_ ->]|(_ & k' & -> & _)]; [by rewrite lookup_delete_ne|by rewrite lookup_insert_ne].
  - rewrite lookup_delete_eq. destruct Hcase as [[H1 ->]|(H1 & k' & -> & Hr' & Hd' & Ha' & Hq')].
    + rewrite lookup_delete_eq. simpl. destruct (callers s !! t) as [c|]; [lia|]. split_and!; try done.
      intros Hact. destruct (Ha Hact) as [[]|[_ ?]]; done.
    + rewrite lookup_insert_eq. simpl. rewrite Hr', Hd', Ha', Hq', !b2z_is_Some, Hdone.
      destruct (callers s !! t) as [c|]; [|lia]. rewrite Hr. split_and!; try done; eauto.
      intros Hact. destruct (Ha Hact) as [?|[_ ?]]; [by left|done].
Qed.

Lemma worker_done_ok s t result response f :
  sinv s → workers s !! t = Some WRunning → worker_done (fs s) t result response = Some f →
  sinv {| fs := f; callers := callers s; workers := <[t := WReleasing]> (workers s); closers := closers s;
          results := results s |}.
Proof.
  intros Hs Hw. pose proof Hs as [Hm Ht]. specialize (Ht t). unfold worker_done.
  destruct (heap (fs s) !! t) as [k|] eqn:Hk; [|done]. simpl. rewrite Hw in Ht.
  destruct Ht as (Hr & Hcw & Hd & Hwr & Hcc & Ha & Hu & Hq). specialize (Hwr eq_refl).
  intros [= <-]. rewrite bool_decide_eq_true_2, andb_true_r by done.
  destruct Hm as [Ma Ms Mse Mc Mb].
  destruct (t_abandoned k) eqn:Hab.
  - assert (¬ is_Some (in_exchange (callers s !! t))) as Hno by (intros Hin; destruct (Hcc Hin); congruence).
    apply (sinv_update s _ t); simpl; [done| |right; auto| |].
    + split; simpl; try done. by case_tests.
    + maps.
    + rewrite !lookup_insert_eq. simpl. rewrite Hr, !b2z_is_Some. split_and!; try done; eauto.
  - apply (sinv_update s _ t); simpl; [done|done|by left| |].
    + maps.
    + rewrite !lookup_insert_eq. simpl. rewrite Hr, !b2z_is_Some. split_and!; try done; eauto.
      intros Hact. destruct (Ha Hact) as [?|[? _]]; [by left|congruence].
Qed.

(** Sessions and back ends. *)
Lemma close_begin_ok s f r :
  close_begin s = Some (f, r) → mock_ok (mk s) →
  mock_ok (mk f) ∧ active_task (mk f) = active_task (mk s) ∧ heap f = heap s ∧
  completed_requests (mk f) = completed_requests (mk s).
Proof.
  unfold close_begin. intros Hb Hm. destruct (negb (session_open (mk s))); [by simplify_eq|].
  destruct (request_cancel_ok _ Hm) as (? & ? & ?).
  destruct (qcpu_request_cancel_locked (mk s)) as [cc m].
  destruct (busy (mk s)); cbn [mbind option_bind] in Hb; [|by simplify_eq/=].
  destruct (active_task (mk s)) as [t|] eqn:Hact; [|simplify_eq/=; split_and!; (done || congruence)].
  destruct (heap s !! t) as [k|]; cbn [mbind option_bind] in Hb; [|done].
  destruct (t_abandoned k); simplify_eq/=; split_and!; (done || congruence).
Qed.

Lemma close_end_ok s u c f e :
  close_end s u c = Some (f, e) → mock_ok (mk s) →
  mock_ok (mk f) ∧ active_task (mk f) = active_task (mk s) ∧ heap f = heap s ∧
  completed_requests (mk f) = completed_requests (mk s) ∧ session_open (mk f) = false ∧ busy (mk f) = false.
Proof.
  unfold close_end. intros Hc [Ma Ms Mse Mc Mb]. destruct (busy (mk s)) eqn:Hbusy; [done|]. simplify_eq/=.
  split_and!; try done. split; simpl; rewrite ?Hbusy; done.
Qed.

Lemma open_ok s o fc fl f e :
  qcpu_mock_open s o fc fl = (f, e) → mock_ok (mk s) →
  mock_ok (mk f) ∧ active_task (mk f) = active_task (mk s) ∧ heap f = heap s ∧
  completed_requests (mk f) = completed_requests (mk s).
Proof.
  unfold qcpu_mock_open. intros Ho Hm. destruct (session_open (mk s)); [by simplify_eq|].
  destruct o; [|by simplify_eq]. case_match; [by simplify_eq|]. case_match; simplify_eq/=; [done|].
  split_and!; try done. destruct Hm. by split.
Qed.

Lemma set_backend_ok s ops ctx name f e :
  qcpu_mock_set_backend s ops ctx name = (f, e) → mock_ok (mk s) →
  mock_ok (mk f) ∧ active_task (mk f) = active_task (mk s) ∧ heap f = heap s ∧
  completed_requests (mk f) = completed_requests (mk s).
Proof.
  unfold qcpu_mock_set_backend. intros Hb Hm. pose proof Hm as [Ma Ms Mse Mc Mb]. destruct (busy (mk s)) eqn:Hbusy; [by simplify_eq|].
  destruct ops as [ops|]; [destruct (op_exchange ops) eqn:Hop|]; simplify_eq/=; split_and!; try done;
    split; simpl; rewrite ?Hbusy, ?Hop; done.
Qed.

Lemma fstep_sinv s s' : fstep s s' → sinv s → sinv s'.
Proof.
  intros Hstep Hs. pose proof Hs as [Hm Ht]. destruct Hstep.
  - destruct (submit_reject _ _ _ _ _ _ ltac:(eassumption) Hm) as (? & ? & ? & _). by apply sinv_mock.
  - destruct (submit_accept _ _ _ _ _ _ ltac:(eassumption) Hm) as (Hal & Hb & Hn & Hm' & Ha' & _ & _ & k & Hh & Hr & Hd & Hab & Hreq & Hchk).
    assert (heap (fs s) !! t = None) as Hfresh by auto. specialize (Ht t). rewrite Hfresh in Ht.
    apply (sinv_update s _ t); simpl; [done|done|rewrite Hn, Ha'; auto| |].
    + intros t' Hne. by rewrite Hh, !lookup_insert_ne.
    + rewrite Hh, Ha', !lookup_insert_eq. simpl. rewrite Hr, Hd, Hab, Hreq.
      split_and!; try done; eauto.
  - destruct (wake_ok _ _ _ _ _ ltac:(eassumption) Hm) as (? & ? & ? & _). by apply sinv_mock.
  - destruct (wake_ok _ _ _ _ _ ltac:(eassumption) Hm) as (? & ? & ? & _ & Hdone).
    eapply sinv_caller; eauto. intros ? ? [= _ -> _]. eauto.
  - eapply sinv_caller; eauto. intros ? ? [= _ -> _] k Hk. specialize (Ht t). rewrite Hk in Ht.
    destruct Ht as (_ & _ & _ & _ & _ & _ & Hu & _). by eapply Hu.
  - by eapply sinv_caller; eauto.
  - eapply finish_ok; eauto. intros -> k Hk. specialize (Ht t). rewrite Hk in Ht.
    destruct Ht as (_ & _ & _ & _ & _ & _ & Hu & _). by eapply Hu.
  - by eapply finish_ok; eauto.
  - by apply caller_release_ok.
  - by eapply worker_done_ok.
  - by apply worker_release_ok.
  - destruct (close_begin_ok _ _ _ ltac:(eassumption) Hm) as (? & ? & ? & _).
    by destruct (sinv_mock s f Hs).
  - by split.
  - destruct (close_end_ok _ _ _ _ _ ltac:(eassumption) Hm) as (? & ? & ? & _).
    by destruct (sinv_mock s f Hs).
  - destruct (close_begin_ok _ _ _ ltac:(eassumption) Hm) as (Hm0 & Ha0 & Hh0 & _).
    destruct (close_end_ok _ _ _ _ _ ltac:(eassumption) Hm0) as (? & Ha1 & Hh1 & _).
    apply sinv_mock; congruence.
  - destruct (open_ok _ _ _ _ _ _ ltac:(eassumption) Hm) as (? & ? & ? & _). by apply sinv_mock.
  - destruct (set_backend_ok _ _ _ _ _ _ ltac:(eassumption) Hm) as (? & ? & ? & _). by apply sinv_mock.
Qed.
