(* ===== verification/FrontendProps.v ===== *)
(** * Properties of the front end

    For every reachable state of the threads of [FrontendSystem], in every
    order of their steps: one exchange in flight, a device state that tells
    the truth, no use of a freed task and no leaked one, no exchange that
    blocks the device for good, and results that mean what they say. *)

From Stdlib Require Import ZArith Lia ZifyBool.
From stdpp Require Import base list numbers gmap relations.
From S2P Require Import Prelude.
From S2P Require Import Sys.
From S2P Require Import Protocol.
From S2P Require Import Frontend.
From S2P Require Import FrontendSystem.
Import Uapi.
Open Scope Z_scope.

(** ** Reachable states *)

Definition initial (m : mock) : system :=
  {| fs := {| mk := m; heap := ∅ |}; callers := ∅; workers := ∅; closers := ∅; results := [] |}.

(** Reachable from a device [qcpu_mock_create] made. *)
Definition reachable (s : system) : Prop :=
  ∃ env cfg m path, qcpu_mock_create env true (Some cfg) = inl (m, path) ∧ rtc fstep (initial m) s.

Lemma create_ok env cfg m path :
  qcpu_mock_create env true (Some cfg) = inl (m, path) →
  mock_ok m ∧ active_task m = None ∧ completed_requests m = 0.
Proof.
  unfold qcpu_mock_create. intros Hc. repeat (case_match; simplify_eq/=; try done);
    (split_and!; [|done|done]); split; simpl; try done; eauto.
Qed.

Lemma initial_sinv m : mock_ok m → active_task m = None → sinv (initial m).
Proof. intros Hm Ha. split; simpl; [done|]. intros t. rewrite !lookup_empty, Ha. done. Qed.

Lemma reachable_sinv s : reachable s → sinv s.
Proof.
  intros (env & cfg & m & path & Hc & Hsteps). destruct (create_ok _ _ _ _ Hc) as (Hm & Ha & _).
  pose proof (initial_sinv m Hm Ha) as Hs. revert Hs. induction Hsteps; eauto using fstep_sinv.
Qed.

(** ** A device for the witnesses *)

Definition demo_env : create_env := {|
  ce_alloc := true; ce_realpath := inl [47; 116]; ce_stat := inl (0x41C0, 1000); ce_euid := 1000;
  ce_mutex := 0; ce_condattr := 0; ce_setclock := 0; ce_cond := 0
|}.
Definition demo_config : mock_config := {|
  cfg_runtime_dir := Some [47; 116]; cfg_backend_name := None; cfg_driver_version := None;
  cfg_ops := Some {| op_exchange := Some 1; op_cancel := Some 2 |}; cfg_context := 0
|}.
Definition demo_mock : mock :=
  match qcpu_mock_create demo_env true (Some demo_config) with
  | inl (m, _) => m
  | inr _ => {| backend_name := []; driver_version := []; m_ops := no_ops; m_context := 0;
                backend_attached := false; session_open := false; busy := false; cancel_requested := false;
                cancel_sent := false; lock_fd := -1; active_task := None; device_state := 0; last_errno := 0;
                last_protocol_status := 0; completed_requests := 0; failed_requests := 0 |}
  end.

Definition demo_request : request_v1 := {|
  ureq_magic := REQUEST_MAGIC; ureq_version := 1; ureq_command := COMMAND_RUN_GHZ; ureq_qubits := 3;
  ureq_shots := 10; ureq_seed := 7
|}.
Definition demo_exchange : exchange_v1 := {|
  ex_request := demo_request; ex_timeout_ns := 0; ex_response := zero_response
|}.
Definition demo_submit : submit_env := {|
  se_clock := Some (5, 0); se_alloc := Some 0%nat; se_attr := 0; se_create := 0
|}.
(** A response a back end may give to [demo_request]. *)
Definition demo_response : response_v1 := {|
  ursp_magic := RESPONSE_MAGIC; ursp_version := 1; ursp_status := STATUS_OK; ursp_flags := 15;
  ursp_qubits := 3; ursp_basis_states := 8; ursp_shots := 10; ursp_measured_state := 7;
  ursp_invalid_results := 0; ursp_norm_q32_32 := 2 ^ 32
|}.

Definition demo_opened : fstate := (qcpu_mock_open {| mk := demo_mock; heap := ∅ |} (inl 3) 0 0).1.
Definition demo_submitted : fstate := (exchange_submit demo_opened demo_submit (Some demo_exchange)).1.1.
Definition demo_flight : system := {|
  fs := demo_submitted; callers := <[0%nat := CWaiting demo_exchange]> ∅; workers := <[0%nat := WRunning]> ∅;
  closers := ∅; results := []
|}.

Lemma demo_created : qcpu_mock_create demo_env true (Some demo_config) = inl (demo_mock, [47; 116; 47] ++ LOCK_FILE).
Proof. vm_compute. reflexivity. Qed.

(** Opened, with an exchange in flight. *)
Lemma demo_flight_reachable : reachable demo_flight.
Proof.
  exists demo_env, demo_config, demo_mock, ([47; 116; 47] ++ LOCK_FILE). split; [apply demo_created|].
  eapply rtc_l; [apply (fs_open _ (inl 3) 0 0 demo_opened 0); vm_compute; reflexivity|].
  eapply rtc_l; [|apply rtc_refl].
  apply (fs_submit (with_fs (initial demo_mock) demo_opened) demo_exchange demo_submit demo_submitted demo_exchange 0%nat).
  - intros _. vm_compute. reflexivity.
  - unfold request_unsigned. simpl. lia.
  - vm_compute. reflexivity.
Qed.

(** ** Properties *)

(** C8 (one exchange in flight): in every reachable state the device is busy
    exactly when a task is in flight, its reported state is BUSY exactly then,
    it is only busy inside a session, and at most one worker runs the back end
    and at most one caller waits. *)
Theorem single_flight s :
  reachable s →
  (busy (mk (fs s)) = true ↔ is_Some (active_task (mk (fs s)))) ∧
  (busy (mk (fs s)) = true ↔ device_state (mk (fs s)) = DEVICE_BUSY) ∧
  (busy (mk (fs s)) = true → session_open (mk (fs s)) = true) ∧
  (∀ t t', workers s !! t = Some WRunning → workers s !! t' = Some WRunning → t = t') ∧
  (∀ t t', is_Some (in_exchange (callers s !! t)) → is_Some (in_exchange (callers s !! t')) → t = t').
Proof.
  intros Hr. destruct (reachable_sinv s Hr) as [[Ma Ms Mse _ _] Ht]. split_and!; try done.
  - intros t t' Hw Hw'. pose proof (Ht t) as H1. pose proof (Ht t') as H2. rewrite Hw in H1. rewrite Hw' in H2.
    destruct (heap (fs s) !! t); [|by destruct H1 as (_ & ? & _)].
    destruct (heap (fs s) !! t'); [|by destruct H2 as (_ & ? & _)].
    destruct H1 as (_ & _ & _ & H1 & _), H2 as (_ & _ & _ & H2 & _).
    specialize (H1 eq_refl). specialize (H2 eq_refl). congruence.
  - intros t t' Hc Hc'. pose proof (Ht t) as H1. pose proof (Ht t') as H2.
    destruct (heap (fs s) !! t); [|destruct H1 as (Hn & _); rewrite Hn in Hc; by destruct Hc].
    destruct (heap (fs s) !! t'); [|destruct H2 as (Hn & _); rewrite Hn in Hc'; by destruct Hc'].
    destruct H1 as (_ & _ & _ & _ & H1 & _), H2 as (_ & _ & _ & _ & H2 & _).
    destruct (H1 Hc), (H2 Hc'). congruence.
Qed.

Lemma single_flight_witness :
  busy (mk (fs demo_flight)) = true ∧ device_state (mk (fs demo_flight)) = DEVICE_BUSY.
Proof.
  destruct (single_flight demo_flight demo_flight_reachable) as (_ & Hs & _).
  split; [reflexivity|]. apply Hs. reflexivity.
Defined.

(** The sections of a thread find their task, and the shifts are in range. *)
Lemma verdict_defined m k to : request_checked (t_request k) → is_Some (exchange_verdict m k to).
Proof.
  intros Hq. unfold exchange_verdict, qcpu_validate_backend_response.
  repeat (case_match; cbn [mbind option_bind]; eauto).
  all: match goal with H : (ureq_command _ =? _) = true |- _ => apply Z.eqb_eq, Hq in H as [Hqq _] end.
  all: unfold MAX_QUBITS in Hqq; rewrite c_shl_one in * by lia; cbn [mbind option_bind] in *.
  all: repeat (case_match; simplify_eq/=; eauto).
Qed.

Lemma finish_defined s t ex k to :
  heap s !! t = Some k → request_checked (t_request k) → is_Some (exchange_finish s t to ex).
Proof.
  intros Hk Hq. unfold exchange_finish. rewrite Hk. cbn [mbind option_bind]. case_match; [eauto|].
  destruct (verdict_defined (mk s) k to Hq) as [[[e st] off] ->]. cbn [mbind option_bind].
  case_match; cbn; eauto.
Qed.

(** What a thread of task [t] can rely on. *)
Lemma held_task s t :
  sinv s → is_Some (callers s !! t) ∨ is_Some (workers s !! t) →
  ∃ k, heap (fs s) !! t = Some k ∧ request_checked (t_request k).
Proof.
  intros [_ Ht] Hh. specialize (Ht t). destruct (heap (fs s) !! t) as [k|].
  - exists k. split; [done|]. by destruct Ht as (_ & _ & _ & _ & _ & _ & _ & ?).
  - destruct Ht as (Hc & Hw & _). rewrite Hc, Hw in Hh. by destruct Hh as [[]|[]].
Qed.

(** C7 (memory safety): in no reachable state does a thread touch a task that
    was freed, or shift by more than the width: the next section of every
    caller, worker and closer is defined. And no task leaks: one in the heap
    is held by its caller or its worker. *)
Theorem no_use_after_free s :
  reachable s →
  (undefined s → False) ∧
  ∀ t, is_Some (heap (fs s) !! t) ↔ is_Some (callers s !! t) ∨ is_Some (workers s !! t).
Proof.
  intros Hr. pose proof (reachable_sinv s Hr) as Hs. pose proof Hs as [[Ma _ _ _ _] Ht]. split.
  - assert (Hc : ∀ t c, callers s !! t = Some c → ∃ k, heap (fs s) !! t = Some k ∧ request_checked (t_request k))
      by (intros t c Hc; apply held_task; eauto).
    assert (Hw : ∀ t w, workers s !! t = Some w → ∃ k, heap (fs s) !! t = Some k ∧ request_checked (t_request k))
      by (intros t w Hw; apply held_task; eauto).
    intros Hu. inversion Hu as [t ex wr Hl Hn|t ex to c cl Hl Hn|t ex to c cl Hl _ Hn|t ex wr Hl Hn|t ex Hl Hn|t Hl Hn|t re rs Hl Hn|t Hl Hn|Hn];
      try (apply Hc in Hl as (k & Hk & Hq)); try (apply Hw in Hl as (k & Hk & Hq)).
    + unfold exchange_wake in Hn. rewrite Hk in Hn. cbn [mbind option_bind] in Hn.
      destruct (qcpu_request_cancel_locked (mk (fs s))). by case_tests.
    + unfold exchange_relock in Hn. rewrite Hk in Hn. cbn [mbind option_bind] in Hn. by repeat case_match.
    + destruct (finish_defined (fs s) t ex k to Hk Hq). congruence.
    + unfold grace_wake in Hn. rewrite Hk in Hn. cbn [mbind option_bind] in Hn. by case_tests.
    + destruct (finish_defined (fs s) t ex k true Hk Hq). congruence.
    + unfold qcpu_task_release in Hn. rewrite Hk in Hn. cbn [mbind option_bind] in Hn. by case_tests.
    + unfold worker_done in Hn. by rewrite Hk in Hn.
    + unfold qcpu_task_release in Hn. rewrite Hk in Hn. cbn [mbind option_bind] in Hn. by case_tests.
    + unfold close_begin in Hn. destruct (negb _); [done|]. destruct (busy (mk (fs s))) eqn:Hb; [|done].
      destruct (active_task (mk (fs s))) as [t|] eqn:Hact; [|by destruct (proj1 Ma eq_refl)].
      destruct (heap (fs s) !! t) as [k|] eqn:Hk.
      * cbn [mbind option_bind] in Hn. destruct (t_abandoned k); [done|].
        by destruct (qcpu_request_cancel_locked (mk (fs s))).
      * specialize (Ht t). rewrite Hk in Ht. by destruct Ht as (_ & _ & ?).
  - intros t. split; [|intros Hh; destruct (held_task s t Hs Hh) as (k & -> & _); eauto].
    intros [k Hk]. specialize (Ht t). rewrite Hk in Ht. by destruct Ht as (_ & ? & _).
Qed.

Lemma no_use_after_free_witness :
  (undefined demo_flight → False) ∧ is_Some (heap (fs demo_flight) !! 0%nat).
Proof.
  destruct (no_use_after_free demo_flight demo_flight_reachable) as [Hu Hh].
  split; [exact Hu|]. apply Hh. left. vm_compute. eexists. reflexivity.
Defined.

(** ** Progress *)

Lemma finish_idle s t k to ex f ex' e :
  heap s !! t = Some k → t_done k = true → exchange_finish s t to ex = Some (f, ex', e) → busy (mk f) = false.
Proof.
  intros Hk Hd. unfold exchange_finish. rewrite Hk. cbn [mbind option_bind]. rewrite Hd. simpl negb. rewrite andb_false_r.
  destruct (exchange_verdict _ _ _) as [[[e0 st] off]|]; cbn [mbind option_bind]; [|done].
  destruct (if e0 =? 0 then _ else _); cbn [mbind option_bind]; [|done]. by intros [= <- <- <-].
Qed.

(** A caller whose task is done finishes by its own steps. *)
Lemma caller_finishes s t c k :
  sinv s → callers s !! t = Some c → is_Some (in_exchange (Some c)) →
  heap (fs s) !! t = Some k → t_done k = true →
  ∃ s', rtc fstep s s' ∧ busy (mk (fs s')) = false.
Proof.
  intros Hs Hc Hi Hk Hd.
  assert (Hunl : ∀ s ex to, callers s !! t = Some (CUnlocked ex to false) → heap (fs s) !! t = Some k → sinv s →
    ∃ s', rtc fstep s s' ∧ busy (mk (fs s')) = false).
  { intros s0 ex to Hc0 Hk0 Hs0. destruct (held_task s0 t Hs0 ltac:(eauto)) as (k' & Hk' & Hq). assert (k' = k) as -> by congruence.
    destruct (finish_defined (fs s0) t ex k to Hk' Hq) as [[[f ex'] e] Hfin].
    exists (finish_to s0 t (f, ex', e)). split; [|by eapply finish_idle].
    eapply rtc_once, (fs_relock_finish s0 t ex to None); [done| |done].
    unfold exchange_relock. rewrite Hk'. cbn [mbind option_bind]. rewrite Hd. simpl negb. by rewrite andb_false_r. }
  assert (Hcan : ∀ s ex to cc, callers s !! t = Some (CUnlocked ex to cc) → heap (fs s) !! t = Some k → sinv s →
    ∃ s', rtc fstep s s' ∧ busy (mk (fs s')) = false).
  { intros s0 ex to [] Hc0 Hk0 Hs0; [|by eauto].
    pose proof (fs_call_cancel s0 t ex to Hc0) as Hstep.
    destruct (Hunl (with_caller s0 (fs s0) t (CUnlocked ex to false)) ex to) as (s' & Hsteps & Hb);
      [by apply lookup_insert_eq|done|by eapply fstep_sinv|].
    exists s'. split; [|done]. by eapply rtc_l. }
  destruct c as [ex|ex to cc|ex|].
  - assert (exchange_wake (fs s) t 0 = Some (fs s, Some (false, false))) as Hw
      by (unfold exchange_wake; rewrite Hk; simpl; by rewrite Hd).
    pose proof (fs_wake s t ex 0 _ _ _ Hc Hw) as Hstep.
    destruct (Hunl (with_caller s (fs s) t (CUnlocked ex false false)) ex false) as (s' & Hsteps & Hb);
      [by apply lookup_insert_eq|done|by eapply fstep_sinv|].
    exists s'. split; [|done]. by eapply rtc_l.
  - by eapply Hcan.
  - destruct (held_task s t Hs ltac:(eauto)) as (k' & Hk' & Hq). assert (k' = k) as -> by congruence.
    destruct (finish_defined (fs s) t ex k true Hk' Hq) as [[[f ex'] e] Hfin].
    exists (finish_to s t (f, ex', e)). split; [|by eapply finish_idle].
    eapply rtc_once, (fs_grace_finish s t ex 0); [done| |done].
    unfold grace_wake. rewrite Hk'. simpl. by rewrite Hd.
  - by destruct Hi.
Qed.

(** C10 (no stuck device): from every reachable state the threads in flight can
    bring the device back to idle, whatever the timeouts, cancels and closes so
    far, and also after the caller gave up on its worker. *)
Theorem device_recovers s :
  reachable s → ∃ s', rtc fstep s s' ∧ busy (mk (fs s')) = false.
Proof.
  intros Hr. pose proof (reachable_sinv s Hr) as Hs. pose proof Hs as [[Ma _ _ _ _] Ht].
  destruct (busy (mk (fs s))) eqn:Hb; [|by exists s]. destruct (proj1 Ma eq_refl) as [t Hact].
  specialize (Ht t). destruct (heap (fs s) !! t) as [k|] eqn:Hk; [|by destruct Ht as (_ & _ & ?)].
  destruct Ht as (_ & _ & Hd & Hw & Hc & Ha & _).
  assert (Hdone : ∀ r rs, ∃ f, worker_done (fs s) t r rs = Some f ∧
      (t_abandoned k = true → busy (mk f) = false) ∧ ∃ k', heap f !! t = Some k' ∧ t_done k' = true).
  { intros r rs. unfold worker_done. rewrite Hk. simpl. eexists. split; [done|]. simpl. split.
    - intros ->. by rewrite bool_decide_eq_true_2.
    - rewrite lookup_insert_eq. by eexists. }
  destruct (Hdone 0 zero_response) as (f & Hf & Hfb & k' & Hk' & Hd').
  destruct (Ha Hact) as [Hin|[Hab Hrun]].
  - destruct (callers s !! t) as [c|] eqn:Hcc; [|by destruct Hin].
    destruct (t_done k) eqn:Hdk; [by eapply caller_finishes|].
    pose proof (fs_worker_done s t 0 zero_response f (proj2 Hd eq_refl) (Z.le_refl 0) Hf) as Hstep.
    edestruct caller_finishes as (s' & Hsteps & Hb');
      [eapply fstep_sinv; [exact Hstep|exact Hs]|exact Hcc|exact Hin|exact Hk'|exact Hd'|].
    exists s'. split; [|done]. by eapply rtc_l.
  - eexists. split; [eapply rtc_once, (fs_worker_done s t 0 zero_response f Hrun (Z.le_refl 0) Hf)|]. by apply Hfb.
Qed.

Lemma device_recovers_witness : ∃ s', rtc fstep demo_flight s' ∧ busy (mk (fs s')) = false.
Proof. exact (device_recovers demo_flight demo_flight_reachable). Defined.

(** ** Results *)

(** A response that answers a request: well formed, of a software device on
    its classical host, a normalised state, and for a GHZ run only the all-zero
    or the all-one state. *)
Record response_accepted (request : request_v1) (response : response_v1) : Prop := {
  ra_magic : ursp_magic response = RESPONSE_MAGIC;
  ra_version : ursp_version response = PROTOCOL_VERSION;
  ra_status : ursp_status response = STATUS_OK;
  ra_flags i : 0 <= i < 4 → Z.testbit (ursp_flags response) i = true;
  ra_qubits : ursp_qubits response = ureq_qubits request;
  ra_shots : ursp_shots response = ureq_shots request;
  ra_norm : ursp_norm_q32_32 response <= 2 ^ 32;
  ra_ghz : ureq_command request = COMMAND_RUN_GHZ →
    ursp_basis_states response = 2 ^ ureq_qubits request ∧
    (ursp_measured_state response = 0 ∨ ursp_measured_state response = 2 ^ ureq_qubits request - 1) ∧
    ursp_invalid_results response = 0
}.

(** What a caller may read off its result: 0 with an accepted response, or an
    error with a response that carries the failure. *)
Definition result_sound (r : exchange_v1 * Z) : Prop :=
  if r.2 =? 0 then response_accepted (ex_request r.1) (ex_response r.1)
  else ∃ st, st ≠ STATUS_OK ∧ 0 <= st <= STATUS_CANCELED ∧
             Some r.1 = qcpu_set_failure_response (Some r.1) st ∧ ursp_status (ex_response r.1) = st.

Lemma required_flags_bits flags :
  Z.land flags REQUIRED_FLAGS = REQUIRED_FLAGS → ∀ i, 0 <= i < 4 → Z.testbit flags i = true.
Proof.
  intros Hl i Hi. apply (f_equal (λ z, Z.testbit z i)) in Hl. rewrite Z.land_spec in Hl.
  assert (Z.testbit REQUIRED_FLAGS i = true) as Ht
    by (assert (i = 0 ∨ i = 1 ∨ i = 2 ∨ i = 3) as [->|[->|[->| ->]]] by lia; reflexivity).
  rewrite Ht, andb_true_r in Hl. done.
Qed.

(** The validation accepts exactly such responses. *)
Lemma validate_accepts request response :
  request_checked request →
  qcpu_validate_backend_response request response = Some (inl tt) → response_accepted request response.
Proof.
  intros Hq. unfold qcpu_validate_backend_response.
  destruct (Z.eqb_spec (ursp_magic response) RESPONSE_MAGIC); cbn [negb]; [|discriminate].
  destruct (Z.eqb_spec (ursp_version response) PROTOCOL_VERSION); cbn [negb]; [|discriminate].
  destruct (qcpu_status_known _); cbn [negb]; [|discriminate].
  destruct (Z.eqb_spec (ursp_status response) STATUS_OK); cbn [negb]; [|discriminate].
  destruct (Z.eqb_spec (Z.land (ursp_flags response) REQUIRED_FLAGS) REQUIRED_FLAGS); cbn [negb]; [|discriminate].
  destruct (Z.eqb_spec (ursp_qubits response) (ureq_qubits request)); cbn [negb orb]; [|discriminate].
  destruct (Z.eqb_spec (ursp_shots response) (ureq_shots request)); cbn [negb]; [|discriminate].
  destruct (Z.ltb_spec (Z.shiftl 1 32) (ursp_norm_q32_32 response)) as [|Hnorm]; [discriminate|].
  change (Z.shiftl 1 32) with (2 ^ 32) in Hnorm.
  destruct (Z.eqb_spec (ureq_command request) COMMAND_RUN_GHZ) as [Hg|Hg].
  - destruct (Hq Hg) as [Hqq _]. unfold MAX_QUBITS in Hqq. rewrite c_shl_one by lia. cbn [mbind option_bind].
    assert (0 < 2 ^ ureq_qubits request < 2 ^ 64) as Hp
      by (split; [apply Z.pow_pos_nonneg|apply Z.pow_lt_mono_r]; lia).
    assert (u64 (2 ^ ureq_qubits request - 1) = 2 ^ ureq_qubits request - 1) as Hu
      by (unfold u64; rewrite Z.mod_small; lia).
    rewrite Hu.
    destruct (Z.eqb_spec (ursp_basis_states response) (2 ^ ureq_qubits request)); cbn [negb]; [|discriminate].
    destruct (negb _ && negb _) eqn:Hm; [discriminate|].
    destruct (Z.eqb_spec (ursp_invalid_results response) 0); cbn [negb]; [|discriminate].
    intros _. split; auto using required_flags_bits. intros _. split_and!; [done| |done].
    apply andb_false_iff in Hm as [Hm|Hm]; apply negb_false_iff, Z.eqb_eq in Hm; auto.
  - intros _. split; auto using required_flags_bits. contradiction.
Qed.

Lemma status_errno st : st ≠ STATUS_OK → qcpu_status_to_errno st ≠ 0.
Proof. unfold qcpu_status_to_errno. intros H. apply Z.eqb_neq in H. rewrite H. by repeat case_match. Qed.

Lemma validate_rejects request response e st offline :
  response_unsigned response → qcpu_validate_backend_response request response = Some (inr (e, st, offline)) →
  e ≠ 0 ∧ st ≠ STATUS_OK ∧ 0 <= st <= STATUS_CANCELED.
Proof.
  intros Hu. unfold qcpu_validate_backend_response.
  destruct (negb (ursp_magic response =? _)); [by intros [= <- <- <-]|].
  destruct (negb (ursp_version response =? _)); [by intros [= <- <- <-]|].
  destruct (qcpu_status_known (ursp_status response)) eqn:Hk; cbn [negb]; [|by intros [= <- <- <-]].
  destruct (Z.eqb_spec (ursp_status response) STATUS_OK) as [|Hst]; cbn [negb].
  2:{ intros [= <- <- <-]. split_and!; [by apply status_errno|done|done|by apply Z.leb_le in Hk]. }
  destruct (negb _); [by intros [= <- <- <-]|]. destruct (_ || _); [by intros [= <- <- <-]|].
  destruct (_ <? _); [by intros [= <- <- <-]|]. destruct (_ =? COMMAND_RUN_GHZ); [|done].
  destruct (c_shl _ _ _) as [states|]; cbn [mbind option_bind]; [|done].
  destruct (negb _); [by intros [= <- <- <-]|]. destruct (_ && _); [by intros [= <- <- <-]|].
  by destruct (negb _); [intros [= <- <- <-]|].
Qed.

Lemma verdict_sound m k to e st offline :
  response_unsigned (t_response k) → exchange_verdict m k to = Some (e, st, offline) →
  (e = 0 ∧ to = false ∧ cancel_requested m = false ∧ t_result k = 0 ∧
     qcpu_validate_backend_response (t_request k) (t_response k) = Some (inl tt)) ∨
  (e ≠ 0 ∧ st ≠ STATUS_OK ∧ 0 <= st <= STATUS_CANCELED).
Proof.
  intros Hu. unfold exchange_verdict. destruct to; [intros [= <- <- <-]; by right|].
  destruct (cancel_requested m || _) eqn:Hc; [intros [= <- <- <-]; by right|].
  apply orb_false_elim in Hc as [Hcr _].
  destruct (Z.eqb_spec (t_result k) 0) as [Hr|Hr]; cbn [negb].
  - destruct (qcpu_validate_backend_response _ _) as [[[]|[[e' st'] off]]|] eqn:Hv; cbn [mbind option_bind]; [| |done].
    + intros [= <- <- <-]. by left.
    + intros [= <- <- <-]. right. by eapply validate_rejects.
  - intros Hv. right. revert Hv. destruct (_ =? - ENODEV); [by intros [= <- <- <-]|].
    destruct (_ =? - ETIMEDOUT); [by intros [= <- <- <-]|]. destruct (_ =? - ECANCELED); [by intros [= <- <- <-]|].
    destruct (qcpu_status_known _) eqn:Hk; cbn [andb]; [|by intros [= <- <- <-]].
    destruct (Z.eqb_spec (ursp_status (t_response k)) STATUS_OK) as [|Hst]; cbn [negb]; [by intros [= <- <- <-]|].
    intros [= <- <- <-]. split_and!; [by apply status_errno|done|done|by apply Z.leb_le in Hk].
Qed.

Lemma failure_sound ex ex' e st :
  e ≠ 0 → st ≠ STATUS_OK → 0 <= st <= STATUS_CANCELED →
  qcpu_set_failure_response (Some ex) st = Some ex' → result_sound (ex', e).
Proof.
  intros He Hst Hr [= <-]. unfold result_sound. cbn [fst snd]. apply Z.eqb_neq in He. rewrite He.
  exists st. split_and!; try lia; [done|]. cbn. unfold u16. rewrite Z.mod_small; [done|].
  unfold STATUS_CANCELED in Hr. lia.
Qed.

(** The last section gives a sound result and counts it. *)
Lemma finish_sound s t k to ex f ex' e :
  heap s !! t = Some k → t_request k = ex_request ex → request_checked (t_request k) →
  response_unsigned (t_response k) → exchange_finish s t to ex = Some (f, ex', e) →
  result_sound (ex', e) ∧
  completed_requests (mk f) = (if e =? 0 then u64 (completed_requests (mk s) + 1) else completed_requests (mk s)) ∧
  ∀ t' k', heap f !! t' = Some k' →
    ∃ k0, heap s !! t' = Some k0 ∧ t_request k' = t_request k0 ∧ t_response k' = t_response k0.
Proof.
  intros Hk Hreq Hq Hu. unfold exchange_finish. rewrite Hk. cbn [mbind option_bind].
  destruct (to && negb (t_done k)).
  - cbn [mbind option_bind qcpu_set_failure_response]. intros [= <- <- <-]. split_and!; [|done|].
    + by eapply (failure_sound ex _ ETIMEDOUT STATUS_TIMEOUT).
    + cbn. intros t' k'. destruct (decide (t = t')) as [<-|]; [|rewrite lookup_insert_ne by done; eauto].
      rewrite lookup_insert_eq. intros [= <-]. by exists k.
  - destruct (exchange_verdict (mk s) k to) as [[[e0 st] offline]|] eqn:Hv; [|done]. cbn [mbind option_bind].
    apply verdict_sound in Hv as [(-> & _ & _ & _ & Hval)|(He & Hst & Hr)]; [| |done].
    + cbn. intros [= <- <- <-]. split_and!; [|done|cbn; eauto].
      apply validate_accepts in Hval; [|done]. unfold result_sound. cbn. by rewrite <-Hreq.
    + pose proof He as He'. apply Z.eqb_neq in He'. rewrite He'.
      destruct (qcpu_set_failure_response (Some ex) st) as [ex1|] eqn:Hf; [|done]. cbn [mbind option_bind].
      intros [= <- <- <-]. rewrite He'. split_and!; [|done|cbn; eauto]. by eapply failure_sound.
Qed.

(** The results so far, and what ties a waiting caller to its task. *)
Record rinv (s : system) : Prop := {
  ri_link t ex k :
    in_exchange (callers s !! t) = Some ex → heap (fs s) !! t = Some k → t_request k = ex_request ex;
  ri_status t k : heap (fs s) !! t = Some k → response_unsigned (t_response k);
  ri_sound : Forall result_sound (results s);
  ri_count : completed_requests (mk (fs s)) = u64 (Z.of_nat (length (filter (λ r, r.2 = 0) (results s))))
}.

(** Steps that log nothing and keep the tasks' requests. *)
Lemma rinv_keep s s' :
  rinv s →
  (∀ t ex, in_exchange (callers s' !! t) = Some ex → in_exchange (callers s !! t) = Some ex) →
  (∀ t k', heap (fs s') !! t = Some k' →
    ∃ k, heap (fs s) !! t = Some k ∧ t_request k' = t_request k ∧
         (t_response k' = t_response k ∨ response_unsigned (t_response k'))) →
  results s' = results s → completed_requests (mk (fs s')) = completed_requests (mk (fs s)) → rinv s'.
Proof.
  intros [Hl Hu Hs Hc] Hcl Hh Hr Hco. split; rewrite ?Hr, ?Hco; [| |done|done].
  - intros t ex k' Hin Hk'. destruct (Hh _ _ Hk') as (k & Hk & -> & _). eauto.
  - intros t k' Hk'. destruct (Hh _ _ Hk') as (k & Hk & _ & [->|?]); eauto.
Qed.

Lemma rinv_fs s f :
  rinv s → heap f = heap (fs s) → completed_requests (mk f) = completed_requests (mk (fs s)) → rinv (with_fs s f).
Proof. intros Hr Hh Hc. apply (rinv_keep s); simpl; [done|done| |done|done]. rewrite Hh. eauto 10. Qed.

Lemma rinv_caller s f t c c' :
  rinv s → callers s !! t = Some c → in_exchange (Some c) = in_exchange (Some c') → heap f = heap (fs s) →
  completed_requests (mk f) = completed_requests (mk (fs s)) → rinv (with_caller s f t c').
Proof.
  intros Hr Hc Hi Hh Hco. apply (rinv_keep s); simpl; [done| | |done|done]; [|rewrite Hh; eauto 10].
  intros t' ex. destruct (decide (t = t')) as [<-|]; [|by rewrite lookup_insert_ne].
  rewrite lookup_insert_eq, Hc. congruence.
Qed.

Lemma release_keeps s t f :
  qcpu_task_release s t = Some f →
  mk f = mk s ∧ ∀ t' k', heap f !! t' = Some k' →
    ∃ k, heap s !! t' = Some k ∧ t_request k' = t_request k ∧ t_response k' = t_response k.
Proof.
  unfold qcpu_task_release. destruct (heap s !! t) as [k|] eqn:Hk; [|done]. cbn [mbind option_bind].
  destruct (_ =? 1); intros [= <-]; (split; [done|]); cbn; intros t' k'.
  - rewrite lookup_delete_Some. intros [_ ?]. eauto.
  - destruct (decide (t = t')) as [<-|]; [|rewrite lookup_insert_ne by done; eauto].
    rewrite lookup_insert_eq. intros [= <-]. by exists k.
Qed.

Lemma rinv_finish s t c ex to r :
  sinv s → rinv s → callers s !! t = Some c → in_exchange (Some c) = Some ex →
  exchange_finish (fs s) t to ex = Some r → rinv (finish_to s t r).
Proof.
  destruct r as [[f ex'] e]. intros Hs [Hl Hu Hr Hc] Hcl Hin Hfin.
  destruct (held_task s t Hs ltac:(eauto)) as (k & Hk & Hq).
  destruct (finish_sound _ _ _ _ _ _ _ _ Hk (Hl t ex k ltac:(by rewrite Hcl) Hk) Hq (Hu _ _ Hk) Hfin) as (Hso & Hco & Hh).
  split; simpl.
  - intros t' ex0 k'. destruct (decide (t = t')) as [<-|]; [by rewrite lookup_insert_eq|].
    rewrite lookup_insert_ne by done. intros Hi Hk'. destruct (Hh _ _ Hk') as (k0 & Hk0 & -> & _). eauto.
  - intros t' k' Hk'. destruct (Hh _ _ Hk') as (k0 & Hk0 & _ & ->). eauto.
  - apply Forall_app. auto.
  - rewrite Hco, Hc, filter_app, length_app.
    destruct (Z.eqb_spec e 0) as [->|He].
    + rewrite filter_cons_True by done. simpl. rewrite Nat2Z.inj_add. unfold u64. by rewrite Z.add_mod_idemp_l.
    + rewrite filter_cons_False by done. simpl. by rewrite Nat.add_0_r.
Qed.

Lemma rinv_submit s env ex f ex' t :
  rinv s → mock_ok (mk (fs s)) → exchange_submit (fs s) env (Some ex) = (f, Some ex', inl t) →
  rinv {| fs := f; callers := <[t := CWaiting ex']> (callers s); workers := <[t := WRunning]> (workers s);
          closers := closers s; results := results s |}.
Proof.
  intros [Hl Hu Hr Hc] Hm Hsub.
  pose proof (submit_accept _ _ _ _ _ _ Hsub Hm) as (Hal & _ & _ & _ & _ & Hreq & Hco & k & Hh & _ & _ & _ & Hk & _).
  assert (response_unsigned (t_response k)) as Hzero.
  { revert Hh. unfold exchange_submit in Hsub. destruct (qcpu_prevalidate_exchange_locked _ _ _) as [[m o] [d|e]]; [|done].
    rewrite Hal in Hsub. destruct o as [o|]; [|done].
    destruct (negb _); [done|]. destruct (negb _); [done|]. injection Hsub as <- _ ; cbn. intros Heq.
    apply (f_equal (lookup t)) in Heq. rewrite !lookup_insert_eq in Heq. by injection Heq as <-. }
  split; simpl; rewrite ?Hco; [| |done|done].
  - intros t' ex0 k'. rewrite Hh. destruct (decide (t = t')) as [<-|].
    + rewrite !lookup_insert_eq. simpl. intros [= <-] [= <-]. congruence.
    + rewrite !lookup_insert_ne by done. apply Hl.
  - intros t' k'. rewrite Hh. destruct (decide (t = t')) as [<-|].
    + rewrite lookup_insert_eq. by intros [= <-].
    + rewrite lookup_insert_ne by done. apply Hu.
Qed.

Lemma rinv_worker s t result response f :
  rinv s → response_unsigned response → worker_done (fs s) t result response = Some f →
  rinv {| fs := f; callers := callers s; workers := <[t := WReleasing]> (workers s); closers := closers s;
          results := results s |}.
Proof.
  intros Hr Hu. unfold worker_done. destruct (heap (fs s) !! t) as [k|] eqn:Hk; [|done]. cbn [mbind option_bind].
  intros [= <-]. apply (rinv_keep s); simpl; [done|done| |done|by destruct (_ && _)].
  intros t' k'. destruct (decide (t = t')) as [<-|]; [|rewrite lookup_insert_ne by done; eauto 10].
  rewrite lookup_insert_eq. intros [= <-]. eauto 10.
Qed.

Lemma fstep_rinv s s' : fstep s s' → sinv s → rinv s → rinv s'.
Proof.
  intros Hstep Hs Hr. pose proof (si_mock s Hs) as Hm. destruct Hstep.
  - destruct (submit_reject _ _ _ _ _ _ ltac:(eassumption) Hm) as (_ & _ & ? & ?). by apply rinv_fs.
  - by eapply rinv_submit.
  - destruct (wake_ok _ _ _ _ _ ltac:(eassumption) Hm) as (_ & _ & ? & ? & _). by apply rinv_fs.
  - destruct (wake_ok _ _ _ _ _ ltac:(eassumption) Hm) as (_ & _ & ? & ? & _). by eapply rinv_caller.
  - by eapply rinv_caller.
  - by eapply rinv_caller.
  - by eapply rinv_finish.
  - by eapply rinv_finish.
  - destruct (release_keeps _ _ _ ltac:(eassumption)) as [Hmk Hh]. apply (rinv_keep s); simpl; [done| | |done|by rewrite Hmk].
    + intros t' ex. destruct (decide (t = t')) as [<-|]; [by rewrite lookup_delete_eq|by rewrite lookup_delete_ne].
    + intros t' k' Hk'. destruct (Hh _ _ Hk') as (? & ? & ? & ?). eauto 10.
  - by eapply rinv_worker.
  - destruct (release_keeps _ _ _ ltac:(eassumption)) as [Hmk Hh]. apply (rinv_keep s); simpl; [done|done| |done|by rewrite Hmk].
    intros t' k' Hk'. destruct (Hh _ _ Hk') as (? & ? & ? & ?). eauto 10.
  - destruct (close_begin_ok _ _ _ ltac:(eassumption) Hm) as (_ & _ & Hh & Hc). by destruct (rinv_fs s f Hr Hh Hc).
  - by destruct Hr.
  - destruct (close_end_ok _ _ _ _ _ ltac:(eassumption) Hm) as (_ & _ & Hh & Hc & _). by destruct (rinv_fs s f Hr Hh Hc).
  - destruct (close_begin_ok _ _ _ ltac:(eassumption) Hm) as (Hm0 & _ & Hh0 & Hc0).
    destruct (close_end_ok _ _ _ _ _ ltac:(eassumption) Hm0) as (_ & _ & Hh1 & Hc1 & _). apply rinv_fs; congruence.
  - destruct (open_ok _ _ _ _ _ _ ltac:(eassumption) Hm) as (_ & _ & ? & ?). by apply rinv_fs.
  - destruct (set_backend_ok _ _ _ _ _ _ ltac:(eassumption) Hm) as (_ & _ & ? & ?). by apply rinv_fs.
Qed.

Lemma reachable_rinv s : reachable s → rinv s.
Proof.
  intros (env & cfg & m & path & Hc & Hsteps). destruct (create_ok _ _ _ _ Hc) as (Hm & Ha & Hco).
  assert (rinv (initial m)) as Hi by (split; simpl; [by intros|by intros|done|by rewrite Hco]).
  pose proof (initial_sinv m Hm Ha) as Hs. revert Hs Hi. induction Hsteps; eauto using fstep_sinv, fstep_rinv.
Qed.

(** C9 (results): in every reachable state, every exchange that returned 0 holds
    a response that passed all the checks against its request; every exchange
    that failed holds a failure response with a protocol status other than OK;
    and [completed_requests] is the number of exchanges that returned 0. *)
Theorem results_sound s :
  reachable s →
  Forall result_sound (results s) ∧
  completed_requests (mk (fs s)) = u64 (Z.of_nat (length (filter (λ r, r.2 = 0) (results s)))).
Proof. intros Hr. destruct (reachable_rinv s Hr). done. Qed.

(** The exchange of [demo_flight] answered and returned. *)
Definition demo_answered : fstate := default demo_submitted (worker_done demo_submitted 0 0 demo_response).
Definition demo_returned : fstate * exchange_v1 * Z :=
  default (demo_answered, demo_exchange, EIO) (exchange_finish demo_answered 0 false demo_exchange).
Definition demo_end : system := {|
  fs := demo_returned.1.1; callers := {[0%nat := CReleasing]}; workers := {[0%nat := WReleasing]};
  closers := ∅; results := [(demo_returned.1.2, demo_returned.2)]
|}.

Lemma demo_end_reachable : reachable demo_end.
Proof.
  destruct demo_flight_reachable as (env & cfg & m & path & Hc & Hsteps).
  exists env, cfg, m, path. split; [exact Hc|]. transitivity demo_flight; [exact Hsteps|].
  eapply rtc_l.
  { apply (fs_worker_done demo_flight 0 0 demo_response demo_answered); [reflexivity|discriminate|reflexivity]. }
  eapply rtc_l; [eapply (fs_wake _ 0 demo_exchange 0 demo_answered false false); reflexivity|].
  apply rtc_once. change demo_end with (finish_to (with_caller
    {| fs := demo_answered; callers := callers demo_flight; workers := <[0%nat := WReleasing]> (workers demo_flight);
       closers := ∅; results := [] |} demo_answered 0 (CUnlocked demo_exchange false false)) 0 demo_returned).
  eapply (fs_relock_finish _ 0 demo_exchange false None demo_returned); reflexivity.
Qed.

Lemma results_sound_witness :
  Forall result_sound [(demo_returned.1.2, 0)] ∧ completed_requests (mk (fs demo_end)) = 1.
Proof. exact (results_sound demo_end demo_end_reachable). Defined.

(** Destruction: a [qcpu_mock_destroy] that goes as far as the
    synchronisation objects finds no exchange in flight: no task is active, no
    caller waits, no worker is inside the back end or has still to use the
    device, and no session is open. Otherwise it fails with EBUSY. *)
Theorem destroy_safe s cond_ mutex_ :
  reachable s →
  (session_open (mk (fs s)) = true → qcpu_mock_destroy (fs s) cond_ mutex_ = EBUSY) ∧
  (busy (mk (fs s)) = true → qcpu_mock_destroy (fs s) cond_ mutex_ = EBUSY) ∧
  (qcpu_mock_destroy (fs s) cond_ mutex_ = 0 →
   session_open (mk (fs s)) = false ∧ active_task (mk (fs s)) = None ∧ cond_ = 0 ∧ mutex_ = 0 ∧
   ∀ t, in_exchange (callers s !! t) = None ∧ workers s !! t ≠ Some WRunning).
Proof.
  intros Hr. destruct (reachable_sinv s Hr) as [[Ma _ _ _ _] Ht]. unfold qcpu_mock_destroy. split_and!.
  - by intros ->.
  - intros ->. by rewrite orb_true_r.
  - destruct (session_open _); [done|]. destruct (busy (mk (fs s))) eqn:Hb; [done|]. cbn [orb].
    assert (active_task (mk (fs s)) = None) as Hn by (apply eq_None_not_Some; intros Hsome; apply Ma in Hsome; congruence).
    destruct (Z.eqb_spec cond_ 0) as [->|]; cbn [negb]; [|done]. intros ->. split_and!; try done.
    intros t. specialize (Ht t). rewrite Hn in Ht. destruct (heap (fs s) !! t) as [k|].
    + destruct Ht as (_ & _ & _ & Hw & Hc & _). split; [|by intros ?%Hw].
      apply eq_None_not_Some. intros Hin. by destruct (Hc Hin).
    + destruct Ht as (-> & -> & _). done.
Qed.

Lemma destroy_safe_witness :
  qcpu_mock_destroy (fs demo_end) 0 0 = EBUSY ∧ active_task (mk (fs (initial demo_mock))) = None.
Proof.
  split; [apply (proj1 (destroy_safe demo_end 0 0 demo_end_reachable)); reflexivity|].
  assert (reachable (initial demo_mock)) as Hr by (exists demo_env, demo_config, demo_mock; eexists; split; [apply demo_created|apply rtc_refl]).
  destruct (destroy_safe (initial demo_mock) 0 0 Hr) as (_ & _ & Hd). by apply Hd.
Defined.
