(* ===== verification/FrontendCalls.v ===== *)
(** * Single calls of the front end

    What one call does on each of its branches: the checks before an exchange,
    the names a device reports, and the fate of an answer that arrives at the
    deadline. *)

From Stdlib Require Import ZArith Lia ZifyBool.
From stdpp Require Import base list numbers gmap relations.
From S2P Require Import Prelude.
From S2P Require Import Sys.
From S2P Require Import Protocol.
From S2P Require Import Frontend.
From S2P Require Import FrontendSystem.
From S2P Require Import FrontendProps.
Import Uapi.
Open Scope Z_scope.

(** ** The checks before an exchange *)

(** The requests the device runs. *)
Definition request_valid (r : request_v1) : Prop :=
  ureq_magic r = REQUEST_MAGIC ∧ ureq_version r = PROTOCOL_VERSION ∧
  (ureq_command r = COMMAND_STATUS ∧ ureq_qubits r = 0 ∧ ureq_shots r = 0 ∨
   ureq_command r = COMMAND_RUN_GHZ ∧ 1 <= ureq_qubits r <= MAX_QUBITS ∧ 1 <= ureq_shots r <= MAX_SHOTS).

(** The timeout in force: 0 asks for the default. *)
Definition effective_timeout (ex : exchange_v1) : Z :=
  if ex_timeout_ns ex =? 0 then DEFAULT_TIMEOUT_NS else ex_timeout_ns ex.

(** When an exchange starts at time [now] (in nanoseconds). *)
Definition exchange_allowed (m : mock) (now : Z) (ex : exchange_v1) : Prop :=
  request_valid (ex_request ex) ∧ effective_timeout ex <= MAX_TIMEOUT_NS ∧
  now + effective_timeout ex < 2 ^ 64 ∧ busy m = false ∧
  backend_attached m = true ∧ is_Some (op_exchange (m_ops m)).

Lemma precheck_allowed m now ex :
  request_unsigned (ex_request ex) → 0 <= ex_timeout_ns ex →
  let ns := qcpu_timespec_to_ns now in
  match precheck m (Some now) (ex_request ex) (ex_timeout_ns ex) with
  | inl deadline => exchange_allowed m ns ex ∧ deadline = ns + effective_timeout ex
  | inr (e, st) => ¬ exchange_allowed m ns ex ∧ e = qcpu_status_to_errno st ∧ st ≠ STATUS_OK
  end.
Proof.
  intros Hu Ht ns. assert (0 <= ns < 2 ^ 64) as Hns by (apply Z.mod_pos_bound; done).
  unfold precheck, exchange_allowed, request_valid, effective_timeout. fold ns. destruct Hu as [Hq Hs].
  generalize dependent ns. intros ns Hns. set (r := ex_request ex) in *.
  destruct (Z.eqb_spec (ureq_magic r) REQUEST_MAGIC); cbn [negb]; [|by split_and!; [intuition|..]].
  destruct (Z.eqb_spec (ureq_version r) PROTOCOL_VERSION); cbn [negb]; [|by split_and!; [intuition|..]].
  destruct (negb (ureq_command r =? COMMAND_STATUS) && negb (ureq_command r =? COMMAND_RUN_GHZ)) eqn:Hc.
  { split_and!; [|done|done]. unbool. intuition. }
  destruct (if ureq_command r =? COMMAND_STATUS then _ else _) eqn:Hr.
  { split_and!; [|done|done]. unfold COMMAND_STATUS, COMMAND_RUN_GHZ in *. case_match; unbool; intuition lia. }
  set (tmo := if ex_timeout_ns ex =? 0 then DEFAULT_TIMEOUT_NS else ex_timeout_ns ex).
  assert (0 <= tmo) as Htmo by (unfold tmo; destruct (ex_timeout_ns ex =? 0); [discriminate|exact Ht]). clearbody tmo.
  destruct (Z.ltb_spec MAX_TIMEOUT_NS tmo); [split_and!; [intros (_ & ? & _); lia|done|done]|].
  destruct (Z.ltb_spec (UINT64_MAX - ns) tmo); [unfold UINT64_MAX in *; split_and!; [intros (_ & _ & ? & _); lia|done|done]|].
  destruct (busy m); [split_and!; [intuition congruence|done|done]|].
  destruct (negb (backend_attached m) || _) eqn:Hb.
  { split_and!; [|done|done]. intros (_ & _ & _ & _ & Ha & Ho). rewrite Ha in Hb. simpl in Hb.
    destruct (op_exchange _); [done|by destruct Ho]. }
  apply orb_false_elim in Hb as [Hb Ho]. apply negb_false_iff in Hb.
  unfold UINT64_MAX in *. split; [split_and!; try done; try lia|].
  - destruct (ureq_command r =? COMMAND_STATUS) eqn:Hcs; cbn [negb andb] in Hc; unbool;
      [left|right]; split_and!; lia.
  - destruct (op_exchange _); [eauto|done].
  - unfold u64. rewrite Z.mod_small; lia.
Qed.

(** C36 (acceptance): inside a session, an exchange is accepted exactly when its
    request is one the device runs, its timeout (1 s when it is 0) is at most
    5 s, its deadline fits 64 bits, no exchange is in flight and a back end is
    attached; the deadline is now plus the timeout. A refused exchange reports
    the errno of its protocol status, records both, holds the failure response,
    and neither starts, ends nor counts an exchange. *)
Theorem prevalidate_correct m now ex :
  session_open m = true → request_unsigned (ex_request ex) → 0 <= ex_timeout_ns ex →
  let ns := qcpu_timespec_to_ns now in
  match qcpu_prevalidate_exchange_locked m (Some now) (Some ex) with
  | (m', ex', inl deadline) =>
      exchange_allowed m ns ex ∧ deadline = ns + effective_timeout ex ∧ m' = m ∧
      ex' = Some {| ex_request := ex_request ex; ex_timeout_ns := ex_timeout_ns ex; ex_response := zero_response |}
  | (m', ex', inr e) =>
      ¬ exchange_allowed m ns ex ∧
      ∃ st, st ≠ STATUS_OK ∧ e = qcpu_status_to_errno st ∧ ex' = qcpu_set_failure_response (Some ex) st ∧
        last_errno m' = e ∧ last_protocol_status m' = st ∧ busy m' = busy m ∧ active_task m' = active_task m ∧
        completed_requests m' = completed_requests m ∧ failed_requests m' = failed_requests m
  end.
Proof.
  intros Hopen Hu Ht ns. unfold qcpu_prevalidate_exchange_locked. rewrite Hopen. cbn [negb ex_request ex_timeout_ns].
  pose proof (precheck_allowed m now ex Hu Ht) as Hp. cbv zeta in Hp. fold ns in Hp.
  destruct (precheck _ _ _ _) as [deadline|[e st]].
  - destruct Hp as [? ->]. done.
  - destruct Hp as (Hn & He & Hst). split; [done|]. exists st. by destruct (st =? STATUS_BACKEND_ABSENT).
Qed.

Lemma prevalidate_correct_witness :
  exchange_allowed (mk demo_opened) 5000000000 demo_exchange.
Proof.
  pose proof (prevalidate_correct (mk demo_opened) (5, 0) demo_exchange eq_refl) as H.
  assert (request_unsigned (ex_request demo_exchange)) as Hu by (unfold request_unsigned; simpl; lia).
  specialize (H Hu (Z.le_refl 0)). exact (proj1 H).
Defined.

(** ** Names *)

Lemma c_string_app text n : Forall (λ b, b ≠ 0) text → c_string (text ++ replicate (S n) 0) = text.
Proof.
  induction 1 as [|b bs Hb _ IH]; [done|]. simpl in *. apply Z.eqb_neq in Hb. rewrite Hb. by f_equal.
Qed.

Lemma copy_text_correct size text :
  (0 < size)%nat → Forall (λ b, b ≠ 0) text →
  length (qcpu_copy_text size (Some text)) = size ∧ c_string (qcpu_copy_text size (Some text)) = take (size - 1) text.
Proof.
  intros Hs Ht. destruct size as [|n]; [lia|]. unfold qcpu_copy_text. rewrite Nat.sub_1_r. cbn [Nat.pred].
  pose proof (length_take text n) as Hl. split.
  - rewrite length_app, length_replicate. lia.
  - assert (S n - length (take n text) = S (n - length (take n text)))%nat as -> by lia.
    apply c_string_app. by apply Forall_take.
Qed.

(** Names: after a back end was attached to the idle device, the
    capabilities hold its name in 32 bytes, cut to 31 and terminated, and the
    limits of the protocol; a detached device reports the name "absent" and
    goes offline. While an exchange is in flight nothing changes. *)
Theorem set_backend_correct s ops context name :
  Forall (λ b, b ≠ 0) name →
  (busy (mk s) = true → qcpu_mock_set_backend s (Some ops) context (Some name) = (s, EBUSY)) ∧
  (busy (mk s) = false → op_exchange ops = None → qcpu_mock_set_backend s (Some ops) context (Some name) = (s, EINVAL)) ∧
  (busy (mk s) = false → is_Some (op_exchange ops) →
   ∃ s' caps, qcpu_mock_set_backend s (Some ops) context (Some name) = (s', 0) ∧
     qcpu_fill_caps s' true = inl caps ∧ length (caps_backend caps) = 32%nat ∧
     c_string (caps_backend caps) = take 31 name ∧ caps_max_qubits caps = 20 ∧ caps_max_inflight caps = 1 ∧
     device_state (mk s') = DEVICE_IDLE) ∧
  (busy (mk s) = false →
   ∃ s' caps, qcpu_mock_set_backend s None context (Some name) = (s', 0) ∧
     qcpu_fill_caps s' true = inl caps ∧ c_string (caps_backend caps) = STR_ABSENT ∧
     device_state (mk s') = DEVICE_OFFLINE).
Proof.
  intros Hn. unfold qcpu_mock_set_backend. split_and!.
  - by intros ->.
  - by intros -> ->.
  - intros -> [o Ho]. rewrite Ho. eexists _, _. split; [reflexivity|]. split; [reflexivity|].
    assert (Forall (λ b, b ≠ 0) (take 31 name)) as Ht by by apply Forall_take.
    destruct (copy_text_correct 32 name ltac:(lia) Hn) as [_ Hc1]. change (32 - 1)%nat with 31%nat in Hc1.
    destruct (copy_text_correct 32 (take 31 name) ltac:(lia) Ht) as [Hl Hc].
    unfold caps_backend, mk, backend_name, set_backend_fields, default, id.
    change (Z.to_nat BACKEND_NAME_BYTES) with 32%nat. rewrite Hc1, Hl, Hc, take_take. done.
  - intros ->. eexists _, _. split_and!; try done.
Qed.

Lemma set_backend_correct_witness :
  ∃ s' caps, qcpu_mock_set_backend demo_opened (Some {| op_exchange := Some 1; op_cancel := None |}) 0 (Some [113; 49]) = (s', 0) ∧
     qcpu_fill_caps s' true = inl caps ∧ c_string (caps_backend caps) = [113; 49].
Proof.
  destruct (set_backend_correct demo_opened {| op_exchange := Some 1; op_cancel := None |} 0 [113; 49]) as (_ & _ & H & _);
    [by repeat constructor|].
  destruct (H eq_refl ltac:(by eexists)) as (s' & caps & H1 & H2 & _ & H3 & _). exists s', caps.
  split_and!; [exact H1|exact H2|exact H3].
Defined.

(** ** An answer at the deadline *)

(** C37 (an answer at the deadline is lost): when the wait of a caller times out
    and it finds the task done, which the loop tests for, the second test still
    takes the error for a failed wait: the exchange is canceled and reported as
    ETIMEDOUT with a failure response, and the completed answer is dropped.
    This happens in a reachable state, with an answer that would be accepted. *)
Theorem late_answer_lost :
  (∀ s t k ex, heap s !! t = Some k → t_done k = true →
     ∃ f call_cancel, exchange_wake s t ETIMEDOUT = Some (f, Some (true, call_cancel)) ∧
       ∃ f' ex', exchange_finish f t true ex = Some (f', ex', ETIMEDOUT) ∧
         Some ex' = qcpu_set_failure_response (Some ex) STATUS_TIMEOUT ∧
         failed_requests (mk f') = u64 (failed_requests (mk s) + 1)) ∧
  ∃ s t ex k, reachable s ∧ callers s !! t = Some (CWaiting ex) ∧ heap (fs s) !! t = Some k ∧
    t_done k = true ∧ t_result k = 0 ∧ response_accepted (ex_request ex) (t_response k).
Proof.
  split.
  - intros s t k ex Hk Hd. unfold exchange_wake. rewrite Hk. cbn [mbind option_bind]. rewrite Hd. cbn [negb andb Z.eqb].
    destruct (qcpu_request_cancel_locked (mk s)) as [cc m] eqn:Hc. eexists _, _. split; [reflexivity|].
    unfold exchange_finish. cbn [heap]. rewrite Hk. cbn [mbind option_bind]. rewrite Hd. cbn.
    eexists _, _. split_and!; [reflexivity|done|]. cbn. unfold qcpu_request_cancel_locked in Hc.
    destruct (_ || _) in Hc; by simplify_eq.
  - exists {| fs := demo_answered; callers := callers demo_flight;
              workers := <[0%nat := WReleasing]> (workers demo_flight); closers := ∅; results := [] |}, 0%nat, demo_exchange.
    eexists. split.
    + destruct demo_flight_reachable as (env & cfg & m & path & Hc & Hsteps). exists env, cfg, m, path. split; [exact Hc|].
      eapply rtc_r; [exact Hsteps|].
      apply (fs_worker_done demo_flight 0 0 demo_response demo_answered); [reflexivity|discriminate|reflexivity].
    + split; [reflexivity|]. split; [reflexivity|]. split; [reflexivity|]. split; [reflexivity|].
      apply validate_accepts; [|reflexivity]. unfold request_checked. simpl. unfold MAX_QUBITS, MAX_SHOTS. lia.
Qed.
