(* ===== verification/EndToEnd.v ===== *)
(** * From the device interface to the state vector and back

    The data path of one exchange: the front end's request, translated and
    encoded by the adapter, decoded and run by the daemon, its response encoded,
    decoded and translated back, and judged by the front end. The transport
    between the two sides delivers the bytes ([DeviceIOProps], [AdapterProps]
    and [Daemon] say when it does). *)

From Stdlib Require Import ZArith Lia ZifyBool SpecFloat.
From stdpp Require Import base list numbers gmap.
From S2P Require Import Prelude.
From S2P Require Import Sys.
From S2P Require Import Float64.
From S2P Require Import Protocol.
From S2P Require Import Wire.
From S2P Require Import Gates.
From S2P Require Import Kernel.
From S2P Require Import Daemon.
From S2P Require Import NormFixed.
From S2P Require Import Adapter.
From S2P Require Import AdapterProps.
From S2P Require Import Frontend.
From S2P Require Import FrontendSystem.
From S2P Require Import FrontendProps.
From S2P Require Import FrontendCalls.
Open Scope Z_scope.

(** What the adapter makes of a request the daemon serves: its result and the
    response. The arguments before [request] are the memory available to the
    daemon and the old contents of local variables and buffers. *)
Definition device_path (alloc_k alloc_s : bool) (kernel : QCPUKernel double) (q0 : Device.Request)
    (junk : Device.Response) (request_wire response_wire : list Z) (request : Uapi.request_v1)
    : option (Z * Uapi.response_v1) :=
  match qcpu_adapter_translate_request request with
  | inr e => Some (e, Uapi.zero_response)
  | inl q =>
      '(_, packet) ← qcpu_device_encode_request (Some request_wire) (Some q);
      packet ← packet;
      response ← answer_packet alloc_k alloc_s kernel q0 packet;
      '(_, packet) ← qcpu_device_encode_response (Some response_wire) (Some response);
      '(status, response) ← qcpu_device_decode_response (Some junk) packet (Z.of_nat RESPONSE_WIRE_SIZE);
      response ← response;
      if negb (status =? Device.STATUS_OK) then Some (- EIO, Uapi.zero_response)
      else Some (qcpu_adapter_translate_response response)
  end.

(** The daemon's request for one the front end accepts. *)
Definition daemon_request (q : Uapi.request_v1) : Device.Request :=
  {| Device.req_magic := Device.REQUEST_MAGIC; Device.req_version := Device.PROTOCOL_VERSION;
     Device.req_command := Uapi.ureq_command q; Device.req_qubits := Uapi.ureq_qubits q;
     Device.req_shots := Uapi.ureq_shots q; Device.req_seed := Uapi.ureq_seed q |}.

Lemma translate_valid q : request_valid q → qcpu_adapter_translate_request q = inl (daemon_request q).
Proof.
  unfold request_valid, qcpu_adapter_translate_request, daemon_request.
  by intros (_ & _ & [(-> & _)|(-> & _)]).
Qed.

Lemma daemon_request_wf q : request_valid q → in_width 64 (Uapi.ureq_seed q) → Device.request_wf (daemon_request q).
Proof.
  unfold request_valid, Device.request_wf, in_width, daemon_request, Uapi.MAX_QUBITS, Uapi.MAX_SHOTS,
    Uapi.COMMAND_STATUS, Uapi.COMMAND_RUN_GHZ, Device.REQUEST_MAGIC, Device.PROTOCOL_VERSION. simpl. lia.
Qed.

(** The path ends with a response the daemon's contract allows. *)
Lemma path_answers alloc_k alloc_s kernel q0 junk buf24 buf56 q :
  request_valid q → in_width 64 (Uapi.ureq_seed q) →
  length buf24 = REQUEST_WIRE_SIZE → length buf56 = RESPONSE_WIRE_SIZE →
  ∃ r, answers (alloc_k && alloc_s) (daemon_request q) r ∧
    device_path alloc_k alloc_s kernel q0 junk buf24 buf56 q = Some (qcpu_adapter_translate_response r).
Proof.
  intros Hv Hseed H24 H56. pose proof (daemon_request_wf q Hv Hseed) as Hwf. unfold device_path.
  rewrite (translate_valid q Hv), encode_request_layout by done. cbn [mbind option_bind].
  destruct (answer_packet_ok alloc_k alloc_s kernel q0 _ (request_layout_bytes (daemon_request q)) eq_refl)
    as (r & -> & Hp & Hr). cbn [mbind option_bind].
  unfold packet_answers in Hp. rewrite request_of_layout in Hp by done. cbv zeta in Hp.
  change (header_status _ _ _) with Device.STATUS_OK in Hp. cbn in Hp.
  rewrite encode_response_layout by done. cbn [mbind option_bind].
  rewrite decode_response_of_bytes by (done || apply response_layout_bytes). cbn [mbind option_bind].
  rewrite response_of_layout by done.
  assert (header_status Device.RESPONSE_MAGIC (Device.rsp_magic r) (Device.rsp_version r) = Device.STATUS_OK) as ->
    by (by destruct Hp).
  exists r. done.
Qed.

(** The front end accepts the translated answers of the contract. *)
Lemma answers_accepted q r :
  request_valid q → answers true (daemon_request q) r →
  ∃ u, qcpu_adapter_translate_response r = (0, u) ∧ qcpu_validate_backend_response q u = Some (inl tt).
Proof.
  intros (Hm & Hver & Hcmd) Ha. destruct Ha as [Hc|Hn1 Hn2|Hc Hnv|Hc Hv Hmem|s Hc Hv _ Hst]; simpl in *.
  - destruct Hcmd as [(_ & Hq & Hs)|(Hc' & _)]; [|by rewrite Hc' in Hc].
    eexists. split; [reflexivity|]. unfold qcpu_validate_backend_response. cbn. by rewrite Hq, Hs, Hc.
  - destruct Hcmd as [(? & _)|(? & _)]; done.
  - destruct Hcmd as [(Hc' & _)|(_ & Hr)]; [by rewrite Hc' in Hc|]. by destruct Hnv.
  - done.
  - unfold valid_run, Device.MAX_QUBITS, Device.MAX_SHOTS in Hv. simpl in Hv.
    eexists. split; [reflexivity|]. unfold qcpu_validate_backend_response. cbn -[Z.pow u64 c_shl].
    rewrite !Z.eqb_refl, Hc. cbn -[Z.pow u64 c_shl]. rewrite c_shl_one by lia. cbn [mbind option_bind].
    rewrite Z.eqb_refl. cbn [negb].
    assert (0 < 2 ^ Uapi.ureq_qubits q < 2 ^ 64) by (split; [apply Z.pow_pos_nonneg|apply Z.pow_lt_mono_r]; lia).
    assert (u64 (2 ^ Uapi.ureq_qubits q - 1) = 2 ^ Uapi.ureq_qubits q - 1) as -> by (apply wrap_small; unfold in_width; lia).
    destruct Hst as [->| ->]; [done|]. by rewrite Z.eqb_refl, andb_false_r.
Qed.

(** C1 (end to end): a request the front end accepts, with any 64-bit seed, goes
    through the adapter's encoding, the daemon, the simulation and back to a
    result 0, and the front end's verdict on a task with that answer is success:
    no honest answer is rejected. When the daemon runs out of memory the verdict
    on a GHZ run is EIO with status KERNEL, and the device stays online. *)
Theorem end_to_end_correct alloc_k alloc_s kernel q0 junk buf24 buf56 q m k :
  request_valid q → in_width 64 (Uapi.ureq_seed q) →
  length buf24 = REQUEST_WIRE_SIZE → length buf56 = RESPONSE_WIRE_SIZE →
  ∃ res u, device_path alloc_k alloc_s kernel q0 junk buf24 buf56 q = Some (res, u) ∧
    (cancel_requested m = false → t_request k = q → t_result k = res → t_response k = u →
     exchange_verdict m k false =
       Some (if alloc_k && alloc_s || (Uapi.ureq_command q =? Uapi.COMMAND_STATUS)
             then (0, Uapi.STATUS_OK, false) else (EIO, Uapi.STATUS_KERNEL, false))).
Proof.
  intros Hv Hseed H24 H56.
  destruct (path_answers alloc_k alloc_s kernel q0 junk buf24 buf56 q Hv Hseed H24 H56) as (r & Ha & ->).
  destruct (alloc_k && alloc_s || (Uapi.ureq_command q =? Uapi.COMMAND_STATUS)) eqn:Hmem.
  - assert (answers true (daemon_request q) r) as Ha'.
    { destruct Ha; try by constructor. simpl in *. apply orb_true_iff in Hmem as [?|Hmem]; [congruence|].
      apply Z.eqb_eq in Hmem. rewrite Hmem in *. done. }
    destruct (answers_accepted q r Hv Ha') as (u & -> & Hval). exists 0, u. split; [done|].
    intros Hc Hq Hres Hu. unfold exchange_verdict. by rewrite Hc, Hq, Hres, Hu, Hval.
  - apply orb_false_elim in Hmem as [Hmem Hcmd]. apply Z.eqb_neq in Hcmd. rewrite Hmem in Ha.
    destruct Hv as (_ & _ & [(? & _)|(Hghz & Hq' & Hs')]); [done|].
    destruct Ha as [Hc|Hn1 Hn2|Hc Hnv|Hc Hvr _|s Hc Hvr [=] _]; simpl in *; [done|done|by destruct Hnv|].
    eexists _, _. split; [reflexivity|]. intros Hcan Hq Hres Hu. unfold exchange_verdict.
    by rewrite Hcan, Hres, Hu.
Qed.

Definition demo_task (res : Z) (u : Uapi.response_v1) : task := {|
  references := 2; t_ops := no_ops; t_context := 0; t_request := demo_request; t_response := u; t_deadline := 0;
  t_result := res; t_done := true; t_abandoned := false
|}.

Lemma demo_request_valid : request_valid demo_request ∧ in_width 64 (Uapi.ureq_seed demo_request).
Proof.
  split; [|unfold in_width; simpl; lia]. split; [reflexivity|]. split; [reflexivity|]. right.
  unfold Uapi.MAX_QUBITS, Uapi.MAX_SHOTS. simpl. lia.
Qed.

Lemma end_to_end_correct_witness :
  ∃ res u, device_path true true zero_kernel sample_request Device.zero_response (replicate 24 0) (replicate 56 0)
             demo_request = Some (res, u) ∧
    exchange_verdict demo_mock (demo_task res u) false = Some (0, Uapi.STATUS_OK, false).
Proof.
  destruct (path_answers true true zero_kernel sample_request Device.zero_response (replicate 24 0) (replicate 56 0)
    demo_request) as (r & _ & Hr); try reflexivity; try apply demo_request_valid.
  - destruct (qcpu_adapter_translate_response r) as [res0 u0] eqn:Ht.
    destruct (end_to_end_correct true true zero_kernel sample_request Device.zero_response (replicate 24 0)
      (replicate 56 0) demo_request demo_mock (demo_task res0 u0)) as (res & u & Hp & Hverdict);
      try reflexivity; try apply demo_request_valid.
    + exists res, u. split; [exact Hp|]. rewrite Hr in Hp. injection Hp as <- <-.
      apply Hverdict; reflexivity.
Defined.
