(* ===== verification/Outcome.v ===== *)
(** * Outcomes and printed output

    What a piece of the language tools can do: return, reach undefined
    behaviour, or need more fuel; and what it prints, one [Print] per [printf]
    with the format as it is written in the source. *)

From Stdlib Require Import ZArith Lia ZifyBool Ascii String.
From stdpp Require Import base list numbers strings.
From S2P Require Import Prelude.
Open Scope Z_scope.

(** ** Outcomes *)

Inductive outcome (A : Type) :=
| Done (a : A)
| Undef
| NoFuel.
Arguments Done {A}.
Arguments Undef {A}.
Arguments NoFuel {A}.

#[export] Instance outcome_eq_dec `{EqDecision A} : EqDecision (outcome A).
Proof. solve_decision. Defined.

#[export] Instance outcome_ret : MRet outcome := λ A a, Done a.
#[export] Instance outcome_bind : MBind outcome := λ A B f m,
  match m with Done a => f a | Undef => Undef | NoFuel => NoFuel end.

(** An access that is undefined where there is nothing. *)
Definition defined {A} (o : option A) : outcome A :=
  match o with Some a => Done a | None => Undef end.

(** [guard_ub b]: undefined behaviour unless [b]. *)
Definition guard_ub (b : bool) : outcome unit := if b then Done tt else Undef.

Lemma bind_done {A B} (m : outcome A) (f : A → outcome B) b :
  m ≫= f = Done b → ∃ a, m = Done a ∧ f a = Done b.
Proof. destruct m; try done. eauto. Qed.

(** More fuel does not change an outcome other than [NoFuel]. *)
Definition refines {A} (x y : outcome A) : Prop := x = NoFuel ∨ x = y.

Lemma refines_refl {A} (x : outcome A) : refines x x.
Proof. by right. Qed.

Lemma refines_bind {A B} (x y : outcome A) (f g : A → outcome B) :
  refines x y → (∀ a, refines (f a) (g a)) → refines (x ≫= f) (y ≫= g).
Proof. intros [->| ->] Hf; [by left|]. destruct y; [apply Hf|by right|by right]. Qed.

(** ** Output *)

Inductive arg (F : Type) :=
| AStr (s : string)
| AInt (z : Z)
| ADbl (x : F).
Arguments AStr {F}.
Arguments AInt {F}.
Arguments ADbl {F}.

Record output (F : Type) := Print { format : string; args : list (arg F) }.
Arguments Print {F}.
