(* ===== verification/CString.v ===== *)
(** * C strings

    A C string is a [string] without its terminator. The character classes are
    those of the C locale: a byte above 127 is in none of them. *)

From Stdlib Require Import ZArith Lia ZifyBool Ascii String.
From stdpp Require Import base list numbers strings.
From S2P Require Import Prelude.
Open Scope Z_scope.

(** ** Character classes *)

Definition isspace (c : ascii) : bool :=
  let n := N_of_ascii c in ((n =? 32) || ((9 <=? n) && (n <=? 13)))%N.
Definition isdigit (c : ascii) : bool :=
  let n := N_of_ascii c in ((48 <=? n) && (n <=? 57))%N.

Definition isalpha (c : ascii) : bool :=
  let n := N_of_ascii c in (((65 <=? n) && (n <=? 90)) || ((97 <=? n) && (n <=? 122)))%N.
Definition isalnum (c : ascii) : bool := isalpha c || isdigit c.

Definition NUL : ascii := "000"%char.
Definition NEWLINE : ascii := "010"%char.
Definition QUOTE : ascii := "034"%char.

(** ** Parts of a string *)

(** The first [n] characters. *)
Fixpoint str_take (n : nat) (s : string) : string :=
  match n, s with
  | S n, String c s => String c (str_take n s)
  | _, _ => EmptyString
  end.

Fixpoint str_drop (n : nat) (s : string) : string :=
  match n, s with
  | S n, String _ s => str_drop n s
  | _, _ => s
  end.

(** The longest prefix of characters in a class, and the rest. *)
Fixpoint span (p : ascii → bool) (s : string) : string * string :=
  match s with
  | String c s' => if p c then let '(v, r) := span p s' in (String c v, r) else (EmptyString, s)
  | EmptyString => (EmptyString, EmptyString)
  end.

(** The character at the start of a string, its terminator when it is empty. *)
Definition head_char (s : string) : ascii :=
  match s with String c _ => c | EmptyString => NUL end.

(** The C string at the start of a buffer. *)
Fixpoint c_string (s : string) : string :=
  match s with
  | String c s' => if (c =? NUL)%char then EmptyString else String c (c_string s')
  | EmptyString => EmptyString
  end.

(** The bytes of a string. *)
Definition string_bytes (s : string) : list Z := (λ c, Z.of_N (N_of_ascii c)) <$> list_ascii_of_string s.

Fixpoint str_forall (p : ascii → bool) (s : string) : bool :=
  match s with String c s' => p c && str_forall p s' | EmptyString => true end.

(** A string that does not start with a character of the class. *)
Definition stops (p : ascii → bool) (s : string) : bool :=
  match s with String c _ => negb (p c) | EmptyString => true end.

Lemma span_spec p s :
  ∃ v r, span p s = (v, r) ∧ s = (v +:+ r)%string ∧ str_forall p v = true ∧ stops p r = true.
Proof.
  induction s as [|c s (v & r & Hsp & Hs & Hv & Hr)]; [by exists EmptyString, EmptyString|]. simpl.
  destruct (p c) eqn:Hc; [|exists EmptyString, (String c s); by simpl; rewrite Hc]. rewrite Hsp.
  exists (String c v), r. simpl. rewrite Hc, Hv. by subst s.
Qed.

Lemma span_app p v r : str_forall p v = true → stops p r = true → span p (v +:+ r)%string = (v, r).
Proof.
  intros Hv Hr. induction v as [|c v IH]; simpl in *.
  - destruct r as [|c r]; [done|]. simpl in *. by destruct (p c).
  - destruct (p c); [|done]. by rewrite IH.
Qed.

Lemma length_str_take n s : (String.length (str_take n s) <= n)%nat.
Proof. revert s. induction n as [|n IH]; intros [|c s]; simpl; try lia. specialize (IH s). lia. Qed.

Lemma str_take_id n s : (String.length s <= n)%nat → str_take n s = s.
Proof.
  revert s. induction n as [|n IH]; intros [|c s]; simpl; try done; [lia|]. intros Hl. by rewrite IH by lia.
Qed.

Lemma length_str_drop n s : (String.length (str_drop n s) <= String.length s)%nat.
Proof. revert s. induction n as [|n IH]; intros [|c s]; simpl; try lia. specialize (IH s). lia. Qed.

Lemma length_append (s t : string) : String.length (s +:+ t) = (String.length s + String.length t)%nat.
Proof. induction s as [|c s IH]; [done|]. simpl. by rewrite IH. Qed.

Lemma append_nil_r (s : string) : (s +:+ EmptyString = s)%string.
Proof. induction s as [|c s IH]; [done|]. exact (f_equal (String c) IH). Qed.

Lemma append_assoc (s t u : string) : ((s +:+ t) +:+ u = s +:+ (t +:+ u))%string.
Proof. induction s as [|c s IH]; [done|]. exact (f_equal (String c) IH). Qed.

Fixpoint skip_spaces (s : string) : string :=
  match s with
  | String c s' => if isspace c then skip_spaces s' else s
  | EmptyString => s
  end.

(** ** Numbers *)

(** The value of the leading digits. *)
Fixpoint digits_value (acc : Z) (s : string) : Z :=
  match s with
  | String c s' =>
      if isdigit c then digits_value (acc * 10 + (Z.of_N (N_of_ascii c) - 48)) s' else acc
  | EmptyString => acc
  end.

(** [atoi]; a value outside [int] is undefined. *)
Definition atoi (s : string) : option Z :=
  let v :=
    match skip_spaces s with
    | String "-" s' => - digits_value 0 s'
    | String "+" s' => digits_value 0 s'
    | s' => digits_value 0 s'
    end in
  if (- 2 ^ 31 <=? v) && (v <? 2 ^ 31) then Some v else None.

Example atoi_plain : atoi "42" = Some 42.
Proof. reflexivity. Qed.
Example atoi_mixed : atoi "  -7x9" = Some (-7).
Proof. reflexivity. Qed.
Example atoi_none : atoi "abc" = Some 0.
Proof. reflexivity. Qed.
Example atoi_overflow : atoi "2147483648" = None.
Proof. reflexivity. Qed.

(** [strstr(s, p) != NULL] *)
Fixpoint contains (p s : string) : bool :=
  String.prefix p s || match s with String _ s => contains p s | EmptyString => false end.

Lemma prefix_spec p s : String.prefix p s = true ↔ ∃ b, s = (p +:+ b)%string.
Proof.
  revert s. induction p as [|c p IH]; intros [|d s]; cbn [String.prefix].
  - by split; [exists EmptyString|].
  - by split; [exists (String d s)|].
  - split; [done|]. by intros [b ?].
  - destruct (ascii_dec c d) as [->|Hne].
    + rewrite IH. split; intros [b Hb]; exists b; [by rewrite Hb|by injection Hb].
    + split; [done|]. intros [b Hb]. by injection Hb.
Qed.

(** [strstr] finds exactly the texts that occur. *)
Lemma contains_spec p s : contains p s = true ↔ ∃ a b, s = (a +:+ (p +:+ b))%string.
Proof.
  induction s as [|c s IH]; cbn [contains]; rewrite orb_true_iff, prefix_spec.
  - split; [intros [[b Hb]|]; [by exists EmptyString, b|done]|]. intros ([|] & b & Hb); [by left; exists b|done].
  - rewrite IH. split.
    + intros [[b Hb]|(a & b & Hb)]; [by exists EmptyString, b|]. exists (String c a), b. by rewrite Hb.
    + intros ([|d a] & b & Hb); [left; by exists b|right]. exists a, b. by injection Hb.
Qed.

Lemma c_string_id s : str_forall (λ c, negb (c =? NUL)%char) s = true → c_string s = s.
Proof.
  induction s as [|c s IH]; [done|]. simpl. rewrite andb_true_iff, negb_true_iff. intros [-> Hs]. by rewrite IH.
Qed.
