(* ===== verification/Lexer.v ===== *)
(** * The lexer

    [src/lexer/lexer.c]. The static array [tokens] and its counter are the
    record [lexer]: entries from [tok_count] on are what an earlier run left
    there, zeros at first. The text still to be read stands for the index [i]
    into the source; the terminator is read as [NUL]. Undefined behaviour: a
    lexeme that does not fit its local buffer, a token past the array, and a
    source longer than an [int] counts. *)

From Stdlib Require Import ZArith Lia ZifyBool Ascii String.
From stdpp Require Import base list numbers strings.
From S2P Require Import Prelude.
From S2P Require Import Outcome.
From S2P Require Import CString.
Open Scope Z_scope.

(** ** Tokens *)

Inductive TokenType :=
| TOKEN_SAY | TOKEN_LET | TOKEN_CHECK | TOKEN_OTHERWISE | TOKEN_REPEAT | TOKEN_ACTION | TOKEN_QBIT
| TOKEN_HADAMARD | TOKEN_MEASURE | TOKEN_ENTANGLE | TOKEN_CNOT | TOKEN_QMSG | TOKEN_ENCODE | TOKEN_DECODE
| TOKEN_STATE_0 | TOKEN_STATE_1 | TOKEN_STATE_PLUS | TOKEN_STATE_MINUS
| TOKEN_EQ | TOKEN_GT | TOKEN_LT | TOKEN_GTE | TOKEN_LTE | TOKEN_EQEQ
| TOKEN_IDENT | TOKEN_NUMBER | TOKEN_STRING
| TOKEN_LBRACE | TOKEN_RBRACE | TOKEN_DIRECTIVE | TOKEN_EOF | TOKEN_UNKNOWN.

#[export] Instance TokenType_eq_dec : EqDecision TokenType.
Proof. solve_decision. Defined.

Record Token := { tok_type : TokenType; tok_value : string; tok_line : Z }.

(** A zeroed entry: the first enumerator is [TOKEN_SAY]. *)
Definition zero_token : Token := {| tok_type := TOKEN_SAY; tok_value := EmptyString; tok_line := 0 |}.

Definition MAX_TOKENS : nat := 1024.

Record lexer := { tokens : list Token; tok_count : nat }.

Definition initial_lexer : lexer := {| tokens := replicate MAX_TOKENS zero_token; tok_count := 0 |}.

(** [strncpy] fills 255 of the 256 bytes of a value; the last stays zero. *)
Definition add_token (type : TokenType) (val : string) (line : Z) (lx : lexer) : outcome lexer :=
  _ ← guard_ub (tok_count lx <? MAX_TOKENS)%nat;
  Done {| tokens := <[tok_count lx := {| tok_type := type; tok_value := str_take 255 val; tok_line := line |}]> (tokens lx);
          tok_count := S (tok_count lx) |}.

Definition token_name (t : TokenType) : string :=
  match t with
  | TOKEN_SAY => "SAY"
  | TOKEN_LET => "LET"
  | TOKEN_CHECK => "CHECK"
  | TOKEN_OTHERWISE => "OTHERWISE"
  | TOKEN_REPEAT => "REPEAT"
  | TOKEN_ACTION => "ACTION"
  | TOKEN_QBIT => "QBIT"
  | TOKEN_HADAMARD => "HADAMARD"
  | TOKEN_MEASURE => "MEASURE"
  | TOKEN_ENTANGLE => "ENTANGLE"
  | TOKEN_CNOT => "CNOT"
  | TOKEN_QMSG => "QMSG"
  | TOKEN_ENCODE => "ENCODE"
  | TOKEN_DECODE => "DECODE"
  | TOKEN_STATE_0 => "STATE|0>"
  | TOKEN_STATE_1 => "STATE|1>"
  | TOKEN_STATE_PLUS => "STATE|+>"
  | TOKEN_STATE_MINUS => "STATE|->"
  | TOKEN_EQ => "="
  | TOKEN_EQEQ => "=="
  | TOKEN_GT => ">"
  | TOKEN_LT => "<"
  | TOKEN_GTE => ">="
  | TOKEN_LTE => "<="
  | TOKEN_IDENT => "IDENT"
  | TOKEN_NUMBER => "NUMBER"
  | TOKEN_STRING => "STRING"
  | TOKEN_LBRACE => "{"
  | TOKEN_RBRACE => "}"
  | TOKEN_DIRECTIVE => "DIRECTIVE"
  | TOKEN_EOF => "EOF"
  | TOKEN_UNKNOWN => "UNKNOWN"
  end.

(** ** Classes of lexemes *)

Definition directive_char (c : ascii) : bool := negb (isspace c) && negb (c =? NEWLINE)%char.
Definition string_char (c : ascii) : bool := negb (c =? QUOTE)%char.
Definition word_start (c : ascii) : bool := isalpha c || (c =? "_")%char.
Definition word_char (c : ascii) : bool := isalnum c || (c =? "_")%char.

(** The token of a state, by the character after the bar. *)
Definition state_token (n : ascii) : option (TokenType * string) :=
  if (n =? "0")%char then Some (TOKEN_STATE_0, "|0>"%string)
  else if (n =? "1")%char then Some (TOKEN_STATE_1, "|1>"%string)
  else if (n =? "+")%char then Some (TOKEN_STATE_PLUS, "|+>"%string)
  else if (n =? "-")%char then Some (TOKEN_STATE_MINUS, "|->"%string)
  else None.

(** Operators and braces, by the current character and the next one: the
    token, its text and how many characters it takes. *)
Definition operator_token (c n : ascii) : option (TokenType * string * nat) :=
  if ((c =? "=") && (n =? "="))%char then Some (TOKEN_EQEQ, "=="%string, 2%nat)
  else if ((c =? ">") && (n =? "="))%char then Some (TOKEN_GTE, ">="%string, 2%nat)
  else if ((c =? "<") && (n =? "="))%char then Some (TOKEN_LTE, "<="%string, 2%nat)
  else if (c =? "=")%char then Some (TOKEN_EQ, "="%string, 1%nat)
  else if (c =? ">")%char then Some (TOKEN_GT, ">"%string, 1%nat)
  else if (c =? "<")%char then Some (TOKEN_LT, "<"%string, 1%nat)
  else if (c =? "{")%char then Some (TOKEN_LBRACE, "{"%string, 1%nat)
  else if (c =? "}")%char then Some (TOKEN_RBRACE, "}"%string, 1%nat)
  else None.

Definition word_type (buf : string) : TokenType :=
  if (buf =? "say")%string then TOKEN_SAY
  else if (buf =? "let")%string then TOKEN_LET
  else if (buf =? "check")%string then TOKEN_CHECK
  else if (buf =? "otherwise")%string then TOKEN_OTHERWISE
  else if (buf =? "repeat")%string then TOKEN_REPEAT
  else if (buf =? "action")%string then TOKEN_ACTION
  else if (buf =? "qbit")%string then TOKEN_QBIT
  else if (buf =? "hadamard")%string then TOKEN_HADAMARD
  else if (buf =? "measure")%string then TOKEN_MEASURE
  else if (buf =? "entangle")%string then TOKEN_ENTANGLE
  else if (buf =? "cnot")%string then TOKEN_CNOT
  else if (buf =? "qmsg")%string then TOKEN_QMSG
  else if (buf =? "encode")%string then TOKEN_ENCODE
  else if (buf =? "decode")%string then TOKEN_DECODE
  else TOKEN_IDENT.

(** ** The scanner *)

(** Copying a run of characters into a local buffer of [size] bytes. *)
Definition copy_run (size : nat) (p : ascii → bool) (s : string) : outcome (string * string) :=
  let '(v, r) := span p s in
  _ ← guard_ub (String.length v <? size)%nat;
  Done (v, r).

(** One round of the loop on a non-empty rest [String c s]: the new rest, line
    and tokens. *)
Definition scan_step (c : ascii) (s : string) (line : Z) (lx : lexer) : outcome (string * Z * lexer) :=
  let src := String c s in
  if (c =? NEWLINE)%char then Done (s, line + 1, lx)
  else if isspace c then Done (s, line, lx)
  else if (c =? "@")%char then
    '(buf, s) ← copy_run 256 directive_char s;
    lx ← add_token TOKEN_DIRECTIVE buf line lx;
    Done (s, line, lx)
  else if (c =? QUOTE)%char then
    '(buf, s) ← copy_run 256 string_char s;
    lx ← add_token TOKEN_STRING buf line lx;
    Done (str_drop 1 s, line, lx)
  else
  match (if (c =? "|")%char then state_token (head_char s) else None) with
  | Some (type, text) => lx ← add_token type text line lx; Done (str_drop 3 src, line, lx)
  | None =>
  match operator_token c (head_char s) with
  | Some (type, text, n) => lx ← add_token type text line lx; Done (str_drop n src, line, lx)
  | None =>
  if isdigit c then
    '(buf, s) ← copy_run 64 isdigit src;
    lx ← add_token TOKEN_NUMBER buf line lx;
    Done (s, line, lx)
  else if word_start c then
    '(buf, s) ← copy_run 256 word_char src;
    lx ← add_token (word_type buf) buf line lx;
    Done (s, line, lx)
  else Done (s, line, lx)
  end
  end.

Fixpoint scan (fuel : nat) (src : string) (line : Z) (lx : lexer) : outcome (Z * lexer) :=
  match src with
  | EmptyString => Done (line, lx)
  | String c s =>
      match fuel with
      | O => NoFuel
      | S fuel => '(src, line, lx) ← scan_step c s line lx; scan fuel src line lx
      end
  end.

(** [tokenize], on the array an earlier run left. Every round takes a
    character, so the length of the source is fuel enough. *)
Definition tokenize (src : string) (lx : lexer) : outcome lexer :=
  _ ← guard_ub (Z.of_nat (String.length src) <? 2 ^ 31 - 1);
  '(line, lx) ← scan (String.length src) src 1 {| tokens := tokens lx; tok_count := 0 |};
  add_token TOKEN_EOF "EOF" line lx.
