(* ===== verification/LexerProps.v ===== *)
(** * Properties of the lexer

    [lex] describes the tokens of a text by rules: each lexeme is the longest
    run of its class. The scanner computes just these tokens and stores them,
    unless one does not fit. [render] writes tokens back as a text. *)

From Stdlib Require Import ZArith Lia ZifyBool Ascii String.
From stdpp Require Import base list numbers strings.
From S2P Require Import Prelude.
From S2P Require Import Outcome.
From S2P Require Import CString.
From S2P Require Import Lexer.
Open Scope Z_scope.

Abbreviation token t v l := {| tok_type := t; tok_value := v; tok_line := l |} (only parsing).

(** ** The tokens of a text *)

(** A character that starts no lexeme in front of [n]. *)
Definition ignored (c n : ascii) : bool :=
  negb (isspace c) && negb (c =? "@")%char && negb (c =? QUOTE)%char && negb (isdigit c) && negb (word_start c) &&
  negb ((c =? "|")%char && bool_decide (is_Some (state_token n))) && bool_decide (operator_token c n = None).

(** [lex line s ts e]: the text [s], read from line [line] on, has the tokens
    [ts] and ends in line [e]. *)
Inductive lex : Z → string → list Token → Z → Prop :=
| lex_end line : lex line EmptyString [] line
| lex_newline line s ts e : lex (line + 1) s ts e → lex line (String NEWLINE s) ts e
| lex_space line c s ts e : isspace c = true → c ≠ NEWLINE → lex line s ts e → lex line (String c s) ts e
| lex_ignored line c s ts e : ignored c (head_char s) = true → lex line s ts e → lex line (String c s) ts e
| lex_directive line v s ts e :
    str_forall directive_char v = true → stops directive_char s = true → lex line s ts e →
    lex line (String "@" (v +:+ s)) (token TOKEN_DIRECTIVE v line :: ts) e
| lex_string line v s ts e :
    str_forall string_char v = true → lex line s ts e →
    lex line (String QUOTE (v +:+ String QUOTE s)) (token TOKEN_STRING v line :: ts) e
| lex_open_string line v :
    str_forall string_char v = true →
    lex line (String QUOTE v) [token TOKEN_STRING v line] line
| lex_state line n s t v ts e :
    state_token n = Some (t, v) → lex line (str_drop 1 s) ts e →
    lex line (String "|" (String n s)) (token t v line :: ts) e
| lex_operator line c s t v n ts e :
    operator_token c (head_char s) = Some (t, v, n) → lex line (str_drop n (String c s)) ts e →
    lex line (String c s) (token t v line :: ts) e
| lex_number line v s ts e :
    v ≠ EmptyString → str_forall isdigit v = true → stops isdigit s = true → lex line s ts e →
    lex line (v +:+ s) (token TOKEN_NUMBER v line :: ts) e
| lex_word line c v s ts e :
    word_start c = true → str_forall word_char v = true → stops word_char s = true → lex line s ts e →
    lex line (String c v +:+ s) (token (word_type (String c v)) (String c v) line :: ts) e.

(** The size of the local buffer a lexeme is copied into. *)
Definition buffer_size (t : TokenType) : nat := match t with TOKEN_NUMBER => 64 | _ => 256 end.
Definition token_fits (t : Token) : bool := (String.length (tok_value t) <? buffer_size (tok_type t))%nat.

(** Storing tokens one by one. *)
Fixpoint put (ts : list Token) (lx : lexer) : outcome lexer :=
  match ts with
  | [] => Done lx
  | t :: ts =>
      _ ← guard_ub (token_fits t);
      lx ← add_token (tok_type t) (tok_value t) (tok_line t) lx;
      put ts lx
  end.

(** The array with tokens stored from the counter on. *)
Definition stored (ts : list Token) (lx : lexer) : lexer :=
  {| tokens := take (tok_count lx) (tokens lx) ++ ts ++ drop (tok_count lx + length ts) (tokens lx);
     tok_count := tok_count lx + length ts |}.

Lemma stored_one t ts lx :
  (tok_count lx < length (tokens lx))%nat →
  stored ts {| tokens := <[tok_count lx := t]> (tokens lx); tok_count := S (tok_count lx) |} = stored (t :: ts) lx.
Proof.
  intros Hlt. unfold stored. cbn [tokens tok_count length]. f_equal; [|lia].
  rewrite (insert_take_drop _ _ _ Hlt) at 1 2.
  assert (Hl : length (take (tok_count lx) (tokens lx)) = tok_count lx) by (rewrite length_take; lia).
  replace (S (tok_count lx)) with (length (take (tok_count lx) (tokens lx)) + 1)%nat at 1 by lia.
  rewrite take_app_add. simpl. rewrite <-app_assoc. simpl. do 3 f_equal.
  rewrite drop_app_ge by lia. rewrite Hl.
  replace (S (tok_count lx + length ts) - tok_count lx)%nat with (S (length ts)) by lia. cbn [drop].
  rewrite drop_drop. f_equal. lia.
Qed.

(** What storing does: nothing undefined exactly when everything fits. *)
Lemma put_stored ts lx :
  length (tokens lx) = MAX_TOKENS → (tok_count lx <= MAX_TOKENS)%nat →
  put ts lx = if forallb token_fits ts && (tok_count lx + length ts <=? MAX_TOKENS)%nat
              then Done (stored ts lx) else Undef.
Proof.
  revert lx. induction ts as [|t ts IH]; intros lx Hl Hc.
  - simpl. rewrite Nat.add_0_r. destruct (Nat.leb_spec (tok_count lx) MAX_TOKENS); [|lia]. unfold stored. simpl.
    rewrite Nat.add_0_r, take_drop. by destruct lx.
  - cbn [put forallb]. destruct (token_fits t) eqn:Hfit; [|done]. cbn [guard_ub mbind outcome_bind andb].
    unfold add_token, guard_ub. destruct (Nat.ltb_spec (tok_count lx) MAX_TOKENS) as [Hlt|Hge].
    + cbn [mbind outcome_bind]. rewrite IH; cbn [tokens tok_count]; [|by rewrite length_insert|lia].
      assert (str_take 255 (tok_value t) = tok_value t) as ->.
      { apply str_take_id. unfold token_fits, buffer_size in Hfit. destruct (tok_type t); lia. }
      assert (token (tok_type t) (tok_value t) (tok_line t) = t) as -> by by destruct t.
      rewrite stored_one by lia. simpl length.
      by replace (S (tok_count lx) + length ts)%nat with (tok_count lx + S (length ts))%nat by lia.
    + cbn [mbind outcome_bind length]. destruct (Nat.leb_spec (tok_count lx + S (length ts)) MAX_TOKENS); [lia|].
      by rewrite andb_false_r.
Qed.

(** ** The scanner finds them *)

Ltac each_char c := destruct c as [[] [] [] [] [] [] [] []]; try discriminate; repeat split; reflexivity.

(** The tests that come before a lexeme's own. *)
Definition no_layout (c : ascii) : Prop :=
  (c =? NEWLINE)%char = false ∧ isspace c = false ∧ (c =? "@")%char = false ∧ (c =? QUOTE)%char = false.

Lemma operator_tests c n x : operator_token c n = Some x → no_layout c ∧ (c =? "|")%char = false.
Proof. unfold no_layout. each_char c. Qed.

Lemma digit_tests c n :
  isdigit c = true → no_layout c ∧ (c =? "|")%char = false ∧ operator_token c n = None.
Proof. unfold no_layout. each_char c. Qed.

Lemma word_tests c n :
  word_start c = true → no_layout c ∧ (c =? "|")%char = false ∧ operator_token c n = None ∧ isdigit c = false.
Proof. unfold no_layout. each_char c. Qed.

Lemma ignored_tests c n :
  ignored c n = true →
  no_layout c ∧ (if (c =? "|")%char then state_token n else None) = None ∧ operator_token c n = None ∧
  isdigit c = false ∧ word_start c = false.
Proof.
  unfold ignored, no_layout. rewrite !andb_true_iff, !negb_true_iff. intros ((((((H1 & H2) & H3) & H4) & H5) & H6) & H7).
  apply bool_decide_eq_true in H7. split_and!; try done.
  - destruct (Ascii.eqb_spec c NEWLINE) as [->|]; done.
  - destruct (c =? "|")%char; [|done]. apply andb_false_iff in H6 as [|H6]; [done|].
    apply bool_decide_eq_false in H6. by apply eq_None_not_Some.
Qed.

(** Storing a lexeme that was copied through a buffer. *)
Definition store {A} (t : Token) (a : A) (lx : lexer) : outcome (A * lexer) :=
  _ ← guard_ub (token_fits t);
  lx ← add_token (tok_type t) (tok_value t) (tok_line t) lx;
  Done (a, lx).

Lemma scan_stored fuel c s line lx t s' ts e :
  scan_step c s line lx = store t (s', line) lx →
  (∀ lx, scan fuel s' line lx = lx' ← put ts lx; Done (e, lx')) →
  scan (S fuel) (String c s) line lx = lx' ← put (t :: ts) lx; Done (e, lx').
Proof.
  intros Hstep Hrest. cbn [scan put]. rewrite Hstep. unfold store.
  destruct (guard_ub _); [|done|done]. cbn [mbind outcome_bind].
  destruct (add_token _ _ _ _); [apply Hrest|done|done].
Qed.

Lemma state_token_fits n t v line : state_token n = Some (t, v) → token_fits (token t v line) = true.
Proof. unfold state_token. repeat (destruct (_ =? _)%char; [by intros [= <- <-]|]). done. Qed.

Lemma operator_token_fits c n t v k line : operator_token c n = Some (t, v, k) → token_fits (token t v line) = true.
Proof. unfold operator_token. repeat (case_match; [by intros [= <- <- <-]|]). done. Qed.

Lemma operator_length c n t v k : operator_token c n = Some (t, v, k) → ∃ j, k = S j.
Proof. unfold operator_token. repeat (case_match; [intros [= _ _ <-]; eauto|]). done. Qed.

Lemma word_type_size buf : buffer_size (word_type buf) = 256%nat.
Proof. unfold word_type. by repeat (destruct (_ =? _)%string; [done|]). Qed.

(** One lemma per rule. *)
Ltac layout H := destruct H as (H1 & H2 & H3 & H4); unfold scan_step; rewrite H1, H2, H3, H4.

Lemma step_directive v s line lx :
  str_forall directive_char v = true → stops directive_char s = true →
  scan_step "@" (v +:+ s) line lx = store (token TOKEN_DIRECTIVE v line) (s, line) lx.
Proof.
  intros Hv Hs. unfold scan_step, copy_run. cbn -[span directive_char add_token]. rewrite span_app by done.
  unfold store, token_fits. cbn [tok_type tok_value tok_line buffer_size]. by destruct (guard_ub _).
Qed.

Lemma step_string v s r line lx :
  str_forall string_char v = true → s = (v +:+ r)%string → stops string_char r = true →
  scan_step QUOTE s line lx = store (token TOKEN_STRING v line) (str_drop 1 r, line) lx.
Proof.
  intros Hv -> Hr. unfold scan_step, copy_run. cbn -[span string_char add_token str_drop]. rewrite span_app by done.
  unfold store, token_fits. cbn [tok_type tok_value tok_line buffer_size]. by destruct (guard_ub _).
Qed.

Lemma step_state n s t v line lx :
  state_token n = Some (t, v) →
  scan_step "|" (String n s) line lx = store (token t v line) (str_drop 1 s, line) lx.
Proof.
  intros Hn. unfold scan_step. cbn -[state_token add_token]. rewrite Hn. unfold store.
  by rewrite (state_token_fits _ _ _ _ Hn).
Qed.

Lemma step_operator c s t v n line lx :
  operator_token c (head_char s) = Some (t, v, n) →
  scan_step c s line lx = store (token t v line) (str_drop n (String c s), line) lx.
Proof.
  intros Hop. destruct (operator_tests _ _ _ Hop) as [Hl H5]. layout Hl. rewrite H5, Hop. unfold store.
  by rewrite (operator_token_fits _ _ _ _ _ _ Hop).
Qed.

Lemma step_number c v s line lx :
  isdigit c = true → str_forall isdigit v = true → stops isdigit s = true →
  scan_step c (v +:+ s) line lx = store (token TOKEN_NUMBER (String c v) line) (s, line) lx.
Proof.
  intros Hc Hv Hs. destruct (digit_tests c (head_char (v +:+ s)) Hc) as (Hl & H5 & H6). layout Hl.
  rewrite H5, H6, Hc. unfold copy_run. change (String c (v +:+ s)) with (String c v +:+ s)%string.
  rewrite span_app; [|simpl; by rewrite Hc|done]. unfold store, token_fits. cbn [tok_type tok_value tok_line buffer_size].
  by destruct (guard_ub _).
Qed.

Lemma step_word c v s line lx :
  word_start c = true → str_forall word_char v = true → stops word_char s = true →
  scan_step c (v +:+ s) line lx = store (token (word_type (String c v)) (String c v) line) (s, line) lx.
Proof.
  intros Hc Hv Hs. destruct (word_tests c (head_char (v +:+ s)) Hc) as (Hl & H5 & H6 & H7). layout Hl.
  rewrite H5, H6, H7, Hc. unfold copy_run. change (String c (v +:+ s)) with (String c v +:+ s)%string.
  rewrite span_app; [|simpl|done].
  - unfold store, token_fits. cbn [tok_type tok_value tok_line]. rewrite word_type_size. by destruct (guard_ub _).
  - rewrite Hv, andb_true_r. clear -Hc. each_char c.
Qed.

Lemma step_ignored c s line lx :
  ignored c (head_char s) = true → scan_step c s line lx = Done (s, line, lx).
Proof.
  intros Hc. apply ignored_tests in Hc as (Hl & H5 & H6 & H7 & H8). layout Hl. by rewrite H5, H6, H7, H8.
Qed.

Lemma lex_scan line s ts e :
  lex line s ts e → ∀ fuel lx, (String.length s <= fuel)%nat →
  scan fuel s line lx = lx' ← put ts lx; Done (e, lx').
Proof.
  induction 1 as [line|line s ts e _ IH|line c s ts e Hc Hn _ IH|line c s ts e Hc _ IH|line v s ts e Hv Hs _ IH
    |line v s ts e Hv _ IH|line v Hv|line n s t v ts e Hn _ IH|line c s t v n ts e Hop _ IH
    |line v s ts e Hne Hv Hs _ IH|line c v s ts e Hc Hv Hs _ IH]; intros fuel lx Hf; try by destruct fuel.
  all: simpl in Hf; try (destruct fuel as [|fuel]; [lia|]).
  - apply IH. lia.
  - cbn [scan]. unfold scan_step. rewrite Hc. destruct (Ascii.eqb_spec c NEWLINE); [done|]. apply IH. lia.
  - cbn [scan]. rewrite step_ignored by done. apply IH. lia.
  - eapply scan_stored; [by apply step_directive|]. intros lx'. apply IH. rewrite length_append in Hf. lia.
  - eapply scan_stored; [by eapply (step_string v)|]. intros lx'. apply IH. rewrite length_append in Hf. simpl in *. lia.
  - eapply (scan_stored _ _ _ _ _ _ EmptyString);
      [apply (step_string v _ EmptyString); [done|by rewrite append_nil_r|done]|by destruct fuel].
  - eapply scan_stored; [by apply step_state|]. intros lx'. apply IH. pose proof (length_str_drop 1 s). lia.
  - eapply scan_stored; [by apply step_operator|]. intros lx'. apply IH.
    destruct (operator_length _ _ _ _ _ Hop) as [k ->].
    simpl. pose proof (length_str_drop k s). lia.
  - destruct v as [|c v]; [done|]. simpl in Hv. apply andb_true_iff in Hv as [Hc Hv].
    simpl in Hf. destruct fuel as [|fuel]; [lia|].
    eapply scan_stored; [by apply step_number|]. intros lx'. apply IH. rewrite length_append in Hf. simpl in *. lia.
  - eapply scan_stored; [by apply step_word|]. intros lx'. apply IH. rewrite length_append in Hf. lia.
Qed.

(** Every text has tokens. *)
Lemma lex_total s line : ∃ ts e, lex line s ts e.
Proof.
  remember (String.length s) as k eqn:Hk. revert s Hk line.
  induction (Nat.lt_wf_0 k) as [k _ IH]; intros s -> line.
  assert (Hrec : ∀ s' line', (String.length s' < String.length s)%nat → ∃ ts e, lex line' s' ts e)
    by (intros; by eapply IH). clear IH.
  destruct s as [|c s]; [by do 2 eexists; constructor|]. simpl in Hrec.
  pose proof (Hrec s) as Hnext.
  destruct (Ascii.eqb_spec c NEWLINE) as [->|Hn].
  { destruct (Hnext (line + 1) ltac:(lia)) as (ts & e & Ht). exists ts, e. by constructor. }
  destruct (isspace c) eqn:Hsp.
  { destruct (Hnext line ltac:(lia)) as (ts & e & Ht). exists ts, e. by apply lex_space. }
  destruct (Ascii.eqb_spec c "@") as [->|Hat].
  { destruct (span_spec directive_char s) as (v & r & _ & -> & Hv & Hr). rewrite length_append in Hrec.
    destruct (Hrec r line ltac:(lia)) as (ts & e & Ht). do 2 eexists. by apply lex_directive. }
  destruct (Ascii.eqb_spec c QUOTE) as [->|Hq].
  { destruct (span_spec string_char s) as (v & r & _ & -> & Hv & Hr). rewrite length_append in Hrec.
    destruct r as [|q r]; [rewrite append_nil_r; do 2 eexists; by apply lex_open_string|].
    assert (q = QUOTE) as -> by (simpl in Hr; unfold string_char in Hr; by destruct (Ascii.eqb_spec q QUOTE)).
    simpl in Hrec. destruct (Hrec r line ltac:(lia)) as (ts & e & Ht). do 2 eexists. by apply lex_string. }
  destruct (if (c =? "|")%char then state_token (head_char s) else None) as [[t v]|] eqn:Hst.
  { destruct (Ascii.eqb_spec c "|") as [->|]; [|done]. destruct s as [|n s]; [done|]. cbn [head_char] in Hst.
    destruct (Hrec (str_drop 1 s) line) as (ts & e & Ht); [pose proof (length_str_drop 1 s); cbn [String.length]; lia|].
    do 2 eexists. by apply lex_state. }
  destruct (operator_token c (head_char s)) as [[[t v] n]|] eqn:Hop.
  { destruct (operator_length _ _ _ _ _ Hop) as [k ->].
    destruct (Hrec (str_drop k s) line) as (ts & e & Ht); [pose proof (length_str_drop k s); lia|].
    do 2 eexists. by eapply lex_operator. }
  destruct (isdigit c) eqn:Hd.
  { destruct (span_spec isdigit s) as (v & r & _ & -> & Hv & Hr). rewrite length_append in Hrec.
    destruct (Hrec r line ltac:(lia)) as (ts & e & Ht). do 2 eexists.
    apply (lex_number line (String c v)); [done|simpl; by rewrite Hd|done|done]. }
  destruct (word_start c) eqn:Hw.
  { destruct (span_spec word_char s) as (v & r & _ & -> & Hv & Hr). rewrite length_append in Hrec.
    destruct (Hrec r line ltac:(lia)) as (ts & e & Ht). do 2 eexists. by apply (lex_word line c v). }
  destruct (Hnext line ltac:(lia)) as (ts & e & Ht). exists ts, e. apply lex_ignored; [|done].
  unfold ignored. rewrite Hsp, Hd, Hw, Hop. destruct (Ascii.eqb_spec c "@"); [done|].
  destruct (Ascii.eqb_spec c QUOTE); [done|]. destruct (c =? "|")%char; [rewrite Hst|]; done.
Qed.

(** The array after a run: the tokens, the end-of-file token, and what was
    there before. *)
Definition tokenized (ts : list Token) (e : Z) (lx : lexer) : lexer :=
  stored (ts ++ [token TOKEN_EOF "EOF" e]) {| tokens := tokens lx; tok_count := 0 |}.

Lemma tokenized_tokens ts e lx :
  tokens (tokenized ts e lx) = ts ++ token TOKEN_EOF "EOF" e :: drop (S (length ts)) (tokens lx).
Proof.
  unfold tokenized, stored. cbn [tokens tok_count]. rewrite take_0, length_app, <-app_assoc. simpl.
  by rewrite Nat.add_1_r.
Qed.

Lemma tokenized_count ts e lx : tok_count (tokenized ts e lx) = S (length ts).
Proof. unfold tokenized, stored. cbn [tok_count]. rewrite length_app. simpl. lia. Qed.

Lemma put_app ts us lx : put (ts ++ us) lx = put ts lx ≫= put us.
Proof.
  revert lx. induction ts as [|t ts IH]; intros lx; [done|]. cbn [put app]. destruct (guard_ub _); [|done|done].
  cbn [mbind outcome_bind]. destruct (add_token _ _ _ _); [apply IH|done|done].
Qed.

Lemma tokenize_lex src ts e lx :
  Z.of_nat (String.length src) < 2 ^ 31 - 1 → length (tokens lx) = MAX_TOKENS → lex 1 src ts e →
  tokenize src lx =
    if forallb token_fits ts && (length ts <? MAX_TOKENS)%nat then Done (tokenized ts e lx) else Undef.
Proof.
  intros Hlen Hl Hlex. unfold tokenize, guard_ub. destruct (Z.ltb_spec (Z.of_nat (String.length src)) (2 ^ 31 - 1)); [|lia].
  cbn [mbind outcome_bind]. rewrite (lex_scan _ _ _ _ Hlex) by done.
  transitivity (put (ts ++ [token TOKEN_EOF "EOF" e]) {| tokens := tokens lx; tok_count := 0 |}).
  - rewrite put_app. destruct (put ts _); [|done|done]. cbn [mbind outcome_bind put].
    by destruct (add_token _ _ _ _).
  - rewrite put_stored by (simpl; lia || done). rewrite forallb_app, length_app. simpl. rewrite andb_true_r.
    by replace (length ts + 1 <=? MAX_TOKENS)%nat with (length ts <? MAX_TOKENS)%nat by lia.
Qed.

(** C26 (lexer correctness): every source has tokens by the lexical rules, each
    lexeme being the longest run of its class; whatever tokens the rules give,
    [tokenize] stores exactly those, with their lines and the end-of-file token
    last, when each fits its buffer and there are fewer than 1024, and is
    undefined otherwise. It always terminates. *)
Theorem tokenize_correct (src : string) (lx : lexer) :
  Z.of_nat (String.length src) < 2 ^ 31 - 1 → length (tokens lx) = MAX_TOKENS →
  (∃ ts e, lex 1 src ts e) ∧
  ∀ ts e, lex 1 src ts e →
    tokenize src lx =
      if forallb token_fits ts && (length ts <? MAX_TOKENS)%nat then Done (tokenized ts e lx) else Undef.
Proof. intros Hlen Hl. split; [apply lex_total|]. intros ts e. by apply tokenize_lex. Qed.

Lemma tokenize_correct_witness :
  (∃ ts e, lex 1 "let x = 3" ts e) ∧
  ∀ ts e, lex 1 "let x = 3" ts e →
    tokenize "let x = 3" initial_lexer =
      if forallb token_fits ts && (length ts <? MAX_TOKENS)%nat then Done (tokenized ts e initial_lexer) else Undef.
Proof. apply (tokenize_correct "let x = 3" initial_lexer); [reflexivity|reflexivity]. Defined.

(** ** Writing tokens as a text *)

(** A lexeme with the layout that follows it. *)
Record lexeme := { lx_type : TokenType; lx_value : string; lx_after : string }.

Definition lexeme_text (l : lexeme) : string :=
  match lx_type l with
  | TOKEN_STRING => String QUOTE (lx_value l +:+ String QUOTE EmptyString)
  | TOKEN_DIRECTIVE => String "@" (lx_value l)
  | _ => lx_value l
  end.

Fixpoint render (ls : list lexeme) : string :=
  match ls with
  | [] => EmptyString
  | l :: ls => (lexeme_text l +:+ (lx_after l +:+ render ls))%string
  end.

Fixpoint newlines (w : string) : Z :=
  match w with
  | String c w => (if (c =? NEWLINE)%char then 1 else 0) + newlines w
  | EmptyString => 0
  end.

Fixpoint place (line : Z) (ls : list lexeme) : list Token :=
  match ls with
  | [] => []
  | l :: ls => token (lx_type l) (lx_value l) line :: place (line + newlines (lx_after l)) ls
  end.

Fixpoint last_line (line : Z) (ls : list lexeme) : Z :=
  match ls with [] => line | l :: ls => last_line (line + newlines (lx_after l)) ls end.

Definition layout_ok (w : string) : bool :=
  match w with EmptyString => false | String _ _ => str_forall isspace w end.

Definition word_ok (t : TokenType) (v : string) : bool :=
  match v with
  | String c v' => word_start c && str_forall word_char v' && bool_decide (word_type v = t)
  | EmptyString => false
  end.

(** A value that its type can have. *)
Definition value_ok (t : TokenType) (v : string) : bool :=
  match t with
  | TOKEN_STRING => str_forall string_char v
  | TOKEN_DIRECTIVE => str_forall directive_char v
  | TOKEN_NUMBER => negb (v =? EmptyString)%string && str_forall isdigit v
  | TOKEN_STATE_0 => (v =? "|0>")%string
  | TOKEN_STATE_1 => (v =? "|1>")%string
  | TOKEN_STATE_PLUS => (v =? "|+>")%string
  | TOKEN_STATE_MINUS => (v =? "|->")%string
  | TOKEN_EQ => (v =? "=")%string
  | TOKEN_EQEQ => (v =? "==")%string
  | TOKEN_GT => (v =? ">")%string
  | TOKEN_LT => (v =? "<")%string
  | TOKEN_GTE => (v =? ">=")%string
  | TOKEN_LTE => (v =? "<=")%string
  | TOKEN_LBRACE => (v =? "{")%string
  | TOKEN_RBRACE => (v =? "}")%string
  | TOKEN_EOF | TOKEN_UNKNOWN => false
  | _ => word_ok t v
  end.

Definition lexeme_ok (l : lexeme) : bool :=
  value_ok (lx_type l) (lx_value l) && layout_ok (lx_after l) &&
  (String.length (lx_value l) <? buffer_size (lx_type l))%nat.

Lemma lex_layout w line s ts e :
  str_forall isspace w = true → lex (line + newlines w) s ts e → lex line (w +:+ s) ts e.
Proof.
  revert line. induction w as [|c w IH]; intros line Hw Hs; simpl in *; [by rewrite Z.add_0_r in Hs|].
  apply andb_true_iff in Hw as [Hc Hw]. destruct (Ascii.eqb_spec c NEWLINE) as [->|Hn].
  - apply lex_newline, IH; [done|]. by rewrite <-Z.add_assoc.
  - apply lex_space; [done|done|]. by apply IH.
Qed.

Lemma layout_stops (p : ascii → bool) w s :
  layout_ok w = true → (∀ c, isspace c = true → p c = false) → stops p (w +:+ s) = true.
Proof.
  intros Hw Hp. destruct w as [|c w]; [done|]. simpl in *. apply andb_true_iff in Hw as [Hc _]. by rewrite Hp.
Qed.

Lemma space_directive c : isspace c = true → directive_char c = false.
Proof. intros Hc. unfold directive_char. by rewrite Hc. Qed.

Lemma space_digit c : isspace c = true → isdigit c = false.
Proof. each_char c. Qed.

Lemma space_word c : isspace c = true → word_char c = false.
Proof. each_char c. Qed.

Lemma lex_word_ok t v w line s ts e :
  word_ok t v = true → layout_ok w = true → lex line (w +:+ s) ts e →
  lex line (v +:+ (w +:+ s)) (token t v line :: ts) e.
Proof.
  intros Hv Hw Hs. destruct v as [|c v]; [done|]. simpl in Hv. rewrite !andb_true_iff, bool_decide_eq_true in Hv.
  destruct Hv as [[Hc Hv] <-]. apply lex_word; [done|done| |done]. by apply layout_stops, space_word.
Qed.

(** An operator in front of layout. *)
Lemma lex_operator_ok c t v w line s ts e :
  (∀ n, isspace n = true → operator_token c n = Some (t, v, 1%nat)) → layout_ok w = true →
  lex line (w +:+ s) ts e → lex line (String c (w +:+ s)) (token t v line :: ts) e.
Proof.
  intros Hop Hw Hs. destruct w as [|n w]; [done|]. simpl in Hw. apply andb_true_iff in Hw as [Hn _].
  eapply lex_operator; [by apply Hop|done].
Qed.

Lemma lex_lexeme l line s ts e :
  lexeme_ok l = true → lex line (lx_after l +:+ s) ts e →
  lex line (lexeme_text l +:+ (lx_after l +:+ s)) (token (lx_type l) (lx_value l) line :: ts) e.
Proof.
  destruct l as [t v w]. unfold lexeme_ok, lexeme_text. cbn [lx_type lx_value lx_after].
  rewrite !andb_true_iff. intros [[Hv Hw] _] Hs.
  destruct t; cbn [value_ok] in Hv; try discriminate; try (by apply lex_word_ok);
    try (apply String.eqb_eq in Hv as ->).
  all: try (by (apply lex_state; [reflexivity|exact Hs])).
  all: try (by (eapply lex_operator; [reflexivity|exact Hs])).
  all: try match goal with |- lex _ (String ?c EmptyString +:+ _) _ _ =>
    apply (lex_operator_ok c _ _ w); [intros n Hn; clear -Hn; each_char n|done|exact Hs] end.
  - rewrite andb_true_iff, negb_true_iff in Hv. destruct Hv as [Hne Hd].
    apply lex_number; [by apply String.eqb_neq|done| |done]. by apply layout_stops, space_digit.
  - cbn [String.append]. change (lex line (String QUOTE ((v +:+ String QUOTE EmptyString) +:+ (w +:+ s)))
      (token TOKEN_STRING v line :: ts) e). rewrite append_assoc. by apply lex_string.
  - apply lex_directive; [done| |done]. by apply layout_stops, space_directive.
Qed.

Lemma lex_render ls line :
  forallb lexeme_ok ls = true → lex line (render ls) (place line ls) (last_line line ls).
Proof.
  revert line. induction ls as [|l ls IH]; intros line; cbn [forallb render place last_line]; [constructor|].
  intros Hall. apply andb_true_iff in Hall as [Hl Hls]. apply lex_lexeme; [done|]. apply lex_layout; [|by apply IH].
  unfold lexeme_ok in Hl. rewrite !andb_true_iff in Hl. destruct Hl as [[_ Hw] _]. unfold layout_ok in Hw.
  by destruct (lx_after l).
Qed.

Lemma place_fits ls line : forallb lexeme_ok ls = true → forallb token_fits (place line ls) = true.
Proof.
  revert line. induction ls as [|l ls IH]; intros line; [done|]. cbn [forallb place]. intros Hall.
  apply andb_true_iff in Hall as [Hl Hls]. rewrite IH, andb_true_r by done. unfold lexeme_ok in Hl.
  by apply andb_true_iff in Hl as [_ Hl].
Qed.

Lemma length_place ls line : length (place line ls) = length ls.
Proof. revert line. induction ls as [|l ls IH]; intros line; [done|]. simpl. by rewrite IH. Qed.

(** What [tokenize] makes of tokens written as a text. *)
Lemma tokenize_rendered lead ls lx :
  str_forall isspace lead = true → forallb lexeme_ok ls = true → (length ls < MAX_TOKENS)%nat →
  Z.of_nat (String.length (lead +:+ render ls)) < 2 ^ 31 - 1 → length (tokens lx) = MAX_TOKENS →
  tokenize (lead +:+ render ls) lx =
    Done (tokenized (place (1 + newlines lead) ls) (last_line (1 + newlines lead) ls) lx).
Proof.
  intros Hlead Hls Hcount Hlen Hlx.
  rewrite (tokenize_lex _ (place (1 + newlines lead) ls) (last_line (1 + newlines lead) ls)); [|done|done|].
  - rewrite place_fits, length_place by done. by destruct (Nat.ltb_spec (length ls) MAX_TOKENS); [|lia].
  - apply lex_layout; [done|]. by apply lex_render.
Qed.

(** Printing and scanning: tokens whose values belong to their types,
    written one after the other with any layout between them, are read back as
    exactly those tokens, each with its type, its value and the line its lexeme
    is on, followed by the end-of-file token. *)
Theorem tokenize_render (lead : string) (ls : list lexeme) (lx : lexer) :
  str_forall isspace lead = true → forallb lexeme_ok ls = true → (length ls < MAX_TOKENS)%nat →
  Z.of_nat (String.length (lead +:+ render ls)) < 2 ^ 31 - 1 → length (tokens lx) = MAX_TOKENS →
  ∃ lx', tokenize (lead +:+ render ls) lx = Done lx' ∧ tok_count lx' = S (length ls) ∧
    (∀ i l, ls !! i = Some l →
       ∃ t, tokens lx' !! i = Some t ∧ tok_type t = lx_type l ∧ tok_value t = lx_value l ∧
         tok_line t = 1 + newlines lead + foldr (λ l n, newlines (lx_after l) + n) 0 (take i ls)) ∧
    ∃ t, tokens lx' !! length ls = Some t ∧ tok_type t = TOKEN_EOF.
Proof.
  intros Hlead Hls Hcount Hlen Hlx. eexists. split; [by apply tokenize_rendered|].
  rewrite tokenized_tokens, tokenized_count, length_place. split; [done|]. split.
  - intros i l Hi. assert (∀ line, place line ls !! i =
      Some (token (lx_type l) (lx_value l) (line + foldr (λ l n, newlines (lx_after l) + n) 0 (take i ls)))) as Hp.
    { clear -Hi. revert i Hi. induction ls as [|l0 ls IH]; intros i Hi line; [done|]. destruct i as [|i].
      - injection Hi as ->. simpl. by rewrite Z.add_0_r.
      - simpl in *. rewrite (IH _ Hi). by rewrite Z.add_assoc. }
    exists (token (lx_type l) (lx_value l)
      (1 + newlines lead + foldr (λ l n, newlines (lx_after l) + n) 0 (take i ls))).
    split; [|done]. rewrite lookup_app_l; [apply Hp|]. rewrite length_place. by eapply lookup_lt_Some.
  - eexists. split; [|shelve]. rewrite lookup_app_r; rewrite length_place; [|lia]. rewrite Nat.sub_diag. reflexivity.
    Unshelve. done.
Qed.

(** [@quantum.state2], then [say "a b"] on the next line. *)
Definition demo_lexemes : list lexeme := [
  {| lx_type := TOKEN_DIRECTIVE; lx_value := "quantum.state2"; lx_after := String NEWLINE EmptyString |};
  {| lx_type := TOKEN_SAY; lx_value := "say"; lx_after := " " |};
  {| lx_type := TOKEN_STRING; lx_value := "a b"; lx_after := String NEWLINE EmptyString |};
  {| lx_type := TOKEN_GTE; lx_value := ">="; lx_after := " " |};
  {| lx_type := TOKEN_NUMBER; lx_value := "42"; lx_after := " " |};
  {| lx_type := TOKEN_STATE_PLUS; lx_value := "|+>"; lx_after := " " |}
]%string.

Lemma tokenize_render_witness :
  ∃ lx', tokenize (EmptyString +:+ render demo_lexemes) initial_lexer = Done lx' ∧ tok_count lx' = 7%nat ∧
    ∃ t, tokens lx' !! 2%nat = Some t ∧ tok_type t = TOKEN_STRING ∧ tok_value t = "a b"%string ∧ tok_line t = 2.
Proof.
  destruct (tokenize_render EmptyString demo_lexemes initial_lexer) as (lx' & Hrun & Hcount & Htok & _);
    [reflexivity|vm_compute; reflexivity|unfold MAX_TOKENS; simpl; lia|vm_compute; reflexivity|reflexivity|].
  exists lx'. split; [exact Hrun|]. split; [exact Hcount|].
  destruct (Htok 2%nat _ eq_refl) as (t & H1 & H2 & H3 & H4). exists t. auto.
Defined.
