(* ===== verification/Syntax.v ===== *)
(** * Programs: syntax trees and bytecode

    The tree of [src/parser/parser.h] and the instructions of
    [src/vm/bytecode.h]. A tree pointer is an option. *)

From Stdlib Require Import ZArith Lia ZifyBool Ascii String.
From stdpp Require Import base list numbers strings.
From S2P Require Import Prelude.
Open Scope Z_scope.

(** ** Syntax trees *)

Inductive NodeType :=
| NODE_PROGRAM | NODE_SAY | NODE_LET | NODE_CHECK | NODE_BLOCK | NODE_QBIT | NODE_HADAMARD | NODE_MEASURE
| NODE_ENTANGLE | NODE_CNOT | NODE_QMSG | NODE_ENCODE_QMSG | NODE_DECODE_QMSG | NODE_REPEAT | NODE_ACTION
| NODE_BINOP | NODE_STRING | NODE_NUMBER | NODE_IDENT | NODE_STATE.

Inductive ASTNode :=
| Node (type : NodeType) (value : string) (left right body next : option ASTNode).

Definition node_type (n : ASTNode) : NodeType := let 'Node t _ _ _ _ _ := n in t.
Definition node_value (n : ASTNode) : string := let 'Node _ v _ _ _ _ := n in v.
Definition node_left (n : ASTNode) : option ASTNode := let 'Node _ _ l _ _ _ := n in l.
Definition node_body (n : ASTNode) : option ASTNode := let 'Node _ _ _ _ b _ := n in b.
Definition node_next (n : ASTNode) : option ASTNode := let 'Node _ _ _ _ _ x := n in x.
Definition node_right (n : ASTNode) : option ASTNode := let 'Node _ _ _ r _ _ := n in r.

(** Induction on the tree through its [body] and [next] pointers. *)
Definition on_ptr (P : ASTNode → Prop) (p : option ASTNode) : Prop :=
  match p with Some n => P n | None => True end.

Fixpoint ASTNode_chain_ind (P : ASTNode → Prop)
    (step : ∀ t v l r b n, on_ptr P b → on_ptr P n → P (Node t v l r b n)) (node : ASTNode) : P node :=
  match node with
  | Node t v l r b n =>
      step t v l r b n
        (match b as p return on_ptr P p with Some m => ASTNode_chain_ind P step m | None => I end)
        (match n as p return on_ptr P p with Some m => ASTNode_chain_ind P step m | None => I end)
  end.

(** ** Bytecode *)

Definition MAX_INSTR : nat := 1024.
(** The size of an operand. *)
Definition ARG_BYTES : nat := 64.

(** [OP_UNKNOWN] is a value outside the enumeration, which the object of a
    bytecode file can hold. *)
Inductive OpCode :=
| OP_SAY | OP_LET | OP_QBIT | OP_HADAMARD | OP_MEASURE | OP_ENTANGLE | OP_CNOT | OP_CHECK | OP_REPEAT | OP_BLOCK
| OP_END | OP_SAFE_ACTION | OP_QMSG | OP_ENCODE_QMSG | OP_DECODE_QMSG
| OP_UNKNOWN (code : Z).

Record Instruction := {
  op : OpCode;
  arg1 : string;
  arg2 : string;
  ivalue : Z
}.

(** Whether an instruction opens a block. *)
Definition opens (o : OpCode) : bool :=
  match o with OP_CHECK | OP_REPEAT => true | _ => false end.
Definition ends (o : OpCode) : bool :=
  match o with OP_END => true | _ => false end.
