(* ===== verification/Parser.v ===== *)
(** * The parser

    [src/parser/parser.c]: recursive descent over the array of tokens with the
    index [pos]. The array is the whole static array of the lexer, so reading
    past the end-of-file token is reading what an earlier run left there, and
    only reading past the array is undefined. Calls of [parse_stmt] and rounds
    of its loops take fuel; [parse] has enough for any array. A node is a
    tree; [last->next = s] links the statements of a list in order. [calloc] is
    taken to succeed. *)

From Stdlib Require Import ZArith Lia ZifyBool Ascii String.
From stdpp Require Import base list numbers strings.
From S2P Require Import Prelude.
From S2P Require Import Outcome.
From S2P Require Import CString.
From S2P Require Import Lexer.
From S2P Require Import Syntax.
Open Scope Z_scope.

Section Parser.
Context (toks : list Token).

(** [toks[pos]]. *)
Definition peek (pos : nat) : outcome Token := defined (toks !! pos).

(** [&toks[pos++]], a pointer into the array or just past it. *)
Definition advance (pos : nat) : outcome nat :=
  _ ← guard_ub (pos <=? length toks)%nat;
  Done (S pos).

Definition check_type (t : TokenType) (pos : nat) : outcome bool :=
  tok ← peek pos;
  Done (bool_decide (tok_type tok = t)).

Definition new_node (type : NodeType) (val : string) : ASTNode :=
  Node type (str_take 255 val) None None None None.

Definition set_left (l : ASTNode) (n : ASTNode) : ASTNode :=
  let 'Node t v _ r b nx := n in Node t v (Some l) r b nx.
Definition set_right (r : ASTNode) (n : ASTNode) : ASTNode :=
  let 'Node t v l _ b nx := n in Node t v l (Some r) b nx.
Definition set_body (b : option ASTNode) (n : ASTNode) : ASTNode :=
  let 'Node t v l r _ nx := n in Node t v l r b nx.
Definition set_next (nx : option ASTNode) (n : ASTNode) : ASTNode :=
  let 'Node t v l r b _ := n in Node t v l r b nx.

(** [new_node(type, peek()->value); advance()] *)
Definition take_node (type : NodeType) (pos : nat) : outcome (ASTNode * nat) :=
  tok ← peek pos;
  pos ← advance pos;
  Done (new_node type (tok_value tok), pos).

Definition parse_expr (pos : nat) : outcome (ASTNode * nat) :=
  '(lhs, pos) ← take_node NODE_IDENT pos;
  '(op, pos) ← take_node NODE_BINOP pos;
  '(rhs, pos) ← take_node NODE_NUMBER pos;
  Done (set_right rhs (set_left lhs op), pos).

(** The operand of [say] and [qmsg]: a string or a name. *)
Definition take_value (pos : nat) : outcome (ASTNode * nat) :=
  val ← peek pos;
  pos ← advance pos;
  Done (new_node (if decide (tok_type val = TOKEN_STRING) then NODE_STRING else NODE_IDENT) (tok_value val), pos).

(** The statements that contain no block. [t] is the current token, which has
    been read. *)
Definition parse_simple (t : Token) (pos : nat) : outcome (ASTNode * nat) :=
  pos ← advance pos;
  match tok_type t with
  | TOKEN_SAY => '(val, pos) ← take_value pos; Done (set_left val (new_node NODE_SAY "say"), pos)
  | TOKEN_LET =>
      '(n, pos) ← take_node NODE_LET pos;
      pos ← advance pos;
      '(val, pos) ← take_node NODE_NUMBER pos;
      Done (set_left val n, pos)
  | TOKEN_QMSG => '(val, pos) ← take_value pos; Done (set_left val (new_node NODE_QMSG "qmsg"), pos)
  | TOKEN_ENCODE => take_node NODE_ENCODE_QMSG pos
  | TOKEN_DECODE => take_node NODE_DECODE_QMSG pos
  | TOKEN_QBIT =>
      '(n, pos) ← take_node NODE_QBIT pos;
      pos ← advance pos;
      '(state, pos) ← take_node NODE_STATE pos;
      Done (set_left state n, pos)
  | TOKEN_HADAMARD => take_node NODE_HADAMARD pos
  | TOKEN_MEASURE => take_node NODE_MEASURE pos
  | TOKEN_ENTANGLE =>
      '(n, pos) ← take_node NODE_ENTANGLE pos;
      '(other, pos) ← take_node NODE_IDENT pos;
      Done (set_left other n, pos)
  | TOKEN_CNOT =>
      '(n, pos) ← take_node NODE_CNOT pos;
      '(other, pos) ← take_node NODE_IDENT pos;
      Done (set_left other n, pos)
  | TOKEN_ACTION => take_node NODE_ACTION pos
  | _ => Done (new_node NODE_IDENT (tok_value t), pos)
  end.

Fixpoint parse_stmt (fuel : nat) (pos : nat) : outcome (ASTNode * nat) :=
  match fuel with
  | O => NoFuel
  | S fuel =>
      t ← peek pos;
      match tok_type t with
      | TOKEN_CHECK =>
          pos ← advance pos;
          '(cond, pos) ← parse_expr pos;
          '(block, pos) ← parse_block fuel pos;
          Done (set_body (Some block) (set_left cond (new_node NODE_CHECK "check")), pos)
      | TOKEN_REPEAT =>
          pos ← advance pos;
          '(n, pos) ← take_node NODE_REPEAT pos;
          '(block, pos) ← parse_block fuel pos;
          Done (set_body (Some block) n, pos)
      | _ => parse_simple t pos
      end
  end
with parse_block (fuel : nat) (pos : nat) : outcome (ASTNode * nat) :=
  match fuel with
  | O => NoFuel
  | S fuel =>
      pos ← advance pos;
      '(body, pos) ← block_loop fuel pos;
      pos ← advance pos;
      Done (set_body body (new_node NODE_BLOCK "block"), pos)
  end
with block_loop (fuel : nat) (pos : nat) : outcome (option ASTNode * nat) :=
  match fuel with
  | O => NoFuel
  | S fuel =>
      rbrace ← check_type TOKEN_RBRACE pos;
      eof ← check_type TOKEN_EOF pos;
      if rbrace || eof then Done (None, pos)
      else
        '(s, pos) ← parse_stmt fuel pos;
        '(rest, pos) ← block_loop fuel pos;
        Done (Some (set_next rest s), pos)
  end.

Fixpoint parse_loop (fuel : nat) (pos : nat) : outcome (option ASTNode) :=
  match fuel with
  | O => NoFuel
  | S fuel =>
      eof ← check_type TOKEN_EOF pos;
      if eof : bool then Done None
      else
        directive ← check_type TOKEN_DIRECTIVE pos;
        if directive : bool then pos ← advance pos; parse_loop fuel pos
        else
          '(s, pos) ← parse_stmt fuel pos;
          rest ← parse_loop fuel pos;
          Done (Some (set_next rest s))
  end.

(** Fuel for any array of this length. *)
Definition parse_fuel : nat := 3 * (length toks + 2) + 1.

Definition parse : outcome ASTNode :=
  body ← parse_loop parse_fuel 0;
  Done (set_body body (new_node NODE_PROGRAM "program")).
End Parser.

(** ** Printing a tree *)

Definition node_number (t : NodeType) : Z :=
  match t with
  | NODE_PROGRAM => 0
  | NODE_SAY => 1
  | NODE_LET => 2
  | NODE_CHECK => 3
  | NODE_BLOCK => 4
  | NODE_QBIT => 5
  | NODE_HADAMARD => 6
  | NODE_MEASURE => 7
  | NODE_ENTANGLE => 8
  | NODE_CNOT => 9
  | NODE_QMSG => 10
  | NODE_ENCODE_QMSG => 11
  | NODE_DECODE_QMSG => 12
  | NODE_REPEAT => 13
  | NODE_ACTION => 14
  | NODE_BINOP => 15
  | NODE_STRING => 16
  | NODE_NUMBER => 17
  | NODE_IDENT => 18
  | NODE_STATE => 19
  end.

Fixpoint print_ast {F} (node : ASTNode) (depth : nat) : list (output F) :=
  let '(Node t v l r b n) := node in
  let sub p depth := match p with Some m => print_ast m depth | None => [] end in
  replicate depth (Print "  " []) ++ [Print "[%d] '%s'\n" [AInt (node_number t); AStr v]] ++
  sub l (S depth) ++ sub r (S depth) ++ sub b (S depth) ++ sub n depth.
