(* ===== verification/ParserProps.v ===== *)
(** * Properties of the parser

    It terminates on any array of tokens, every tree it returns has the shape
    its users rely on, it reads back the tokens of a program, and an incomplete
    statement at the end of a program runs it past its array. *)

From Stdlib Require Import ZArith Lia ZifyBool Ascii String.
From stdpp Require Import base list numbers strings.
From S2P Require Import Prelude.
From S2P Require Import Outcome.
From S2P Require Import CString.
From S2P Require Import Lexer.
From S2P Require Import LexerProps.
From S2P Require Import Syntax.
From S2P Require Import Parser.
Open Scope Z_scope.

(** ** The shape of a tree *)

Definition is_leaf (types : list NodeType) (p : option ASTNode) : bool :=
  match p with
  | Some (Node t v None None None None) =>
      existsb (λ t', node_number t =? node_number t') types && (String.length v <=? 255)%nat
  | _ => false
  end.
Definition no_node (p : option ASTNode) : bool := match p with None => true | Some _ => false end.
Definition is_block_node (p : option ASTNode) : bool :=
  match p with Some (Node NODE_BLOCK _ _ _ _ None) => true | _ => false end.
Definition is_condition (p : option ASTNode) : bool :=
  match p with
  | Some (Node NODE_BINOP v l r None None) =>
      (String.length v <=? 255)%nat && is_leaf [NODE_IDENT] l && is_leaf [NODE_NUMBER] r
  | _ => false
  end.

(** The children a node of a type has. *)
Definition shape (t : NodeType) (l r b : option ASTNode) : bool :=
  no_node r &&
  match t with
  | NODE_SAY | NODE_QMSG => is_leaf [NODE_STRING; NODE_IDENT] l && no_node b
  | NODE_LET => is_leaf [NODE_NUMBER] l && no_node b
  | NODE_QBIT => is_leaf [NODE_STATE] l && no_node b
  | NODE_ENTANGLE | NODE_CNOT => is_leaf [NODE_IDENT] l && no_node b
  | NODE_CHECK => is_condition l && is_block_node b
  | NODE_REPEAT => no_node l && is_block_node b
  | NODE_PROGRAM | NODE_BLOCK => no_node l
  | NODE_HADAMARD | NODE_MEASURE | NODE_ENCODE_QMSG | NODE_DECODE_QMSG | NODE_ACTION | NODE_IDENT =>
      no_node l && no_node b
  | _ => false
  end.

Fixpoint well_typed (node : ASTNode) : bool :=
  let '(Node t v l r b n) := node in
  let sub p := match p with Some m => well_typed m | None => true end in
  (String.length v <=? 255)%nat && shape t l r b && sub b && sub n.

Definition well_typed_ptr (p : option ASTNode) : bool := match p with Some m => well_typed m | None => true end.

(** ** Termination and shape *)

(** A run that ends, with a result in [Q] if it is defined. *)
Definition post {A} (m : outcome A) (Q : A → Prop) : Prop :=
  match m with Done a => Q a | Undef => True | NoFuel => False end.

Lemma post_bind {A B} (m : outcome A) (f : A → outcome B) (P : A → Prop) (Q : B → Prop) :
  post m P → (∀ a, P a → post (f a) Q) → post (m ≫= f) Q.
Proof. destruct m; simpl; auto. Qed.

Lemma post_mono {A} (m : outcome A) (P Q : A → Prop) : post m P → (∀ a, P a → Q a) → post m Q.
Proof. destruct m; simpl; auto. Qed.

Section Post.
Context (toks : list Token).
Abbreviation len := (length toks).

Lemma peek_post pos : post (peek toks pos) (λ _, (pos < len)%nat).
Proof. unfold peek. destruct (toks !! pos) eqn:Ht; [|done]. simpl. by eapply lookup_lt_Some. Qed.

Lemma advance_post pos : post (advance toks pos) (λ pos', pos' = S pos ∧ (pos' <= S len)%nat).
Proof. unfold advance, guard_ub. destruct (Nat.leb_spec pos len); [|done]. simpl. lia. Qed.

Lemma check_type_post t pos : post (check_type toks t pos) (λ _, (pos < len)%nat).
Proof. eapply post_bind; [apply peek_post|]. done. Qed.

(** A leaf and the position after it. *)
Definition took (types : list NodeType) (pos : nat) (x : ASTNode * nat) : Prop :=
  x.2 = S pos ∧ (x.2 <= len)%nat ∧ ∃ t v, x.1 = Node t v None None None None ∧ t ∈ types ∧ (String.length v <= 255)%nat.

Lemma take_node_post type pos : post (take_node toks type pos) (took [type] pos).
Proof.
  eapply post_bind; [apply peek_post|]. intros tok Hlt. eapply post_bind; [apply advance_post|]. intros p [-> _].
  split; [done|]. split; [simpl in *; lia|]. do 2 eexists. split; [reflexivity|]. split; [by constructor|apply length_str_take].
Qed.

Lemma take_value_post pos : post (take_value toks pos) (took [NODE_STRING; NODE_IDENT] pos).
Proof.
  eapply post_bind; [apply peek_post|]. intros tok Hlt. eapply post_bind; [apply advance_post|]. intros p [-> _].
  split; [done|]. split; [simpl in *; lia|]. do 2 eexists. split; [reflexivity|]. split; [|apply length_str_take].
  destruct (decide _); [by constructor|by do 2 constructor].
Qed.

Lemma took_leaf types pos n pos' : took types pos (n, pos') → is_leaf types (Some n) = true.
Proof.
  intros (_ & _ & t & v & Hn & Ht & Hv). simpl in Hn. subst n. simpl. rewrite andb_true_iff. split; [|lia].
  apply existsb_exists. exists t. split; [by apply list_elem_of_In|lia].
Qed.

(** A complete statement and a later position. *)
Definition stmt_done (pos : nat) (x : ASTNode * nat) : Prop :=
  (pos < x.2 <= S len)%nat ∧ well_typed x.1 = true ∧ node_next x.1 = None.

Lemma length_value v : (String.length (str_take 255 v) <=? 255)%nat = true.
Proof. pose proof (length_str_take 255 v). lia. Qed.

Lemma took_stmt type pos pos0 x :
  (pos0 <= pos)%nat → took [type] pos x → shape type None None None = true → stmt_done pos0 x.
Proof.
  intros Hle (Hp & Hl & t & v & Hx & Ht%list_elem_of_singleton & Hv) Hs. subst t.
  split; [lia|]. rewrite Hx. cbn [well_typed node_next]. rewrite Hs. split; [|done]. lia.
Qed.

(** A type whose nodes have one operand, of one of some types. *)
Definition takes (type : NodeType) (types : list NodeType) : Prop :=
  ∀ l, is_leaf types (Some l) = true → shape type (Some l) None None = true.

Lemma operand_stmt type types pos0 n l p :
  takes type types → (∃ v, n = Node type v None None None None ∧ (String.length v <= 255)%nat) →
  is_leaf types (Some l) = true → (pos0 < p <= S len)%nat → stmt_done pos0 (set_left l n, p).
Proof.
  intros Hs (v & -> & Hv) Hleaf Hp. split; [done|]. cbn [set_left well_typed node_next fst].
  rewrite (Hs l Hleaf). split; [|done]. apply andb_true_iff. split; [|done]. lia.
Qed.

(** A name and an operand, with a token between them or not. *)
Lemma name_operand_post (skip : bool) type other pos0 pos :
  takes type [other] → (pos0 <= pos)%nat →
  post ('(n, pos) ← take_node toks type pos;
        pos ← (if skip then advance toks pos else Done pos);
        '(o, pos) ← take_node toks other pos;
        Done (set_left o n, pos)) (stmt_done pos0).
Proof.
  intros Hs Hle. eapply post_bind; [apply take_node_post|].
  intros [n p1] (H1 & H2 & t & v & Hn & Ht%list_elem_of_singleton & Hv). simpl in *. subst.
  apply (post_bind _ _ (λ p2, (S pos <= p2)%nat)).
  { destruct skip; [|simpl; lia]. eapply post_mono; [apply advance_post|]. simpl. lia. }
  intros p2 Hp2. eapply post_bind; [apply take_node_post|]. intros [o p3] Ho.
  pose proof (took_leaf _ _ _ _ Ho) as Hleaf. destruct Ho as (H3 & H4 & _). cbn [fst snd] in *.
  eapply operand_stmt; [exact Hs|eauto|exact Hleaf|lia].
Qed.

Lemma value_post type v pos0 pos :
  takes type [NODE_STRING; NODE_IDENT] → (String.length v <= 255)%nat → (pos0 <= pos)%nat →
  post ('(val, pos) ← take_value toks pos; Done (set_left val (new_node type v), pos)) (stmt_done pos0).
Proof.
  intros Hs Hv Hle. eapply post_bind; [apply take_value_post|]. intros [o p] Ho.
  pose proof (took_leaf _ _ _ _ Ho) as Hleaf. destruct Ho as (H3 & H4 & _). cbn [fst snd] in *.
  eapply operand_stmt; [exact Hs| |exact Hleaf|lia]. eexists. split; [reflexivity|]. apply length_str_take.
Qed.

Lemma expr_post pos :
  post (parse_expr toks pos) (λ x, (pos < x.2 <= len)%nat ∧ is_condition (Some x.1) = true).
Proof.
  eapply post_bind; [apply take_node_post|]. intros [l p1] Hl. pose proof (took_leaf _ _ _ _ Hl) as Hleaf.
  destruct Hl as (H1 & H2 & _). eapply post_bind; [apply take_node_post|].
  intros [o p2] (H3 & H4 & t & v & Ho & Ht%list_elem_of_singleton & Hv). simpl in Ho. subst t o.
  eapply post_bind; [apply take_node_post|]. intros [r p3] Hr. pose proof (took_leaf _ _ _ _ Hr) as Hleafr.
  destruct Hr as (H5 & H6 & _). simpl in *. split; [lia|]. rewrite !andb_true_iff. split; [split; [lia|]|]; done.
Qed.

Lemma simple_post t pos :
  (pos < len)%nat → tok_type t ≠ TOKEN_CHECK → tok_type t ≠ TOKEN_REPEAT →
  post (parse_simple toks t pos) (stmt_done pos).
Proof.
  intros Hpos Hc Hr. eapply post_bind; [apply advance_post|]. intros p [-> Hp].
  assert (Hone : ∀ type, shape type None None None = true → post (take_node toks type (S pos)) (stmt_done pos)).
  { intros type Hs. eapply post_mono; [apply take_node_post|]. intros x Hx. eapply took_stmt; [|exact Hx|done]. lia. }
  assert (Htakes : ∀ type types, (∀ l, shape type (Some l) None None = is_leaf types (Some l) && true) → takes type types)
    by (intros type types Heq l Hl; by rewrite Heq, Hl).
  destruct (tok_type t) eqn:Htype; try done; try (by apply Hone);
    try (apply value_post; [by apply Htakes|simpl; lia|lia]);
    try (apply (name_operand_post true); [by apply Htakes|lia]);
    try (apply (name_operand_post false); [by apply Htakes|lia]).
  all: split; [simpl; lia|]; cbn [fst new_node well_typed node_next]; by rewrite length_value.
Qed.

(** A block and what follows it. *)
Definition block_done (pos : nat) (x : ASTNode * nat) : Prop :=
  (pos < x.2 <= S len)%nat ∧ well_typed x.1 = true ∧ is_block_node (Some x.1) = true.
Definition loop_done (pos : nat) (x : option ASTNode * nat) : Prop :=
  (pos <= x.2 < len)%nat ∧ well_typed_ptr x.1 = true.

Lemma set_next_typed n s : well_typed s = true → well_typed_ptr n = true → well_typed (set_next n s) = true.
Proof. destruct s. simpl. rewrite !andb_true_iff. intros [[[? ?] ?] ?] ?. by destruct n. Qed.

Lemma parse_post fuel :
  (∀ pos, (3 * (len + 2 - pos) <= fuel)%nat → (pos <= S len)%nat → post (parse_stmt toks fuel pos) (stmt_done pos)) ∧
  (∀ pos, (3 * (len + 2 - pos) <= fuel + 1)%nat → (pos <= S len)%nat → post (parse_block toks fuel pos) (block_done pos)) ∧
  (∀ pos, (3 * (len + 2 - pos) < fuel)%nat → (pos <= S len)%nat → post (block_loop toks fuel pos) (loop_done pos)).
Proof.
  induction fuel as [|fuel (IHs & IHb & IHl)]; [split_and!; intros; lia|]. split_and!; intros pos Hf Hp; simpl.
  - eapply post_bind; [apply peek_post|]. simpl. intros t Hlt.
    destruct (decide (tok_type t = TOKEN_CHECK)) as [Ht|Hnc]; [rewrite Ht|].
    + eapply post_bind; [apply advance_post|]. intros p [-> _]. eapply post_bind; [apply expr_post|].
      intros [c p1] [Hp1 Hc]. cbn [fst snd] in *. eapply post_bind; [apply IHb; lia|]. intros [b p2] (Hp2 & Hb & Hblk). cbn [fst snd] in *.
      split; [cbn [fst snd] in *; lia|]. cbn [fst new_node set_left set_body well_typed node_next].
      unfold shape. by rewrite Hc, Hblk, Hb.
    + destruct (decide (tok_type t = TOKEN_REPEAT)) as [Ht|Hnr]; [rewrite Ht|].
      * eapply post_bind; [apply advance_post|]. intros p [-> _]. eapply post_bind; [apply take_node_post|].
        intros [n p1] (H1 & H2 & ty & v & Hn & Hty%list_elem_of_singleton & Hv). cbn [fst snd] in *. subst.
        eapply post_bind; [apply IHb; lia|]. intros [b p2] (Hp2 & Hb & Hblk). cbn [fst snd] in *.
        split; [cbn [fst snd] in *; lia|]. cbn [fst set_body well_typed node_next].
        unfold shape. rewrite Hblk, Hb.
        split; [|done]. rewrite !andb_true_r. lia.
      * pose proof (simple_post t pos Hlt Hnc Hnr) as H. by destruct (tok_type t).
  - eapply post_bind; [apply advance_post|]. intros p [-> Hp0]; simpl in Hp0. eapply post_bind; [apply IHl; lia|].
    intros [b p1] [Hp1 Hb]. cbn [fst snd] in *. eapply post_bind; [apply advance_post|]. intros p [-> _].
    split; [cbn [fst snd] in *; lia|]. split; [|done]. cbn [fst set_body new_node well_typed].
    unfold shape. destruct b; [simpl in *; by rewrite Hb|done].
  - eapply post_bind; [apply check_type_post|]. intros rb Hlt. cbn beta in Hlt.
    eapply post_bind; [apply check_type_post|]. intros eof _. destruct (rb || eof); [done|].
    eapply post_bind; [apply IHs; lia|]. intros [s p1] (Hp1 & Hs & _). cbn [fst snd] in *.
    eapply post_bind; [apply IHl; lia|]. intros [r p2] [Hp2 Hr]. cbn [fst snd] in *. split; [simpl; lia|].
    by apply set_next_typed.
Qed.

Lemma parse_loop_post fuel pos :
  (3 * (len + 2 - pos) < fuel)%nat → (pos <= S len)%nat → post (parse_loop toks fuel pos) (λ p, well_typed_ptr p = true).
Proof.
  revert pos. induction fuel as [|fuel IH]; intros pos Hf Hp; [lia|]. simpl.
  eapply post_bind; [apply check_type_post|]. intros eof Hlt. destruct eof; [done|].
  eapply post_bind; [apply check_type_post|]. cbn beta in Hlt. intros dir _. destruct dir.
  - eapply post_bind; [apply advance_post|]. intros p [-> _]. apply IH; lia.
  - eapply post_bind; [apply (parse_post fuel); lia|]. intros [s p1] (Hp1 & Hs & _). cbn [fst snd] in *.
    eapply post_bind; [apply IH; lia|]. intros r Hr. cbn [fst snd] in *. by apply set_next_typed.
Qed.
End Post.

Lemma parse_total toks : post (parse toks) (λ tree, well_typed tree = true).
Proof.
  eapply post_bind; [apply parse_loop_post; unfold parse_fuel; lia|]. intros body Hb. simpl.
  destruct body; [simpl in *; by rewrite Hb|done].
Qed.

(** C28 (parser totality): on any array of tokens the parser ends: it either
    reads past the array, which is undefined, or returns a tree in which every
    node has the children its type calls for (the operand of a [say], the
    condition and the block of a [check], ...) and values of at most 255
    characters, so that no later pass follows a null pointer. *)
Theorem parse_total_typed (toks : list Token) :
  parse toks ≠ NoFuel ∧ ∀ tree, parse toks = Done tree → well_typed tree = true ∧ node_type tree = NODE_PROGRAM.
Proof.
  pose proof (parse_total toks) as Hp. split; [by intros Hn; rewrite Hn in Hp|].
  intros tree Ht. rewrite Ht in Hp. split; [exact Hp|].
  unfold parse in Ht. apply bind_done in Ht as (body & _ & [= <-]). done.
Qed.
