(* ===== verification/Grammar.v ===== *)
(** * Programs and their text

    The programs the parser is written for: statements with their operands,
    blocks, and directives at the top level. [item_tokens] writes one as
    tokens and [program_tree] is its tree; the parser reads the tokens back as
    the tree, whatever tokens the operands are and whatever follows in the
    array. *)

From Stdlib Require Import ZArith Lia ZifyBool Ascii String.
From stdpp Require Import base list numbers strings.
From S2P Require Import Prelude.
From S2P Require Import Outcome.
From S2P Require Import CString.
From S2P Require Import Lexer.
From S2P Require Import LexerProps.
From S2P Require Import Syntax.
From S2P Require Import Parser.
From S2P Require Import ParserProps.
Open Scope Z_scope.

(** A token without its line. *)
Abbreviation word := (TokenType * string)%type.

Inductive stmt :=
| SSay (v : word)
| SLet (x eq n : word)
| SCheck (x op n : word) (body : block)
| SRepeat (n : word) (body : block)
| SQmsg (v : word)
| SEncode (x : word)
| SDecode (x : word)
| SQbit (x eq st : word)
| SHadamard (x : word)
| SMeasure (x : word)
| SEntangle (x y : word)
| SCnot (x y : word)
| SAction (x : word)
with block :=
| BNil
| BCons (s : stmt) (rest : block).

Scheme stmt_mut := Induction for stmt Sort Prop
with block_mut := Induction for block Sort Prop.
Combined Scheme stmt_block_ind from stmt_mut, block_mut.

Inductive item :=
| IDirective (v : string)
| IStmt (s : stmt).

(** ** Tokens *)

Definition lbrace : word := (TOKEN_LBRACE, "{"%string).
Definition rbrace : word := (TOKEN_RBRACE, "}"%string).

Fixpoint stmt_tokens (s : stmt) : list word :=
  match s with
  | SSay v => [(TOKEN_SAY, "say"%string); v]
  | SLet x eq n => [(TOKEN_LET, "let"%string); x; eq; n]
  | SCheck x op n body =>
      [(TOKEN_CHECK, "check"%string); x; op; n; lbrace] ++ block_tokens body ++ [rbrace]
  | SRepeat n body => [(TOKEN_REPEAT, "repeat"%string); n; lbrace] ++ block_tokens body ++ [rbrace]
  | SQmsg v => [(TOKEN_QMSG, "qmsg"%string); v]
  | SEncode x => [(TOKEN_ENCODE, "encode"%string); x]
  | SDecode x => [(TOKEN_DECODE, "decode"%string); x]
  | SQbit x eq st => [(TOKEN_QBIT, "qbit"%string); x; eq; st]
  | SHadamard x => [(TOKEN_HADAMARD, "hadamard"%string); x]
  | SMeasure x => [(TOKEN_MEASURE, "measure"%string); x]
  | SEntangle x y => [(TOKEN_ENTANGLE, "entangle"%string); x; y]
  | SCnot x y => [(TOKEN_CNOT, "cnot"%string); x; y]
  | SAction x => [(TOKEN_ACTION, "action"%string); x]
  end
with block_tokens (b : block) : list word :=
  match b with
  | BNil => []
  | BCons s rest => stmt_tokens s ++ block_tokens rest
  end.

Definition item_tokens (i : item) : list word :=
  match i with
  | IDirective v => [(TOKEN_DIRECTIVE, v)]
  | IStmt s => stmt_tokens s
  end.

(** ** Trees *)

Definition leaf_node (t : NodeType) (w : word) : ASTNode := Node t w.2 None None None None.
Definition value_node (w : word) : ASTNode :=
  leaf_node (if decide (w.1 = TOKEN_STRING) then NODE_STRING else NODE_IDENT) w.

Fixpoint stmt_node (s : stmt) : ASTNode :=
  match s with
  | SSay v => Node NODE_SAY "say" (Some (value_node v)) None None None
  | SLet x _ n => Node NODE_LET x.2 (Some (leaf_node NODE_NUMBER n)) None None None
  | SCheck x op n body =>
      Node NODE_CHECK "check"
        (Some (Node NODE_BINOP op.2 (Some (leaf_node NODE_IDENT x)) (Some (leaf_node NODE_NUMBER n)) None None)) None
        (Some (Node NODE_BLOCK "block" None None (block_chain body) None)) None
  | SRepeat n body =>
      Node NODE_REPEAT n.2 None None (Some (Node NODE_BLOCK "block" None None (block_chain body) None)) None
  | SQmsg v => Node NODE_QMSG "qmsg" (Some (value_node v)) None None None
  | SEncode x => leaf_node NODE_ENCODE_QMSG x
  | SDecode x => leaf_node NODE_DECODE_QMSG x
  | SQbit x _ st => Node NODE_QBIT x.2 (Some (leaf_node NODE_STATE st)) None None None
  | SHadamard x => leaf_node NODE_HADAMARD x
  | SMeasure x => leaf_node NODE_MEASURE x
  | SEntangle x y => Node NODE_ENTANGLE x.2 (Some (leaf_node NODE_IDENT y)) None None None
  | SCnot x y => Node NODE_CNOT x.2 (Some (leaf_node NODE_IDENT y)) None None None
  | SAction x => leaf_node NODE_ACTION x
  end
with block_chain (b : block) : option ASTNode :=
  match b with
  | BNil => None
  | BCons s rest => Some (set_next (block_chain rest) (stmt_node s))
  end.

Fixpoint program_chain (p : list item) : option ASTNode :=
  match p with
  | [] => None
  | IDirective _ :: p => program_chain p
  | IStmt s :: p => Some (set_next (program_chain p) (stmt_node s))
  end.

Definition program_tree (p : list item) : ASTNode := Node NODE_PROGRAM "program" None None (program_chain p) None.

(** ** Parsing the tokens *)

Definition word_of (t : Token) : word := (tok_type t, tok_value t).

(** The words of the array from a position on, with values as the lexer leaves
    them. *)
Definition reads (toks : list Token) (pos : nat) (ws : list word) : Prop :=
  ∃ rest, word_of <$> drop pos toks = ws ++ rest.

Definition short (w : word) : Prop := (String.length w.2 <= 255)%nat.

Section Reading.
Context (toks : list Token) (Hshort : Forall (λ t, short (word_of t)) toks).

Lemma reads_app pos ws us : reads toks pos (ws ++ us) → reads toks pos ws ∧ reads toks (pos + length ws) us.
Proof.
  intros [rest Hr]. split; [exists (us ++ rest); by rewrite Hr, app_assoc|].
  exists rest. rewrite <-drop_drop, fmap_drop, Hr, <-app_assoc. by rewrite drop_app_length.
Qed.

Lemma reads_cons pos w ws :
  reads toks pos (w :: ws) →
  (∃ t, toks !! pos = Some t ∧ word_of t = w ∧ (pos < length toks)%nat) ∧ short w ∧ reads toks (S pos) ws.
Proof.
  intros Hr. destruct (reads_app pos [w] ws Hr) as [[rest Hw] Hws]. rewrite Nat.add_1_r in Hws.
  destruct (drop pos toks) as [|t l] eqn:Hd; [done|]. injection Hw as Hw _.
  assert (toks !! pos = Some t) as Ht by (by rewrite <-(Nat.add_0_r pos), <-lookup_drop, Hd).
  split_and!; [|subst w; exact (Forall_lookup_1 _ _ _ _ Hshort Ht)|done].
  exists t. split; [done|]. split; [done|]. by eapply lookup_lt_Some.
Qed.

Lemma peek_word pos w ws :
  reads toks pos (w :: ws) → ∃ t, peek toks pos = Done t ∧ tok_type t = w.1 ∧ tok_value t = w.2.
Proof. intros [(t & Ht & <- & _) _]%reads_cons. exists t. unfold peek. by rewrite Ht. Qed.

Lemma advance_word pos w ws : reads toks pos (w :: ws) → advance toks pos = Done (S pos).
Proof.
  intros [(t & _ & _ & Hlt) _]%reads_cons. unfold advance, guard_ub. by destruct (Nat.leb_spec pos (length toks)); [|lia].
Qed.

Lemma take_node_word type pos w ws :
  reads toks pos (w :: ws) → take_node toks type pos = Done (leaf_node type w, S pos).
Proof.
  intros Hr. unfold take_node. destruct (peek_word _ _ _ Hr) as (t & -> & _ & Hv). cbn [mbind outcome_bind].
  rewrite (advance_word _ _ _ Hr). cbn [mbind outcome_bind]. apply reads_cons in Hr as (_ & Hs & _).
  unfold new_node, leaf_node. by rewrite Hv, str_take_id.
Qed.

Lemma take_value_word pos w ws :
  reads toks pos (w :: ws) → take_value toks pos = Done (value_node w, S pos).
Proof.
  intros Hr. unfold take_value. destruct (peek_word _ _ _ Hr) as (t & -> & Ht & Hv). cbn [mbind outcome_bind].
  rewrite (advance_word _ _ _ Hr). cbn [mbind outcome_bind]. apply reads_cons in Hr as (_ & Hs & _).
  unfold new_node, value_node, leaf_node. by rewrite Hv, Ht, str_take_id.
Qed.

Lemma check_type_word type pos w ws :
  reads toks pos (w :: ws) → check_type toks type pos = Done (bool_decide (w.1 = type)).
Proof. intros (t & Hp & Ht & _)%peek_word. unfold check_type. rewrite Hp. cbn [mbind outcome_bind]. by rewrite Ht. Qed.

(** One more word read. *)
Ltac read_more H :=
  let Hn := fresh "Hnext" in
  pose proof (proj2 (proj2 (reads_cons _ _ _ H))) as Hn;
  first [rewrite (advance_word _ _ _ H) | rewrite (take_node_word _ _ _ _ H) | rewrite (take_value_word _ _ _ H)];
  cbn [mbind outcome_bind]; clear H; rename Hn into H.

(** A statement starts with its keyword. *)
Lemma stmt_first s :
  ∃ w tl, stmt_tokens s = w :: tl ∧ w.1 ≠ TOKEN_RBRACE ∧ w.1 ≠ TOKEN_EOF ∧ w.1 ≠ TOKEN_DIRECTIVE.
Proof. destruct s; do 2 eexists; (split; [reflexivity|done]). Qed.

Lemma parse_block_words body pos fuel ws :
  (∀ pos fuel ws, reads toks pos (block_tokens body ++ rbrace :: ws) → (3 * length (block_tokens body) < fuel)%nat →
     block_loop toks fuel pos = Done (block_chain body, (pos + length (block_tokens body))%nat)) →
  reads toks pos (lbrace :: block_tokens body ++ rbrace :: ws) → (3 * length (block_tokens body) + 1 < fuel)%nat →
  parse_block toks fuel pos =
    Done (Node NODE_BLOCK "block" None None (block_chain body) None, (pos + length (block_tokens body) + 2)%nat).
Proof.
  intros IH Hr Hf. destruct fuel as [|fuel]; [lia|]. cbn [parse_block]. read_more Hr. rewrite (IH _ _ _ Hr) by lia.
  cbn [mbind outcome_bind]. apply reads_app in Hr as [_ Hr]. rewrite (advance_word _ _ _ Hr). cbn [mbind outcome_bind].
  replace (pos + length (block_tokens body) + 2)%nat with (S (S pos + length (block_tokens body))) by lia. reflexivity.
Qed.

Lemma parse_words :
  (∀ s pos fuel ws, reads toks pos (stmt_tokens s ++ ws) → (3 * length (stmt_tokens s) <= fuel)%nat →
     parse_stmt toks fuel pos = Done (stmt_node s, (pos + length (stmt_tokens s))%nat)) ∧
  (∀ b pos fuel ws, reads toks pos (block_tokens b ++ rbrace :: ws) → (3 * length (block_tokens b) < fuel)%nat →
     block_loop toks fuel pos = Done (block_chain b, (pos + length (block_tokens b))%nat)).
Proof.
  apply stmt_block_ind.
  all: try (intros; match goal with Hr : reads _ ?pos _ |- parse_stmt _ ?fuel _ = _ =>
    destruct fuel as [|fuel]; [simpl in *; lia|]; cbn [parse_stmt];
    destruct (peek_word _ _ _ Hr) as (t & -> & Ht & _); cbn [mbind outcome_bind]; simpl in Ht;
    rewrite Ht; unfold parse_simple; cbn [stmt_tokens app] in Hr; try rewrite Ht; repeat read_more Hr;
    cbn [stmt_tokens length]; try (by rewrite ?Nat.add_succ_r, Nat.add_0_r) end).
  - cbn [stmt_tokens] in H1. rewrite ?length_app in H1. simpl in H1. rewrite ?length_app in H1. simpl in H1.
    unfold parse_expr. read_more H0. read_more H0. read_more H0.
    rewrite <-app_assoc in H0. rewrite (parse_block_words body _ _ _ H H0) by lia. cbn [mbind outcome_bind].
    cbn [stmt_node set_left set_right set_body new_node leaf_node]. do 2 f_equal. rewrite !length_app.
    simpl. lia.
  - cbn [stmt_tokens] in H1. rewrite ?length_app in H1. simpl in H1. rewrite ?length_app in H1. simpl in H1.
    rewrite <-app_assoc in H0. rewrite (parse_block_words body _ _ _ H H0) by lia. cbn [mbind outcome_bind].
    cbn [stmt_node set_body leaf_node]. do 2 f_equal. rewrite !length_app. simpl. lia.
  - intros pos fuel ws Hr Hf. destruct fuel as [|fuel]; [lia|]. cbn [block_loop].
    rewrite !(check_type_word _ _ _ _ Hr). cbn. by rewrite Nat.add_0_r.
  - intros s IHs rest IHr pos fuel ws Hr Hf. cbn [block_tokens] in Hr, Hf. rewrite length_app in Hf.
    rewrite <-app_assoc in Hr. destruct fuel as [|fuel]; [lia|]. cbn [block_loop].
    destruct (stmt_first s) as (w & tl & Hst & Hw1 & Hw2 & _). pose proof Hr as Hw. rewrite Hst in Hw. cbn [app] in Hw.
    rewrite !(check_type_word _ _ _ _ Hw). cbn [mbind outcome_bind]. rewrite !bool_decide_eq_false_2 by done. cbn [orb].
    assert (1 <= length (stmt_tokens s))%nat by (rewrite Hst; simpl; lia).
    rewrite (IHs _ _ _ Hr) by lia. cbn [mbind outcome_bind]. apply reads_app in Hr as [_ Hr].
    rewrite (IHr _ _ _ Hr) by lia. cbn [mbind outcome_bind block_chain block_tokens]. by rewrite length_app, Nat.add_assoc.
Qed.

Lemma parse_program p pos fuel v ws :
  reads toks pos ((p ≫= item_tokens) ++ (TOKEN_EOF, v) :: ws) → (3 * length (p ≫= item_tokens) < fuel)%nat →
  parse_loop toks fuel pos = Done (program_chain p).
Proof.
  revert pos fuel. induction p as [|[d|s] p IH]; intros pos fuel Hr Hf; (destruct fuel as [|fuel]; [lia|]); cbn [parse_loop].
  - by rewrite !(check_type_word _ _ _ _ Hr).
  - rewrite bind_cons in Hr, Hf. cbn [item_tokens app] in Hr, Hf. rewrite !(check_type_word _ _ _ _ Hr). cbn. simpl in Hf. read_more Hr. apply IH; [done|].
    lia.
  - rewrite bind_cons in Hr, Hf. rewrite length_app in Hf. cbn [item_tokens] in *. rewrite <-app_assoc in Hr.
    destruct (stmt_first s) as (w & tl & Hst & Hw1 & Hw2 & Hw3). pose proof Hr as Hw. rewrite Hst in Hw. cbn [app] in Hw.
    rewrite !(check_type_word _ _ _ _ Hw). cbn [mbind outcome_bind]. rewrite !bool_decide_eq_false_2 by done.
    assert (1 <= length (stmt_tokens s))%nat by (rewrite Hst; simpl; lia).
    rewrite (proj1 parse_words _ _ _ _ Hr) by lia. cbn [mbind outcome_bind]. apply reads_app in Hr as [_ Hr].
    rewrite (IH _ _ Hr) by lia. done.
Qed.
End Reading.

(** What the parser makes of the tokens of a program. *)
Lemma parse_reads toks p v ws :
  Forall (λ t, short (word_of t)) toks → reads toks 0 ((p ≫= item_tokens) ++ (TOKEN_EOF, v) :: ws) →
  parse toks = Done (program_tree p).
Proof.
  intros Hs Hr. unfold parse. rewrite (parse_program toks Hs p 0 _ v ws Hr); [done|].
  destruct Hr as [rest Hr]. apply (f_equal length) in Hr. rewrite length_fmap, drop_0, !length_app in Hr. cbn [length] in Hr.
  unfold parse_fuel. lia.
Qed.

(** ** Programs as text *)

Definition lexeme_word (l : lexeme) : word := (lx_type l, lx_value l).

(** A text of some words: their lexemes with layout after each. *)
Record text_of (ws : list word) (lead : string) (ls : list lexeme) : Prop := {
  tx_words : lexeme_word <$> ls = ws;
  tx_lead : str_forall isspace lead = true;
  tx_ok : forallb lexeme_ok ls = true;
  tx_count : (length ls < MAX_TOKENS)%nat;
  tx_length : Z.of_nat (String.length (lead +:+ render ls)) < 2 ^ 31 - 1
}.

(** An array as the lexer leaves it. *)
Definition array_ok (lx : lexer) : Prop :=
  length (tokens lx) = MAX_TOKENS ∧ Forall (λ t, short (word_of t)) (tokens lx).

Lemma initial_array_ok : array_ok initial_lexer.
Proof. split; [done|]. apply Forall_replicate. unfold short. simpl. lia. Qed.

Lemma place_words ls line : word_of <$> place line ls = lexeme_word <$> ls.
Proof. revert line. induction ls as [|l ls IH]; intros line; [done|]. simpl. by rewrite IH. Qed.

Lemma place_short ls line : forallb lexeme_ok ls = true → Forall (λ t, short (word_of t)) (place line ls).
Proof.
  intros Hok. apply Forall_lookup_2. intros i t Hi. pose proof (place_fits ls line Hok) as Hf.
  rewrite forallb_forall in Hf. specialize (Hf t (proj1 (list_elem_of_In _ _) (list_elem_of_lookup_2 _ _ _ Hi))).
  unfold token_fits, buffer_size, short, word_of in *. simpl. destruct (tok_type t); lia.
Qed.

Lemma tokenize_text ws lead ls lx :
  text_of ws lead ls → array_ok lx →
  ∃ lx', tokenize (lead +:+ render ls) lx = Done lx' ∧ array_ok lx' ∧ tok_count lx' = S (length ws) ∧
    ∃ e, tokens lx' = place (1 + newlines lead) ls ++ {| tok_type := TOKEN_EOF; tok_value := "EOF"; tok_line := e |} ::
                      drop (S (length ws)) (tokens lx).
Proof.
  intros [Hw Hlead Hok Hc Hl] [Hlen Hs]. eexists. split; [by apply tokenize_rendered|].
  assert (length ls = length ws) as Hlw by (by rewrite <-Hw, length_fmap).
  unfold array_ok. rewrite tokenized_tokens, tokenized_count, length_place, Hlw. split; [split|].
  - rewrite length_app, length_place. cbn [length]. rewrite length_drop. lia.
  - apply Forall_app. split; [by apply place_short|]. constructor; [unfold short; simpl; lia|by apply Forall_drop].
  - split; [done|]. by eexists.
Qed.

(** Scanning and parsing the text of a program. *)
Lemma parse_text p lead ls lx :
  text_of (p ≫= item_tokens) lead ls → array_ok lx →
  ∃ lx', tokenize (lead +:+ render ls) lx = Done lx' ∧ array_ok lx' ∧ parse (tokens lx') = Done (program_tree p).
Proof.
  intros Ht Hlx. destruct (tokenize_text _ _ _ _ Ht Hlx) as (lx' & Hrun & Hok & _ & e & Htoks).
  exists lx'. split; [done|]. split; [done|].
  apply (parse_reads _ p "EOF" (word_of <$> drop (S (length (p ≫= item_tokens))) (tokens lx))); [apply Hok|].
  exists []. rewrite drop_0, Htoks, fmap_app, place_words, (tx_words _ _ _ Ht). simpl. by rewrite app_nil_r.
Qed.

(** ** An incomplete statement at the end *)

(** In zeroed entries, which are [say] tokens, the parser never stops. *)
Lemma zeros_never_done toks fuel pos tree :
  (∀ i t, (pos <= i)%nat → toks !! i = Some t → t = zero_token) → parse_loop toks fuel pos ≠ Done tree.
Proof.
  revert pos tree. induction fuel as [|fuel IH]; intros pos tree Hz; [done|]. cbn [parse_loop]. unfold check_type, peek.
  destruct (toks !! pos) as [t|] eqn:Ht; [|done]. assert (t = zero_token) as -> by (eapply Hz, Ht; lia).
  cbn [defined mbind outcome_bind]. rewrite !bool_decide_eq_false_2 by done.
  intros ((s & p) & Hs & (rest & Hrest & _)%bind_done)%bind_done. destruct fuel as [|fuel]; [done|].
  cbn [parse_stmt] in Hs. unfold peek in Hs. rewrite Ht in Hs. cbn [defined mbind outcome_bind zero_token tok_type] in Hs.
  unfold parse_simple in Hs. apply bind_done in Hs as (p1 & Hp1 & Hs). cbn [tok_type] in Hs.
  apply bind_done in Hs as ([v p2] & Hv & [= _ <-]). unfold take_value in Hv.
  apply bind_done in Hv as (t & _ & Hv). apply bind_done in Hv as (p3 & Hp3 & [= _ <-]).
  unfold advance, guard_ub in Hp1, Hp3. destruct (_ <=? _)%nat in Hp1; [|done]. destruct (_ <=? _)%nat in Hp3; [|done].
  injection Hp1 as <-. injection Hp3 as <-. eapply IH; [|exact Hrest]. intros i t' Hi. apply Hz. lia.
Qed.

Lemma prefix_done toks p pos ws fuel tree :
  Forall (λ t, short (word_of t)) toks → reads toks pos ((p ≫= item_tokens) ++ ws) →
  (3 * length (p ≫= item_tokens) < fuel)%nat → parse_loop toks fuel pos = Done tree →
  ∃ fuel' tree', parse_loop toks fuel' (pos + length (p ≫= item_tokens)) = Done tree'.
Proof.
  intros Hs. revert pos fuel tree. induction p as [|[d|s] p IH]; intros pos fuel tree Hr Hf Hrun.
  - exists fuel, tree. by rewrite Nat.add_0_r.
  - destruct fuel as [|fuel]; [lia|]. rewrite bind_cons in Hr, Hf |- *. cbn [item_tokens app] in Hr, Hf |- *.
    cbn [parse_loop] in Hrun. rewrite !(check_type_word toks Hs _ _ _ _ Hr) in Hrun. cbn in Hrun.
    rewrite (advance_word toks Hs _ _ _ Hr) in Hrun. cbn [mbind outcome_bind] in Hrun.
    apply reads_cons in Hr as (_ & _ & Hr); [|done]. simpl in Hf. cbn [length]. rewrite Nat.add_succ_r.
    apply (IH (S pos) fuel tree); [done|lia|done].
  - destruct fuel as [|fuel]; [lia|]. rewrite bind_cons in Hr, Hf |- *. cbn [item_tokens] in Hr, Hf |- *.
    rewrite length_app in Hf |- *. rewrite <-app_assoc in Hr.
    destruct (stmt_first s) as (w & tl & Hst & _ & Hw2 & Hw3). pose proof Hr as Hw. rewrite Hst in Hw. cbn [app] in Hw.
    cbn [parse_loop] in Hrun. rewrite !(check_type_word toks Hs _ _ _ _ Hw) in Hrun. cbn [mbind outcome_bind] in Hrun.
    rewrite !bool_decide_eq_false_2 in Hrun by done.
    assert (1 <= length (stmt_tokens s))%nat by (rewrite Hst; simpl; lia).
    rewrite (proj1 (parse_words toks Hs) _ _ _ _ Hr) in Hrun by lia. cbn [mbind outcome_bind] in Hrun.
    apply bind_done in Hrun as (rest & Hrest & _). apply reads_app in Hr as [_ Hr]. rewrite Nat.add_assoc.
    apply (IH _ fuel rest); [done|lia|done].
Qed.

(** C25 (reading a program): take any program of the language, with any tokens as
    operands and directives between statements, written as its lexemes with any
    layout between them, of fewer than 1024 tokens. Scanning and parsing this
    text is defined and gives the tree of the program: its statements in order,
    each with its operands and its block. *)
Theorem parse_source (p : list item) (lead : string) (ls : list lexeme) (lx : lexer) :
  text_of (p ≫= item_tokens) lead ls → array_ok lx →
  ∃ lx', tokenize (lead +:+ render ls) lx = Done lx' ∧ parse (tokens lx') = Done (program_tree p).
Proof. intros Ht Hlx. destruct (parse_text _ _ _ _ Ht Hlx) as (lx' & ? & _ & ?). eauto. Qed.

Definition ident (v : string) : word := (TOKEN_IDENT, v).
Definition spaced : word → lexeme := λ w, {| lx_type := w.1; lx_value := w.2; lx_after := " " |}.

(** [@qnova let x = 3 repeat 2 { check x > 2 { say x } } cnot q p] *)
Definition demo_program : list item := [
  IDirective "qnova";
  IStmt (SLet (ident "x") (TOKEN_EQ, "=") (TOKEN_NUMBER, "3"));
  IStmt (SRepeat (TOKEN_NUMBER, "2")
    (BCons (SCheck (ident "x") (TOKEN_GT, ">") (TOKEN_NUMBER, "2") (BCons (SSay (ident "x")) BNil)) BNil));
  IStmt (SCnot (ident "q") (ident "p"))
]%string.

Definition demo_text : list lexeme := spaced <$> (demo_program ≫= item_tokens).

Lemma demo_text_of : text_of (demo_program ≫= item_tokens) EmptyString demo_text.
Proof. split; vm_compute; try reflexivity. lia. Qed.

Lemma parse_source_witness :
  ∃ lx', tokenize (EmptyString +:+ render demo_text) initial_lexer = Done lx' ∧
    parse (tokens lx') = Done (program_tree demo_program).
Proof. apply (parse_source demo_program EmptyString demo_text initial_lexer); [apply demo_text_of|apply initial_array_ok]. Defined.

(** C39 (overrun): a [say] with nothing after it, at the end of any program, makes
    the parser leave the token array. It takes the end-of-file token for the
    operand and goes on into the unused entries, which are zero, that is [say]
    tokens, to the end of the array and beyond. *)
Theorem parse_overrun (p : list item) (lead : string) (ls : list lexeme) :
  text_of ((p ≫= item_tokens) ++ [(TOKEN_SAY, "say"%string)]) lead ls →
  ∃ lx, tokenize (lead +:+ render ls) initial_lexer = Done lx ∧ parse (tokens lx) = Undef.
Proof.
  intros Ht. destruct (tokenize_text _ _ _ _ Ht initial_array_ok) as (lx & Hrun & [Hlen Hs] & _ & e & Htoks).
  exists lx. split; [done|]. set (n := length (p ≫= item_tokens)) in *.
  pose proof (parse_total (tokens lx)) as Htotal.
  destruct (parse (tokens lx)) as [tree| |] eqn:Hp; [|done|done].
  exfalso. unfold parse in Hp. apply bind_done in Hp as (body & Hp & _).
  assert (Hreads : reads (tokens lx) 0 ((p ≫= item_tokens) ++ [(TOKEN_SAY, "say"%string)])).
  { eexists. rewrite drop_0, Htoks, fmap_app, place_words, (tx_words _ _ _ Ht). reflexivity. }
  eapply prefix_done in Hp as (fuel & tree' & Hp); [|exact Hs|exact Hreads|].
  2: { pose proof (tx_count _ _ _ Ht) as Hc. rewrite <-(length_fmap lexeme_word), (tx_words _ _ _ Ht), length_app in Hc.
       unfold parse_fuel. rewrite Hlen. fold n in Hc. simpl in Hc. lia. }
  fold n in Hp. simpl in Hp. apply reads_app in Hreads as [_ Hsay]. fold n in Hsay. simpl in Hsay.
  destruct fuel as [|fuel]; [done|]. cbn [parse_loop] in Hp.
  rewrite !(check_type_word (tokens lx) Hs _ _ _ _ Hsay) in Hp. cbn [mbind outcome_bind] in Hp.
  rewrite !bool_decide_eq_false_2 in Hp by done. apply bind_done in Hp as ([s q] & Hstmt & (rest & Hrest & _)%bind_done).
  assert (q = S (S n)) as ->.
  { destruct fuel as [|fuel]; [done|]. cbn [parse_stmt] in Hstmt.
    destruct (peek_word (tokens lx) Hs _ _ _ Hsay) as (t & Hpeek & Htype & _). rewrite Hpeek in Hstmt.
    cbn [mbind outcome_bind] in Hstmt. simpl in Htype. rewrite Htype in Hstmt. unfold parse_simple in Hstmt.
    rewrite Htype, (advance_word (tokens lx) Hs _ _ _ Hsay) in Hstmt. cbn [mbind outcome_bind] in Hstmt.
    apply bind_done in Hstmt as ([v q'] & Hv & [= _ <-]). unfold take_value in Hv.
    apply bind_done in Hv as (t' & _ & Hv). apply bind_done in Hv as (p3 & Hp3 & [= _ <-]).
    unfold advance, guard_ub in Hp3. destruct (_ <=? _)%nat in Hp3; [|done]. by injection Hp3 as <-. }
  eapply zeros_never_done; [|exact Hrest]. intros i t Hi Hlook. rewrite Htoks in Hlook.
  assert (length (place (1 + newlines lead) ls) = S n) as Hpl.
  { rewrite length_place, <-(length_fmap lexeme_word), (tx_words _ _ _ Ht), length_app. fold n. simpl. lia. }
  rewrite lookup_app_r in Hlook by lia. rewrite Hpl in Hlook.
  replace (i - S n)%nat with (S (i - S (S n))) in Hlook by lia. cbn [lookup list_lookup] in Hlook.
  exact (Forall_lookup_1 (λ t, t = zero_token) _ _ _ (Forall_drop _ _ _ (Forall_replicate (λ t, t = zero_token) MAX_TOKENS _ eq_refl)) Hlook).
Qed.

Lemma parse_overrun_witness :
  ∃ lx, tokenize (EmptyString +:+ render [{| lx_type := TOKEN_SAY; lx_value := "say"; lx_after := " " |}]) initial_lexer
    = Done lx ∧ parse (tokens lx) = Undef.
Proof.
  apply (parse_overrun [] EmptyString). split; try reflexivity. unfold MAX_TOKENS. simpl. lia.
Defined.
