(* ===== verification/Compiler.v ===== *)
(** * The compiler

    [src/compiler/compiler.c]: [compile] walks the tree and appends
    instructions to the static array [bytecode]. The state is the list of the
    instructions emitted so far; [None] is undefined behaviour: an emission
    past the array, an operand that does not fit its 64 bytes, a null
    dereference, or a number outside [int]. *)

From Stdlib Require Import ZArith Lia ZifyBool Ascii String.
From stdpp Require Import base list numbers strings.
From S2P Require Import Prelude.
From S2P Require Import Outcome.
From S2P Require Import CString.
From S2P Require Import Syntax.
Open Scope Z_scope.

(** [strcpy] into an operand; a null argument leaves it empty. *)
Definition copy_arg (a : option string) : option string :=
  match a with
  | None => Some EmptyString
  | Some s => if (String.length s <? ARG_BYTES)%nat then Some s else None
  end.

Definition emit (code : list Instruction) (o : OpCode) (a1 a2 : option string) (val : Z)
    : option (list Instruction) :=
  if (length code <? MAX_INSTR)%nat then
    a1 ← copy_arg a1;
    a2 ← copy_arg a2;
    Some (code ++ [{| op := o; arg1 := a1; arg2 := a2; ivalue := val |}])
  else None.

(** [node->left->value], and the conditional forms. *)
Definition left_value (l : option ASTNode) : option string := node_value <$> l.

(** The instruction for a [check]: its operands, or empty ones when the
    condition is incomplete. *)
Definition check_args (l : option ASTNode) : option (option string * option string * Z) :=
  match l with
  | Some cond =>
      match node_left cond, node_right cond with
      | Some a, Some b => v ← atoi (node_value b); Some (Some (node_value a), Some (node_value cond), v)
      | _, _ => Some (None, None, 0)
      end
  | None => Some (None, None, 0)
  end.

Fixpoint compile (node : ASTNode) (code : list Instruction) : option (list Instruction) :=
  let '(Node t v l r b n) := node in
  let sub p code := match p with Some m => compile m code | None => Some code end in
  code ←
    match t with
    | NODE_SAY => x ← left_value l; emit code OP_SAY (Some x) None 0
    | NODE_LET => x ← left_value l; emit code OP_LET (Some v) (Some x) 0
    | NODE_QBIT => x ← left_value l; emit code OP_QBIT (Some v) (Some x) 0
    | NODE_HADAMARD => emit code OP_HADAMARD (Some v) None 0
    | NODE_MEASURE => emit code OP_MEASURE (Some v) None 0
    | NODE_ENTANGLE => emit code OP_ENTANGLE (Some v) (left_value l) 0
    | NODE_CNOT => emit code OP_CNOT (Some v) (left_value l) 0
    | NODE_QMSG => emit code OP_QMSG (left_value l) None 0
    | NODE_ENCODE_QMSG => emit code OP_ENCODE_QMSG (Some v) None 0
    | NODE_DECODE_QMSG => emit code OP_DECODE_QMSG (Some v) None 0
    | NODE_CHECK =>
        '(a1, a2, val) ← check_args l;
        code ← emit code OP_CHECK a1 a2 val;
        code ← sub b code;
        emit code OP_END None None 0
    | NODE_REPEAT =>
        val ← atoi v;
        code ← emit code OP_REPEAT None None val;
        code ← sub b code;
        emit code OP_END None None 0
    | NODE_ACTION => emit code OP_SAFE_ACTION (Some v) None 0
    | NODE_BLOCK => sub b code
    | _ => Some code
    end;
  sub n code.

(** [compile] of a pointer. *)
Definition compile_ptr (p : option ASTNode) (code : list Instruction) : option (list Instruction) :=
  match p with Some m => compile m code | None => Some code end.

(** ** Listing *)

(** The entry of [names], or "UNKNOWN". *)
Definition op_name (o : OpCode) : string :=
  match o with
  | OP_SAY => "SAY"
  | OP_LET => "LET"
  | OP_QBIT => "QBIT"
  | OP_HADAMARD => "HADAMARD"
  | OP_MEASURE => "MEASURE"
  | OP_ENTANGLE => "ENTANGLE"
  | OP_CNOT => "CNOT"
  | OP_CHECK => "CHECK"
  | OP_REPEAT => "REPEAT"
  | OP_BLOCK => "BLOCK"
  | OP_END => "END"
  | OP_SAFE_ACTION => "SAFE_ACTION"
  | OP_QMSG => "QMSG"
  | OP_ENCODE_QMSG => "ENCODE_QMSG"
  | OP_DECODE_QMSG => "DECODE_QMSG"
  | OP_UNKNOWN _ => "UNKNOWN"
  end.

Definition print_instruction {F} (i : nat) (ins : Instruction) : list (output F) :=
  [Print "%04d: %s" [AInt (Z.of_nat i); AStr (op_name (op ins))]] ++
  (if (arg1 ins =? EmptyString)%string then [] else [Print " %s" [AStr (arg1 ins)]]) ++
  (if (arg2 ins =? EmptyString)%string then [] else [Print " %s" [AStr (arg2 ins)]]) ++
  (if ivalue ins =? 0 then [] else [Print " %d" [AInt (ivalue ins)]]) ++
  [Print "\n" []].

Definition print_bytecode {F} (code : list Instruction) : list (output F) :=
  concat (imap print_instruction code).
