(* ===== verification/ByteVM.v ===== *)
(** * The bytecode VM

    [src/vm/byte_vm.c] with the action filter of [src/adapter/safe_adapter.c].
    The static tables are the record [vm]: variables and qubits in order of
    creation, the message register, the number of [rand] results used, and the
    output, one [Print] per [printf] with the format as it is written in the
    source. A pointer into the qubit table is an index, so that two names of
    one qubit alias as they do in the code.

    [rand] is the sequence of results of [rand()] and [atof] the conversion of
    a number's text; the number type is any with the operations of
    [FloatOps]. *)

From Stdlib Require Import ZArith Lia ZifyBool Ascii String.
From stdpp Require Import base list numbers strings.
From S2P Require Import Prelude.
From S2P Require Import Float64.
From S2P Require Import Outcome.
From S2P Require Import CString.
From S2P Require Import Syntax.
Open Scope Z_scope.

Definition MAX_VM_VARS : nat := 64.
Definition MAX_VM_QBITS : nat := 32.
Definition QMSG_MAX_CHARS : nat := 128.
Definition QMSG_MAX_BITS : nat := QMSG_MAX_CHARS * 8 + 1.
Definition RAND_MAX : Z := 2147483647.
Definition REPEAT_STACK : nat := 64.

Record VMQbit (F : Type) := {
  q_name : string;
  q_a : F;
  q_b : F;
  q_measured : bool;
  q_result : Z;
  q_entangled : string
}.
Arguments q_name {F}.
Arguments q_a {F}.
Arguments q_b {F}.
Arguments q_measured {F}.
Arguments q_result {F}.
Arguments q_entangled {F}.
Arguments Build_VMQbit {F}.

Record vm (F : Type) := {
  vars : list (string * F);
  qbits : list (VMQbit F);
  qmsg_text : string;
  qmsg_bits : string;
  qmsg_loaded : bool;
  qmsg_encoded : bool;
  qmsg_measured : bool;
  rands : nat;
  out : list (output F)
}.
Arguments vars {F}.
Arguments qbits {F}.
Arguments qmsg_text {F}.
Arguments qmsg_bits {F}.
Arguments qmsg_loaded {F}.
Arguments qmsg_encoded {F}.
Arguments qmsg_measured {F}.
Arguments rands {F}.
Arguments out {F}.
Arguments Build_vm {F}.

(** ** The action filter *)

Inductive AdapterResult := ADAPTER_OK | ADAPTER_BLOCKED.

(** The result and the printed line. *)
Definition adapter_dispatch_safe {F} (action : string) : AdapterResult * output F :=
  if (action =? "led_on")%string then (ADAPTER_OK, Print "[ADAPTER_SIM] LED_ON allowed\n" [])
  else if (action =? "led_off")%string then (ADAPTER_OK, Print "[ADAPTER_SIM] LED_OFF allowed\n" [])
  else if (action =? "servo_up")%string then (ADAPTER_OK, Print "[ADAPTER_SIM] SERVO_UP allowed\n" [])
  else if (action =? "servo_down")%string then (ADAPTER_OK, Print "[ADAPTER_SIM] SERVO_DOWN allowed\n" [])
  else if (action =? "buzzer_beep")%string then (ADAPTER_OK, Print "[ADAPTER_SIM] BUZZER_BEEP allowed\n" [])
  else (ADAPTER_BLOCKED, Print "[ADAPTER_BLOCKED] Unknown or unsafe action blocked: %s\n" [AStr action]).

Section VM.
Context {F : Type} `{FloatOps F} (rand : nat → Z) (atof : string → F).
Abbreviation vm := (vm F).
Abbreviation qbit := (VMQbit F).

(** ** Updates *)

Definition print (fmt : string) (args : list (arg F)) (s : vm) : vm :=
  Build_vm (vars s) (qbits s) (qmsg_text s) (qmsg_bits s) (qmsg_loaded s) (qmsg_encoded s) (qmsg_measured s)
    (rands s) (out s ++ [Print fmt args]).
Definition with_vars (vs : list (string * F)) (s : vm) : vm :=
  Build_vm vs (qbits s) (qmsg_text s) (qmsg_bits s) (qmsg_loaded s) (qmsg_encoded s) (qmsg_measured s)
    (rands s) (out s).
Definition with_qbits (qs : list qbit) (s : vm) : vm :=
  Build_vm (vars s) qs (qmsg_text s) (qmsg_bits s) (qmsg_loaded s) (qmsg_encoded s) (qmsg_measured s)
    (rands s) (out s).
Definition with_qmsg (text bits : string) (loaded encoded measured : bool) (s : vm) : vm :=
  Build_vm (vars s) (qbits s) text bits loaded encoded measured (rands s) (out s).
Definition with_rands (n : nat) (s : vm) : vm :=
  Build_vm (vars s) (qbits s) (qmsg_text s) (qmsg_bits s) (qmsg_loaded s) (qmsg_encoded s) (qmsg_measured s)
    n (out s).

(** Writing the amplitudes, the flag and the result of a qubit. *)
Definition set_qbit (q : qbit) (a b : F) (measured : bool) (result : Z) : qbit :=
  Build_VMQbit (q_name q) a b measured result (q_entangled q).
Definition set_entangled (name : string) (q : qbit) : qbit :=
  Build_VMQbit (q_name q) (q_a q) (q_b q) (q_measured q) (q_result q) name.

(** ** Tables *)

Fixpoint find_var (name : string) (vs : list (string * F)) : option (nat * F) :=
  match vs with
  | [] => None
  | (n, x) :: vs =>
      if (n =? name)%string then Some (0%nat, x)
      else '(i, x) ← find_var name vs; Some (S i, x)
  end.

Definition set_var (name : string) (x : F) (s : vm) : vm :=
  match find_var name (vars s) with
  | Some (i, _) => with_vars (<[i := (name, x)]> (vars s)) s
  | None =>
      if (MAX_VM_VARS <=? length (vars s))%nat then print "[VM ERROR] variable limit reached\n" [] s
      else with_vars (vars s ++ [(name, x)]) s
  end.

Fixpoint find_qbit (name : string) (qs : list qbit) : option nat :=
  match qs with
  | [] => None
  | q :: qs => if (q_name q =? name)%string then Some 0%nat else S <$> find_qbit name qs
  end.

(** The amplitudes of a named state; [None] when the name is unknown. *)
Definition state_amps (state : string) : option (F * F) :=
  if (state =? "|0>")%string then Some (f_one, f_zero)
  else if (state =? "|1>")%string then Some (f_zero, f_one)
  else if (state =? "|+>")%string then Some (inv_sqrt2, inv_sqrt2)
  else if (state =? "|->")%string then Some (inv_sqrt2, f_div (f_of_Z (-1)) (f_sqrt (f_of_Z 2)))
  else None.

Definition create_qbit (name state : string) (s : vm) : vm :=
  let '(i, s) :=
    match find_qbit name (qbits s) with
    | Some i => (Some i, s)
    | None =>
        if (MAX_VM_QBITS <=? length (qbits s))%nat then (None, print "[VM ERROR] qbit limit reached\n" [] s)
        else (Some (length (qbits s)),
              with_qbits (qbits s ++ [Build_VMQbit name f_zero f_zero false 0 EmptyString]) s)
    end in
  match i with
  | None => s
  | Some i =>
      let '(a, b, s) :=
        match state_amps state with
        | Some (a, b) => (a, b, s)
        | None => (f_one, f_zero, print "[VM ERROR] unknown qbit state: %s\n" [AStr state] s)
        end in
      with_qbits (alter (λ q, set_qbit q a b false (-1)) i (qbits s)) s
  end.

(** ** Qubits *)

Definition print_qbit (q : qbit) : vm → vm :=
  if q_measured q then print "|%d>\n" [AInt (q_result q)]
  else print "|0>=%.3f |1>=%.3f\n" [ADbl (q_a q); ADbl (q_b q)].

Definition hadamard (q : qbit) : qbit :=
  set_qbit q (f_div (f_add (q_a q) (q_b q)) (f_sqrt (f_of_Z 2)))
    (f_div (f_sub (q_a q) (q_b q)) (f_sqrt (f_of_Z 2))) false (-1).

(** The qubit in the basis state [result], measured. *)
Definition collapse (result : Z) (q : qbit) : qbit :=
  if result =? 0 then set_qbit q f_one f_zero true result else set_qbit q f_zero f_one true result.

(** [measure]: one call of [rand]. *)
Definition measure (i : nat) (s : vm) : vm :=
  match qbits s !! i with
  | None => s
  | Some q =>
      let prob0 := f_mul (q_a q) (q_a q) in
      let r := f_div (f_of_Z (rand (rands s))) (f_of_Z RAND_MAX) in
      let result := if f_ltb prob0 r then 1 else 0 in
      with_rands (S (rands s)) (with_qbits (<[i := collapse result q]> (qbits s)) s)
  end.

(** [cnot_qbits] and [entangle_qbits] do the same to the two qubits: each
    names the other, and the second gets the amplitudes of the first. *)
Definition link (i j : nat) (name_i name_j : string) (qs : list qbit) : list qbit :=
  let qs := alter (set_entangled name_j) i qs in
  let qs := alter (set_entangled name_i) j qs in
  match qs !! i with
  | Some c => alter (λ q, set_qbit q (q_a c) (q_b c) false 0) j qs
  | None => qs
  end.

Definition cnot_qbits (control_name target_name : string) (s : vm) : vm :=
  match find_qbit control_name (qbits s), find_qbit target_name (qbits s) with
  | Some i, Some j =>
      print "[QCORE] CNOT %s -> %s\n" [AStr control_name; AStr target_name]
        (with_qbits (link i j control_name target_name (qbits s)) s)
  | _, _ => print "[QCORE ERROR] cannot CNOT missing qbit: %s %s\n" [AStr control_name; AStr target_name] s
  end.

Definition entangle_qbits (left_name right_name : string) (s : vm) : vm :=
  match find_qbit left_name (qbits s), find_qbit right_name (qbits s) with
  | Some i, Some j =>
      print "[QCORE] entangled %s <-> %s\n" [AStr left_name; AStr right_name]
        (with_qbits (link i j left_name right_name (qbits s)) s)
  | _, _ => print "[QCORE ERROR] cannot entangle missing qbit: %s %s\n" [AStr left_name; AStr right_name] s
  end.

Definition measure_linked (i : nat) (s : vm) : vm :=
  let s := measure i s in
  match qbits s !! i with
  | None => s
  | Some q =>
      if (q_entangled q =? EmptyString)%string then s else
      match find_qbit (q_entangled q) (qbits s) with
      | None => s
      | Some j =>
          match qbits s !! j with
          | None => s
          | Some partner =>
              print "[QCORE] entangled collapse %s -> %s = |%d>\n"
                [AStr (q_name q); AStr (q_name partner); AInt (q_result q)]
                (with_qbits (<[j := collapse (q_result q) partner]> (qbits s)) s)
          end
      end
  end.

(** ** Messages *)

Definition qmsg_set (message : string) (s : vm) : vm :=
  if (message =? EmptyString)%string then print "[QMSG ERROR] empty message\n" [] s
  else
    let text := str_take (QMSG_MAX_CHARS - 1) message in
    print "[QMSG] message loaded: %s\n" [AStr text] (with_qmsg text EmptyString true false false s).

(** The eight bits of a character, most significant first. *)
Definition char_bits (c : ascii) : string :=
  let ch := Z.of_N (N_of_ascii c) in
  fold_right (λ b rest, String (if (Z.land (Z.shiftr ch b) 1 =? 0)%Z then "0"%char else "1"%char) rest) EmptyString
    [7; 6; 5; 4; 3; 2; 1; 0].

(** The loop over the characters, with [bit_pos] bits written so far. *)
Fixpoint encode_loop (text : string) (bit_pos : nat) : string :=
  match text with
  | EmptyString => EmptyString
  | String c text =>
      if (bit_pos <? QMSG_MAX_BITS - 9)%nat then (char_bits c +:+ encode_loop text (bit_pos + 8))%string
      else EmptyString
  end.

Definition qmsg_encode (s : vm) : vm :=
  if negb (qmsg_loaded s) then print "[QMSG ERROR] no qmsg loaded\n" [] s
  else
    let bits := encode_loop (qmsg_text s) 0 in
    print "[QMSG] virtual qbit packet created: %d bits\n" [AInt (Z.of_nat (String.length bits))]
      (print "[QMSG] bits: %s\n" [AStr bits] (with_qmsg (qmsg_text s) bits (qmsg_loaded s) true false s)).

Definition qmsg_measure (s : vm) : vm :=
  if negb (qmsg_encoded s) then print "[QMSG ERROR] qmsg must be encoded before measure\n" [] s
  else
    print "[QMSG] measured virtual qbit packet: %zu bits\n" [AInt (Z.of_nat (String.length (qmsg_bits s)))]
      (with_qmsg (qmsg_text s) (qmsg_bits s) (qmsg_loaded s) (qmsg_encoded s) true s).

Fixpoint register_loop (bits : string) (i len : nat) (s : vm) : vm :=
  match bits with
  | EmptyString => s
  | String c bits =>
      let s := print "q%zu=|%c>" [AInt (Z.of_nat i); AStr (String c EmptyString)] s in
      let s := if (((i + 1) mod 8 =? 0) || (i + 1 =? len))%nat then print "\n" [] s else print " " [] s in
      register_loop bits (i + 1) len s
  end.

Definition qmsg_print_register (s : vm) : vm :=
  if negb (qmsg_encoded s) then print "[QMSG ERROR] qmsg must be encoded before register view\n" [] s
  else register_loop (qmsg_bits s) 0 (String.length (qmsg_bits s)) (print "[QMSG] virtual qbit register:\n" [] s).

Definition qmsg_decode (s : vm) : vm :=
  if negb (qmsg_encoded s) then print "[QMSG ERROR] qmsg must be encoded before decode\n" [] s
  else
    let s := if qmsg_measured s then s else print "[QMSG WARN] decoding before measure\n" [] s in
    print "[QMSG] decoded message: %s\n" [AStr (qmsg_text s)] s.

(** ** Instructions *)

Definition vm_say (value : string) (s : vm) : vm :=
  if (value =? "qmsg")%string then qmsg_print_register s
  else match find_qbit value (qbits s) ≫= (λ i, qbits s !! i) with
  | Some q => print_qbit q s
  | None =>
      match find_var value (vars s) with
      | Some (_, x) => print "%g\n" [ADbl x] s
      | None => print "%s\n" [AStr value] s
      end
  end.

Definition run_safe_action (action : string) (s : vm) : vm :=
  let '(result, line) := adapter_dispatch_safe action in
  let s := print (format _ line) (args _ line) s in
  match result with
  | ADAPTER_OK => print "[SAFE_ACTION] dispatched through adapter contract: %s\n" [AStr action] s
  | ADAPTER_BLOCKED => s
  end.

(** The instructions that go on with the next one. *)
Definition exec_simple (ins : Instruction) (s : vm) : vm :=
  match op ins with
  | OP_SAY => vm_say (arg1 ins) s
  | OP_LET => set_var (arg1 ins) (atof (arg2 ins)) s
  | OP_QBIT => create_qbit (arg1 ins) (arg2 ins) s
  | OP_HADAMARD =>
      match find_qbit (arg1 ins) (qbits s) with
      | Some i => with_qbits (alter hadamard i (qbits s)) s
      | None => print "[VM ERROR] qbit not found: %s\n" [AStr (arg1 ins)] s
      end
  | OP_CNOT => cnot_qbits (arg1 ins) (arg2 ins) s
  | OP_ENTANGLE => entangle_qbits (arg1 ins) (arg2 ins) s
  | OP_MEASURE =>
      if (arg1 ins =? "qmsg")%string then qmsg_measure s
      else match find_qbit (arg1 ins) (qbits s) with
      | Some i => measure_linked i s
      | None => print "[VM ERROR] qbit not found: %s\n" [AStr (arg1 ins)] s
      end
  | OP_QMSG => qmsg_set (arg1 ins) s
  | OP_ENCODE_QMSG =>
      if (arg1 ins =? "qmsg")%string then qmsg_encode s
      else print "[QMSG ERROR] unknown encode target: %s\n" [AStr (arg1 ins)] s
  | OP_DECODE_QMSG =>
      if (arg1 ins =? "qmsg")%string then qmsg_decode s
      else print "[QMSG ERROR] unknown decode target: %s\n" [AStr (arg1 ins)] s
  | OP_SAFE_ACTION => run_safe_action (arg1 ins) s
  | OP_BLOCK | OP_CHECK | OP_REPEAT | OP_END | OP_UNKNOWN _ => s
  end.

(** The condition of a check: whether it passes, and what it prints. *)
Definition check_pass (ins : Instruction) (s : vm) : bool * vm :=
  match find_var (arg1 ins) (vars s) with
  | None => (false, print "[VM ERROR] variable not found for check: %s\n" [AStr (arg1 ins)] s)
  | Some (_, lhs) =>
      let rhs := f_of_Z (ivalue ins) in
      if (arg2 ins =? ">")%string then (f_ltb rhs lhs, s)
      else if (arg2 ins =? "<")%string then (f_ltb lhs rhs, s)
      else if (arg2 ins =? "==")%string then (f_leb lhs rhs && f_leb rhs lhs, s)
      else if (arg2 ins =? ">=")%string then (f_leb rhs lhs, s)
      else if (arg2 ins =? "<=")%string then (f_leb lhs rhs, s)
      else (false, print "[VM ERROR] unknown check operator: %s\n" [AStr (arg2 ins)] s)
  end.

(** ** Control *)

(** The loop that skips a block: [rest] is the code after [pc]; the result is
    the new [pc], that of the matching END or of the last instruction. *)
Fixpoint skip_block (rest : list Instruction) (pc depth : nat) : nat :=
  match rest with
  | [] => pc
  | i :: rest =>
      let pc := S pc in
      let depth := if opens (op i) then S depth else depth in
      if ends (op i) then (if (depth =? 0)%nat then pc else skip_block rest pc (depth - 1))
      else skip_block rest pc depth
  end.

(** The loop that looks for the END of a repeat, from position [i] on. *)
Fixpoint find_end (rest : list Instruction) (i depth : nat) : option nat :=
  match rest with
  | [] => None
  | ins :: rest =>
      let depth := if opens (op ins) then S depth else depth in
      if ends (op ins) then (if (depth =? 0)%nat then Some i else find_end rest (S i) (depth - 1))
      else find_end rest (S i) depth
  end.

(** An entry of the three parallel arrays of the repeat stack. *)
Record frame := {
  repeat_start : nat;
  repeat_end : nat;
  repeat_left : Z
}.

Inductive vm_next :=
| Goto (pc : nat) (stack : list frame) (s : vm)
| Return (s : vm).

(** One round of the loop, [pc++] included; the stack's top is its head. *)
Definition vm_step (code : list Instruction) (ins : Instruction) (pc : nat) (stack : list frame) (s : vm) : vm_next :=
  match op ins with
  | OP_CHECK =>
      let '(pass, s) := check_pass ins s in
      let pc := if pass : bool then pc else skip_block (drop (S pc) code) pc 0 in
      Goto (S pc) stack s
  | OP_REPEAT =>
      match find_end (drop (S pc) code) (S pc) 0 with
      | None => Return (print "[VM ERROR] repeat block missing END\n" [] s)
      | Some e =>
          if ivalue ins <=? 0 then Goto (S e) stack s
          else if (REPEAT_STACK <=? length stack)%nat then Return (print "[VM ERROR] repeat stack overflow\n" [] s)
          else Goto (S pc) ({| repeat_start := pc; repeat_end := e; repeat_left := ivalue ins |} :: stack) s
      end
  | OP_END =>
      match stack with
      | top :: rest =>
          if (pc =? repeat_end top)%nat then
            let left := repeat_left top - 1 in
            if 0 <? left then
              Goto (S (repeat_start top))
                ({| repeat_start := repeat_start top; repeat_end := repeat_end top; repeat_left := left |} :: rest) s
            else Goto (S pc) rest s
          else Goto (S pc) stack s
      | [] => Goto (S pc) stack s
      end
  | OP_UNKNOWN code => Return (print "[VM ERROR] unknown opcode: %d\n" [AInt code] s)
  | _ => Goto (S pc) stack (exec_simple ins s)
  end.

Inductive vm_outcome :=
| Halted (s : vm)
| Running (pc : nat) (stack : list frame) (s : vm).

(** The loop of [run_bytecode] for [fuel] rounds. *)
Fixpoint vm_loop (fuel : nat) (code : list Instruction) (pc : nat) (stack : list frame) (s : vm) : vm_outcome :=
  match code !! pc with
  | None => Halted s
  | Some ins =>
      match fuel with
      | O => Running pc stack s
      | S fuel =>
          match vm_step code ins pc stack s with
          | Goto pc stack s => vm_loop fuel code pc stack s
          | Return s => Halted s
          end
      end
  end.

Definition run_bytecode (fuel : nat) (code : list Instruction) (s : vm) : vm_outcome :=
  vm_loop fuel code 0 [] (print "=== QBIT NOVA BYTECODE VM ===\n" [] s).
End VM.
