(* ===== verification/CompilerProps.v ===== *)
(** * The compiler and the VM agree with the tree

    [exec_tree] is the meaning of a tree: statements in order, a [check] runs
    its body when its condition holds, a [repeat] runs its body as often as its
    number says. The VM, which finds the ends of blocks by scanning and keeps a
    stack of loops, computes just that on the compiled code. *)

From Stdlib Require Import ZArith Lia ZifyBool Ascii String.
From stdpp Require Import base list numbers strings relations.
From S2P Require Import Prelude.
From S2P Require Import Float64.
From S2P Require Import Outcome.
From S2P Require Import CString.
From S2P Require Import Syntax.
From S2P Require Import Compiler.
From S2P Require Import ByteVM.
Open Scope Z_scope.

(** ** The code of a tree, wherever it is placed *)

Definition ins (o : OpCode) (a1 a2 : option string) (val : Z) : option Instruction :=
  a1 ← copy_arg a1; a2 ← copy_arg a2; Some {| op := o; arg1 := a1; arg2 := a2; ivalue := val |}.

(** The instruction of a statement without a body. *)
Definition simple_ins (t : NodeType) (v : string) (l : option ASTNode) : option (option Instruction) :=
  match t with
  | NODE_SAY => x ← left_value l; Some <$> ins OP_SAY (Some x) None 0
  | NODE_LET => x ← left_value l; Some <$> ins OP_LET (Some v) (Some x) 0
  | NODE_QBIT => x ← left_value l; Some <$> ins OP_QBIT (Some v) (Some x) 0
  | NODE_HADAMARD => Some <$> ins OP_HADAMARD (Some v) None 0
  | NODE_MEASURE => Some <$> ins OP_MEASURE (Some v) None 0
  | NODE_ENTANGLE => Some <$> ins OP_ENTANGLE (Some v) (left_value l) 0
  | NODE_CNOT => Some <$> ins OP_CNOT (Some v) (left_value l) 0
  | NODE_QMSG => Some <$> ins OP_QMSG (left_value l) None 0
  | NODE_ENCODE_QMSG => Some <$> ins OP_ENCODE_QMSG (Some v) None 0
  | NODE_DECODE_QMSG => Some <$> ins OP_DECODE_QMSG (Some v) None 0
  | NODE_ACTION => Some <$> ins OP_SAFE_ACTION (Some v) None 0
  | _ => Some None
  end.

(** The instruction that opens the body of a [check] or a [repeat]. *)
Definition head_ins (t : NodeType) (v : string) (l : option ASTNode) : option Instruction :=
  match t with
  | NODE_CHECK => '(a1, a2, val) ← check_args l; ins OP_CHECK a1 a2 val
  | _ => val ← atoi v; ins OP_REPEAT None None val
  end.

Definition end_ins : Instruction := {| op := OP_END; arg1 := EmptyString; arg2 := EmptyString; ivalue := 0 |}.

Definition has_body (t : NodeType) : bool :=
  match t with NODE_CHECK | NODE_REPEAT => true | _ => false end.
Definition is_block (t : NodeType) : bool :=
  match t with NODE_BLOCK => true | _ => false end.

Fixpoint gen (node : ASTNode) : option (list Instruction) :=
  let '(Node t v l r b n) := node in
  let sub p := match p with Some m => gen m | None => Some [] end in
  here ←
    (if has_body t then h ← head_ins t v l; body ← sub b; Some (h :: body ++ [end_ins])
     else if is_block t then sub b
     else i ← simple_ins t v l; Some (match i with Some i => [i] | None => [] end));
  later ← sub n;
  Some (here ++ later).

Definition gen_ptr (p : option ASTNode) : option (list Instruction) :=
  match p with Some m => gen m | None => Some [] end.

Lemma gen_node t v l r b n :
  gen (Node t v l r b n) =
  here ←
    (if has_body t then h ← head_ins t v l; body ← gen_ptr b; Some (h :: body ++ [end_ins])
     else if is_block t then gen_ptr b
     else i ← simple_ins t v l; Some (match i with Some i => [i] | None => [] end));
  later ← gen_ptr n;
  Some (here ++ later).
Proof. by destruct t, b, n. Qed.

Lemma emit_ins code o a1 a2 val code' :
  emit code o a1 a2 val = Some code' → ∃ i, ins o a1 a2 val = Some i ∧ code' = code ++ [i].
Proof.
  unfold emit, ins. destruct (_ <? _)%nat; [|done]. destruct (copy_arg a1); [|done].
  destruct (copy_arg a2); [|done]. cbn [mbind option_bind]. intros [= <-]. eauto.
Qed.

(** [compile] appends the code of the tree. *)
Lemma compile_gen node code code' :
  compile node code = Some code' → ∃ c, gen node = Some c ∧ code' = code ++ c.
Proof.
  revert code code'. induction node as [t v l r b n IHb IHn] using ASTNode_chain_ind. intros code code'.
  rewrite gen_node. cbn [compile].
  assert (Hb : ∀ code code', match b with Some m => compile m code | None => Some code end = Some code' →
    ∃ c, gen_ptr b = Some c ∧ code' = code ++ c)
    by (intros x y; destruct b; [apply IHb|intros [= <-]; exists []; by rewrite app_nil_r]).
  assert (Hn : ∀ code code', match n with Some m => compile m code | None => Some code end = Some code' →
    ∃ c, gen_ptr n = Some c ∧ code' = code ++ c)
    by (intros x y; destruct n; [apply IHn|intros [= <-]; exists []; by rewrite app_nil_r]).
  match goal with |- context [match t with NODE_SAY => _ | _ => _ end] =>
    set (here := match t with NODE_SAY => _ | _ => _ end) end.
  intros Hrun. destruct here as [mid|] eqn:Hhere; [|done]. cbn [mbind option_bind] in Hrun.
  destruct (Hn _ _ Hrun) as (cn & -> & ->). clear Hn Hrun.
  enough (∃ c, (if has_body t then h ← head_ins t v l; body ← gen_ptr b; Some (h :: body ++ [end_ins])
     else if is_block t then gen_ptr b
     else i ← simple_ins t v l; Some (match i with Some i => [i] | None => [] end)) = Some c ∧ mid = code ++ c)
    as (c & -> & ->) by (exists (c ++ cn); by rewrite app_assoc).
  subst here.
  assert (Hsimple : ∀ o a1 a2, emit code o a1 a2 0 = Some mid →
    ∃ c, (i ← Some <$> ins o a1 a2 0; Some (match i with Some i => [i] | None => [] end)) = Some c ∧ mid = code ++ c)
    by (intros o a1 a2 (i & -> & ->)%emit_ins; by exists [i]).
  destruct t; cbn [has_body is_block simple_ins head_ins]; try (by apply Hsimple);
    try (by (injection Hhere as <-; exists []; rewrite app_nil_r)).
  - destruct (left_value l); [|done]. by apply Hsimple.
  - destruct (left_value l); [|done]. by apply Hsimple.
  - destruct (check_args l) as [[[a1 a2] val]|]; [|done]. cbn [mbind option_bind] in *.
    destruct (emit code _ _ _ _) as [c1|] eqn:H1; [|done]. apply emit_ins in H1 as (i & -> & ->).
    cbn [mbind option_bind] in *. destruct (match b with Some m => _ | None => _ end) as [c2|] eqn:H2; [|done].
    apply Hb in H2 as (cb & -> & ->). cbn [mbind option_bind] in *. apply emit_ins in Hhere as (i' & [= <-] & ->).
    exists (i :: cb ++ [end_ins]). split; [done|]. by rewrite <-!app_assoc.
  - by apply Hb.
  - destruct (left_value l); [|done]. by apply Hsimple.
  - destruct (atoi v) as [val|]; [|done]. cbn [mbind option_bind] in *.
    destruct (emit code _ _ _ _) as [c1|] eqn:H1; [|done]. apply emit_ins in H1 as (i & -> & ->).
    cbn [mbind option_bind] in *. destruct (match b with Some m => _ | None => _ end) as [c2|] eqn:H2; [|done].
    apply Hb in H2 as (cb & -> & ->). cbn [mbind option_bind] in *. apply emit_ins in Hhere as (i' & [= <-] & ->).
    exists (i :: cb ++ [end_ins]). split; [done|]. by rewrite <-!app_assoc.
Qed.

(** ** Scanning *)

Lemma ins_op o a1 a2 val i : ins o a1 a2 val = Some i → op i = o ∧ ivalue i = val.
Proof.
  unfold ins. destruct (copy_arg a1); [|done]. destruct (copy_arg a2); [|done]. by intros [= <-].
Qed.

(** The instructions of the enumeration that open or end no block. *)
Definition plain (o : OpCode) : bool :=
  match o with OP_CHECK | OP_REPEAT | OP_END | OP_UNKNOWN _ => false | _ => true end.

Lemma plain_scan o : plain o = true → opens o = false ∧ ends o = false.
Proof. by destruct o. Qed.

Lemma simple_op t v l i : simple_ins t v l = Some (Some i) → plain (op i) = true.
Proof.
  assert (∀ o a1 a2, Some <$> ins o a1 a2 0 = Some (Some i) → op i = o) as Hop.
  { intros o a1 a2 Hi. destruct (ins o a1 a2 0) eqn:He; [|done]. injection Hi as <-. by apply ins_op in He as [? _]. }
  destruct t; cbn [simple_ins]; try done; try (by intros ->%Hop);
    destruct (left_value l); try done; cbn [mbind option_bind]; by intros ->%Hop.
Qed.

Lemma head_op t v l h : head_ins t v l = Some h → has_body t = true → opens (op h) = true ∧ ends (op h) = false.
Proof.
  intros Hh Ht. destruct t; try done; cbn [head_ins] in Hh.
  - destruct (check_args l) as [[[a1 a2] val]|]; [|done]. by apply ins_op in Hh as [-> _].
  - destruct (atoi v); [|done]. by apply ins_op in Hh as [-> _].
Qed.

(** The code of a tree as its first statement and the rest. *)
Lemma gen_split t v l r b n c :
  gen (Node t v l r b n) = Some c →
  ∃ here later, c = here ++ later ∧ gen_ptr n = Some later ∧
    ((has_body t = true ∧ ∃ h body, head_ins t v l = Some h ∧ gen_ptr b = Some body ∧ here = h :: body ++ [end_ins]) ∨
     (has_body t = false ∧ is_block t = true ∧ gen_ptr b = Some here) ∨
     (has_body t = false ∧ is_block t = false ∧ ∃ i, simple_ins t v l = Some i ∧
        here = match i with Some i => [i] | None => [] end)).
Proof.
  rewrite gen_node. destruct (has_body t).
  - destruct (head_ins t v l) as [h|]; [|done]. destruct (gen_ptr b) as [body|]; [|done]. cbn [mbind option_bind].
    destruct (gen_ptr n) as [later|]; [|done]. intros [= <-]. exists (h :: body ++ [end_ins]), later.
    split; [done|]. eauto 10.
  - destruct (is_block t).
    + destruct (gen_ptr b) as [body|]; [|done]. cbn [mbind option_bind].
      destruct (gen_ptr n) as [later|]; [|done]. intros [= <-]. eauto 10.
    + destruct (simple_ins t v l) as [i|]; [|done]. cbn [mbind option_bind].
      destruct (gen_ptr n) as [later|]; [|done]. intros [= <-].
      exists (match i with Some i => [i] | None => [] end), later. split; [done|]. eauto 10.
Qed.

(** Generated code is balanced: scanning passes over it. *)
Lemma scan_gen node c :
  gen node = Some c →
  ∀ rest p d, skip_block (c ++ rest) p d = skip_block rest (p + length c) d ∧
              find_end (c ++ rest) p d = find_end rest (p + length c) d.
Proof.
  revert c. induction node as [t v l r b n IHb IHn] using ASTNode_chain_ind. intros c Hgen.
  assert (Hptr : ∀ p c, on_ptr (λ node, ∀ c, gen node = Some c → ∀ rest p d,
      skip_block (c ++ rest) p d = skip_block rest (p + length c) d ∧
      find_end (c ++ rest) p d = find_end rest (p + length c) d) p → gen_ptr p = Some c → ∀ rest p d,
      skip_block (c ++ rest) p d = skip_block rest (p + length c) d ∧
      find_end (c ++ rest) p d = find_end rest (p + length c) d).
  { intros [m|] c0 HP; [apply HP|]. intros [= <-] rest p d. simpl. by rewrite Nat.add_0_r. }
  pose proof (Hptr b) as Hb. pose proof (Hptr n) as Hn. clear Hptr.
  apply gen_split in Hgen as (here & later & -> & Hlater & Hhere). intros rest p d.
  enough (skip_block (here ++ later ++ rest) p d = skip_block (later ++ rest) (p + length here) d ∧
          find_end (here ++ later ++ rest) p d = find_end (later ++ rest) (p + length here) d) as [Hs Hf].
  { rewrite <-!app_assoc, Hs, Hf, length_app, Nat.add_assoc. by apply Hn. }
  destruct Hhere as [(Ht & h & body & Hh & Hbody & ->)|[(_ & _ & Hbody)|(_ & _ & i & Hi & ->)]].
  - destruct (head_op _ _ _ _ Hh Ht) as [Ho He]. cbn [app skip_block find_end]. rewrite Ho, He, <-!app_assoc.
    destruct (Hb body IHb Hbody ([end_ins] ++ later ++ rest) (S p) (S d)) as [-> ->].
    cbn [app skip_block find_end end_ins op opens ends]. rewrite !length_cons, !length_app. simpl.
    rewrite Nat.sub_0_r. by replace (S (S (p + length body))) with (p + S (length body + 1))%nat by lia.
  - by apply Hb.
  - destruct i as [i|]; [|by rewrite Nat.add_0_r]. destruct (plain_scan _ (simple_op _ _ _ _ Hi)) as [Ho He].
    cbn [app skip_block find_end length]. rewrite Ho, He. by rewrite Nat.add_1_r.
Qed.

Lemma scan_gen_ptr p c :
  gen_ptr p = Some c →
  ∀ rest i d, skip_block (c ++ rest) i d = skip_block rest (i + length c) d ∧
              find_end (c ++ rest) i d = find_end rest (i + length c) d.
Proof.
  destruct p as [m|]; [apply scan_gen|]. intros [= <-] rest i d. simpl. by rewrite Nat.add_0_r.
Qed.

(** How deep the repeats of a tree nest. *)
Fixpoint repeat_depth (node : ASTNode) : nat :=
  let '(Node t _ _ _ b n) := node in
  let sub p := match p with Some m => repeat_depth m | None => 0%nat end in
  Nat.max (match t with NODE_REPEAT => S (sub b) | NODE_CHECK | NODE_BLOCK => sub b | _ => 0%nat end) (sub n).

Definition depth_ptr (p : option ASTNode) : nat := match p with Some m => repeat_depth m | None => 0%nat end.

Section Exec.
Context {F : Type} `{FloatOps F} (rand : nat → Z) (atof : string → F).
Abbreviation vm := (vm F).

(** ** The meaning of a tree *)

Fixpoint exec_tree (node : ASTNode) (s : vm) : vm :=
  let '(Node t v l r b n) := node in
  let sub p s := match p with Some m => exec_tree m s | None => s end in
  let s :=
    match t with
    | NODE_CHECK =>
        match head_ins t v l with
        | Some h => let '(pass, s) := check_pass h s in if pass : bool then sub b s else s
        | None => s
        end
    | NODE_REPEAT =>
        match atoi v with
        | Some count => Nat.iter (Z.to_nat count) (sub b) s
        | None => s
        end
    | NODE_BLOCK => sub b s
    | _ =>
        match simple_ins t v l with
        | Some (Some i) => exec_simple rand atof i s
        | _ => s
        end
    end in
  sub n s.

Definition exec_ptr (p : option ASTNode) (s : vm) : vm := match p with Some m => exec_tree m s | None => s end.

(** ** Steps of the VM *)

Definition vgo (code : list Instruction) (c c' : nat * list frame * vm) : Prop :=
  ∃ i, code !! c.1.1 = Some i ∧ vm_step rand atof code i c.1.1 c.1.2 c.2 = Goto c'.1.1 c'.1.2 c'.2.

Lemma loop_steps code c c' :
  rtc (vgo code) c c' →
  ∃ k, ∀ fuel, vm_loop rand atof (k + fuel) code c.1.1 c.1.2 c.2 = vm_loop rand atof fuel code c'.1.1 c'.1.2 c'.2.
Proof.
  induction 1 as [|c1 c2 c3 (i & Hi & Hs) _ [k IH]]; [by exists 0%nat|].
  exists (S k). intros fuel. simpl. by rewrite Hi, Hs, IH.
Qed.

(** A simple instruction in place. *)
Lemma go_simple pre i post stack s :
  plain (op i) = true →
  vgo (pre ++ i :: post) (length pre, stack, s) (S (length pre), stack, exec_simple rand atof i s).
Proof.
  intros Hp. exists i. split; [by apply list_lookup_middle|]. unfold vm_step. simpl. by destruct (op i).
Qed.

(** The END of a check, or of a repeat that another frame does not end here. *)
Lemma go_end pre post stack s :
  (∀ top rest, stack = top :: rest → (length pre < repeat_end top)%nat) →
  vgo (pre ++ end_ins :: post) (length pre, stack, s) (S (length pre), stack, s).
Proof.
  intros Hst. exists end_ins. split; [by apply list_lookup_middle|]. unfold vm_step. cbn [op end_ins fst snd].
  destruct stack as [|top rest]; [done|]. specialize (Hst top rest eq_refl).
  destruct (Nat.eqb_spec (length pre) (repeat_end top)); [lia|done].
Qed.

(** The code after an opening instruction. *)
Lemma drop_open pre (h : Instruction) rest : drop (S (length pre)) (pre ++ h :: rest) = rest.
Proof. induction pre as [|x pre IH]; [by destruct rest|exact IH]. Qed.

Lemma skip_body pre h body post :
  (∀ rest i d, skip_block (body ++ rest) i d = skip_block rest (i + length body) d) →
  skip_block (drop (S (length pre)) (pre ++ h :: body ++ end_ins :: post)) (length pre) 0 =
  (length pre + length body + 1)%nat.
Proof. intros Hb. rewrite drop_open, Hb. simpl. lia. Qed.

Lemma find_body pre h body post :
  (∀ rest i d, find_end (body ++ rest) i d = find_end rest (i + length body) d) →
  find_end (drop (S (length pre)) (pre ++ h :: body ++ end_ins :: post)) (S (length pre)) 0 =
  Some (length pre + length body + 1)%nat.
Proof. intros Hb. rewrite drop_open, Hb. simpl. f_equal. lia. Qed.

(** Code that runs a state transformer wherever it is placed, on a stack with
    room for [d] more loops whose top ends after it. *)
Definition runs (c : list Instruction) (d : nat) (f : vm → vm) : Prop :=
  ∀ pre post stack s,
    (length stack + d <= REPEAT_STACK)%nat →
    (∀ top rest, stack = top :: rest → (length pre + length c <= repeat_end top)%nat) →
    rtc (vgo (pre ++ c ++ post)) (length pre, stack, s) ((length pre + length c)%nat, stack, f s).

Lemma runs_app c1 c2 d1 d2 f1 f2 :
  runs c1 d1 f1 → runs c2 d2 f2 → runs (c1 ++ c2) (Nat.max d1 d2) (λ s, f2 (f1 s)).
Proof.
  intros H1 H2 pre post stack s Hd Hst. rewrite length_app in *. rewrite <-app_assoc.
  etransitivity; [apply H1; [lia|]|].
  - intros top rest ->. specialize (Hst _ _ eq_refl). lia.
  - assert (pre ++ c1 ++ c2 ++ post = (pre ++ c1) ++ c2 ++ post) as -> by by rewrite app_assoc.
    rewrite Nat.add_assoc, <-length_app. apply H2; [lia|].
    intros top rest ->. specialize (Hst _ _ eq_refl). rewrite length_app. lia.
Qed.

Lemma runs_nil d : runs [] d id.
Proof. intros pre post stack s _ _. simpl. rewrite Nat.add_0_r. done. Qed.

Lemma runs_simple i :
  plain (op i) = true → runs [i] 0 (exec_simple rand atof i).
Proof.
  intros Hp pre post stack s _ _. simpl. rewrite Nat.add_1_r. by apply rtc_once, go_simple.
Qed.

Section Body.
Context (h : Instruction) (body : list Instruction) (d : nat) (f : vm → vm).
Context (Hrun : runs body d f).
Context (Hscan : ∀ rest i d, skip_block (body ++ rest) i d = skip_block rest (i + length body) d ∧
                             find_end (body ++ rest) i d = find_end rest (i + length body) d).

(** The body between its opening instruction and its END. *)
Lemma body_runs pre post stack s :
  (length stack + d <= REPEAT_STACK)%nat →
  (∀ top rest, stack = top :: rest → (length pre + length body + 1 <= repeat_end top)%nat) →
  rtc (vgo (pre ++ h :: body ++ end_ins :: post)) (S (length pre), stack, s)
    ((length pre + length body + 1)%nat, stack, f s).
Proof using Hrun.
  intros Hd Hst. replace (pre ++ h :: body ++ end_ins :: post) with ((pre ++ [h]) ++ body ++ end_ins :: post)
    by by rewrite <-app_assoc.
  replace (length pre + length body + 1)%nat with (length (pre ++ [h]) + length body)%nat
    by (rewrite length_app; simpl; lia).
  replace (S (length pre)) with (length (pre ++ [h])) by (rewrite length_app; simpl; lia).
  apply Hrun; [done|]. intros top rest ->. specialize (Hst _ _ eq_refl). rewrite length_app. simpl. lia.
Qed.

Lemma at_end pre post : (pre ++ h :: body ++ end_ins :: post) !! (length pre + length body + 1)%nat = Some end_ins.
Proof using.
  rewrite lookup_app_r by lia. replace (length pre + length body + 1 - length pre)%nat with (S (length body)) by lia.
  simpl. by apply list_lookup_middle.
Qed.

Lemma runs_check :
  op h = OP_CHECK →
  runs (h :: body ++ [end_ins]) d (λ s, let '(pass, s) := check_pass h s in if pass : bool then f s else s).
Proof using Hrun Hscan.
  intros Ho pre post stack s Hd Hst. rewrite length_cons, length_app in *. cbn [app length] in *. rewrite <-app_assoc.
  cbn [app]. destruct (check_pass h s) as [[] s1] eqn:Hc.
  - eapply rtc_l.
    { exists h. split; [by apply list_lookup_middle|]. unfold vm_step. cbn [fst snd]. rewrite Ho, Hc.
      instantiate (1 := (S (length pre), stack, s1)). done. }
    etransitivity; [apply body_runs; [done|]|].
    + intros top rest ->. specialize (Hst _ _ eq_refl). lia.
    + apply rtc_once. exists end_ins. split; [apply at_end|]. unfold vm_step. cbn [op end_ins fst snd].
      replace (length pre + S (length body + 1))%nat with (S (length pre + length body + 1)) by lia.
      destruct stack as [|top rest]; [done|]. specialize (Hst top rest eq_refl).
      destruct (Nat.eqb_spec (length pre + length body + 1) (repeat_end top)); [lia|done].
  - apply rtc_once. exists h. split; [by apply list_lookup_middle|]. unfold vm_step. cbn [fst snd]. rewrite Ho, Hc.
    rewrite skip_body by (intros; apply Hscan). f_equal. lia.
Qed.

(** The loop of a repeat, with [left] rounds to go. *)
Lemma repeat_loop pre post stack n s :
  (length stack + S d <= REPEAT_STACK)%nat →
  rtc (vgo (pre ++ h :: body ++ end_ins :: post))
    (S (length pre), {| repeat_start := length pre; repeat_end := length pre + length body + 1;
                        repeat_left := Z.of_nat (S n) |} :: stack, s)
    (S (length pre + length body + 1), stack, Nat.iter (S n) f s).
Proof using Hrun.
  revert s. induction n as [|n IH]; intros s Hd.
  all: etransitivity; [apply body_runs; [simpl; lia|]; intros top rest [= <- <-]; simpl; lia|].
  - apply rtc_once. exists end_ins. split; [apply at_end|]. unfold vm_step. cbn [op end_ins fst snd repeat_end repeat_left].
    rewrite Nat.eqb_refl. done.
  - eapply rtc_l; [|rewrite Nat.iter_succ_r; by apply IH].
    exists end_ins. split; [apply at_end|]. unfold vm_step. cbn [op end_ins fst snd repeat_end repeat_left repeat_start].
    rewrite Nat.eqb_refl. replace (0 <? Z.of_nat (S (S n)) - 1) with true by lia.
    by replace (Z.of_nat (S (S n)) - 1) with (Z.of_nat (S n)) by lia.
Qed.

Lemma runs_repeat :
  op h = OP_REPEAT → runs (h :: body ++ [end_ins]) (S d) (Nat.iter (Z.to_nat (ivalue h)) f).
Proof using Hrun Hscan.
  intros Ho pre post stack s Hd Hst. rewrite length_cons, length_app in *. cbn [app length] in *. rewrite <-app_assoc.
  cbn [app]. replace (length pre + S (length body + 1))%nat with (S (length pre + length body + 1)) by lia.
  pose proof (find_body pre h body post ltac:(intros; apply Hscan)) as Hend.
  destruct (Z.leb_spec (ivalue h) 0) as [Hle|Hgt].
  - rewrite (Z2Nat.nonpos _ Hle). apply rtc_once. exists h. split; [by apply list_lookup_middle|].
    unfold vm_step. cbn [fst snd]. rewrite Ho, Hend. by destruct (Z.leb_spec (ivalue h) 0); [|lia].
  - destruct (Z.to_nat (ivalue h)) as [|n] eqn:Hn; [lia|]. eapply rtc_l; [|by apply repeat_loop].
    exists h. split; [by apply list_lookup_middle|]. unfold vm_step. cbn [fst snd]. rewrite Ho, Hend.
    destruct (Z.leb_spec (ivalue h) 0); [lia|]. destruct (Nat.leb_spec REPEAT_STACK (length stack)); [lia|].
    by replace (ivalue h) with (Z.of_nat (S n)) by lia.
Qed.
End Body.

(** Every tree runs as its meaning says. *)
Lemma runs_tree node c : gen node = Some c → runs c (repeat_depth node) (exec_tree node).
Proof.
  revert c. induction node as [t v l r b n IHb IHn] using ASTNode_chain_ind. intros c Hgen.
  assert (Hptr : ∀ p c, on_ptr (λ node, ∀ c, gen node = Some c → runs c (repeat_depth node) (exec_tree node)) p →
    gen_ptr p = Some c → runs c (depth_ptr p) (exec_ptr p))
    by (intros [m|] c0 HP; [apply HP|intros [= <-]; apply runs_nil]).
  pose proof (Hptr b) as Hb. pose proof (Hptr n) as Hn. clear Hptr.
  apply gen_split in Hgen as (here & later & -> & Hlater & Hhere). specialize (Hn _ IHn Hlater).
  destruct Hhere as [(Ht & h & body & Hh & Hbody & ->)|[(_ & Ht & Hbody)|(Ht & Ht' & i & Hi & ->)]].
  - pose proof (scan_gen_ptr b body Hbody) as Hscan. specialize (Hb _ IHb Hbody).
    destruct t; try done; cbn [head_ins] in Hh.
    + pose proof Hh as Hop. destruct (check_args l) as [[[a1 a2] val]|] eqn:Hargs; [|done]. apply ins_op in Hop as [Hop _].
      pose proof (runs_app _ _ _ _ _ _ (runs_check h body _ _ Hb Hscan Hop) Hn) as Hall.
      intros pre post stack s Hd Hst. specialize (Hall pre post stack s Hd Hst).
      cbn [exec_tree head_ins]. rewrite Hargs, Hh. exact Hall.
    + destruct (atoi v) as [val|] eqn:Hatoi; [|done]. apply ins_op in Hh as [Hop Hval].
      pose proof (runs_app _ _ _ _ _ _ (runs_repeat h body _ _ Hb Hscan Hop) Hn) as Hall. rewrite Hval in Hall.
      intros pre post stack s Hd Hst. specialize (Hall pre post stack s Hd Hst).
      cbn [exec_tree]. rewrite Hatoi. exact Hall.
  - destruct t; try done. exact (runs_app _ _ _ _ _ _ (Hb _ IHb Hbody) Hn).
  - assert (runs match i with Some i => [i] | None => [] end 0
      (λ s, match i with Some i => exec_simple rand atof i s | None => s end)) as Hone.
    { destruct i as [i|]; [|apply runs_nil]. pose proof (simple_op _ _ _ _ Hi). by apply runs_simple. }
    pose proof (runs_app _ _ _ _ _ _ Hone Hn) as Hall. intros pre post stack s Hd Hst.
    assert (exec_tree (Node t v l r b n) s =
      exec_ptr n (match i with Some i => exec_simple rand atof i s | None => s end)) as ->
      by (destruct t; try done; cbn [exec_tree]; rewrite Hi; by destruct i).
    apply Hall; [|done]. destruct t; try done; simpl in Hd |- *; exact Hd.
Qed.

(** Running code that runs a transformer. *)
Lemma run_runs c d f s :
  runs c d f → (d <= REPEAT_STACK)%nat →
  ∃ k, ∀ fuel, vm_loop rand atof (k + fuel) c 0 [] s = Halted (f s).
Proof.
  intros Hr Hd. specialize (Hr [] [] [] s). rewrite app_nil_r in Hr. destruct (loop_steps c _ _ (Hr Hd ltac:(done))) as [k Hk].
  exists k. intros fuel. specialize (Hk fuel). cbn [fst snd app length] in Hk. rewrite Hk.
  destruct fuel; simpl; by rewrite lookup_ge_None_2.
Qed.
End Exec.

(** C12 (compiler correctness): when a program compiles without undefined
    behaviour and nests at most 64 repeats, the VM halts on its bytecode, within
    some number of rounds and any larger one, in the state that the meaning of
    the tree gives: variables, qubits, messages, random numbers used and every
    line printed, in order. For every number type, every random sequence and
    every starting state. *)
Theorem compile_correct {F} `{FloatOps F} (rand : nat → Z) (atof : string → F) (node : ASTNode) code (s : vm F) :
  compile node [] = Some code → (repeat_depth node <= REPEAT_STACK)%nat →
  ∃ k, ∀ fuel, run_bytecode rand atof (k + fuel) code s =
    Halted (exec_tree rand atof node (print "=== QBIT NOVA BYTECODE VM ===\n" [] s)).
Proof.
  intros Hc Hd. apply compile_gen in Hc as (c & Hg & ->). apply (run_runs _ _ _ (repeat_depth node)); [|done].
  by apply runs_tree.
Qed.

(** [let x = 3  repeat 2 { check x > 2 { say x } }  qmsg "HI"  encode qmsg] *)
Definition leaf (t : NodeType) (v : string) : option ASTNode := Some (Node t v None None None None).
Definition demo_tree : ASTNode :=
  Node NODE_LET "x" (leaf NODE_NUMBER "3") None None (Some
    (Node NODE_REPEAT "2" None None
       (Some (Node NODE_BLOCK "block" None None
          (Some (Node NODE_CHECK "check"
             (Some (Node NODE_BINOP ">" (leaf NODE_IDENT "x") (leaf NODE_NUMBER "2") None None)) None
             (Some (Node NODE_BLOCK "block" None None
                (Some (Node NODE_SAY "say" (leaf NODE_IDENT "x") None None None)) None)) None)) None))
       (Some (Node NODE_QMSG "qmsg" (leaf NODE_STRING "HI") None None
          (Some (Node NODE_ENCODE_QMSG "qmsg" None None None None)))))).

Definition demo_vm : vm double := Build_vm [] [] EmptyString EmptyString false false false 0 [].
Definition demo_atof (s : string) : double := f_of_Z (digits_value 0 s).

Lemma compile_correct_witness :
  ∃ code k, compile demo_tree [] = Some code ∧
    run_bytecode (λ _, 0) demo_atof k code demo_vm =
      Halted (exec_tree (λ _, 0) demo_atof demo_tree (print "=== QBIT NOVA BYTECODE VM ===\n" [] demo_vm)) ∧
    length (out (exec_tree (λ _, 0) demo_atof demo_tree demo_vm)) = 5%nat.
Proof.
  destruct (compile demo_tree []) as [code|] eqn:Hc; [|vm_compute in Hc; discriminate Hc].
  destruct (compile_correct (λ _, 0) demo_atof demo_tree code demo_vm Hc) as [k Hk]; [vm_compute; lia|].
  exists code, (k + 0)%nat. split; [reflexivity|]. split; [apply Hk|vm_compute; reflexivity].
Defined.
