(* ===== verification/VMProps.v ===== *)
(** * Properties of the bytecode VM

    Invariants that every instruction of any bytecode keeps: the tables stay
    within their arrays with distinct names that fit, the repeat stack within
    its own, the message register decodes to the message, and over the real
    numbers every qubit stays normalised. *)

From Stdlib Require Import ZArith Lia ZifyBool Ascii String Reals Lra.
From stdpp Require Import base list numbers strings.
From S2P Require Import Prelude.
From S2P Require Import Float64.
From S2P Require Import Gates.
From S2P Require Import Kernel.
From S2P Require Import KernelSpec.
From S2P Require Import KernelReal.
From S2P Require Import Outcome.
From S2P Require Import CString.
From S2P Require Import Syntax.
From S2P Require Import ByteVM.
From S2P Require Import CompilerProps.
Open Scope Z_scope.

(** A name or operand that fits its 64 bytes. *)
Definition fits (s : string) : Prop := (String.length s < ARG_BYTES)%nat.
Definition instr_fits (i : Instruction) : Prop := fits (arg1 i) ∧ fits (arg2 i).

(** ** Messages *)

(** The text of a string of bits, eight per character. *)
Definition is_one (c : ascii) : bool := (c =? "1")%char.
Fixpoint decode_bits (bits : string) : string :=
  match bits with
  | String b7 (String b6 (String b5 (String b4 (String b3 (String b2 (String b1 (String b0 rest))))))) =>
      String (Ascii (is_one b0) (is_one b1) (is_one b2) (is_one b3) (is_one b4) (is_one b5) (is_one b6) (is_one b7))
        (decode_bits rest)
  | _ => EmptyString
  end.

Lemma decode_char c rest : decode_bits (char_bits c +:+ rest) = String c (decode_bits rest).
Proof. destruct c as [[] [] [] [] [] [] [] []]; reflexivity. Qed.

Lemma length_char_bits c rest : String.length (char_bits c +:+ rest) = (8 + String.length rest)%nat.
Proof. done. Qed.

(** Encoding a text that fits the register loses nothing. *)
Lemma decode_encode text n :
  (n + 8 * String.length text <= QMSG_MAX_BITS - 9)%nat →
  decode_bits (encode_loop text n) = text ∧ String.length (encode_loop text n) = (8 * String.length text)%nat.
Proof.
  revert n. induction text as [|c text IH]; intros n Hn; [done|]. cbn [encode_loop String.length] in *.
  destruct (Nat.ltb_spec n (QMSG_MAX_BITS - 9)); [|unfold QMSG_MAX_BITS, QMSG_MAX_CHARS in *; lia].
  destruct (IH (n + 8)%nat) as [Hd Hl]; [lia|]. rewrite decode_char, length_char_bits, Hd, Hl. split; [done|lia].
Qed.

(** The message register: encoded only when loaded, measured only when
    encoded, and the bits decode to the text. *)
Record qmsg_ok {F} (s : vm F) : Prop := {
  qm_text : (String.length (qmsg_text s) < QMSG_MAX_CHARS)%nat;
  qm_loaded : qmsg_encoded s = true → qmsg_loaded s = true;
  qm_measured : qmsg_measured s = true → qmsg_encoded s = true;
  qm_bits : qmsg_encoded s = true →
    decode_bits (qmsg_bits s) = qmsg_text s ∧ String.length (qmsg_bits s) = (8 * String.length (qmsg_text s))%nat
}.

(** ** Tables *)

Record vars_ok {F} (vs : list (string * F)) : Prop := {
  va_count : (length vs <= MAX_VM_VARS)%nat;
  va_names : NoDup vs.*1;
  va_fits : Forall fits vs.*1
}.

Record qbits_ok {F} (P : VMQbit F → Prop) (qs : list (VMQbit F)) : Prop := {
  qb_count : (length qs <= MAX_VM_QBITS)%nat;
  qb_names : NoDup (q_name <$> qs);
  qb_fits : Forall fits (q_name <$> qs);
  qb_each : Forall P qs
}.

(** What a property of a qubit needs to survive every operation. *)
Class stable_qbit {F} `{FloatOps F} (P : VMQbit F → Prop) : Prop := {
  sq_set q a b : P q → (∃ st, state_amps st = Some (a, b)) → P (set_qbit q a b false (-1));
  sq_new name : fits name → ∀ a b, (∃ st, state_amps st = Some (a, b)) →
    P (Build_VMQbit name a b false (-1) EmptyString);
  sq_hadamard q : P q → P (hadamard q);
  sq_collapse q r : P q → r = 0 ∨ r = 1 → P (collapse r q);
  sq_entangled q name : P q → fits name → P (set_entangled name q);
  sq_copy q c : P q → P c → P (set_qbit q (q_a c) (q_b c) false 0)
}.

Record vm_ok {F} (P : VMQbit F → Prop) (s : vm F) : Prop := {
  ok_vars : vars_ok (vars s);
  ok_qbits : qbits_ok P (qbits s);
  ok_qmsg : qmsg_ok s
}.

Section Tables.
Context {F : Type} `{FloatOps F} (P : VMQbit F → Prop) `{!stable_qbit P}.
Abbreviation vm := (vm F).

Lemma find_var_lookup name (vs : list (string * F)) i x :
  find_var name vs = Some (i, x) → vs !! i = Some (name, x).
Proof.
  revert i. induction vs as [|[n y] vs IH]; intros i; simpl; [done|].
  destruct (String.eqb_spec n name) as [->|]; [by intros [= <- <-]|].
  destruct (find_var name vs) as [[k z]|]; [|done]. cbn [mbind option_bind]. intros [= <- <-]. by apply IH.
Qed.

Lemma find_var_none name (vs : list (string * F)) : find_var name vs = None → name ∉ vs.*1.
Proof.
  induction vs as [|[n y] vs IH]; simpl; [intros _; apply not_elem_of_nil|].
  destruct (String.eqb_spec n name); [done|]. destruct (find_var name vs) as [[]|]; [done|].
  intros _. apply not_elem_of_cons. auto.
Qed.

Lemma set_var_ok name x (s : vm) : fits name → vars_ok (vars s) → vars_ok (vars (set_var name x s)).
Proof.
  intros Hf [Hc Hn Hv]. unfold set_var. destruct (find_var name (vars s)) as [[i y]|] eqn:Hfind.
  - apply find_var_lookup in Hfind. simpl.
    assert ((<[i:=(name, x)]> (vars s)).*1 = (vars s).*1) as Heq.
    { rewrite list_fmap_insert. apply list_insert_id. by rewrite list_lookup_fmap, Hfind. }
    split; rewrite ?length_insert, ?Heq; done.
  - apply find_var_none in Hfind. destruct (Nat.leb_spec MAX_VM_VARS (length (vars s))); [done|]. simpl.
    split; rewrite ?length_app, ?fmap_app; simpl; [lia| |by apply Forall_app; auto].
    apply NoDup_app. split_and!; [done| |apply NoDup_singleton].
    intros z Hz ->%list_elem_of_singleton. done.
Qed.

Lemma find_qbit_lookup name (qs : list (VMQbit F)) i :
  find_qbit name qs = Some i → ∃ q, qs !! i = Some q ∧ q_name q = name.
Proof.
  revert i. induction qs as [|q qs IH]; intros i; simpl; [done|].
  destruct (String.eqb_spec (q_name q) name); [intros [= <-]; eauto|].
  destruct (find_qbit name qs) as [k|]; [|done]. simpl. intros [= <-]. by apply IH.
Qed.

Lemma find_qbit_none name (qs : list (VMQbit F)) : find_qbit name qs = None → name ∉ (q_name <$> qs).
Proof.
  induction qs as [|q qs IH]; simpl; [intros _; apply not_elem_of_nil|].
  destruct (String.eqb_spec (q_name q) name); [done|]. destruct (find_qbit name qs); [done|].
  intros _. apply not_elem_of_cons. auto.
Qed.

(** Changing one qubit, but not its name. *)
Lemma alter_ok f i (qs : list (VMQbit F)) :
  (∀ q, qs !! i = Some q → P q → P (f q)) → (∀ q, q_name (f q) = q_name q) →
  qbits_ok P qs → qbits_ok P (alter f i qs).
Proof.
  intros Hf Hname [Hc Hn Hfit Hp].
  assert (q_name <$> alter f i qs = q_name <$> qs) as Heq.
  { apply list_eq. intros k. rewrite !list_lookup_fmap. destruct (decide (i = k)) as [<-|].
    - rewrite list_lookup_alter_eq. destruct (qs !! i); simpl; [by rewrite Hname|done].
    - by rewrite list_lookup_alter_ne. }
  split; rewrite ?length_alter, ?Heq; try done.
  apply Forall_lookup. intros k q. destruct (decide (i = k)) as [<-|].
  - rewrite list_lookup_alter_eq. destruct (qs !! i) as [q0|] eqn:Hq; [|done]. simpl. intros [= <-].
    apply Hf; [done|]. by eapply Forall_lookup_1.
  - rewrite list_lookup_alter_ne by done. intros Hk. by eapply Forall_lookup_1.
Qed.

Lemma insert_ok i q q' (qs : list (VMQbit F)) :
  qs !! i = Some q → P q' → q_name q' = q_name q → qbits_ok P qs → qbits_ok P (<[i := q']> qs).
Proof.
  intros Hq Hp Hname [Hc Hn Hfit Hps].
  assert (q_name <$> <[i := q']> qs = q_name <$> qs) as Heq.
  { rewrite list_fmap_insert. apply list_insert_id. rewrite list_lookup_fmap, Hq. simpl. by rewrite Hname. }
  split; rewrite ?length_insert, ?Heq; try done. by apply Forall_insert.
Qed.
End Tables.

(** ** Every operation keeps the invariant *)

Section Ops.
Context {F : Type} `{FloatOps F} (P : VMQbit F → Prop) `{!stable_qbit P}.
Context (rand : nat → Z) (atof : string → F).
Abbreviation vm := (vm F).
Abbreviation ok := (vm_ok P).

Lemma print_ok fmt l (s : vm) : ok s → ok (print fmt l s).
Proof. intros [Hv Hq [? ? ? ?]]. by split. Qed.

Lemma with_qbits_ok qs (s : vm) : ok s → qbits_ok P qs → ok (with_qbits qs s).
Proof. intros [Hv _ [? ? ? ?]] Hq. by split. Qed.

Lemma alter_last {A} (f : A → A) (l : list A) x : alter f (length l) (l ++ [x]) = l ++ [f x].
Proof. induction l as [|y l IH]; [done|]. simpl. by f_equal. Qed.

Lemma amps_state st : ∃ st' (a b : F), state_amps st' = Some (a, b) ∧
  match state_amps st with Some (a', b') => a' = a ∧ b' = b | None => a = f_one ∧ b = f_zero end.
Proof.
  destruct (state_amps st) as [[a b]|] eqn:Hst; [by exists st, a, b|].
  exists "|0>"%string, f_one, f_zero. done.
Qed.

Lemma create_qbit_ok name st (s : vm) : fits name → ok s → ok (create_qbit name st s).
Proof using All.
  intros Hf Hok. unfold create_qbit. destruct (amps_state st) as (st' & a & b & Hst & Hcase).
  assert (Hfin : ∀ i (s' : vm), ok s' → (∀ q, qbits s' !! i = Some q → P q) →
    ok (let '(a, b, s') := match state_amps st with Some (a, b) => (a, b, s')
        | None => (f_one, f_zero, print "[VM ERROR] unknown qbit state: %s\n" [AStr st] s') end in
        with_qbits (alter (λ q, set_qbit q a b false (-1)) i (qbits s')) s')).
  { intros i s' Hs' Hi. destruct (state_amps st) as [[a' b']|]; destruct Hcase as [-> ->]; simpl.
    - apply with_qbits_ok; [done|]. apply alter_ok; [|done|apply Hs']. intros q Hq _. apply sq_set; eauto.
    - apply with_qbits_ok; [by apply print_ok|]. apply alter_ok; [|done|apply Hs']. intros q Hq _. apply sq_set; eauto. }
  pose proof (ok_qbits _ _ Hok) as [Hc Hn Hfit Hp].
  destruct (find_qbit name (qbits s)) as [i|] eqn:Hfind.
  - apply Hfin; [done|]. intros q Hq. by eapply Forall_lookup_1.
  - apply find_qbit_none in Hfind. destruct (Nat.leb_spec MAX_VM_QBITS (length (qbits s))); [by apply print_ok|].
    clear Hfin. assert (Hnew : qbits_ok P (qbits s ++ [Build_VMQbit name a b false (-1) EmptyString])).
    { split; rewrite ?length_app, ?fmap_app; simpl; [lia| |by apply Forall_app; auto|].
      - apply NoDup_app. split_and!; [done| |apply NoDup_singleton]. intros z Hz ->%list_elem_of_singleton. done.
      - apply Forall_app. split; [done|]. apply Forall_singleton. apply sq_new; eauto. }
    destruct (state_amps st) as [[a' b']|]; destruct Hcase as [-> ->]; cbn [with_qbits print qbits];
      rewrite alter_last; cbn [set_qbit q_name q_entangled]; destruct Hok as [? _ [? ? ? ?]]; by split.
Qed.

Lemma link_ok i j name_i name_j (qs : list (VMQbit F)) :
  fits name_i → fits name_j → qbits_ok P qs → qbits_ok P (link i j name_i name_j qs).
Proof using All.
  intros Hi Hj Hq. unfold link.
  assert (qbits_ok P (alter (set_entangled name_i) j (alter (set_entangled name_j) i qs))) as Hq2.
  { apply alter_ok; [intros q _; by intros; apply sq_entangled|done|].
    apply alter_ok; [intros q _; by intros; apply sq_entangled|done|done]. }
  destruct (_ !! i) as [c|] eqn:Hc; [|done]. apply alter_ok; [|done|done]. intros q _ HPq. apply sq_copy; [done|].
  eapply Forall_lookup_1; [apply Hq2|exact Hc].
Qed.

Lemma collapse_name r (q : VMQbit F) : q_name (collapse r q) = q_name q.
Proof. unfold collapse. by destruct (_ =? _). Qed.

Lemma measure_ok i (s : vm) :
  ok s → ok (measure rand i s) ∧ ∀ q, qbits (measure rand i s) !! i = Some q → q_result q = 0 ∨ q_result q = 1.
Proof using All.
  intros Hok. unfold measure. destruct (qbits s !! i) as [q|] eqn:Hq; [|by rewrite Hq].
  set (r := if f_ltb _ _ then 1 else 0). assert (r = 0 ∨ r = 1) as Hr by (unfold r; destruct (f_ltb _ _); auto).
  clearbody r. pose proof (ok_qbits _ _ Hok) as [_ _ _ Hp]. split.
  - assert (qbits_ok P (<[i := collapse r q]> (qbits s))) as Hq'.
    { eapply insert_ok; [exact Hq| |apply collapse_name|apply Hok]. apply sq_collapse; [by eapply Forall_lookup_1|done]. }
    destruct Hok as [? _ [? ? ? ?]]. by split.
  - cbn [with_rands with_qbits qbits]. intros q'. rewrite list_lookup_insert_eq by (by eapply lookup_lt_Some).
    intros [= <-]. unfold collapse. destruct (r =? 0); done.
Qed.

Lemma measure_linked_ok i (s : vm) : ok s → ok (measure_linked rand i s).
Proof using All.
  intros Hok. unfold measure_linked. destruct (measure_ok i s Hok) as [Hok' Hres].
  destruct (qbits (measure rand i s) !! i) as [q|] eqn:Hq; [|done]. specialize (Hres q eq_refl).
  destruct (q_entangled q =? EmptyString)%string; [done|].
  destruct (find_qbit _ _) as [j|]; [|done]. destruct (_ !! j) as [partner|] eqn:Hj; [|done].
  apply print_ok, with_qbits_ok; [done|]. pose proof (ok_qbits _ _ Hok') as Hqs.
  eapply insert_ok; [exact Hj| |apply collapse_name|done]. apply sq_collapse; [|done].
  eapply Forall_lookup_1; [apply Hqs|exact Hj].
Qed.

Lemma register_loop_ok bits i len (s : vm) : ok s → ok (register_loop bits i len s).
Proof.
  revert i s. induction bits as [|c bits IH]; intros i s Hok; [done|]. simpl. apply IH.
  destruct (_ || _); by do 2 apply print_ok.
Qed.

Lemma qmsg_set_ok m (s : vm) : ok s → ok (qmsg_set m s).
Proof.
  intros Hok. unfold qmsg_set. destruct (_ =? _)%string; [by apply print_ok|]. apply print_ok.
  destruct Hok as [? ? _]. split; [done|done|]. split; try done.
  eapply Nat.le_lt_trans; [apply length_str_take|]. unfold QMSG_MAX_CHARS. lia.
Qed.

Lemma qmsg_encode_ok (s : vm) : ok s → ok (qmsg_encode s).
Proof.
  intros Hok. unfold qmsg_encode. destruct (qmsg_loaded s) eqn:Hl; [|by apply print_ok]. do 2 apply print_ok.
  destruct Hok as [? ? [Ht _ _ _]]. split; [done|done|]. split; cbn; try done. intros _. apply decode_encode.
  unfold QMSG_MAX_BITS, QMSG_MAX_CHARS in *. lia.
Qed.

Lemma qmsg_measure_ok (s : vm) : ok s → ok (qmsg_measure s).
Proof.
  intros Hok. unfold qmsg_measure. destruct (qmsg_encoded s) eqn:He; [|by apply print_ok]. apply print_ok.
  destruct Hok as [? ? [Ht Hl Hm Hb]]. split; [done|done|]. split; cbn; try done; by rewrite He in *.
Qed.

Lemma exec_simple_ok i (s : vm) : instr_fits i → ok s → ok (exec_simple rand atof i s).
Proof using All.
  intros [H1 H2] Hok. unfold exec_simple. destruct (op i); try done.
  - unfold vm_say, qmsg_print_register. destruct (_ =? _)%string; [|].
    + destruct (qmsg_encoded s); [|by apply print_ok]. by apply register_loop_ok, print_ok.
    + destruct (_ ≫= _); [unfold print_qbit; destruct (q_measured _); by apply print_ok|].
      destruct (find_var _ _) as [[]|]; by apply print_ok.
  - pose proof (set_var_ok (arg1 i) (atof (arg2 i)) s H1 (ok_vars _ _ Hok)) as Hv. revert Hv. unfold set_var.
    destruct (find_var _ _) as [[j y]|]; [|destruct (_ <=? _)%nat; [intros _; by apply print_ok|]];
      intros Hv; destruct Hok as [_ ? [? ? ? ?]]; by split.
  - by apply create_qbit_ok.
  - destruct (find_qbit _ _) as [j|]; [|by apply print_ok]. apply with_qbits_ok; [done|].
    apply alter_ok; [|done|apply Hok]. intros q _. apply sq_hadamard.
  - destruct (_ =? _)%string; [by apply qmsg_measure_ok|]. destruct (find_qbit _ _) as [j|]; [|by apply print_ok].
    by apply measure_linked_ok.
  - unfold entangle_qbits. destruct (find_qbit (arg1 i) _) as [j|]; [|by apply print_ok].
    destruct (find_qbit (arg2 i) _) as [k|]; [|by apply print_ok]. apply print_ok, with_qbits_ok; [done|].
    apply link_ok; try done. apply Hok.
  - unfold cnot_qbits. destruct (find_qbit (arg1 i) _) as [j|]; [|by apply print_ok].
    destruct (find_qbit (arg2 i) _) as [k|]; [|by apply print_ok]. apply print_ok, with_qbits_ok; [done|].
    apply link_ok; try done. apply Hok.
  - unfold run_safe_action. destruct (adapter_dispatch_safe _) as [[] line]; by repeat apply print_ok.
  - by apply qmsg_set_ok.
  - destruct (_ =? _)%string; [by apply qmsg_encode_ok|by apply print_ok].
  - destruct (_ =? _)%string; [|by apply print_ok]. unfold qmsg_decode.
    destruct (qmsg_encoded s); [|by apply print_ok]. destruct (qmsg_measured s); by repeat apply print_ok.
Qed.

Lemma check_pass_ok i (s : vm) : ok s → ok (check_pass i s).2.
Proof.
  intros Hok. unfold check_pass. destruct (find_var _ _) as [[j y]|]; [|by apply print_ok].
  repeat (destruct (_ =? _)%string; [done|]). by apply print_ok.
Qed.

(** The state of an outcome, and its repeat stack. *)
Definition outcome_ok (o : vm_outcome) : Prop :=
  match o with
  | Halted s => ok s
  | Running _ stack s => ok s ∧ (length stack <= REPEAT_STACK)%nat
  end.

Lemma vm_loop_ok fuel code pc stack (s : vm) :
  Forall instr_fits code → ok s → (length stack <= REPEAT_STACK)%nat →
  outcome_ok (vm_loop rand atof fuel code pc stack s).
Proof using All.
  intros Hcode. revert pc stack s. induction fuel as [|fuel IH]; intros pc stack s Hok Hst; simpl.
  all: destruct (code !! pc) as [i|] eqn:Hi; [|done]; try done.
  assert (instr_fits i) as Hfit by by eapply Forall_lookup_1.
  assert (Hsimple : ok (exec_simple rand atof i s)) by by apply exec_simple_ok.
  unfold vm_step. destruct (op i); try by apply IH.
  - pose proof (check_pass_ok i s Hok) as Hc. destruct (check_pass i s) as [pass s']. by apply IH.
  - destruct (find_end _ _ _) as [e|]; [|by apply print_ok]. destruct (_ <=? 0); [by apply IH|].
    destruct (Nat.leb_spec REPEAT_STACK (length stack)); [by apply print_ok|]. apply IH; [done|]. simpl. lia.
  - destruct stack as [|top rest]; [by apply IH|]. destruct (pc =? repeat_end top)%nat; [|by apply IH].
    destruct (0 <? _); apply IH; simpl in *; try done; lia.
  - by apply print_ok.
Qed.
End Ops.

(** ** Qubits of the tables *)

(** A qubit of the table: the name of its partner fits, and once measured it
    is in the basis state of its result. *)
Definition qbit_ok {F} `{FloatOps F} (q : VMQbit F) : Prop :=
  fits (q_entangled q) ∧
  (q_measured q = true → q_result q = 0 ∧ q_a q = f_one ∧ q_b q = f_zero ∨
                         q_result q = 1 ∧ q_a q = f_zero ∧ q_b q = f_one).

#[export] Instance qbit_ok_stable {F} `{FloatOps F} : stable_qbit qbit_ok.
Proof.
  unfold qbit_ok. split; simpl.
  - by intros q a b [? _] _.
  - intros name _ a b _. split; [|done]. unfold fits, ARG_BYTES. simpl. lia.
  - by intros q [? _].
  - intros q r [? _] [->| ->]; simpl; auto.
  - by intros q name [_ ?] ?.
  - by intros q c [? _] _.
Qed.

(** The tables before the first instruction. *)
Definition initial_vm {F} : vm F := Build_vm [] [] EmptyString EmptyString false false false 0 [].

Lemma initial_vm_ok {F} (P : VMQbit F → Prop) : vm_ok P initial_vm.
Proof.
  split; simpl; split; simpl; unfold MAX_VM_VARS, MAX_VM_QBITS, QMSG_MAX_CHARS; try done; try lia; constructor.
Qed.

(** C40 (VM safety): on any bytecode whose operands fit, after any number of
    rounds from the initial state, at most 64 variables and 32 qubits exist,
    with distinct names that fit their 64 bytes, so no [strcpy] overruns; the
    repeat stack holds at most 64 loops; a measured qubit is in the basis state
    of its result; and an encoded message register holds eight bits per
    character that decode to the message. *)
Theorem vm_safe {F} `{FloatOps F} (rand : nat → Z) (atof : string → F) fuel code :
  Forall instr_fits code →
  outcome_ok qbit_ok
    (run_bytecode rand atof fuel code initial_vm).
Proof.
  intros Hcode. apply vm_loop_ok; [apply _|done| |simpl; lia]. apply print_ok, initial_vm_ok.
Qed.

Definition demo_code : list Instruction := default [] (Compiler.compile demo_tree []).

Lemma vm_safe_witness :
  outcome_ok qbit_ok (run_bytecode (λ _, 0) demo_atof 100 demo_code demo_vm).
Proof.
  apply (vm_safe (λ _, 0) demo_atof 100 demo_code).
  unfold demo_code. vm_compute. repeat constructor.
Defined.

(** ** Over the reals *)

Definition unit_qbit (q : VMQbit R) : Prop := (q_a q * q_a q + q_b q * q_b q = 1)%R.

Lemma sqrt2_sq : (sqrt 2 * sqrt 2 = 2)%R.
Proof. apply sqrt_sqrt. lra. Qed.

Lemma sqrt2_pos : (0 < sqrt 2)%R.
Proof. apply sqrt_lt_R0. lra. Qed.

Lemma state_amps_unit st (a b : R) : state_amps st = Some (a, b) → (a * a + b * b = 1)%R.
Proof.
  pose proof inv_sqrt2_sq as Hs. pose proof sqrt2_sq as Hq. pose proof sqrt2_pos as Hp. unfold state_amps.
  destruct (_ =? _)%string; [intros [= <- <-]; unfold f_one, f_zero; simpl; lra|].
  destruct (_ =? _)%string; [intros [= <- <-]; unfold f_one, f_zero; simpl; lra|].
  unfold inv_sqrt2 in *. cbn in *.
  destruct (_ =? _)%string; [intros [= <- <-]; lra|].
  destruct (_ =? _)%string; [|done]. intros [= <- <-].
  replace (-1 / sqrt 2 * (-1 / sqrt 2))%R with (1 / sqrt 2 * (1 / sqrt 2))%R by (field; lra). lra.
Qed.

#[export] Instance unit_qbit_stable : stable_qbit unit_qbit.
Proof.
  unfold unit_qbit. split; simpl.
  - intros q a b _ [st Hst]. by eapply state_amps_unit.
  - intros name _ a b [st Hst]. by eapply state_amps_unit.
  - intros q Hq. pose proof sqrt2_sq as Hs. pose proof sqrt2_pos as Hp.
    transitivity ((2 * (q_a q * q_a q + q_b q * q_b q)) / (sqrt 2 * sqrt 2))%R; [field; lra|].
    rewrite Hq, Hs. field.
  - intros q r _ [->| ->]; cbn [collapse Z.eqb Pos.eqb set_qbit q_a q_b]; unfold f_one, f_zero; simpl; lra.
  - done.
  - done.
Qed.

(** Normalised qubits: in exact real arithmetic, after any number of rounds
    of any bytecode, every qubit of the table has [a^2 + b^2 = 1]. *)
Theorem vm_normalised (rand : nat → Z) (atof : string → R) fuel code :
  Forall instr_fits code →
  match run_bytecode rand atof fuel code initial_vm with
  | Halted s | Running _ _ s => ∀ i q, qbits s !! i = Some q → (q_a q * q_a q + q_b q * q_b q = 1)%R
  end.
Proof.
  intros Hcode. assert (outcome_ok unit_qbit (run_bytecode rand atof fuel code initial_vm)) as Hok
    by (apply vm_loop_ok; [apply _|done|apply print_ok, initial_vm_ok|simpl; lia]).
  assert (∀ s, vm_ok unit_qbit s → ∀ i q, qbits s !! i = Some q → (q_a q * q_a q + q_b q * q_b q = 1)%R) as Hall
    by (intros s [_ Hq _] i q Hi; exact (Forall_lookup_1 _ _ _ _ (qb_each _ _ Hq) Hi)).
  destruct (run_bytecode _ _ _ _ _) as [s|pc stack s]; [by apply Hall|]. destruct Hok. by apply Hall.
Qed.

(** [qbit q = |0>  hadamard q  qbit p = |1>  cnot q p] *)
Definition bell_code : list Instruction := [
  {| op := OP_QBIT; arg1 := "q"; arg2 := "|0>"; ivalue := 0 |};
  {| op := OP_HADAMARD; arg1 := "q"; arg2 := ""; ivalue := 0 |};
  {| op := OP_QBIT; arg1 := "p"; arg2 := "|1>"; ivalue := 0 |};
  {| op := OP_CNOT; arg1 := "q"; arg2 := "p"; ivalue := 0 |}
]%string.

Lemma vm_normalised_witness :
  match run_bytecode (λ _, 0) (λ _, 0%R) 9 bell_code initial_vm with
  | Halted s | Running _ _ s => ∀ i q, qbits s !! i = Some q → (q_a q * q_a q + q_b q * q_b q = 1)%R
  end.
Proof.
  apply (vm_normalised (λ _, 0) (λ _, 0%R) 9 bell_code).
  unfold bell_code, instr_fits, fits, ARG_BYTES. repeat constructor; simpl; lia.
Defined.

(** ** CNOT *)

(** The VM's CNOT copies: for every number type, CNOT on two different
    qubits overwrites the target with the amplitudes of the control, whatever
    the target was; so with the control in [|0>] a target in [|1>] becomes
    [|0>], where a controlled NOT leaves it alone. *)
Theorem cnot_copies {F} `{FloatOps F} (s : vm F) control target i j c t :
  find_qbit control (qbits s) = Some i → find_qbit target (qbits s) = Some j → i ≠ j →
  qbits s !! i = Some c → qbits s !! j = Some t →
  ∃ t', qbits (cnot_qbits control target s) !! j = Some t' ∧ q_a t' = q_a c ∧ q_b t' = q_b c ∧
    q_name t' = q_name t ∧ q_entangled t' = control.
Proof.
  intros Hi Hj Hne Hc Ht. unfold cnot_qbits. rewrite Hi, Hj. cbn [print with_qbits qbits]. unfold link.
  rewrite list_lookup_alter_ne, list_lookup_alter_eq, Hc by done. cbn [fmap option_fmap option_map].
  rewrite !list_lookup_alter_eq, list_lookup_alter_ne, Ht by done. eexists. split; [reflexivity|]. done.
Qed.

(** A control in [|0>] and a target in [|1>]. *)
Definition zero_one : vm double :=
  create_qbit "p" "|1>" (create_qbit "q" "|0>" initial_vm).

Lemma cnot_copies_witness :
  ∃ t', qbits (cnot_qbits "q" "p" zero_one) !! 1%nat = Some t' ∧ q_a t' = f_one ∧ q_b t' = f_zero.
Proof.
  destruct (cnot_copies zero_one "q" "p" 0 1 (Build_VMQbit "q" f_one f_zero false (-1) EmptyString)
    (Build_VMQbit "p" f_zero f_one false (-1) EmptyString)) as (t' & H1 & H2 & H3 & _);
    [reflexivity|reflexivity|lia|reflexivity|reflexivity|].
  exists t'. split; [exact H1|]. split; [exact H2|exact H3].
Defined.
