(* ===== verification/State2.v ===== *)
(** * Two qubits

    [src/quantum/state2.c] and its VM [src/vm/state2_vm.c]: a state of two
    qubits as four real amplitudes, H on the first qubit, CNOT from the first
    to the second, measurement, and the VM that runs bytecode on it. The local
    variables of [run_state2_bytecode] are the record [s2vm]; [rand] is the
    sequence of results of [rand()]. [None] is undefined behaviour (an access
    outside the four amplitudes). *)

From Stdlib Require Import ZArith Lia ZifyBool Ascii String.
From stdpp Require Import base list numbers strings.
From S2P Require Import Prelude.
From S2P Require Import Float64.
From S2P Require Import Outcome.
From S2P Require Import Syntax.
From S2P Require Import ByteVM.
Open Scope Z_scope.

Record QState2 (F : Type) := { s2_amp : list F; s2_measured : bool; s2_result : Z }.
Arguments Build_QState2 {F}.
Arguments s2_amp {F}.
Arguments s2_measured {F}.
Arguments s2_result {F}.

Record s2vm (F : Type) := {
  v_state : QState2 F;
  v_q0 : string;
  v_q1 : string;
  v_qcount : Z;
  v_measured : bool;
  v_bit0 : Z;
  v_bit1 : Z;
  v_rands : nat;
  v_out : list (output F)
}.
Arguments Build_s2vm {F}.
Arguments v_state {F}.
Arguments v_q0 {F}.
Arguments v_q1 {F}.
Arguments v_qcount {F}.
Arguments v_measured {F}.
Arguments v_bit0 {F}.
Arguments v_bit1 {F}.
Arguments v_rands {F}.
Arguments v_out {F}.

Section State2.
Context {F : Type} `{FloatOps F} (rand : nat → Z).
Abbreviation state := (QState2 F).
Abbreviation machine := (s2vm F).

(** ** The state *)

(** [s] points to storage whose flags and result are given; the four
    amplitudes are written by the loop and the assignment after it. *)
Definition qstate2_init_00 : state := Build_QState2 (<[0%nat := f_one]> (replicate 4 f_zero)) false 0.

Definition qstate2_h_first (s : state) : option state :=
  a00 ← s2_amp s !! 0%nat;
  a01 ← s2_amp s !! 1%nat;
  a10 ← s2_amp s !! 2%nat;
  a11 ← s2_amp s !! 3%nat;
  let amp := <[0%nat := f_div (f_add a00 a10) (f_sqrt (f_of_Z 2))]> (s2_amp s) in
  let amp := <[2%nat := f_div (f_sub a00 a10) (f_sqrt (f_of_Z 2))]> amp in
  let amp := <[1%nat := f_div (f_add a01 a11) (f_sqrt (f_of_Z 2))]> amp in
  let amp := <[3%nat := f_div (f_sub a01 a11) (f_sqrt (f_of_Z 2))]> amp in
  Some (Build_QState2 amp false (s2_result s)).

Definition qstate2_cnot_first_to_second (s : state) : option state :=
  temp ← s2_amp s !! 2%nat;
  other ← s2_amp s !! 3%nat;
  Some (Build_QState2 (<[3%nat := temp]> (<[2%nat := other]> (s2_amp s))) false (s2_result s)).

(** One round of the search: the first index whose cumulative probability
    reaches [r]. *)
Definition pick_body (amp : list F) (r : F) (i : nat) (acc : F) : option (ctl F Z) :=
  x ← amp !! i;
  let acc := f_add acc (f_mul x x) in
  Some (if f_leb r acc then Stop (Z.of_nat i) else Next acc).

(** The new state and the picked index, with the [k]-th result of [rand]. *)
Definition qstate2_measure (k : nat) (s : state) : option (state * Z) :=
  let r := f_div (f_of_Z (rand k)) (f_of_Z RAND_MAX) in
  c ← for_ctl (pick_body (s2_amp s) r) 0 4 f_zero;
  let picked := match c with Stop i => i | Next _ => 3 end in
  if (length (s2_amp s) <? 4)%nat || (picked <? 0) then None
  else
    let amp := <[Z.to_nat picked := f_one]> (replicate 4 f_zero ++ drop 4 (s2_amp s)) in
    Some (Build_QState2 amp true picked, picked).

Definition state_names : list string := ["|00>"; "|01>"; "|10>"; "|11>"]%string.

Definition qstate2_print (s : state) : option (output F) :=
  if s2_measured s then
    if s2_result s <? 0 then None
    else name ← state_names !! Z.to_nat (s2_result s); Some (Print "%s\n" [AStr name])
  else
    a00 ← s2_amp s !! 0%nat;
    a01 ← s2_amp s !! 1%nat;
    a10 ← s2_amp s !! 2%nat;
    a11 ← s2_amp s !! 3%nat;
    Some (Print "|00>=%.3f |01>=%.3f |10>=%.3f |11>=%.3f\n" [ADbl a00; ADbl a01; ADbl a10; ADbl a11]).

(** ** The VM *)

Definition same_name (a b : string) : bool := (a =? b)%string.

Definition say (o : list (output F)) (v : machine) : machine :=
  Build_s2vm (v_state v) (v_q0 v) (v_q1 v) (v_qcount v) (v_measured v) (v_bit0 v) (v_bit1 v) (v_rands v) (v_out v ++ o).
Definition with_state (s : state) (v : machine) : machine :=
  Build_s2vm s (v_q0 v) (v_q1 v) (v_qcount v) (v_measured v) (v_bit0 v) (v_bit1 v) (v_rands v) (v_out v).
Definition with_names (q0 q1 : string) (qcount : Z) (v : machine) : machine :=
  Build_s2vm (v_state v) q0 q1 qcount (v_measured v) (v_bit0 v) (v_bit1 v) (v_rands v) (v_out v).
Definition with_bits (bit0 bit1 : Z) (v : machine) : machine :=
  Build_s2vm (v_state v) (v_q0 v) (v_q1 v) (v_qcount v) true bit0 bit1 (S (v_rands v)) (v_out v).

(** A qubit's bit after a measurement, the whole state before. *)
Definition say_qubit (bit : Z) (v : machine) : option machine :=
  if v_measured v then Some (say [Print "|%d>\n" [AInt bit]] v)
  else line ← qstate2_print (v_state v); Some (say [line] v).

(** One instruction. *)
Definition state2_step (ins : Instruction) (v : machine) : option machine :=
  match op ins with
  | OP_SAY =>
      if same_name (arg1 ins) (v_q0 v) then say_qubit (v_bit0 v) v
      else if same_name (arg1 ins) (v_q1 v) then say_qubit (v_bit1 v) v
      else Some (say [Print "%s\n" [AStr (arg1 ins)]] v)
  | OP_QBIT =>
      if v_qcount v =? 0 then
        Some (say [Print "[STATE2] qbit %s mapped as first qbit\n" [AStr (arg1 ins)]]
          (with_names (arg1 ins) (v_q1 v) (v_qcount v + 1) v))
      else if v_qcount v =? 1 then
        Some (say [Print "[STATE2] qbit %s mapped as second qbit\n" [AStr (arg1 ins)]]
          (with_names (v_q0 v) (arg1 ins) (v_qcount v + 1) v))
      else Some (say [Print "[STATE2 WARN] only 2 qbits supported: %s\n" [AStr (arg1 ins)]] v)
  | OP_HADAMARD =>
      if same_name (arg1 ins) (v_q0 v) then
        s ← qstate2_h_first (v_state v);
        line ← qstate2_print s;
        Some (say [Print "[STATE2] H(%s) " [AStr (arg1 ins)]; line] (with_state s v))
      else Some (say [Print "[STATE2 TODO] H currently supports first qbit only: %s\n" [AStr (arg1 ins)]] v)
  | OP_CNOT =>
      if same_name (arg1 ins) (v_q0 v) && same_name (arg2 ins) (v_q1 v) then
        s ← qstate2_cnot_first_to_second (v_state v);
        line ← qstate2_print s;
        Some (say [Print "[STATE2] CNOT %s,%s " [AStr (arg1 ins); AStr (arg2 ins)]; line] (with_state s v))
      else
        Some (say [Print "[STATE2 TODO] CNOT currently supports first -> second only: %s %s\n"
          [AStr (arg1 ins); AStr (arg2 ins)]] v)
  | OP_MEASURE =>
      '(s, result) ← qstate2_measure (v_rands v) (v_state v);
      line ← qstate2_print s;
      Some (say [Print "[STATE2] MEASURE pair " []; line]
        (with_bits (Z.land (Z.shiftr result 1) 1) (Z.land result 1) (with_state s v)))
  | _ => Some v
  end.

Fixpoint state2_loop (code : list Instruction) (v : machine) : option machine :=
  match code with
  | [] => Some v
  | ins :: code => v ← state2_step ins v; state2_loop code v
  end.

(** The locals when the loop starts; [rands] results of [rand] have been used
    before. *)
Definition state2_start (rands : nat) : machine :=
  say [Print "\n=== QBIT NOVA STATE2 VM ===\n" []]
    (Build_s2vm qstate2_init_00 EmptyString EmptyString 0 false 0 0 rands []).

Definition run_state2_bytecode (rands : nat) (code : list Instruction) : option machine :=
  state2_loop code (state2_start rands).
End State2.
