(* ===== verification/State2Props.v ===== *)
(** * Properties of the two-qubit simulator

    Over the real numbers the two-qubit state is the kernel's state of two
    qubits, whatever bytecode the VM runs. Over every number type with the
    facts of [BellFloat], binary64 included, the Bell program measures equal
    bits. Two defects: declared states are ignored, and a random number of
    zero picks [|00>] even when it is impossible. *)

From Stdlib Require Import ZArith Lia ZifyBool Ascii String Reals Lra.
From stdpp Require Import base list numbers strings.
From S2P Require Import Prelude.
From S2P Require Import Float64.
From S2P Require Import Gates.
From S2P Require Import Kernel.
From S2P Require Import KernelSpec.
From S2P Require Import KernelReal.
From S2P Require Import Outcome.
From S2P Require Import Syntax.
From S2P Require Import ByteVM.
From S2P Require Import State2.
Open Scope Z_scope.

(** ** The kernel's state *)

Definition embed (x : R) : complex R := mk_complex x 0%R.

Record sim (s : QState2 R) (k : QCPUKernel R) : Prop := {
  sim_length : length (s2_amp s) = 4%nat;
  sim_kernel : kernel_at 2 (embed <$> s2_amp s) k;
  sim_result : 0 <= s2_result s < 4;
  sim_measured : s2_measured s = true → measured k = 1 ∧ measured_state k = s2_result s
}.

Definition unit2 (s : QState2 R) : Prop := vnorm (embed <$> s2_amp s) = 1%R.

Lemma four {A} (l : list A) : length l = 4%nat → ∃ a b c d, l = [a; b; c; d].
Proof. destruct l as [|a [|b [|c [|d [|]]]]]; try done. eauto. Qed.

(** Two vectors of four entries with the same entries. *)
Lemma four_ext {A} (u v : list A) :
  length u = 4%nat → length v = 4%nat →
  at_ u 0 = at_ v 0 → at_ u 1 = at_ v 1 → at_ u 2 = at_ v 2 → at_ u 3 = at_ v 3 → u = v.
Proof. intros (?&?&?&?&->)%four (?&?&?&?&->)%four. unfold at_. simpl. by intros [= ->] [= ->] [= ->] [= ->]. Qed.

Lemma h_map_embed (x y : R) :
  h_map inv_sqrt2 (embed x) (embed y) = (embed ((x + y) / sqrt 2), embed ((x - y) / sqrt 2)).
Proof.
  pose proof (sqrt_lt_R0 2 ltac:(lra)) as Hpos.
  unfold h_map, c_scale, c_add, c_sub, embed, inv_sqrt2. cbn. f_equal; f_equal; field; lra.
Qed.

(** The gate loop on the first of two qubits. *)
Lemma pair_spec_first {A} (f : A → A → A * A) a b c d :
  let at_first := pair_spec (sel_target (2 - 1 - 0)) (2 - 1 - 0) f [a; b; c; d] in
  at_first 0 = Some (f a c).1 ∧ at_first 1 = Some (f b d).1 ∧ at_first 2 = Some (f a c).2 ∧ at_first 3 = Some (f b d).2.
Proof. repeat split. Qed.

Lemma h_first_sim s k :
  sim s k →
  ∃ s' k', qstate2_h_first s = Some s' ∧ qcpu_kernel_apply_h (Some k) 0 = Some (QCPU_OK, Some k') ∧ sim s' k' ∧
    (unit2 s → unit2 s').
Proof.
  intros [Hl Hk Hr _]. destruct (apply_h_spec 2 _ k 0 Hk ltac:(lia)) as (a' & Hrun & Hk' & Hspec & Hloop).
  destruct s as [amp ms res]. cbn [s2_amp s2_result] in *. destruct (four amp Hl) as (a & b & c & d & ->).
  exists (Build_QState2 [(a + c) / sqrt 2; (b + d) / sqrt 2; (a - c) / sqrt 2; (b - d) / sqrt 2]%R false res), (gated k a').
  split; [reflexivity|]. split; [exact Hrun|].
  assert (a' = embed <$> [(a + c) / sqrt 2; (b + d) / sqrt 2; (a - c) / sqrt 2; (b - d) / sqrt 2]%R) as Ha'.
  { pose proof (ka_length _ _ _ Hk') as Hl'. cbn [fmap list_fmap] in Hspec.
    destruct (pair_spec_first (h_map inv_sqrt2) (embed a) (embed b) (embed c) (embed d)) as (H0 & H1 & H2 & H3).
    apply four_ext; [lia|done|..]; rewrite Hspec by lia;
      [etransitivity; [exact H0|]|etransitivity; [exact H1|]|etransitivity; [exact H2|]|etransitivity; [exact H3|]];
      by rewrite h_map_embed. }
  subst a'. split; [|intros Hu; unfold unit2 in *; cbn [s2_amp]; rewrite <-Hu].
  - by split.
  - eapply pair_loop_norm; [|apply h_map_unitary|exact Hloop]. lia.
Qed.

Lemma cnot_sim s k :
  sim s k →
  ∃ s' k', qstate2_cnot_first_to_second s = Some s' ∧ qcpu_kernel_apply_cx (Some k) 0 1 = Some (QCPU_OK, Some k') ∧
    sim s' k' ∧ (unit2 s → unit2 s').
Proof.
  intros [Hl Hk Hr _]. destruct (apply_cx_spec 2 _ k 0 1 Hk ltac:(lia) ltac:(lia) ltac:(lia)) as (a' & Hrun & Hk' & Hspec & Hloop).
  destruct s as [amp ms res]. cbn [s2_amp s2_result] in *. destruct (four amp Hl) as (a & b & c & d & ->).
  exists (Build_QState2 [a; b; d; c] false res), (gated k a').
  split; [reflexivity|]. split; [exact Hrun|].
  assert (a' = embed <$> [a; b; d; c]) as Ha'.
  { pose proof (ka_length _ _ _ Hk') as Hl'. by apply four_ext; [lia|done|..]; rewrite Hspec by lia. }
  subst a'. split; [|intros Hu; unfold unit2 in *; cbn [s2_amp]; rewrite <-Hu].
  - by split.
  - eapply pair_loop_norm; [|apply swap_map_unitary|exact Hloop]. lia.
Qed.

(** The search ends with an index. *)
Lemma pick_range {F} `{FloatOps F} (amp : list F) r :
  length amp = 4%nat →
  ∃ c, for_ctl (pick_body amp r) 0 4 f_zero = Some c ∧ match c with Stop i => 0 <= i < 4 | Next _ => True end.
Proof.
  intros (a & b & c & d & ->)%four. cbn.
  repeat (destruct (f_leb _ _); [eexists; split; [reflexivity|simpl; lia]|]). by eexists.
Qed.

Lemma measure_defined {F} `{FloatOps F} (rand : nat → Z) k (s : QState2 F) :
  length (s2_amp s) = 4%nat →
  ∃ i, qstate2_measure rand k s =
    Some (Build_QState2 (<[Z.to_nat i := f_one]> (replicate 4 f_zero)) true i, i) ∧ 0 <= i < 4.
Proof.
  intros Hl. unfold qstate2_measure. destruct (pick_range (s2_amp s) (f_div (f_of_Z (rand k)) (f_of_Z RAND_MAX)) Hl)
    as (c & -> & Hc). cbn [mbind option_bind]. rewrite Hl. cbn [Nat.ltb Nat.leb orb].
  rewrite drop_ge, app_nil_r by lia.
  destruct c as [acc|i]; [exists 3; split; [reflexivity|lia]|]. exists i. by destruct (Z.ltb_spec i 0); [lia|].
Qed.

Lemma measure_sim rand j s k :
  sim s k →
  ∃ s' i, qstate2_measure rand j s = Some (s', i) ∧ 0 <= i < 4 ∧ sim s' (collapsed k 2 i) ∧ unit2 s'.
Proof.
  intros [Hl Hk Hr _]. destruct (measure_defined rand j s Hl) as (i & Hm & Hi). do 2 eexists. split; [exact Hm|].
  split; [done|]. split.
  - split; cbn [s2_amp s2_result s2_measured]; [by rewrite length_insert| |done|done].
    rewrite list_fmap_insert. change (embed <$> replicate 4 (f_zero : R)) with (replicate (Z.to_nat (2 ^ 2)) (c_zero : complex R)).
    destruct Hk as [H1 H2 H3 _ _ H6]. split; try done. by rewrite length_insert.
  - unfold unit2. cbn [s2_amp]. assert (i = 0 ∨ i = 1 ∨ i = 2 ∨ i = 3) as [->|[->|[->| ->]]] by lia;
      unfold vnorm, embed, c_norm2, f_one, f_zero; simpl; lra.
Qed.

(** ** The VM *)

(** What keeps the accesses to the state defined, for any number type. *)
Definition sound2 {F} (s : QState2 F) : Prop := length (s2_amp s) = 4%nat ∧ 0 <= s2_result s < 4.

Lemma sim_sound2 s k : sim s k → sound2 s.
Proof. by intros []. Qed.

Lemma print_defined {F} (s : QState2 F) : sound2 s → ∃ line, qstate2_print s = Some line.
Proof.
  intros [Hl Hr]. unfold qstate2_print. destruct (s2_measured s).
  - destruct (Z.ltb_spec (s2_result s) 0); [lia|].
    assert (s2_result s = 0 ∨ s2_result s = 1 ∨ s2_result s = 2 ∨ s2_result s = 3) as [->|[->|[->| ->]]] by lia; eexists; reflexivity.
  - destruct (four _ Hl) as (a & b & c & d & ->). eexists. reflexivity.
Qed.

Section Defined.
Context {F : Type} `{FloatOps F} (rand : nat → Z).

Lemma state2_step_defined ins (v : s2vm F) :
  sound2 (v_state v) → ∃ v', state2_step rand ins v = Some v' ∧ sound2 (v_state v').
Proof.
  intros Hs. unfold state2_step, say_qubit. destruct (print_defined _ Hs) as [line Hline].
  destruct (op ins); try (by eexists).
  - rewrite Hline. cbn [mbind option_bind].
    destruct (same_name _ (v_q0 v)); [|destruct (same_name _ (v_q1 v))]; try destruct (v_measured v); by eexists.
  - destruct (v_qcount v =? 0), (v_qcount v =? 1); by eexists.
  - destruct (same_name _ _); [|by eexists]. destruct (v_state v) as [amp ms res], Hs as [Hl Hr]. cbn in Hl, Hr.
    destruct (four amp Hl) as (a & b & c & d & ->). by eexists.
  - destruct (measure_defined rand (v_rands v) (v_state v)) as (i & -> & Hi); [by destruct Hs|]. cbn [mbind option_bind].
    assert (sound2 (Build_QState2 (<[Z.to_nat i := f_one]> (replicate 4 f_zero)) true i)) as Hs'
      by (split; [cbn [s2_amp]; by rewrite length_insert|done]).
    destruct (print_defined _ Hs') as [line' ->]. by eexists.
  - destruct (same_name _ _ && _); [|by eexists]. destruct (v_state v) as [amp ms res], Hs as [Hl Hr]. cbn in Hl, Hr.
    destruct (four amp Hl) as (a & b & c & d & ->). by eexists.
Qed.

Lemma state2_loop_defined code (v : s2vm F) :
  sound2 (v_state v) → ∃ v', state2_loop rand code v = Some v' ∧ sound2 (v_state v').
Proof.
  revert v. induction code as [|ins code IH]; intros v Hs; [by exists v|]. cbn [state2_loop].
  destruct (state2_step_defined ins v Hs) as (v1 & -> & Hs1). by apply IH.
Qed.
End Defined.

(** What an instruction does to the kernel: H and CNOT on the two declared
    qubits are the kernel's gates, a measurement collapses to some state, and
    everything else leaves it alone. *)
Definition kernel_effect (ins : Instruction) (v : s2vm R) (k k' : QCPUKernel R) : Prop :=
  match op ins with
  | OP_HADAMARD =>
      if same_name (arg1 ins) (v_q0 v) then qcpu_kernel_apply_h (Some k) 0 = Some (QCPU_OK, Some k') else k' = k
  | OP_CNOT =>
      if same_name (arg1 ins) (v_q0 v) && same_name (arg2 ins) (v_q1 v)
      then qcpu_kernel_apply_cx (Some k) 0 1 = Some (QCPU_OK, Some k') else k' = k
  | OP_MEASURE => ∃ i, 0 <= i < 4 ∧ k' = collapsed k 2 i
  | _ => k' = k
  end.

Fixpoint kernel_runs (rand : nat → Z) (code : list Instruction) (v : s2vm R) (k k' : QCPUKernel R) : Prop :=
  match code with
  | [] => k' = k
  | ins :: code =>
      ∃ v1 k1, state2_step rand ins v = Some v1 ∧ kernel_effect ins v k k1 ∧ kernel_runs rand code v1 k1 k'
  end.

Lemma step_sim rand ins v k :
  sim (v_state v) k → unit2 (v_state v) →
  ∃ v' k', state2_step rand ins v = Some v' ∧ kernel_effect ins v k k' ∧ sim (v_state v') k' ∧ unit2 (v_state v').
Proof.
  intros Hs Hu. unfold state2_step, kernel_effect, say_qubit. destruct (print_defined _ (sim_sound2 _ _ Hs)) as [line Hline].
  destruct (op ins); try (by do 2 eexists).
  - rewrite Hline. cbn [mbind option_bind]. destruct (same_name _ (v_q0 v)); [|destruct (same_name _ (v_q1 v))]; try destruct (v_measured v); by do 2 eexists.
  - destruct (v_qcount v =? 0), (v_qcount v =? 1); by do 2 eexists.
  - destruct (same_name _ _); [|by do 2 eexists]. destruct (h_first_sim _ _ Hs) as (s' & k' & -> & Hk & Hs' & Hu').
    cbn [mbind option_bind]. destruct (print_defined _ (sim_sound2 _ _ Hs')) as [line' ->]. cbn [mbind option_bind]. do 2 eexists.
    split; [reflexivity|]. split; [exact Hk|]. split; [done|]. by apply Hu'.
  - destruct (measure_sim rand (v_rands v) _ _ Hs) as (s' & i & -> & Hi & Hs' & Hu'). cbn [mbind option_bind].
    destruct (print_defined _ (sim_sound2 _ _ Hs')) as [line' ->]. cbn [mbind option_bind]. do 2 eexists. split; [reflexivity|]. eauto.
  - destruct (same_name _ _ && same_name _ _); [|by do 2 eexists].
    destruct (cnot_sim _ _ Hs) as (s' & k' & -> & Hk & Hs' & Hu').
    cbn [mbind option_bind]. destruct (print_defined _ (sim_sound2 _ _ Hs')) as [line' ->]. cbn [mbind option_bind]. do 2 eexists.
    split; [reflexivity|]. split; [exact Hk|]. split; [done|]. by apply Hu'.
Qed.

Lemma loop_sim rand code v k :
  sim (v_state v) k → unit2 (v_state v) →
  ∃ v' k', state2_loop rand code v = Some v' ∧ kernel_runs rand code v k k' ∧ sim (v_state v') k' ∧ unit2 (v_state v').
Proof.
  revert v k. induction code as [|ins code IH]; intros v k Hs Hu; [by do 2 eexists|].
  destruct (step_sim rand ins v k Hs Hu) as (v1 & k1 & Hstep & Heff & Hs1 & Hu1).
  destruct (IH v1 k1 Hs1 Hu1) as (v' & k' & Hloop & Hruns & Hs' & Hu'). exists v', k'. simpl. rewrite Hstep.
  split; [done|]. split; [|done]. eauto 6.
Qed.

(** C27 (the two-qubit VM refines the kernel): over the real numbers, on every
    bytecode and every random sequence, the VM runs without undefined
    behaviour, and step by step a kernel of two qubits that starts in [|00>]
    stays in the same state: H and CNOT on the declared qubits are the kernel's
    H on qubit 0 and CX from 0 to 1, a measurement collapses to a basis state,
    the final amplitudes are the kernel's and their squares add up to 1. *)
Theorem state2_refines_kernel (rand : nat → Z) (rands : nat) (code : list Instruction) (k : QCPUKernel R) :
  kernel_at 2 (basis 2 0) k →
  ∃ v k', run_state2_bytecode rand rands code = Some v ∧ kernel_runs rand code (state2_start rands) k k' ∧
    amplitudes k' = Some (embed <$> s2_amp (v_state v)) ∧
    (s2_measured (v_state v) = true → measured k' = 1 ∧ measured_state k' = s2_result (v_state v)) ∧
    vnorm (embed <$> s2_amp (v_state v)) = 1%R.
Proof.
  intros Hk. destruct (loop_sim rand code (state2_start rands) k) as (v & k' & Hrun & Hruns & [Hl Hk' _ Hm] & Hu).
  - split; [done|exact Hk|done|done].
  - unfold unit2, vnorm, embed, c_norm2. cbn. lra.
  - exists v, k'. split; [done|]. split; [done|]. split; [apply Hk'|]. by split.
Qed.

(** [qbit a  qbit b  hadamard a  cnot a b  measure a  say a  say b] *)
Definition instr (o : OpCode) (a1 a2 : string) : Instruction := {| op := o; arg1 := a1; arg2 := a2; ivalue := 0 |}.
Definition bell_program (a b st_a st_b : string) : list Instruction := [
  instr OP_QBIT a st_a; instr OP_QBIT b st_b; instr OP_HADAMARD a ""; instr OP_CNOT a b;
  instr OP_MEASURE a ""; instr OP_SAY a ""; instr OP_SAY b ""
]%string.

Definition zero_kernel_2 : QCPUKernel R := mk_kernel 2 4 (Some (basis 2 0)) 1 0 0.

Lemma state2_refines_kernel_witness :
  ∃ v k', run_state2_bytecode (λ _, 5) 0 (bell_program "a" "b" "|0>" "|0>") = Some v ∧
    kernel_runs (λ _, 5) (bell_program "a" "b" "|0>" "|0>") (state2_start 0) zero_kernel_2 k' ∧
    amplitudes k' = Some (embed <$> s2_amp (v_state v)).
Proof.
  destruct (state2_refines_kernel (λ _, 5) 0 (bell_program "a" "b" "|0>" "|0>") zero_kernel_2) as (v & k' & H1 & H2 & H3 & _).
  - split; try reflexivity; unfold KERNEL_MAX_QUBITS, in_width; simpl; lia.
  - exists v, k'. split; [exact H1|]. split; [exact H2|exact H3].
Defined.

(** ** The Bell program *)

(** The one fact about division that the program needs besides those of
    [GHZFloat]. *)
Class BellFloat (F : Type) `{GHZFloat F} := {
  bell_div_0 : f_div f_zero (f_sqrt (f_of_Z 2)) = f_zero
}.

#[export] Instance b64_bell : BellFloat double.
Proof. split. vm_compute. reflexivity. Qed.

#[export] Instance real_bell : BellFloat R.
Proof. split. unfold f_zero. simpl. lra. Qed.

Section Bell.
Context {F : Type} `{BellFloat F} (rand : nat → Z).

(** H and CNOT on [|00>]. *)
Lemma bell_state (s : QState2 F) :
  s2_amp s = [f_one; f_zero; f_zero; f_zero] →
  ∃ s1 s2, qstate2_h_first s = Some s1 ∧ s2_amp s1 = [inv_sqrt2; f_zero; inv_sqrt2; f_zero] ∧
    qstate2_cnot_first_to_second s1 = Some s2 ∧ s2_amp s2 = [inv_sqrt2; f_zero; f_zero; inv_sqrt2] ∧
    s2_measured s1 = false ∧ s2_measured s2 = false.
Proof.
  intros Ha. unfold qstate2_h_first. rewrite Ha. cbn.
  rewrite ghz_add_1_0, ghz_sub_1_0, ghz_add_0_0, ghz_sub_0_0, bell_div_0. do 2 eexists. split; [reflexivity|].
  split; [reflexivity|]. split; [reflexivity|]. done.
Qed.

(** Measuring the Bell state gives [|00>] or [|11>]. *)
Lemma bell_measure k (s : QState2 F) :
  s2_amp s = [inv_sqrt2; f_zero; f_zero; inv_sqrt2] →
  ∃ s' i, qstate2_measure rand k s = Some (s', i) ∧ (i = 0 ∨ i = 3) ∧ s2_measured s' = true ∧ s2_result s' = i.
Proof.
  intros Ha. unfold qstate2_measure. rewrite Ha. set (r := f_div _ _). cbn.
  rewrite ghz_0_add_sq. destruct (f_leb r (f_mul inv_sqrt2 inv_sqrt2)) eqn:Hr.
  - do 2 eexists. split; [reflexivity|]. auto.
  - rewrite ghz_mul_0_0, ghz_sq_add_0, Hr, ghz_sq_add_0, Hr.
    destruct (f_leb r (f_add _ _)); do 2 eexists; (split; [reflexivity|]); auto.
Qed.

(** The machine with qubits [a] and [b]. *)
Definition at_state (a b : string) (s : QState2 F) (v : s2vm F) : Prop :=
  v_q0 v = a ∧ v_q1 v = b ∧ v_state v = s.

Lemma declare_steps rands a b st_a st_b code :
  ∃ v, state2_loop rand (instr OP_QBIT a st_a :: instr OP_QBIT b st_b :: code) (state2_start rands) = state2_loop rand code v ∧
    at_state a b qstate2_init_00 v ∧ v_rands v = rands.
Proof. eexists. split; [reflexivity|]. done. Qed.

Lemma h_step a b s s1 line v :
  at_state a b s v → qstate2_h_first s = Some s1 → qstate2_print s1 = Some line →
  ∃ v', state2_step rand (instr OP_HADAMARD a "") v = Some v' ∧ at_state a b s1 v' ∧ v_rands v' = v_rands v.
Proof.
  intros (<- & <- & <-) Hh Hl. unfold state2_step, same_name. cbn [op arg1 instr]. rewrite String.eqb_refl, Hh.
  cbn [mbind option_bind]. rewrite Hl. eexists. split; [reflexivity|]. done.
Qed.

Lemma cnot_step a b s s1 line v :
  at_state a b s v → qstate2_cnot_first_to_second s = Some s1 → qstate2_print s1 = Some line →
  ∃ v', state2_step rand (instr OP_CNOT a b) v = Some v' ∧ at_state a b s1 v' ∧ v_rands v' = v_rands v.
Proof.
  intros (<- & <- & <-) Hh Hl. unfold state2_step, same_name. cbn [op arg1 arg2 instr]. rewrite !String.eqb_refl, Hh.
  cbn [mbind option_bind andb]. rewrite Hl. eexists. split; [reflexivity|]. done.
Qed.

Lemma measure_step a b s s1 i line v :
  at_state a b s v → qstate2_measure rand (v_rands v) s = Some (s1, i) → qstate2_print s1 = Some line →
  ∃ v', state2_step rand (instr OP_MEASURE a "") v = Some v' ∧ at_state a b s1 v' ∧ v_measured v' = true ∧
    v_bit0 v' = Z.land (Z.shiftr i 1) 1 ∧ v_bit1 v' = Z.land i 1.
Proof.
  intros (<- & <- & <-) Hm Hl. unfold state2_step. cbn [op arg1 instr]. rewrite Hm.
  cbn [mbind option_bind]. rewrite Hl. eexists. split; [reflexivity|]. done.
Qed.

(** Both qubits said after a measurement that gave equal bits. *)
Lemma say_steps a b s v bit :
  at_state a b s v → v_measured v = true → v_bit0 v = bit → v_bit1 v = bit →
  state2_loop rand [instr OP_SAY a ""; instr OP_SAY b ""] v =
    Some (say [Print "|%d>\n" [AInt bit]] (say [Print "|%d>\n" [AInt bit]] v)).
Proof.
  intros (Ha & Hb & _) Hm H0' H1'. cbn [state2_loop]. unfold state2_step, same_name, say_qubit. cbn [op arg1 instr].
  rewrite Ha, String.eqb_refl, Hm, H0'. cbn [mbind option_bind v_q0 v_q1 v_measured v_bit0 v_bit1 say].
  rewrite Ha, Hb, Hm, H0', H1', String.eqb_refl. by destruct (b =? a)%string.
Qed.
End Bell.

(** Bell correlation: on the program that declares two qubits, applies H to
    the first and CNOT to both, measures and says them, the two-qubit VM prints
    the same bit for both, whatever the random numbers, in binary64 as over the
    reals, and whatever initial states the program declares. *)
Theorem bell_correlated {F} `{BellFloat F} (rand : nat → Z) (rands : nat) (a b st_a st_b : string) :
  ∃ (v : s2vm F) before bit, run_state2_bytecode rand rands (bell_program a b st_a st_b) = Some v ∧
    v_out v = before ++ [Print "|%d>\n" [AInt bit]; Print "|%d>\n" [AInt bit]] ∧ (bit = 0 ∨ bit = 1).
Proof.
  destruct (bell_state (qstate2_init_00 : QState2 F) eq_refl) as (s1 & s2 & Hh & Ha1 & Hc & Ha2 & Hm1 & Hm2).
  destruct (bell_measure rand rands s2 Ha2) as (s3 & i & Hm & Hi & Hm3 & Hr).
  assert (∃ l1 l2 l3, qstate2_print s1 = Some l1 ∧ qstate2_print s2 = Some l2 ∧ qstate2_print s3 = Some l3)
    as (l1 & l2 & l3 & Hl1 & Hl2 & Hl3).
  { unfold qstate2_print. rewrite Hm1, Hm2, Hm3, Ha1, Ha2, Hr. destruct Hi as [->| ->]; do 3 eexists; repeat split. }
  unfold run_state2_bytecode, bell_program.
  destruct (declare_steps rand rands a b st_a st_b [instr OP_HADAMARD a ""; instr OP_CNOT a b; instr OP_MEASURE a "";
    instr OP_SAY a ""; instr OP_SAY b ""]) as (v0 & -> & Hv0 & Hr0).
  destruct (h_step rand a b _ s1 l1 v0 Hv0 Hh Hl1) as (v1 & Hs1 & Hv1 & Hr1).
  destruct (cnot_step rand a b _ s2 l2 v1 Hv1 Hc Hl2) as (v2 & Hs2 & Hv2 & Hr2).
  rewrite <-Hr0, <-Hr1, <-Hr2 in Hm.
  destruct (measure_step rand a b _ s3 i l3 v2 Hv2 Hm Hl3) as (v3 & Hs3 & Hv3 & Hm' & Hb0 & Hb1).
  assert (∃ bit, v_bit0 v3 = bit ∧ v_bit1 v3 = bit ∧ (bit = 0 ∨ bit = 1)) as (bit & H0' & H1' & Hbit)
    by (rewrite Hb0, Hb1; destruct Hi as [->| ->]; eexists; repeat split; auto).
  do 3 eexists. split; [|split; [|exact Hbit]].
  - cbn [state2_loop]. rewrite Hs1. cbn [mbind option_bind]. rewrite Hs2. cbn [mbind option_bind]. rewrite Hs3.
    cbn [mbind option_bind]. exact (say_steps rand a b _ v3 bit Hv3 Hm' H0' H1').
  - cbn [v_out say]. by rewrite <-app_assoc.
Qed.

Lemma bell_correlated_witness :
  ∃ (v : s2vm double) before bit, run_state2_bytecode (λ _, 1500000000) 0 (bell_program "a" "b" "|0>" "|0>") = Some v ∧
    v_out v = before ++ [Print "|%d>\n" [AInt bit]; Print "|%d>\n" [AInt bit]] ∧ (bit = 0 ∨ bit = 1).
Proof. apply (bell_correlated (λ _, 1500000000) 0 "a" "b" "|0>" "|0>"). Defined.

(** ** Two defects *)

(** A program without the initial states of its qubits. *)
Definition forget_state (ins : Instruction) : Instruction :=
  match op ins with OP_QBIT => instr OP_QBIT (arg1 ins) "" | _ => ins end.

(** The VM ignores the initial states: [qbit q = |1>] makes a qubit in [|0>]. *)
Theorem state2_ignores_states {F} `{FloatOps F} (rand : nat → Z) (rands : nat) (code : list Instruction) :
  run_state2_bytecode (F := F) rand rands (forget_state <$> code) = run_state2_bytecode rand rands code.
Proof.
  unfold run_state2_bytecode. generalize (state2_start (F := F) rands) as v.
  induction code as [|ins code IH]; intros v; [done|]. cbn [fmap list_fmap state2_loop].
  assert (state2_step rand (forget_state ins) v = state2_step rand ins v) as ->
    by (unfold forget_state; destruct ins as [o a1 a2 val]; by destruct o).
  destruct (state2_step rand ins v); [apply IH|done].
Qed.

(** A random number of zero picks [|00>] in every state, also where its
    amplitude is zero, since the search stops at the first cumulative
    probability that is not below it. *)
Theorem measure_impossible (rand : nat → Z) (k : nat) (s : QState2 R) :
  length (s2_amp s) = 4%nat → rand k = 0 → ∃ s', qstate2_measure rand k s = Some (s', 0).
Proof.
  intros (a & b & c & d & Ha)%four Hr. unfold qstate2_measure. rewrite Ha, Hr. cbn [f_of_Z f_div real_ops].
  assert (f_leb (0 / IZR RAND_MAX)%R (f_add f_zero (f_mul a a)) = true) as Hle.
  { cbn. unfold Rleb. destruct (Rle_dec _ _) as [|Hn]; [done|]. exfalso. apply Hn. unfold f_zero. cbn.
    pose proof (Rle_0_sqr a) as Hsq. unfold Rsqr, Rdiv in *. lra. }
  cbn [for_ctl pick_body lookup list_lookup mbind option_bind]. rewrite Hle. cbn [mbind option_bind].
  eexists. reflexivity.
Qed.

Lemma measure_impossible_witness :
  ∃ s', qstate2_measure (λ _, 0) 0 (Build_QState2 [0; 1; 0; 0]%R false 0) = Some (s', 0).
Proof. apply (measure_impossible (λ _, 0) 0 (Build_QState2 [0; 1; 0; 0]%R false 0)); reflexivity. Defined.
