(* ===== verification/Pipeline.v ===== *)
(** * The runner

    [src/qnova.c]: read a file, scan, parse and compile it, list the bytecode
    and run it on the byte VM, or on the two-qubit VM when the source names
    it. The contents of the file, whether [malloc] succeeds, the results of
    [rand] and the conversion [atof] are parameters. *)

From Stdlib Require Import ZArith Lia ZifyBool Ascii String.
From stdpp Require Import base list numbers strings.
From S2P Require Import Prelude.
From S2P Require Import Float64.
From S2P Require Import Outcome.
From S2P Require Import CString.
From S2P Require Import Lexer.
From S2P Require Import Syntax.
From S2P Require Import Parser.
From S2P Require Import Compiler.
From S2P Require Import ByteVM.
From S2P Require Import State2.
Open Scope Z_scope.

Section Pipeline.
Context {F : Type} `{FloatOps F} (rand : nat → Z) (atof : string → F).

(** The C string read, if any, and what is printed. [file] is the contents of
    the file, [None] when it cannot be opened. *)
Definition read_file (file : option string) (malloc_ok : bool) (path : string) : option string * list (output F) :=
  match file with
  | None => (None, [Print "Error: file not found: %s\n" [AStr path]])
  | Some contents =>
      if malloc_ok then (Some (c_string contents), [])
      else (None, [Print "Error: memory allocation failed\n" []])
  end.

Definition wants_state2 (source : string) : bool := contains "@quantum.state2" source.

(** The tables of the VM before the first instruction. *)
Definition static_vm : vm F := Build_vm [] [] EmptyString EmptyString false false false 0 [].

(** What the chosen VM prints. *)
Definition run_code (fuel : nat) (use_state2 : bool) (code : list Instruction) : outcome (list (output F)) :=
  if use_state2 then
    v ← defined (run_state2_bytecode rand 0 code);
    Done (v_out v)
  else
    match run_bytecode rand atof fuel code static_vm with
    | Halted s => Done (Print "\n" [] :: out s)
    | Running _ _ _ => NoFuel
    end.

(** The bytecode of a source. *)
Definition front_end (source : string) : outcome (list Instruction) :=
  lx ← tokenize source initial_lexer;
  tree ← parse (tokens lx);
  defined (compile_ptr (node_body tree) []).

(** The exit status and the output. [argv] without the program's name. *)
Definition main (fuel : nat) (argv : list string) (file : option string) (malloc_ok : bool)
    : outcome (Z * list (output F)) :=
  match argv with
  | [] => Done (0, [Print "Usage: qnova <file.qn>\n" []])
  | path :: _ =>
      match read_file file malloc_ok path with
      | (None, o) => Done (1, o)
      | (Some source, o) =>
          let use_state2 := wants_state2 source in
          code ← front_end source;
          ran ← run_code fuel use_state2 code;
          Done (0, o ++ [Print "=== QBIT NOVA UNIFIED RUNNER ===\n" [];
                         Print "[RUNNER] mode: %s\n\n" [AStr (if use_state2 then "STATE2" else "BYTE_VM")];
                         Print "=== QBIT NOVA BYTECODE ===\n" []] ++ print_bytecode code ++ ran)
      end
  end.
End Pipeline.
