(* ===== verification/PipelineProps.v ===== *)
(** * From source text to the machine

    When the compiler is defined, and what the runner does with the text of a
    program: all passes composed run the program as its tree means. *)

From Stdlib Require Import ZArith Lia ZifyBool Ascii String.
From stdpp Require Import base list numbers strings relations.
From S2P Require Import Prelude.
From S2P Require Import Float64.
From S2P Require Import Outcome.
From S2P Require Import CString.
From S2P Require Import Lexer.
From S2P Require Import LexerProps.
From S2P Require Import Syntax.
From S2P Require Import Parser.
From S2P Require Import ParserProps.
From S2P Require Import Grammar.
From S2P Require Import Compiler.
From S2P Require Import ByteVM.
From S2P Require Import CompilerProps.
From S2P Require Import State2.
From S2P Require Import State2Props.
From S2P Require Import Pipeline.
Open Scope Z_scope.

(** ** When compiling is defined *)

(** Appending code to the array while it fits. *)
Definition fit (code c : list Instruction) : option (list Instruction) :=
  if (length code + length c <=? MAX_INSTR)%nat then Some (code ++ c) else None.

Lemma fit_nil code : (length code <= MAX_INSTR)%nat → fit code [] = Some code.
Proof. intros. unfold fit. simpl. destruct (Nat.leb_spec (length code + 0) MAX_INSTR); [|lia]. by rewrite app_nil_r. Qed.

Lemma fit_fit code c1 c2 : fit code c1 ≫= (λ x, fit x c2) = fit code (c1 ++ c2).
Proof.
  unfold fit. rewrite length_app. destruct (Nat.leb_spec (length code + length c1) MAX_INSTR); cbn [mbind option_bind].
  - rewrite length_app, <-app_assoc. by rewrite Nat.add_assoc.
  - destruct (Nat.leb_spec (length code + (length c1 + length c2)) MAX_INSTR); [lia|done].
Qed.

Lemma fit_length code c x : fit code c = Some x → (length x <= MAX_INSTR)%nat.
Proof. unfold fit. destruct (Nat.leb_spec (length code + length c) MAX_INSTR); [|done]. intros [= <-]. rewrite length_app. lia. Qed.

Lemma emit_fit code o a1 a2 val :
  emit code o a1 a2 val = i ← ins o a1 a2 val; fit code [i].
Proof.
  unfold emit, ins, fit. destruct (copy_arg a1); [|by destruct (_ <? _)%nat]. destruct (copy_arg a2); [|by destruct (_ <? _)%nat].
  cbn [mbind option_bind length]. by replace (length code + 1 <=? MAX_INSTR)%nat with (length code <? MAX_INSTR)%nat by lia.
Qed.

(** Generated code put into the array. *)
Definition fit_gen (g : option (list Instruction)) (code : list Instruction) : option (list Instruction) :=
  c ← g; fit code c.

Lemma fit_gen_bind g1 g2 code :
  fit_gen g1 code ≫= fit_gen g2 = fit_gen (c1 ← g1; c2 ← g2; Some (c1 ++ c2)) code.
Proof.
  unfold fit_gen. destruct g1 as [c1|]; [|done]. cbn [mbind option_bind]. destruct g2 as [c2|]; cbn [mbind option_bind].
  - apply fit_fit.
  - by destruct (fit code c1).
Qed.

Lemma compile_fit node code :
  (length code <= MAX_INSTR)%nat → compile node code = fit_gen (gen node) code.
Proof.
  revert code. induction node as [t v l r b n IHb IHn] using ASTNode_chain_ind. intros code Hcode.
  rewrite gen_node. cbn [compile].
  assert (Hptr : ∀ p x, on_ptr (λ node, ∀ code, (length code <= MAX_INSTR)%nat → compile node code = fit_gen (gen node) code) p →
    (length x <= MAX_INSTR)%nat →
    match p with Some m => compile m x | None => Some x end = fit_gen (gen_ptr p) x)
    by (intros [m|] x HP Hx; [by apply HP|unfold fit_gen; simpl; by rewrite fit_nil]).
  pose proof (λ x, Hptr b x IHb) as Hb. pose proof (λ x, Hptr n x IHn) as Hn. clear Hptr IHb IHn.
  match goal with |- (match t with NODE_SAY => _ | _ => _ end) ≫= _ = fit_gen (?g ≫= _) _ => set (here := g) end.
  enough (match t with NODE_SAY => _ | _ => _ end = fit_gen here code) as ->.
  { rewrite <-fit_gen_bind. unfold fit_gen at 1 2. destruct here as [c|]; [|done]. cbn [mbind option_bind].
    change (fit_gen (Some c) code) with (fit code c). destruct (fit code c) as [x|] eqn:Hx; [|done]. cbn [mbind option_bind]. apply Hn. by eapply fit_length. }
  subst here.
  assert (Hsimple : ∀ o a1 a2, emit code o a1 a2 0 =
    fit_gen (i ← Some <$> ins o a1 a2 0; Some (match i with Some i => [i] | None => [] end)) code)
    by (intros o a1 a2; rewrite emit_fit; by destruct (ins o a1 a2 0)).
  assert (Hhead : ∀ o a1 a2 val,
    (code ← emit code o a1 a2 val;
     code ← match b with Some m => compile m code | None => Some code end;
     emit code OP_END None None 0) =
    fit_gen (h ← ins o a1 a2 val; body ← gen_ptr b; Some (h :: body ++ [end_ins])) code).
  { intros o a1 a2 val. rewrite emit_fit. destruct (ins o a1 a2 val) as [h|]; [|done]. cbn [mbind option_bind].
    assert (Hcons : ∀ body, fit code (h :: body ++ [end_ins]) = x ← fit code [h]; y ← fit x body; fit y [end_ins]).
    { intros body. etransitivity; [symmetry; exact (fit_fit code [h] (body ++ [end_ins]))|].
      destruct (fit code [h]); [|done]. cbn [mbind option_bind]. by rewrite fit_fit. }
    unfold fit_gen. destruct (fit code [h]) as [x|] eqn:Hx; cbn [mbind option_bind].
    - rewrite Hb by by eapply fit_length. unfold fit_gen. destruct (gen_ptr b) as [body|]; [|done].
      cbn [mbind option_bind]. rewrite Hcons. cbn [mbind option_bind]. destruct (fit x body); [|done].
      cbn [mbind option_bind]. by rewrite emit_fit.
    - destruct (gen_ptr b) as [body|]; [|done]. cbn [mbind option_bind]. by rewrite Hcons. }
  destruct t; cbn [has_body CompilerProps.is_block simple_ins head_ins]; try (by apply Hsimple);
    try (by (unfold fit_gen; simpl; rewrite fit_nil)).
  - destruct (left_value l); [apply Hsimple|done].
  - destruct (left_value l); [apply Hsimple|done].
  - destruct (check_args l) as [[[a1 a2] val]|]; [apply Hhead|done].
  - by apply Hb.
  - destruct (left_value l); [apply Hsimple|done].
  - destruct (atoi v); [apply Hhead|done].
Qed.

(** The operands the instructions of a tree carry: those that are names or
    texts fit their 64 bytes, those that are numbers fit an [int]. *)
Definition arg_ok (v : string) : bool := (String.length v <? ARG_BYTES)%nat.
Definition left_ok (l : option ASTNode) : bool := match l with Some x => arg_ok (node_value x) | None => true end.
Definition number_ok (v : string) : bool := match atoi v with Some _ => true | None => false end.
Definition condition_ok (l : option ASTNode) : bool :=
  match l with
  | Some c =>
      match node_left c, node_right c with
      | Some a, Some b => arg_ok (node_value a) && arg_ok (node_value c) && number_ok (node_value b)
      | _, _ => true
      end
  | None => true
  end.

Fixpoint operands_ok (node : ASTNode) : bool :=
  let '(Node t v l r b n) := node in
  let sub p := match p with Some m => operands_ok m | None => true end in
  match t with
  | NODE_SAY | NODE_QMSG => left_ok l
  | NODE_LET | NODE_QBIT | NODE_ENTANGLE | NODE_CNOT => arg_ok v && left_ok l
  | NODE_HADAMARD | NODE_MEASURE | NODE_ENCODE_QMSG | NODE_DECODE_QMSG | NODE_ACTION => arg_ok v
  | NODE_CHECK => condition_ok l && sub b
  | NODE_REPEAT => number_ok v && sub b
  | NODE_BLOCK => sub b
  | _ => true
  end && sub n.

(** How many instructions a tree has. *)
Fixpoint code_size (node : ASTNode) : nat :=
  let '(Node t v l r b n) := node in
  let sub p := match p with Some m => code_size m | None => 0%nat end in
  match t with
  | NODE_CHECK | NODE_REPEAT => sub b + 2
  | NODE_BLOCK => sub b
  | NODE_SAY | NODE_LET | NODE_QBIT | NODE_HADAMARD | NODE_MEASURE | NODE_ENTANGLE | NODE_CNOT | NODE_QMSG
  | NODE_ENCODE_QMSG | NODE_DECODE_QMSG | NODE_ACTION => 1
  | _ => 0
  end + sub n.

Lemma ins_arg_ok o a1 a2 val :
  is_Some (ins o a1 a2 val) ↔ from_option arg_ok true a1 = true ∧ from_option arg_ok true a2 = true.
Proof.
  unfold ins, copy_arg, arg_ok. destruct a1 as [a1|], a2 as [a2|]; cbn [from_option];
    repeat match goal with |- context [(String.length ?a <? ARG_BYTES)%nat] => destruct (String.length a <? ARG_BYTES)%nat end;
    cbn [mbind option_bind]; split; first [by intros [? ?]|done|by eexists].
Qed.

Lemma is_Some_both {A B C} (x : option A) (y : option B) (f : A → B → C) :
  is_Some (a ← x; b ← y; Some (f a b)) ↔ is_Some x ∧ is_Some y.
Proof.
  destruct x, y; simpl; split; try (by intros [? ?]); try (by intros [[? ?] [? ?]]); intros; eauto.
Qed.

(** Code is generated exactly for trees whose operands are all right, and its
    length is their size. *)
Lemma gen_ok node :
  well_typed node = true →
  (is_Some (gen node) ↔ operands_ok node = true) ∧ ∀ c, gen node = Some c → length c = code_size node.
Proof.
  induction node as [t v l r b n IHb IHn] using ASTNode_chain_ind. intros Hty. rewrite gen_node.
  cbn [well_typed] in Hty. rewrite !andb_true_iff in Hty. destruct Hty as [[[_ Hshape] Hb] Hn].
  assert (Hptr : ∀ p, on_ptr (λ node, well_typed node = true →
      (is_Some (gen node) ↔ operands_ok node = true) ∧ ∀ c, gen node = Some c → length c = code_size node) p →
    match p with Some m => well_typed m | None => true end = true →
    (is_Some (gen_ptr p) ↔ match p with Some m => operands_ok m | None => true end = true) ∧
    ∀ c, gen_ptr p = Some c → length c = match p with Some m => code_size m | None => 0%nat end)
    by (intros [m|] HP Hm; [by apply HP|split; [by split|by intros c [= <-]]]).
  destruct (Hptr b IHb Hb) as [Hokb Hlenb]. destruct (Hptr n IHn Hn) as [Hokn Hlenn]. clear Hptr IHb IHn.
  match goal with |- context [?g ≫= (λ here, gen_ptr n ≫= _)] => set (here := g) end.
  enough ((is_Some here ↔ match t with
    | NODE_SAY | NODE_QMSG => left_ok l
    | NODE_LET | NODE_QBIT | NODE_ENTANGLE | NODE_CNOT => arg_ok v && left_ok l
    | NODE_HADAMARD | NODE_MEASURE | NODE_ENCODE_QMSG | NODE_DECODE_QMSG | NODE_ACTION => arg_ok v
    | NODE_CHECK => condition_ok l && match b with Some m => operands_ok m | None => true end
    | NODE_REPEAT => number_ok v && match b with Some m => operands_ok m | None => true end
    | NODE_BLOCK => match b with Some m => operands_ok m | None => true end
    | _ => true end = true) ∧
    ∀ c, here = Some c → length c = match t with
    | NODE_CHECK | NODE_REPEAT => match b with Some m => code_size m | None => 0 end + 2
    | NODE_BLOCK => match b with Some m => code_size m | None => 0 end
    | NODE_SAY | NODE_LET | NODE_QBIT | NODE_HADAMARD | NODE_MEASURE | NODE_ENTANGLE | NODE_CNOT | NODE_QMSG
    | NODE_ENCODE_QMSG | NODE_DECODE_QMSG | NODE_ACTION => 1
    | _ => 0 end%nat) as [Hokh Hlenh].
  { split.
    - cbn [operands_ok]. by rewrite andb_true_iff, <-Hokh, <-Hokn, is_Some_both.
    - intros c. destruct here as [ch|]; [|done]. destruct (gen_ptr n) as [cn|]; [|done]. intros [= <-].
      cbn [code_size]. rewrite length_app. by rewrite (Hlenh ch), (Hlenn cn). }
  subst here. clear Hokn Hlenn Hn.
  assert (Hone : ∀ o a1 a2 P, (P = true ↔ from_option arg_ok true a1 = true ∧ from_option arg_ok true a2 = true) →
    (is_Some (i ← Some <$> ins o a1 a2 0; Some (match i with Some i => [i] | None => [] end)) ↔ P = true) ∧
    ∀ c, (i ← Some <$> ins o a1 a2 0; Some (match i with Some i => [i] | None => [] end)) = Some c → length c = 1%nat).
  { intros o a1 a2 P ->. rewrite <-ins_arg_ok with (o := o) (val := 0).
    destruct (ins o a1 a2 0); simpl; (split; [|by intros c [= <-]]); split; try (by intros [? ?]); eauto. }
  assert (Hbody : ∀ (h : option Instruction) P, (is_Some h ↔ P = true) →
    (is_Some (h ← h; body ← gen_ptr b; Some (h :: body ++ [end_ins])) ↔
      P && match b with Some m => operands_ok m | None => true end = true) ∧
    ∀ c, (h ← h; body ← gen_ptr b; Some (h :: body ++ [end_ins])) = Some c →
      length c = (match b with Some m => code_size m | None => 0 end + 2)%nat).
  { intros h P HP. rewrite andb_true_iff, <-HP, <-Hokb, is_Some_both. split; [done|]. intros c. destruct h as [h|]; [|done].
    destruct (gen_ptr b) as [cb|]; [|done]. intros [= <-]. simpl. rewrite length_app, (Hlenb cb eq_refl). simpl. lia. }
  destruct t; try done; cbn [has_body CompilerProps.is_block simple_ins];
    try (split; [by split; [|eauto]|by intros c [= <-]]); try (split; [exact Hokb|exact Hlenb]).
  all: try (apply Hone; destruct l; cbn [from_option left_ok left_value fmap option_fmap option_map];
    rewrite ?andb_true_iff; naive_solver).
  all: try (destruct l as [l|]; [cbn [left_value fmap option_fmap option_map mbind option_bind left_ok];
    apply Hone; cbn [from_option]; rewrite ?andb_true_iff; naive_solver|
    by (exfalso; unfold shape in Hshape; destruct (no_node r))]).
  - cbn [head_ins]. apply Hbody. destruct l as [[[] cv [cl|] [cr|] [] []]|];
      try (by (exfalso; unfold shape in Hshape; cbn in Hshape; do 3 (rewrite ?andb_false_r in Hshape; cbn [andb] in Hshape))).
    cbn [check_args condition_ok node_left node_right node_value]. unfold number_ok.
    destruct (atoi (node_value cr)); cbn [mbind option_bind].
    + rewrite ins_arg_ok. cbn [from_option]. rewrite !andb_true_iff. naive_solver.
    + rewrite andb_false_r. split; [by intros []|done].
  - cbn [head_ins]. apply Hbody. unfold number_ok. destruct (atoi v); cbn [mbind option_bind].
    + rewrite ins_arg_ok. simpl. naive_solver.
    + split; [by intros []|done].
Qed.

Lemma compile_is_Some node :
  well_typed node = true →
  (is_Some (compile node []) ↔ operands_ok node = true ∧ (code_size node <= MAX_INSTR)%nat).
Proof.
  intros Hty. destruct (gen_ok node Hty) as [Hok Hlen]. rewrite compile_fit, <-Hok by (simpl; lia).
  unfold fit_gen, fit. destruct (gen node) as [c|]; cbn [mbind option_bind]; [|split; [by intros []|by intros [[] ?]]].
  rewrite <-(Hlen c eq_refl). simpl. destruct (Nat.leb_spec (length c) MAX_INSTR).
  - split; eauto.
  - split; [by intros []|lia].
Qed.

(** C29 (when compiling is defined): for every tree the parser can return,
    compiling its statements is defined exactly when every name and text an
    instruction carries is shorter than 64 bytes, every number it converts fits
    an [int], and the instructions are at most 1024. In the other cases the
    compiler writes past an operand or past its array, or converts a number out
    of range. *)
Theorem compile_defined (toks : list Token) (tree node : ASTNode) :
  parse toks = Done tree → node_body tree = Some node →
  (is_Some (compile node []) ↔ operands_ok node = true ∧ (code_size node <= MAX_INSTR)%nat).
Proof.
  intros Hp Hb. apply compile_is_Some. pose proof (parse_total toks) as Ht. rewrite Hp in Ht. simpl in Ht.
  destruct tree. simpl in *. subst. rewrite !andb_true_iff in Ht. apply Ht.
Qed.

Definition demo_array : list Token :=
  match tokenize (render demo_text) initial_lexer with Done lx => tokens lx | _ => [] end.
Definition demo_node : ASTNode :=
  match program_chain demo_program with Some n => n | None => Node NODE_PROGRAM "" None None None None end.

Lemma compile_defined_witness :
  is_Some (compile demo_node []) ↔ operands_ok demo_node = true ∧ (code_size demo_node <= MAX_INSTR)%nat.
Proof.
  apply (compile_defined demo_array (program_tree demo_program) demo_node); vm_compute; reflexivity.
Defined.

(** ** The whole run *)





(** ** The meaning on two qubits

    The two-qubit VM knows no blocks: it does every statement once, in the order
    of the text, those of a body included, whatever the condition or the number
    of repetitions. *)

Section Sweep.
Context {F : Type} `{FloatOps F} (rand : nat → Z).









End Sweep.






