(* ===== verification/Console.v ===== *)
(** * Programs that print and exit

    The command-line programs of the repository print on the standard output
    and on the standard error and leave with [exit] or a return from [main].
    [console F A] is such a program: undefined, out of fuel, or what it printed,
    in order, and either a value or the status it exited with. *)

From Stdlib Require Import ZArith Lia ZifyBool Ascii String.
From stdpp Require Import base list numbers strings.
From S2P Require Import Prelude.
From S2P Require Import Outcome.
Open Scope Z_scope.

(** What is printed: [printf], [fprintf(stderr, ...)], or [perror], which adds
    the system's text for [errno]. *)
Inductive line (F : Type) :=
| Out (o : output F)
| Err (o : output F)
| Perror (s : string).
Arguments Out {F}.
Arguments Err {F}.
Arguments Perror {F}.

Inductive flow (A : Type) :=
| Value (a : A)
| Exit (status : Z).
Arguments Value {A}.
Arguments Exit {A}.

Definition console (F A : Type) : Type := outcome (list (line F) * flow A).

Section Console.
Context {F : Type}.

#[export] Instance console_ret : MRet (console F) := λ A a, Done ([], Value a).
#[export] Instance console_bind : MBind (console F) := λ A B f m,
  match m with
  | Done (o, Value a) =>
      match f a with
      | Done (o', r) => Done (o ++ o', r)
      | Undef => Undef
      | NoFuel => NoFuel
      end
  | Done (o, Exit n) => Done (o, Exit n)
  | Undef => Undef
  | NoFuel => NoFuel
  end.

Definition printf (fmt : string) (a : list (arg F)) : console F unit := Done ([Out (Print fmt a)], Value tt).
Definition eprintf (fmt : string) (a : list (arg F)) : console F unit := Done ([Err (Print fmt a)], Value tt).
Definition perror (s : string) : console F unit := Done ([Perror s], Value tt).
Definition exit {A} (status : Z) : console F A := Done ([], Exit status).

(** A computation that prints nothing. *)
Definition lift {A} (m : outcome A) : console F A :=
  match m with Done a => Done ([], Value a) | Undef => Undef | NoFuel => NoFuel end.
(** [None] is undefined behaviour. *)
Definition ensure {A} (m : option A) : console F A := lift (defined m).

(** The exit status of a program whose [main] is [m], and what it printed. *)
Definition status_of (m : console F Z) : outcome (list (line F) * Z) :=
  match m with
  | Done (o, Value n) | Done (o, Exit n) => Done (o, n)
  | Undef => Undef
  | NoFuel => NoFuel
  end.

(** [for (i = 0; i < k; i++)] over a program. *)
Fixpoint repeat_for {S} (body : nat → S → console F S) (i k : nat) (s : S) : console F S :=
  match k with
  | O => mret s
  | Datatypes.S k => s ← body i s; repeat_for body (Datatypes.S i) k s
  end.

(** ** Laws *)

(** [gives m o a]: [m] prints [o] and goes on with [a]. *)
Definition gives {A} (m : console F A) (o : list (line F)) (a : A) : Prop := m = Done (o, Value a).

(** [exits m o n]: [m] prints [o] and exits with [n]. *)
Definition exits {A} (m : console F A) (o : list (line F)) (n : Z) : Prop := m = Done (o, Exit n).

Lemma gives_ret {A} (a : A) : gives (mret a) [] a.
Proof. done. Qed.

Lemma gives_printf fmt a : gives (printf fmt a) [Out (Print fmt a)] tt.
Proof. done. Qed.

Lemma gives_ensure {A} (m : option A) a : m = Some a → gives (ensure m) [] a.
Proof. by intros ->. Qed.

Lemma gives_lift {A} (m : outcome A) a : m = Done a → gives (lift m) [] a.
Proof. by intros ->. Qed.

Lemma gives_bind {A B} (m : console F A) (f : A → console F B) o a o' b :
  gives m o a → gives (f a) o' b → gives (m ≫= f) (o ++ o') b.
Proof. unfold gives. intros -> Hf. cbn. by rewrite Hf. Qed.

Lemma exits_bind {A B} (m : console F A) (f : A → console F B) o n :
  exits m o n → exits (m ≫= f) o n.
Proof. unfold exits. by intros ->. Qed.

Lemma exits_bind_r {A B} (m : console F A) (f : A → console F B) o a o' n :
  gives m o a → exits (f a) o' n → exits (m ≫= f) (o ++ o') n.
Proof. unfold gives, exits. intros -> Hf. cbn. by rewrite Hf. Qed.

Lemma undef_bind {A B} (m : console F A) (f : A → console F B) o a :
  gives m o a → f a = Undef → m ≫= f = Undef.
Proof. unfold gives. intros -> Hf. cbn. by rewrite Hf. Qed.

Lemma bind_gives {A B} (m : console F A) (f : A → console F B) o b :
  gives (m ≫= f) o b → ∃ o1 a o2, gives m o1 a ∧ gives (f a) o2 b ∧ o = o1 ++ o2.
Proof.
  unfold gives. destruct m as [[o1 [a|n]]| |] eqn:Hm; cbn; try done.
  destruct (f a) as [[o2 r]| |] eqn:Hf; cbn; try done. intros [= <- ->]. exists o1, a, o2. by rewrite Hf.
Qed.

Lemma bind_assoc {A B C} (m : console F A) (f : A → console F B) (g : B → console F C) :
  (m ≫= f) ≫= g = m ≫= (λ a, f a ≫= g).
Proof.
  destruct m as [[o [a|n]]| |]; cbn; try done. destruct (f a) as [[o1 [b|n]]| |]; cbn; try done.
  destruct (g b) as [[o2 r]| |]; cbn; try done. by rewrite app_assoc.
Qed.

(** A loop whose rounds all go on. *)
Lemma repeat_for_gives {S} (body : nat → S → console F S) (I : nat → S → list (line F) → Prop) i k s o :
  I i s o →
  (∀ j t o, (i <= j < i + k)%nat → I j t o → ∃ o' t', gives (body j t) o' t' ∧ I (Datatypes.S j) t' (o ++ o')) →
  ∃ o' s', gives (repeat_for body i k s) o' s' ∧ I (i + k)%nat s' (o ++ o').
Proof.
  revert i s o. induction k as [|k IH]; intros i s o Hi Hstep.
  - exists [], s. split; [done|]. by rewrite app_nil_r, Nat.add_0_r.
  - destruct (Hstep i s o ltac:(lia) Hi) as (o1 & t & Hb & Ht).
    destruct (IH (Datatypes.S i) t (o ++ o1) Ht) as (o2 & s' & Hr & HI).
    { intros j u o' Hj Hu. apply Hstep; [lia|done]. }
    exists (o1 ++ o2), s'. split; [by apply (gives_bind _ _ o1 t)|].
    rewrite app_assoc. by replace (i + Datatypes.S k)%nat with (Datatypes.S i + k)%nat by lia.
Qed.
End Console.

#[export] Hint Resolve gives_ret gives_printf gives_ensure gives_lift : qnova.

(** Steps of a program known to go on: [c_say] for a line printed, [c_with x] for
    a computation without output that gives [x], [c_part x] for a part that
    prints any lines and gives [x]. *)
Ltac c_say := apply (gives_bind _ _ [_] tt); [done|].
Ltac c_with x := apply (gives_bind _ _ [] x); [first [by apply gives_ensure|by apply gives_ret|idtac]|].
Ltac c_part x := eapply (gives_bind _ _ _ x).
