(* ===== verification/StateN.v ===== *)
(** * The n-qubit demonstration

    [src/quantum/stateN.c]: a program that builds the GHZ state of 2 to 16
    qubits in an array of [double], prints it and measures it. An index is a
    [long]; [None] is undefined behaviour. [rand], whether [calloc] succeeds and
    the arguments are parameters. *)

From Stdlib Require Import ZArith Lia ZifyBool Ascii String.
From stdpp Require Import base list numbers strings.
From S2P Require Import Prelude.
From S2P Require Import Float64.
From S2P Require Import Outcome.
From S2P Require Import CString.
From S2P Require Import Console.
From S2P Require Import ByteVM.
Open Scope Z_scope.

(** ** Indices and amplitudes *)

(** [1L << n]; shifting into the sign is undefined. *)
Definition long_shl (n : Z) : option Z := c_shl 63 1 n.

(** [amp[i]], read and written. *)
Definition fetch {A} (amp : list A) (i : Z) : option A := if 0 <=? i then amp !! Z.to_nat i else None.
Definition put {A} (amp : list A) (i : Z) (v : A) : option (list A) :=
  if (0 <=? i) && (i <? Z.of_nat (length amp)) then Some (<[Z.to_nat i := v]> amp) else None.

Section StateN.
Context {F : Type} `{FloatOps F} `{FloatLits F} (rand : nat → Z).
Abbreviation amps := (list F).

Definition print_bits (index n : Z) : console F unit :=
  _ ← printf "|" [];
  _ ← repeat_for (λ j _,
        bit ← ensure (index_bit index (n - 1 - Z.of_nat j));
        printf "%d" [AInt bit]) 0 (Z.to_nat n) tt;
  printf ">" [].

Definition h_gate_body (p : Z) (inv : F) (index : nat) (amp : amps) : option amps :=
  let i := Z.of_nat index in
  bit ← index_bit i p;
  if negb (bit =? 0) then Some amp
  else
    mask ← long_shl p;
    let j := Z.lor i mask in
    a ← fetch amp i;
    b ← fetch amp j;
    amp ← put amp i (f_mul (f_add a b) inv);
    put amp j (f_mul (f_sub a b) inv).

Definition h_gate (amp : amps) (n q : Z) : option amps :=
  dim ← long_shl n;
  for_range (h_gate_body (n - 1 - q) inv_sqrt2) 0 (Z.to_nat dim) amp.

Definition cnot_body {A} (pc pt : Z) (index : nat) (amp : list A) : option (list A) :=
  let i := Z.of_nat index in
  control ← index_bit i pc;
  if control =? 0 then Some amp
  else
    target ← index_bit i pt;
    if negb (target =? 0) then Some amp
    else
      mask ← long_shl pt;
      let j := Z.lor i mask in
      tmp ← fetch amp i;
      other ← fetch amp j;
      amp ← put amp i other;
      put amp j tmp.

Definition cnot (amp : amps) (n c t : Z) : option amps :=
  dim ← long_shl n;
  for_range (cnot_body (n - 1 - c) (n - 1 - t)) 0 (Z.to_nat dim) amp.

(** One round of the search: the first index whose cumulative probability
    reaches [r]. *)
Definition measure_body (amp : amps) (r : F) (i : nat) (acc : F) : option (ctl F Z) :=
  x ← amp !! i;
  let acc := f_add acc (f_mul x x) in
  Some (if f_leb r acc then Stop (Z.of_nat i) else Next acc).

(** With the first result of [rand]. *)
Definition measure (amp : amps) (dim : Z) : option (Z * amps) :=
  let r := f_div (f_of_Z (rand 0)) (f_of_Z RAND_MAX) in
  c ← for_ctl (measure_body amp r) 0 (Z.to_nat dim) f_zero;
  let picked := match c with Stop i => i | Next _ => dim - 1 end in
  if Z.of_nat (length amp) <? dim then None
  else
    amp ← put (replicate (Z.to_nat dim) f_zero ++ drop (Z.to_nat dim) amp) picked f_one;
    Some (picked, amp).

(** The amplitudes that are not close to zero. *)
Definition print_state (amp : amps) (n dim : Z) : console F unit :=
  _ ← repeat_for (λ i _,
        x ← ensure (amp !! i);
        if f_ltb lit_1em9 (f_abs x) then
          _ ← print_bits (Z.of_nat i) n;
          printf "=%.3f " [ADbl x]
        else mret tt) 0 (Z.to_nat dim) tt;
  printf "\n" [].

(** The number of qubits the arguments ask for. *)
Definition qubits_of (argv : list string) : option Z :=
  n ← match argv with arg :: _ => atoi arg | [] => Some 3 end;
  let n := if n <? 2 then 2 else n in
  Some (if 16 <? n then 16 else n).

(** H on qubit 0 and the CNOT chain. *)
Definition build_ghz (amp : amps) (n : Z) : option amps :=
  amp ← h_gate amp n 0;
  for_range (λ q amp, cnot amp n (Z.of_nat q) (Z.of_nat q + 1)) 0 (Z.to_nat (n - 1)) amp.

(** [argv] without the program's name; [main] returns its status. *)
Definition main (argv : list string) (calloc_ok : bool) : console F Z :=
  n ← ensure (qubits_of argv);
  dim ← ensure (long_shl n);
  if calloc_ok then
    amp ← ensure (put (replicate (Z.to_nat dim) f_zero) 0 f_one);
    _ ← printf "=== QBIT NOVA STATEN VM ===\n" [];
    _ ← printf "[STATEN] boundary: software virtual QCPU, not physical quantum hardware\n" [];
    _ ← printf "[STATEN] qubits: %d amplitudes: %ld\n" [AInt n; AInt dim];
    _ ← printf "[STATEN] building GHZ state: H q0 + CNOT chain\n" [];
    amp ← ensure (build_ghz amp n);
    _ ← printf "[STATEN] state: " [];
    _ ← print_state amp n dim;
    '(m, amp) ← ensure (measure amp dim);
    _ ← printf "[STATEN] MEASURE " [];
    _ ← print_bits m n;
    _ ← printf "\n" [];
    mret 0
  else
    _ ← eprintf "alloc failed\n" [];
    mret 1.
End StateN.
