(* ===== verification/StateNProps.v ===== *)
(** * The n-qubit demonstration builds and measures the GHZ state

    The loops of [stateN.c] are pair loops ([Gates]), for any amplitude type;
    the lemmas on them are shared with the circuit VM. *)

From Stdlib Require Import ZArith Lia ZifyBool Ascii String.
From stdpp Require Import base list numbers strings.
From S2P Require Import Prelude.
From S2P Require Import Float64.
From S2P Require Import Gates.
From S2P Require Import KernelSpec.
From S2P Require Import GHZ.
From S2P Require Import Outcome.
From S2P Require Import CString.
From S2P Require Import Console.
From S2P Require Import ByteVM.
From S2P Require Import StateN.
Open Scope Z_scope.

(** ** Indices *)

Lemma long_shl_spec n : 0 <= n < 63 → long_shl n = Some (2 ^ n).
Proof. intros. by apply c_shl_one. Qed.

Lemma b2z_eqb (b : bool) : (Z.b2z b =? 0) = negb b.
Proof. by destruct b. Qed.

(** ** Bodies of the loops *)

Section Bodies.
Context {A : Type}.
Implicit Types a : list A.

Lemma fetch_at a i : 0 <= i → fetch a i = at_ a i.
Proof. intros Hi. unfold fetch. by rewrite (proj2 (Z.leb_le 0 i) Hi). Qed.

Lemma put_at a i v x : 0 <= i → at_ a i = Some x → put a i v = Some (<[Z.to_nat i := v]> a).
Proof.
  intros Hi Hx. apply lookup_lt_Some in Hx. unfold put.
  by assert ((0 <=? i) && (i <? Z.of_nat (length a)) = true) as -> by lia.
Qed.

(** The part of a body after its tests. *)
Definition rewrite_pair (f : A → A → A * A) (i p : Z) a : option (list A) :=
  mask ← long_shl p;
  x ← fetch a i;
  y ← fetch a (Z.lor i mask);
  a ← put a i (f x y).1;
  put a (Z.lor i mask) (f x y).2.

Lemma rewrite_pair_spec f i p a :
  0 <= p < 63 → 0 <= i → Z.testbit i p = false →
  rewrite_pair f i p a =
    (x ← at_ a i; y ← at_ a (i + 2 ^ p);
     Some (<[Z.to_nat (i + 2 ^ p) := (f x y).2]> (<[Z.to_nat i := (f x y).1]> a))).
Proof.
  intros Hp Hi Hb. assert (0 < 2 ^ p) by (apply Z.pow_pos_nonneg; lia). unfold rewrite_pair.
  rewrite long_shl_spec by done. cbn [mbind option_bind]. rewrite lor_pow2, !fetch_at by (lia || done).
  destruct (at_ a i) as [x|] eqn:Hx; [|done]. cbn [mbind option_bind].
  destruct (at_ a (i + 2 ^ p)) as [y|] eqn:Hy; [|done]. cbn [mbind option_bind].
  rewrite (put_at _ _ _ x) by done. cbn [mbind option_bind].
  apply (put_at _ _ _ y); [lia|]. by rewrite at_insert_ne by lia.
Qed.

Lemma cnot_body_pair c p i a :
  0 <= c < 63 → 0 <= p < 63 → cnot_body c p i a = pair_body (sel_controlled c p) p swap_map i a.
Proof.
  intros Hc Hp. unfold cnot_body, pair_body, sel_controlled.
  rewrite !index_bit_spec by lia. cbn [mbind option_bind]. rewrite !b2z_eqb.
  destruct (Z.testbit (Z.of_nat i) c); [|done]. cbn [negb andb].
  destruct (Z.testbit (Z.of_nat i) p) eqn:Hb; [done|]. cbn [negb].
  by apply (rewrite_pair_spec swap_map); [|lia|].
Qed.

(** A loop of CNOT bodies on a vector of the right size. *)
Lemma cnot_loop n c t a :
  1 <= n < 63 → Z.of_nat (length a) = 2 ^ n → 0 <= c < n → 0 <= t < n → c ≠ t →
  ∃ a', for_range (cnot_body (n - 1 - c) (n - 1 - t)) 0 (Z.to_nat (2 ^ n)) a = Some a' ∧
    length a' = length a ∧
    for_range (pair_body (sel_controlled (n - 1 - c) (n - 1 - t)) (n - 1 - t) swap_map) 0 (Z.to_nat (2 ^ n)) a = Some a' ∧
    ∀ j, 0 <= j < 2 ^ n →
      at_ a' j = if Z.testbit j (n - 1 - c) then at_ a (flip_bit (n - 1 - t) j) else at_ a j.
Proof.
  intros Hn Hl Hc Ht Hne.
  destruct (pair_loop_spec n (n - 1 - t) ltac:(lia) (sel_controlled (n - 1 - c) (n - 1 - t)) swap_map
    (sel_controlled_clear _ _) a Hl) as (a' & Hrun & Hlen & Hspec).
  exists a'. split; [|split; [done|split; [done|]]].
  - rewrite <-Hrun. apply for_range_ext. intros. apply cnot_body_pair; lia.
  - intros j Hj. rewrite Hspec, pair_spec_swap with (n := n) by (done || lia). unfold sel_controlled.
    by rewrite (pair_base_clear n), (pair_base_other n), andb_true_r by lia.
Qed.
End Bodies.

(** ** The program *)

(** The basis state all of whose bits are [b], as it is printed. *)
Definition ket {F} (n b : Z) : list (line F) :=
  Out (Print "|" []) :: replicate (Z.to_nat n) (Out (Print "%d" [AInt b])) ++ [Out (Print ">" [])].

Section Bits.
Context {F : Type}.

Lemma print_bits_ket n b index :
  0 <= n < 64 → (∀ p, 0 <= p < n → Z.b2z (Z.testbit index p) = b) →
  gives (F := F) (print_bits index n) (ket n b) tt.
Proof.
  intros Hn Hb. unfold print_bits, ket.
  destruct (repeat_for_gives
    (λ (j : nat) (_ : unit), bit ← ensure (index_bit index (n - 1 - Z.of_nat j)); printf (F := F) "%d" [AInt bit])
    (λ j _ o, o = replicate j (Out (Print "%d" [AInt b]))) 0 (Z.to_nat n) tt []) as (o & [] & Hr & Ho); [done| |].
  - intros j [] o Hj ->. exists [Out (Print "%d" [AInt b])], tt. split; [|by rewrite replicate_S_end].
    rewrite index_bit_spec by lia. by rewrite (Hb (n - 1 - Z.of_nat j)) by lia.
  - cbn [app] in Ho. rewrite Nat.add_0_l in Ho. subst o.
    apply (gives_bind _ _ [Out (Print "|" [])] tt (replicate _ _ ++ [Out (Print ">" [])])); [done|].
    by apply (gives_bind _ _ _ tt [Out (Print ">" [])]).
Qed.

Lemma print_bits_zero n : 0 <= n < 64 → gives (F := F) (print_bits 0 n) (ket n 0) tt.
Proof. intros Hn. apply print_bits_ket; [done|]. intros p Hp. by rewrite Z.testbit_0_l. Qed.

Lemma print_bits_ones n : 0 <= n < 64 → gives (F := F) (print_bits (2 ^ n - 1) n) (ket n 1) tt.
Proof.
  intros Hn. apply print_bits_ket; [done|]. intros p Hp. change (2 ^ n - 1) with (high_ones n 0).
  rewrite testbit_high_ones by lia. by assert ((0 <=? p) && (p <? n) = true) as -> by lia.
Qed.
End Bits.

(** [1e-9] separates the two amplitudes. *)
Class LitsGHZ (F : Type) `{FloatOps F, FloatLits F} := {
  lits_zero : f_ltb lit_1em9 (f_abs f_zero) = false;
  lits_s : f_ltb lit_1em9 (f_abs inv_sqrt2) = true
}.

#[export] Instance b64_lits_ghz : LitsGHZ double.
Proof. split; vm_compute; reflexivity. Qed.

Section Demo.
Context {F : Type} `{GHZFloat F} `{!FloatLits F} `{!LitsGHZ F} (rand : nat → Z).

Lemma h_gate_body_pair p s i (a : list F) :
  0 <= p < 63 →
  h_gate_body p s i a = pair_body (sel_target p) p (λ x y, (f_mul (f_add x y) s, f_mul (f_sub x y) s)) i a.
Proof.
  intros Hp. unfold h_gate_body, pair_body, sel_target. rewrite index_bit_spec by lia.
  cbn [mbind option_bind]. rewrite b2z_eqb, negb_involutive.
  destruct (Z.testbit (Z.of_nat i) p) eqn:Hb; [done|]. cbn [negb].
  by apply (rewrite_pair_spec (λ x y, (f_mul (f_add x y) s, f_mul (f_sub x y) s))); [|lia|].
Qed.

Definition ghz_vector (n : Z) (a : list F) : Prop :=
  Z.of_nat (length a) = 2 ^ n ∧ two_at inv_sqrt2 f_zero n (2 ^ n - 1) a.

Lemma pow2_16 n : 2 <= n <= 16 → 4 <= 2 ^ n <= 2 ^ 16.
Proof. intros. split; [change 4 with (2 ^ 2)|]; apply Z.pow_le_mono_r; lia. Qed.

Lemma build_ghz_spec n a :
  2 <= n <= 16 → Z.of_nat (length a) = 2 ^ n →
  (∀ j, 0 <= j < 2 ^ n → at_ a j = Some (if j =? 0 then f_one else f_zero)) →
  ∃ a', build_ghz a n = Some a' ∧ ghz_vector n a'.
Proof.
  intros Hn Hl Ha. unfold build_ghz, h_gate. rewrite long_shl_spec by lia. cbn [mbind option_bind].
  set (f := λ x y : F, (f_mul (f_add x y) inv_sqrt2, f_mul (f_sub x y) inv_sqrt2)).
  rewrite (for_range_ext _ (pair_body (sel_target (n - 1 - 0)) (n - 1 - 0) f))
    by (intros; apply h_gate_body_pair; lia).
  destruct (pair_loop_spec n (n - 1 - 0) ltac:(lia) (sel_target _) f (sel_target_clear _) a Hl) as (a1 & -> & Hl1 & Hs1).
  cbn [mbind option_bind].
  destruct (for_range_inv
    (λ i b, length b = length a ∧ two_at inv_sqrt2 f_zero n (high_ones n (n - 1 - Z.of_nat i)) b)
    (λ q amp, cnot amp n (Z.of_nat q) (Z.of_nat q + 1)) 0 (Z.to_nat (n - 1)) a1) as (a2 & Hrun & Hl2 & Ha2).
  - split; [done|]. rewrite !Z.sub_0_r in *. apply (h_two_at _ _ _ f f_one a); [lia| | |done|done]; subst f; cbn beta.
    + by rewrite ghz_add_1_0, ghz_sub_1_0, ghz_mul_1_s.
    + by rewrite ghz_add_0_0, ghz_sub_0_0, ghz_mul_0_s.
  - intros q b Hq [Hlb Hb]. unfold cnot. rewrite long_shl_spec by lia. cbn [mbind option_bind].
    destruct (cnot_loop n (Z.of_nat q) (Z.of_nat q + 1) b) as (b' & -> & Hlb' & _ & Hb'); try lia.
    exists b'. split; [done|]. split; [lia|].
    replace (n - 1 - Z.of_nat (S q)) with (n - 1 - (Z.of_nat q + 1)) by lia.
    apply (cx_two_at _ _ n (Z.of_nat q + 1) b b' ltac:(lia)).
    + by replace (n - (Z.of_nat q + 1)) with (n - 1 - Z.of_nat q) by lia.
    + by replace (Z.of_nat q + 1 - 1) with (Z.of_nat q) by lia.
  - exists a2. split; [done|]. split; [lia|].
    by replace (n - 1 - Z.of_nat (0 + Z.to_nat (n - 1))) with 0 in Ha2 by lia.
Qed.

Lemma ghz_vector_lookup n a (i : nat) :
  ghz_vector n a → Z.of_nat i < 2 ^ n →
  a !! i = Some (if (Z.of_nat i =? 0) || (Z.of_nat i =? 2 ^ n - 1) then inv_sqrt2 else f_zero).
Proof. intros [_ Ha] Hi. rewrite <-(Ha (Z.of_nat i)) by lia. unfold at_. by rewrite Nat2Z.id. Qed.

(** Only the all-zero and the all-one state can be measured. *)
Lemma measure_ghz n a :
  2 <= n <= 16 → ghz_vector n a →
  ∃ m a', measure rand a (2 ^ n) = Some (m, a') ∧ (m = 0 ∨ m = 2 ^ n - 1).
Proof.
  intros Hn Ha. pose proof (pow2_16 n Hn) as Hd. unfold measure.
  set (r := f_div (f_of_Z (rand 0)) (f_of_Z RAND_MAX)).
  assert (∃ c, for_ctl (measure_body a r) 0 (Z.to_nat (2 ^ n)) f_zero = Some c ∧
    match c with Stop s => s = 0 ∨ s = 2 ^ n - 1 | Next _ => True end) as (c & -> & Hc).
  { destruct (for_ctl_inv
      (λ i acc, (i = 0%nat ∧ acc = f_zero) ∨ (0 < Z.of_nat i < 2 ^ n ∧ acc = half ∧ f_leb r half = false) ∨
         Z.of_nat i = 2 ^ n)
      (λ s, s = 0 ∨ s = 2 ^ n - 1) (measure_body a r) 0 (Z.to_nat (2 ^ n)) f_zero)
      as [(s & Hs & _)|(s & Hs & Hq)]; [by left| |by exists (Next s)|by exists (Stop s)].
    intros i acc Hi Hinv. unfold measure_body. rewrite (ghz_vector_lookup n) by (done || lia). cbn [mbind option_bind].
    destruct Hinv as [[-> ->]|[(Hin & -> & Hlt)|]]; [| |lia].
    - change (Z.of_nat 0 =? 0) with true. cbn [orb]. change (f_mul inv_sqrt2 inv_sqrt2) with half. rewrite half_0_l.
      destruct (f_leb r half) eqn:Hr; [right; exists 0; by auto|]. left. exists half. split; [done|]. right. left. split; [lia|done].
    - assert ((Z.of_nat i =? 0) = false) as -> by lia. cbn [orb]. destruct (Z.eqb_spec (Z.of_nat i) (2 ^ n - 1)) as [Hl|Hl].
      + destruct (f_leb r _) in |- *; [right; exists (Z.of_nat i); eauto|]. left. eexists. split; [done|]. right. right. lia.
      + rewrite ghz_mul_0_0, half_0_r, Hlt. left. exists half. split; [done|]. right. left. split; [lia|done]. }
  cbn [mbind option_bind]. destruct Ha as [Hl _].
  assert ((Z.of_nat (length a) <? 2 ^ n) = false) as -> by lia.
  set (m := match c with Next _ => 2 ^ n - 1 | Stop i => i end).
  assert (m = 0 ∨ m = 2 ^ n - 1) as Hm by (subst m; destruct c; [by right|done]).
  rewrite drop_ge, app_nil_r by lia. unfold put. rewrite length_replicate.
  assert ((0 <=? m) && (m <? Z.of_nat (Z.to_nat (2 ^ n))) = true) as -> by lia. cbn [mbind option_bind]. eauto.
Qed.

(** The two amplitudes, as they are printed. *)
Definition ghz_state_lines (n : Z) : list (line F) :=
  ket n 0 ++ [Out (Print "=%.3f " [ADbl inv_sqrt2])] ++ ket n 1 ++ [Out (Print "=%.3f " [ADbl inv_sqrt2])] ++
  [Out (Print "\n" [])].

Lemma print_state_ghz n a : 2 <= n <= 16 → ghz_vector n a → gives (print_state a n (2 ^ n)) (ghz_state_lines n) tt.
Proof.
  intros Hn Ha. pose proof (pow2_16 n Hn) as Hd. set (eq_s := [Out (Print "=%.3f " [ADbl inv_sqrt2])] : list (line F)).
  unfold print_state.
  destruct (repeat_for_gives
    (λ (i : nat) (_ : unit), x ← ensure (a !! i);
        if f_ltb lit_1em9 (f_abs x) then _ ← print_bits (Z.of_nat i) n; printf (F := F) "=%.3f " [ADbl x] else mret tt)
    (λ i _ o, o = if Z.of_nat i =? 0 then [] else if Z.of_nat i <=? 2 ^ n - 1 then ket n 0 ++ eq_s else ket n 0 ++ eq_s ++ ket n 1 ++ eq_s)
    0 (Z.to_nat (2 ^ n)) tt []) as (o & [] & Hr & Ho); [done| |].
  - intros i [] o Hi ->. rewrite (ghz_vector_lookup n) by (done || lia).
    assert ((Z.of_nat (S i) =? 0) = false) as -> by lia.
    destruct (Z.eqb_spec (Z.of_nat i) 0) as [Hz|Hz]; [|destruct (Z.eqb_spec (Z.of_nat i) (2 ^ n - 1)) as [Hl|Hl]].
    + cbn [orb]. exists (ket n 0 ++ eq_s), tt. split.
      * apply (gives_bind _ _ [] inv_sqrt2); [done|]. rewrite lits_s. apply (gives_bind _ _ (ket n 0) tt eq_s); [|done].
        rewrite Hz. apply print_bits_zero. lia.
      * by assert ((Z.of_nat (S i) <=? 2 ^ n - 1) = true) as -> by lia.
    + cbn [orb]. exists (ket n 1 ++ eq_s), tt. split.
      * apply (gives_bind _ _ [] inv_sqrt2); [done|]. rewrite lits_s. apply (gives_bind _ _ (ket n 1) tt eq_s); [|done].
        rewrite Hl. apply print_bits_ones. lia.
      * assert ((Z.of_nat i <=? 2 ^ n - 1) = true) as -> by lia.
        assert ((Z.of_nat (S i) <=? 2 ^ n - 1) = false) as -> by lia. by rewrite <-!app_assoc.
    + cbn [orb]. exists [], tt. split.
      * apply (gives_bind _ _ [] f_zero); [done|]. by rewrite lits_zero.
      * assert ((Z.of_nat i <=? 2 ^ n - 1) = true) as -> by lia.
        assert ((Z.of_nat (S i) <=? 2 ^ n - 1) = true) as -> by lia. by rewrite app_nil_r.
  - assert ((Z.of_nat (0 + Z.to_nat (2 ^ n)) =? 0) = false) as Hz by lia. rewrite Hz in Ho.
    assert ((Z.of_nat (0 + Z.to_nat (2 ^ n)) <=? 2 ^ n - 1) = false) as Hl by lia. rewrite Hl in Ho.
    cbn [app] in Ho. subst o. unfold ghz_state_lines.
    replace (ket n 0 ++ [Out (Print "=%.3f " [ADbl inv_sqrt2])] ++ ket n 1 ++
      [Out (Print "=%.3f " [ADbl inv_sqrt2])] ++ [Out (Print "\n" [])])
      with ((ket n 0 ++ eq_s ++ ket n 1 ++ eq_s) ++ [Out (Print "\n" [])] : list (line F))
      by (subst eq_s; by rewrite <-!app_assoc).
    by apply (gives_bind _ _ (ket n 0 ++ eq_s ++ ket n 1 ++ eq_s) tt [Out (Print "\n" [])]).
Qed.

(** The lines before the state. *)
Definition banner (n : Z) : list (line F) := [
  Out (Print "=== QBIT NOVA STATEN VM ===\n" []);
  Out (Print "[STATEN] boundary: software virtual QCPU, not physical quantum hardware\n" []);
  Out (Print "[STATEN] qubits: %d amplitudes: %ld\n" [AInt n; AInt (2 ^ n)]);
  Out (Print "[STATEN] building GHZ state: H q0 + CNOT chain\n" []);
  Out (Print "[STATEN] state: " [])].
End Demo.

Lemma qubits_of_range argv n : qubits_of argv = Some n → 2 <= n <= 16.
Proof.
  unfold qubits_of. destruct (match argv with arg :: _ => atoi arg | [] => Some 3 end) as [m|]; [|done].
  cbn. intros [= <-]. case_tests; lia.
Qed.

(** The demonstration measures all zeros or all ones: whatever number of
    qubits the argument asks for, clamped to 2 to 16, and whatever the random
    number, the program builds the GHZ state without undefined behaviour,
    prints exactly its two amplitudes [1/sqrt 2], measures a state all of whose
    bits are equal, and ends with status 0. *)
Theorem staten_ghz {F} `{GHZFloat F} `{!FloatLits F} `{!LitsGHZ F} (rand : nat → Z) (argv : list string) (n : Z) :
  qubits_of argv = Some n →
  2 <= n <= 16 ∧ ∃ b, (b = 0 ∨ b = 1) ∧
    gives (main rand argv true)
      (banner n ++ ghz_state_lines n ++ [Out (Print "[STATEN] MEASURE " [])] ++ ket n b ++ [Out (Print "\n" [])]) 0.
Proof.
  intros Hq. pose proof (qubits_of_range _ _ Hq) as Hn. split; [done|]. pose proof (pow2_16 n Hn) as Hd.
  set (a0 := <[0%nat := f_one]> (replicate (Z.to_nat (2 ^ n)) f_zero) : list F).
  destruct (build_ghz_spec n a0) as (a & Hbuild & Ha); [done|by subst a0; rewrite length_insert, length_replicate; lia| |].
  { intros j Hj. subst a0. unfold at_. destruct (Z.eqb_spec j 0) as [->|Hne].
    - rewrite list_lookup_insert_eq; [done|]. rewrite length_replicate. lia.
    - rewrite list_lookup_insert_ne by lia. apply lookup_replicate. split; [done|lia]. }
  destruct (measure_ghz rand n a Hn Ha) as (m & a' & Hm & Hcase).
  exists (if decide (m = 0) then 0 else 1). split; [case_decide; auto|].
  assert (gives (F := F) (print_bits m n) (ket n (if decide (m = 0) then 0 else 1)) tt) as Hket.
  { destruct Hcase as [->| ->]; [rewrite decide_True by done; apply print_bits_zero; lia|].
    rewrite decide_False by lia. apply print_bits_ones. lia. }
  unfold main. apply (gives_bind _ _ [] n); [by apply gives_ensure|].
  apply (gives_bind _ _ [] (2 ^ n)); [apply gives_ensure, long_shl_spec; lia|].
  apply (gives_bind _ _ [] a0).
  { apply gives_ensure. unfold put. rewrite length_replicate.
    by assert ((0 <=? 0) && (0 <? Z.of_nat (Z.to_nat (2 ^ n))) = true) as -> by lia. }
  unfold banner. cbn [app].
  do 4 (apply (gives_bind _ _ [_] tt); [done|]).
  apply (gives_bind _ _ [] a); [by apply gives_ensure|].
  apply (gives_bind _ _ [_] tt); [done|].
  apply gives_bind with tt; [by apply print_state_ghz|].
  apply (gives_bind _ _ [] (m, a')); [by apply gives_ensure|].
  apply (gives_bind _ _ [_] tt); [done|].
  apply gives_bind with tt; [exact Hket|].
  by apply (gives_bind _ _ [_] tt).
Qed.

Lemma staten_ghz_witness :
  2 <= 16 <= 16 ∧ ∃ b, (b = 0 ∨ b = 1) ∧
    gives (main (F := double) (λ _, 77) ["40"%string] true)
      (banner 16 ++ ghz_state_lines 16 ++ [Out (Print "[STATEN] MEASURE " [])] ++ ket 16 b ++ [Out (Print "\n" [])]) 0.
Proof. apply (staten_ghz (λ _, 77) ["40"%string] 16). reflexivity. Defined.
