(* ===== verification/QCircuit.v ===== *)
(** * The circuit VM

    [src/quantum/qcircuit.c]: reads a circuit of the gates h x y z s t cx swap,
    and prints it as OpenQASM or runs it on a state vector. The static
    variables are the record [circuit]; [fail] prints a message and exits.

    Parameters: [rand], the library function [cexp], whether [calloc] succeeds
    and the files. A complex product is the plain formula; what C11 Annex G adds
    to recover infinities is for operands that are not finite. An escape such as
    [\n] is two characters of a format, as in the source. *)

From Stdlib Require Import ZArith Lia ZifyBool Ascii String.
From stdpp Require Import base list numbers strings.
From S2P Require Import Prelude.
From S2P Require Import Float64.
From S2P Require Import Kernel.
From S2P Require Import Outcome.
From S2P Require Import CString.
From S2P Require Import Console.
From S2P Require Import ByteVM.
From S2P Require Import StateN.
Open Scope Z_scope.

Definition MAX_QUBITS : Z := 16.
Definition MAX_OPS : nat := 4096.

(** A name is at most 7 of the 8 bytes of [op]. *)
Record Op := { gate : string; op_a : Z; op_b : Z }.

(** [NOPS] is the length of [OPS]. *)
Record circuit := { NQ : Z; HAS_MEASURE : bool; OPS : list Op }.

Definition initial_circuit : circuit := {| NQ := 0; HAS_MEASURE := false; OPS := [] |}.

Section Circuit.
Context {F : Type} `{FloatOps F} `{FloatLits F} (rand : nat → Z) (cexp : complex F → complex F).
Abbreviation amps := (list (complex F)).
Abbreviation prog := (console F).

(** ** Building a circuit *)

Definition fail {A} (msg : string) : prog A :=
  _ ← eprintf "ERROR: %s\n" [AStr msg];
  exit 1.

Definition add_op (op : string) (a b : Z) (c : circuit) : prog circuit :=
  if (MAX_OPS <=? length (OPS c))%nat then fail "too many circuit operations"
  else mret {| NQ := NQ c; HAS_MEASURE := HAS_MEASURE c;
               OPS := OPS c ++ [{| gate := str_take 7 op; op_a := a; op_b := b |}] |}.

Definition require_qubit (q : Z) (c : circuit) : prog unit :=
  if (q <? 0) || (NQ c <=? q) then fail "qubit index out of range" else mret tt.

Definition add_ghz (c : circuit) : prog circuit :=
  if NQ c <? 2 then fail "ghz requires qubits N before ghz, with N >= 2"
  else
    c ← add_op "h" 0 0 c;
    repeat_for (λ q c, add_op "cx" (Z.of_nat q) (Z.of_nat q + 1) c) 0 (Z.to_nat (NQ c - 1)) c.

(** ** Gates *)

Definition c_mul (x y : complex F) : complex F :=
  mk_complex (f_sub (f_mul (re x) (re y)) (f_mul (im x) (im y)))
    (f_add (f_mul (re x) (im y)) (f_mul (im x) (re y))).
(** A real number as a complex one, [I], negation, and division by a real. *)
Definition c_real (x : F) : complex F := mk_complex x f_zero.
Definition c_i : complex F := mk_complex f_zero f_one.
Definition c_neg (x : complex F) : complex F := mk_complex (f_neg (re x)) (f_neg (im x)).
Definition c_div_real (x : complex F) (d : F) : complex F := mk_complex (f_div (re x) d) (f_div (im x) d).

Definition single_body (p : Z) (m00 m01 m10 m11 : complex F) (index : nat) (amp : amps) : option amps :=
  let i := Z.of_nat index in
  bit ← index_bit i p;
  if negb (bit =? 0) then Some amp
  else
    mask ← long_shl p;
    let j := Z.lor i mask in
    x ← fetch amp i;
    y ← fetch amp j;
    amp ← put amp i (c_add (c_mul m00 x) (c_mul m01 y));
    put amp j (c_add (c_mul m10 x) (c_mul m11 y)).

Definition g_single (amp : amps) (n q : Z) (m00 m01 m10 m11 : complex F) : option amps :=
  dim ← long_shl n;
  for_range (single_body (n - 1 - q) m00 m01 m10 m11) 0 (Z.to_nat dim) amp.

Definition g_h (amp : amps) (n q : Z) : option amps :=
  let s := inv_sqrt2 in g_single amp n q (c_real s) (c_real s) (c_real s) (c_real (f_neg s)).
Definition g_x (amp : amps) (n q : Z) : option amps := g_single amp n q c_zero c_one c_one c_zero.
Definition g_y (amp : amps) (n q : Z) : option amps := g_single amp n q c_zero (c_neg c_i) c_i c_zero.
Definition g_z (amp : amps) (n q : Z) : option amps :=
  g_single amp n q c_one c_zero c_zero (c_real (f_of_Z (-1))).
Definition g_s (amp : amps) (n q : Z) : option amps := g_single amp n q c_one c_zero c_zero c_i.
(** [cexp(I * QPI / 4.0)] *)
Definition t_phase : complex F := cexp (c_div_real (c_scale c_i lit_pi) (f_of_Z 4)).
Definition g_t (amp : amps) (n q : Z) : option amps := g_single amp n q c_one c_zero c_zero t_phase.

Definition g_cx (amp : amps) (n c t : Z) : prog amps :=
  if c =? t then fail "cx control and target cannot be same"
  else
    ensure (dim ← long_shl n;
            for_range (cnot_body (n - 1 - c) (n - 1 - t)) 0 (Z.to_nat dim) amp).

Definition g_swap (amp : amps) (n a b : Z) : prog amps :=
  if a =? b then mret amp
  else
    amp ← g_cx amp n a b;
    amp ← g_cx amp n b a;
    g_cx amp n a b.

(** One operation of the circuit. *)
Definition apply_op (n : Z) (o : Op) (amp : amps) : prog amps :=
  if (gate o =? "h")%string then ensure (g_h amp n (op_a o))
  else if (gate o =? "x")%string then ensure (g_x amp n (op_a o))
  else if (gate o =? "y")%string then ensure (g_y amp n (op_a o))
  else if (gate o =? "z")%string then ensure (g_z amp n (op_a o))
  else if (gate o =? "s")%string then ensure (g_s amp n (op_a o))
  else if (gate o =? "t")%string then ensure (g_t amp n (op_a o))
  else if (gate o =? "cx")%string then g_cx amp n (op_a o) (op_b o)
  else if (gate o =? "swap")%string then g_swap amp n (op_a o) (op_b o)
  else mret amp.

Fixpoint apply_ops (n : Z) (ops : list Op) (amp : amps) : prog amps :=
  match ops with
  | [] => mret amp
  | o :: ops => amp ← apply_op n o amp; apply_ops n ops amp
  end.

(** ** Measurement and printing *)

Definition measure_all_body (amp : amps) (r : F) (i : nat) (acc : F) : option (ctl F Z) :=
  x ← amp !! i;
  let acc := f_add acc (c_norm2 x) in
  Some (if f_leb r acc then Stop (Z.of_nat i) else Next acc).

(** With the first result of [rand]. *)
Definition measure_all (amp : amps) (dim : Z) : option Z :=
  let r := f_div (f_of_Z (rand 0)) (f_of_Z RAND_MAX) in
  c ← for_ctl (measure_all_body amp r) 0 (Z.to_nat dim) f_zero;
  Some (match c with Stop i => i | Next _ => dim - 1 end).

Definition print_amplitude (x : complex F) : prog unit :=
  if f_ltb (f_abs (im x)) lit_1em9 then printf "=%.3f " [ADbl (re x)]
  else if f_ltb (f_abs (re x)) lit_1em9 then printf "=%.3fi " [ADbl (im x)]
  else printf "=(%.3f%+.3fi) " [ADbl (re x); ADbl (im x)].

Definition print_amplitudes (amp : amps) (n dim : Z) : prog unit :=
  repeat_for (λ i _,
    x ← ensure (amp !! i);
    if f_ltb lit_1em9 (c_norm2 x) then
      _ ← print_bits (Z.of_nat i) n;
      print_amplitude x
    else mret tt) 0 (Z.to_nat dim) tt.

Definition simulate (calloc_ok : bool) (c : circuit) : prog unit :=
  dim ← ensure (long_shl (NQ c));
  if calloc_ok then
    amp ← ensure (put (replicate (Z.to_nat dim) c_zero) 0 c_one);
    _ ← printf "=== QBIT NOVA CIRCUIT VM ===\n" [];
    _ ← printf "[CIRCUIT] boundary: software virtual QCPU, not physical quantum hardware\n" [];
    _ ← printf "[CIRCUIT] qubits: %d amplitudes: %ld gates: %d\n" [AInt (NQ c); AInt dim; AInt (Z.of_nat (length (OPS c)))];
    amp ← apply_ops (NQ c) (OPS c) amp;
    _ ← printf "[CIRCUIT] state: " [];
    _ ← print_amplitudes amp (NQ c) dim;
    _ ← printf "\n" [];
    if HAS_MEASURE c then
      m ← ensure (measure_all amp dim);
      _ ← printf "[CIRCUIT] MEASURE " [];
      _ ← print_bits m (NQ c);
      printf "\n" []
    else mret tt
  else fail "state allocation failed".

(** ** OpenQASM *)

(** [include \"stdgates.inc\";\n\n], with its quotes. *)
Definition include_format : string :=
  "include \" +:+ String QUOTE ("stdgates.inc\" +:+ String QUOTE ";\n\n").

Definition emit_op (o : Op) : prog unit :=
  if (gate o =? "h")%string then printf "h q[%d];\n" [AInt (op_a o)]
  else if (gate o =? "x")%string then printf "x q[%d];\n" [AInt (op_a o)]
  else if (gate o =? "y")%string then printf "y q[%d];\n" [AInt (op_a o)]
  else if (gate o =? "z")%string then printf "z q[%d];\n" [AInt (op_a o)]
  else if (gate o =? "s")%string then printf "s q[%d];\n" [AInt (op_a o)]
  else if (gate o =? "t")%string then printf "t q[%d];\n" [AInt (op_a o)]
  else if (gate o =? "cx")%string then printf "cx q[%d], q[%d];\n" [AInt (op_a o); AInt (op_b o)]
  else if (gate o =? "swap")%string then printf "swap q[%d], q[%d];\n" [AInt (op_a o); AInt (op_b o)]
  else mret tt.

Fixpoint emit_ops (ops : list Op) : prog unit :=
  match ops with
  | [] => mret tt
  | o :: ops => _ ← emit_op o; emit_ops ops
  end.

Definition emit_qasm (c : circuit) : prog unit :=
  _ ← printf "OPENQASM 3.0;\n" [];
  _ ← printf include_format [];
  _ ← printf "qubit[%d] q;\n" [AInt (NQ c)];
  _ ← printf "bit[%d] c;\n\n" [AInt (NQ c)];
  _ ← emit_ops (OPS c);
  if HAS_MEASURE c then
    _ ← printf "\n" [];
    repeat_for (λ q _, printf "c[%d] = measure q[%d];\n" [AInt (Z.of_nat q); AInt (Z.of_nat q)]) 0 (Z.to_nat (NQ c)) tt
  else mret tt.

(** ** Reading a circuit *)

(** [fgets] with a buffer of [S n] bytes: the line read and the rest. *)
Fixpoint fgets (n : nat) (s : string) : string * string :=
  match n, s with
  | S n, String c s =>
      if (c =? NEWLINE)%char then (String c EmptyString, s)
      else let '(l, r) := fgets n s in (String c l, r)
  | _, _ => (EmptyString, s)
  end.

(** [%d]: [None] when no number is there; a number that is no [int] is
    undefined. *)
Definition scan_int (s : string) : outcome (option (Z * string)) :=
  let s := skip_spaces s in
  let '(sign, s) := match s with
                    | String "-" s' => (-1, s')
                    | String "+" s' => (1, s')
                    | _ => (1, s)
                    end in
  let '(digits, rest) := span isdigit s in
  match digits with
  | EmptyString => Done None
  | _ =>
      let v := sign * digits_value 0 digits in
      _ ← guard_ub ((- 2 ^ 31 <=? v) && (v <? 2 ^ 31));
      Done (Some (v, rest))
  end.

(** [sscanf(line, "%63s %d %d", kw, &q1, &q2)]: its result, with [q1] and [q2]
    0 before. An empty line gives [EOF]. *)
Definition scan_line (line : string) : outcome (Z * string * Z * Z) :=
  let '(word, _) := span (λ c, negb (isspace c)) (skip_spaces line) in
  let kw := str_take 63 word in
  match kw with
  | EmptyString => Done (-1, EmptyString, 0, 0)
  | _ =>
      n1 ← scan_int (str_drop (String.length kw) (skip_spaces line));
      match n1 with
      | None => Done (1, kw, 0, 0)
      | Some (q1, rest) =>
          n2 ← scan_int rest;
          match n2 with
          | None => Done (2, kw, q1, 0)
          | Some (q2, _) => Done (3, kw, q1, q2)
          end
      end
  end.

Definition is_single (kw : string) : bool :=
  ((kw =? "h") || (kw =? "x") || (kw =? "y") || (kw =? "z") || (kw =? "s") || (kw =? "t"))%string.
Definition is_double (kw : string) : bool := ((kw =? "cx") || (kw =? "swap"))%string.

(** One line of the file. *)
Definition load_line (line : string) (c : circuit) : prog circuit :=
  if ((head_char line =? "#") || (head_char line =? NEWLINE))%char then mret c
  else
    '(got, kw, q1, q2) ← lift (scan_line (c_string line));
    if got <? 1 then mret c
    else if (kw =? "qubits")%string then
      if negb (got =? 2) then fail "qubits requires exactly one integer operand"
      else if (q1 <? 1) || (MAX_QUBITS <? q1) then fail "qubits must be 1..16"
      else mret {| NQ := q1; HAS_MEASURE := HAS_MEASURE c; OPS := OPS c |}
    else if (kw =? "ghz")%string then
      if negb (got =? 1) then fail "ghz does not accept operands" else add_ghz c
    else if is_single kw then
      if negb (got =? 2) then fail "single-qubit gate requires exactly one integer operand"
      else
        _ ← require_qubit q1 c;
        add_op kw q1 0 c
    else if is_double kw then
      if negb (got =? 3) then fail "two-qubit gate requires exactly two integer operands"
      else
        _ ← require_qubit q1 c;
        _ ← require_qubit q2 c;
        add_op kw q1 q2 c
    else if (kw =? "measure")%string then
      if negb (got =? 1) then fail "measure does not accept operands"
      else mret {| NQ := NQ c; HAS_MEASURE := true; OPS := OPS c |}
    else
      _ ← eprintf "ERROR: unknown circuit op: %s\n" [AStr kw];
      exit 1.

(** Every round reads a character, so the length of the text is fuel enough. *)
Fixpoint load_lines (fuel : nat) (text : string) (c : circuit) : prog circuit :=
  match text with
  | EmptyString => mret c
  | _ =>
      match fuel with
      | O => NoFuel
      | S fuel =>
          let '(line, rest) := fgets 255 text in
          c ← load_line line c;
          load_lines fuel rest c
      end
  end.

(** [file] is the contents of the file, [None] when it cannot be opened. *)
Definition load_circuit (file : option string) (path : string) (c : circuit) : prog circuit :=
  match file with
  | None => _ ← perror path; exit 1
  | Some text => load_lines (String.length text) text c
  end.

(** ** The program *)

(** [argv] without the program's name. *)
Definition main (argv : list string) (fopen : string → option string) (calloc_ok : bool) : prog Z :=
  let '(qasm, args) := match argv with
                       | a :: rest => if (a =? "--qasm")%string then (true, rest) else (false, argv)
                       | [] => (false, [])
                       end in
  match args with
  | [] => _ ← eprintf "usage: qnova-circuit [--qasm] <file|N>\n" []; mret 1
  | arg :: _ =>
      c ←
        (if str_forall isdigit arg then
           n ← ensure (atoi arg);
           let n := if n <? 2 then 2 else n in
           let n := if MAX_QUBITS <? n then MAX_QUBITS else n in
           c ← add_ghz {| NQ := n; HAS_MEASURE := false; OPS := [] |};
           mret {| NQ := NQ c; HAS_MEASURE := true; OPS := OPS c |}
         else
           c ← load_circuit (fopen arg) arg initial_circuit;
           if NQ c <? 1 then fail "circuit missing qubits N" else mret c);
      _ ← (if qasm : bool then emit_qasm c else simulate calloc_ok c);
      mret 0
  end.
End Circuit.
