(* ===== verification/QCircuitProps.v ===== *)
(** * The gates of the circuit VM

    Every gate loop of [qcircuit.c] is a pair loop with the gate's matrix, for
    any number type. On a circuit whose operations name qubits of the register
    nothing is undefined and nothing fails. *)

From Stdlib Require Import ZArith Lia ZifyBool Ascii String.
From stdpp Require Import base list numbers strings.
From S2P Require Import Prelude.
From S2P Require Import Float64.
From S2P Require Import Gates.
From S2P Require Import Kernel.
From S2P Require Import KernelSpec.
From S2P Require Import Outcome.
From S2P Require Import CString.
From S2P Require Import Console.
From S2P Require Import ByteVM.
From S2P Require Import StateN.
From S2P Require Import StateNProps.
From S2P Require Import QCircuit.
Open Scope Z_scope.

(** An operation that names qubits of a register of [n], and two different ones
    for [cx]. *)
Definition op_ok (n : Z) (o : Op) : Prop :=
  (is_single (gate o) = true ∧ 0 <= op_a o < n) ∨
  (gate o = "cx"%string ∧ 0 <= op_a o < n ∧ 0 <= op_b o < n ∧ op_a o ≠ op_b o) ∨
  (gate o = "swap"%string ∧ 0 <= op_a o < n ∧ 0 <= op_b o < n).

Record circuit_ok (c : circuit) : Prop := {
  co_qubits : 1 <= NQ c <= MAX_QUBITS;
  co_ops : Forall (op_ok (NQ c)) (OPS c)
}.

(** ** Loops *)

Section Loops.
Context {F : Type} `{FloatOps F}.
Abbreviation amps := (list (complex F)).

(** The gate with this matrix, on a pair. *)
Definition m_map (m00 m01 m10 m11 x y : complex F) : complex F * complex F :=
  (c_add (c_mul m00 x) (c_mul m01 y), c_add (c_mul m10 x) (c_mul m11 y)).

Lemma single_body_pair p m00 m01 m10 m11 i (a : amps) :
  0 <= p < 63 →
  single_body p m00 m01 m10 m11 i a = pair_body (sel_target p) p (m_map m00 m01 m10 m11) i a.
Proof.
  intros Hp. unfold single_body, pair_body, sel_target. rewrite index_bit_spec by lia.
  cbn [mbind option_bind]. rewrite b2z_eqb, negb_involutive.
  destruct (Z.testbit (Z.of_nat i) p) eqn:Hb; [done|]. cbn [negb].
  by apply (rewrite_pair_spec (m_map m00 m01 m10 m11)); [|lia|].
Qed.

Definition vector (n : Z) (a : amps) : Prop := Z.of_nat (length a) = 2 ^ n.

Lemma g_single_spec n q m00 m01 m10 m11 a :
  1 <= n <= MAX_QUBITS → vector n a → 0 <= q < n →
  ∃ a', g_single a n q m00 m01 m10 m11 = Some a' ∧ vector n a' ∧
    for_range (pair_body (sel_target (n - 1 - q)) (n - 1 - q) (m_map m00 m01 m10 m11)) 0 (Z.to_nat (2 ^ n)) a = Some a' ∧
    ∀ j, 0 <= j < 2 ^ n →
      at_ a' j = pair_spec (sel_target (n - 1 - q)) (n - 1 - q) (m_map m00 m01 m10 m11) a j.
Proof.
  unfold MAX_QUBITS, vector. intros Hn Hl Hq.
  destruct (pair_loop_spec n (n - 1 - q) ltac:(lia) (sel_target _) (m_map m00 m01 m10 m11) (sel_target_clear _) a Hl)
    as (a' & Hrun & Hl' & Hspec).
  exists a'. split; [|split; [lia|done]]. unfold g_single. rewrite long_shl_spec by lia. cbn [mbind option_bind].
  rewrite <-Hrun. apply for_range_ext. intros. apply single_body_pair. lia.
Qed.

Lemma g_cx_spec n c t (a : amps) :
  1 <= n <= MAX_QUBITS → vector n a → 0 <= c < n → 0 <= t < n → c ≠ t →
  ∃ a', gives (g_cx a n c t) [] a' ∧ vector n a' ∧
    for_range (pair_body (sel_controlled (n - 1 - c) (n - 1 - t)) (n - 1 - t) swap_map) 0 (Z.to_nat (2 ^ n)) a = Some a' ∧
    ∀ j, 0 <= j < 2 ^ n →
      at_ a' j = if Z.testbit j (n - 1 - c) then at_ a (flip_bit (n - 1 - t) j) else at_ a j.
Proof.
  unfold MAX_QUBITS, vector. intros Hn Hl Hc Ht Hne.
  destruct (cnot_loop n c t a ltac:(lia) Hl Hc Ht Hne) as (a' & Hrun & Hl' & Hpair & Hspec).
  exists a'. split; [|split; [lia|done]]. unfold g_cx. rewrite (proj2 (Z.eqb_neq c t) Hne), long_shl_spec by lia.
  cbn [mbind option_bind]. rewrite Hrun. done.
Qed.
End Loops.

(** ** Exchanging two qubits *)

(** [j] with bits [p] and [q] exchanged. *)
Definition swap_bits (p q j : Z) : Z :=
  if eqb (Z.testbit j p) (Z.testbit j q) then j else flip_bit p (flip_bit q j).

Lemma flip_bit_comm p q j : 0 <= p → 0 <= q → p ≠ q → flip_bit p (flip_bit q j) = flip_bit q (flip_bit p j).
Proof.
  intros Hp Hq Hne. unfold flip_bit at 1 3. rewrite !testbit_flip_ne by done. unfold flip_bit.
  destruct (Z.testbit j p), (Z.testbit j q); lia.
Qed.

Lemma swap_bits_range n p q j :
  0 <= p < n → 0 <= q < n → 0 <= j < 2 ^ n → 0 <= swap_bits p q j < 2 ^ n.
Proof. intros. unfold swap_bits. case_tests; [done|]. do 2 (apply flip_bit_range; try lia). Qed.

Lemma swap_bits_involutive p q j : 0 <= p → 0 <= q → swap_bits p q (swap_bits p q j) = j.
Proof.
  intros Hp Hq. unfold swap_bits at 2. destruct (eqb (Z.testbit j p) (Z.testbit j q)) eqn:He;
    [unfold swap_bits; by rewrite He|].
  assert (p ≠ q) as Hne by (intros ->; by rewrite eqb_reflx in He).
  unfold swap_bits. rewrite testbit_flip, (testbit_flip_ne p), (testbit_flip_ne q), testbit_flip by done.
  destruct (Z.testbit j p), (Z.testbit j q); try done; cbn [negb eqb];
    by rewrite (flip_bit_comm p q (flip_bit p _)), !flip_bit_involutive.
Qed.

Lemma g_swap_forward {F} `{FloatOps F} n a b (amp : list (complex F)) :
  1 <= n <= MAX_QUBITS → vector n amp → 0 <= a < n → 0 <= b < n →
  ∃ amp', gives (g_swap amp n a b) [] amp' ∧ vector n amp' ∧
    ∀ j, 0 <= j < 2 ^ n → at_ amp' j = at_ amp (swap_bits (n - 1 - a) (n - 1 - b) j).
Proof.
  intros Hn Hl Ha Hb. unfold g_swap. destruct (Z.eqb_spec a b) as [->|Hne].
  { exists amp. split; [done|]. split; [done|]. intros j Hj. unfold swap_bits. by rewrite eqb_reflx. }
  destruct (g_cx_spec n a b amp) as (a1 & Hr1 & Hl1 & _ & H1); try done.
  destruct (g_cx_spec n b a a1) as (a2 & Hr2 & Hl2 & _ & H2); try done.
  destruct (g_cx_spec n a b a2) as (a3 & Hr3 & Hl3 & _ & H3); try done.
  exists a3. split; [|split; [done|]].
  { apply (gives_bind _ _ [] a1 []); [done|]. by apply (gives_bind _ _ [] a2 []). }
  intros j Hj. set (p := n - 1 - a) in *. set (q := n - 1 - b) in *. assert (p ≠ q) by lia.
  assert (∀ i, 0 <= i < 2 ^ n → 0 <= flip_bit p i < 2 ^ n) as Hrp by (intros; apply flip_bit_range; lia).
  assert (∀ i, 0 <= i < 2 ^ n → 0 <= flip_bit q i < 2 ^ n) as Hrq by (intros; apply flip_bit_range; lia).
  rewrite H3 by done. unfold swap_bits.
  destruct (Z.testbit j p) eqn:Hp, (Z.testbit j q) eqn:Hq; cbn [eqb];
    rewrite H2, ?testbit_flip, ?Hq by (lia || auto); cbn [negb];
    rewrite H1 by auto; rewrite ?testbit_flip, ?(testbit_flip_ne p), ?(testbit_flip_ne q), ?testbit_flip, ?Hp by lia;
    cbn [negb]; rewrite ?(flip_bit_comm p q), ?flip_bit_involutive by lia; try done.
Qed.

(** C (swap): on a register of 1 to 16 qubits, [swap a b], which the code does
    with three CNOTs, moves every amplitude to the index in which the bits of
    qubits [a] and [b] are exchanged, and to no other; two of them cancel. For
    every number type. *)
Theorem g_swap_correct {F} `{FloatOps F} (n a b : Z) (amp : list (complex F)) :
  1 <= n <= MAX_QUBITS → vector n amp → 0 <= a < n → 0 <= b < n →
  ∃ amp', gives (g_swap amp n a b) [] amp' ∧ vector n amp' ∧
    (∀ j, 0 <= j < 2 ^ n → at_ amp' j = at_ amp (swap_bits (n - 1 - a) (n - 1 - b) j)) ∧
    gives (g_swap amp' n a b) [] amp.
Proof.
  intros Hn Hl Ha Hb. destruct (g_swap_forward n a b amp Hn Hl Ha Hb) as (amp' & Hr & Hl' & Hs).
  destruct (g_swap_forward n a b amp' Hn Hl' Ha Hb) as (amp2 & Hr2 & Hl2 & Hs2).
  exists amp'. split; [done|]. split; [done|]. split; [done|].
  enough (amp = amp2) as -> by done. unfold vector in *. apply at_ext; [lia|]. intros j Hj.
  rewrite Hs2, Hs by (try apply swap_bits_range; lia). by rewrite swap_bits_involutive by lia.
Qed.

Lemma g_swap_correct_witness :
  ∃ amp', gives (g_swap (basis (F := double) 3 1) 3 0 2) [] amp' ∧ vector 3 amp' ∧
    (∀ j, 0 <= j < 2 ^ 3 → at_ amp' j = at_ (basis 3 1) (swap_bits 2 0 j)) ∧
    gives (g_swap amp' 3 0 2) [] (basis 3 1).
Proof. apply (g_swap_correct 3 0 2 (basis 3 1)); [unfold MAX_QUBITS; lia|reflexivity|lia|lia]. Defined.

(** ** Running a circuit *)

Section Run.
Context {F : Type} `{FloatOps F} `{FloatLits F} (rand : nat → Z) (cexp : complex F → complex F).
Abbreviation amps := (list (complex F)).

(** What a one-qubit gate does to a pair. *)
Definition single_map (g : string) : complex F → complex F → complex F * complex F :=
  if (g =? "h")%string then m_map (c_real inv_sqrt2) (c_real inv_sqrt2) (c_real inv_sqrt2) (c_real (f_neg inv_sqrt2))
  else if (g =? "x")%string then m_map c_zero c_one c_one c_zero
  else if (g =? "y")%string then m_map c_zero (c_neg c_i) c_i c_zero
  else if (g =? "z")%string then m_map c_one c_zero c_zero (c_real (f_of_Z (-1)))
  else if (g =? "s")%string then m_map c_one c_zero c_zero c_i
  else m_map c_one c_zero c_zero (t_phase cexp).

Lemma apply_single n o (a : amps) :
  1 <= n <= MAX_QUBITS → vector n a → is_single (gate o) = true → 0 <= op_a o < n →
  ∃ a', gives (apply_op cexp n o a) [] a' ∧ vector n a' ∧
    for_range (pair_body (sel_target (n - 1 - op_a o)) (n - 1 - op_a o) (single_map (gate o))) 0 (Z.to_nat (2 ^ n)) a = Some a'.
Proof.
  intros Hn Hl Hs Hq. unfold apply_op, single_map. unfold is_single in Hs.
  repeat match goal with
  | |- context [if (gate o =? ?g)%string then _ else _] =>
      destruct (gate o =? g)%string; [
        match goal with |- context [for_range (pair_body _ _ (m_map ?u ?v ?w ?x)) _ _ _] =>
          destruct (g_single_spec n (op_a o) u v w x a Hn Hl Hq) as (a' & Hr & Hl' & Hp & _)
        end; exists a'; split; [by apply gives_ensure|done] |]
  end. done.
Qed.

(** A property that pair loops with a gate's map and with exchange preserve is
    preserved by the operation. *)
Lemma apply_op_preserves (Q : amps → Prop) n o (a : amps) :
  1 <= n <= MAX_QUBITS → vector n a → op_ok n o → Q a →
  (∀ b b' sel p f, 0 <= p → Q b → (f = swap_map ∨ (is_single (gate o) = true ∧ f = single_map (gate o))) →
     for_range (pair_body sel p f) 0 (Z.to_nat (2 ^ n)) b = Some b' → Q b') →
  ∃ a', gives (apply_op cexp n o a) [] a' ∧ vector n a' ∧ Q a'.
Proof.
  intros Hn Hl Hok Ha HQ. assert (∀ b c t, vector n b → Q b → 0 <= c < n → 0 <= t < n → c ≠ t →
    ∃ b', gives (g_cx b n c t) [] b' ∧ vector n b' ∧ Q b') as Hcx.
  { intros b c t Hlb Hb Hc Ht Hne. destruct (g_cx_spec n c t b Hn Hlb Hc Ht Hne) as (b' & Hr & Hl' & Hp & _).
    exists b'. split; [done|]. split; [done|]. eapply HQ; [|exact Hb|by left|exact Hp]. lia. }
  destruct Hok as [[Hs Hq]|[(Hg & Hq & Hb & Hne)|(Hg & Hq & Hb)]].
  - destruct (apply_single n o a Hn Hl Hs Hq) as (a' & Hr & Hl' & Hp). exists a'. split; [done|]. split; [done|].
    eapply HQ; [|exact Ha|by right|exact Hp]. lia.
  - unfold apply_op. rewrite Hg. by apply Hcx.
  - unfold apply_op. rewrite Hg. cbn [String.eqb Ascii.eqb Bool.eqb]. unfold g_swap.
    destruct (Z.eqb_spec (op_a o) (op_b o)) as [|Hne]; [by exists a|].
    destruct (Hcx a (op_a o) (op_b o)) as (a1 & Hr1 & Hl1 & H1); try done.
    destruct (Hcx a1 (op_b o) (op_a o)) as (a2 & Hr2 & Hl2 & H2); try done.
    destruct (Hcx a2 (op_a o) (op_b o)) as (a3 & Hr3 & Hl3 & H3); try done.
    exists a3. split; [|done]. apply (gives_bind _ _ [] a1 []); [done|]. by apply (gives_bind _ _ [] a2 []).
Qed.

Lemma apply_ops_preserves (Q : amps → Prop) n ops (a : amps) :
  1 <= n <= MAX_QUBITS → vector n a → Forall (op_ok n) ops → Q a →
  (∀ o b b' sel p f, 0 <= p → o ∈ ops → Q b → (f = swap_map ∨ (is_single (gate o) = true ∧ f = single_map (gate o))) →
     for_range (pair_body sel p f) 0 (Z.to_nat (2 ^ n)) b = Some b' → Q b') →
  ∃ a', gives (apply_ops cexp n ops a) [] a' ∧ vector n a' ∧ Q a'.
Proof.
  intros Hn Hl Hok. revert a Hl. induction Hok as [|o ops Ho Hok IH]; intros a Hl Ha HQ; [by exists a|].
  destruct (apply_op_preserves Q n o a Hn Hl Ho Ha) as (a1 & Hr & Hl1 & H1).
  { intros b b' sel p f Hp Hb. eapply HQ; [done|by left|done]. }
  destruct (IH a1 Hl1 H1) as (a' & Hr' & Hl' & H').
  { intros o' b b' sel p f Hp Hin. eapply HQ; [done|by right]. }
  exists a'. split; [by apply (gives_bind _ _ [] a1 [])|done].
Qed.

(** ** Printing and measuring *)

Lemma print_bits_defined n index : 0 <= n < 64 → ∃ o, gives (F := F) (print_bits index n) o tt.
Proof.
  intros Hn. unfold print_bits.
  destruct (repeat_for_gives
    (λ (j : nat) (_ : unit), bit ← ensure (index_bit index (n - 1 - Z.of_nat j)); printf (F := F) "%d" [AInt bit])
    (λ _ _ _, True) 0 (Z.to_nat n) tt []) as (o & [] & Hr & _); [done| |].
  - intros j [] o Hj _. rewrite index_bit_spec by lia. by eexists _, tt.
  - eexists. apply (gives_bind _ _ [Out (Print "|" [])] tt); [done|]. by apply (gives_bind _ _ o tt [Out (Print ">" [])]).
Qed.

Lemma print_amplitudes_defined n (a : amps) :
  0 <= n < 64 → vector n a → ∃ o, gives (print_amplitudes a n (2 ^ n)) o tt.
Proof.
  intros Hn Hl. unfold vector in Hl. unfold print_amplitudes.
  edestruct (repeat_for_gives (λ (i : nat) (_ : unit), x ← ensure (a !! i);
    if f_ltb lit_1em9 (c_norm2 x) then _ ← print_bits (Z.of_nat i) n; print_amplitude (F := F) x else mret tt)
    (λ _ _ _, True) 0 (Z.to_nat (2 ^ n)) tt []) as (o & [] & Hr & _); [done| |by exists o].
  intros i [] o Hi _. destruct (lookup_lt_is_Some_2 a i ltac:(lia)) as [x ->].
  destruct (print_bits_defined n (Z.of_nat i) Hn) as [o1 Ho1].
  assert (∃ o2, gives (F := F) (print_amplitude x) o2 tt) as [o2 Ho2] by (unfold print_amplitude; case_tests; by eexists).
  destruct (f_ltb lit_1em9 (c_norm2 x)) eqn:Hp.
  - exists (o1 ++ o2), tt. split; [|done]. apply (gives_bind _ _ [] x (o1 ++ o2)); [done|]. rewrite Hp.
    by apply (gives_bind _ _ o1 tt o2).
  - exists [], tt. split; [|done]. apply (gives_bind _ _ [] x []); [done|]. by rewrite Hp.
Qed.

Lemma measure_all_defined n (a : amps) :
  0 <= n → vector n a → ∃ m, measure_all rand a (2 ^ n) = Some m ∧ 0 <= m < 2 ^ n.
Proof.
  intros Hn Hl. unfold vector in Hl. assert (0 < 2 ^ n) by (apply Z.pow_pos_nonneg; lia). unfold measure_all.
  set (r := f_div _ _).
  destruct (for_ctl_inv (λ _ _, True) (λ s, 0 <= s < 2 ^ n) (measure_all_body a r) 0 (Z.to_nat (2 ^ n)) f_zero)
    as [(s & -> & _)|(s & -> & Hs)]; [done| |exists (2 ^ n - 1); split; [done|lia]|by exists s].
  intros i acc Hi _. unfold measure_all_body. destruct (lookup_lt_is_Some_2 a i ltac:(lia)) as [x ->].
  cbn [mbind option_bind]. destruct (f_leb _ _) in |- *; [|by left; eexists]. right. eexists. split; [done|]. lia.
Qed.

Lemma simulate_after c (a : amps) :
  circuit_ok c → gives (apply_ops cexp (NQ c) (OPS c) (basis (NQ c) 0)) [] a → vector (NQ c) a →
  ∃ o, gives (simulate rand cexp true c) o tt.
Proof.
  intros [Hn _] Hrun Hl. unfold MAX_QUBITS in Hn. unfold simulate. assert (0 < 2 ^ NQ c) by (apply Z.pow_pos_nonneg; lia).
  destruct (print_amplitudes_defined (NQ c) a ltac:(lia) Hl) as [o1 Ho1].
  destruct (measure_all_defined (NQ c) a ltac:(lia) Hl) as (m & Hm & _).
  destruct (print_bits_defined (NQ c) m ltac:(lia)) as [o2 Ho2].
  assert (put (replicate (Z.to_nat (2 ^ NQ c)) c_zero) 0 c_one = Some (basis (F := F) (NQ c) 0)) as Hput.
  { apply (put_at _ 0 _ c_zero); [done|]. apply lookup_replicate. split; [done|lia]. }
  assert (∃ o3, gives (F := F) (if HAS_MEASURE c then
      m ← ensure (measure_all rand a (2 ^ NQ c)); _ ← printf "[CIRCUIT] MEASURE " []; _ ← print_bits m (NQ c); printf "\n" []
    else mret tt) o3 tt) as [o3 Ho3].
  { destruct (HAS_MEASURE c); [|by eexists]. eexists. eapply gives_bind; [apply gives_ensure, Hm|].
    eapply gives_bind; [apply gives_printf|]. eapply gives_bind; [exact Ho2|]. apply gives_printf. }
  eexists. eapply gives_bind; [apply gives_ensure, long_shl_spec; lia|]. cbn beta iota.
  eapply gives_bind; [apply gives_ensure, Hput|]. do 3 (eapply gives_bind; [apply gives_printf|]).
  eapply gives_bind; [exact Hrun|]. eapply gives_bind; [apply gives_printf|]. eapply gives_bind; [exact Ho1|].
  eapply gives_bind; [apply gives_printf|]. exact Ho3.
Qed.
End Run.
