(* ===== verification/QCircuitReal.v ===== *)
(** * The circuit VM over the real numbers

    Every gate is unitary, so a circuit keeps norm 1; on the gates they share
    the circuit VM and the kernel compute the same state. The library function
    [cexp] is taken to be what the C standard says of it on imaginary
    arguments. *)

From Stdlib Require Import ZArith Lia ZifyBool Ascii String Reals Lra.
From stdpp Require Import base list numbers strings.
From S2P Require Import Prelude.
From S2P Require Import Float64.
From S2P Require Import Gates.
From S2P Require Import Kernel.
From S2P Require Import KernelSpec.
From S2P Require Import KernelReal.
From S2P Require Import Outcome.
From S2P Require Import CString.
From S2P Require Import Console.
From S2P Require Import StateN.
From S2P Require Import StateNProps.
From S2P Require Import QCircuit.
From S2P Require Import QCircuitProps.
Open Scope Z_scope.

#[export] Instance real_lits : FloatLits R := {|
  lit_1em9 := (1 / 10 ^ 9)%R;
  lit_pi := (IZR 314159265358979323846 / 10 ^ 20)%R
|}.

(** [cexp] on an imaginary number. *)
Class CexpLaw (cexp : complex R → complex R) : Prop := {
  cexp_imaginary t : cexp (mk_complex 0%R t) = mk_complex (cos t) (sin t)
}.

Section Real.
Context (rand : nat → Z) (cexp : complex R → complex R) `{!CexpLaw cexp}.

Lemma t_phase_norm : c_norm2 (t_phase cexp) = 1%R.
Proof.
  unfold t_phase. generalize (lit_pi : R). intros x.
  assert (c_div_real (c_scale c_i x) (f_of_Z 4) = mk_complex 0%R (x / 4)%R) as ->.
  { unfold c_div_real, c_scale, c_i, f_zero, f_one. cbn. f_equal; lra. }
  rewrite cexp_imaginary. unfold c_norm2. cbn. pose proof (sin2_cos2 (x / 4)) as Hsc. unfold Rsqr in Hsc. lra.
Qed.

(** A diagonal gate with a phase of norm 1. *)
Lemma phase_unitary (w : complex R) : c_norm2 w = 1%R → unitary_map (m_map c_one c_zero c_zero w).
Proof.
  destruct w as [wr wi]. unfold c_norm2. cbn. intros Hw [xr xi] [yr yi].
  unfold m_map, c_norm2, c_add, c_mul, c_one, c_zero, f_one, f_zero. cbn.
  transitivity (xr * xr + xi * xi + (wr * wr + wi * wi) * (yr * yr + yi * yi))%R; [ring|]. rewrite Hw. ring.
Qed.

Lemma single_unitary g : unitary_map (single_map cexp g).
Proof.
  unfold single_map. case_tests.
  - pose proof inv_sqrt2_sq as Hs. revert Hs. generalize (@inv_sqrt2 R _). intros s Hs [xr xi] [yr yi].
    unfold m_map, c_norm2, c_add, c_mul, c_real, f_neg, f_zero. cbn.
    transitivity (2 * (s * s) * (xr * xr + xi * xi + yr * yr + yi * yi))%R; [ring|]. rewrite Hs. ring.
  - intros [xr xi] [yr yi]. unfold m_map, c_norm2, c_add, c_mul, c_one, c_zero, f_one, f_zero. cbn. ring.
  - intros [xr xi] [yr yi]. unfold m_map, c_norm2, c_add, c_mul, c_neg, c_i, c_zero, f_neg, f_one, f_zero. cbn. ring.
  - apply phase_unitary. unfold c_norm2, c_real, f_zero. cbn. lra.
  - apply phase_unitary. unfold c_norm2, c_i, f_one, f_zero. cbn. lra.
  - apply phase_unitary, t_phase_norm.
Qed.
End Real.

Lemma vnorm_basis n s : 0 <= n → 0 <= s < 2 ^ n → vnorm (basis n s) = 1%R.
Proof.
  intros Hn Hs. unfold basis. rewrite (vnorm_insert _ _ c_zero) by (apply lookup_replicate; split; [done|lia]).
  assert (∀ k, vnorm (replicate k c_zero) = 0%R) as ->.
  { induction k as [|k IH]; [done|]. cbn. change (foldr _ _ _) with (vnorm (replicate k c_zero)).
    rewrite IH. unfold c_norm2, c_zero, f_zero. cbn. lra. }
  unfold c_norm2, c_zero, c_one, f_zero, f_one. cbn. lra.
Qed.

(** C19 (circuits are unitary): over the real numbers, a circuit on 1 to 16 qubits
    whose operations name qubits of the register, two different ones for [cx],
    runs without undefined behaviour or failure from [|0...0>] to a state of
    norm 1, which is printed and measured, whatever the random number. *)
Theorem circuit_unitary (rand : nat → Z) (cexp : complex R → complex R) `{!CexpLaw cexp} (c : circuit) :
  circuit_ok c →
  ∃ a o, gives (apply_ops cexp (NQ c) (OPS c) (basis (NQ c) 0)) [] a ∧ vector (NQ c) a ∧ vnorm a = 1%R ∧
    gives (simulate rand cexp true c) o tt.
Proof.
  intros Hc. pose proof Hc as [Hn Hops]. pose proof Hn as Hn'. unfold MAX_QUBITS in Hn'.
  assert (0 < 2 ^ NQ c) by (apply Z.pow_pos_nonneg; lia).
  destruct (apply_ops_preserves cexp (λ a, vnorm a = 1%R) (NQ c) (OPS c) (basis (NQ c) 0)) as (a & Hr & Hl & Ha); try done.
  - apply length_basis. lia.
  - apply vnorm_basis; lia.
  - intros o b b' sel p f Hp _ Hb Hf Hrun. rewrite <-Hb.
    eapply pair_loop_norm, Hrun; [done|]. destruct Hf as [->|[_ ->]]; [apply swap_map_unitary|apply single_unitary, _].
  - destruct (simulate_after rand cexp c a Hc Hr Hl) as [o Ho]. by exists a, o.
Qed.

(** The complex exponential. *)
Definition real_cexp (z : complex R) : complex R :=
  mk_complex (exp (re z) * cos (im z))%R (exp (re z) * sin (im z))%R.

#[export] Instance real_cexp_law : CexpLaw real_cexp.
Proof. split. intros t. unfold real_cexp. cbn. by rewrite exp_0, !Rmult_1_l. Qed.

Definition demo_circuit : circuit := {|
  NQ := 3; HAS_MEASURE := true;
  OPS := [{| gate := "h"; op_a := 0; op_b := 0 |}; {| gate := "t"; op_a := 1; op_b := 0 |};
          {| gate := "y"; op_a := 2; op_b := 0 |}; {| gate := "cx"; op_a := 0; op_b := 2 |};
          {| gate := "swap"; op_a := 1; op_b := 2 |}]
|}.

Lemma demo_circuit_ok : circuit_ok demo_circuit.
Proof.
  split; [unfold MAX_QUBITS; cbn; lia|]. cbn.
  repeat apply List.Forall_cons; [left|left|left|right; left|right; right|apply List.Forall_nil]; cbn; repeat split; lia.
Qed.

Lemma circuit_unitary_witness :
  ∃ a o, gives (apply_ops real_cexp 3 (OPS demo_circuit) (basis 3 0)) [] a ∧ vector 3 a ∧ vnorm a = 1%R ∧
    gives (simulate (λ _, 5) real_cexp true demo_circuit) o tt.
Proof. apply (circuit_unitary (λ _, 5) real_cexp demo_circuit), demo_circuit_ok. Defined.

(** ** The same state as the kernel *)

(** The gates both have. *)
Definition shared_gate (o : Op) : Prop := gate o = "h"%string ∨ gate o = "x"%string ∨ gate o = "cx"%string.

(** The operations as calls of the kernel. *)
Fixpoint kernel_ops (ops : list Op) (k : ptr (QCPUKernel R)) : option (QCPUStatus * ptr (QCPUKernel R)) :=
  match ops with
  | [] => Some (QCPU_OK, k)
  | o :: ops =>
      '(status, k) ←
        (if (gate o =? "h")%string then qcpu_kernel_apply_h k (op_a o)
         else if (gate o =? "x")%string then qcpu_kernel_apply_x k (op_a o)
         else qcpu_kernel_apply_cx k (op_a o) (op_b o));
      if decide (status = QCPU_OK) then kernel_ops ops k else Some (status, k)
  end.

Lemma pair_loop_ext {A} sel p (f g : A → A → A * A) i k a :
  (∀ x y, f x y = g x y) → for_range (pair_body sel p f) i k a = for_range (pair_body sel p g) i k a.
Proof.
  intros Hfg. apply for_range_ext. intros j t _. unfold pair_body. destruct (sel _); [|done].
  destruct (at_ t _); [|done]. cbn. destruct (at_ t _); [|done]. cbn. by rewrite Hfg.
Qed.

Lemma m_map_h x y :
  m_map (c_real inv_sqrt2) (c_real inv_sqrt2) (c_real inv_sqrt2) (c_real (f_neg inv_sqrt2)) x y =
  h_map inv_sqrt2 x y :> complex R * complex R.
Proof.
  generalize (inv_sqrt2 : R). intros s. destruct x as [xr xi], y as [yr yi].
  unfold m_map, h_map, c_add, c_sub, c_mul, c_scale, c_real, f_neg, f_zero. cbn. repeat f_equal; ring.
Qed.

Lemma m_map_x x y : m_map c_zero c_one c_one c_zero x y = swap_map x y :> complex R * complex R.
Proof.
  destruct x as [xr xi], y as [yr yi].
  unfold m_map, swap_map, c_add, c_mul, c_one, c_zero, f_one, f_zero. cbn. repeat f_equal; ring.
Qed.

(** One operation on both. *)
Lemma apply_op_kernel (cexp : complex R → complex R) n o a (k : QCPUKernel R) :
  n <= MAX_QUBITS → kernel_at n a k → op_ok n o → shared_gate o →
  ∃ a1 k1, gives (apply_op cexp n o a) [] a1 ∧ kernel_at n a1 k1 ∧ kernel_ops [o] (Some k) = Some (QCPU_OK, Some k1).
Proof.
  intros Hn Hk Ho Hg. pose proof Hk as [Hn' _ _ _ Hl _]. assert (1 <= n <= MAX_QUBITS) as Hrange by lia.
  cbn [kernel_ops]. destruct Ho as [[Hs Hq]|[(Hcx & Hq & Hb & Hne)|(Hsw & _)]].
  - destruct (apply_single cexp n o a Hrange Hl Hs Hq) as (a1 & Hr & Hl1 & Hloop). exists a1.
    destruct Hg as [Hg|[Hg|Hg]]; [| |by rewrite Hg in Hs]; rewrite Hg in Hloop |- *; cbn [String.eqb Ascii.eqb Bool.eqb].
    + destruct (apply_h_spec n a k _ Hk Hq) as (a2 & Hcall & Hk2 & _ & Hloop2). exists (gated k a2).
      rewrite <-(pair_loop_ext _ _ _ _ _ _ _ m_map_h) in Hloop2. rewrite Hcall.
      assert (a1 = a2) as -> by (apply (inj Some); by rewrite <-Hloop, <-Hloop2). done.
    + destruct (apply_x_spec n a k _ Hk Hq) as (a2 & Hcall & Hk2 & _ & Hloop2). exists (gated k a2).
      rewrite <-(pair_loop_ext _ _ _ _ _ _ _ m_map_x) in Hloop2. rewrite Hcall.
      assert (a1 = a2) as -> by (apply (inj Some); by rewrite <-Hloop, <-Hloop2). done.
  - destruct (g_cx_spec n (op_a o) (op_b o) a Hrange Hl Hq Hb Hne) as (a1 & Hr & Hl1 & Hloop & _).
    destruct (apply_cx_spec n a k _ _ Hk Hq Hb Hne) as (a2 & Hcall & Hk2 & _ & Hloop2).
    assert (a1 = a2) as -> by (apply (inj Some); by rewrite <-Hloop, <-Hloop2).
    exists a2, (gated k a2). unfold apply_op. by rewrite Hcx, Hcall.
  - exfalso. unfold shared_gate in Hg. rewrite Hsw in Hg. by destruct Hg as [?|[?|?]].
Qed.

Lemma kernel_ops_cons o ops k k1 :
  kernel_ops [o] k = Some (QCPU_OK, k1) → kernel_ops (o :: ops) k = kernel_ops ops k1.
Proof.
  cbn [kernel_ops]. destruct (if (gate o =? "h")%string then _ else _) as [[status k']|]; [|done]. cbn.
  case_decide as Hs; [|by intros [= -> ->]]. by intros [= ->].
Qed.

(** C18 (two simulators agree): over the real numbers, on a circuit of the gates
    they share, h, x and cx, the circuit VM and the kernel, called with the same
    operations from the same state of 1 to 16 qubits, both succeed and hold the
    same amplitudes. *)
Theorem circuit_refines_kernel (cexp : complex R → complex R) (n : Z) (ops : list Op) (a : list (complex R))
    (k : QCPUKernel R) :
  n <= MAX_QUBITS → kernel_at n a k → Forall (op_ok n) ops → Forall shared_gate ops →
  ∃ a' k', gives (apply_ops cexp n ops a) [] a' ∧ kernel_ops ops (Some k) = Some (QCPU_OK, Some k') ∧
    kernel_at n a' k'.
Proof.
  intros Hn Hk Hops Hsh. revert a k Hk. induction Hops as [|o ops Ho Hops IH]; intros a k Hk; [by exists a, k|].
  apply Forall_cons in Hsh as [Hg Hsh].
  destruct (apply_op_kernel cexp n o a k Hn Hk Ho Hg) as (a1 & k1 & Hr & Hk1 & Hcall).
  destruct (IH Hsh a1 k1 Hk1) as (a' & k' & Hr' & Hcalls & Hk'). exists a', k'.
  split; [by apply (gives_bind _ _ [] a1 [])|]. by rewrite (kernel_ops_cons _ _ _ _ Hcall).
Qed.

Lemma circuit_refines_kernel_witness :
  ∃ a' k', gives (apply_ops real_cexp 2 [{| gate := "h"; op_a := 0; op_b := 0 |}; {| gate := "cx"; op_a := 0; op_b := 1 |}] real_amps) [] a' ∧
    kernel_ops [{| gate := "h"; op_a := 0; op_b := 0 |}; {| gate := "cx"; op_a := 0; op_b := 1 |}] (Some real_kernel) = Some (QCPU_OK, Some k') ∧
    kernel_at 2 a' k'.
Proof.
  apply (circuit_refines_kernel real_cexp 2 _ real_amps real_kernel); [unfold MAX_QUBITS; lia|apply real_kernel_at|..].
  - repeat apply List.Forall_cons; [left|right; left|apply List.Forall_nil]; cbn; repeat split; lia.
  - repeat apply List.Forall_cons; [by left|by right; right|apply List.Forall_nil].
Defined.
