(* ===== verification/QCircuitText.v ===== *)
(** * Circuit files

    A circuit file written from a list of statements, with comments and blank
    lines, is read back as those statements; a register that is declared again
    and smaller is undefined behaviour. *)

From Stdlib Require Import ZArith Lia ZifyBool Ascii String.
From stdpp Require Import base list numbers strings.
From S2P Require Import Prelude.
From S2P Require Import Float64.
From S2P Require Import Kernel.
From S2P Require Import KernelSpec.
From S2P Require Import Outcome.
From S2P Require Import CString.
From S2P Require Import Console.
From S2P Require Import StateN.
From S2P Require Import StateNProps.
From S2P Require Import QCircuit.
From S2P Require Import QCircuitProps.
Open Scope Z_scope.

(** ** Statements *)

Inductive cstmt :=
| CBlank
| CComment (s : string)
| COne (g : string) (q : Z)
| CTwo (g : string) (q1 q2 : Z)
| CGhz
| CMeasure.

(** A number below 100 in decimal. *)
Definition digit (d : Z) : ascii := ascii_of_N (Z.to_N (48 + d)).
Definition show (z : Z) : string :=
  if z <? 10 then String (digit z) EmptyString else String (digit (z / 10)) (String (digit (z mod 10)) EmptyString).

Definition ends_line (s : string) : string := s +:+ String NEWLINE EmptyString.

(** The line of a statement. *)
Definition show_stmt (s : cstmt) : string :=
  match s with
  | CBlank => ends_line EmptyString
  | CComment s => ends_line (String "#" s)
  | COne g q => ends_line (g +:+ " " +:+ show q)
  | CTwo g q1 q2 => ends_line (g +:+ " " +:+ show q1 +:+ " " +:+ show q2)
  | CGhz => ends_line "ghz"
  | CMeasure => ends_line "measure"
  end.
Definition show_qubits (n : Z) : string := ends_line ("qubits " +:+ show n).
Definition circuit_text (n : Z) (p : list cstmt) : string :=
  show_qubits n +:+ foldr (λ s t, show_stmt s +:+ t) EmptyString p.

(** The statements a register of [n] qubits allows. *)
Definition stmt_ok (n : Z) (s : cstmt) : Prop :=
  match s with
  | CComment s => str_forall (λ c, negb (c =? NEWLINE)%char) s = true ∧ (String.length s < 254)%nat
  | COne g q => is_single g = true ∧ 0 <= q < n
  | CTwo g q1 q2 => is_double g = true ∧ 0 <= q1 < n ∧ 0 <= q2 < n
  | CGhz => 2 <= n
  | CBlank | CMeasure => True
  end.

(** The operations of a statement. *)
Definition mk_op (g : string) (a b : Z) : Op := {| gate := g; op_a := a; op_b := b |}.
Definition ghz_ops (n : Z) : list Op :=
  mk_op "h" 0 0 :: ((λ q : nat, mk_op "cx" (Z.of_nat q) (Z.of_nat q + 1)) <$> seq 0 (Z.to_nat (n - 1))).
Definition stmt_ops (n : Z) (s : cstmt) : list Op :=
  match s with
  | COne g q => [mk_op g q 0]
  | CTwo g q1 q2 => [mk_op g q1 q2]
  | CGhz => ghz_ops n
  | _ => []
  end.
Definition measures (s : cstmt) : bool := match s with CMeasure => true | _ => false end.

(** The circuit that the statements [p] add to [c]. *)
Definition add_stmts (p : list cstmt) (c : circuit) : circuit := {|
  NQ := NQ c;
  HAS_MEASURE := HAS_MEASURE c || existsb measures p;
  OPS := OPS c ++ (p ≫= stmt_ops (NQ c))
|}.

(** ** Lines *)

Lemma fgets_line n s t :
  (String.length s < n)%nat → str_forall (λ c, negb (c =? NEWLINE)%char) s = true →
  fgets n (ends_line s +:+ t) = (ends_line s, t).
Proof.
  revert n. induction s as [|c s IH]; intros [|n] Hl Hs; try (simpl in Hl; lia); [done|].
  cbn [str_forall] in Hs. apply andb_true_iff in Hs as [Hc Hs].
  change (ends_line (String c s) +:+ t) with (String c (ends_line s +:+ t)). cbn [fgets].
  apply negb_true_iff in Hc. rewrite Hc, IH by (simpl in *; done || lia). done.
Qed.

(** What the scanner makes of the short lines. *)
Definition gates1 : list string := ["h"; "x"; "y"; "z"; "s"; "t"]%string.
Definition gates2 : list string := ["cx"; "swap"]%string.
Definition qubit_range : list Z := seqZ 0 17.

Definition line_plain (s : string) : bool :=
  str_forall (λ c, negb (c =? NEWLINE)%char) s && (String.length s <? 64)%nat &&
  negb (head_char (ends_line s) =? "#")%char && negb (head_char (ends_line s) =? NEWLINE)%char.

Lemma elem_gates1 g : is_single g = true → g ∈ gates1.
Proof.
  unfold is_single, gates1. rewrite !orb_true_iff, !String.eqb_eq, !elem_of_cons, elem_of_nil. tauto.
Qed.
Lemma elem_gates2 g : is_double g = true → g ∈ gates2.
Proof. unfold is_double, gates2. rewrite !orb_true_iff, !String.eqb_eq, !elem_of_cons, elem_of_nil. tauto. Qed.
Lemma elem_range q : 0 <= q <= 16 → q ∈ qubit_range.
Proof. intros. apply elem_of_seqZ. lia. Qed.

Lemma scan_one g q :
  is_single g = true → 0 <= q <= 16 →
  scan_line (c_string (ends_line (g +:+ " " +:+ show q))) = Done (2, g, q, 0) ∧ line_plain (g +:+ " " +:+ show q) = true.
Proof.
  intros Hg Hq. apply elem_gates1 in Hg. apply elem_range in Hq.
  assert (Forall (λ g, Forall (λ q, scan_line (c_string (ends_line (g +:+ " " +:+ show q))) = Done (2, g, q, 0) ∧
    line_plain (g +:+ " " +:+ show q) = true) qubit_range) gates1) as Hall
    by (apply (bool_decide_unpack _); vm_compute; exact I).
  rewrite Forall_forall in Hall. specialize (Hall g Hg). rewrite Forall_forall in Hall. by apply Hall.
Qed.

Lemma scan_two g q1 q2 :
  is_double g = true → 0 <= q1 <= 16 → 0 <= q2 <= 16 →
  scan_line (c_string (ends_line (g +:+ " " +:+ show q1 +:+ " " +:+ show q2))) = Done (3, g, q1, q2) ∧
  line_plain (g +:+ " " +:+ show q1 +:+ " " +:+ show q2) = true.
Proof.
  intros Hg H1 H2. apply elem_gates2 in Hg. apply elem_range in H1. apply elem_range in H2.
  assert (Forall (λ g, Forall (λ q1, Forall (λ q2,
    scan_line (c_string (ends_line (g +:+ " " +:+ show q1 +:+ " " +:+ show q2))) = Done (3, g, q1, q2) ∧
    line_plain (g +:+ " " +:+ show q1 +:+ " " +:+ show q2) = true) qubit_range) qubit_range) gates2) as Hall
    by (apply (bool_decide_unpack _); vm_compute; exact I).
  rewrite Forall_forall in Hall. specialize (Hall g Hg). rewrite Forall_forall in Hall. specialize (Hall q1 H1).
  rewrite Forall_forall in Hall. by apply Hall.
Qed.

Lemma scan_qubits n :
  0 <= n <= 16 →
  scan_line (c_string (show_qubits n)) = Done (2, "qubits"%string, n, 0) ∧ line_plain ("qubits " +:+ show n) = true.
Proof.
  intros Hn. apply elem_range in Hn.
  assert (Forall (λ n, scan_line (c_string (show_qubits n)) = Done (2, "qubits"%string, n, 0) ∧
    line_plain ("qubits " +:+ show n) = true) qubit_range) as Hall by (apply (bool_decide_unpack _); vm_compute; exact I).
  rewrite Forall_forall in Hall. by apply Hall.
Qed.

(** ** Reading statements *)

Section Load.
Context {F : Type}.
Abbreviation lines := (list (line F)).

Definition add_ops (ops : list Op) (c : circuit) : circuit :=
  {| NQ := NQ c; HAS_MEASURE := HAS_MEASURE c; OPS := OPS c ++ ops |}.

Lemma add_op_gives g a b c :
  (length (OPS c) < MAX_OPS)%nat → (String.length g <= 7)%nat →
  gives (F := F) (add_op g a b c) [] (add_ops [mk_op g a b] c).
Proof.
  intros Hl Hg. unfold add_op. destruct (Nat.leb_spec MAX_OPS (length (OPS c))); [lia|]. by rewrite str_take_id.
Qed.

Lemma add_ghz_gives c :
  2 <= NQ c <= MAX_QUBITS → (length (OPS c) + length (ghz_ops (NQ c)) <= MAX_OPS)%nat →
  gives (F := F) (add_ghz c) [] (add_ops (ghz_ops (NQ c)) c).
Proof.
  intros Hn Hl. unfold ghz_ops in Hl. cbn [length] in Hl. rewrite length_fmap, length_seq in Hl. unfold add_ghz.
  destruct (Z.ltb_spec (NQ c) 2); [lia|].
  set (cx := λ q : nat, mk_op "cx" (Z.of_nat q) (Z.of_nat q + 1)).
  set (c1 := add_ops [mk_op "h" 0 0] c).
  destruct (repeat_for_gives (F := F) (λ (q : nat) c, add_op "cx" (Z.of_nat q) (Z.of_nat q + 1) c)
    (λ i d o, o = [] ∧ d = add_ops (cx <$> seq 0 i) c1) 0 (Z.to_nat (NQ c - 1)) c1 []) as (o & d & Hr & Ho & ->).
  - split; [done|]. unfold add_ops. cbn. by rewrite app_nil_r.
  - intros j d o Hj [-> ->]. eexists [], _. split; [apply add_op_gives|split; [done|]].
    + cbn. rewrite !length_app, length_fmap, length_seq. cbn. lia.
    + cbn. lia.
    + unfold add_ops. cbn [NQ HAS_MEASURE OPS]. rewrite seq_S, fmap_app, !app_assoc. done.
  - cbn in Ho. subst o. apply (gives_bind _ _ [] c1 []); [apply add_op_gives; cbn; lia|].
    change (NQ c1) with (NQ c). rewrite Hr. subst c1. unfold add_ops. cbn [Nat.add NQ HAS_MEASURE OPS].
    by rewrite <-app_assoc.
Qed.

Lemma require_gives q c : 0 <= q < NQ c → gives (F := F) (require_qubit q c) [] tt.
Proof. intros Hq. unfold require_qubit. by assert ((q <? 0) || (NQ c <=? q) = false) as -> by lia. Qed.

(** A plain line goes to the scanner, which finds a known word. *)
Lemma load_plain s c got kw q1 q2 (m : console F circuit) :
  line_plain s = true → scan_line (c_string (ends_line s)) = Done (got, kw, q1, q2) → 1 <= got →
  m = (if (kw =? "qubits")%string then
      if negb (got =? 2) then fail "qubits requires exactly one integer operand"
      else if (q1 <? 1) || (MAX_QUBITS <? q1) then fail "qubits must be 1..16"
      else mret {| NQ := q1; HAS_MEASURE := HAS_MEASURE c; OPS := OPS c |}
    else if (kw =? "ghz")%string then
      if negb (got =? 1) then fail "ghz does not accept operands" else add_ghz c
    else if is_single kw then
      if negb (got =? 2) then fail "single-qubit gate requires exactly one integer operand"
      else _ ← require_qubit q1 c; add_op kw q1 0 c
    else if is_double kw then
      if negb (got =? 3) then fail "two-qubit gate requires exactly two integer operands"
      else _ ← require_qubit q1 c; _ ← require_qubit q2 c; add_op kw q1 q2 c
    else if (kw =? "measure")%string then
      if negb (got =? 1) then fail "measure does not accept operands"
      else mret {| NQ := NQ c; HAS_MEASURE := true; OPS := OPS c |}
    else _ ← eprintf "ERROR: unknown circuit op: %s\n" [AStr kw]; exit 1) →
  ∀ o d, gives m o d → gives (load_line (ends_line s) c) o d.
Proof.
  intros Hplain Hscan Hgot -> o d Hm. unfold line_plain in Hplain. rewrite !andb_true_iff, !negb_true_iff in Hplain.
  destruct Hplain as [[[_ _] Hh] Hn]. unfold load_line. rewrite Hh, Hn. cbn [orb]. rewrite Hscan.
  apply (gives_bind _ _ [] (got, kw, q1, q2) o); [done|]. cbv beta iota.
  destruct (Z.ltb_spec got 1); [lia|]. exact Hm.
Qed.

Lemma gate_words g : is_single g = true ∨ is_double g = true →
  (g =? "qubits")%string = false ∧ (g =? "ghz")%string = false ∧ (String.length g <= 7)%nat.
Proof.
  intros [Hg|Hg]; [apply elem_gates1 in Hg; unfold gates1 in Hg|apply elem_gates2 in Hg; unfold gates2 in Hg];
    rewrite !elem_of_cons, elem_of_nil in Hg; repeat destruct Hg as [->|Hg]; try done; cbn; split_and!; done || lia.
Qed.

Lemma load_stmt s c :
  1 <= NQ c <= MAX_QUBITS → stmt_ok (NQ c) s → (length (OPS c) + length (stmt_ops (NQ c) s) <= MAX_OPS)%nat →
  gives (F := F) (load_line (show_stmt s) c) [] (add_stmts [s] c).
Proof.
  intros Hn Hok Hl. unfold MAX_QUBITS in Hn.
  assert (add_stmts [s] c = {| NQ := NQ c; HAS_MEASURE := HAS_MEASURE c || measures s; OPS := OPS c ++ stmt_ops (NQ c) s |}) as ->.
  { unfold add_stmts. cbn. by rewrite app_nil_r, orb_false_r. }
  destruct s as [|s|g q|g q1 q2| |]; cbn [measures stmt_ops show_stmt] in *; rewrite ?orb_false_r, ?app_nil_r.
  - by destruct c.
  - by destruct c.
  - destruct Hok as [Hg Hq]. destruct (scan_one g q Hg) as [Hscan Hplain]; [lia|].
    destruct (gate_words g (or_introl Hg)) as (H1 & H2 & Hlen).
    eapply load_plain; [exact Hplain|exact Hscan|lia|reflexivity|]. rewrite H1, H2, Hg. cbn [negb Z.eqb Pos.eqb].
    apply (gives_bind _ _ [] tt []); [by apply require_gives|]. apply add_op_gives; [cbn in Hl; lia|done].
  - destruct Hok as (Hg & Hq1 & Hq2). destruct (scan_two g q1 q2 Hg) as [Hscan Hplain]; [lia|lia|].
    destruct (gate_words g (or_intror Hg)) as (H1 & H2 & Hlen).
    assert (is_single g = false) as H3.
    { apply elem_gates2 in Hg. unfold gates2 in Hg. rewrite !elem_of_cons, elem_of_nil in Hg. by destruct Hg as [->|[->|[]]]. }
    eapply load_plain; [exact Hplain|exact Hscan|lia|reflexivity|]. rewrite H1, H2, H3, Hg. cbn [negb Z.eqb Pos.eqb].
    apply (gives_bind _ _ [] tt []); [by apply require_gives|]. apply (gives_bind _ _ [] tt []); [by apply require_gives|].
    apply add_op_gives; [cbn in Hl; lia|done].
  - eapply load_plain; [vm_compute; reflexivity|vm_compute; reflexivity|lia|reflexivity|].
    apply add_ghz_gives; [unfold MAX_QUBITS; cbn in Hok; lia|done].
  - rewrite orb_true_r. eapply load_plain; [vm_compute; reflexivity|vm_compute; reflexivity|lia|reflexivity|done].
Qed.

(** ** Whole files *)

Lemma plain_line s : line_plain s = true → str_forall (λ c, negb (c =? NEWLINE)%char) s = true ∧ (String.length s < 255)%nat.
Proof. unfold line_plain. rewrite !andb_true_iff, Nat.ltb_lt. intros [[[Hs Hl] _] _]. split; [done|lia]. Qed.

Lemma stmt_line n s :
  n <= MAX_QUBITS → stmt_ok n s →
  ∃ l, show_stmt s = ends_line l ∧ str_forall (λ c, negb (c =? NEWLINE)%char) l = true ∧ (String.length l < 255)%nat.
Proof.
  unfold MAX_QUBITS. intros Hn. destruct s as [|s|g q|g q1 q2| |]; cbn [stmt_ok show_stmt]; intros Hok; eexists; (split; [reflexivity|]).
  - split; [done|cbn; lia].
  - destruct Hok as [Hs Hl]. split; [exact Hs|cbn; lia].
  - destruct Hok as [Hg Hq]. apply plain_line. apply (scan_one g q); [done|lia].
  - destruct Hok as (Hg & Hq1 & Hq2). apply plain_line. apply (scan_two g q1 q2); [done|lia|lia].
  - by apply plain_line.
  - by apply plain_line.
Qed.

Lemma add_stmts_cons s p c : add_stmts p (add_stmts [s] c) = add_stmts (s :: p) c.
Proof. unfold add_stmts. cbn. by rewrite orb_false_r, app_nil_r, orb_assoc, app_assoc. Qed.

(** Reading a text with enough fuel. *)
Definition loads (t : string) (c d : circuit) : Prop :=
  ∀ fuel, (String.length t <= fuel)%nat → gives (F := F) (load_lines fuel t c) [] d.

Lemma loads_nil c : loads EmptyString c c.
Proof. by intros [|fuel]. Qed.

Lemma loads_line l t c c' d :
  str_forall (λ c, negb (c =? NEWLINE)%char) l = true → (String.length l < 255)%nat →
  gives (F := F) (load_line (ends_line l) c) [] c' → loads t c' d → loads (ends_line l +:+ t) c d.
Proof.
  intros Hs Hl Hline Ht fuel Hfuel. rewrite length_append in Hfuel. unfold ends_line in Hfuel. rewrite length_append in Hfuel.
  cbn in Hfuel. destruct fuel as [|fuel]; [lia|].
  assert (load_lines (F := F) (S fuel) (ends_line l +:+ t) c =
    (let '(line, rest) := fgets 255 (ends_line l +:+ t) in c ← load_line line c; load_lines fuel rest c)) as ->
    by (by destruct l).
  rewrite fgets_line by done. apply (gives_bind _ _ [] c' []); [done|]. apply Ht. lia.
Qed.

Lemma loads_qubits n t c d :
  1 <= n <= MAX_QUBITS → loads t {| NQ := n; HAS_MEASURE := HAS_MEASURE c; OPS := OPS c |} d →
  loads (show_qubits n +:+ t) c d.
Proof.
  unfold MAX_QUBITS. intros Hn. destruct (scan_qubits n) as [Hscan Hplain]; [lia|].
  destruct (plain_line _ Hplain) as [Hnl Hlen]. apply loads_line; [done|done|].
  eapply load_plain; [exact Hplain|exact Hscan|lia|reflexivity|]. cbn [String.eqb Ascii.eqb Bool.eqb negb Z.eqb Pos.eqb].
  unfold MAX_QUBITS. assert ((n <? 1) || (16 <? n) = false) as -> by lia. done.
Qed.

Lemma loads_stmt s t c d :
  1 <= NQ c <= MAX_QUBITS → stmt_ok (NQ c) s → (length (OPS c) + length (stmt_ops (NQ c) s) <= MAX_OPS)%nat →
  loads t (add_stmts [s] c) d → loads (show_stmt s +:+ t) c d.
Proof.
  intros Hn Hs Hl. destruct (stmt_line (NQ c) s) as (l & Hline & Hnl & Hlen); [lia|done|]. rewrite Hline.
  apply loads_line; [done|done|]. rewrite <-Hline. by apply load_stmt.
Qed.

Lemma loads_stmts p c :
  1 <= NQ c <= MAX_QUBITS → Forall (stmt_ok (NQ c)) p →
  (length (OPS c) + length (p ≫= stmt_ops (NQ c)) <= MAX_OPS)%nat →
  loads (foldr (λ s t, show_stmt s +:+ t) EmptyString p) c (add_stmts p c).
Proof.
  revert c. induction p as [|s p IH]; intros c Hn Hok Hl.
  - unfold add_stmts. cbn. rewrite orb_false_r, app_nil_r. destruct c. apply loads_nil.
  - apply Forall_cons in Hok as [Hs Hok]. cbn [mbind list_bind] in Hl. rewrite length_app in Hl.
    change (list_bind _ _ (stmt_ops (NQ c)) p) with (p ≫= stmt_ops (NQ c)) in Hl.
    apply loads_stmt; [done|done|lia|]. rewrite <-(add_stmts_cons s p c). apply IH; [done|done|].
    unfold add_stmts. cbn. rewrite app_nil_r, length_app. lia.
Qed.

Lemma loads_circuit t c path : loads t initial_circuit c → gives (F := F) (load_circuit (Some t) path initial_circuit) [] c.
Proof. intros Ht. by apply Ht. Qed.
End Load.

(** A two-qubit statement that the gates accept. *)
Definition distinct (s : cstmt) : Prop := match s with CTwo g q1 q2 => g = "cx"%string → q1 ≠ q2 | _ => True end.

Lemma ghz_ops_ok n : 2 <= n → Forall (op_ok n) (ghz_ops n).
Proof.
  intros Hn. apply List.Forall_cons; [left; cbn; split; [done|lia]|]. apply Forall_fmap, Forall_seq.
  intros q Hq. right. left. cbn. split; [done|]. lia.
Qed.

Lemma stmts_ok n p :
  1 <= n <= MAX_QUBITS → Forall (stmt_ok n) p → Forall distinct p →
  circuit_ok (add_stmts p {| NQ := n; HAS_MEASURE := false; OPS := [] |}).
Proof.
  intros Hn Hok Hd. split; [done|]. cbn. apply Forall_bind. rewrite Forall_forall in *. intros s Hs.
  specialize (Hok s Hs). specialize (Hd s Hs). destruct s as [|s|g q|g q1 q2| |]; cbn [stmt_ops]; try apply List.Forall_nil.
  - apply List.Forall_cons; [left; apply Hok|apply List.Forall_nil].
  - destruct Hok as (Hg & H1 & H2). apply List.Forall_cons; [right|apply List.Forall_nil]. cbn [mk_op gate op_a op_b].
    apply elem_gates2 in Hg. unfold gates2 in Hg. rewrite !elem_of_cons, elem_of_nil in Hg.
    destruct Hg as [->|[->|[]]]; [left|right]; auto.
  - by apply ghz_ops_ok.
Qed.

(** C20 (reading a circuit): a file that declares 1 to 16 qubits and then has any
    statements the register allows, one per line, with blank lines and comments
    anywhere and at most 4096 operations, is loaded without a message as exactly
    these operations, in order, [ghz] standing for its H and CNOT chain; when
    every [cx] names two different qubits, the circuit can then be run to the
    end. For every number type and random number. *)
Theorem load_circuit_text {F} `{FloatOps F} `{FloatLits F} (rand : nat → Z) (cexp : complex F → complex F)
    (n : Z) (p : list cstmt) (path : string) :
  1 <= n <= MAX_QUBITS → Forall (stmt_ok n) p → (length (p ≫= stmt_ops n) <= MAX_OPS)%nat →
  let c := {| NQ := n; HAS_MEASURE := existsb measures p; OPS := p ≫= stmt_ops n |} in
  gives (F := F) (load_circuit (Some (circuit_text n p)) path initial_circuit) [] c ∧
  (Forall distinct p → ∃ o, gives (simulate rand cexp true c) o tt).
Proof.
  intros Hn Hok Hl c. split.
  { apply loads_circuit, loads_qubits; [done|]. by apply loads_stmts. }
  intros Hd.
  pose proof (stmts_ok n p Hn Hok Hd) as Hc. pose proof Hc as [_ Hops]. change (circuit_ok c) in Hc.
  destruct (apply_ops_preserves cexp (λ _, True) n (OPS c) (basis n 0)) as (a & Hr & Hv & _); try done.
  { apply length_basis. lia. }
  by apply (simulate_after rand cexp c a).
Qed.

(** [qubits 3], a comment, a blank line, [h 1], [ghz], [swap 0 2], [measure] *)
Definition demo_stmts : list cstmt :=
  [CComment " three qubits"; CBlank; COne "h" 1; CGhz; CTwo "swap" 0 2; CMeasure].

Lemma load_circuit_text_witness :
  let c := {| NQ := 3; HAS_MEASURE := true; OPS := demo_stmts ≫= stmt_ops 3 |} in
  gives (F := double) (load_circuit (Some (circuit_text 3 demo_stmts)) "c.qc" initial_circuit) [] c ∧
  (Forall distinct demo_stmts → ∃ o, gives (simulate (λ _, 9) id true c) o tt).
Proof.
  apply (load_circuit_text (λ _, 9) id 3 demo_stmts "c.qc"); [unfold MAX_QUBITS; lia| |vm_compute; lia].
  repeat apply List.Forall_cons; try apply List.Forall_nil; cbn; repeat split; lia.
Defined.

(** A gate on a qubit the register does not have. *)
Lemma apply_gone {F} `{FloatOps F} `{FloatLits F} (cexp : complex F → complex F) n g q (a : list (complex F)) :
  1 <= n <= q → n <= MAX_QUBITS → is_single g = true → apply_op cexp n (mk_op g q 0) a = Undef.
Proof.
  unfold MAX_QUBITS. intros Hq Hn Hg. assert (∀ m00 m01 m10 m11, g_single a n q m00 m01 m10 m11 = None) as Hgone.
  { intros. unfold g_single. rewrite long_shl_spec by lia. cbn [mbind option_bind].
    assert (2 <= 2 ^ n) by (change 2 with (2 ^ 1) at 1; apply Z.pow_le_mono_r; lia).
    replace (Z.to_nat (2 ^ n)) with (S (Z.to_nat (2 ^ n - 1))) by lia. cbn [for_range].
    unfold single_body, index_bit, c_shr. by destruct (Z.leb_spec 0 (n - 1 - q)); [lia|]. }
  unfold apply_op, g_h, g_x, g_y, g_z, g_s, g_t. cbn [gate op_a mk_op]. apply elem_gates1 in Hg. unfold gates1 in Hg.
  rewrite !elem_of_cons, elem_of_nil in Hg. by destruct Hg as [->|[->|[->|[->|[->|[->|[]]]]]]]; cbn; rewrite Hgone.
Qed.

Lemma simulate_gone {F} `{FloatOps F} `{FloatLits F} (rand : nat → Z) (cexp : complex F → complex F) n g q b :
  1 <= n <= q → n <= MAX_QUBITS → is_single g = true →
  simulate rand cexp true {| NQ := n; HAS_MEASURE := b; OPS := [mk_op g q 0] |} = Undef.
Proof.
  intros Hq Hn Hg. unfold simulate. cbn [NQ OPS apply_ops]. pose proof Hn as Hn'. unfold MAX_QUBITS in Hn'.
  assert (0 < 2 ^ n) by (apply Z.pow_pos_nonneg; lia).
  eapply undef_bind; [apply gives_ensure, long_shl_spec; lia|]. cbv iota.
  assert (put (replicate (Z.to_nat (2 ^ n)) c_zero) 0 c_one = Some (basis (F := F) n 0)) as Hput.
  { apply (put_at _ 0 _ c_zero); [done|]. apply lookup_replicate. split; [done|lia]. }
  eapply undef_bind; [apply gives_ensure, Hput|]. do 3 (eapply undef_bind; [apply gives_printf|]).
  by rewrite apply_gone.
Qed.

(** C24 (a register declared again): the bounds of an operand are checked against
    the register declared when its line is read. A file that declares it again
    with fewer qubits, after a gate on a qubit that is then gone, makes the
    simulation shift by a negative number, which is undefined. *)
Theorem shrunk_register {F} `{FloatOps F} `{FloatLits F} (rand : nat → Z) (cexp : complex F → complex F)
    (fopen : string → option string) (path : string) (n m : Z) (g : string) (q : Z) :
  is_single g = true → 0 <= q < n → n <= MAX_QUBITS → 1 <= m <= q →
  str_forall isdigit path = false → path ≠ "--qasm"%string →
  fopen path = Some (show_qubits n +:+ ends_line (g +:+ " " +:+ show q) +:+ show_qubits m +:+ EmptyString) →
  main rand cexp [path] fopen true = Undef.
Proof.
  intros Hg Hq Hn Hm Hpath Hne Hfile. unfold MAX_QUBITS in Hn.
  set (c := {| NQ := m; HAS_MEASURE := false; OPS := [mk_op g q 0] |}).
  assert (gives (F := F) (load_circuit (fopen path) path initial_circuit) [] c) as Hload.
  { rewrite Hfile. apply loads_circuit, loads_qubits; [unfold MAX_QUBITS; lia|].
    apply (loads_stmt (COne g q)); [cbn; unfold MAX_QUBITS; lia|done|cbn; unfold MAX_OPS; lia|].
    apply loads_qubits; [unfold MAX_QUBITS; lia|]. apply loads_nil. }
  unfold main. destruct (String.eqb_spec path "--qasm"); [done|]. rewrite Hpath.
  eapply (undef_bind _ _ [] c).
  - apply (gives_bind _ _ [] c []); [exact Hload|]. cbn [NQ c]. by destruct (Z.ltb_spec m 1); [lia|].
  - cbv iota. subst c. rewrite simulate_gone; [done|lia|unfold MAX_QUBITS; lia|done].
Qed.

Lemma shrunk_register_witness :
  main (F := double) (λ _, 0) id ["bad.qc"%string]
    (λ _, Some (show_qubits 3 +:+ ends_line ("h" +:+ " " +:+ show 2) +:+ show_qubits 2 +:+ EmptyString)) true = Undef.
Proof. apply (shrunk_register (λ _, 0) id _ "bad.qc" 3 2 "h" 2); (reflexivity || lia || done). Defined.
