(* ===== verification/QasmExport.v ===== *)
(** * The OpenQASM exporter

    [src/tools/qasm_export.c]: compiles a program and prints its qubits and
    gates as OpenQASM 3. The table of names is a list; its counter [qcount] is
    the length. *)

From Stdlib Require Import ZArith Lia ZifyBool Ascii String.
From stdpp Require Import base list numbers strings.
From S2P Require Import Prelude.
From S2P Require Import Outcome.
From S2P Require Import CString.
From S2P Require Import Syntax.
From S2P Require Import Console.
From S2P Require Import Pipeline.
From S2P Require Import QCircuit.
Open Scope Z_scope.

Definition MAX_QASM_QBITS : nat := 32.

Section Exporter.
Context {F : Type}.
Abbreviation prog := (console F).

(** The C string read, if any; [file] is the contents of the file, [None] when
    it cannot be opened. *)
Definition read_file (file : option string) (malloc_ok : bool) (path : string) : prog (option string) :=
  match file with
  | None => _ ← eprintf "Error: file not found: %s\n" [AStr path]; mret None
  | Some contents =>
      if malloc_ok then mret (Some (c_string contents))
      else _ ← eprintf "Error: memory allocation failed\n" []; mret None
  end.

(** The position of a name, or [-1]. *)
Fixpoint qbit_index (qnames : list string) (name : string) : Z :=
  match qnames with
  | [] => -1
  | n :: qnames =>
      if (n =? name)%string then 0
      else let i := qbit_index qnames name in if i =? -1 then -1 else 1 + i
  end.

(** The first loop: the table of names, or [None] when it is full at a
    declaration. [strncpy] keeps 63 characters. *)
Fixpoint collect_names (code : list Instruction) (qnames : list string) : option (list string) :=
  match code with
  | [] => Some qnames
  | ins :: code =>
      match op ins with
      | OP_QBIT =>
          if (MAX_QASM_QBITS <=? length qnames)%nat then None
          else if qbit_index qnames (arg1 ins) =? -1
          then collect_names code (qnames ++ [str_take 63 (arg1 ins)])
          else collect_names code qnames
      | _ => collect_names code qnames
      end
  end.

(** What one instruction becomes. *)
Definition export_instruction (qnames : list string) (ins : Instruction) : prog unit :=
  match op ins with
  | OP_HADAMARD =>
      let q := qbit_index qnames (arg1 ins) in
      if 0 <=? q then printf "h q[%d];\n" [AInt q]
      else printf "// WARN: unknown qbit for h: %s\n" [AStr (arg1 ins)]
  | OP_CNOT =>
      let control := qbit_index qnames (arg1 ins) in
      let target := qbit_index qnames (arg2 ins) in
      if (0 <=? control) && (0 <=? target) then printf "cx q[%d], q[%d];\n" [AInt control; AInt target]
      else printf "// WARN: unknown qbit for cx: %s %s\n" [AStr (arg1 ins); AStr (arg2 ins)]
  | OP_MEASURE =>
      let q := qbit_index qnames (arg1 ins) in
      if 0 <=? q then printf "c[%d] = measure q[%d];\n" [AInt q; AInt q]
      else printf "// WARN: unknown qbit for measure: %s\n" [AStr (arg1 ins)]
  | OP_ENTANGLE =>
      printf "// NOTE: entangle %s %s is simulator-level; use h + cx for hardware QASM.\n" [AStr (arg1 ins); AStr (arg2 ins)]
  | _ => mret tt
  end.

Fixpoint export_body (qnames : list string) (code : list Instruction) : prog unit :=
  match code with
  | [] => mret tt
  | ins :: code => _ ← export_instruction qnames ins; export_body qnames code
  end.

(** The map of names, from position [i]. *)
Fixpoint print_names (i : Z) (qnames : list string) : prog unit :=
  match qnames with
  | [] => mret tt
  | n :: qnames => _ ← printf "// %s -> q[%d]\n" [AStr n; AInt i]; print_names (i + 1) qnames
  end.

Definition export_openqasm (code : list Instruction) : prog unit :=
  match collect_names code [] with
  | None => eprintf "Error: QASM exporter supports max %d qbits\n" [AInt (Z.of_nat MAX_QASM_QBITS)]
  | Some [] => eprintf "Error: no qbits found for QASM export\n" []
  | Some qnames =>
      let qcount := Z.of_nat (length qnames) in
      _ ← printf "OPENQASM 3.0;\n" [];
      _ ← printf include_format [];
      _ ← printf "qubit[%d] q;\n" [AInt qcount];
      _ ← printf "bit[%d] c;\n\n" [AInt qcount];
      _ ← printf "// QBIT NOVA name map\n" [];
      _ ← print_names 0 qnames;
      _ ← printf "\n" [];
      export_body qnames code
  end.

(** [argv] without the program's name. *)
Definition main (argv : list string) (fopen : string → option string) (malloc_ok : bool) : prog Z :=
  match argv with
  | [] => _ ← printf "Usage: qnova-qasm <file.qn>\n" []; mret 0
  | path :: _ =>
      source ← read_file (fopen path) malloc_ok path;
      match source with
      | None => mret 1
      | Some source =>
          code ← lift (front_end source);
          _ ← export_openqasm code;
          mret 0
      end
  end.
End Exporter.
