(* ===== verification/QasmExportProps.v ===== *)
(** * The exported program

    The exporter numbers the declared names in the order of their first
    declaration and emits, for every H and CNOT on declared names, the line the
    circuit VM emits for the same gate. Over the real numbers and on two qubits the
    exported statements mean what the two-qubit VM does, as far as it has the
    gates: the same amplitudes, and measured bits drawn from them. *)

From Stdlib Require Import ZArith Lia ZifyBool Ascii String Reals Lra.
From stdpp Require Import base list numbers strings.
From S2P Require Import Prelude.
From S2P Require Import Float64.
From S2P Require Import Kernel.
From S2P Require Import KernelSpec.
From S2P Require Import KernelReal.
From S2P Require Import Outcome.
From S2P Require Import CString.
From S2P Require Import Syntax.
From S2P Require Import Compiler.
From S2P Require Import Console.
From S2P Require Import ByteVM.
From S2P Require Import State2.
From S2P Require Import State2Props.
From S2P Require Import QCircuit.
From S2P Require Import QCircuitProps.
From S2P Require Import QCircuitReal.
From S2P Require Import QCircuitText.
From S2P Require Import QasmExport.
Open Scope Z_scope.

(** ** Names *)

(** The names declared, in order. *)
Definition declared (code : list Instruction) : list string :=
  omap (λ ins, match op ins with OP_QBIT => Some (arg1 ins) | _ => None end) code.

(** Each name at its first occurrence only. *)
Fixpoint distinct_from (seen : list string) (l : list string) : list string :=
  match l with
  | [] => []
  | x :: l => if decide (x ∈ seen) then distinct_from seen l else x :: distinct_from (seen ++ [x]) l
  end.

Lemma qbit_index_cons n qnames name :
  qbit_index (n :: qnames) name =
    if (n =? name)%string then 0 else if qbit_index qnames name =? -1 then -1 else 1 + qbit_index qnames name.
Proof. done. Qed.

Lemma qbit_index_range qnames name : -1 <= qbit_index qnames name < Z.of_nat (length qnames).
Proof. induction qnames as [|n l IH]; [done|]. rewrite qbit_index_cons. simpl length. case_tests; lia. Qed.

Lemma qbit_index_found qnames name : 0 <= qbit_index qnames name ↔ name ∈ qnames.
Proof.
  induction qnames as [|n l IH]; [split; [done|by intros ?%elem_of_nil]|]. rewrite qbit_index_cons, elem_of_cons.
  pose proof (qbit_index_range l name). destruct (String.eqb_spec n name) as [->|Hne]; [split; [by left|lia]|].
  destruct (Z.eqb_spec (qbit_index l name) (-1)) as [He|He].
  - split; [lia|]. intros [->|Hin]; [done|]. apply IH in Hin. lia.
  - split; [intros _; right; apply IH; lia|lia].
Qed.

Lemma qbit_index_absent qnames name : (qbit_index qnames name =? -1) = bool_decide (name ∉ qnames).
Proof.
  pose proof (qbit_index_range qnames name). pose proof (qbit_index_found qnames name) as Hf.
  destruct (Z.eqb_spec (qbit_index qnames name) (-1)); symmetry; [apply bool_decide_eq_true|apply bool_decide_eq_false];
    rewrite <-Hf; lia.
Qed.

Lemma qbit_index_lookup qnames name :
  name ∈ qnames → qnames !! Z.to_nat (qbit_index qnames name) = Some name.
Proof.
  induction qnames as [|n l IH]; [by intros ?%elem_of_nil|]. rewrite qbit_index_cons, elem_of_cons. intros Hin.
  destruct (String.eqb_spec n name) as [->|Hne]; [done|]. destruct Hin as [->|Hin]; [done|].
  apply qbit_index_found in Hin as Hi. assert ((qbit_index l name =? -1) = false) as -> by lia.
  replace (Z.to_nat (1 + qbit_index l name)) with (S (Z.to_nat (qbit_index l name))) by lia. by apply IH.
Qed.

Definition fits (ins : Instruction) : Prop := (String.length (arg1 ins) < 64)%nat.

#[local] Instance op_qbit_dec o : Decision (o = OP_QBIT).
Proof. destruct o; first [left; reflexivity|right; discriminate]. Defined.

Lemma declared_cons ins code :
  declared (ins :: code) = match op ins with OP_QBIT => arg1 ins :: declared code | _ => declared code end.
Proof. unfold declared. cbn [omap list_omap]. by destruct (op ins). Qed.

Lemma collect_names_spec code qnames :
  Forall fits code → NoDup qnames → (length qnames <= MAX_QASM_QBITS)%nat →
  ∀ names, collect_names code qnames = Some names →
    names = qnames ++ distinct_from qnames (declared code) ∧ NoDup names ∧ (length names <= MAX_QASM_QBITS)%nat.
Proof.
  intros Hfit. revert qnames. induction Hfit as [|ins code Hins Hfit IH]; intros qnames Hnd Hlen names.
  - intros [= <-]. by rewrite app_nil_r.
  - assert (∀ l, match op ins with OP_QBIT => False | _ => True end →
      (collect_names (ins :: code) l = collect_names code l) ∧ declared (ins :: code) = declared code) as Hskip.
    { intros l Hop. rewrite declared_cons. cbn [collect_names]. by destruct (op ins). }
    destruct (decide (op ins = OP_QBIT)) as [Hop|Hop].
    + rewrite declared_cons, Hop. cbn [collect_names distinct_from]. rewrite Hop.
      destruct (Nat.leb_spec MAX_QASM_QBITS (length qnames)) as [|Hroom]; [done|].
      rewrite qbit_index_absent, str_take_id by (unfold fits in Hins; lia).
      destruct (decide (arg1 ins ∈ qnames)) as [Hin|Hin].
      * rewrite bool_decide_eq_false_2 by tauto. by apply IH.
      * rewrite bool_decide_eq_true_2 by done. intros Hc.
        assert (qnames ++ arg1 ins :: distinct_from (qnames ++ [arg1 ins]) (declared code) =
          (qnames ++ [arg1 ins]) ++ distinct_from (qnames ++ [arg1 ins]) (declared code)) as ->
          by (by rewrite <-app_assoc).
        apply IH; [|rewrite length_app; cbn; lia|done].
        apply NoDup_app. split; [done|]. split; [|apply NoDup_singleton].
        intros x Hx Hx'. apply list_elem_of_singleton in Hx'. by subst.
    + destruct (Hskip qnames) as [-> ->]; [by revert Hop; destruct (op ins)|]. by apply IH.
Qed.

(** ** Lines *)

(** The gate a line of OpenQASM states, if any. *)
Definition read_gate {F} (l : line F) : option Op :=
  match l with
  | Out (Print f [AInt q]) => if (f =? "h q[%d];\n")%string then Some (mk_op "h" q 0) else None
  | Out (Print f [AInt c; AInt t]) => if (f =? "cx q[%d], q[%d];\n")%string then Some (mk_op "cx" c t) else None
  | _ => None
  end.

(** The gates of a program, over the table of names. *)
Definition gates_of (qnames : list string) (code : list Instruction) : list Op :=
  omap (λ ins, match op ins with
    | OP_HADAMARD => if bool_decide (arg1 ins ∈ qnames) then Some (mk_op "h" (qbit_index qnames (arg1 ins)) 0) else None
    | OP_CNOT =>
        if bool_decide (arg1 ins ∈ qnames) && bool_decide (arg2 ins ∈ qnames)
        then Some (mk_op "cx" (qbit_index qnames (arg1 ins)) (qbit_index qnames (arg2 ins))) else None
    | _ => None
    end) code.

Section Lines.
Context {F : Type}.

Lemma omap_app' {A B} (f : A → option B) l k : omap f (l ++ k) = omap f l ++ omap f k.
Proof. induction l as [|x l IH]; [done|]. cbn [app omap list_omap]. rewrite IH. by destruct (f x). Qed.

Lemma found_leb qnames name : (0 <=? qbit_index qnames name) = bool_decide (name ∈ qnames).
Proof.
  pose proof (qbit_index_found qnames name) as Hf.
  destruct (Z.leb_spec 0 (qbit_index qnames name)); symmetry; [apply bool_decide_eq_true|apply bool_decide_eq_false];
    rewrite <-Hf; lia.
Qed.

Definition gate_line (l : line F) : Prop := is_Some (read_gate l).
#[local] Instance gate_line_dec l : Decision (gate_line l).
Proof. unfold gate_line. apply _. Defined.

Lemma gates_of_cons qnames ins code : gates_of qnames (ins :: code) = gates_of qnames [ins] ++ gates_of qnames code.
Proof. unfold gates_of. by rewrite <-omap_app'. Qed.

Lemma emit_ops_app l k o1 o2 :
  gives (F := F) (emit_ops l) o1 tt → gives (F := F) (emit_ops k) o2 tt → gives (F := F) (emit_ops (l ++ k)) (o1 ++ o2) tt.
Proof.
  revert o1. induction l as [|g l IH]; intros o1 Hl Hk; [by injection Hl as <-|].
  cbn [emit_ops app] in *. apply bind_gives in Hl as (p1 & [] & p2 & Hp1 & Hp2 & ->). rewrite <-app_assoc.
  apply (gives_bind _ _ p1 tt (p2 ++ o2)); [done|]. by apply IH.
Qed.

(** One instruction: its gate, if it has one, is the circuit VM's line for it. *)
Lemma export_instruction_spec qnames ins :
  ∃ o, gives (F := F) (export_instruction qnames ins) o tt ∧ omap read_gate o = gates_of qnames [ins] ∧
    gives (F := F) (emit_ops (gates_of qnames [ins])) (filter gate_line o) tt.
Proof.
  unfold export_instruction, gates_of. cbn [omap list_omap]. rewrite !found_leb.
  destruct (op ins); try (eexists; split; [done|]; split; done).
  - destruct (bool_decide (arg1 ins ∈ qnames)); eexists; split; try done; split; done.
  - destruct (bool_decide (arg1 ins ∈ qnames)); eexists; split; try done; split; done.
  - destruct (bool_decide (arg1 ins ∈ qnames) && bool_decide (arg2 ins ∈ qnames)); eexists; split; try done; split; done.
Qed.

Lemma export_body_spec qnames code :
  ∃ o, gives (F := F) (export_body qnames code) o tt ∧ omap read_gate o = gates_of qnames code ∧
    gives (F := F) (emit_ops (gates_of qnames code)) (filter gate_line o) tt.
Proof.
  induction code as [|ins code (o & Hr & Ho & He)]; [by exists []|].
  destruct (export_instruction_spec qnames ins) as (o1 & Hr1 & Ho1 & He1).
  exists (o1 ++ o). split; [by apply (gives_bind _ _ o1 tt o)|]. rewrite gates_of_cons, omap_app', Ho1, Ho, filter_app.
  split; [done|]. by apply emit_ops_app.
Qed.

Lemma print_names_gives i qnames :
  gives (F := F) (print_names i qnames)
    (imap (λ k n, Out (Print "// %s -> q[%d]\n" [AStr n; AInt (i + Z.of_nat k)])) qnames) tt.
Proof.
  revert i. induction qnames as [|n l IH]; intros i; [done|]. cbn [print_names imap].
  replace (i + Z.of_nat 0) with i by lia. eapply (gives_bind _ _ [_] tt); [done|].
  specialize (IH (i + 1)). unfold gives in *. rewrite IH. f_equal. f_equal. apply imap_ext. intros k x _. cbn.
  by replace (i + 1 + Z.of_nat k) with (i + Z.of_nat (S k)) by lia.
Qed.
End Lines.

(** What comes before the gates. *)
Definition qasm_header {F} (names : list string) : list (line F) :=
  let n := Z.of_nat (length names) in
  [Out (Print "OPENQASM 3.0;\n" []); Out (Print include_format []); Out (Print "qubit[%d] q;\n" [AInt n]);
   Out (Print "bit[%d] c;\n\n" [AInt n]); Out (Print "// QBIT NOVA name map\n" [])] ++
  imap (λ k x, Out (Print "// %s -> q[%d]\n" [AStr x; AInt (Z.of_nat k)])) names ++ [Out (Print "\n" [])].

Lemma export_with_body {F} code names body :
  collect_names code [] = Some names → names ≠ [] → gives (F := F) (export_body names code) body tt →
  gives (F := F) (export_openqasm code) (qasm_header names ++ body) tt.
Proof.
  intros Hc Hne Hb. unfold export_openqasm, qasm_header. rewrite Hc. destruct names as [|x names]; [done|].
  set (l := x :: names) in *. cbn [app]. do 5 (apply (gives_bind _ _ [_] tt); [done|]). rewrite <-app_assoc.
  pose proof (print_names_gives (F := F) 0 l) as Hn. eapply gives_bind; [exact Hn|].
  by apply (gives_bind _ _ [Out (Print "\n" [])] tt body).
Qed.

Lemma export_gives {F} code names :
  collect_names code [] = Some names → names ≠ [] →
  ∃ body, gives (F := F) (export_openqasm code) (qasm_header names ++ body) tt ∧
    omap read_gate body = gates_of names code ∧
    gives (F := F) (emit_ops (gates_of names code)) (filter gate_line body) tt.
Proof.
  intros Hc Hne. destruct (export_body_spec (F := F) names code) as (body & Hb & Hr & He). exists body. split; [|done].
  by apply export_with_body.
Qed.

Lemma gates_in_range names code :
  Forall (λ g, 0 <= op_a g < Z.of_nat (length names) ∧ 0 <= op_b g < Z.of_nat (length names)) (gates_of names code).
Proof.
  assert (∀ x, x ∈ names → 0 <= qbit_index names x < Z.of_nat (length names)) as Hx.
  { intros x Hin. pose proof (qbit_index_range names x). apply qbit_index_found in Hin. lia. }
  unfold gates_of. apply Forall_forall. intros g (ins & _ & Hg)%list_elem_of_omap. destruct (op ins); try done.
  - case_bool_decide as Hin; [|done]. injection Hg as <-. cbn. specialize (Hx _ Hin). lia.
  - destruct (bool_decide _ && bool_decide _) eqn:Hin in Hg; [|done]. injection Hg as <-.
    apply andb_true_iff in Hin as [H1%bool_decide_eq_true H2%bool_decide_eq_true]. cbn. split; by apply Hx.
Qed.

(** C22 (the exported program): when the declarations fit the table, the qubits of
    the exported program are the declared names, each once, in the order of
    their first declarations, at most 32 and listed in the map of names; the
    gate lines state, in order, H and CX for every H and CNOT on declared names,
    with the positions of these names, all inside the register, and are the
    lines the circuit VM emits for these gates. *)
Theorem export_correct {F} (code : list Instruction) (names : list string) :
  Forall fits code → collect_names code [] = Some names → names ≠ [] →
  names = distinct_from [] (declared code) ∧ NoDup names ∧ (length names <= MAX_QASM_QBITS)%nat ∧
  (∀ x, x ∈ names → names !! Z.to_nat (qbit_index names x) = Some x) ∧
  Forall (λ g, 0 <= op_a g < Z.of_nat (length names) ∧ 0 <= op_b g < Z.of_nat (length names)) (gates_of names code) ∧
  ∃ body, gives (F := F) (export_openqasm code) (qasm_header names ++ body) tt ∧
    omap read_gate body = gates_of names code ∧
    gives (F := F) (emit_ops (gates_of names code)) (filter gate_line body) tt.
Proof.
  intros Hfit Hc Hne. destruct (collect_names_spec code [] Hfit) with (names := names) as (Hn & Hnd & Hlen);
    [apply NoDup_nil; constructor|cbn; unfold MAX_QASM_QBITS; lia|done|].
  split; [done|]. split; [done|]. split; [done|]. split; [apply qbit_index_lookup|]. split; [apply gates_in_range|].
  by apply export_gives.
Qed.

(** [qbit a  qbit b  qbit a  hadamard a  cnot a b  measure c] *)
Definition export_code : list Instruction := [
  instr OP_QBIT "a" "|0>"; instr OP_QBIT "b" "|0>"; instr OP_QBIT "a" "|1>"; instr OP_HADAMARD "a" "";
  instr OP_CNOT "a" "b"; instr OP_MEASURE "c" ""
]%string.

Lemma export_correct_witness :
  gates_of ["a"; "b"]%string export_code = [mk_op "h" 0 0; mk_op "cx" 0 1] ∧
  ∃ body, gives (F := double) (export_openqasm export_code) (qasm_header ["a"; "b"]%string ++ body) tt ∧
    omap read_gate body = gates_of ["a"; "b"]%string export_code.
Proof.
  split; [reflexivity|].
  destruct (export_correct (F := double) export_code ["a"; "b"]%string) as (_ & _ & _ & _ & _ & body & H1 & H2 & _).
  - repeat apply List.Forall_cons; try apply List.Forall_nil; unfold fits; cbn; lia.
  - reflexivity.
  - done.
  - by exists body.
Defined.

(** ** The meaning of the exported program *)

(** The statement of a line: a gate, or the measurement of a qubit into a bit. *)
Definition read_stmt {F} (l : line F) : option (Op + Z * Z) :=
  match read_gate l with
  | Some g => Some (inl g)
  | None =>
      match l with
      | Out (Print f [AInt c; AInt q]) => if (f =? "c[%d] = measure q[%d];\n")%string then Some (inr (c, q)) else None
      | _ => None
      end
  end.

(** The measurements of a program, over the table of names: qubit [i] goes to
    bit [i]. *)
Definition measured_of (qnames : list string) (code : list Instruction) : list (Z * Z) :=
  omap (λ ins, match op ins with
    | OP_MEASURE =>
        if bool_decide (arg1 ins ∈ qnames) then Some (qbit_index qnames (arg1 ins), qbit_index qnames (arg1 ins)) else None
    | _ => None
    end) code.

Definition stmts_of (qnames : list string) (code : list Instruction) : list (Op + Z * Z) :=
  code ≫= λ ins, (inl <$> gates_of qnames [ins]) ++ (inr <$> measured_of qnames [ins]).

Lemma measured_of_cons qnames ins code : measured_of qnames (ins :: code) = measured_of qnames [ins] ++ measured_of qnames code.
Proof. unfold measured_of. by rewrite <-omap_app'. Qed.

Lemma export_instruction_stmts {F} qnames ins :
  ∃ o, gives (F := F) (export_instruction qnames ins) o tt ∧ omap read_stmt o = stmts_of qnames [ins].
Proof.
  unfold export_instruction, stmts_of, gates_of, measured_of. cbn [omap list_omap mbind list_bind]. rewrite !found_leb.
  destruct (op ins); try (eexists; split; [done|]; done);
    repeat case_bool_decide; eexists; (split; [done|]; reflexivity).
Qed.

Lemma export_body_stmts {F} qnames code :
  ∃ o, gives (F := F) (export_body qnames code) o tt ∧ omap read_stmt o = stmts_of qnames code.
Proof.
  induction code as [|ins code (o & Hr & Ho)]; [by exists []|].
  destruct (export_instruction_stmts (F := F) qnames ins) as (o1 & Hr1 & Ho1).
  exists (o1 ++ o). split; [by apply (gives_bind _ _ o1 tt o)|]. rewrite omap_app', Ho1, Ho. unfold stmts_of.
  cbn [mbind list_bind]. by rewrite app_nil_r.
Qed.

(** The header states nothing. *)
Lemma stmts_header {F} (names : list string) : omap read_stmt (qasm_header (F := F) names) = [].
Proof.
  unfold qasm_header. rewrite !omap_app'. cbn [omap list_omap read_stmt read_gate app].
  assert (∀ f : nat → string → line F, (∀ k x, read_stmt (f k x) = None) → omap read_stmt (imap f names) = []) as ->; [|done|done].
  clear. induction names as [|x l IH]; intros f Hf; [done|]. cbn. by rewrite Hf, IH by (intros; apply Hf).
Qed.

(** Every statement of the exported text. *)
Lemma export_stmts {F} code names :
  collect_names code [] = Some names → names ≠ [] →
  ∃ o, gives (F := F) (export_openqasm code) o tt ∧ omap read_stmt o = stmts_of names code.
Proof.
  intros Hc Hne. destruct (export_body_stmts (F := F) names code) as (body & Hb & Hs).
  exists (qasm_header names ++ body). split; [by apply export_with_body|]. by rewrite omap_app', Hs, stmts_header.
Qed.

(** ** The two-qubit VM on the same program *)

(** The instructions before the measurements for which the VM's limits do not
    show. On two qubits [a] and [b] the VM has H on the first and CNOT from the
    first to the second; where the exporter states another gate on them the VM
    only prints a notice. *)
Definition comparable (a b : string) (ins : Instruction) : Prop :=
  match op ins with
  | OP_QBIT => arg1 ins ∈ [a; b]
  | OP_HADAMARD => arg1 ins ≠ b
  | OP_CNOT => arg1 ins ∉ [a; b] ∨ arg2 ins ∉ [a; b] ∨ (arg1 ins = a ∧ arg2 ins = b)
  | OP_MEASURE => False
  | _ => True
  end.

(** The instructions from the first measurement on: no gate follows. *)
Definition settled (ins : Instruction) : Prop :=
  match op ins with OP_QBIT | OP_HADAMARD | OP_CNOT => False | _ => True end.

Definition measures (ins : Instruction) : bool := match op ins with OP_MEASURE => true | _ => false end.

Definition two_qubits (a b st_a st_b : string) (code : list Instruction) : list Instruction :=
  instr OP_QBIT a st_a :: instr OP_QBIT b st_b :: code.

(** The VM with qubits [a] and [b], not measured since the start. *)
Definition fresh (rands : nat) (v : s2vm R) : Prop := v_measured v = false ∧ v_rands v = rands.
Definition names_at (a b : string) (v : s2vm R) : Prop := v_q0 v = a ∧ v_q1 v = b ∧ v_qcount v = 2.

Lemma say_qubit_frame {F} (bit : Z) (v v' : s2vm F) :
  say_qubit bit v = Some v' → ∃ o, v' = say o v.
Proof.
  unfold say_qubit. destruct (v_measured v); [intros [= <-]; by eexists|].
  destruct (qstate2_print _); [|done]. intros [= <-]. by eexists.
Qed.

(** What an instruction leaves alone. *)
Lemma step_frame rand ins a b rands (v v' : s2vm R) :
  names_at a b v → state2_step rand ins v = Some v' →
  names_at a b v' ∧
  (op ins ≠ OP_MEASURE → fresh rands v → fresh rands v') ∧
  (settled ins → op ins ≠ OP_MEASURE →
    v_state v' = v_state v ∧ v_measured v' = v_measured v ∧ v_bit0 v' = v_bit0 v ∧ v_bit1 v' = v_bit1 v).
Proof.
  intros (<- & <- & Hq). unfold state2_step, settled, names_at, fresh. rewrite Hq. cbn [Z.eqb].
  destruct (op ins); try (by intros [= <-]).
  - destruct (same_name _ (v_q0 v)); [|destruct (same_name _ (v_q1 v))]; [intros (o & ->)%say_qubit_frame; by auto..|].
    by intros [= <-].
  - destruct (same_name _ _); [|by intros [= <-]]. destruct (qstate2_h_first _) as [s1|]; [|done]. cbn [mbind option_bind].
    destruct (qstate2_print _); [|done]. by intros [= <-].
  - destruct (qstate2_measure _ _ _) as [[s1 r]|]; [|done]. cbn [mbind option_bind].
    destruct (qstate2_print _); [|done]. by intros [= <-].
  - destruct (same_name _ _ && _); [|by intros [= <-]]. destruct (qstate2_cnot_first_to_second _) as [s1|]; [|done].
    cbn [mbind option_bind]. destruct (qstate2_print _); [|done]. by intros [= <-].
Qed.

Lemma kernel_at_amps n a k a' : kernel_at n a k → kernel_at n a' k → a = a' :> list (complex R).
Proof. intros [_ _ _ H1 _ _] [_ _ _ H2 _ _]. rewrite H1 in H2. by injection H2. Qed.

(** One gate on both. *)
Lemma gate_on_both (cexp : complex R → complex R) o a a' k k' :
  kernel_at 2 a k → kernel_at 2 a' k' → op_ok 2 o → shared_gate o → kernel_ops [o] (Some k) = Some (QCPU_OK, Some k') →
  gives (apply_ops cexp 2 [o] a) [] a'.
Proof.
  intros Hk Hk' Ho Hg Hcall. destruct (apply_op_kernel cexp 2 o a k) as (a1 & k1 & Hr & Hk1 & Hcall1); [unfold MAX_QUBITS; lia|done..|].
  rewrite Hcall in Hcall1. injection Hcall1 as <-. rewrite (kernel_at_amps _ _ _ _ Hk' Hk1).
  by apply (gives_bind _ _ [] a1 []).
Qed.

Lemma same_amps (cexp : complex R → complex R) n s s' k :
  sim s k → sim s' k → gives (apply_ops cexp n [] (embed <$> s2_amp s)) [] (embed <$> s2_amp s').
Proof. intros Hs Hs'. by rewrite (kernel_at_amps _ _ _ _ (sim_kernel _ _ Hs') (sim_kernel _ _ Hs)). Qed.

Lemma comparable_step rand (cexp : complex R → complex R) a b rands ins v k :
  a ≠ b → comparable a b ins → names_at a b v → fresh rands v → sim (v_state v) k → unit2 (v_state v) →
  ∃ v' k', state2_step rand ins v = Some v' ∧ names_at a b v' ∧ fresh rands v' ∧ sim (v_state v') k' ∧ unit2 (v_state v') ∧
    gives (apply_ops cexp 2 (gates_of [a; b] [ins]) (embed <$> s2_amp (v_state v))) [] (embed <$> s2_amp (v_state v')).
Proof.
  intros Hne Hok Hn Hf Hs Hu. destruct (step_sim rand ins v k Hs Hu) as (v' & k' & Hstep & Heff & Hs' & Hu').
  destruct (step_frame rand ins a b rands v v' Hn Hstep) as (Hn' & Hf' & _).
  exists v', k'. split; [done|]. split; [done|].
  split; [apply Hf'; [|done]; unfold comparable in Hok; by intros Hm; rewrite Hm in Hok|].
  split; [done|]. split; [done|]. destruct Hn as (Ha & Hb & _).
  pose proof (sim_kernel _ _ Hs) as Hk. pose proof (sim_kernel _ _ Hs') as Hk'.
  assert (qbit_index [a; b] a = 0) as Hia by (cbn; by rewrite String.eqb_refl).
  assert (qbit_index [a; b] b = 1) as Hib by (cbn; destruct (String.eqb_spec a b); [done|]; by rewrite String.eqb_refl).
  unfold kernel_effect, same_name in Heff. unfold comparable in Hok. unfold gates_of. cbn [omap list_omap].
  rewrite Ha, Hb in Heff. destruct (op ins) eqn:Hop; try done; try (subst k'; by apply same_amps with k).
  - destruct (String.eqb_spec (arg1 ins) a) as [->|Hna]; [rewrite bool_decide_eq_true_2, Hia by (by left)|].
    + apply (gate_on_both cexp _ _ _ k k'); [done|done|left; cbn; split; [done|lia]|by left|].
      cbn [kernel_ops mk_op gate op_a String.eqb Ascii.eqb Bool.eqb]. by rewrite Heff.
    + rewrite bool_decide_eq_false_2; [subst k'; by apply same_amps with k|].
      by intros [?|[?|?%elem_of_nil]%elem_of_cons]%elem_of_cons.
  - destruct Hok as [Hout|[Hout|[Hc Ht]]].
    + rewrite bool_decide_eq_false_2 by done. cbn [andb]. destruct (String.eqb_spec (arg1 ins) a) as [He|_];
        [destruct Hout; rewrite He; by left|]. cbn [andb] in Heff. subst k'. by apply same_amps with k.
    + rewrite (bool_decide_eq_false_2 (arg2 ins ∈ _)), andb_false_r by done. destruct (String.eqb_spec (arg2 ins) b) as [He|_];
        [destruct Hout; rewrite He; by right; left|]. rewrite andb_false_r in Heff. subst k'. by apply same_amps with k.
    + rewrite Hc, Ht, !String.eqb_refl in Heff. cbn [andb] in Heff.
      rewrite Hc, Ht, !bool_decide_eq_true_2, Hia, Hib by (by left || by right; left). cbn [andb].
      apply (gate_on_both cexp _ _ _ k k'); [done|done|right; left; cbn; repeat split; lia|by right; right|].
      cbn [kernel_ops mk_op gate op_a op_b String.eqb Ascii.eqb Bool.eqb]. by rewrite Heff.
Qed.

Lemma apply_ops_app (cexp : complex R → complex R) n l1 l2 a a1 a2 :
  gives (apply_ops cexp n l1 a) [] a1 → gives (apply_ops cexp n l2 a1) [] a2 → gives (apply_ops cexp n (l1 ++ l2) a) [] a2.
Proof.
  revert a. induction l1 as [|o l1 IH]; intros a H1 H2; [by injection H1 as <-|]. cbn [apply_ops app] in *.
  apply bind_gives in H1 as (p1 & b & p2 & Hb & Hrest & [-> ->]%eq_sym%app_eq_nil).
  apply (gives_bind _ _ [] b []); [done|]. by apply IH.
Qed.

Lemma comparable_loop rand cexp a b rands body v k :
  a ≠ b → Forall (comparable a b) body → names_at a b v → fresh rands v → sim (v_state v) k → unit2 (v_state v) →
  ∃ v' k', (∀ tail, state2_loop rand (body ++ tail) v = state2_loop rand tail v') ∧
    names_at a b v' ∧ fresh rands v' ∧ sim (v_state v') k' ∧ unit2 (v_state v') ∧
    gives (apply_ops cexp 2 (gates_of [a; b] body) (embed <$> s2_amp (v_state v))) [] (embed <$> s2_amp (v_state v')).
Proof.
  intros Hne Hok. revert v k. induction Hok as [|ins body Hins Hok IH]; intros v k Hn Hf Hs Hu; [by exists v, k|].
  destruct (comparable_step rand cexp a b rands ins v k Hne Hins Hn Hf Hs Hu) as (v1 & k1 & Hstep & Hn1 & Hf1 & Hs1 & Hu1 & Hg1).
  destruct (IH v1 k1 Hn1 Hf1 Hs1 Hu1) as (v' & k' & Hloop & Hn' & Hf' & Hs' & Hu' & Hg). exists v', k'.
  split; [intros tail; cbn [state2_loop app]; rewrite Hstep; apply Hloop|]. repeat (split; [done|]).
  rewrite gates_of_cons. by eapply apply_ops_app.
Qed.

(** The random number a measurement starts from. *)
Definition draw (rand : nat → Z) (j : nat) : R := (IZR (rand j) / IZR RAND_MAX)%R.

Lemma draw_range rand j : 0 < rand j <= RAND_MAX → (0 < draw rand j <= 1)%R.
Proof.
  intros [Hlo Hhi]. apply IZR_lt in Hlo. apply IZR_le in Hhi. unfold draw, RAND_MAX in *.
  split; [apply Rdiv_lt_0_compat; lra|]. apply Rmult_le_reg_r with 2147483647%R; [lra|].
  unfold Rdiv. rewrite Rmult_assoc, Rinv_l by lra. lra.
Qed.

(** The index measured is the inverse of the cumulative distribution. *)
Definition sampled (amps : list (complex R)) (r : R) (i : Z) : Prop :=
  0 <= i < 4 ∧ (vnorm (take (Z.to_nat i) amps) < r <= vnorm (take (S (Z.to_nat i)) amps))%R.

Lemma Rleb_spec x y : if Rleb x y then (x <= y)%R else (y < x)%R.
Proof. unfold Rleb. destruct (Rle_dec x y); [done|]. lra. Qed.

Lemma measure_samples rand j s s' i :
  length (s2_amp s) = 4%nat → unit2 s → 0 < rand j <= RAND_MAX → qstate2_measure rand j s = Some (s', i) →
  sampled (embed <$> s2_amp s) (draw rand j) i.
Proof.
  intros (a & b & c & d & Ha)%four Hu Hr. pose proof (draw_range rand j Hr) as [Hlo Hhi].
  unfold unit2, qstate2_measure in *. rewrite Ha in *.
  change (f_div (f_of_Z (rand j)) (f_of_Z RAND_MAX)) with (draw rand j).
  revert Hlo Hhi Hu. generalize (draw rand j). intros r. unfold sampled, vnorm, embed, c_norm2.
  cbn [for_ctl pick_body lookup list_lookup mbind option_bind f_leb f_add f_mul real_ops fmap list_fmap foldr re im].
  unfold f_zero. cbn [f_of_Z real_ops]. intros Hlo Hhi Hu.
  repeat match goal with |- context [Rleb ?x ?y] =>
    let H := fresh in pose proof (Rleb_spec x y) as H; destruct (Rleb x y) end;
  intros [= <- <-]; (split; [lia|]); simpl; lra.
Qed.

(** The VM after a measurement that gave [i]. *)
Record measured_at (i : Z) (v : s2vm R) : Prop := {
  ma_range : 0 <= i < 4;
  ma_flag : v_measured v = true;
  ma_bits : i = 2 * v_bit0 v + v_bit1 v;
  ma_state : embed <$> s2_amp (v_state v) = basis 2 i
}.

Lemma measured_unit i v : measured_at i v → length (s2_amp (v_state v)) = 4%nat ∧ unit2 (v_state v).
Proof.
  intros [Hi _ _ Hs]. split; [rewrite <-(length_fmap embed), Hs; apply Nat2Z.inj; exact (length_basis 2 i ltac:(lia))|].
  unfold unit2. rewrite Hs.
  assert (i = 0 ∨ i = 1 ∨ i = 2 ∨ i = 3) as [->|[->|[->| ->]]] by lia; unfold vnorm, basis, c_norm2, c_one, c_zero, f_one, f_zero; simpl; lra.
Qed.

(** A measurement, from any state of norm 1. *)
Lemma measure_step_at rand ins (v v' : s2vm R) :
  op ins = OP_MEASURE → length (s2_amp (v_state v)) = 4%nat → unit2 (v_state v) → 0 < rand (v_rands v) <= RAND_MAX →
  state2_step rand ins v = Some v' →
  ∃ i, measured_at i v' ∧ sampled (embed <$> s2_amp (v_state v)) (draw rand (v_rands v)) i.
Proof.
  intros Hop Hl Hu Hr. unfold state2_step. rewrite Hop.
  destruct (measure_defined rand (v_rands v) (v_state v) Hl) as (i & Hm & Hi). rewrite Hm. cbn [mbind option_bind].
  destruct (qstate2_print _); [|done]. cbn [mbind option_bind]. intros [= <-]. exists i.
  split; [|by eapply measure_samples]. split; cbn [say with_bits with_state v_measured v_state v_bit0 v_bit1 s2_amp]; [done|done|..].
  - by assert (i = 0 ∨ i = 1 ∨ i = 2 ∨ i = 3) as [->|[->|[->| ->]]] by lia.
  - by rewrite list_fmap_insert.
Qed.

(** Measuring a basis state gives this state. *)
Lemma sampled_basis i j r : 0 <= i < 4 → (0 < r <= 1)%R → sampled (basis 2 i) r j → j = i.
Proof.
  intros Hi Hr [Hj Hs]. assert (i = 0 ∨ i = 1 ∨ i = 2 ∨ i = 3) as Hi' by lia.
  assert (j = 0 ∨ j = 1 ∨ j = 2 ∨ j = 3) as Hj' by lia. revert Hs.
  destruct Hi' as [->|[->|[->| ->]]], Hj' as [->|[->|[->| ->]]]; try done;
    unfold vnorm, basis, c_norm2, c_one, c_zero, f_one, f_zero; simpl; lra.
Qed.

Lemma measured_settled rand a b tail i v :
  (∀ j, 0 < rand j <= RAND_MAX) → Forall settled tail → names_at a b v → sound2 (v_state v) → measured_at i v →
  ∃ v', state2_loop rand tail v = Some v' ∧ measured_at i v'.
Proof.
  intros Hrand Hset. revert v. induction Hset as [|ins tail Hins Hset IH]; intros v Hn Hv Hm; [by exists v|].
  destruct (state2_step_defined rand ins v Hv) as (v1 & Hstep & Hv1). cbn [state2_loop]. rewrite Hstep.
  cbn [mbind option_bind]. destruct (step_frame rand ins a b 0 v v1 Hn Hstep) as (Hn1 & _ & Hrest).
  apply IH; [done|done|]. destruct (measures ins) eqn:Hop.
  - destruct (measured_unit _ _ Hm) as [Hl Hu].
    destruct (measure_step_at rand ins v v1) as (j & Hm1 & Hj); [by revert Hop; unfold measures; destruct (op ins)|done..|].
    rewrite (ma_state _ _ Hm) in Hj. apply sampled_basis in Hj as ->; [done|by destruct Hm|by apply draw_range].
  - destruct Hrest as (Hs & Hf & H0 & H1); [done|by intros He; revert Hop; unfold measures; rewrite He|].
    destruct Hm as [Hi Hm1 Hm2 Hm3]. by split; rewrite ?Hs, ?Hf, ?H0, ?H1.
Qed.

(** What the VM ends with after the gates gave [amps]: the amplitudes
    themselves when nothing is measured, else a basis state drawn from them. *)
Definition observed (rand : nat → Z) (rands : nat) (amps : list (complex R)) (tail : list Instruction) (v : s2vm R) : Prop :=
  if existsb measures tail
  then ∃ i, measured_at i v ∧ sampled amps (draw rand rands) i
  else v_measured v = false ∧ embed <$> s2_amp (v_state v) = amps.

Lemma settled_loop rand a b rands tail v :
  (∀ j, 0 < rand j <= RAND_MAX) → Forall settled tail → names_at a b v → fresh rands v →
  sound2 (v_state v) → unit2 (v_state v) →
  ∃ v', state2_loop rand tail v = Some v' ∧ observed rand rands (embed <$> s2_amp (v_state v)) tail v'.
Proof.
  intros Hrand Hset. revert v. unfold observed.
  induction Hset as [|ins tail Hins Hset IH]; intros v Hn Hf Hv Hu; [exists v; by destruct Hf|].
  destruct (state2_step_defined rand ins v Hv) as (v1 & Hstep & Hv1). cbn [state2_loop existsb]. rewrite Hstep.
  cbn [mbind option_bind]. destruct (step_frame rand ins a b rands v v1 Hn Hstep) as (Hn1 & Hf1 & Hrest).
  destruct (measures ins) eqn:Hop; cbn [orb].
  - destruct (measure_step_at rand ins v v1) as (i & Hm & Hi);
      [by revert Hop; unfold measures; destruct (op ins)|by destruct Hv|done..|].
    destruct (measured_settled rand a b tail i v1) as (v' & Hloop & Hm'); [done..|]. destruct Hf as [_ <-]. eauto.
  - assert (op ins ≠ OP_MEASURE) as Hno by (intros He; revert Hop; unfold measures; by rewrite He).
    destruct (Hrest Hins Hno) as (Hs & _). rewrite <-Hs in Hu |- *. apply IH; auto.
Qed.

Lemma two_names a b st_a st_b body tail :
  a ≠ b → (String.length a < 64)%nat → (String.length b < 64)%nat → Forall (comparable a b) body → Forall settled tail →
  collect_names (two_qubits a b st_a st_b (body ++ tail)) [] = Some [a; b].
Proof.
  intros Hne Hla Hlb Hok Hset. unfold two_qubits. cbn [collect_names instr op arg1 length qbit_index Nat.leb MAX_QASM_QBITS Z.eqb].
  rewrite !str_take_id by lia. cbn [app qbit_index length Nat.leb]. destruct (String.eqb_spec a b); [done|]. cbn [Z.eqb app].
  assert (collect_names tail [a; b] = Some [a; b]) as Htail.
  { induction Hset as [|ins tail Hins Hset IH]; [done|]. cbn [collect_names]. unfold settled in Hins. by destruct (op ins). }
  induction Hok as [|ins body Hins Hok IH]; [done|]. cbn [collect_names app]. unfold comparable in Hins.
  destruct (op ins); try done. rewrite qbit_index_absent, bool_decide_eq_false_2 by tauto. exact IH.
Qed.

Lemma stmts_of_app names l k : stmts_of names (l ++ k) = stmts_of names l ++ stmts_of names k.
Proof. apply bind_app. Qed.

Lemma stmts_gates a b body : Forall (comparable a b) body → stmts_of [a; b] body = inl <$> gates_of [a; b] body.
Proof.
  induction 1 as [|ins body Hins _ IH]; [done|]. change (ins :: body) with ([ins] ++ body) at 1.
  rewrite stmts_of_app, IH, (gates_of_cons _ ins body), fmap_app. f_equal. unfold stmts_of. cbn [mbind list_bind].
  rewrite app_nil_r. unfold comparable in Hins. unfold measured_of. cbn [omap list_omap].
  destruct (op ins); try done; by rewrite app_nil_r.
Qed.

Lemma stmts_measures names tail : Forall settled tail → stmts_of names tail = inr <$> measured_of names tail.
Proof.
  induction 1 as [|ins tail Hins _ IH]; [done|]. change (ins :: tail) with ([ins] ++ tail) at 1.
  rewrite stmts_of_app, IH, (measured_of_cons _ ins tail), fmap_app. f_equal. unfold stmts_of. cbn [mbind list_bind].
  rewrite app_nil_r. unfold settled in Hins. unfold gates_of. cbn [omap list_omap]. by destruct (op ins).
Qed.

(** The VM after the two declarations. *)
Lemma declared_start rand rands a b st_a st_b code :
  ∃ v, run_state2_bytecode rand rands (two_qubits a b st_a st_b code) = state2_loop rand code v ∧
    names_at a b v ∧ fresh rands v ∧ v_state v = qstate2_init_00.
Proof. eexists. split; [reflexivity|]. done. Qed.

(** C21 (the export means what the two-qubit VM does): over the real numbers,
    take a program that declares two qubits [a] and [b], with names shorter than
    64 bytes, then has the gates [body] and then the measurements [tail], with no
    gate between or after them. The exported program states the gates and then, for every measured
    qubit, its measurement into the bit with its number. When no gate on [a]
    and [b] is one the VM does not have ([hadamard b], [cnot b a]; on other
    names both only leave a notice), the VM ends as the exported program says:
    without a measurement with the amplitudes the circuit VM computes from the
    stated gates, otherwise with both bits drawn together from these
    amplitudes, that is, with the basis state at which the cumulative
    probability passes the random number, which no later measurement changes.
    (A random number of zero is the defect of [measure_impossible].) *)
Theorem export_means_state2 (rand : nat → Z) (rands : nat) (cexp : complex R → complex R)
    (a b st_a st_b : string) (body tail : list Instruction) :
  a ≠ b → (String.length a < 64)%nat → (String.length b < 64)%nat →
  Forall (comparable a b) body → Forall settled tail → (∀ j, 0 < rand j <= RAND_MAX) →
  let code := two_qubits a b st_a st_b (body ++ tail) in
  ∃ v o gates amps, run_state2_bytecode rand rands code = Some v ∧ gives (F := R) (export_openqasm code) o tt ∧
    omap read_stmt o = (inl <$> gates) ++ (inr <$> measured_of [a; b] tail) ∧
    gives (apply_ops cexp 2 gates (basis 2 0)) [] amps ∧ vnorm amps = 1%R ∧
    observed rand rands amps tail v.
Proof.
  intros Hne Hla Hlb Hok Hset Hrand code.
  destruct (declared_start rand rands a b st_a st_b (body ++ tail)) as (v0 & Hrun & Hn0 & Hf0 & Hst0). fold code in Hrun.
  set (k0 := mk_kernel 2 4 (Some (basis 2 0)) 1 0 0 : QCPUKernel R).
  assert (sim (v_state v0) k0) as Hs0 by (rewrite Hst0; by split).
  assert (unit2 (v_state v0)) as Hu0 by (rewrite Hst0; unfold unit2, vnorm, embed, c_norm2; cbn; lra).
  destruct (comparable_loop rand cexp a b rands body v0 k0) as (v1 & k1 & Hloop1 & Hn1 & Hf1 & Hs1 & Hu1 & Hg); [done..|].
  destruct (settled_loop rand a b rands tail v1) as (v & Hloop & Hobs); [done..|by eapply sim_sound2|done|].
  destruct (export_stmts (F := R) code [a; b]) as (o & Ho & Hst); [by apply two_names|done|].
  exists v, o, (gates_of [a; b] body), (embed <$> s2_amp (v_state v1)).
  split; [by rewrite Hrun, Hloop1|]. split; [done|]. rewrite Hst0 in Hg. split; [|by split].
  rewrite Hst, <-stmts_gates, <-stmts_measures, <-stmts_of_app by done. reflexivity.
Qed.

(** [qbit a  qbit b  hadamard a  cnot a b  say a  measure a  measure b  say b] *)
Definition bell_body : list Instruction :=
  [instr OP_HADAMARD "a" ""; instr OP_CNOT "a" "b"; instr OP_SAY "a" ""]%string.
Definition bell_tail : list Instruction :=
  [instr OP_MEASURE "a" ""; instr OP_MEASURE "b" ""; instr OP_SAY "b" ""]%string.

Lemma export_means_state2_witness :
  measured_of ["a"; "b"]%string bell_tail = [(0, 0); (1, 1)] ∧
  ∃ v o gates amps, run_state2_bytecode (λ _, 1500000000) 0 (two_qubits "a" "b" "|0>" "|0>" (bell_body ++ bell_tail)) = Some v ∧
    gives (F := R) (export_openqasm (two_qubits "a" "b" "|0>" "|0>" (bell_body ++ bell_tail))) o tt ∧
    omap read_stmt o = (inl <$> gates) ++ (inr <$> measured_of ["a"; "b"]%string bell_tail) ∧
    gives (apply_ops real_cexp 2 gates (basis 2 0)) [] amps ∧ vnorm amps = 1%R ∧
    observed (λ _, 1500000000) 0 amps bell_tail v.
Proof.
  split; [reflexivity|].
  apply (export_means_state2 (λ _, 1500000000) 0 real_cexp "a" "b" "|0>" "|0>" bell_body bell_tail);
    [done|cbn; lia|cbn; lia|..].
  - repeat apply List.Forall_cons; try apply List.Forall_nil; [done|by right; right|done].
  - repeat apply List.Forall_cons; try apply List.Forall_nil; done.
  - unfold RAND_MAX. lia.
Defined.
