(* ===== verification/Qbc.v ===== *)
(** * Bytecode files

    [save_qbc] and [load_qbc] of [src/compiler/compiler.c] write and read the
    bytes of the static variables [instr_count] and [bytecode]. [memory] is
    these bytes, on a little-endian machine with 4-byte [int] and enumerations:
    an instruction is 136 bytes, the opcode, two operands of 64 and the value.
    [emit_mem] is [emit] on them. [None] is undefined behaviour.

    The opening of a file is a parameter; what is written is taken to be
    written whole, and the bytes of an instruction cut off at the end of a file
    to be stored. *)

From Stdlib Require Import ZArith Lia ZifyBool Ascii String.
From stdpp Require Import base list numbers strings.
From S2P Require Import Prelude.
From S2P Require Import Wire.
From S2P Require Import Outcome.
From S2P Require Import CString.
From S2P Require Import Syntax.
From S2P Require Import Console.
Open Scope Z_scope.

Definition INSTR_BYTES : nat := 136.
Definition OP_OFFSET : nat := 0.
Definition ARG1_OFFSET : nat := 4.
Definition ARG2_OFFSET : nat := 68.
Definition VALUE_OFFSET : nat := 132.

Record memory := { count_bytes : list Z; code_bytes : list Z }.

(** The variables when the program starts. *)
Definition static_memory : memory :=
  {| count_bytes := replicate 4 0; code_bytes := replicate (MAX_INSTR * INSTR_BYTES) 0 |}.

(** ** Values and their bytes *)

(** An [int] from its four bytes. *)
Definition to_int (bs : list Z) : Z :=
  let v := le_combine bs in if v <? 2 ^ 31 then v else v - 2 ^ 32.
Definition int_bytes (v : Z) : list Z := le_split 4 v.

Definition op_number (o : OpCode) : Z :=
  match o with
  | OP_SAY => 0
  | OP_LET => 1
  | OP_QBIT => 2
  | OP_HADAMARD => 3
  | OP_MEASURE => 4
  | OP_ENTANGLE => 5
  | OP_CNOT => 6
  | OP_CHECK => 7
  | OP_REPEAT => 8
  | OP_BLOCK => 9
  | OP_END => 10
  | OP_SAFE_ACTION => 11
  | OP_QMSG => 12
  | OP_ENCODE_QMSG => 13
  | OP_DECODE_QMSG => 14
  | OP_UNKNOWN code => code
  end.

Definition opcodes : list OpCode := [
  OP_SAY; OP_LET; OP_QBIT; OP_HADAMARD; OP_MEASURE; OP_ENTANGLE; OP_CNOT; OP_CHECK; OP_REPEAT; OP_BLOCK;
  OP_END; OP_SAFE_ACTION; OP_QMSG; OP_ENCODE_QMSG; OP_DECODE_QMSG].

(** An enumeration is an [unsigned] here; [switch] converts it to [int]. *)
Definition op_of_number (n : Z) : OpCode :=
  match opcodes !! Z.to_nat n with
  | Some o => if 0 <=? n then o else OP_UNKNOWN n
  | None => OP_UNKNOWN n
  end.


(** The C string in an array of bytes; [None] when it is not terminated. *)
Fixpoint cstr (bs : list Z) : option string :=
  match bs with
  | [] => None
  | b :: bs =>
      if b =? 0 then Some EmptyString
      else s ← cstr bs; Some (String (ascii_of_N (Z.to_N b)) s)
  end.

(** The instruction that 136 bytes hold. *)
Definition read_instr (bs : list Z) : option Instruction :=
  a1 ← cstr (slice ARG1_OFFSET ARG_BYTES bs);
  a2 ← cstr (slice ARG2_OFFSET ARG_BYTES bs);
  Some {| op := op_of_number (to_int (slice OP_OFFSET 4 bs)); arg1 := a1; arg2 := a2;
          ivalue := to_int (slice VALUE_OFFSET 4 bs) |}.

Definition instr_count (m : memory) : Z := to_int (count_bytes m).

(** The instructions the variables hold, if they hold some. *)
Definition view (m : memory) : option (list Instruction) :=
  let n := instr_count m in
  if (0 <=? n) && (n <=? Z.of_nat MAX_INSTR) then
    mapM (λ i, read_instr (slice (i * INSTR_BYTES) INSTR_BYTES (code_bytes m))) (seq 0 (Z.to_nat n))
  else None.

(** ** Emission *)

(** [strcpy] into an operand. *)
Definition strcpy_arg (off : nat) (a : option string) (bs : list Z) : option (list Z) :=
  match a with
  | None => Some bs
  | Some s => if (String.length s <? ARG_BYTES)%nat then Some (list_inserts off (string_bytes s ++ [0]) bs) else None
  end.

Definition emit_mem (o : OpCode) (a1 a2 : option string) (val : Z) (m : memory) : option memory :=
  let n := instr_count m in
  if (0 <=? n) && (n <? Z.of_nat MAX_INSTR) then
    let base := (Z.to_nat n * INSTR_BYTES)%nat in
    let bs := list_inserts (base + OP_OFFSET) (int_bytes (op_number o)) (code_bytes m) in
    let bs := list_inserts (base + ARG1_OFFSET) [0] bs in
    let bs := list_inserts (base + ARG2_OFFSET) [0] bs in
    bs ← strcpy_arg (base + ARG1_OFFSET) a1 bs;
    bs ← strcpy_arg (base + ARG2_OFFSET) a2 bs;
    let bs := list_inserts (base + VALUE_OFFSET) (int_bytes val) bs in
    Some {| count_bytes := int_bytes (n + 1); code_bytes := bs |}
  else None.

(** ** Files *)

Section Files.
Context {F : Type}.

(** The bytes of the file; [None] when it cannot be opened. [fwrite] of more
    instructions than the array has is undefined. *)
Definition save_qbc (fopen_ok : bool) (filename : string) (m : memory) : console F (option (list Z)) :=
  if fopen_ok then
    _ ← lift (guard_ub ((0 <=? instr_count m) && (instr_count m <=? Z.of_nat MAX_INSTR)));
    let file := count_bytes m ++ take (Z.to_nat (instr_count m) * INSTR_BYTES) (code_bytes m) in
    _ ← printf "QBC saved: %s (%d instructions)\n" [AStr filename; AInt (instr_count m)];
    mret (Some file)
  else
    _ ← printf "Error: cannot write QBC file: %s\n" [AStr filename];
    mret None.

(** The variables afterwards and the result. [fread] into an array that has no
    room for the elements asked for is undefined. *)
Definition load_qbc (file : option (list Z)) (filename : string) (m : memory) : console F (Z * memory) :=
  match file with
  | None =>
      _ ← printf "Error: cannot read QBC file: %s\n" [AStr filename];
      mret (0, m)
  | Some file =>
      let m := {| count_bytes := list_inserts 0 (take 4 file) (count_bytes m); code_bytes := code_bytes m |} in
      let n := instr_count m in
      _ ← lift (guard_ub ((0 <=? n) && (n <=? Z.of_nat MAX_INSTR)));
      let m := {| count_bytes := count_bytes m;
                  code_bytes := list_inserts 0 (take (Z.to_nat n * INSTR_BYTES) (drop 4 file)) (code_bytes m) |} in
      _ ← printf "QBC loaded: %s (%d instructions)\n" [AStr filename; AInt n];
      mret (1, m)
  end.
End Files.
