(* ===== verification/QbcProps.v ===== *)
(** * Bytecode files keep the program

    [emit_mem], on bytes, refines [emit], on instructions; and a saved file is
    read back as the instructions that were saved, into whatever the variables
    held before. *)

From Stdlib Require Import ZArith Lia ZifyBool Ascii String.
From stdpp Require Import base list numbers strings.
From S2P Require Import Prelude.
From S2P Require Import Wire.
From S2P Require Import Outcome.
From S2P Require Import CString.
From S2P Require Import Syntax.
From S2P Require Import Compiler.
From S2P Require Import Console.
From S2P Require Import Qbc.
Open Scope Z_scope.

(** ** Slices of a written array *)

Lemma slice_lookup off n (l : list Z) i : (i < n)%nat → slice off n l !! i = l !! (off + i)%nat.
Proof. intros Hi. unfold slice. by rewrite lookup_take_lt, lookup_drop. Qed.

Lemma slice_lookup_ge off n (l : list Z) i : (n <= i)%nat → slice off n l !! i = None.
Proof. intros Hi. unfold slice. by apply lookup_take_ge. Qed.

(** A slice that the write does not touch. *)
Lemma slice_inserts_out off n off' bs (l : list Z) :
  (off + n <= off')%nat ∨ (off' + length bs <= off)%nat → slice off n (list_inserts off' bs l) = slice off n l.
Proof.
  intros Hd. apply list_eq. intros i. destruct (decide (i < n)%nat) as [Hi|Hi].
  - rewrite !slice_lookup by done. destruct Hd; [apply list_lookup_inserts_lt|apply list_lookup_inserts_ge]; lia.
  - by rewrite !slice_lookup_ge by lia.
Qed.

(** A slice that starts where the write starts. *)
Lemma slice_inserts_at off n bs (l : list Z) :
  (length bs <= n)%nat → (off + n <= length l)%nat →
  slice off n (list_inserts off bs l) = bs ++ slice (off + length bs) (n - length bs) l.
Proof.
  intros Hn Hl. apply list_eq. intros i. destruct (decide (i < n)%nat) as [Hi|Hi].
  - rewrite slice_lookup by done. destruct (decide (i < length bs)%nat) as [Hb|Hb].
    + rewrite lookup_app_l by done. rewrite list_lookup_inserts by lia. f_equal. lia.
    + rewrite lookup_app_r, slice_lookup by lia. rewrite list_lookup_inserts_ge by lia. f_equal. lia.
  - rewrite slice_lookup_ge by lia. symmetry. apply lookup_ge_None_2. rewrite length_app, length_slice by lia. lia.
Qed.

Lemma slice_slice off n off' n' (l : list Z) :
  (off' + n' <= n)%nat → slice off' n' (slice off n l) = slice (off + off') n' l.
Proof.
  intros Hn. apply list_eq. intros i. destruct (decide (i < n')%nat) as [Hi|Hi].
  - rewrite !slice_lookup by lia. f_equal. lia.
  - by rewrite !slice_lookup_ge by lia.
Qed.

(** ** Values *)

Lemma to_int_bytes v : - 2 ^ 31 <= v < 2 ^ 31 → to_int (int_bytes v) = v.
Proof.
  intros Hv. unfold to_int, int_bytes. rewrite le_combine_split. change (8 * Z.of_nat 4) with 32.
  case_tests; Z.to_euclidean_division_equations; lia.
Qed.

Lemma op_round o : match o with OP_UNKNOWN _ => False | _ => True end → op_of_number (to_int (int_bytes (op_number o))) = o.
Proof. by destruct o. Qed.

(** No character is the terminator. *)
Definition plain (s : string) : Prop := str_forall (λ c, negb (c =? NUL)%char) s = true.

Lemma cstr_bytes s rest : plain s → cstr (string_bytes s ++ 0 :: rest) = Some s.
Proof.
  unfold plain. induction s as [|c s IH]; [done|]. cbn [str_forall]. rewrite andb_true_iff, negb_true_iff. intros [Hc Hs].
  unfold string_bytes. cbn [list_ascii_of_string fmap list_fmap app cstr].
  destruct (Z.eqb_spec (Z.of_N (N_of_ascii c)) 0) as [Hz|Hz].
  - exfalso. assert (c = NUL) as ->; [|done]. rewrite <-(ascii_N_embedding c). by replace (N_of_ascii c) with 0%N by lia.
  - change ((λ c, Z.of_N (N_of_ascii c)) <$> list_ascii_of_string s) with (string_bytes s).
    rewrite IH by done. cbn. by rewrite N2Z.id, ascii_N_embedding.
Qed.

Lemma length_string_bytes s : length (string_bytes s) = String.length s.
Proof. unfold string_bytes. rewrite length_fmap. induction s as [|c s IH]; [done|]. cbn. by rewrite IH. Qed.

(** ** What the variables hold *)

Record holds (m : memory) (code : list Instruction) : Prop := {
  ho_count : instr_count m = Z.of_nat (length code);
  ho_max : (length code <= MAX_INSTR)%nat;
  ho_count_bytes : length (count_bytes m) = 4%nat;
  ho_code_bytes : length (code_bytes m) = (MAX_INSTR * INSTR_BYTES)%nat;
  ho_instr i ins : code !! i = Some ins → read_instr (slice (i * INSTR_BYTES) INSTR_BYTES (code_bytes m)) = Some ins
}.

Lemma holds_view m code : holds m code → view m = Some code.
Proof.
  intros [Hc Hm _ _ Hi]. unfold view. rewrite Hc. assert ((0 <=? Z.of_nat (length code)) && (Z.of_nat (length code) <=? Z.of_nat MAX_INSTR) = true) as -> by lia.
  rewrite Nat2Z.id. apply mapM_Some, Forall2_same_length_lookup. split; [by rewrite length_seq|].
  intros i j ins Hj Hins. apply lookup_seq in Hj as [-> _]. by apply Hi.
Qed.

Lemma static_holds : holds static_memory [].
Proof.
  split.
  - reflexivity.
  - apply Nat.le_0_l.
  - reflexivity.
  - apply length_replicate.
  - intros i ins Hi. by rewrite lookup_nil in Hi.
Qed.

(** ** Emission *)

Definition arg_text (a : option string) : string := default EmptyString a.

(** An operand after [strcpy], in an array whose operand was empty. *)
Lemma strcpy_slice off a (bs bs' : list Z) :
  plain (arg_text a) → (off + ARG_BYTES <= length bs)%nat → slice off 1 bs = [0] →
  strcpy_arg off a bs = Some bs' →
  length bs' = length bs ∧ cstr (slice off ARG_BYTES bs') = Some (arg_text a) ∧
  ∀ o n, (o + n <= off)%nat ∨ (off + ARG_BYTES <= o)%nat → slice o n bs' = slice o n bs.
Proof.
  intros Hp Hl H0. destruct a as [s|]; cbn [strcpy_arg arg_text default] in *.
  - destruct (Nat.ltb_spec (String.length s) ARG_BYTES) as [Hs|]; [|done]. intros [= <-].
    assert (length (string_bytes s ++ [0]) = S (String.length s)) as Hlen
      by (rewrite length_app, length_string_bytes; cbn; lia).
    split; [apply length_inserts|]. split.
    + rewrite slice_inserts_at by (unfold ARG_BYTES in *; lia). rewrite <-app_assoc. by apply cstr_bytes.
    + intros o n Ho. apply slice_inserts_out. rewrite Hlen. unfold ARG_BYTES in *. lia.
  - intros [= <-]. split; [done|]. split; [|done]. unfold slice, ARG_BYTES in *.
    destruct (drop off bs) as [|b l] eqn:Hd; [done|]. cbn in H0. injection H0 as ->. done.
Qed.

Lemma strcpy_copy off a bs :
  match copy_arg a with Some t => t = arg_text a ∧ ∃ bs', strcpy_arg off a bs = Some bs' | None => strcpy_arg off a bs = None end.
Proof.
  destruct a as [s|]; cbn [copy_arg strcpy_arg arg_text default]; [|by eauto].
  destruct (String.length s <? ARG_BYTES)%nat; eauto.
Qed.

Lemma slice_zero off (l : list Z) : (off + 1 <= length l)%nat → slice off 1 (list_inserts off [0] l) = [0].
Proof. intros Hl. by rewrite slice_inserts_at by (cbn; lia). Qed.

(** Writing one instruction at [base]. *)
Lemma write_instr base o a1 a2 val (bs : list Z) :
  (base + INSTR_BYTES <= length bs)%nat → plain (arg_text a1) → plain (arg_text a2) → - 2 ^ 31 <= val < 2 ^ 31 →
  match o with OP_UNKNOWN _ => False | _ => True end →
  ∀ b1 b2,
    strcpy_arg (base + ARG1_OFFSET) a1 (list_inserts (base + ARG2_OFFSET) [0] (list_inserts (base + ARG1_OFFSET) [0]
      (list_inserts (base + OP_OFFSET) (int_bytes (op_number o)) bs))) = Some b1 →
    strcpy_arg (base + ARG2_OFFSET) a2 b1 = Some b2 →
    let b3 := list_inserts (base + VALUE_OFFSET) (int_bytes val) b2 in
    length b3 = length bs ∧
    read_instr (slice base INSTR_BYTES b3) = Some {| op := o; arg1 := arg_text a1; arg2 := arg_text a2; ivalue := val |} ∧
    ∀ off n, (off + n <= base)%nat ∨ (base + INSTR_BYTES <= off)%nat → slice off n b3 = slice off n bs.
Proof.
  unfold INSTR_BYTES, ARG1_OFFSET, ARG2_OFFSET, OP_OFFSET, VALUE_OFFSET. intros Hl Hp1 Hp2 Hval Ho b1 b2 H1 H2.
  set (c1 := list_inserts (base + 0) (int_bytes (op_number o)) bs) in *.
  set (c2 := list_inserts (base + 4) [0] c1) in *. set (c3 := list_inserts (base + 68) [0] c2) in *.
  assert (length c1 = length bs ∧ length c2 = length bs ∧ length c3 = length bs) as (Hc1 & Hc2 & Hc3)
    by (subst c3 c2 c1; by rewrite !length_inserts).
  assert (∀ v, length (int_bytes v) = 4%nat) as Hint by (intros; apply length_le_split).
  destruct (strcpy_slice (base + 4) a1 c3 b1 Hp1) as (Hl1 & Ha1 & Hout1); [unfold ARG_BYTES; lia| |done|].
  { subst c3. rewrite slice_inserts_out by lia. apply slice_zero. lia. }
  destruct (strcpy_slice (base + 68) a2 b1 b2 Hp2) as (Hl2 & Ha2 & Hout2); [unfold ARG_BYTES; lia| |done|].
  { rewrite Hout1 by (unfold ARG_BYTES; lia). apply slice_zero. lia. }
  unfold ARG_BYTES in Hout1, Hout2. cbv zeta. split; [rewrite length_inserts; lia|]. split.
  - unfold read_instr, ARG1_OFFSET, ARG2_OFFSET, OP_OFFSET, VALUE_OFFSET. rewrite !slice_slice by (unfold ARG_BYTES; lia).
    rewrite !(slice_inserts_out _ ARG_BYTES) by (unfold ARG_BYTES; lia). rewrite (Hout2 (base + 4)%nat) by (unfold ARG_BYTES; lia).
    rewrite Ha1, Ha2. cbn [mbind option_bind]. rewrite (slice_inserts_at (base + 132)) by (rewrite ?Hint; lia).
    rewrite Hint, Nat.sub_diag. unfold slice at 2. rewrite app_nil_r, to_int_bytes by done.
    rewrite slice_inserts_out, Hout2, Hout1 by lia. subst c3 c2 c1.
    rewrite !slice_inserts_out by (cbn; lia). rewrite slice_inserts_at by (rewrite ?Hint; lia).
    rewrite Hint, Nat.sub_diag. unfold slice. rewrite app_nil_r. by rewrite op_round.
  - intros off n Hoff. rewrite slice_inserts_out, Hout2, Hout1 by (rewrite ?Hint; lia).
    subst c3 c2 c1. by rewrite !slice_inserts_out by (rewrite ?Hint; cbn; lia).
Qed.

Lemma emit_holds (m : memory) (code : list Instruction) (o : OpCode) (a1 a2 : option string) (val : Z) :
  holds m code → match o with OP_UNKNOWN _ => False | _ => True end →
  plain (arg_text a1) → plain (arg_text a2) → - 2 ^ 31 <= val < 2 ^ 31 →
  match emit code o a1 a2 val with
  | Some code' => ∃ m', emit_mem o a1 a2 val m = Some m' ∧ holds m' code'
  | None => emit_mem o a1 a2 val m = None
  end.
Proof.
  intros [Hc Hmax Hcb Hlb Hi] Ho Hp1 Hp2 Hval. unfold emit, emit_mem. rewrite Hc.
  destruct (Nat.ltb_spec (length code) MAX_INSTR) as [Hroom|Hfull].
  2: { by assert ((0 <=? Z.of_nat (length code)) && (Z.of_nat (length code) <? Z.of_nat MAX_INSTR) = false) as -> by lia. }
  assert ((0 <=? Z.of_nat (length code)) && (Z.of_nat (length code) <? Z.of_nat MAX_INSTR) = true) as -> by lia.
  rewrite Nat2Z.id. set (base := (length code * INSTR_BYTES)%nat).
  assert (base + INSTR_BYTES <= length (code_bytes m))%nat as Hbase.
  { rewrite Hlb. change (base + INSTR_BYTES)%nat with (length code * INSTR_BYTES + INSTR_BYTES)%nat.
    replace (length code * INSTR_BYTES + INSTR_BYTES)%nat with (S (length code) * INSTR_BYTES)%nat by lia.
    by apply Nat.mul_le_mono_r. }
  set (c3 := list_inserts _ [0] _). pose proof (strcpy_copy (base + ARG1_OFFSET) a1 c3) as H1.
  destruct (copy_arg a1) as [t1|]; [|by rewrite H1]. destruct H1 as [-> [b1 H1]]. rewrite H1. cbn [mbind option_bind].
  pose proof (strcpy_copy (base + ARG2_OFFSET) a2 b1) as H2.
  destruct (copy_arg a2) as [t2|]; [|by rewrite H2]. destruct H2 as [-> [b2 H2]]. rewrite H2. cbn [mbind option_bind].
  destruct (write_instr base o a1 a2 val (code_bytes m) Hbase Hp1 Hp2 Hval Ho b1 b2 H1 H2) as (Hlen & Hread & Hout).
  eexists. split; [reflexivity|]. split; cbn [count_bytes code_bytes].
  - unfold instr_count. cbn [count_bytes]. rewrite to_int_bytes by (unfold MAX_INSTR in *; lia). rewrite length_app. cbn. lia.
  - rewrite length_app. cbn. lia.
  - apply length_le_split.
  - by rewrite Hlen.
  - intros i ins [Hlt|[Hge Heq]]%lookup_app_Some.
    + assert (i < length code)%nat as Hlt' by by eapply lookup_lt_Some.
      rewrite Hout; [by apply Hi|]. left. subst base. unfold INSTR_BYTES. lia.
    + apply list_lookup_singleton_Some in Heq as [Heq <-]. replace i with (length code) by lia. exact Hread.
Qed.

(** Emission on bytes: writing an instruction into the static array, as
    [emit] does it, field by field over whatever bytes were there, has exactly
    the effect of appending it to the list of instructions, and is undefined
    exactly when that is: when the array is full or an operand does not fit. *)
Theorem emit_refines (m : memory) (code : list Instruction) (o : OpCode) (a1 a2 : option string) (val : Z) :
  holds m code → match o with OP_UNKNOWN _ => False | _ => True end →
  plain (arg_text a1) → plain (arg_text a2) → - 2 ^ 31 <= val < 2 ^ 31 →
  match emit code o a1 a2 val with
  | Some code' => ∃ m', emit_mem o a1 a2 val m = Some m' ∧ holds m' code'
  | None => emit_mem o a1 a2 val m = None
  end.
Proof. apply emit_holds. Qed.

Lemma emit_refines_witness :
  ∃ m', emit_mem OP_CNOT (Some "q"%string) (Some "p"%string) 0 static_memory = Some m' ∧
    holds m' [{| op := OP_CNOT; arg1 := "q"; arg2 := "p"; ivalue := 0 |}].
Proof.
  apply (emit_refines static_memory [] OP_CNOT (Some "q"%string) (Some "p"%string) 0);
    [apply static_holds|exact I|reflexivity|reflexivity|lia].
Defined.

(** ** Files *)

Lemma inserts_prefix (bs l : list Z) : (length bs <= length l)%nat → list_inserts 0 bs l = bs ++ drop (length bs) l.
Proof.
  intros Hl. apply list_eq. intros i. destruct (decide (i < length bs)%nat) as [Hi|Hi].
  - rewrite list_lookup_inserts by lia. rewrite lookup_app_l by done. f_equal. lia.
  - rewrite list_lookup_inserts_ge, lookup_app_r, lookup_drop by lia. f_equal. lia.
Qed.

(** C23 (bytecode files): the instructions that [save_qbc] writes are read back by
    [load_qbc], in the same or in another process whatever its variables held:
    afterwards they hold the same instructions in the same order and the same
    number of them. *)
Theorem qbc_roundtrip {F} (m m0 : memory) (code code0 : list Instruction) (out inp : string) :
  holds m code → holds m0 code0 →
  ∃ file m',
    gives (F := F) (save_qbc true out m)
      [Out (Print "QBC saved: %s (%d instructions)\n" [AStr out; AInt (Z.of_nat (length code))])] (Some file) ∧
    gives (F := F) (load_qbc (Some file) inp m0)
      [Out (Print "QBC loaded: %s (%d instructions)\n" [AStr inp; AInt (Z.of_nat (length code))])] (1, m') ∧
    holds m' code ∧ view m' = Some code.
Proof.
  intros [Hc Hmax Hcb Hlb Hi] [_ _ Hcb0 Hlb0 _].
  assert (length code * INSTR_BYTES <= MAX_INSTR * INSTR_BYTES)%nat as Hfit by (by apply Nat.mul_le_mono_r).
  set (body := take (length code * INSTR_BYTES) (code_bytes m)).
  assert (length body = (length code * INSTR_BYTES)%nat) as Hbody by (subst body; rewrite length_take; lia).
  set (m' := {| count_bytes := count_bytes m; code_bytes := body ++ drop (length body) (code_bytes m0) |}).
  assert (holds m' code) as Hm'.
  { split; cbn [count_bytes code_bytes m']; [exact Hc|done|done| |].
    - rewrite length_app, length_drop. lia.
    - intros i ins Hins. rewrite <-(Hi i ins Hins). f_equal. assert (i < length code)%nat by by eapply lookup_lt_Some.
      apply list_eq. intros j. destruct (decide (j < INSTR_BYTES)%nat) as [Hj|Hj]; [|by rewrite !slice_lookup_ge by lia].
      rewrite !slice_lookup by done. assert (i * INSTR_BYTES + j < length code * INSTR_BYTES)%nat by (unfold INSTR_BYTES in *; lia).
      rewrite lookup_app_l by lia. subst body. by rewrite lookup_take_lt by lia. }
  assert ((0 <=? Z.of_nat (length code)) && (Z.of_nat (length code) <=? Z.of_nat MAX_INSTR) = true) as Hguard by lia.
  exists (count_bytes m ++ body), m'. split; [|split; [|split; [done|by apply holds_view]]].
  - unfold save_qbc. rewrite Hc, Hguard, Nat2Z.id. done.
  - unfold load_qbc. rewrite take_app_length' by lia. rewrite drop_app_length' by lia.
    rewrite inserts_prefix, drop_ge, app_nil_r by lia.
    change (instr_count {| count_bytes := count_bytes m; code_bytes := code_bytes m0 |}) with (instr_count m).
    rewrite Hc, Hguard, Nat2Z.id, take_ge by lia. cbn [count_bytes code_bytes].
    rewrite (inserts_prefix body) by lia. done.
Qed.

Lemma qbc_roundtrip_witness :
  let cx := {| op := OP_CNOT; arg1 := "q"; arg2 := "p"; ivalue := 0 |} in
  ∃ m file m', holds m [cx] ∧ gives (F := unit) (save_qbc true "a.qbc" m)
      [Out (Print "QBC saved: %s (%d instructions)\n" [AStr "a.qbc"; AInt 1])] (Some file) ∧
    gives (F := unit) (load_qbc (Some file) "b.qbc" static_memory)
      [Out (Print "QBC loaded: %s (%d instructions)\n" [AStr "b.qbc"; AInt 1])] (1, m') ∧
    holds m' [cx] ∧ view m' = Some [cx].
Proof.
  intros cx. destruct (emit_holds static_memory [] OP_CNOT (Some "q"%string) (Some "p"%string) 0) as (m & _ & Hm);
    [apply static_holds|exact I|reflexivity|reflexivity|lia|].
  destruct (qbc_roundtrip (F := unit) m static_memory [cx] [] "a.qbc" "b.qbc" Hm static_holds) as (file & m' & H).
  by exists m, file, m'.
Defined.

(** [load_qbc] trusts the number in the file: one that is negative or above the
    size of the array makes it read past the array. *)
Lemma load_overrun {F} (n : Z) (rest : list Z) (filename : string) (m : memory) :
  - 2 ^ 31 <= n < 2 ^ 31 → n < 0 ∨ Z.of_nat MAX_INSTR < n → length (count_bytes m) = 4%nat →
  load_qbc (F := F) (Some (int_bytes n ++ rest)) filename m = Undef.
Proof.
  intros Hn Hbad Hl. unfold load_qbc. rewrite take_app_length' by (symmetry; apply length_le_split).
  rewrite inserts_prefix, drop_ge, app_nil_r by (unfold int_bytes; rewrite ?length_le_split; lia).
  unfold instr_count. cbn [count_bytes]. rewrite to_int_bytes by done.
  by assert ((0 <=? n) && (n <=? Z.of_nat MAX_INSTR) = false) as -> by lia.
Qed.
