(* ===== verification/Numerals.v ===== *)
(** * Numbers on the command line

    [strtoull] in the C locale, for the two bases the programs call it with: 10,
    and 0, which takes the base from the prefix. [numeral] is the grammar of
    what it reads, and [strtoull_whole] says that the scanner takes a whole
    text exactly when the text is blanks, a sign and a numeral. *)

From Stdlib Require Import ZArith Lia ZifyBool Ascii String.
From stdpp Require Import base list numbers strings.
From S2P Require Import Prelude.
From S2P Require Import Sys.
From S2P Require Import CString.
Open Scope Z_scope.

(** ** Digits *)

Definition digit_value (c : ascii) : option Z :=
  let n := Z.of_N (N_of_ascii c) in
  if (48 <=? n) && (n <=? 57) then Some (n - 48)
  else if (97 <=? n) && (n <=? 122) then Some (n - 87)
  else if (65 <=? n) && (n <=? 90) then Some (n - 55)
  else None.

Definition in_base (b : Z) (c : ascii) : bool :=
  match digit_value c with Some d => d <? b | None => false end.

(** The value of a string of digits, after [acc]. *)
Fixpoint base_value (b acc : Z) (s : string) : Z :=
  match s with
  | String c s => base_value b (acc * b + default 0 (digit_value c)) s
  | EmptyString => acc
  end.

(** ** The scanner *)

(** What a call leaves: the value, the text at [*end] ([None] when nothing was
    converted and [*end] is the whole text), and whether [errno] is [ERANGE]. *)
Record strto := { st_value : Z; st_end : option string; st_range : bool }.

(** A sign, and the text after it. *)
Definition split_sign (s : string) : bool * string :=
  match s with
  | String "-" s' => (true, s')
  | String "+" s' => (false, s')
  | _ => (false, s)
  end.

(** The base that [0] stands for, and the text after the prefix. *)
Definition split_prefix (s : string) : Z * string :=
  match s with
  | String "0" (String x (String d _ as s')) =>
      if ((x =? "x")%char || (x =? "X")%char) && in_base 16 d then (16, s') else (8, s)
  | String "0" _ => (8, s)
  | _ => (10, s)
  end.

(** [strtoull(text, &end, base)], [base] 0 when [any] and 10 otherwise. *)
Definition strtoull (any : bool) (text : string) : strto :=
  let '(negative, s) := split_sign (skip_spaces text) in
  let '(b, s) := if any then split_prefix s else (10, s) in
  let '(digits, rest) := span (in_base b) s in
  if (digits =? "")%string then {| st_value := 0; st_end := None; st_range := false |}
  else
    let v := base_value b 0 digits in
    if v <=? UINT64_MAX
    then {| st_value := if negative then u64 (- v) else v; st_end := Some rest; st_range := false |}
    else {| st_value := UINT64_MAX; st_end := Some rest; st_range := true |}.

Example strtoull_hex : strtoull true " +0x1F" = {| st_value := 31; st_end := Some EmptyString; st_range := false |}.
Proof. reflexivity. Qed.
Example strtoull_octal : strtoull true "018" = {| st_value := 1; st_end := Some "8"%string; st_range := false |}.
Proof. reflexivity. Qed.
Example strtoull_bare : strtoull true "0xg" = {| st_value := 0; st_end := Some "xg"%string; st_range := false |}.
Proof. reflexivity. Qed.
Example strtoull_minus : strtoull false "-1" = {| st_value := UINT64_MAX; st_end := Some EmptyString; st_range := false |}.
Proof. reflexivity. Qed.
Example strtoull_over :
  strtoull false "18446744073709551616" = {| st_value := UINT64_MAX; st_end := Some EmptyString; st_range := true |}.
Proof. reflexivity. Qed.

(** ** The grammar *)

Definition digits_of (b : Z) (s : string) : Prop := s ≠ EmptyString ∧ str_forall (in_base b) s = true.

Inductive numeral : bool → string → Z → Prop :=
| num_decimal any ds :
    digits_of 10 ds → (any = true → head_char ds ≠ "0"%char) → numeral any ds (base_value 10 0 ds)
| num_octal ds : str_forall (in_base 8) ds = true → numeral true (String "0" ds) (base_value 8 0 ds)
| num_hex x ds :
    x = "x"%char ∨ x = "X"%char → digits_of 16 ds → numeral true (String "0" (String x ds)) (base_value 16 0 ds).

Inductive sign := Plus | Minus | NoSign.

Definition show_sign (s : sign) : string :=
  match s with Plus => "+" | Minus => "-" | NoSign => "" end.

Definition is_minus (s : sign) : bool := match s with Minus => true | _ => false end.

(** [reads_as any text s v]: blanks, the sign [s] and a numeral of value [v]. *)
Definition reads_as (any : bool) (text : string) (s : sign) (v : Z) : Prop :=
  ∃ blanks num, text = (blanks +:+ show_sign s +:+ num)%string ∧ str_forall isspace blanks = true ∧ numeral any num v.

Lemma skip_spaces_app sp s :
  str_forall isspace sp = true → stops isspace s = true → skip_spaces (sp +:+ s) = s.
Proof.
  intros Hsp Hs. induction sp as [|c sp IH]; simpl in *.
  - destruct s as [|c s]; [done|]. simpl in *. by destruct (isspace c).
  - destruct (isspace c); [|done]. by rewrite IH.
Qed.

Lemma skip_spaces_split text :
  ∃ sp, text = (sp +:+ skip_spaces text)%string ∧ str_forall isspace sp = true ∧ stops isspace (skip_spaces text) = true.
Proof.
  induction text as [|c s (sp & Hs & Hsp & Hstop)]; [by exists EmptyString|]. simpl.
  destruct (isspace c) eqn:Hc; [|exists EmptyString; simpl; by rewrite Hc].
  exists (String c sp). simpl. rewrite Hc. split; [|done]. change (String c s = String c (sp +:+ skip_spaces s)). by rewrite <-Hs.
Qed.

Lemma in_base_10 c : in_base 10 c = isdigit c.
Proof. destruct c as [[] [] [] [] [] [] [] []]; reflexivity. Qed.

(** A digit starts neither blanks nor a sign. *)
Lemma digit_starts c s : isdigit c = true → stops isspace (String c s) = true ∧ split_sign (String c s) = (false, String c s).
Proof. by destruct c as [[] [] [] [] [] [] [] []]. Qed.

Lemma numeral_starts any num v :
  numeral any num v → stops isspace num = true ∧ split_sign num = (false, num).
Proof.
  intros [any' ds [Hne Hds] _|ds _|x ds _ _]; [|by apply digit_starts..].
  destruct ds as [|c ds]; [done|]. cbn in Hds. rewrite in_base_10 in Hds. apply digit_starts. by destruct (isdigit c).
Qed.

Lemma split_prefix_numeral num v :
  numeral true num v →
  let '(b, ds) := split_prefix num in digits_of b ds ∧ base_value b 0 ds = v.
Proof.
  inversion 1 as [any ds [Hne Hds] Hz|ds Hds|x ds Hx [Hne Hds]]; subst.
  - destruct num as [|c num]; [done|]. specialize (Hz eq_refl). unfold split_prefix.
    by destruct c as [[] [] [] [] [] [] [] []].
  - assert (split_prefix (String "0" ds) = (8, String "0" ds)) as ->.
    { destruct ds as [|c [|d ds]]; try done. cbn in Hds. unfold split_prefix.
      destruct (((c =? "x") || (c =? "X"))%char) eqn:Hc; [|done]. exfalso.
      apply orb_true_iff in Hc as [->%Ascii.eqb_eq| ->%Ascii.eqb_eq]; done. }
    by repeat split.
  - destruct ds as [|d ds]; [done|]. cbn in Hds.
    assert (split_prefix (String "0" (String x (String d ds))) = (16, String d ds)) as ->; [|by repeat split].
    unfold split_prefix. destruct (in_base 16 d); [|done]. by destruct Hx as [->| ->].
Qed.

Lemma split_prefix_spec s :
  let '(b, s') := split_prefix s in
  (b = 16 ∧ ∃ x, s = String "0" (String x s') ∧ (x = "x"%char ∨ x = "X"%char)) ∨
  (b = 8 ∧ s' = s ∧ ∃ r, s = String "0" r) ∨ (b = 10 ∧ s' = s ∧ head_char s ≠ "0"%char).
Proof.
  destruct s as [|c s]; [by right; right|]. destruct (Ascii.eqb_spec c "0"%char) as [->|Hc].
  - destruct s as [|x [|d s]]; cbn; [right; left; eauto..|].
    destruct (((x =? "x") || (x =? "X"))%char && in_base 16 d) eqn:Hx; [|right; left; eauto].
    left. split; [done|]. exists x. split; [done|].
    apply andb_true_iff in Hx as [[Hx|Hx]%orb_true_iff _]; apply Ascii.eqb_eq in Hx; auto.
  - assert (split_prefix (String c s) = (10, String c s)) as ->; [|by right; right].
    unfold split_prefix. by destruct c as [[] [] [] [] [] [] [] []].
Qed.

Lemma split_sign_show sg num :
  split_sign num = (false, num) → split_sign (show_sign sg +:+ num) = (is_minus sg, num).
Proof. by destruct sg. Qed.

Lemma split_sign_spec s : ∃ sg s', split_sign s = (is_minus sg, s') ∧ s = (show_sign sg +:+ s')%string.
Proof.
  destruct s as [|c s]; [by exists NoSign, EmptyString|].
  destruct (Ascii.eqb_spec c "-"%char) as [->|]; [by exists Minus, s|].
  destruct (Ascii.eqb_spec c "+"%char) as [->|]; [by exists Plus, s|].
  exists NoSign, (String c s). split; [|done]. by destruct c as [[] [] [] [] [] [] [] []].
Qed.

(** ** The scanner and the grammar *)

Lemma append_nonempty (s t : string) : s ≠ EmptyString → (s +:+ t)%string ≠ EmptyString.
Proof. by destruct s. Qed.

(** What [strtoull] leaves when it takes the whole text. *)
Definition whole_result (s : sign) (v : Z) : strto :=
  if v <=? UINT64_MAX
  then {| st_value := if is_minus s then u64 (- v) else v; st_end := Some EmptyString; st_range := false |}
  else {| st_value := UINT64_MAX; st_end := Some EmptyString; st_range := true |}.

Lemma strtoull_reads any text s v : reads_as any text s v → strtoull any text = whole_result s v.
Proof.
  intros (blanks & num & -> & Hb & Hnum). destruct (numeral_starts _ _ _ Hnum) as [Hstop Hsign].
  unfold strtoull. rewrite skip_spaces_app by (done || by destruct s). rewrite split_sign_show by done.
  assert (∃ b ds, (if any then split_prefix num else (10, num)) = (b, ds) ∧ digits_of b ds ∧ base_value b 0 ds = v)
    as (b & ds & -> & [Hne Hds] & <-).
  { destruct any; [|by inversion Hnum; subst; eauto]. pose proof (split_prefix_numeral num v Hnum) as H.
    destruct (split_prefix num) as [b ds]. naive_solver. }
  rewrite <-(append_nil_r ds) at 1. rewrite span_app by done. by destruct (String.eqb_spec ds EmptyString).
Qed.

Lemma strtoull_whole any text :
  st_end (strtoull any text) = Some EmptyString → ∃ s v, reads_as any text s v.
Proof.
  destruct (skip_spaces_split text) as (blanks & Htext & Hb & _). unfold strtoull.
  destruct (split_sign_spec (skip_spaces text)) as (sg & num & -> & Hnum). rewrite Hnum in Htext.
  assert (∃ b ds, (if any then split_prefix num else (10, num)) = (b, ds) ∧
    (digits_of b ds → numeral any num (base_value b 0 ds))) as (b & ds & -> & Hgram).
  { destruct any; [|exists 10, num; split; [done|]; intros; by apply num_decimal].
    pose proof (split_prefix_spec num) as Hp. destruct (split_prefix num) as [b ds]. exists b, ds. split; [done|].
    destruct Hp as [(-> & x & -> & Hx)|[(-> & -> & r & ->)|(-> & -> & Hz)]]; intros Hds.
    - by apply num_hex.
    - destruct Hds as [_ Hds]. by apply (num_octal r).
    - by apply num_decimal. }
  destruct (span_spec (in_base b) ds) as (d & rest & -> & -> & Hd & _).
  destruct (String.eqb_spec d EmptyString) as [->|Hne]; [done|]. intros Hend.
  assert (rest = EmptyString) as -> by (by destruct (_ <=? UINT64_MAX); injection Hend).
  rewrite append_nil_r in Hgram. exists sg, (base_value b 0 d), blanks, num. split; [done|]. split; [done|by apply Hgram].
Qed.

Lemma reads_minus any text s v : reads_as any text s v → (head_char (skip_spaces text) =? "-")%char = is_minus s.
Proof.
  intros (blanks & num & -> & Hb & Hnum). destruct (numeral_starts _ _ _ Hnum) as [Hstop Hsign].
  rewrite skip_spaces_app by (done || by destruct s). destruct s; [done|done|].
  destruct num as [|c num]; [done|]. change (head_char (show_sign NoSign +:+ String c num)) with c.
  destruct (Ascii.eqb_spec c "-"%char) as [->|]; [|done]. cbn in Hsign. discriminate.
Qed.


(** ** Decimals *)

Lemma base_value_nonneg b acc s : 0 <= b → 0 <= acc → str_forall (in_base b) s = true → 0 <= base_value b acc s.
Proof.
  intros Hb. revert acc. induction s as [|c s IH]; intros acc Ha Hs; [done|]. cbn in *. unfold in_base in Hs at 1.
  destruct (digit_value c) as [d|] eqn:Hd; [|done]. cbn. apply IH; [|by destruct (d <? b)].
  assert (0 <= d); [|nia]. unfold digit_value in Hd. repeat case_match; simplify_eq; lia.
Qed.

Lemma numeral_nonneg any num v : numeral any num v → 0 <= v.
Proof. intros [? ds [] _|ds Hds|x ds _ []]; by apply base_value_nonneg. Qed.
