(* ===== verification/KernelCLI.v ===== *)
(** * The command-line kernel

    [src/tools/qnova_kernel_cli.c]: number of qubits, shots and seed from the
    command line, the GHZ state prepared, printed, sampled and measured. It
    works on [double]. Parameters are [cabs] of the C library and the
    outcomes of the two allocations. [session] is [main] with the local kernel
    and the local result as it leaves them. *)

From Stdlib Require Import ZArith Lia ZifyBool Ascii String.
From stdpp Require Import base list numbers strings.
From S2P Require Import Prelude.
From S2P Require Import Float64.
From S2P Require Import Kernel.
From S2P Require Import Outcome.
From S2P Require Import CString.
From S2P Require Import Console.
From S2P Require Import Numerals.
Open Scope Z_scope.

Section CLI.
Context (cabs : complex double → double).

Abbreviation prog := (console double).

Definition putchar (c : ascii) : prog unit := printf (String c EmptyString) [].

Definition print_basis (state qubit_count : Z) : prog unit :=
  _ ← putchar "|";
  _ ← repeat_for (λ i _,
        value ← ensure (index_bit state (qubit_count - Z.of_nat i - 1));
        putchar (if value =? 0 then "0" else "1")) 0 (Z.to_nat qubit_count) tt;
  putchar ">".

Definition parse_size (text label : string) : prog Z :=
  let negative := (head_char (skip_spaces text) =? "-")%char in
  let r := strtoull false text in
  if negative || st_range r || negb (bool_decide (st_end r = Some EmptyString)) then
    _ ← eprintf "ERROR: invalid %s: %s\n" [AStr label; AStr text];
    exit 1
  else mret (st_value r).

Definition parse_seed (text : string) : prog Z :=
  let r := strtoull true text in
  if st_range r || negb (bool_decide (st_end r = Some EmptyString)) then
    _ ← eprintf "ERROR: invalid seed: %s\n" [AStr text];
    exit 1
  else mret (st_value r).

Definition fail_status (operation : string) (status : QCPUStatus) : prog Z :=
  _ ← eprintf "ERROR: %s failed: %s\n" [AStr operation; AStr (qcpu_status_string status)];
  mret 1.

(** The number of qubits, the shots and the seed. [argv] is without the
    program's name. *)
Definition parse_args (name : string) (argv : list string) : prog (Z * Z * Z) :=
  if (3 <? length argv)%nat then
    _ ← eprintf "USAGE: %s [qubits] [shots] [seed]\n" [AStr name];
    exit 1
  else
    qubit_count ← match argv !! 0%nat with Some text => parse_size text "qubit count" | None => mret 3 end;
    shots ← match argv !! 1%nat with Some text => parse_size text "shot count" | None => mret 20 end;
    seed ← match argv !! 2%nat with Some text => parse_seed text | None => mret 424242 end;
    mret (qubit_count, shots, seed).

(** The amplitudes that are not close to zero. *)
Definition print_magnitudes (a : list (complex double)) (state_count qubit_count : Z) : prog unit :=
  repeat_for (λ i _,
    x ← ensure (a !! i);
    let magnitude := cabs x in
    if f_leb magnitude lit_1em12 then mret tt
    else
      _ ← putchar " ";
      _ ← print_basis (Z.of_nat i) qubit_count;
      printf "=%.6f" [ADbl magnitude]) 0 (Z.to_nat state_count) tt.

(** The counters of all states but the first and the last. *)
Definition bad_body (counts : list Z) (final_state : Z) (state : nat) (bad : Z) : option Z :=
  if negb (Z.of_nat state =? 0) && negb (Z.of_nat state =? final_state)
  then c ← counts !! state; Some (u64 (bad + c))
  else Some bad.

(** What is printed about the shots, and the number of invalid ones. *)
Definition print_shots (result : QCPUShotResult) (shots final_state qubit_count : Z) : prog Z :=
  counts ← ensure (sr_counts result);
  bad_count ← ensure (for_range (bad_body counts final_state) 0 (Z.to_nat (sr_state_count result)) 0);
  _ ← printf "[SHOTS] total=%zu " [AInt shots];
  _ ← print_basis 0 qubit_count;
  zeros ← ensure (counts !! 0%nat);
  _ ← printf "=%llu " [AInt zeros];
  _ ← print_basis final_state qubit_count;
  ones ← ensure (counts !! Z.to_nat final_state);
  _ ← printf "=%llu bad=%llu\n" [AInt ones; AInt bad_count];
  mret bad_count.

(** The measurement at the end. *)
Definition measure_at_end (kernel : ptr (QCPUKernel double)) (bad_count final_state qubit_count : Z)
    : prog (Z * ptr (QCPUKernel double)) :=
  '(status, kernel, state) ← ensure (qcpu_kernel_measure kernel (Some 0));
  if decide (status ≠ QCPU_OK) then
    r ← fail_status "measurement" status;
    mret (r, qcpu_kernel_free kernel)
  else
    measured_state ← ensure state;
    _ ← printf "[COLLAPSE] measured=" [];
    _ ← print_basis measured_state qubit_count;
    _ ← printf " output_bits=%zu\n" [AInt qubit_count];
    if negb (bad_count =? 0) || (negb (measured_state =? 0) && negb (measured_state =? final_state)) then
      _ ← eprintf "FAIL: invalid GHZ result detected\n" [];
      mret (1, qcpu_kernel_free kernel)
    else
      _ ← printf "PASS: QCPU_EXPANSION_COLLAPSE_KERNEL_READY\n" [];
      mret (0, qcpu_kernel_free kernel).

(** The shots and the measurement, on the prepared kernel. *)
Definition shoot (shots_ok : bool) (kernel : ptr (QCPUKernel double)) (qubit_count shots : Z)
    (result : ptr QCPUShotResult) : prog (Z * ptr (QCPUKernel double) * ptr QCPUShotResult) :=
  '(status, kernel, result) ← ensure (qcpu_kernel_run_shots shots_ok kernel shots result);
  if decide (status ≠ QCPU_OK) then
    r ← fail_status "shot execution" status;
    mret (r, qcpu_kernel_free kernel, result)
  else
  k ← ensure kernel;
  let final_state := u64 (state_count k - 1) in
  res ← ensure result;
  bad_count ← print_shots res shots final_state qubit_count;
  let result := qcpu_shot_result_free result in
  '(r, kernel) ← measure_at_end kernel bad_count final_state qubit_count;
  mret (r, kernel, result).

(** [kernel0] and [result0] are the local variables as they start, with any
    contents. *)
Definition session (name : string) (argv : list string) (init_ok shots_ok : bool)
    (kernel0 : QCPUKernel double) (result0 : QCPUShotResult)
    : prog (Z * ptr (QCPUKernel double) * ptr QCPUShotResult) :=
  '(qubit_count, shots, seed) ← parse_args name argv;
  let result := Some result0 in
  '(status, kernel) ← ensure (qcpu_kernel_init init_ok (Some kernel0) qubit_count seed);
  if decide (status ≠ QCPU_OK) then
    r ← fail_status "kernel initialization" status;
    mret (r, kernel, result)
  else
  '(status, kernel) ← ensure (qcpu_kernel_apply_ghz kernel);
  if decide (status ≠ QCPU_OK) then
    r ← fail_status "GHZ preparation" status;
    mret (r, qcpu_kernel_free kernel, result)
  else
  status ← ensure (qcpu_kernel_validate kernel lit_1em12);
  if decide (status ≠ QCPU_OK) then
    r ← fail_status "state validation" status;
    mret (r, qcpu_kernel_free kernel, result)
  else
  _ ← printf "[INPUT] compact_ghz_ops=%zu qubits=%zu\n" [AInt qubit_count; AInt qubit_count];
  k ← ensure kernel;
  norm ← ensure (qcpu_kernel_norm kernel);
  _ ← printf "[EXPAND] basis_states=%zu norm=%.12f\n" [AInt (state_count k); ADbl norm];
  _ ← printf "[STATE]" [];
  a ← ensure (amplitudes k);
  _ ← print_magnitudes a (state_count k) qubit_count;
  _ ← putchar "010";
  shoot shots_ok kernel qubit_count shots result.

Definition main (name : string) (argv : list string) (init_ok shots_ok : bool)
    (kernel0 : QCPUKernel double) (result0 : QCPUShotResult) : prog Z :=
  '(r, _, _) ← session name argv init_ok shots_ok kernel0 result0;
  mret r.
End CLI.
