(* ===== verification/KernelCLIProps.v ===== *)
(** * The command-line kernel computes the GHZ state

    What the arguments mean, what is printed for every accepted command line,
    and the exit status for all of them. *)

From Stdlib Require Import ZArith Lia ZifyBool Ascii String.
From stdpp Require Import base list numbers strings.
From S2P Require Import Prelude.
From S2P Require Import Sys.
From S2P Require Import Float64.
From S2P Require Import Kernel.
From S2P Require Import KernelSpec.
From S2P Require Import GHZ.
From S2P Require Import Outcome.
From S2P Require Import CString.
From S2P Require Import Console.
From S2P Require Import Numerals.
From S2P Require Import KernelCLI.
Open Scope Z_scope.

(** ** Arguments *)

(** What a size may be: blanks, an optional plus and a decimal below [2^64]. *)
Definition size_text (text : string) (v : Z) : Prop :=
  ∃ s, s ≠ Minus ∧ reads_as false text s v ∧ v <= UINT64_MAX.

(** What a seed may be: blanks, an optional sign and a decimal, octal or
    hexadecimal numeral below [2^64]; a minus negates it modulo [2^64]. *)
Definition seed_text (text : string) (v : Z) : Prop :=
  ∃ s w, reads_as true text s w ∧ w <= UINT64_MAX ∧ v = if is_minus s then u64 (- w) else w.

Lemma parse_size_gives text label v : size_text text v → gives (parse_size text label) [] v.
Proof.
  intros (s & Hs & Hr & Hv). unfold parse_size. rewrite (reads_minus _ _ _ _ Hr), (strtoull_reads _ _ _ _ Hr).
  unfold whole_result. rewrite (proj2 (Z.leb_le _ _) Hv). by destruct s.
Qed.

Lemma parse_size_cases text label :
  (∃ v, size_text text v) ∨
  exits (parse_size text label) [Err (Print "ERROR: invalid %s: %s\n" [AStr label; AStr text])] 1.
Proof.
  unfold parse_size. destruct (_ || _) eqn:Hbad; [by right|left].
  apply orb_false_iff in Hbad as [[Hneg Hrange]%orb_false_iff Hend]. rewrite negb_false_iff, bool_decide_eq_true in Hend.
  destruct (strtoull_whole _ _ Hend) as (s & v & Hr). exists v, s. rewrite (reads_minus _ _ _ _ Hr) in Hneg.
  rewrite (strtoull_reads _ _ _ _ Hr) in Hrange. unfold whole_result in Hrange.
  destruct (Z.leb_spec v UINT64_MAX); [|done]. split; [by intros ->|done].
Qed.

Lemma parse_seed_gives text v : seed_text text v → gives (parse_seed text) [] v.
Proof.
  intros (s & w & Hr & Hw & ->). unfold parse_seed. rewrite (strtoull_reads _ _ _ _ Hr).
  unfold whole_result. by rewrite (proj2 (Z.leb_le _ _) Hw).
Qed.

Lemma parse_seed_cases text :
  (∃ v, seed_text text v) ∨ exits (parse_seed text) [Err (Print "ERROR: invalid seed: %s\n" [AStr text])] 1.
Proof.
  unfold parse_seed. destruct (_ || _) eqn:Hbad; [by right|left].
  apply orb_false_iff in Hbad as [Hrange Hend]. rewrite negb_false_iff, bool_decide_eq_true in Hend.
  destruct (strtoull_whole _ _ Hend) as (s & v & Hr). rewrite (strtoull_reads _ _ _ _ Hr) in Hrange.
  unfold whole_result in Hrange. destruct (Z.leb_spec v UINT64_MAX); [|done]. eexists _, s, v. eauto.
Qed.

(** The numbers a command line asks for. *)
Definition asks (argv : list string) (n shots seed : Z) : Prop :=
  (length argv <= 3)%nat ∧
  match argv !! 0%nat with Some text => size_text text n | None => n = 3 end ∧
  match argv !! 1%nat with Some text => size_text text shots | None => shots = 20 end ∧
  match argv !! 2%nat with Some text => seed_text text seed | None => seed = 424242 end.

Lemma parse_args_gives name argv n shots seed :
  asks argv n shots seed → gives (parse_args name argv) [] (n, shots, seed).
Proof.
  intros (Hl & Hn & Hs & Hseed). unfold parse_args. rewrite (proj2 (Nat.ltb_ge _ _) Hl).
  apply (gives_bind _ _ [] n); [destruct (argv !! 0%nat); subst; [by apply parse_size_gives|done]|].
  apply (gives_bind _ _ [] shots); [destruct (argv !! 1%nat); [by apply parse_size_gives|by subst]|].
  apply (gives_bind _ _ [] seed); [destruct (argv !! 2%nat); [by apply parse_seed_gives|by subst]|]. done.
Qed.

Lemma parse_args_cases name argv :
  (∃ n shots seed, asks argv n shots seed) ∨ ∃ o, exits (parse_args name argv) [Err o] 1.
Proof.
  unfold parse_args, asks. destruct (Nat.ltb_spec 3 (length argv)) as [|Hl]; [right; by eexists|].
  assert (∀ i label d, (∃ v, match argv !! i with Some text => size_text text v | None => v = d end ∧
      gives match argv !! i with Some text => parse_size text label | None => mret d end [] v) ∨
    exits match argv !! i with Some text => parse_size text label | None => mret d end
      [Err (Print "ERROR: invalid %s: %s\n" [AStr label; AStr (default "" (argv !! i))])] 1) as Hsize.
  { intros i label d. destruct (argv !! i) as [text|]; [|left; by exists d].
    destruct (parse_size_cases text label) as [[v Hv]|]; [left|by right]. exists v. split; [done|by apply parse_size_gives]. }
  destruct (Hsize 0%nat "qubit count"%string 3) as [(n & Hn & Hgn)|Hx]; [|right; eexists; by apply exits_bind].
  destruct (Hsize 1%nat "shot count"%string 20) as [(shots & Hs & Hgs)|Hx];
    [|right; eexists; eapply (exits_bind_r _ _ [] _ [_]); [done|by apply exits_bind]].
  destruct (argv !! 2%nat) as [text|] eqn:H2; [|left; by exists n, shots, 424242].
  destruct (parse_seed_cases text) as [[seed Hseed]|Hx]; [left; by exists n, shots, seed|].
  right. eexists. eapply (exits_bind_r _ _ [] _ [_]); [done|]. eapply (exits_bind_r _ _ [] _ [_]); [done|].
  apply exits_bind. exact Hx.
Qed.

Lemma seed_text_width text v : seed_text text v → in_width 64 v.
Proof.
  intros (s & w & (? & ? & _ & _ & Hnum%numeral_nonneg) & Hw & ->). unfold UINT64_MAX in Hw.
  destruct (is_minus s); [by apply wrap_in_width|split; lia].
Qed.

Lemma asks_range argv n shots seed : asks argv n shots seed → 0 <= n ∧ 0 <= shots < 2 ^ 64 ∧ in_width 64 seed.
Proof.
  assert (∀ text v, size_text text v → 0 <= v < 2 ^ 64) as Hsize.
  { intros text v (s & _ & (? & ? & _ & _ & Hnum%numeral_nonneg) & Hv). unfold UINT64_MAX in Hv. lia. }
  intros (_ & Hn & Hs & Hseed). split; [|split].
  - destruct (argv !! 0%nat); [by apply Hsize in Hn as []|lia].
  - destruct (argv !! 1%nat); [by apply Hsize in Hs|lia].
  - destruct (argv !! 2%nat); [by eapply seed_text_width|subst; by split].
Qed.

(** ** What is printed *)

(** [cabs] of a real number is its absolute value. *)
Class CabsLaw (cabs : complex double → double) := { cabs_real : ∀ x, cabs (mk_complex x f_zero) = f_abs x }.

Definition ch (c : ascii) : line double := Out (Print (String c EmptyString) []).

(** The state of [n] qubits all of whose bits are [b], as it is printed. *)
Definition ket (n : Z) (b : bool) : list (line double) :=
  ch "|" :: replicate (Z.to_nat n) (ch (if b then "1" else "0")) ++ [ch ">"].

Lemma print_basis_ket n state b :
  0 <= n < 64 → (∀ p, 0 <= p < n → Z.testbit state p = b) → gives (print_basis state n) (ket n b) tt.
Proof.
  intros Hn Hb. unfold print_basis, ket.
  destruct (repeat_for_gives
    (λ i (_ : unit), value ← ensure (index_bit state (n - Z.of_nat i - 1)); putchar (if value =? 0 then "0" else "1"))
    (λ i _ o, o = replicate i (ch (if b then "1" else "0"))) 0 (Z.to_nat n) tt []) as (o & [] & Hr & Ho); [done| |].
  - intros j [] o Hj ->. exists [ch (if b then "1" else "0")], tt. split; [|by rewrite replicate_S_end].
    rewrite index_bit_spec by lia. rewrite (Hb (n - Z.of_nat j - 1)) by lia. by destruct b.
  - cbn [app] in Ho. rewrite Nat.add_0_l in Ho. subst o. c_say. by apply (gives_bind _ _ _ tt [ch ">"]).
Qed.

Lemma print_basis_zero n : 0 <= n < 64 → gives (print_basis 0 n) (ket n false) tt.
Proof. intros Hn. apply print_basis_ket; [done|]. intros p _. apply Z.testbit_0_l. Qed.

Lemma print_basis_ones n : 0 <= n < 64 → gives (print_basis (2 ^ n - 1) n) (ket n true) tt.
Proof.
  intros Hn. apply print_basis_ket; [done|]. intros p Hp. change (2 ^ n - 1) with (high_ones n 0).
  rewrite testbit_high_ones by lia. lia.
Qed.

Section Print.
Context (cabs : complex double → double) `{!CabsLaw cabs}.

(** One state that is printed. *)
Definition shown (n : Z) (b : bool) : list (line double) :=
  ch " " :: ket n b ++ [Out (Print "=%.6f" [ADbl inv_sqrt2])].

Lemma print_one n i b :
  gives (print_basis i n) (ket n b) tt →
  gives (let magnitude := cabs c_ghz in
         if f_leb magnitude lit_1em12 then mret tt
         else _ ← putchar " "; _ ← print_basis i n; printf "=%.6f" [ADbl magnitude]) (shown n b) tt.
Proof.
  intros Hb. unfold c_ghz. rewrite cabs_real. change (f_leb (f_abs inv_sqrt2) lit_1em12) with false. cbv zeta iota.
  c_say. apply (gives_bind _ _ (ket n b) tt); [done|]. reflexivity.
Qed.

Lemma print_magnitudes_ghz n a :
  1 <= n <= 20 → two_states n (2 ^ n - 1) a →
  gives (print_magnitudes cabs a (2 ^ n) n) (shown n false ++ shown n true) tt.
Proof.
  intros Hn Ha. pose proof (pow2_le_20 n Hn) as Hd. unfold print_magnitudes.
  destruct (repeat_for_gives
    (λ (i : nat) (_ : unit), x ← ensure (a !! i);
        let magnitude := cabs x in
        if f_leb magnitude lit_1em12 then mret tt
        else _ ← putchar " "; _ ← print_basis (Z.of_nat i) n; printf "=%.6f" [ADbl magnitude])
    (λ i _ o, o = if Z.of_nat i =? 0 then [] else if Z.of_nat i <=? 2 ^ n - 1 then shown n false
                  else shown n false ++ shown n true) 0 (Z.to_nat (2 ^ n)) tt []) as (o & [] & Hr & Ho); [done| |].
  - intros i [] o Hi ->. rewrite (two_states_lookup n) by (done || lia).
    assert ((Z.of_nat (S i) =? 0) = false) as -> by lia.
    assert (Z.of_nat i = 0 ∨ (Z.of_nat i ≠ 0 ∧ Z.of_nat i = 2 ^ n - 1) ∨ 0 < Z.of_nat i < 2 ^ n - 1)
      as [Hz|[[Hz Hl]|Hmid]] by lia.
    + assert ((Z.of_nat i =? 0) = true) as -> by lia. exists (shown n false), tt. split.
      * c_with c_ghz. apply print_one. rewrite Hz. apply print_basis_zero. lia.
      * by assert ((Z.of_nat (S i) <=? 2 ^ n - 1) = true) as -> by lia.
    + assert ((Z.of_nat i =? 0) = false) as -> by lia. assert ((Z.of_nat i =? 2 ^ n - 1) = true) as -> by lia.
      exists (shown n true), tt. split.
      * c_with c_ghz. apply print_one. rewrite Hl. apply print_basis_ones. lia.
      * assert ((Z.of_nat i <=? 2 ^ n - 1) = true) as -> by lia.
        by assert ((Z.of_nat (S i) <=? 2 ^ n - 1) = false) as -> by lia.
    + assert ((Z.of_nat i =? 0) = false) as -> by lia. assert ((Z.of_nat i =? 2 ^ n - 1) = false) as -> by lia.
      exists [], tt. split.
      * c_with (c_zero (F := double)). unfold c_zero. rewrite cabs_real.
        by change (f_leb (f_abs f_zero) lit_1em12) with true.
      * assert ((Z.of_nat i <=? 2 ^ n - 1) = true) as -> by lia.
        assert ((Z.of_nat (S i) <=? 2 ^ n - 1) = true) as -> by lia. by rewrite app_nil_r.
  - assert ((Z.of_nat (0 + Z.to_nat (2 ^ n)) =? 0) = false) as Hz by lia. rewrite Hz in Ho.
    assert ((Z.of_nat (0 + Z.to_nat (2 ^ n)) <=? 2 ^ n - 1) = false) as Hl by lia. rewrite Hl in Ho.
    cbn [app] in Ho. by subst o.
Qed.
End Print.

(** ** The shots *)

Lemma sumZ_zeros l : (∀ (i : nat) (c : Z), l !! i = Some c → c = 0) → sumZ l = 0.
Proof.
  induction l as [|x l IH]; intros Hl; [done|]. change (sumZ (x :: l)) with (x + sumZ l). rewrite IH.
  - rewrite (Hl 0%nat x) by done. lia.
  - intros i c Hc. by apply (Hl (S i)).
Qed.

(** Counters of which only the first and the last can be other than 0. *)
Lemma counted_two n shots counts :
  1 <= n → counted n (λ s, s = 0 ∨ s = 2 ^ n - 1) shots counts →
  ∃ zeros ones, counts !! 0%nat = Some zeros ∧ counts !! Z.to_nat (2 ^ n - 1) = Some ones ∧
    0 <= zeros ∧ 0 <= ones ∧ zeros + ones = shots.
Proof.
  intros Hn [Hl Hpos Hsum HP]. assert (2 <= 2 ^ n) by (change 2 with (2 ^ 1) at 1; apply Z.pow_le_mono_r; lia).
  destruct (lookup_lt_is_Some_2 counts 0%nat ltac:(lia)) as [zeros Hz].
  destruct (lookup_lt_is_Some_2 counts (Z.to_nat (2 ^ n - 1)) ltac:(lia)) as [ones Ho].
  exists zeros, ones. split; [done|]. split; [done|].
  split; [exact (Forall_lookup_1 _ _ _ _ Hpos Hz)|]. split; [exact (Forall_lookup_1 _ _ _ _ Hpos Ho)|].
  assert (sumZ (<[Z.to_nat (2 ^ n - 1) := 0]> (<[0%nat := 0]> counts)) = 0) as Hall.
  { apply sumZ_zeros. intros i c Hc. destruct (decide (i = Z.to_nat (2 ^ n - 1))) as [->|Hne].
    - rewrite list_lookup_insert_eq in Hc by (rewrite length_insert; lia). by injection Hc.
    - rewrite list_lookup_insert_ne in Hc by done. destruct (decide (i = 0%nat)) as [->|Hi].
      + rewrite list_lookup_insert_eq in Hc by lia. by injection Hc.
      + rewrite list_lookup_insert_ne in Hc by done. destruct (decide (c = 0)) as [|Hc0]; [done|].
        destruct (HP _ _ Hc Hc0); lia. }
  rewrite (sumZ_insert _ _ ones) in Hall by (rewrite list_lookup_insert_ne by lia; done).
  rewrite (sumZ_insert _ _ zeros) in Hall by done. lia.
Qed.

Lemma no_bad_counts n shots counts :
  1 <= n → counted n (λ s, s = 0 ∨ s = 2 ^ n - 1) shots counts →
  for_range (bad_body counts (2 ^ n - 1)) 0 (Z.to_nat (2 ^ n)) 0 = Some 0.
Proof.
  intros Hn [Hl _ _ HP]. assert (0 < 2 ^ n) by (apply Z.pow_pos_nonneg; lia).
  destruct (for_range_inv (λ _ bad, bad = 0) (bad_body counts (2 ^ n - 1)) 0 (Z.to_nat (2 ^ n)) 0)
    as (s & -> & ->); [done| |done].
  intros j t Hj ->. unfold bad_body. destruct (negb _ && negb _) eqn:Ht; [|by exists 0].
  destruct (lookup_lt_is_Some_2 counts j ltac:(lia)) as [c Hc]. rewrite Hc. exists 0. split; [|done].
  destruct (decide (c = 0)) as [->|Hne]; [done|]. destruct (HP _ _ Hc Hne); lia.
Qed.

(** The lines about the shots. *)
Definition count_lines (n shots zeros ones : Z) : list (line double) :=
  Out (Print "[SHOTS] total=%zu " [AInt shots]) :: ket n false ++ [Out (Print "=%llu " [AInt zeros])] ++
  ket n true ++ [Out (Print "=%llu bad=%llu\n" [AInt ones; AInt 0])].

(** The lines about the measurement; [b] is what was measured. *)
Definition collapse_lines (n : Z) (b : bool) : list (line double) :=
  Out (Print "[COLLAPSE] measured=" []) :: ket n b ++ [Out (Print " output_bits=%zu\n" [AInt n])] ++
  [Out (Print "PASS: QCPU_EXPANSION_COLLAPSE_KERNEL_READY\n" [])].

Definition failure (operation : string) (status : QCPUStatus) : list (line double) :=
  [Err (Print "ERROR: %s failed: %s\n" [AStr operation; AStr (qcpu_status_string status)])].

Lemma print_shots_ghz n shots counts :
  1 <= n <= 20 → counted n (λ s, s = 0 ∨ s = 2 ^ n - 1) shots counts →
  ∃ zeros ones, 0 <= zeros ∧ 0 <= ones ∧ zeros + ones = shots ∧
    gives (print_shots {| sr_shots := shots; sr_state_count := 2 ^ n; sr_counts := Some counts |} shots (2 ^ n - 1) n)
      (count_lines n shots zeros ones) 0.
Proof.
  intros Hn Hc. destruct (counted_two n shots counts ltac:(lia) Hc) as (zeros & ones & Hz & Ho & Hrest).
  pose proof (no_bad_counts n shots counts ltac:(lia) Hc) as Hbad. exists zeros, ones. do 3 (split; [apply Hrest|]).
  unfold print_shots. c_with counts. c_with 0. c_say.
  apply (gives_bind _ _ (ket n false) tt); [apply print_basis_zero; lia|]. c_with zeros. c_say.
  apply (gives_bind _ _ (ket n true) tt); [apply print_basis_ones; lia|]. c_with ones. by c_say.
Qed.

Lemma measure_at_end_ghz n a k :
  kernel_at n a k → two_states n (2 ^ n - 1) a →
  ∃ b, gives (measure_at_end (Some k) 0 (2 ^ n - 1) n)
    (collapse_lines n b) (0, Some zero_kernel).
Proof.
  intros Hk Ha. pose proof (ka_range _ _ _ Hk) as Hn. unfold KERNEL_MAX_QUBITS in Hn.
  destruct (measure_spec n a k 0 Hk) as (s & Hrun & _ & _ & Hloop). apply (ghz_samples n a) in Hloop; [|lia|done].
  assert (∃ b, gives (print_basis s n) (ket n b) tt) as [b Hb].
  { destruct Hloop as [->| ->]; [exists false; apply print_basis_zero|exists true; apply print_basis_ones]; lia. }
  exists b. unfold measure_at_end. eapply (gives_bind _ _ []); [by apply gives_ensure|].
  cbv iota beta. rewrite decide_False by tauto. c_with s. c_say. apply (gives_bind _ _ (ket n b) tt); [done|]. c_say.
  assert (negb (0 =? 0) || (negb (s =? 0) && negb (s =? 2 ^ n - 1)) = false) as -> by lia. by c_say.
Qed.

Lemma shoot_ghz n k shots r0 :
  ghz_at n k → 0 < shots < 2 ^ 64 →
  ∃ zeros ones b, 0 <= zeros ∧ 0 <= ones ∧ zeros + ones = shots ∧
    gives (shoot true (Some k) n shots (Some r0)) (count_lines n shots zeros ones ++ collapse_lines n b)
      (0, Some zero_kernel, Some zero_result).
Proof.
  intros (a & Hk & Ha) Hshots. pose proof (ka_range _ _ _ Hk) as Hn. pose proof (pow2_le_20 n Hn).
  unfold KERNEL_MAX_QUBITS in Hn.
  destruct (run_shots_spec n a k shots r0 _ Hk Hshots (ghz_samples n a ltac:(lia) Ha)) as (k' & counts & Hrun & Hk' & Hc).
  destruct (print_shots_ghz n shots counts Hn Hc) as (zeros & ones & Hz & Ho & Hsum & Hprint).
  destruct (measure_at_end_ghz n a k' Hk' Ha) as [b Hmeasure].
  exists zeros, ones, b. do 3 (split; [done|]). unfold shoot.
  eapply (gives_bind _ _ []); [by apply gives_ensure|]. cbv iota beta. rewrite decide_False by tauto. c_with k'.
  rewrite (ka_states _ _ _ Hk'), (wrap_small 64) by (unfold in_width; lia).
  eapply (gives_bind _ _ []); [by apply gives_ensure|].
  apply (gives_bind _ _ (count_lines n shots zeros ones) 0 (collapse_lines n b)); [exact Hprint|].
  rewrite <-(app_nil_r (collapse_lines n b)).
  by apply (gives_bind _ _ (collapse_lines n b) (0, Some zero_kernel) []).
Qed.

(** ** The whole program *)

(** The lines about the prepared state. *)
Definition state_lines (n : Z) : list (line double) :=
  Out (Print "[INPUT] compact_ghz_ops=%zu qubits=%zu\n" [AInt n; AInt n]) ::
  Out (Print "[EXPAND] basis_states=%zu norm=%.12f\n" [AInt (2 ^ n); ADbl (f_add half half)]) ::
  Out (Print "[STATE]" []) :: (shown n false ++ shown n true) ++ [ch "010"].

Section Program.
Context (cabs : complex double → double) `{!CabsLaw cabs}.
Context (name : string) (kernel0 : QCPUKernel double) (result0 : QCPUShotResult).

(** With memory for the kernel and 1 to 20 qubits the run gets to the shots on
    a GHZ state. *)
Lemma session_prepared argv shots_ok n shots seed :
  asks argv n shots seed → 1 <= n <= 20 →
  ∃ k, ghz_at n k ∧ ∀ o r,
    gives (shoot shots_ok (Some k) n shots (Some result0)) o r →
    gives (session cabs name argv true shots_ok kernel0 result0) (state_lines n ++ o) r.
Proof using CabsLaw0.
  intros Hasks Hn. destruct (asks_range _ _ _ _ Hasks) as (_ & _ & Hseed).
  destruct (init_spec kernel0 n seed Hn Hseed) as (k0 & Hinit & Hk0 & _).
  destruct (apply_ghz_spec n _ k0 Hk0) as (k & Hghz & Hk & _). exists k. split; [done|]. intros o r Hrest.
  pose proof (validate_ghz n k Hk) as Hvalid. pose proof (norm_ghz n k Hk) as Hnorm. destruct Hk as (a & Hk & Ha).
  pose proof (ka_states _ _ _ Hk) as Hstates.
  assert (∀ l1 l2 l3 (l l4 : list (line double)), (l1 :: l2 :: l3 :: l ++ l4) ++ o = l1 :: l2 :: l3 :: l ++ l4 ++ o) as Happ
    by (intros; cbn; by rewrite <-app_assoc).
  unfold state_lines. rewrite Happ. clear Happ. unfold session. c_with (n, shots, seed); [by apply parse_args_gives|].
  cbv iota beta. eapply (gives_bind _ _ []); [by apply gives_ensure|]. cbv iota beta. rewrite decide_False by tauto.
  eapply (gives_bind _ _ []); [by apply gives_ensure|]. cbv iota beta. rewrite decide_False by tauto.
  eapply (gives_bind _ _ []); [by apply gives_ensure|]. rewrite decide_False by tauto.
  c_say. c_with k. rewrite Hstates. c_with (f_add half half : double). c_say. c_say.
  c_with a; [apply gives_ensure, (ka_amps _ _ _ Hk)|].
  apply (gives_bind _ _ (shown n false ++ shown n true) tt); [by apply print_magnitudes_ghz|]. by c_say.
Qed.

(** With memory for the counters the run succeeds. *)
Lemma session_succeeds argv n shots seed :
  asks argv n shots seed → 1 <= n <= 20 → shots ≠ 0 →
  ∃ zeros ones b, 0 <= zeros ∧ 0 <= ones ∧ zeros + ones = shots ∧
    gives (session cabs name argv true true kernel0 result0)
      (state_lines n ++ count_lines n shots zeros ones ++ collapse_lines n b) (0, Some zero_kernel, Some zero_result).
Proof using CabsLaw0.
  intros Hasks Hn Hshots. destruct (asks_range _ _ _ _ Hasks) as (_ & Hrange & _).
  destruct (session_prepared argv true n shots seed Hasks Hn) as (k & Hk & Hrun).
  destruct (shoot_ghz n k shots result0 Hk ltac:(lia)) as (zeros & ones & b & Hz & Ho & Hsum & Hshoot).
  exists zeros, ones, b. by auto.
Qed.

(** The ways the run fails, with what it leaves in its local variables. *)
Lemma session_fails argv init_ok shots_ok n shots seed :
  asks argv n shots seed → ¬ (1 <= n <= 20 ∧ shots ≠ 0 ∧ init_ok = true ∧ shots_ok = true) →
  ∃ o k r, gives (session cabs name argv init_ok shots_ok kernel0 result0) o (1, Some k, Some r) ∧
    (k = zero_kernel ∨ (k = kernel0 ∧ ¬ 1 <= n <= 20)) ∧ (r = zero_result ∨ r = result0).
Proof using CabsLaw0.
  intros Hasks Hbad. destruct (asks_range _ _ _ _ Hasks) as (Hn0 & Hrange & Hseed).
  destruct (decide (1 <= n <= 20)) as [Hn|Hn].
  - destruct init_ok.
    + destruct (session_prepared argv shots_ok n shots seed Hasks Hn) as (k & (a & Hk & _) & Hrun).
      assert (∃ st r, qcpu_kernel_run_shots shots_ok (Some k) shots (Some result0) = Some (st, Some k, Some r) ∧
        st ≠ QCPU_OK ∧ (r = zero_result ∨ r = result0)) as (st & r & Hshots & Hst & Hr).
      { unfold qcpu_kernel_run_shots. rewrite (ready_at _ _ _ Hk). cbn [mbind option_bind].
        destruct (Z.eqb_spec shots 0) as [->|Hs]; [by eexists _, result0; auto|].
        destruct shots_ok; [by destruct Hbad|]. by eexists _, zero_result; auto. }
      exists (state_lines n ++ failure "shot execution" st), zero_kernel, r. split; [|by auto].
      apply Hrun. unfold shoot. eapply (gives_bind _ _ []); [by apply gives_ensure|]. cbv iota beta.
      by rewrite decide_True by done.
    + exists (failure "kernel initialization" QCPU_ERR_ALLOC), zero_kernel, result0. split; [|by auto].
      unfold session. c_with (n, shots, seed); [by apply parse_args_gives|]. cbv iota beta.
      eapply (gives_bind _ _ []); [apply gives_ensure|].
      { unfold qcpu_kernel_init, KERNEL_MAX_QUBITS, SIZE_MAX_BITS.
        assert ((n =? 0) || (20 <? n) || (64 <=? n) = false) as -> by lia. by rewrite c_shl_one by lia. }
      done.
  - exists (failure "kernel initialization" QCPU_ERR_RANGE), kernel0, result0. split; [|by auto].
    unfold session. c_with (n, shots, seed); [by apply parse_args_gives|]. cbv iota beta.
    eapply (gives_bind _ _ []); [apply gives_ensure|].
    { unfold qcpu_kernel_init, KERNEL_MAX_QUBITS, SIZE_MAX_BITS.
      by assert ((n =? 0) || (20 <? n) || (64 <=? n) = true) as -> by lia. }
    done.
Qed.
End Program.

(** C16 (a run of the command-line kernel): when the command line asks for 1 to 20
    qubits and at least one shot, the program, given memory, prints the GHZ state
    with its two amplitudes, counts that add up to the shots, with no invalid
    one, and a measurement of all zeros or all ones; it ends with status 0 and
    has freed the kernel and the counters. *)
Theorem kernel_cli_runs (cabs : complex double → double) `{!CabsLaw cabs} (name : string) (argv : list string)
    (kernel0 : QCPUKernel double) (result0 : QCPUShotResult) (n shots seed : Z) :
  asks argv n shots seed → 1 <= n <= 20 → shots ≠ 0 →
  ∃ zeros ones b, 0 <= zeros ∧ 0 <= ones ∧ zeros + ones = shots ∧
    gives (session cabs name argv true true kernel0 result0)
      (state_lines n ++ count_lines n shots zeros ones ++ collapse_lines n b) (0, Some zero_kernel, Some zero_result) ∧
    gives (main cabs name argv true true kernel0 result0)
      (state_lines n ++ count_lines n shots zeros ones ++ collapse_lines n b) 0.
Proof.
  intros Hasks Hn Hshots.
  destruct (session_succeeds cabs name kernel0 result0 argv n shots seed Hasks Hn Hshots)
    as (zeros & ones & b & Hz & Ho & Hsum & Hrun).
  exists zeros, ones, b. do 4 (split; [done|]). unfold main.
  rewrite <-(app_nil_r (state_lines n ++ _)). by apply (gives_bind _ _ _ (0, Some zero_kernel, Some zero_result)).
Qed.

(** A [cabs] with its law: exact on the real axis, the rounded root elsewhere. *)
Definition demo_cabs (z : complex double) : double :=
  if f_leb (im z) f_zero && f_leb f_zero (im z) then f_abs (re z) else f_sqrt (c_norm2 z).

#[export] Instance demo_cabs_law : CabsLaw demo_cabs.
Proof. by split. Qed.

Definition demo_kernel : QCPUKernel double := mk_kernel 7 7 None 7 7 7.

Lemma asks_demo : asks [" 4"; "+10"; "-0x2A"]%string 4 10 (2 ^ 64 - 42).
Proof.
  split; [cbn; lia|]. split; [|split]; cbn.
  - exists NoSign. split; [done|]. split; [|done].
    exists " "%string, "4"%string. split; [done|]. split; [done|]. by apply (num_decimal false "4").
  - exists Plus. split; [done|]. split; [|done].
    exists ""%string, "10"%string. split; [done|]. split; [done|]. by apply (num_decimal false "10").
  - exists Minus, 42. split; [|done]. exists ""%string, "0x2A"%string. split; [done|]. split; [done|].
    apply (num_hex "x" "2A"); [by left|done].
Qed.

Lemma kernel_cli_runs_witness :
  ∃ zeros ones b, 0 <= zeros ∧ 0 <= ones ∧ zeros + ones = 10 ∧
    gives (session demo_cabs "qnova-kernel" [" 4"; "+10"; "-0x2A"]%string true true demo_kernel zero_result)
      (state_lines 4 ++ count_lines 4 10 zeros ones ++ collapse_lines 4 b) (0, Some zero_kernel, Some zero_result) ∧
    gives (main demo_cabs "qnova-kernel" [" 4"; "+10"; "-0x2A"]%string true true demo_kernel zero_result)
      (state_lines 4 ++ count_lines 4 10 zeros ones ++ collapse_lines 4 b) 0.
Proof.
  apply (kernel_cli_runs demo_cabs "qnova-kernel" [" 4"; "+10"; "-0x2A"]%string demo_kernel zero_result 4 10 (2 ^ 64 - 42)).
  - exact asks_demo.
  - lia.
  - lia.
Defined.

(** C17 (exit status of the command-line kernel): on every command line and with or
    without memory the program ends, without undefined behaviour, with status 0
    or 1, and with 0 exactly when it was given at most three arguments, numbers
    the grammar allows, 1 to 20 qubits, at least one shot, and memory. *)
Theorem kernel_cli_exit (cabs : complex double → double) `{!CabsLaw cabs} (name : string) (argv : list string)
    (init_ok shots_ok : bool) (kernel0 : QCPUKernel double) (result0 : QCPUShotResult) :
  ∃ o s, status_of (main cabs name argv init_ok shots_ok kernel0 result0) = Done (o, s) ∧ (s = 0 ∨ s = 1) ∧
    (s = 0 ↔ ∃ n shots seed, asks argv n shots seed ∧ 1 <= n <= 20 ∧ shots ≠ 0 ∧ init_ok = true ∧ shots_ok = true).
Proof.
  assert (∀ o s k r, gives (session cabs name argv init_ok shots_ok kernel0 result0) o (s, k, r) →
    status_of (main cabs name argv init_ok shots_ok kernel0 result0) = Done (o, s)) as Hstatus.
  { intros o s k r Hr. unfold main. rewrite Hr. cbn. by rewrite app_nil_r. }
  destruct (parse_args_cases name argv) as [(n & shots & seed & Hasks)|(o & Hexit)].
  - destruct (decide (1 <= n <= 20 ∧ shots ≠ 0 ∧ init_ok = true ∧ shots_ok = true)) as [(Hn & Hs & -> & ->)|Hbad].
    + destruct (session_succeeds cabs name kernel0 result0 argv n shots seed Hasks Hn Hs) as (z & o & b & _ & _ & _ & Hr).
      eexists _, 0. split; [by eapply Hstatus|]. split; [by left|]. split; [|done]. by exists n, shots, seed.
    + destruct (session_fails cabs name kernel0 result0 argv init_ok shots_ok n shots seed Hasks Hbad) as (o & k & r & Hr & _).
      exists o, 1. split; [by eapply Hstatus|]. split; [by right|]. split; [done|].
      intros (n' & shots' & seed' & Hasks' & Hok). destruct Hbad.
      pose proof (parse_args_gives name _ _ _ _ Hasks) as H1. pose proof (parse_args_gives name _ _ _ _ Hasks') as H2.
      unfold gives in H1, H2. rewrite H1 in H2. by injection H2 as -> -> ->.
  - exists [Err o], 1. split; [|split; [by right|split; [done|]]].
    + unfold main, session. unfold exits in Hexit. by rewrite Hexit.
    + intros (n & shots & seed & Hasks & _). pose proof (parse_args_gives name _ _ _ _ Hasks) as H1.
      unfold gives, exits in *. by rewrite H1 in Hexit.
Qed.

Lemma kernel_cli_exit_witness :
  ∃ o s, status_of (main demo_cabs "qnova-kernel" ["4"; "-1"]%string true true demo_kernel zero_result) = Done (o, s) ∧
    (s = 0 ∨ s = 1) ∧
    (s = 0 ↔ ∃ n shots seed, asks ["4"; "-1"]%string n shots seed ∧ 1 <= n <= 20 ∧ shots ≠ 0 ∧ true = true ∧ true = true).
Proof. apply (kernel_cli_exit demo_cabs "qnova-kernel" ["4"; "-1"]%string true true demo_kernel zero_result). Defined.
