(* ===== verification/DeviceClient.v ===== *)
(** * The device client

    [src/tools/qnova_device_client.c]: the request from the command line, one
    exchange with the daemon, and the response printed. The shared state of the
    program is what it has printed so far. *)

From Stdlib Require Import ZArith Lia ZifyBool Ascii String SpecFloat.
From stdpp Require Import base list numbers strings.
From S2P Require Import Prelude.
From S2P Require Import Sys.
From S2P Require Import DeviceIO.
From S2P Require Import Float64.
From S2P Require Import Protocol.
From S2P Require Import Wire.
From S2P Require Import Outcome.
From S2P Require Import CString.
From S2P Require Import Console.
From S2P Require Import Numerals.
Import Device.
Open Scope Z_scope.

(** ** Printing from a program with system calls *)

Definition screen : Type := list (line double).

Definition print_lines (l : list (line double)) : Sys.prog screen unit := crit (λ o, Some (tt, o ++ l)).

(** Goes on with what the console program gives, or returns its status. *)
Definition after_console {A} (m : console double A) (k : A → Sys.prog screen Z) : Sys.prog screen Z :=
  match m with
  | Outcome.Done (o, Value a) => _ ← print_lines o; k a
  | Outcome.Done (o, Exit n) => _ ← print_lines o; mret n
  | Outcome.Undef => Undefined
  | Outcome.NoFuel => Spin
  end.

(** ** The command line *)

Definition parse_unsigned (text : string) (maximum : Z) (label : string) : console double Z :=
  let invalid := _ ← eprintf "ERROR: invalid %s: %s\n" [AStr label; AStr text]; exit 1 in
  if (head_char (skip_spaces text) =? "-")%char then invalid
  else
    let r := strtoull true text in
    if st_range r || negb (bool_decide (st_end r = Some EmptyString)) || (maximum <? st_value r)
    then invalid else mret (st_value r).

Definition request_with (command qubits shots seed : Z) : Request :=
  {| req_magic := REQUEST_MAGIC; req_version := PROTOCOL_VERSION; req_command := command;
     req_qubits := qubits; req_shots := shots; req_seed := seed |}.

(** The socket's path and the request. [argv] is without the program's name. *)
Definition parse_request (name : string) (argv : list string) : console double (string * Request) :=
  match argv with
  | option :: socket_path :: command :: operands =>
      if negb (option =? "--socket")%string then
        _ ← eprintf "USAGE:\n  %s --socket PATH status\n  %s --socket PATH run-ghz QUBITS SHOTS SEED\n" [AStr name; AStr name];
        exit 1
      else if (command =? "status")%string then
        match operands with
        | [] => mret (socket_path, request_with COMMAND_STATUS 0 0 0)
        | _ => _ ← eprintf "ERROR: status takes no arguments\n" []; exit 1
        end
      else if (command =? "run-ghz")%string then
        match operands with
        | [q; s; r] =>
            qubits ← parse_unsigned q MAX_QUBITS "qubit count";
            shots ← parse_unsigned s MAX_SHOTS "shot count";
            seed ← parse_unsigned r UINT64_MAX "seed";
            mret (socket_path, request_with COMMAND_RUN_GHZ (u32 qubits) (u32 shots) seed)
        | _ => _ ← eprintf "ERROR: run-ghz requires QUBITS SHOTS SEED\n" []; exit 1
        end
      else _ ← eprintf "ERROR: unknown command: %s\n" [AStr command]; exit 1
  | _ =>
      _ ← eprintf "USAGE:\n  %s --socket PATH status\n  %s --socket PATH run-ghz QUBITS SHOTS SEED\n" [AStr name; AStr name];
      exit 1
  end.

(** ** The response *)

Definition flagged (flags flag : Z) (yes : string) : string :=
  if negb (Z.land flags flag =? 0) then yes else "UNKNOWN".

(** The lines [print_response] prints. *)
Definition print_response (r : Response) : list (line double) := [
  Out (Print "DEVICE=qcpu0\n" []);
  Out (Print "TYPE=SOFTWARE_VIRTUAL_QCPU\n" []);
  Out (Print "HOST=CLASSICAL_CPU\n" []);
  Out (Print "PHYSICAL_QPU_PRESENT=%s\n" [AStr (flagged (rsp_flags r) FLAG_PHYSICAL_QPU_ABSENT "NO")]);
  Out (Print "Q0_ORDER=%s\n" [AStr (flagged (rsp_flags r) FLAG_Q0_MOST_SIGNIFICANT "MOST_SIGNIFICANT")]);
  Out (Print "QUBITS=%u\n" [AInt (rsp_qubits r)]);
  Out (Print "BASIS_STATES=%llu\n" [AInt (rsp_basis_states r)]);
  Out (Print "SHOTS=%llu\n" [AInt (rsp_shots r)]);
  Out (Print "MEASURED_STATE=%llu\n" [AInt (rsp_measured_state r)]);
  Out (Print "INVALID_RESULTS=%llu\n" [AInt (rsp_invalid_results r)]);
  Out (Print "NORM=%.12f\n" [ADbl (rsp_norm r)]);
  Out (Print "STATUS_CODE=%u\n" [AInt (rsp_status r)]);
  Out (Print "STATUS=%s\n" [AStr (if rsp_status r =? STATUS_OK then "PASS" else "FAIL")])
].

(** ** The exchange *)

(** [fprintf(stderr, "%s\n", ...)] for a failed transfer. *)
Definition report (io_status : QCPUDeviceIOStatus) (timeout failed : string) : Sys.prog screen unit :=
  print_lines [Err (Print "%s\n" [AStr (if decide (io_status = IO_TIMEOUT) then timeout else failed)])].

(** [main] after the command line. [junk] and the buffers are the local
    variables before they are set. *)
Definition exchange (fuel : nat) (errno : Z) (junk : Response) (request_wire response_wire : list Z)
    (socket_path : string) (request : Request) : Sys.prog screen Z :=
  '(status, wire) ← Sys.defined (qcpu_device_encode_request (Some request_wire) (Some request));
  if negb (status =? STATUS_OK) then
    _ ← print_lines [Err (Print "ERROR: request encoding failed\n" [])]; mret 1
  else
  '(file_descriptor, errno) ←
    qcpu_device_connect_unix fuel errno (Some (string_bytes socket_path)) IO_TIMEOUT_MS;
  if file_descriptor <? 0 then
    _ ← print_lines (if file_descriptor =? io_status_value IO_TIMEOUT
              then [Err (Print "ERROR: connection timeout\n" [])] else [Perror "connect"]);
    mret 1
  else
  io_status ← qcpu_device_write_all fuel file_descriptor wire (Z.of_nat REQUEST_WIRE_SIZE) IO_TIMEOUT_MS false;
  if decide (io_status ≠ IO_OK) then
    _ ← report io_status "ERROR: request write timeout" "ERROR: request write failed";
    _ ← call (Close file_descriptor);
    mret 1
  else
  shut ← call (Shutdown file_descriptor SHUT_WR);
  if negb shut then
    _ ← print_lines [Perror "shutdown"];
    _ ← call (Close file_descriptor);
    mret 1
  else
  '(io_status, wire) ←
    qcpu_device_read_all fuel file_descriptor (Some response_wire) (Z.of_nat RESPONSE_WIRE_SIZE) IO_TIMEOUT_MS false;
  if decide (io_status ≠ IO_OK) then
    _ ← report io_status "ERROR: response read timeout" "ERROR: response read failed";
    _ ← call (Close file_descriptor);
    mret 1
  else
  _ ← call (Close file_descriptor);
  '(status, response) ← Sys.defined (qcpu_device_decode_response (Some junk) wire (Z.of_nat RESPONSE_WIRE_SIZE));
  if negb (status =? STATUS_OK) then
    _ ← print_lines [Err (Print "ERROR: invalid response packet\n" [])]; mret 1
  else
  response ← Sys.defined response;
  _ ← print_lines (print_response response);
  mret (if rsp_status response =? STATUS_OK then 0 else 1).

Definition main (fuel : nat) (errno : Z) (junk : Response) (request_wire response_wire : list Z)
    (name : string) (argv : list string) : Sys.prog screen Z :=
  after_console (parse_request name argv)
    (λ '(socket_path, request), exchange fuel errno junk request_wire response_wire socket_path request).
