(* ===== verification/DeviceClientProps.v ===== *)
(** * The device client does one exchange and reports it

    For every operating system and command line: what the client sends, what it
    reads, what it prints and its exit status; and what it prints when it talks
    to the daemon of this repository. *)

From Stdlib Require Import ZArith Lia ZifyBool Ascii String SpecFloat.
From stdpp Require Import base list numbers strings relations gmap.
From S2P Require Import Prelude.
From S2P Require Import Sys.
From S2P Require Import DeviceIO.
From S2P Require Import DeviceIOProps.
From S2P Require Import Float64.
From S2P Require Import Protocol.
From S2P Require Import Wire.
From S2P Require Import Kernel.
From S2P Require Import Daemon.
From S2P Require Import Outcome.
From S2P Require Import CString.
From S2P Require Import Console.
From S2P Require Import Numerals.
From S2P Require Import DeviceClient.
Import Device.
Open Scope Z_scope.

(** ** The command line *)

(** An operand: blanks, an optional plus, a decimal, octal or hexadecimal
    numeral of at most [maximum]. *)
Definition operand (text : string) (maximum v : Z) : Prop :=
  ∃ s, s ≠ Minus ∧ reads_as true text s v ∧ v <= maximum.

Inductive client_asks : list string → string → Request → Prop :=
| asks_status path : client_asks ["--socket"; path; "status"]%string path (request_with COMMAND_STATUS 0 0 0)
| asks_run path q s r qubits shots seed :
    operand q MAX_QUBITS qubits → operand s MAX_SHOTS shots → operand r UINT64_MAX seed →
    client_asks ["--socket"; path; "run-ghz"; q; s; r]%string path (request_with COMMAND_RUN_GHZ qubits shots seed).

Lemma operand_range text maximum v : operand text maximum v → 0 <= v <= maximum.
Proof. intros (s & _ & (? & ? & _ & _ & Hnum%numeral_nonneg) & Hv). lia. Qed.

Lemma parse_unsigned_gives text maximum label v :
  maximum <= UINT64_MAX → operand text maximum v → gives (parse_unsigned text maximum label) [] v.
Proof.
  intros Hmax (s & Hs & Hr & Hv). unfold parse_unsigned. rewrite (reads_minus _ _ _ _ Hr), (strtoull_reads _ _ _ _ Hr).
  unfold whole_result. assert ((v <=? UINT64_MAX) = true) as -> by lia.
  assert (is_minus s = false) as -> by by destruct s. cbn [st_range st_end st_value].
  by assert ((maximum <? v) = false) as -> by lia.
Qed.

Lemma parse_unsigned_cases text maximum label :
  (∃ v, operand text maximum v) ∨
  exits (parse_unsigned text maximum label) [Err (Print "ERROR: invalid %s: %s\n" [AStr label; AStr text])] 1.
Proof.
  unfold parse_unsigned. destruct (_ =? "-")%char eqn:Hminus; [by right|].
  destruct (_ || _) eqn:Hbad; [by right|left].
  apply orb_false_iff in Hbad as [[Hrange Hend]%orb_false_iff Hv]. rewrite negb_false_iff, bool_decide_eq_true in Hend.
  destruct (strtoull_whole _ _ Hend) as (s & v & Hr). rewrite (reads_minus _ _ _ _ Hr) in Hminus.
  rewrite (strtoull_reads _ _ _ _ Hr) in *. unfold whole_result in *.
  destruct (Z.leb_spec v UINT64_MAX); [|done]. rewrite Hminus in *. cbn in Hv. exists v, s.
  split; [by intros ->|]. split; [done|]. lia.
Qed.

Lemma parse_request_gives name argv path q : client_asks argv path q → gives (parse_request name argv) [] (path, q).
Proof.
  intros [path'|path' q' s r qubits shots seed Hq Hs Hr]; [done|].
  apply (gives_bind _ _ [] qubits []); [by apply parse_unsigned_gives|].
  apply (gives_bind _ _ [] shots []); [by apply parse_unsigned_gives|].
  apply (gives_bind _ _ [] seed []); [by apply parse_unsigned_gives|].
  pose proof (operand_range _ _ _ Hq). pose proof (operand_range _ _ _ Hs). unfold MAX_QUBITS, MAX_SHOTS in *.
  by rewrite !(wrap_small 32) by (unfold in_width; lia).
Qed.

Lemma parse_request_cases name argv :
  (∃ path q, client_asks argv path q) ∨ ∃ e, exits (parse_request name argv) [Err e] 1.
Proof.
  unfold parse_request. destruct argv as [|opt [|path [|cmd operands]]]; try (right; by eexists).
  destruct (String.eqb_spec opt "--socket"%string) as [->|]; [|right; by eexists]. cbn [negb].
  destruct (String.eqb_spec cmd "status"%string) as [->|].
  { destruct operands; [left|right; by eexists]. eexists _, _. constructor. }
  destruct (String.eqb_spec cmd "run-ghz"%string) as [->|]; [|right; by eexists].
  destruct operands as [|q [|s [|r [|]]]]; try (right; by eexists).
  destruct (parse_unsigned_cases q MAX_QUBITS "qubit count") as [(qubits & Hq)|Hx];
    [|right; eexists; by apply exits_bind].
  pose proof (parse_unsigned_gives q MAX_QUBITS "qubit count" qubits ltac:(done) Hq) as Hgq.
  destruct (parse_unsigned_cases s MAX_SHOTS "shot count") as [(shots & Hs)|Hx];
    [|right; eexists; eapply (exits_bind_r _ _ [] _ [_]); [exact Hgq|by apply exits_bind]].
  pose proof (parse_unsigned_gives s MAX_SHOTS "shot count" shots ltac:(done) Hs) as Hgs.
  destruct (parse_unsigned_cases r UINT64_MAX "seed") as [(seed & Hr)|Hx].
  - left. eexists path, _. by econstructor.
  - right. eexists. eapply (exits_bind_r _ _ [] _ [_]); [exact Hgq|].
    eapply (exits_bind_r _ _ [] _ [_]); [exact Hgs|]. apply exits_bind. exact Hx.
Qed.

(** ** The exchange *)

(** On some descriptor the client sent exactly the request and received exactly
    56 bytes, a response with a good header, which is [r]. *)
Definition exchanged {W} `{OS W} (q : Request) (r : Response) (w : W) : Prop :=
  ∃ fd bs, sent w fd = request_layout q ∧ recvd w fd = bs ∧ length bs = RESPONSE_WIRE_SIZE ∧ bytes bs ∧
    r = response_of_bytes bs ∧ header_status RESPONSE_MAGIC (rsp_magic r) (rsp_version r) = STATUS_OK.

(** A message on the standard error. *)
Definition complaint (l : line double) : Prop := match l with Out _ => False | _ => True end.

(** How the client ends: one complaint and status 1, or the response and the
    status it states. *)
Definition client_post {W} `{OS W} (q : Request) (res : Z) (o : screen) (w : W) : Prop :=
  (res = 1 ∧ ∃ l, o = [l] ∧ complaint l) ∨
  (∃ r, exchanged q r w ∧ o = print_response r ∧ res = if rsp_status r =? STATUS_OK then 0 else 1).

Section Exchange.
Context {W : Type} `{OS W} (spin_ok : Prop) (max_timeout max_size : Z) (enough : nat → W → Prop).
Context (Htimeout : IO_TIMEOUT_MS <= max_timeout) (Hsize : Z.of_nat RESPONSE_WIRE_SIZE <= max_size).
Context (HF : fuel_law (S := screen) alone spin_ok max_timeout max_size enough).
Abbreviation wp1 := (wp (S := screen) alone no_inv spin_ok).

Lemma wp_print l (Q : () → screen → W → Prop) o w : Q tt (o ++ l) w → wp1 (print_lines l) Q o w.
Proof.
  intros HQ. unfold print_lines. apply wp_crit; [done| |].
  - intros s1 w1 [= -> ->] _. exists s1, w1. split; [done|by eexists].
  - intros s1 w1 x s2 [= -> ->] _ [= <- <-]. by split.
Qed.

Lemma wp_complain q l w : complaint l → wp1 (_ ← print_lines [l]; mret 1) (client_post q) [] w.
Proof. intros Hl. apply wp_bind, wp_print, wp_ret; [done|]. left. split; [done|]. by exists l. Qed.

Lemma wp_complain_close q l fd w :
  complaint l → wp1 (_ ← print_lines [l]; _ ← call (Close fd); mret 1) (client_post q) [] w.
Proof.
  intros Hl. apply wp_bind, wp_print. apply wp_bind, wp_call; [done|]. intros s1 w1 x w2 [= <- <-] _ _.
  split; [done|]. apply wp_ret; [done|]. left. split; [done|]. by exists l.
Qed.

(** The streams of the open descriptor; nothing was printed. *)
Definition on_stream (fd : Z) (r t : list Z) (o : screen) (w : W) : Prop :=
  o = [] ∧ fd_open w fd ∧ recvd w fd = r ∧ sent w fd = t.

Definition quiet {X : Set} (c : sys X) : bool := match c with Shutdown _ _ => true | _ => control c end.

Lemma on_stream_stable fd r t : stable alone no_inv (@quiet) (on_stream fd r t).
Proof.
  apply alone_stable. intros X c s w x w' Hc Hos (Ho & Hopen & Hr & Ht). split; [done|].
  rewrite (os_frame_recvd c w x w' fd Hos), (os_frame_sent c w x w' fd Hos) by by destruct c.
  split; [|done]. eapply os_frame_open; [done| |done]. by destruct c.
Qed.

Definition writing (fd : Z) (o : screen) (w : W) : Prop := o = [] ∧ fd_open w fd ∧ recvd w fd = [].
Definition reading (fd : Z) (t : list Z) (o : screen) (w : W) : Prop := o = [] ∧ fd_open w fd ∧ sent w fd = t.

Lemma client_writing_stable fd : stable alone no_inv (@sends fd) (writing fd).
Proof.
  apply alone_stable. intros X c s w x w' Hc Hos (Ho & Hopen & Hr). split; [done|].
  rewrite (os_frame_recvd c w x w' fd Hos) by by destruct c.
  split; [|done]. eapply os_frame_open; [done| |done]. by destruct c.
Qed.

Lemma client_reading_stable fd t : stable alone no_inv (@reads fd) (reading fd t).
Proof.
  apply alone_stable. intros X c s w x w' Hc Hos (Ho & Hopen & Ht). split; [done|].
  rewrite (os_frame_sent c w x w' fd Hos) by by destruct c.
  split; [|done]. eapply os_frame_open; [done| |done]. by destruct c.
Qed.

Lemma alone_respects : env_respects (S := screen) alone.
Proof. by intros s w s' w' [= -> ->]. Qed.

Lemma wp_client_exchange fuel errno junk request_wire response_wire path q w :
  length request_wire = REQUEST_WIRE_SIZE → length response_wire = RESPONSE_WIRE_SIZE → enough fuel w →
  wp1 (exchange fuel errno junk request_wire response_wire path q) (client_post q) [] w.
Proof.
  intros Hin Hout Hn. unfold exchange. rewrite encode_request_layout by done. apply wp_bind, wp_ret; [done|].
  cbv beta iota. simpl negb. cbv iota. apply wp_bind.
  eapply wp_mono; [apply (wp_connect alone no_inv spin_ok max_timeout max_size enough HF (fueled enough fuel (λ o _, o = [])) fuel)|].
  { apply alone_respects. }
  { eapply fueled_stable; [exact HF|]. by apply alone_stable. }
  { done. }
  { lia. }
  { done. }
  intros [fd e] o w1 _ (([= ->] & _) & Hfd & _). cbn [fst] in *. destruct (Z.ltb_spec fd 0).
  { case_match; by apply wp_complain. }
  destruct (Hfd ltac:(lia)) as ((_ & Hn1) & Hopen & Hr & Ht). apply wp_bind.
  eapply wp_mono; [apply (wp_write_all alone no_inv spin_ok max_timeout max_size enough HF (fueled enough fuel (writing fd)) fd fuel
    (request_layout q) (Z.of_nat REQUEST_WIRE_SIZE) IO_TIMEOUT_MS false [])|].
  { apply alone_keeps. }
  { eapply fueled_stable; [exact HF|]. apply client_writing_stable. }
  { done. }
  { simpl. unfold REQUEST_WIRE_SIZE. lia. }
  { unfold REQUEST_WIRE_SIZE, RESPONSE_WIRE_SIZE in *. lia. }
  { done. }
  intros st o w2 _ (((-> & Hopen2 & Hr2) & Hn2) & n & Ht2 & _ & Hok & _). rewrite drop_0 in Ht2.
  case_decide as Hio; [by apply wp_complain_close|].
  assert (st = IO_OK) as -> by (by destruct st; try (exfalso; apply Hio)). specialize (Hok eq_refl).
  rewrite take_ge in Ht2 by (change (length (request_layout q)) with REQUEST_WIRE_SIZE; lia).
  apply wp_bind. eapply (wp_stable_call alone no_inv spin_ok _ _ (fueled_stable _ _ _ _ _ _ HF _ fuel _
    (on_stream_stable fd [] (request_layout q)))); [done|done|].
  intros o3 w3 shut w4 _ _ _ Hp4. destruct shut; simpl negb; cbv iota.
  2: { destruct Hp4 as [[-> _] _]. by apply wp_complain_close. }
  destruct Hp4 as [[-> (Hopen4 & Hr4 & Ht4)] Hn4]. apply wp_bind.
  eapply wp_mono; [apply (wp_read_all alone no_inv spin_ok max_timeout max_size enough HF (reading fd (request_layout q)) fd fuel
    response_wire (Z.of_nat RESPONSE_WIRE_SIZE) IO_TIMEOUT_MS false [])|].
  { apply alone_keeps. }
  { apply client_reading_stable. }
  { done. }
  { rewrite Hout. lia. }
  { done. }
  { done. }
  intros [st b] o5 w5 _ (buf & Hb & (-> & Hopen5 & Ht5) & got & Hbytes & Hr5 & Hbuf & _ & Hok5 & _).
  cbn [fst snd] in *. subst b.
  case_decide as Hio5; [by apply wp_complain_close|].
  assert (st = IO_OK) as -> by (by destruct st; try (exfalso; apply Hio5)). specialize (Hok5 eq_refl).
  rewrite inserts_all in Hbuf by lia. subst buf. cbn [app] in Hr5. assert (length got = RESPONSE_WIRE_SIZE) as Hlen by lia.
  apply wp_bind, wp_call; [done|]. intros o6 w6 x w7 [= <- <-] _ Hclose. split; [done|].
  rewrite decode_response_of_bytes by done. apply wp_bind, wp_ret; [done|]. cbv beta iota.
  destruct (Z.eqb_spec (header_status RESPONSE_MAGIC (rsp_magic (response_of_bytes got))
    (rsp_version (response_of_bytes got))) STATUS_OK) as [Hst|Hst]; simpl negb; cbv iota; [|by apply wp_complain].
  apply wp_bind, wp_ret; [done|]. apply wp_bind, wp_print, wp_ret; [done|]. right. exists (response_of_bytes got).
  split; [|done]. exists fd, got. split; [|split; [|done]].
  - by rewrite (os_frame_sent _ _ _ _ fd Hclose).
  - by rewrite (os_frame_recvd _ _ _ _ fd Hclose).
Qed.

(** The whole program. *)
Definition main_post (argv : list string) (res : Z) (o : screen) (w : W) : Prop :=
  (∃ path q, client_asks argv path q ∧ client_post q res o w) ∨
  ((∀ path q, ¬ client_asks argv path q) ∧ res = 1 ∧ ∃ e, o = [Err e]).

Lemma wp_main fuel errno junk request_wire response_wire name argv w :
  length request_wire = REQUEST_WIRE_SIZE → length response_wire = RESPONSE_WIRE_SIZE → enough fuel w →
  wp1 (main fuel errno junk request_wire response_wire name argv) (main_post argv) [] w.
Proof.
  intros Hin Hout Hn. unfold main. destruct (parse_request_cases name argv) as [(path & q & Hasks)|(e & Hexit)].
  - rewrite (parse_request_gives name _ _ _ Hasks). cbn [after_console]. apply wp_bind, wp_print. cbn [app].
    eapply wp_mono; [by apply wp_client_exchange|]. intros res o w1 _ Hpost. left. by exists path, q.
  - rewrite Hexit. cbn [after_console]. apply wp_bind, wp_print, wp_ret; [done|]. right.
    split; [|split; [done|by exists e]]. intros path q Hasks%(parse_request_gives name).
    unfold gives, exits in *. by rewrite Hasks in Hexit.
Qed.
End Exchange.

(** C14 (the device client): for every operating system and command line the client
    has no undefined behaviour. When it returns and the command line asks for a
    request, it either wrote one complaint and returns 1, or it sent exactly the
    24 bytes of the request, received exactly 56 bytes with the right magic
    number and version, printed the response they encode, and returns 0 exactly
    when its status is OK. On any other command line it writes one complaint. *)
Theorem client_correct {W} `{OS W} fuel errno junk request_wire response_wire name argv (w w' : W) p' o' :
  length request_wire = REQUEST_WIRE_SIZE → length response_wire = RESPONSE_WIRE_SIZE →
  rtc (step alone) (main fuel errno junk request_wire response_wire name argv, [], w) (p', o', w') →
  p' ≠ Undefined ∧ ∀ res, p' = Ret res → main_post argv res o' w'.
Proof.
  intros Hin Hout Hsteps. destruct (alone_sound True _ _ _ _ _ _ _
    (wp_main True INT_MAX (Z.of_nat RESPONSE_WIRE_SIZE) (λ _ _, True) ltac:(done) ltac:(done) (fuel_law_any _ _ _ I) fuel errno junk request_wire response_wire name argv w Hin Hout I)
    Hsteps) as (Hu & _ & Hret). by split.
Qed.

(** Termination: when every call is answered and takes time, the clock shows the
    time and signals interrupt finitely often ([timely]), the rounds of one
    operation suffice for the client to return. *)
Theorem client_terminates {W} `{OS W} (now : W → Z) (interrupts : W → nat) fuel errno junk request_wire response_wire
    name argv (w : W) :
  responsive (W := W) → timely now interrupts →
  (rounds (interrupts w) IO_TIMEOUT_MS (Z.of_nat RESPONSE_WIRE_SIZE) <= fuel)%nat →
  length request_wire = REQUEST_WIRE_SIZE → length response_wire = RESPONSE_WIRE_SIZE →
  always_returns alone (main fuel errno junk request_wire response_wire name argv) [] w.
Proof.
  intros Hos Htime Hfuel Hin Hout.
  pose proof (alone_fuel (S := screen) now interrupts IO_TIMEOUT_MS (Z.of_nat RESPONSE_WIRE_SIZE) Htime ltac:(done)) as HF.
  eapply wp_always_returns; [..|by apply (wp_main False _ _ _ ltac:(done) ltac:(done) HF)]; try done; unfold alone; congruence.
Qed.

(** ** The client and the daemon *)

(** Two ends of a stream socket: what one end has read, in order, is the
    beginning of what the other has written. *)
Definition connected {W1 W2} `{OS W1} `{OS W2} (w : W1) (fd : Z) (d : W2) (client_fd : Z) : Prop :=
  recvd d client_fd `prefix_of` sent w fd ∧ recvd w fd `prefix_of` sent d client_fd.

Lemma client_asks_wf argv path q :
  client_asks argv path q → request_wf q ∧ req_magic q = REQUEST_MAGIC ∧ req_version q = PROTOCOL_VERSION.
Proof.
  intros [path'|path' q' s r qubits shots seed Hq%operand_range Hs%operand_range Hr%operand_range].
  - by repeat split.
  - unfold MAX_QUBITS, MAX_SHOTS, UINT64_MAX in *. split; [|done]. unfold request_wf, in_width. cbn.
    unfold REQUEST_MAGIC, PROTOCOL_VERSION, COMMAND_RUN_GHZ. lia.
Qed.

Lemma client_asks_unique argv path path' q q' : client_asks argv path q → client_asks argv path' q' → q = q'.
Proof.
  intros H1%(parse_request_gives "") H2%(parse_request_gives ""). unfold gives in *. rewrite H1 in H2. by injection H2.
Qed.

Lemma prefix_full {A} (l k : list A) : l `prefix_of` k → (length k <= length l)%nat → l = k.
Proof. intros [m ->]. rewrite length_app. intros. by rewrite (nil_length_inv m) by lia; rewrite app_nil_r. Qed.

(** A daemon that served the other end of a connection on which the client got
    56 bytes read the client's request, and the bytes are its answer. *)
Lemma served_answers {W1 W2} `{OS W1} `{OS W2} memory argv path q r (w : W1) fd (d : W2) client_fd res bs :
  client_asks argv path q → connected w fd d client_fd → sent w fd = request_layout q → recvd w fd = bs →
  length bs = RESPONSE_WIRE_SIZE → r = response_of_bytes bs →
  served client_fd memory [] [] res d ∨ dropped client_fd [] [] res d → answers memory q r.
Proof.
  intros Hasks [Hin Hout] Hs Hr Hlen -> Hserved. destruct (client_asks_wf _ _ _ Hasks) as (Hwf & Hmagic & Hversion).
  destruct Hserved as [(packet & r & Hpl & _ & Hpr & Hans & Hrwf & Hsent)|(_ & Hsent & _)].
  - rewrite Hpr, Hs in Hin. apply prefix_full in Hin; [|change (length (request_layout q)) with REQUEST_WIRE_SIZE; cbn; lia].
    cbn [app] in Hin. subst packet.
    assert (bs = response_layout r) as ->.
    { rewrite Hr in Hout. apply prefix_full.
      - destruct Hsent as [[_ ->]|[_ (n & ->)]] in Hout; cbn [app] in Hout; [done|].
        etransitivity; [exact Hout|]. exists (drop n (response_layout r)). by rewrite take_drop.
      - change (length (response_layout r)) with RESPONSE_WIRE_SIZE. lia. }
    rewrite response_of_layout by done. unfold packet_answers in Hans. rewrite request_of_layout in Hans by done.
    cbv zeta in Hans. rewrite Hmagic, Hversion in Hans. exact Hans.
  - rewrite Hr, Hsent in Hout. apply prefix_length in Hout. cbn in Hout. unfold RESPONSE_WIRE_SIZE in Hlen. lia.
Qed.

(** C15 (the client and the daemon): run the client, and run the daemon's
    [serve_connection] on the other end of its connection, each against an
    operating system of its own. When both have returned, a client that asked
    for a request either wrote one complaint and returns 1, or printed the
    response the protocol allows to its request and returns 0 exactly when its
    status is OK. For 1 to 20 qubits and 1 to 100 shots, and memory at the
    daemon, that is a run that passed: the number of basis states, a measured
    state of all zeros or all ones, no invalid result and the norm 1. *)
Theorem client_and_daemon {W1 W2} `{OS W1} `{OS W2} fuel errno junk request_wire response_wire name argv path q
    (w w' : W1) o' res daemon_fuel alloc_k alloc_s kernel q0 packet_in packet_out client_fd (d d' : W2) result :
  length request_wire = REQUEST_WIRE_SIZE → length response_wire = RESPONSE_WIRE_SIZE →
  length packet_in = REQUEST_WIRE_SIZE → length packet_out = RESPONSE_WIRE_SIZE →
  client_asks argv path q →
  rtc (step alone) (main fuel errno junk request_wire response_wire name argv, [], w) (Ret res, o', w') →
  recvd d client_fd = [] → sent d client_fd = [] →
  rtc (step alone)
    (serve_connection daemon_fuel alloc_k alloc_s kernel q0 packet_in packet_out client_fd, tt, d) (Ret result, tt, d') →
  (∀ fd, sent w' fd ≠ [] → connected w' fd d' client_fd) →
  (res = 1 ∧ ∃ l, o' = [l] ∧ complaint l) ∨
  (∃ r, o' = print_response r ∧ res = (if rsp_status r =? STATUS_OK then 0 else 1) ∧
     answers (alloc_k && alloc_s) q r ∧
     (req_command q = COMMAND_RUN_GHZ → valid_run q → alloc_k && alloc_s = true →
      res = 0 ∧ ∃ s, (s = 0 ∨ s = 2 ^ req_qubits q - 1) ∧
        r = ghz_response response_init (req_qubits q) (req_shots q) s)).
Proof.
  intros Hin Hout Hpin Hpout Hasks Hsteps Hrecvd Hsent Hserve Hlink.
  destruct (alone_sound (W := W1) True _ _ _ _ _ _ _
    (wp_main (W := W1) True INT_MAX (Z.of_nat RESPONSE_WIRE_SIZE) (λ _ _, True) ltac:(done) ltac:(done) (fuel_law_any _ _ _ I) fuel
       errno junk request_wire response_wire name argv w Hin Hout I) Hsteps) as (_ & _ & Hret).
  destruct (alone_sound (W := W2) True _ _ _ _ _ _ _
    (wp_serve (W := W2) client_fd _ [] [] True INT_MAX (Z.of_nat RESPONSE_WIRE_SIZE) (λ _ _, True) ltac:(done) ltac:(done)
       (fuel_law_any _ _ _ I) daemon_fuel alloc_k alloc_s kernel q0 packet_in packet_out d eq_refl Hpin Hpout Hrecvd Hsent I)
    Hserve) as (_ & _ & Hdone). specialize (Hdone result eq_refl).
  destruct (Hret res eq_refl) as [(path' & q' & Hasks' & Hpost)|(Hno & _)]; [|by destruct (Hno path q)].
  rewrite <-(client_asks_unique _ _ _ _ _ Hasks Hasks') in Hpost.
  destruct Hpost as [Hbad|(r & (fd & bs & Hs & Hr & Hlen & _ & Hrbs & _) & -> & ->)]; [by left|right].
  assert (connected w' fd d' client_fd) as Hconn by (apply Hlink; by rewrite Hs).
  pose proof (served_answers _ _ _ _ _ _ _ _ _ _ _ Hasks Hconn Hs Hr Hlen Hrbs Hdone) as Hans.
  exists r. split; [done|]. split; [done|]. split; [exact Hans|]. intros Hcmd Hvalid Hmem.
  destruct Hans as [Hc|Hc1 Hc2|_ Hbad|_ _ Hno|s _ _ _ Hst]; [by rewrite Hcmd in Hc|done|done|by rewrite Hmem in Hno|].
  split; [done|]. by exists s.
Qed.

(** ** A run *)

Definition demo_argv : list string := ["--socket"; "/run/qcpu"; "run-ghz"; " 3"; "0xA"; "+424242"]%string.

Lemma demo_asks : client_asks demo_argv "/run/qcpu" sample_request.
Proof.
  apply (asks_run "/run/qcpu" " 3" "0xA" "+424242" 3 10 424242).
  - exists NoSign. split; [done|]. split; [|done].
    exists " "%string, "3"%string. split; [done|]. split; [done|]. by apply (num_decimal true "3").
  - exists NoSign. split; [done|]. split; [|done].
    exists ""%string, "0xA"%string. split; [done|]. split; [done|]. by apply (num_hex "x" "A"); [left|].
  - exists Plus. split; [done|]. split; [|done].
    exists ""%string, "424242"%string. split; [done|]. split; [done|]. by apply (num_decimal true "424242").
Qed.

(** A daemon that answers in two parts. *)
Definition daemon_world : sworld := {|
  sw_clock := replicate 9 (Some (5, 0));
  sw_stop := [];
  sw_poll := [PReady POLLIN];
  sw_read := [RData (take 30 (response_layout sample_response)); RErr EAGAIN; RData (drop 30 (response_layout sample_response))];
  sw_send := [WCount 10; WCount 14];
  sw_socket := [FdOk 5];
  sw_connect := [0];
  sw_recvd := ∅;
  sw_sent := ∅;
  sw_open := ∅
|}.

Definition client_demo : Sys.prog screen Z :=
  main 100 0 zero_response (replicate 24 0) (replicate 56 0) "client" demo_argv.

Definition client_world_after : sworld := world_after (run client_demo [] daemon_world).

Lemma client_demo_run :
  rtc (step alone) (client_demo, [], daemon_world) (Ret 0, print_response sample_response, client_world_after).
Proof. apply run_steps. vm_compute. reflexivity. Qed.

Lemma client_correct_witness : main_post demo_argv 0 (print_response sample_response) client_world_after.
Proof.
  exact (proj2 (client_correct 100 0 zero_response (replicate 24 0) (replicate 56 0) "client" demo_argv
    daemon_world client_world_after (Ret 0) (print_response sample_response) eq_refl eq_refl client_demo_run) 0 eq_refl).
Defined.

(** A daemon whose client sends the same request. *)
Definition daemon_after : sworld := world_after (run serve_demo tt client_world).

Lemma serve_demo_run : rtc (step alone) (serve_demo, tt, client_world) (Ret 0, tt, daemon_after).
Proof. apply run_steps. vm_compute. reflexivity. Qed.

Lemma demo_connected fd : sent client_world_after fd ≠ [] → connected client_world_after fd daemon_after 7.
Proof.
  assert (sw_sent client_world_after = {[5 := request_layout sample_request]}) as Hs by (vm_compute; reflexivity).
  assert (sw_recvd client_world_after = {[5 := response_layout sample_response]}) as Hr by (vm_compute; reflexivity).
  assert (sw_recvd daemon_after = {[7 := request_layout sample_request]}) as Hr' by (vm_compute; reflexivity).
  assert (sw_sent daemon_after = {[7 := response_layout sample_response]}) as Hs' by (vm_compute; reflexivity).
  unfold connected, sent, recvd, script_os. rewrite Hs, Hr, Hr', Hs'. unfold log_of.
  rewrite !lookup_singleton_eq. destruct (decide (fd = 5)) as [->|Hne].
  - rewrite !lookup_singleton_eq. intros _. split; apply reflexivity.
  - rewrite lookup_singleton_ne by congruence. intros Hnil. destruct (Hnil eq_refl).
Qed.

Lemma client_and_daemon_witness :
  ∃ s, (s = 0 ∨ s = 2 ^ 3 - 1) ∧
    print_response sample_response = print_response (ghz_response response_init 3 10 s).
Proof.
  destruct (client_and_daemon 100 0 zero_response (replicate 24 0) (replicate 56 0) "client" demo_argv "/run/qcpu"
    sample_request daemon_world client_world_after (print_response sample_response) 0
    40 true true zero_kernel sample_request (replicate 24 0) (replicate 56 0) 7 client_world daemon_after 0)
    as [[Hres _]|(r & Ho & _ & _ & Hrun)].
  - reflexivity.
  - reflexivity.
  - reflexivity.
  - reflexivity.
  - exact demo_asks.
  - exact client_demo_run.
  - reflexivity.
  - reflexivity.
  - exact serve_demo_run.
  - exact demo_connected.
  - discriminate Hres.
  - destruct Hrun as (_ & s & Hs & ->).
    + reflexivity.
    + unfold valid_run, MAX_QUBITS, MAX_SHOTS. simpl. lia.
    + reflexivity.
    + exists s. split; [exact Hs|exact Ho].
Defined.

Lemma client_terminates_witness :
  ∃ a s1 w1, rtc (step alone)
    (main (rounds 0 2000 56) 0 zero_response (replicate 24 0) (replicate 56 0) "client" demo_argv, [],
     (daemon_world, 5000000000)) (Ret a, s1, w1).
Proof.
  destruct (client_terminates snd script_interrupts (rounds 0 2000 56) 0 zero_response (replicate 24 0) (replicate 56 0)
    "client" demo_argv (daemon_world, 5000000000) clocked_responsive script_timely (Nat.le_refl _) eq_refl eq_refl
    _ _ _ (rtc_refl _ _)) as (_ & _ & Hret). exact Hret.
Defined.
