(* ===== verification/Server.v ===== *)
(** * The daemon's process

    [main] of [src/device/qcpud.c] with the functions it calls before it serves
    a connection: the command line, the signal handlers, the socket's path, the
    listening socket, the accept loop and the end. It may run forever, so it is
    an interaction tree; its events are the system calls, the lines it prints,
    its accesses to the two variables it shares with the signal handler, and
    [Serve], the call of [serve_connection] ([Daemon]). A [trace] is what it does
    up to some moment, the signals delivered included; [guard] says which traces
    are in order. *)

From Stdlib Require Import ZArith Lia ZifyBool Ascii String.
From stdpp Require Import base list numbers strings.
From ITree Require Import ITree.
From S2P Require Import Prelude.
From S2P Require Import Sys.
From S2P Require Import DeviceIO.
From S2P Require Import Outcome.
From S2P Require Import CString.
From S2P Require Import Console.
Open Scope Z_scope.

(** ** Events *)

Inductive serverE : Type → Type :=
| Sigaction (signal : Z) : serverE bool          (* success *)
| Lstat (path : string) : serverE (bool * Z + Z) (* a socket?, its owner; or the errno *)
| Getuid : serverE Z
| Unlink (path : string) : serverE bool
| Umask (mask : Z) : serverE Z
| Listener : serverE Z                           (* socket: a descriptor, or negative *)
| Bind (fd : Z) (path : string) : serverE bool
| Chmod (path : string) (mode : Z) : serverE bool
| Listen (fd backlog : Z) : serverE bool
| Accept (fd : Z) : serverE fd_answer
| Serve (client_fd : Z) : serverE Z
| CloseFd (fd : Z) : serverE Z                   (* 0, or the errno *)
| StopRequested : serverE bool                   (* a read of stop_requested *)
| Publish (fd : Z) : serverE unit                (* server_fd_for_signal = fd *)
| Emit (l : line Empty_set) : serverE unit
| Overrun : serverE Empty_set.                   (* a copy past the end of a buffer *)

Abbreviation server := (itree serverE).

#[export] Instance server_ret : MRet server := λ A a, go (RetF a).
#[export] Instance server_bind : MBind server := λ A B k t, ITree.bind t k.

Definition act {X} (e : serverE X) : server X := ITree.trigger e.
Definition say (fmt : string) (a : list (arg Empty_set)) : server unit := act (Emit (Out (Print fmt a))).
Definition err (fmt : string) (a : list (arg Empty_set)) : server unit := act (Emit (Err (Print fmt a))).
Definition perror (s : string) : server unit := act (Emit (Perror s)).

(** ** The program *)

Definition SIGINT : Z := 2.
Definition SIGPIPE : Z := 13.
Definition SIGTERM : Z := 15.

(** The handler, on what [server_fd_for_signal] holds: the new value of
    [stop_requested] and the descriptor it closes, if any. *)
Definition handle_stop_signal (server_fd_for_signal : Z) : bool * option Z :=
  (true, if 0 <=? server_fd_for_signal then Some server_fd_for_signal else None).

(** [sigemptyset] defines no errors. *)
Definition install_signal_handlers : server Z :=
  ok ← act (Sigaction SIGINT);
  if negb ok then mret (-1) else
  ok ← act (Sigaction SIGTERM);
  if negb ok then mret (-1) else
  ok ← act (Sigaction SIGPIPE);
  if negb ok then mret (-1) else mret 0.

Definition prepare_socket_path (socket_path : string) : server Z :=
  status ← act (Lstat socket_path);
  match status with
  | inl (is_socket, owner) =>
      unsafe ← (if negb is_socket then mret true else uid ← act Getuid; mret (negb (owner =? uid)));
      if unsafe : bool then
        _ ← err "ERROR: refusing to replace unsafe socket path\n" [];
        mret (-1)
      else
        ok ← act (Unlink socket_path);
        if negb ok then _ ← perror "unlink"; mret (-1) else mret 0
  | inr errno =>
      if negb (errno =? ENOENT) then _ ← perror "lstat"; mret (-1) else mret 0
  end.

(** The copy of the path with its terminator into [sun_path]. *)
Definition copy_path (socket_path : string) : server unit :=
  if Z.of_nat (String.length socket_path) + 1 <=? SUN_PATH_SIZE then mret tt
  else x ← act Overrun; match x : Empty_set with end.

(** What the paths out of the loop that fail have in common. *)
Definition accept_failed (server_fd : Z) (socket_path : string) : server (option Z) :=
  _ ← act (Publish (-1));
  _ ← act (CloseFd server_fd);
  _ ← act (Unlink socket_path);
  mret (Some 1).

(** One round of the loop: [inl] goes on, [inr None] is [break], [inr (Some s)]
    returns [s] from [main]. *)
Definition accept_round (server_fd : Z) (socket_path : string) (once : bool) (_ : unit)
    : server (unit + option Z) :=
  client ← act (Accept server_fd);
  match client with
  | FdErr errno =>
      stop ← act StopRequested;
      if stop : bool then mret (inr None)
      else if errno =? EINTR then mret (inl tt)
      else
        _ ← perror "accept";
        r ← accept_failed server_fd socket_path;
        mret (inr r)
  | FdOk client_fd =>
      result ← act (Serve client_fd);
      _ ← act (CloseFd client_fd);
      if negb (result =? 0) then
        _ ← err "WARN: client request failed; daemon remains available\n" [];
        if once then r ← accept_failed server_fd socket_path; mret (inr r)
        else
          stop ← act StopRequested;
          if stop : bool then mret (inr None) else mret (inl tt)
      else if once then mret (inr None) else mret (inl tt)
  end.

(** After the loop. *)
Definition shut_down (server_fd : Z) (socket_path : string) : server Z :=
  _ ← act (Publish (-1));
  errno ← act (CloseFd server_fd);
  if negb (errno =? 0) && negb (errno =? EBADF) then
    _ ← perror "close server socket";
    _ ← act (Unlink socket_path);
    mret 1
  else
  ok ← act (Unlink socket_path);
  if negb ok then _ ← perror "unlink socket"; mret 1
  else _ ← say "PASS: QCPUD_CLEAN_SHUTDOWN\n" []; mret 0.

(** From the listening socket on. *)
Definition serve_clients (server_fd : Z) (socket_path : string) (once : bool) : server Z :=
  _ ← act (Publish server_fd);
  _ ← say "PASS: QCPUD_SOCKET_READY path=%s\n" [AStr socket_path];
  _ ← say "DEVICE=qcpu0 TYPE=SOFTWARE_VIRTUAL_QCPU PHYSICAL_QPU_PRESENT=NO\n" [];
  r ← ITree.iter (accept_round server_fd socket_path once) tt;
  match r with
  | Some status => mret status
  | None => shut_down server_fd socket_path
  end.

(** Binding the path and listening on it. *)
Definition open_socket (server_fd : Z) (socket_path : string) (once : bool) : server Z :=
  _ ← copy_path socket_path;
  ok ← act (Bind server_fd socket_path);
  if negb ok then _ ← perror "bind"; _ ← act (CloseFd server_fd); mret 1 else
  ok ← act (Chmod socket_path 384);
  if negb ok then _ ← perror "chmod"; _ ← act (CloseFd server_fd); _ ← act (Unlink socket_path); mret 1 else
  ok ← act (Listen server_fd 4);
  if negb ok then _ ← perror "listen"; _ ← act (CloseFd server_fd); _ ← act (Unlink socket_path); mret 1 else
  serve_clients server_fd socket_path once.

(** After the options. *)
Definition start (socket_path : string) (once : bool) : server Z :=
  if SUN_PATH_SIZE <=? Z.of_nat (String.length socket_path) then
    _ ← err "ERROR: socket path too long\n" []; mret 1
  else
  _ ← act (Umask 63);
  installed ← install_signal_handlers;
  if negb (installed =? 0) then _ ← perror "sigaction"; mret 1 else
  prepared ← prepare_socket_path socket_path;
  if negb (prepared =? 0) then mret 1 else
  server_fd ← act Listener;
  if server_fd <? 0 then _ ← perror "socket"; mret 1
  else open_socket server_fd socket_path once.

(** [argv] is without the program's name. *)
Definition main (name : string) (argv : list string) : server Z :=
  if negb (length argv =? 2)%nat && negb (length argv =? 3)%nat then
    _ ← err "USAGE: %s --socket PATH [--once]\n" [AStr name]; mret 1
  else
  match argv with
  | option :: socket_path :: rest =>
      if negb (option =? "--socket")%string then
        _ ← err "ERROR: --socket is required\n" []; mret 1
      else
      match rest with
      | flag :: _ =>
          if negb (flag =? "--once")%string then
            _ ← err "ERROR: unsupported option: %s\n" [AStr flag]; mret 1
          else start socket_path true
      | [] => start socket_path false
      end
  | _ => mret 1
  end.
