(* ===== verification/ServerProps.v ===== *)
(** * What the daemon's process may do

    [trace n t l o]: the tree [t] can do the events [l], signals included, and
    then be at [o], in [n] steps. [guard] is the contract of the process as a
    monitor of its events: which calls are allowed when, what they do, and what
    the signal handler does. [keeps] is the partial-correctness triple of a tree
    against the monitor, with assertions that signals leave true and a rule for
    each construct. *)

From Stdlib Require Import ZArith Lia ZifyBool Ascii String Program.Equality.
From stdpp Require Import base list numbers strings.
From ITree Require Import ITree Eq.Shallow.
From S2P Require Import Prelude.
From S2P Require Import Sys.
From S2P Require Import DeviceIO.
From S2P Require Import Outcome.
From S2P Require Import Console.
From S2P Require Import Server.
Open Scope Z_scope.

(** ** Traces *)

(** [Signal]: the handler runs, between two events. *)
Inductive event :=
| Ev {X} (e : serverE X) (x : X)
| Signal.

Inductive trace {A} : nat → server A → list event → itree' serverE A → Prop :=
| trace_here t : trace 0 t [] (observe t)
| trace_tau n t t' l o : observe t = TauF t' → trace n t' l o → trace (S n) t l o
| trace_vis n t X (e : serverE X) k x l o :
    observe t = VisF e k → trace n (k x) l o → trace (S n) t (Ev e x :: l) o
| trace_signal n t l o : trace n t l o → trace (S n) t (Signal :: l) o.

(** A trace only depends on what is observed of the tree. *)
Lemma trace_observe {A} n (t u : server A) l o : observe t = observe u → trace n t l o → trace n u l o.
Proof.
  intros Heq Ht. revert u Heq. induction Ht as [t|n t t' l o Ho Ht _|n t X e k x l o Ho Ht _|n t l o _ IH]; intros u Heq.
  - rewrite Heq. constructor.
  - eapply trace_tau; [by rewrite <-Heq|done].
  - eapply trace_vis; [by rewrite <-Heq|done].
  - constructor. by apply IH.
Qed.

Lemma observe_seq {A B} (t : server A) (k : A → server B) :
  observe (ITree.bind t k) =
    match observe t with
    | RetF a => observe (k a)
    | TauF t => TauF (ITree.bind t k)
    | VisF e h => VisF e (λ x, ITree.bind (h x) k)
    end.
Proof. rewrite observe_bind. by destruct (observe t). Qed.

(** A trace of a sequence is one of its first part, or one of it to its end
    and one of its second part. *)
Definition splits {A B} (n : nat) (t : server A) (k : A → server B) (l : list event) (o : itree' serverE B) : Prop :=
  (∃ o', trace n t l o' ∧ ∀ b, o ≠ RetF b) ∨
  (∃ n1 n2 l1 l2 a, (n1 + n2 <= n)%nat ∧ l = l1 ++ l2 ∧ trace n1 t l1 (RetF a) ∧ trace n2 (k a) l2 o).

Lemma splits_step {A B} v n (t t' : server A) (k : A → server B) l o :
  (∀ m l o, trace m t' l o → trace (S m) t (v ++ l) o) → splits n t' k l o → splits (S n) t k (v ++ l) o.
Proof.
  intros Hstep [(o' & Hr & Hno)|(n1 & n2 & l1 & l2 & a & Hn & -> & H1 & H2)].
  - left. exists o'. split; [by apply Hstep|done].
  - right. exists (S n1), n2, (v ++ l1), l2, a. split; [lia|]. split; [by rewrite app_assoc|]. split; [by apply Hstep|done].
Qed.

Lemma splits_done {A B} n (t : server A) (b : server B) (k : A → server B) a l o :
  trace n b l o → observe b = observe (k a) → observe t = RetF a → splits n t k l o.
Proof.
  intros Hr Hb Ht. right. exists 0%nat, n, [], l, a. split; [lia|]. split; [done|].
  split; [rewrite <-Ht; constructor|by eapply trace_observe].
Qed.

Lemma trace_bind {A B} n (t : server A) (k : A → server B) l o : trace n (ITree.bind t k) l o → splits n t k l o.
Proof.
  remember (ITree.bind t k) as u eqn:Hu. intros Hr. revert t Hu.
  induction Hr as [u|n u u' l o Ho Hr IH|n u X e k' x l o Ho Hr IH|n u l o Hr IH]; intros t ->;
    pose proof (observe_seq t k) as Hseq.
  - destruct (observe t) as [a|t'|X e k'] eqn:Ht; [apply (splits_done _ t (ITree.bind t k) k a); [constructor|done|done]|..].
    all: left; exists (observe t); split; [constructor|by rewrite Hseq].
  - destruct (observe t) as [a|t'|X e k'] eqn:Ht; rewrite ?Ho in Hseq; [|injection Hseq as ->|done].
    + apply (splits_done _ t (ITree.bind t k) k a); [by eapply trace_tau|by rewrite Ho|done].
    + apply (splits_step [] _ _ t'); [intros; by eapply trace_tau|by apply IH].
  - destruct (observe t) as [a|t'|Y e' k''] eqn:Ht; rewrite ?Ho in Hseq; [|done|].
    + apply (splits_done _ t (ITree.bind t k) k a); [by eapply trace_vis|by rewrite Ho|done].
    + dependent destruction Hseq. apply (splits_step [Ev e' x] _ _ (k'' x)); [intros; by eapply trace_vis|by apply IH].
  - apply (splits_step [Signal] _ _ t); [intros; by constructor|by apply IH].
Qed.

Lemma trace_stop {A} (t : server A) o : observe t = o → trace 0 t [] o.
Proof. intros <-. apply trace_here. Qed.

Lemma trace_ret {A} (a : A) : trace 0 (mret a : server A) [] (RetF a).
Proof. by apply trace_stop. Qed.

Lemma trace_act {X B} n (e : serverE X) (k : X → server B) x l o :
  trace n (k x) l o → trace (S n) (y ← act e; k y) (Ev e x :: l) o.
Proof.
  intros Hr. eapply trace_vis; [apply (observe_seq (act e) k)|]. eapply trace_observe; [|exact Hr].
  by rewrite observe_seq.
Qed.

Lemma trace_seq {A B} n1 n2 (t : server A) (k : A → server B) l1 l2 a o :
  trace n1 t l1 (RetF a) → trace n2 (k a) l2 o → trace (n1 + n2) (t ≫= k) (l1 ++ l2) o.
Proof.
  intros H1 H2. change (t ≫= k) with (ITree.bind t k). remember (RetF a) as r eqn:Hr.
  induction H1 as [t|n t t' l o' Ho _ IH|n t X e k' x l o' Ho _ IH|n t l o' _ IH]; subst.
  - eapply trace_observe; [|exact H2]. rewrite observe_seq. by rewrite Hr.
  - apply (trace_tau _ _ (ITree.bind t' k)); [by rewrite observe_seq, Ho|by apply IH].
  - apply (trace_vis _ _ _ e (λ x, ITree.bind (k' x) k)); [by rewrite observe_seq, Ho|by apply IH].
  - cbn. apply trace_signal. by apply IH.
Qed.

(** ** The contract *)

(** What is known of the file at the path. *)
Inductive file_state :=
| NotOurs
| OwnedBy (uid : Z)   (* a socket of that user *)
| Ours                (* a socket of the daemon's user, or the one it bound *)
| Stuck.              (* one that was ours and could not be removed *)

Inductive socket_state :=
| NoSocket
| Opened (fd : Z)
| Hung (fd : Z) (refused : bool)   (* closed by the handler; whether an [accept] has failed since *)
| Closed.

Record monitor := {
  g_file : file_state;
  g_socket : socket_state;
  g_private : bool;                (* only the owner may connect *)
  g_listening : bool;
  g_published : Z;                 (* server_fd_for_signal *)
  g_client : option (Z * bool);    (* the accepted descriptor; whether it was served *)
  g_served : nat;
  g_stop : bool;                   (* stop_requested *)
  g_quit : bool                    (* whether the process has read [stop_requested] as set *)
}.

Definition initial : monitor :=
  {| g_file := NotOurs; g_socket := NoSocket; g_private := false; g_listening := false; g_published := -1;
     g_client := None; g_served := 0; g_stop := false; g_quit := false |}.

Definition set_file (f : file_state) (g : monitor) : monitor :=
  {| g_file := f; g_socket := g_socket g; g_private := g_private g; g_listening := g_listening g;
     g_published := g_published g; g_client := g_client g; g_served := g_served g; g_stop := g_stop g;
     g_quit := g_quit g |}.
Definition set_socket (k : socket_state) (g : monitor) : monitor :=
  {| g_file := g_file g; g_socket := k; g_private := g_private g; g_listening := g_listening g;
     g_published := g_published g; g_client := g_client g; g_served := g_served g; g_stop := g_stop g;
     g_quit := g_quit g |}.
Definition set_modes (private listening : bool) (published : Z) (g : monitor) : monitor :=
  {| g_file := g_file g; g_socket := g_socket g; g_private := private; g_listening := listening;
     g_published := published; g_client := g_client g; g_served := g_served g; g_stop := g_stop g;
     g_quit := g_quit g |}.
Definition set_client (c : option (Z * bool)) (n : nat) (g : monitor) : monitor :=
  {| g_file := g_file g; g_socket := g_socket g; g_private := g_private g; g_listening := g_listening g;
     g_published := g_published g; g_client := c; g_served := n; g_stop := g_stop g; g_quit := g_quit g |}.
Definition set_flags (stop quit : bool) (g : monitor) : monitor :=
  {| g_file := g_file g; g_socket := g_socket g; g_private := g_private g; g_listening := g_listening g;
     g_published := g_published g; g_client := g_client g; g_served := g_served g; g_stop := stop; g_quit := quit |}.

#[export] Instance file_state_eq_dec : EqDecision file_state.
Proof. solve_decision. Defined.
#[export] Instance socket_state_eq_dec : EqDecision socket_state.
Proof. solve_decision. Defined.

Definition allow (P : Prop) `{Decision P} (g : monitor) : option monitor := if decide P then Some g else None.

(** The socket is the descriptor [fd], open or closed by the handler. *)
Definition holds (fd : Z) (k : socket_state) : bool :=
  match k with Opened fd' | Hung fd' _ => fd =? fd' | _ => false end.

(** The call [e] with the answer: [None] when it is not allowed. Only a file
    that is ours is removed; the descriptor of a client is served once and then
    closed before the next one is accepted; connections are accepted only on the
    bound and listening socket, whose file only the owner can use and which the
    handler knows, never once the stop flag was seen, and, when the handler has
    closed the socket, in one call at most; the socket is closed when the handler
    no longer knows it; with [once] there is at most one client. A file whose
    removal fails stays; a descriptor is gone after [close] whatever it answers. *)
Definition check (path : string) (once : bool) (g : monitor) {X} (e : serverE X) : X → option monitor :=
  match e in serverE X return X → option monitor with
  | Lstat p => λ a, allow (p = path ∧ g_file g = NotOurs)
      (set_file (match a with inl (true, owner) => OwnedBy owner | _ => NotOurs end) g)
  | Getuid => λ uid, Some (set_file (if decide (g_file g = OwnedBy uid) then Ours else NotOurs) g)
  | Unlink p => λ ok, allow (p = path ∧ g_file g = Ours) (set_file (if ok : bool then NotOurs else Stuck) g)
  | Listener => λ fd, allow (g_socket g = NoSocket) (set_socket (if fd <? 0 then NoSocket else Opened fd) g)
  | Bind fd p => λ ok, allow (p = path ∧ g_socket g = Opened fd ∧ g_file g = NotOurs)
      (set_file (if ok : bool then Ours else NotOurs) g)
  | Chmod p mode => λ ok, allow (p = path ∧ g_file g = Ours)
      (set_modes (ok && (mode =? 384)) (g_listening g) (g_published g) g)
  | Listen fd _ => λ ok, allow (g_socket g = Opened fd ∧ g_file g = Ours ∧ g_private g = true)
      (set_modes (g_private g) ok (g_published g) g)
  | Publish fd => λ _, allow (fd = -1 ∨ g_socket g = Opened fd) (set_modes (g_private g) (g_listening g) fd g)
  | Accept fd => λ a, allow ((g_socket g = Opened fd ∨ g_socket g = Hung fd false) ∧ g_file g = Ours ∧
        g_private g = true ∧ g_listening g = true ∧ g_published g = fd ∧ g_client g = None ∧ g_quit g = false)
      (match a with
       | FdOk c => set_client (Some (c, false)) (g_served g) g
       | FdErr _ => match g_socket g with Hung fd _ => set_socket (Hung fd true) g | _ => g end
       end)
  | Serve c => λ _, allow (g_client g = Some (c, false) ∧ (once = true → g_served g = 0%nat))
      (set_client (Some (c, true)) (S (g_served g)) g)
  | CloseFd fd => λ _,
      match g_client g with
      | Some (c, served) => allow (fd = c ∧ served = true) (set_client None (g_served g) g)
      | None => allow (holds fd (g_socket g) = true ∧ g_published g = -1) (set_socket Closed g)
      end
  | StopRequested => λ stop, Some (set_flags (g_stop g) (g_quit g || stop) g)
  | Overrun => λ _, None
  | Sigaction _ | Umask _ | Emit _ => λ _, Some g
  end.

(** The handler runs: it sets the flag and closes the descriptor it knows, which
    must be the socket, and not a client's. *)
Definition on_signal (g : monitor) : option monitor :=
  match handle_stop_signal (g_published g) with
  | (stop, None) => Some (set_flags stop (g_quit g) g)
  | (stop, Some fd) =>
      allow (holds fd (g_socket g) = true ∧ fst <$> g_client g ≠ Some fd)
        (set_flags stop (g_quit g)
           (match g_socket g with Opened fd => set_socket (Hung fd false) g | _ => g end))
  end.

Definition guard (path : string) (once : bool) (g : monitor) (v : event) : option monitor :=
  match v with
  | Ev e x => check path once g e x
  | Signal => on_signal g
  end.

Fixpoint guards (path : string) (once : bool) (g : monitor) (l : list event) : option monitor :=
  match l with
  | [] => Some g
  | v :: l => g ← guard path once g v; guards path once g l
  end.

(** Answers that can come: [accept] gives a descriptor only on an open socket,
    and another one than the socket's; a read of the flag gives its value. *)
Definition credible (g : monitor) {X} (e : serverE X) : X → bool :=
  match e in serverE X return X → bool with
  | Accept fd => λ a, match a with FdOk c => bool_decide (g_socket g = Opened fd) && negb (c =? fd) | FdErr _ => true end
  | StopRequested => λ stop, Bool.eqb stop (g_stop g)
  | _ => λ _, true
  end.

Fixpoint credibles (path : string) (once : bool) (g : monitor) (l : list event) : bool :=
  match l with
  | [] => true
  | v :: l =>
      match v with Ev e x => credible g e x | Signal => true end &&
      match guard path once g v with Some g => credibles path once g l | None => true end
  end.

(** How the process may end with a status: nothing is left open or published,
    and its file is removed, or could not be, which is a failure. *)
Definition finished (status : Z) (g : monitor) : Prop :=
  (status = 0 ∨ status = 1) ∧ g_client g = None ∧ g_published g = -1 ∧ g_file g ≠ Ours ∧
  (∀ fd, holds fd (g_socket g) = false) ∧ (status = 0 → g_socket g = Closed ∧ g_file g = NotOurs).

(** ** Rules *)

(** An assertion that a signal leaves true. *)
Class Steady (P : monitor → Prop) : Prop := steady g : P g → ∃ g', on_signal g = Some g' ∧ P g'.

Section Keeps.
Context (path : string) (once : bool).
Abbreviation guards := (guards path once).
Abbreviation check := (check path once).
Abbreviation credibles := (credibles path once).

(** Within [n] steps from a state in [P] the events are in order, as long as the
    answers are credible, and a result satisfies [Q]. *)
Definition keeps_for (n : nat) {A} (P : monitor → Prop) (t : server A) (Q : A → monitor → Prop) : Prop :=
  ∀ g m l o, P g → (m <= n)%nat → trace m t l o → credibles g l = true →
    ∃ g', guards g l = Some g' ∧ ∀ a, o = RetF a → Q a g'.

Definition keeps {A} (P : monitor → Prop) (t : server A) (Q : A → monitor → Prop) : Prop := ∀ n, keeps_for n P t Q.

Lemma guards_app g l1 l2 : guards g (l1 ++ l2) = guards g l1 ≫= λ g', guards g' l2.
Proof. revert g. induction l1 as [|v l1 IH]; intros g; [done|]. cbn. destruct (guard path once g v); [apply IH|done]. Qed.

Lemma credibles_app g l1 l2 :
  credibles g (l1 ++ l2) = true →
  credibles g l1 = true ∧ ∀ g', guards g l1 = Some g' → credibles g' l2 = true.
Proof.
  revert g. induction l1 as [|v l1 IH]; intros g; [by split; [|intros ? [= <-]]|]. cbn.
  rewrite !andb_true_iff. intros [Hv Hl]. destruct (guard path once g v) as [g1|]; [|done].
  apply IH in Hl as [H1 H2]. by split.
Qed.

(** A signal before a trace. *)
Lemma keeps_signal {A} (P : monitor → Prop) `{!Steady P} g l (o : itree' serverE A) (Q : A → monitor → Prop) :
  P g → credibles g (Signal :: l) = true →
  (∀ g, P g → credibles g l = true → ∃ g', guards g l = Some g' ∧ ∀ a, o = RetF a → Q a g') →
  ∃ g', guards g (Signal :: l) = Some g' ∧ ∀ a, o = RetF a → Q a g'.
Proof.
  intros Hp Hc Hl. destruct (steady g Hp) as (g1 & Hs & Hp1). cbn in *. rewrite Hs in *. cbn in *. by apply Hl.
Qed.

Lemma keeps_ret {A} (a : A) P `{!Steady P} (Q : A → monitor → Prop) :
  (∀ g, P g → Q a g) → keeps P (mret a) Q.
Proof.
  intros HQ n g m l o Hp _ Hr. remember (mret a : server A) as t eqn:Ht. revert g Hp.
  induction Hr as [t|m t t' l o Ho _ _|m t X e k x l o Ho _ _|m t l o _ IH]; intros g Hp Hc; subst t; try done.
  - exists g. split; [done|]. intros b. cbn. intros [= <-]. by apply HQ.
  - eapply keeps_signal; [done..|]. intros g1 Hp1 Hc1. by apply IH.
Qed.

Lemma keeps_act {X} (e : serverE X) P `{!Steady P} (Q : X → monitor → Prop) `{!∀ x, Steady (Q x)} :
  (∀ g x, P g → credible g e x = true → ∃ g', check g e x = Some g' ∧ Q x g') → keeps P (act e) Q.
Proof.
  intros He n g m l o Hp _ Hr. remember (act e : server X) as t eqn:Ht. revert g Hp.
  induction Hr as [t|m t t' l o Ho _ _|m t Y e' k x l o Ho Hr _|m t l o _ IH]; intros g Hp Hc; subst t.
  - exists g. split; [done|]. intros a. cbn. done.
  - done.
  - cbn in Ho. dependent destruction Ho. cbn in Hc. apply andb_true_iff in Hc as [Hx Hl].
    destruct (He g x Hp Hx) as (g' & Hg & HQ). rewrite Hg in Hl. cbn. rewrite Hg. cbn.
    by apply (keeps_ret x (Q x) Q (λ _ H, H) m g' m l o).
  - eapply keeps_signal; [done..|]. intros g1 Hp1 Hc1. by apply IH.
Qed.

Lemma keeps_bind_for {A B} n (t : server A) (k : A → server B) P R Q :
  keeps_for n P t R → (∀ a, keeps_for n (R a) (k a) Q) → keeps_for n P (t ≫= k) Q.
Proof.
  intros Ht Hk g m l o Hp Hm Hr Hc. apply trace_bind in Hr as [(o' & Hr & Hno)|(n1 & n2 & l1 & l2 & a & Hn & -> & H1 & H2)].
  - destruct (Ht g m l o' Hp Hm Hr Hc) as (g' & Hg & _). exists g'. split; [done|]. intros b ->. by destruct (Hno b).
  - apply credibles_app in Hc as [Hc1 Hc2]. destruct (Ht g n1 l1 (RetF a) Hp ltac:(lia) H1 Hc1) as (g1 & Hg1 & Ha).
    destruct (Hk a g1 n2 l2 o (Ha a eq_refl) ltac:(lia) H2 (Hc2 g1 Hg1)) as (g2 & Hg2 & HQ). exists g2.
    split; [|done]. by rewrite guards_app, Hg1.
Qed.

Lemma keeps_bind {A B} (t : server A) (k : A → server B) P R Q :
  keeps P t R → (∀ a, keeps (R a) (k a) Q) → keeps P (t ≫= k) Q.
Proof. intros Ht Hk n. apply (keeps_bind_for n t k P R); [apply Ht|]. intros a. apply Hk. Qed.

Lemma keeps_weaker {A} (t : server A) (P P' : monitor → Prop) (Q Q' : A → monitor → Prop) :
  (∀ g, P g → P' g) → (∀ a g', Q a g' → Q' a g') → keeps P' t Q → keeps P t Q'.
Proof.
  intros HP HQ Ht n g m l o Hp Hm Hr Hc. destruct (Ht n g m l o (HP g Hp) Hm Hr Hc) as (g' & Hg & Ha).
  exists g'. split; [done|]. auto.
Qed.

Lemma keeps_tau {A} n P `{!Steady P} (t : server A) Q : keeps_for n P t Q → keeps_for (S n) P (go (TauF t)) Q.
Proof.
  intros Ht g m l o Hp Hm Hr. remember (go (TauF t)) as u eqn:Hu. revert g Hp.
  induction Hr as [u|m u u' l o Ho Hr _|m u X e k x l o Ho _ _|m u l o _ IH]; intros g Hp Hc; subst u.
  - exists g. split; [done|]. by intros a.
  - cbn in Ho. injection Ho as <-. by apply (Ht g m); [|lia|..].
  - done.
  - eapply keeps_signal; [done..|]. intros g1 Hp1 Hc1. by apply IH; [lia|..].
Qed.

(** A loop with an invariant. *)
Lemma keeps_iter {I A} (body : I → server (I + A)) (J : I → monitor → Prop) `{!∀ i, Steady (J i)}
    (Q : A → monitor → Prop) `{!∀ a, Steady (Q a)} i :
  (∀ i, keeps (J i) (body i) (λ r, match r with inl j => J j | inr a => Q a end)) → keeps (J i) (ITree.iter body i) Q.
Proof.
  intros Hbody n. revert i. induction (lt_wf n) as [n _ IH]. intros i g m l o Hi Hm Hr.
  apply (trace_observe _ _ (body i ≫= λ r, match r with inl j => go (TauF (ITree.iter body j)) | inr a => mret a end)) in Hr;
    [|done].
  revert g m l o Hi Hm Hr. change (keeps_for n (J i) (body i ≫= λ r,
    match r with inl j => go (TauF (ITree.iter body j)) | inr a => mret a end) Q).
  eapply keeps_bind_for; [apply Hbody|]. intros [j|a]; cbn beta iota.
  - destruct n as [|n]; [|apply keeps_tau; [done|apply IH; lia]].
    intros g m l o Hj Hm Hr Hc. assert (m = 0%nat) as -> by lia. inversion Hr; subst. exists g. split; [done|]. by intros a.
  - by apply keeps_ret.
Qed.

(** The usual step: a call, then the rest. *)
Lemma keeps_call {X B} (R : X → monitor → Prop) (e : serverE X) (k : X → server B) P `{!Steady P} `{!∀ x, Steady (R x)} Q :
  (∀ g x, P g → credible g e x = true → ∃ g', check g e x = Some g' ∧ R x g') → (∀ x, keeps (R x) (k x) Q) →
  keeps P (x ← act e; k x) Q.
Proof. intros He Hk. apply (keeps_bind _ _ _ R); [by apply keeps_act|exact Hk]. Qed.

(** A call that leaves the assertion true. *)
Lemma keeps_skip {X B} (e : serverE X) (k : X → server B) P `{!Steady P} Q :
  (∀ g x, check g e x = Some g) → (∀ x, keeps P (k x) Q) → keeps P (x ← act e; k x) Q.
Proof. intros He Hk. apply (keeps_call (λ _, P)); [done|apply _| |done]. intros g x Hp _. by exists g. Qed.
End Keeps.

(** ** The process keeps the contract *)

Section Process.
Context (path : string).
Implicit Types (once : bool).

Lemma allow_true (P : Prop) `{Decision P} g : P → allow P g = Some g.
Proof. intros HP. unfold allow. by rewrite decide_True. Qed.

(** Before the socket is published; while it is, with a client or not, and
    whether an [accept] may have failed since the handler closed it; once no
    more clients are accepted; and after the socket was withdrawn. *)
Definition before (f : file_state) (k : socket_state) (p l : bool) (g : monitor) : Prop :=
  ∃ stop, g = Build_monitor f k p l (-1) None 0 stop false.
Definition live (fd : Z) (refused : bool) (c : option (Z * bool)) (n : nat) (g : monitor) : Prop :=
  ∃ k stop, (k = Opened fd ∨ ∃ r, k = Hung fd r ∧ stop = true ∧ (r = true → refused = true)) ∧
    fst <$> c ≠ Some fd ∧ g = Build_monitor Ours k true true fd c n stop false.
Definition over (fd : Z) (g : monitor) : Prop :=
  ∃ k n stop quit, holds fd k = true ∧ g = Build_monitor Ours k true true fd None n stop quit.
Definition withdrawn (f : file_state) (fd : Z) (g : monitor) : Prop :=
  ∃ k p l n stop quit, holds fd k = true ∧ g = Build_monitor f k p l (-1) None n stop quit.
Definition leaving (f : file_state) (g : monitor) : Prop :=
  ∃ p l n stop quit, g = Build_monitor f Closed p l (-1) None n stop quit.

#[local] Instance before_steady f k p l : Steady (before f k p l).
Proof. intros g (stop & ->). eexists. split; [reflexivity|]. by exists true. Qed.

Lemma holds_hung fd k : holds fd k = true → holds fd (match k with Opened fd => Hung fd false | _ => k end) = true.
Proof. by destruct k. Qed.

(** The handler closes the published socket. *)
Lemma signal_published f k p l fd c n stop quit :
  holds fd k = true → fst <$> c ≠ Some fd →
  ∃ k', holds fd k' = true ∧ (k = k' ∨ k = Opened fd ∧ k' = Hung fd false) ∧
    on_signal (Build_monitor f k p l fd c n stop quit) = Some (Build_monitor f k' p l fd c n true quit).
Proof.
  intros Hk Hc. unfold on_signal, handle_stop_signal. cbn [g_published].
  destruct (0 <=? fd); [|by exists k; split; [|split; [left|]]].
  rewrite allow_true by done. cbn [g_socket]. destruct k as [|fd'|fd' r|]; try done; cbn in Hk; apply Z.eqb_eq in Hk as <-.
  - exists (Hung fd false). cbn. rewrite Z.eqb_refl. split; [done|]. split; [by right|done].
  - exists (Hung fd r). cbn. rewrite Z.eqb_refl. split; [done|]. split; [by left|done].
Qed.

#[local] Instance live_steady fd refused c n : Steady (live fd refused c n).
Proof.
  intros g (k & stop & Hk & Hc & ->).
  assert (holds fd k = true) as Hh by (destruct Hk as [->|(r & -> & _)]; cbn; lia).
  destruct (signal_published Ours k true true fd c n stop false Hh Hc) as (k' & _ & Hk' & Hs).
  eexists. split; [exact Hs|]. exists k', true. split; [|done]. destruct Hk' as [<-|[-> ->]]; [|right; by exists false].
  destruct Hk as [->|(r & -> & _ & Hr)]; [by left|right; by exists r].
Qed.

#[local] Instance over_steady fd : Steady (over fd).
Proof.
  intros g (k & n & stop & quit & Hk & ->).
  destruct (signal_published Ours k true true fd None n stop quit Hk ltac:(done)) as (k' & Hh & _ & Hs).
  eexists. split; [exact Hs|]. by exists k', n, true, quit.
Qed.

#[local] Instance withdrawn_steady f fd : Steady (withdrawn f fd).
Proof.
  intros g (k & p & l & n & stop & quit & Hk & ->). eexists. split; [reflexivity|]. by exists k, p, l, n, true, quit.
Qed.

#[local] Instance leaving_steady f : Steady (leaving f).
Proof. intros g (p & l & n & stop & quit & ->). eexists. split; [reflexivity|]. by exists p, l, n, true, quit. Qed.

#[local] Instance finished_steady s : Steady (finished s).
Proof.
  intros g (Hs & Hc & Hp & Hf & Hk & H0). exists (set_flags true (g_quit g) g). split; [|done].
  unfold on_signal. by rewrite Hp.
Qed.

Lemma live_over fd refused n g : live fd refused None n g → over fd g.
Proof.
  intros (k & stop & Hk & _ & ->). exists k, n, stop, false. split; [|done]. destruct Hk as [->|(r & -> & _)]; cbn; lia.
Qed.

Lemma before_finished k g : (∀ fd, holds fd k = false) → before NotOurs k false false g → finished 1 g.
Proof. intros Hk (stop & ->). split; [by right|]. by repeat split. Qed.

Lemma leaving_finished f s g : f ≠ Ours → s = 1 ∨ s = 0 ∧ f = NotOurs → leaving f g → finished s g.
Proof. intros Hf Hs (p & l & n & stop & quit & ->). split; [lia|]. repeat split; try done. by destruct Hs as [->|[_ ->]]. Qed.

Lemma before_withdrawn f fd p l g : before f (Opened fd) p l g → withdrawn f fd g.
Proof. intros (stop & ->). exists (Opened fd), p, l, 0%nat, stop, false. split; [by apply Z.eqb_refl|done]. Qed.

Section Steps.
Context (once : bool).
Abbreviation keeps := (keeps path once).

(** A message, then the end with status 1. *)
Lemma keeps_fail P `{!Steady P} (l : line Empty_set) :
  (∀ g, P g → finished 1 g) → keeps P (_ ← act (Emit l); mret 1) finished.
Proof. intros HP. apply keeps_skip; [done|done|]. intros []. by apply keeps_ret. Qed.

(** Closing a socket that the handler does not know, and removing its file. *)
Lemma keeps_close {A} f fd (k : Z → server A) Q :
  (∀ x, keeps (leaving f) (k x) Q) → keeps (withdrawn f fd) (x ← act (CloseFd fd); k x) Q.
Proof.
  intros Hk. apply (keeps_call _ _ (λ _, leaving f)); [apply _..| |exact Hk].
  intros g x (k0 & p & l & n & stop & quit & Hh & ->) _. eexists. split; [by apply allow_true|]. by exists p, l, n, stop, quit.
Qed.

Definition removed (ok : bool) : file_state := if ok then NotOurs else Stuck.

Lemma keeps_unlink {A} (k : bool → server A) Q :
  (∀ ok, keeps (leaving (removed ok)) (k ok) Q) → keeps (leaving Ours) (x ← act (Unlink path); k x) Q.
Proof.
  intros Hk. apply (keeps_call _ _ (λ ok, leaving (removed ok))); [apply _..| |exact Hk].
  intros g x (p & l & n & stop & quit & ->) _. eexists. split; [by apply allow_true|]. by exists p, l, n, stop, quit.
Qed.

Lemma removed_finished ok g : leaving (removed ok) g → finished 1 g.
Proof. apply leaving_finished; [by destruct ok|by left]. Qed.

Lemma keeps_withdraw {A} fd (k : () → server A) Q :
  (∀ x, keeps (withdrawn Ours fd) (k x) Q) → keeps (over fd) (x ← act (Publish (-1)); k x) Q.
Proof.
  intros Hk. apply (keeps_call _ _ (λ _, withdrawn Ours fd)); [apply _..| |exact Hk].
  intros g x (k0 & n & stop & quit & Hh & ->) _. eexists. split; [apply allow_true; by left|].
  by exists k0, true, true, n, stop, quit.
Qed.

Lemma accept_failed_keeps fd : keeps (over fd) (accept_failed fd path) (λ r g, r = Some 1 ∧ finished 1 g).
Proof.
  apply keeps_withdraw. intros _. apply keeps_close. intros _. apply keeps_unlink. intros ok. apply keeps_ret; [apply _|].
  intros g Hg. split; [done|]. by eapply removed_finished.
Qed.

Lemma shut_down_keeps fd : keeps (over fd) (shut_down fd path) finished.
Proof.
  apply keeps_withdraw. intros _. apply keeps_close. intros errno. destruct (_ && _).
  - apply keeps_skip; [apply _|done|]. intros _. apply keeps_unlink. intros ok. apply keeps_ret; [apply _|apply removed_finished].
  - apply keeps_unlink. intros [|]; cbn [negb removed].
    + apply keeps_skip; [apply _|done|]. intros _. apply keeps_ret; [apply _|]. intros g. apply leaving_finished; [done|by right].
    + apply keeps_fail; [apply _|]. intros g. apply leaving_finished; [done|by left].
Qed.

(** ** The accept loop *)

(** Before a round; and what a round leaves. *)
Definition ready (fd : Z) (g : monitor) : Prop := ∃ n, live fd false None n g ∧ (once = true → n = 0%nat).
Definition round_post (fd : Z) (r : option Z) (g : monitor) : Prop :=
  match r with None => over fd g | Some s => finished s g end.

#[local] Instance ready_steady fd : Steady (ready fd).
Proof. intros g (n & Hl & Hn). destruct (steady g Hl) as (g' & Hs & Hl'). exists g'. split; [done|]. by exists n. Qed.

#[local] Instance round_post_steady fd r : Steady (round_post fd r).
Proof. destruct r as [s|]; [apply (finished_steady s)|apply (over_steady fd)]. Qed.

Definition round_result (fd : Z) (r : unit + option Z) : monitor → Prop :=
  match r with inl _ => ready fd | inr r => round_post fd r end.

Lemma fail_round fd : keeps (over fd) (r ← accept_failed fd path; mret (inr r)) (round_result fd).
Proof.
  apply (keeps_bind _ _ _ _ _ (λ r g, r = Some 1 ∧ finished 1 g)); [apply accept_failed_keeps|]. intros r.
  assert (Steady (λ g, r = Some 1 ∧ finished 1 g)) as Hst.
  { intros g [Hr Hf]. destruct (steady g Hf) as (g' & Hs & Hf'). by exists g'. }
  apply keeps_ret; [exact Hst|]. by intros g [-> Hf].
Qed.

(** Reading the stop flag. *)
Lemma keeps_stop {A} fd refused n (k : bool → server A) Q :
  keeps (over fd) (k true) Q → keeps (live fd false None n) (k false) Q →
  keeps (live fd refused None n) (x ← act StopRequested; k x) Q.
Proof.
  intros Hstop Hgo. apply (keeps_call _ _ (λ stop : bool, if stop then over fd else live fd false None n)).
  - apply _.
  - intros []; apply _.
  - intros g x (k0 & stop & Hk & Hc & ->) Hx. cbn in Hx. apply Bool.eqb_prop in Hx as ->. eexists. split; [reflexivity|].
    destruct stop; cbn.
    + exists k0, n, true, true. split; [|done]. destruct Hk as [->|(r & -> & _)]; cbn; lia.
    + exists k0, false. split_and!; [|done|done]. destruct Hk as [->|(r & _ & [=] & _)]. by left.
  - by intros [].
Qed.

Lemma round_ready fd n : n = 0%nat ∨ once = false → keeps (live fd false None n) (mret (inl tt)) (round_result fd).
Proof. intros Hn. apply keeps_ret; [apply _|]. intros g Hg. exists n. split; [done|]. by destruct Hn as [->| ->]. Qed.

Lemma round_over fd n : keeps (live fd false None n) (mret (inr None)) (round_result fd).
Proof. apply keeps_ret; [apply _|]. intros g. apply live_over. Qed.

Lemma round_break fd : keeps (over fd) (mret (inr None)) (round_result fd).
Proof. by apply keeps_ret; [apply _|]. Qed.

Lemma keeps_once {A} P (t1 t2 : server A) Q :
  (once = true → keeps P t1 Q) → (once = false → keeps P t2 Q) → keeps P (if once then t1 else t2) Q.
Proof. intros H1 H2. destruct once; auto. Qed.

(** A client: served once and closed. *)
Lemma client_keeps fd c n :
  (once = true → n = 0%nat) →
  keeps (live fd false (Some (c, false)) n)
    (result ← act (Serve c);
     _ ← act (CloseFd c);
     if negb (result =? 0) then
       _ ← err "WARN: client request failed; daemon remains available\n" [];
       if once then r ← accept_failed fd path; mret (inr r)
       else stop ← act StopRequested; if stop : bool then mret (inr None) else mret (inl tt)
     else if once then mret (inr None) else mret (inl tt)) (round_result fd).
Proof.
  intros Hn. apply (keeps_call _ _ (λ _, live fd false (Some (c, true)) (S n))); [apply _..| |].
  { intros g x (k & stop & Hk & Hc & ->) _. eexists. split; [by apply allow_true|]. by exists k, stop. }
  intros result. apply (keeps_call _ _ (λ _, live fd false None (S n))); [apply _..| |].
  { intros g x (k & stop & Hk & Hc & ->) _. eexists. split; [by apply allow_true|]. by exists k, stop. }
  intros _. destruct (negb (result =? 0)).
  - apply keeps_skip; [apply _|done|]. intros _. apply keeps_once; intros Honce.
    + eapply keeps_weaker; [apply live_over|by intros ? ? H; exact H|]. apply fail_round.
    + apply keeps_stop; [apply round_break|]. apply round_ready. by right.
  - apply keeps_once; intros Honce; [apply round_over|]. apply round_ready. by right.
Qed.

Lemma accept_round_keeps fd u : keeps (ready fd) (accept_round fd path once u) (round_result fd).
Proof.
  intros n g m l o (served & Hl & Hserved). revert n g m l o Hl.
  change (keeps (live fd false None served) (accept_round fd path once u) (round_result fd)). unfold accept_round.
  apply (keeps_call _ _ (λ a, match a with FdOk c => live fd false (Some (c, false)) served | FdErr _ => live fd true None served end)).
  - apply _.
  - intros []; apply _.
  - intros g a (k & stop & Hk & _ & ->) Ha. destruct a as [c|errno].
    + cbn in Ha. apply andb_true_iff in Ha as [Hk'%bool_decide_eq_true Hc]. subst k.
      eexists. split; [apply allow_true; split; [by left|done]|]. exists (Opened fd), stop.
      split; [by left|]. split; [|done]. cbn. intros [= ->]. by rewrite Z.eqb_refl in Hc.
    + eexists. split.
      * apply allow_true. destruct Hk as [->|(r & -> & _ & Hr)]; [split; [by left|done]|].
        destruct r; [by specialize (Hr eq_refl)|]. split; [by right|done].
      * destruct Hk as [->|(r & -> & -> & _)]; cbn.
        -- exists (Opened fd), stop. by split; [left|].
        -- exists (Hung fd true), true. split; [right; by exists true|done].
  - intros [c|errno]; [by apply client_keeps|]. apply keeps_stop; [apply round_break|].
    assert (served = 0%nat ∨ once = false) as Hgo by (destruct once; auto).
    destruct (errno =? EINTR); [by apply round_ready|]. apply keeps_skip; [apply _|done|]. intros _.
    eapply keeps_weaker; [apply live_over|by intros ? ? H; exact H|apply fail_round].
Qed.

Lemma serve_clients_keeps fd :
  keeps (before Ours (Opened fd) true true) (serve_clients fd path once) finished.
Proof.
  unfold serve_clients. apply (keeps_call _ _ (λ _, ready fd)); [apply _..| |].
  { intros g x (stop & ->) _. eexists. split; [apply allow_true; by right|]. exists 0%nat. split; [|done].
    exists (Opened fd), stop. by split; [left|]. }
  intros _. apply keeps_skip; [apply _|done|]. intros _. apply keeps_skip; [apply _|done|]. intros _.
  apply (keeps_bind _ _ _ _ _ (round_post fd)).
  - apply (keeps_iter _ _ _ (λ _, ready fd)); [apply _..|]. intros u. eapply keeps_weaker; [done| |apply accept_round_keeps].
    by intros [|] g.
  - intros [s|]; cbn [round_post]; [by apply keeps_ret; [apply _|]|apply shut_down_keeps].
Qed.

(** ** Opening the socket *)

Lemma open_failed fd p l (m : line Empty_set) :
  keeps (before Ours (Opened fd) p l)
    (_ ← act (Emit m); _ ← act (CloseFd fd); _ ← act (Unlink path); mret 1) finished.
Proof.
  apply keeps_skip; [apply _|done|]. intros _. eapply keeps_weaker; [apply before_withdrawn|by intros ? ? H; exact H|].
  apply keeps_close. intros _. apply keeps_unlink. intros ok. apply keeps_ret; [apply _|apply removed_finished].
Qed.

Lemma open_socket_keeps fd :
  Z.of_nat (String.length path) < SUN_PATH_SIZE →
  keeps (before NotOurs (Opened fd) false false) (open_socket fd path once) finished.
Proof.
  intros Hl. unfold open_socket, copy_path.
  assert ((Z.of_nat (String.length path) + 1 <=? SUN_PATH_SIZE) = true) as -> by lia.
  apply (keeps_bind _ _ _ _ _ (λ _, before NotOurs (Opened fd) false false)); [by apply keeps_ret; [apply _|]|]. intros _.
  apply (keeps_call _ _ (λ ok : bool, before (if ok then Ours else NotOurs) (Opened fd) false false)); [apply _..| |].
  { intros g x (stop & ->) _. eexists. split; [by apply allow_true|]. by exists stop. }
  intros [|]; cbn [negb].
  2: { apply keeps_skip; [apply _|done|]. intros _. eapply keeps_weaker; [apply before_withdrawn|by intros ? ? H; exact H|].
       apply keeps_close. intros _. apply keeps_ret; [apply _|]. intros g. apply leaving_finished; [done|by left]. }
  apply (keeps_call _ _ (λ ok : bool, before Ours (Opened fd) ok false)); [apply _..| |].
  { intros g x (stop & ->) _. eexists. split; [by apply allow_true|]. exists stop. by rewrite andb_true_r. }
  intros [|]; cbn [negb]; [|apply open_failed].
  apply (keeps_call _ _ (λ ok : bool, before Ours (Opened fd) true ok)); [apply _..| |].
  { intros g x (stop & ->) _. eexists. split; [by apply allow_true|]. by exists stop. }
  intros [|]; cbn [negb]; [apply serve_clients_keeps|apply open_failed].
Qed.

(** ** Before the socket *)

(** No socket; the file is not the daemon's, or could not be removed. *)
Definition untouched (f : file_state) : monitor → Prop := before f NoSocket false false.

Lemma untouched_finished f g : f ≠ Ours → untouched f g → finished 1 g.
Proof. intros Hf (stop & ->). split; [by right|]. by repeat split. Qed.

Lemma install_keeps : keeps (untouched NotOurs) install_signal_handlers (λ _, untouched NotOurs).
Proof.
  unfold install_signal_handlers. do 3 (apply keeps_skip; [apply _|done|]; intros []; cbn [negb]; [|by apply keeps_ret; [apply _|]]).
  by apply keeps_ret; [apply _|].
Qed.

(** Success: the stale socket of the daemon's user, if there was one, is gone. *)
Definition prepared (r : Z) (g : monitor) : Prop := ∃ f, untouched f g ∧ f ≠ Ours ∧ (r = 0 → f = NotOurs).

#[local] Instance prepared_steady r : Steady (prepared r).
Proof. intros g (f & Hu & Hf). destruct (steady g Hu) as (g' & Hs & Hu'). exists g'. split; [done|]. by exists f. Qed.

Lemma prepared_ret f r : f ≠ Ours → (r = 0 → f = NotOurs) → keeps (untouched f) (mret r) prepared.
Proof. intros Hf Hr. apply keeps_ret; [apply _|]. intros g Hg. by exists f. Qed.

Lemma refuse_keeps f r (l : line Empty_set) :
  f ≠ Ours → r ≠ 0 → keeps (untouched f) (_ ← act (Emit l); mret r) prepared.
Proof. intros Hf Hr. apply keeps_skip; [apply _|done|]. intros _. by apply prepared_ret. Qed.

Lemma prepare_keeps : keeps (untouched NotOurs) (prepare_socket_path path) prepared.
Proof.
  unfold prepare_socket_path.
  apply (keeps_call _ _ (λ a, untouched (match a with inl (true, owner) => OwnedBy owner | _ => NotOurs end))); [apply _..| |].
  { intros g a (stop & ->) _. eexists. split; [by apply allow_true|]. by exists stop. }
  intros [[[|] owner]|errno]; cbn [negb].
  - apply (keeps_bind _ _ _ _ _ (λ unsafe : bool, if unsafe then untouched NotOurs else untouched Ours)).
    + apply (keeps_call _ _ (λ uid, untouched (if decide (owner = uid) then Ours else NotOurs))); [apply _..| |].
      * intros g uid (stop & ->) _. eexists. split; [reflexivity|]. exists stop. cbn [set_file g_file]. unfold set_file. cbn.
        destruct (decide (owner = uid)) as [->|Hne]; [by rewrite decide_True|by rewrite decide_False by congruence].
      * intros uid. apply keeps_ret; [apply _|]. intros g.
        destruct (Z.eqb_spec owner uid), (decide (owner = uid)); by cbn.
    + intros [|]; [by apply refuse_keeps|].
      apply (keeps_call _ _ (λ ok, untouched (removed ok))); [apply _..| |].
      * intros g ok (stop & ->) _. eexists. split; [by apply allow_true|]. by exists stop.
      * intros [|]; cbn [negb removed]; [by apply prepared_ret|by apply refuse_keeps].
  - apply (keeps_bind _ _ _ _ _ (λ unsafe g, unsafe = true ∧ untouched NotOurs g)).
    + by apply keeps_ret; [apply _|].
    + intros unsafe n g m l o [-> Hu]. revert n g m l o Hu. by apply refuse_keeps.
  - destruct (negb _); [by apply refuse_keeps|by apply prepared_ret].
Qed.

Lemma start_keeps : keeps (untouched NotOurs) (start path once) finished.
Proof.
  unfold start. destruct (Z.leb_spec SUN_PATH_SIZE (Z.of_nat (String.length path))) as [|Hl].
  { apply keeps_fail; [apply _|]. intros g. by apply untouched_finished. }
  apply keeps_skip; [apply _|done|]. intros _. apply (keeps_bind _ _ _ _ _ (λ _, untouched NotOurs)); [apply install_keeps|].
  intros r. destruct (negb (r =? 0)); [apply keeps_fail; [apply _|]; intros g; by apply untouched_finished|].
  apply (keeps_bind _ _ _ _ _ prepared); [apply prepare_keeps|]. intros p. destruct (Z.eqb_spec p 0) as [->|]; cbn [negb].
  2: { apply keeps_ret; [apply _|]. intros g (f & Hu & Hf & _). by eapply untouched_finished. }
  eapply (keeps_weaker _ _ _ _ (untouched NotOurs)); [|by intros ? ? H; exact H|].
  { intros g (f & Hu & _ & Hf). by rewrite Hf in Hu. }
  apply (keeps_call _ _ (λ fd, before NotOurs (if fd <? 0 then NoSocket else Opened fd) false false)); [apply _..| |].
  { intros g fd (stop & ->) _. eexists. split; [by apply allow_true|]. by exists stop. }
  intros fd. destruct (fd <? 0); [apply keeps_fail; [apply _|]; intros g; by apply untouched_finished|by apply open_socket_keeps].
Qed.
End Steps.
End Process.

(** The path and the mode a command line asks for. *)
Definition path_of (argv : list string) : string := default ""%string (argv !! 1%nat).
Definition once_of (argv : list string) : bool := (length argv =? 3)%nat.

Lemma main_keeps name argv : keeps (path_of argv) (once_of argv) (untouched NotOurs) (main name argv) finished.
Proof.
  assert (Steady (untouched NotOurs)) as Hst by apply before_steady.
  assert (∀ l, keeps (path_of argv) (once_of argv) (untouched NotOurs) (_ ← act (Emit l); mret 1) finished) as Hshow.
  { intros l. apply keeps_fail; [done|]. intros g. by apply untouched_finished. }
  unfold main, err, say. destruct (_ && _) eqn:Hlen; [apply Hshow|].
  destruct argv as [|option [|path rest]]; [apply keeps_ret; [done|]; intros g; by apply untouched_finished..|].
  destruct (negb (option =? "--socket")%string); [apply Hshow|].
  destruct rest as [|flag rest]; [apply start_keeps|].
  destruct (negb (flag =? "--once")%string); [apply Hshow|].
  assert (once_of (option :: path :: flag :: rest) = true) as ->; [|apply start_keeps].
  unfold once_of. cbn in *. lia.
Qed.

(** ** Properties *)

(** C6 (the daemon's process): in every trace of the daemon, whenever signals
    arrive and whatever the calls answer, except that [accept] succeeds on an open
    socket only and with a new descriptor, and that the stop flag reads as the
    handler left it, every call keeps the contract: only a socket of the daemon's
    user or the one it bound is removed; connections are accepted only once the
    bound socket is private, listening and known to the handler, and while the
    stop flag was not seen; each client is served once and closed before the next
    one, and only one with [--once]; no path overruns its buffer. A signal sets
    the flag and closes the published socket, never another descriptor; after
    that [accept] is called on it at most once, and fails. When the process ends,
    the socket is closed and withdrawn from the handler; its file is removed when
    the status is 0, and otherwise removed unless the removal itself failed. *)
Theorem server_keeps_contract (name : string) (argv : list string) n l o :
  trace n (main name argv) l o → credibles (path_of argv) (once_of argv) initial l = true →
  ∃ g, guards (path_of argv) (once_of argv) initial l = Some g ∧ ∀ s, o = RetF s → finished s g.
Proof. intros Hr. apply (main_keeps name argv n initial n); [by exists false|done|done]. Qed.

(** A client served with [--once]; a signal arrives while it is. *)
Definition once_trace : list event := [
  Ev (Umask 63) 18; Ev (Sigaction SIGINT) true; Ev (Sigaction SIGTERM) true; Ev (Sigaction SIGPIPE) true;
  Ev (Lstat "/run/q") (inl (true, 1000)); Ev Getuid 1000; Ev (Unlink "/run/q") true; Ev Listener 3;
  Ev (Bind 3 "/run/q") true; Ev (Chmod "/run/q" 384) true; Ev (Listen 3 4) true; Ev (Publish 3) tt;
  Ev (Emit (Out (Print "PASS: QCPUD_SOCKET_READY path=%s\n" [AStr "/run/q"]))) tt;
  Ev (Emit (Out (Print "DEVICE=qcpu0 TYPE=SOFTWARE_VIRTUAL_QCPU PHYSICAL_QPU_PRESENT=NO\n" []))) tt;
  Ev (Accept 3) (FdOk 4); Signal; Ev (Serve 4) 0; Ev (CloseFd 4) 0; Ev (Publish (-1)) tt; Ev (CloseFd 3) EBADF;
  Ev (Unlink "/run/q") true; Ev (Emit (Out (Print "PASS: QCPUD_CLEAN_SHUTDOWN\n" []))) tt]%string.

Ltac follow := repeat first [eapply trace_vis; [vm_compute; reflexivity|]|apply trace_signal].

Lemma once_trace_of : trace 22 (main "qcpud" ["--socket"; "/run/q"; "--once"]%string) once_trace (RetF 0).
Proof. unfold once_trace. follow. by eapply trace_observe; [|apply trace_ret]. Qed.

Lemma once_trace_credible : credibles "/run/q" true initial once_trace = true.
Proof. vm_compute. reflexivity. Qed.

Lemma once_trace_guards :
  guards "/run/q" true initial once_trace = Some (Build_monitor NotOurs Closed true true (-1) None 1 true false).
Proof. vm_compute. reflexivity. Qed.

Lemma server_keeps_contract_witness :
  ∃ g, guards "/run/q" true initial once_trace = Some g ∧ finished 0 g ∧ g_served g = 1%nat ∧ g_stop g = true.
Proof.
  destruct (server_keeps_contract "qcpud" ["--socket"; "/run/q"; "--once"]%string 22 once_trace (RetF 0) once_trace_of
    once_trace_credible) as (g & Hg & Hf).
  exists g. split; [exact Hg|]. split; [by apply Hf|]. change (guards "/run/q" true initial once_trace = Some g) in Hg.
  rewrite once_trace_guards in Hg. injection Hg as <-. split; reflexivity.
Defined.

(** The events that read the flag, and that tell the handler a descriptor. *)
Definition reads_flag (v : event) : bool :=
  match v with Ev e _ => match e with StopRequested => true | _ => false end | Signal => false end.
Definition publishes (v : event) : bool :=
  match v with Ev e _ => match e with Publish fd => 0 <=? fd | _ => false end | Signal => false end.

(** C38 (a stop request before the socket is ready is not seen): when a signal
    arrives after the handler is installed and before it knows the socket, it
    only sets the flag; the daemon goes on, without looking at the flag, to wait
    for a client on the open socket. *)
Theorem early_stop_lost (name path : string) (fd : Z) :
  Z.of_nat (String.length path) < SUN_PATH_SIZE → 0 <= fd →
  ∃ n l1 l2 k,
    trace n (main name ["--socket"%string; path]) (l1 ++ Signal :: l2) (VisF (Accept fd) k) ∧
    Ev (Sigaction SIGTERM) true ∈ l1 ∧ Forall (λ v, publishes v = false) l1 ∧
    Forall (λ v, reads_flag v = false) (l1 ++ l2) ∧ Ev (Publish fd) tt ∈ l2 ∧
    ∃ g, guards path false initial (l1 ++ Signal :: l2) = Some g ∧ g_socket g = Opened fd ∧ g_stop g = true.
Proof.
  intros Hl Hfd.
  set (l1 := [Ev (Umask 63) 0; Ev (Sigaction SIGINT) true; Ev (Sigaction SIGTERM) true; Ev (Sigaction SIGPIPE) true]).
  set (l2 := [Ev (Lstat path) (inr ENOENT); Ev Listener fd; Ev (Bind fd path) true; Ev (Chmod path 384) true;
    Ev (Listen fd 4) true; Ev (Publish fd) tt;
    Ev (Emit (Out (Print "PASS: QCPUD_SOCKET_READY path=%s\n" [AStr path]))) tt;
    Ev (Emit (Out (Print "DEVICE=qcpu0 TYPE=SOFTWARE_VIRTUAL_QCPU PHYSICAL_QPU_PRESENT=NO\n" []))) tt]).
  assert (∃ k, trace 13 (main name ["--socket"%string; path]) (l1 ++ Signal :: l2) (VisF (Accept fd) k)) as (k & Hr).
  { eexists. subst l1 l2. apply (trace_observe _ (start path false)); [done|]. unfold start.
    destruct (Z.leb_spec SUN_PATH_SIZE (Z.of_nat (String.length path))); [lia|]. apply trace_act.
    apply (trace_seq 3 9 _ _ [_; _; _] (Signal :: _) 0); [do 3 apply trace_act; apply trace_ret|].
    apply trace_signal. apply (trace_seq 1 7 _ _ [_] _ 0); [apply trace_act; apply trace_ret|].
    apply trace_act. destruct (Z.ltb_spec fd 0); [lia|]. unfold open_socket, copy_path.
    destruct (Z.leb_spec (Z.of_nat (String.length path) + 1) SUN_PATH_SIZE); [|lia].
    apply (trace_seq 0 6 _ _ [] _ tt); [apply trace_ret|]. do 6 apply trace_act.
    apply trace_stop. vm_compute. reflexivity. }
  exists 13%nat, l1, l2, k. split; [exact Hr|]. split; [by repeat constructor|]. split; [by repeat constructor|].
  split; [by repeat constructor|]. split; [by repeat constructor|].
  assert ((fd <? 0) = false ∧ (fd =? -1) = false) as [Hf1 Hf2] by lia.
  exists (Build_monitor Ours (Opened fd) true true fd None 0 true false). split; [|done]. subst l1 l2.
  cbn [app guards guard check].
  repeat first [ rewrite Hf1 | rewrite Hf2 | rewrite allow_true by (by repeat split; auto) | progress cbn ]. done.
Qed.

Lemma early_stop_lost_witness :
  ∃ n l1 l2 k,
    trace n (main "qcpud" ["--socket"; "/run/q"]%string) (l1 ++ Signal :: l2) (VisF (Accept 3) k) ∧
    Ev (Sigaction SIGTERM) true ∈ l1 ∧ Forall (λ v, publishes v = false) l1 ∧
    Forall (λ v, reads_flag v = false) (l1 ++ l2) ∧ Ev (Publish 3) tt ∈ l2 ∧
    ∃ g, guards "/run/q" false initial (l1 ++ Signal :: l2) = Some g ∧ g_socket g = Opened 3 ∧ g_stop g = true.
Proof. apply (early_stop_lost "qcpud" "/run/q" 3); [reflexivity|lia]. Defined.
