(* ===== verification/Drag.v ===== *)
(** * The DRAG stub

    [src/drag.c]: prints what the [say] lines of a file say. What it does to a
    quoted text with its newline, without one, and to a line that is too short. *)

From Stdlib Require Import ZArith Lia ZifyBool Ascii String.
From stdpp Require Import base list numbers strings.
From S2P Require Import Prelude.
From S2P Require Import Outcome.
From S2P Require Import CString.
From S2P Require Import Console.
From S2P Require Import QCircuit.
From S2P Require Import QCircuitText.
Open Scope Z_scope.

Section Drag.
Context {F : Type}.

(** One line of the file. A subscript below the start of the text is undefined. *)
Definition drag_line (line : string) : console F unit :=
  if String.prefix "say " line then
    let msg := str_drop 4 line in
    if (head_char msg =? QUOTE)%char then
      let msg := str_drop 1 msg in
      if (String.length msg <? 2)%nat then Undef
      else printf "%s\n" [AStr (str_take (String.length msg - 2) msg)]
    else printf "%s\n" [AStr msg]
  else mret tt.

(** Every round reads a character, so the length of the text is fuel enough. *)
Fixpoint drag_lines (fuel : nat) (text : string) : console F unit :=
  match text with
  | EmptyString => mret tt
  | _ =>
      match fuel with
      | O => NoFuel
      | S fuel =>
          let '(line, rest) := fgets 255 text in
          _ ← drag_line (c_string line);
          drag_lines fuel rest
      end
  end.

(** [argv] without the program's name. *)
Definition drag_main (argv : list string) (fopen : string → option string) : console F Z :=
  match argv with
  | [] =>
      _ ← printf "DRAG Language v0.1\n" [];
      _ ← printf "Usage: drag <file.drag>\n" [];
      mret 0
  | arg :: _ =>
      match fopen arg with
      | None => _ ← printf "Error: Cannot open %s\n" [AStr arg]; mret 1
      | Some text => _ ← drag_lines (String.length text) text; mret 0
      end
  end.

(** ** Properties *)

(** A quoted text, in the middle of a file or at its end. *)
Definition quoted (s : string) : string := ("say " +:+ String QUOTE s +:+ String QUOTE EmptyString)%string.

(** What a text on one line may be. *)
Definition sayable (s : string) : Prop :=
  (String.length s <= 200)%nat ∧
  str_forall (λ c, negb (c =? NEWLINE)%char) s = true ∧ str_forall (λ c, negb (c =? NUL)%char) s = true.

Lemma str_take_app n s t : n = String.length s → str_take n (s +:+ t) = s.
Proof.
  intros ->. induction s as [|c s IH]; [by destruct t|]. cbn [String.length].
  change (String c s +:+ t) with (String c (s +:+ t)). cbn [str_take]. by rewrite IH.
Qed.

Lemma str_forall_app p s t : str_forall p (s +:+ t) = str_forall p s && str_forall p t.
Proof.
  induction s as [|c s IH]; [done|]. change (String c s +:+ t) with (String c (s +:+ t)). cbn [str_forall].
  by rewrite IH, andb_assoc.
Qed.

(** The line of a quoted text that ends with [t] prints its text up to two
    characters before the end. *)
Lemma drag_quoted s t :
  (2 <= String.length (s +:+ t))%nat →
  gives (drag_line ("say " +:+ String QUOTE (s +:+ t)))
    [Out (Print "%s\n" [AStr (str_take (String.length (s +:+ t) - 2) (s +:+ t))])] tt.
Proof.
  intros Hl. set (m := (s +:+ t)%string) in *. unfold drag_line.
  assert (String.prefix "say " ("say " +:+ String QUOTE m) = true) as -> by (by destruct m).
  change (str_drop 4 ("say " +:+ String QUOTE m)) with (String QUOTE m).
  change (head_char (String QUOTE m) =? QUOTE)%char with true. cbv iota zeta.
  change (str_drop 1 (String QUOTE m)) with m. by rewrite (proj2 (Nat.ltb_ge _ _) Hl).
Qed.

(** The end of a line after the text. *)
Definition close_line : string := String QUOTE (String NEWLINE EmptyString).

Lemma quoted_line s : ends_line (quoted s) = ("say " +:+ String QUOTE (s +:+ close_line))%string.
Proof. unfold ends_line, quoted, close_line. by rewrite !append_assoc. Qed.

Lemma quoted_ok s :
  sayable s → str_forall (λ c, negb (c =? NEWLINE)%char) (quoted s) = true ∧ c_string (ends_line (quoted s)) = ends_line (quoted s) ∧
    (String.length (quoted s) < 255)%nat.
Proof.
  intros (Hlen & Hnl & Hnul). split; [|split].
  - unfold quoted. rewrite !str_forall_app. cbn [str_forall]. by rewrite Hnl.
  - apply c_string_id. rewrite quoted_line, !str_forall_app. cbn [str_forall]. by rewrite str_forall_app, Hnul.
  - unfold quoted. rewrite !length_append. cbn [String.length]. lia.
Qed.

Lemma drag_line_quoted s : gives (drag_line (ends_line (quoted s))) [Out (Print "%s\n" [AStr s])] tt.
Proof.
  rewrite quoted_line. assert (String.length (s +:+ close_line) = String.length s + 2)%nat as Hl by apply length_append.
  pose proof (drag_quoted s close_line ltac:(lia)) as Hd. rewrite Hl in Hd.
  by rewrite (str_take_app _ s close_line) in Hd by lia.
Qed.

(** A file of quoted texts, each on a line. *)
Definition drag_text (says : list string) : string :=
  foldr (λ s rest, ends_line (quoted s) +:+ rest)%string EmptyString says.

Lemma drag_lines_text says fuel :
  Forall sayable says → (String.length (drag_text says) <= fuel)%nat →
  gives (drag_lines fuel (drag_text says)) ((λ s, Out (Print "%s\n" [AStr s])) <$> says) tt.
Proof.
  intros Hs. revert fuel. induction Hs as [|s says Hsay _ IH]; intros fuel Hf; [by destruct fuel|].
  destruct (quoted_ok s Hsay) as (Hnl & Hc & Hlen).
  change (drag_text (s :: says)) with (ends_line (quoted s) +:+ drag_text says)%string in *.
  rewrite length_append in Hf. destruct fuel as [|fuel]; [simpl in Hf; lia|].
  assert (drag_lines (S fuel) (ends_line (quoted s) +:+ drag_text says) =
    (let '(line, rest) := fgets 255 (ends_line (quoted s) +:+ drag_text says) in
     _ ← drag_line (c_string line); drag_lines fuel rest)) as -> by done.
  rewrite fgets_line, Hc by done.
  rewrite fmap_cons. change (?x :: ?l) with ([x] ++ l).
  eapply gives_bind; [apply drag_line_quoted|].
  apply IH. simpl in Hf. lia.
Qed.

(** The stub prints exactly the quoted texts of its file, in order, when each is
    on a line of its own that ends with a newline. *)
Theorem drag_says (arg : string) (argv : list string) (fopen : string → option string) (says : list string) :
  Forall sayable says → fopen arg = Some (drag_text says) →
  gives (drag_main (arg :: argv) fopen) ((λ s, Out (Print "%s\n" [AStr s])) <$> says) 0.
Proof.
  intros Hs Hfile. unfold drag_main. rewrite Hfile. rewrite <-(app_nil_r (_ <$> says)).
  apply (gives_bind _ _ _ tt []); [|done]. by apply drag_lines_text.
Qed.

(** A quoted text on a last line without a newline loses its last character,
    and a line that is only an opening quote is undefined. *)
Theorem drag_last_line (s : string) (c : ascii) :
  gives (drag_line (quoted (s +:+ String c EmptyString))) [Out (Print "%s\n" [AStr s])] tt ∧
  drag_line ("say " +:+ String QUOTE (ends_line EmptyString)) = Undef.
Proof.
  split; [|done]. set (t := String c (String QUOTE EmptyString)).
  assert (String.length (s +:+ t) = String.length s + 2)%nat as Hl by apply length_append.
  pose proof (drag_quoted s t ltac:(lia)) as Hd. rewrite Hl, (str_take_app _ s t) in Hd by lia.
  assert (quoted (s +:+ String c EmptyString) = ("say " +:+ String QUOTE (s +:+ t))%string) as ->; [|done].
  unfold quoted, t. change (String QUOTE (s +:+ String c EmptyString)) with (String QUOTE s +:+ String c EmptyString)%string.
  by rewrite !append_assoc.
Qed.
End Drag.
