(* ===== verification/Interp.v ===== *)
(** * The tree interpreter

    [src/vm/interpreter.c]: a second way to run a program, on the tree itself.
    Its tables are the record [istate]; [None] is undefined behaviour: a table
    without room or a name too long (neither is checked), a missing operand, a
    repeat count out of range. [rand] and [atof] are as for the byte VM. *)

From Stdlib Require Import ZArith Lia ZifyBool Ascii String.
From stdpp Require Import base list numbers strings.
From S2P Require Import Prelude.
From S2P Require Import Float64.
From S2P Require Import Outcome.
From S2P Require Import CString.
From S2P Require Import Lexer.
From S2P Require Import Syntax.
From S2P Require Import Parser.
From S2P Require Import ByteVM.
Open Scope Z_scope.

Definition MAX_VARS : nat := 64.
Definition MAX_QBITS : nat := 32.
(** The size of a name. *)
Definition NAME_BYTES : nat := 64.

Record Qbit (F : Type) := { i_name : string; i_a : F; i_b : F; i_measured : bool; i_result : Z }.
Arguments Build_Qbit {F}.
Arguments i_name {F}.
Arguments i_a {F}.
Arguments i_b {F}.
Arguments i_measured {F}.
Arguments i_result {F}.

Record istate (F : Type) := {
  i_vars : list (string * F);
  i_qbits : list (Qbit F);
  i_rands : nat;
  i_out : list (output F)
}.
Arguments Build_istate {F}.
Arguments i_vars {F}.
Arguments i_qbits {F}.
Arguments i_rands {F}.
Arguments i_out {F}.

Section Interp.
Context {F : Type} `{FloatOps F} (rand : nat → Z) (atof : string → F).
Abbreviation state := (istate F).
Abbreviation qbit := (Qbit F).

Definition i_print (o : output F) (s : state) : state :=
  Build_istate (i_vars s) (i_qbits s) (i_rands s) (i_out s ++ [o]).
Definition i_with_vars (vs : list (string * F)) (s : state) : state :=
  Build_istate vs (i_qbits s) (i_rands s) (i_out s).
Definition i_with_qbits (qs : list qbit) (s : state) : state :=
  Build_istate (i_vars s) qs (i_rands s) (i_out s).

(** ** Tables *)

Fixpoint get_var (n : string) (vs : list (string * F)) : F :=
  match vs with
  | [] => f_zero
  | (name, x) :: vs => if (name =? n)%string then x else get_var n vs
  end.

(** The position of a variable. *)
Fixpoint var_index (n : string) (vs : list (string * F)) : option nat :=
  match vs with
  | [] => None
  | (name, _) :: vs => if (name =? n)%string then Some 0%nat else S <$> var_index n vs
  end.

Definition i_set_var (n : string) (v : F) (s : state) : option state :=
  match var_index n (i_vars s) with
  | Some i => Some (i_with_vars (<[i := (n, v)]> (i_vars s)) s)
  | None =>
      if (length (i_vars s) <? MAX_VARS)%nat && (String.length n <? NAME_BYTES)%nat
      then Some (i_with_vars (i_vars s ++ [(n, v)]) s) else None
  end.

Fixpoint get_qbit (n : string) (qs : list qbit) : option nat :=
  match qs with
  | [] => None
  | q :: qs => if (i_name q =? n)%string then Some 0%nat else S <$> get_qbit n qs
  end.

(** The amplitudes of a named state; both zero when the name is unknown. *)
Definition i_state_amps (state : string) : F * F :=
  if (state =? "|0>")%string then (f_one, f_zero)
  else if (state =? "|1>")%string then (f_zero, f_one)
  else if (state =? "|+>")%string then (inv_sqrt2, inv_sqrt2)
  else if (state =? "|->")%string then (inv_sqrt2, f_div (f_of_Z (-1)) (f_sqrt (f_of_Z 2)))
  else (f_zero, f_zero).

(** Always a new entry. *)
Definition i_create_qbit (n st : string) (s : state) : option state :=
  let '(a, b) := i_state_amps st in
  if (length (i_qbits s) <? MAX_QBITS)%nat && (String.length n <? NAME_BYTES)%nat
  then Some (i_with_qbits (i_qbits s ++ [Build_Qbit n a b false 0]) s) else None.

(** ** Qubits *)

Definition i_hadamard (q : qbit) : qbit :=
  Build_Qbit (i_name q) (f_div (f_add (i_a q) (i_b q)) (f_sqrt (f_of_Z 2)))
    (f_div (f_sub (i_a q) (i_b q)) (f_sqrt (f_of_Z 2))) false (i_result q).

(** With the next result of [rand]. *)
Definition i_measure (r : Z) (q : qbit) : qbit :=
  let prob0 := f_mul (i_a q) (i_a q) in
  let r := f_div (f_of_Z r) (f_of_Z RAND_MAX) in
  let result := if f_ltb prob0 r then 1 else 0 in
  if result =? 0 then Build_Qbit (i_name q) f_one f_zero true result
  else Build_Qbit (i_name q) f_zero f_one true result.

Definition i_print_qbit (q : qbit) : output F :=
  if i_measured q then Print "|%d>\n" [AInt (i_result q)]
  else Print "|0>=%.3f |1>=%.3f\n" [ADbl (i_a q); ADbl (i_b q)].

(** ** Execution *)

Definition eval_expr (node : ASTNode) (vs : list (string * F)) : option bool :=
  match node_type node with
  | NODE_BINOP =>
      l ← node_left node;
      r ← node_right node;
      let lhs := get_var (node_value l) vs in
      let rhs := atof (node_value r) in
      Some
        (if (node_value node =? ">")%string then f_ltb rhs lhs
         else if (node_value node =? "<")%string then f_ltb lhs rhs
         else if (node_value node =? "==")%string then f_leb lhs rhs && f_leb rhs lhs
         else if (node_value node =? ">=")%string then f_leb rhs lhs
         else if (node_value node =? "<=")%string then f_leb lhs rhs
         else false)
  | _ => Some false
  end.

(** [say]: a qubit, a string, or a variable. *)
Definition i_say (x : ASTNode) (s : state) : state :=
  match get_qbit (node_value x) (i_qbits s) ≫= (λ i, i_qbits s !! i) with
  | Some q => i_print (i_print_qbit q) s
  | None =>
      match node_type x with
      | NODE_STRING => i_print (Print "%s\n" [AStr (node_value x)]) s
      | _ => i_print (Print "%g\n" [ADbl (get_var (node_value x) (i_vars s))]) s
      end
  end.

Definition i_measure_named (n : string) (s : state) : state :=
  match get_qbit n (i_qbits s) with
  | Some i =>
      Build_istate (i_vars s) (alter (i_measure (rand (i_rands s))) i (i_qbits s)) (S (i_rands s)) (i_out s)
  | None => s
  end.

Fixpoint iterate (n : nat) (f : state → option state) (s : state) : option state :=
  match n with
  | O => Some s
  | S n => s ← f s; iterate n f s
  end.

Fixpoint execute (node : ASTNode) (s : state) : option state :=
  let '(Node t v l r b n) := node in
  let sub p s := match p with Some m => execute m s | None => Some s end in
  s ←
    match t with
    | NODE_SAY => x ← l; Some (i_say x s)
    | NODE_LET => x ← l; i_set_var v (atof (node_value x)) s
    | NODE_QBIT => x ← l; i_create_qbit v (node_value x) s
    | NODE_HADAMARD =>
        Some (match get_qbit v (i_qbits s) with
              | Some i => i_with_qbits (alter i_hadamard i (i_qbits s)) s
              | None => s
              end)
    | NODE_MEASURE => Some (i_measure_named v s)
    | NODE_CHECK =>
        cond ← l;
        pass ← eval_expr cond (i_vars s);
        if pass : bool then sub b s else Some s
    | NODE_REPEAT => count ← atoi v; iterate (Z.to_nat count) (sub b) s
    | NODE_BLOCK => sub b s
    | _ => Some s
    end;
  sub n s.

Definition execute_ptr (p : option ASTNode) (s : state) : option state :=
  match p with Some m => execute m s | None => Some s end.

Definition static_istate : state := Build_istate [] [] 0 [].

(** [main]: the exit status and the output. [file] is the contents of the file,
    [None] when it cannot be opened; its allocation is taken to succeed. *)
Definition interp_main (argv : list string) (file : option string) : outcome (Z * list (output F)) :=
  match argv with
  | [] => Done (0, [Print "QBIT NOVA AST Interpreter v0.3\n" []; Print "Usage: qnova-ast <file.qn>\n" []])
  | _ :: _ =>
      match file with
      | None => Done (1, [Print "Error: file not found\n" []])
      | Some contents =>
          lx ← tokenize (c_string contents) initial_lexer;
          tree ← parse (tokens lx);
          s ← defined (execute_ptr (node_body tree) static_istate);
          Done (0, Print "=== QBIT NOVA EXECUTION ===\n" [] :: i_out s)
      end
  end.
End Interp.
