(* ===== verification/InterpProps.v ===== *)
(** * Two implementations, one meaning

    [means] is the meaning of a program of the language that both the tree
    interpreter and the compiler with the byte VM are written for: names are
    declared once and before use, there is room for them, and only [say],
    [let], [qbit], [hadamard], [measure], [check] and [repeat] occur. Both
    implementations have that meaning; outside it they differ. *)

From Stdlib Require Import ZArith Lia ZifyBool Ascii String.
From stdpp Require Import base list numbers strings.
From S2P Require Import Prelude.
From S2P Require Import Float64.
From S2P Require Import Outcome.
From S2P Require Import CString.
From S2P Require Import Syntax.
From S2P Require Import Compiler.
From S2P Require Import ByteVM.
From S2P Require Import CompilerProps.
From S2P Require Import PipelineProps.
From S2P Require Import Interp.
Open Scope Z_scope.

(** What the implementations rely on: [atof] and [atoi] agree on decimal
    integers. *)
Class AtofInt {F} `{FloatOps F} (atof : string → F) : Prop := {
  atof_int v n : str_forall isdigit v = true → atoi v = Some n → atof v = f_of_Z n
}.

Section Means.
Context {F : Type} `{FloatOps F} (rand : nat → Z) (atof : string → F).
Abbreviation state := (istate F).

Definition lookup_qbit (n : string) (s : state) : option (nat * Qbit F) :=
  i ← get_qbit n (i_qbits s); q ← i_qbits s !! i; Some (i, q).

(** The comparison of a [check]. *)
Definition compare (op : string) (x y : F) : option bool :=
  if (op =? ">")%string then Some (f_ltb y x)
  else if (op =? "<")%string then Some (f_ltb x y)
  else if (op =? "==")%string then Some (f_leb x y && f_leb y x)
  else if (op =? ">=")%string then Some (f_leb y x)
  else if (op =? "<=")%string then Some (f_leb x y)
  else None.

(** [means p s s']: the statements [p] take the state [s] to [s']. *)
Inductive means : option ASTNode → state → state → Prop :=
| means_end s : means None s s
| means_say_qbit v t x b n s s' i q :
    x ≠ "qmsg"%string → lookup_qbit x s = Some (i, q) → means n (i_print (i_print_qbit q) s) s' →
    means (Some (Node NODE_SAY v (Some (Node t x None None None None)) None b n)) s s'
| means_say_string v x b n s s' :
    x ≠ "qmsg"%string → get_qbit x (i_qbits s) = None → var_index x (i_vars s) = None →
    means n (i_print (Print "%s\n" [AStr x]) s) s' →
    means (Some (Node NODE_SAY v (Some (Node NODE_STRING x None None None None)) None b n)) s s'
| means_say_var v x b n s s' i :
    x ≠ "qmsg"%string → get_qbit x (i_qbits s) = None → var_index x (i_vars s) = Some i →
    means n (i_print (Print "%g\n" [ADbl (get_var x (i_vars s))]) s) s' →
    means (Some (Node NODE_SAY v (Some (Node NODE_IDENT x None None None None)) None b n)) s s'
| means_let x t v b n s s1 s' :
    i_set_var x (atof v) s = Some s1 → means n s1 s' →
    means (Some (Node NODE_LET x (Some (Node t v None None None None)) None b n)) s s'
| means_qbit x t v b n s s1 s' ab :
    get_qbit x (i_qbits s) = None → state_amps v = Some ab → i_create_qbit x v s = Some s1 → means n s1 s' →
    means (Some (Node NODE_QBIT x (Some (Node t v None None None None)) None b n)) s s'
| means_hadamard x b n s s' i q :
    lookup_qbit x s = Some (i, q) → means n (i_with_qbits (alter i_hadamard i (i_qbits s)) s) s' →
    means (Some (Node NODE_HADAMARD x None None b n)) s s'
| means_measure x b n s s' i q :
    x ≠ "qmsg"%string → lookup_qbit x s = Some (i, q) → means n (i_measure_named rand x s) s' →
    means (Some (Node NODE_MEASURE x None None b n)) s s'
| means_check v op x y b n s s1 s' i pass :
    var_index x (i_vars s) = Some i → str_forall isdigit y = true →
    compare op (get_var x (i_vars s)) (atof y) = Some pass →
    means (if pass then b else None) s s1 → means n s1 s' →
    means (Some (Node NODE_CHECK v (Some (Node NODE_BINOP op (Some (Node NODE_IDENT x None None None None))
      (Some (Node NODE_NUMBER y None None None None)) None None)) None b n)) s s'
| means_repeat v b n s s1 s' count :
    atoi v = Some count → means_times (Z.to_nat count) b s s1 → means n s1 s' →
    means (Some (Node NODE_REPEAT v None None b n)) s s'
| means_block v b n s s1 s' :
    means b s s1 → means n s1 s' → means (Some (Node NODE_BLOCK v None None b n)) s s'
with means_times : nat → option ASTNode → state → state → Prop :=
| means_zero b s : means_times 0 b s s
| means_succ k b s s1 s' : means b s s1 → means_times k b s1 s' → means_times (S k) b s s'.

Scheme means_mut := Minimality for means Sort Prop
with means_times_mut := Minimality for means_times Sort Prop.
Combined Scheme means_both_ind from means_mut, means_times_mut.

(** ** The interpreter *)

Lemma lookup_qbit_get x s i q :
  lookup_qbit x s = Some (i, q) → get_qbit x (i_qbits s) = Some i ∧ i_qbits s !! i = Some q.
Proof.
  unfold lookup_qbit. destruct (get_qbit x (i_qbits s)) as [j|]; [|done]. cbn [mbind option_bind].
  destruct (i_qbits s !! j) eqn:Hj; [|done]. cbn [mbind option_bind]. by intros [= <- <-].
Qed.

Lemma eval_compare op x y vs pass vop :
  compare op (get_var x vs) (atof y) = Some pass →
  eval_expr atof (Node NODE_BINOP op (Some (Node NODE_IDENT x None None None None))
    (Some (Node NODE_NUMBER y None None None None)) None vop) vs = Some pass.
Proof.
  unfold compare, eval_expr. cbn [node_type node_left node_right node_value mbind option_bind].
  repeat (case_match; [by intros [= <-]|]). done.
Qed.

Lemma interp_means :
  (∀ p s s', means p s s' → execute_ptr rand atof p s = Some s') ∧
  (∀ k p s s', means_times k p s s' → iterate k (execute_ptr rand atof p) s = Some s').
Proof.
  apply means_both_ind; cbn [execute_ptr execute iterate]; try done.
  - intros v t x b n s s' i q _ Hq _ IH. unfold i_say. cbn [node_value mbind option_bind].
    destruct (lookup_qbit_get _ _ _ _ Hq) as [-> Hi]. cbn [mbind option_bind]. by rewrite Hi.
  - intros v x b n s s' _ Hq Hv _ IH. unfold i_say. cbn [node_value node_type mbind option_bind]. by rewrite Hq.
  - intros v x b n s s' i _ Hq Hv _ IH. unfold i_say. cbn [node_value node_type mbind option_bind]. by rewrite Hq.
  - intros x t v b n s s1 s' Hset _ IH. cbn [node_value mbind option_bind]. by rewrite Hset.
  - intros x t v b n s s1 s' ab _ _ Hc _ IH. cbn [node_value mbind option_bind]. by rewrite Hc.
  - intros x b n s s' i q Hq _ IH. by destruct (lookup_qbit_get _ _ _ _ Hq) as [-> _].
  - intros v op x y b n s s1 s' i pass _ _ Hc _ IHb _ IH. cbn [mbind option_bind].
    rewrite (eval_compare op x y _ pass None Hc). cbn [mbind option_bind]. destruct pass.
    + destruct b; cbn [execute_ptr] in IHb; rewrite IHb; done.
    + injection IHb as ->. done.
  - intros v b n s s1 s' count Ha _ IHb _ IH. rewrite Ha. cbn [mbind option_bind]. unfold execute_ptr in IHb. by rewrite IHb.
  - intros v b n s s1 s' _ IHb _ IH. destruct b; cbn [execute_ptr] in IHb; by rewrite IHb.
  - intros k b s s1 s' _ IHb _ IHk. rewrite IHb. done.
Qed.
End Means.

(** ** The compiler and the VM *)

Section Agree.
Context {F : Type} `{FloatOps F} (rand : nat → Z) (atof : string → F) `{!AtofInt atof}.
Context (pre : list (output F)).

(** The same qubit in both tables; the VM's is linked to no other. *)
Record same_qbit (q : VMQbit F) (i : Qbit F) : Prop := {
  sq_name : q_name q = i_name i;
  sq_a : q_a q = i_a i;
  sq_b : q_b q = i_b i;
  sq_measured : q_measured q = i_measured i;
  sq_result : i_measured i = true → q_result q = i_result i;
  sq_free : q_entangled q = EmptyString
}.

(** The same state, the VM's output being [pre] longer. *)
Record agree (m : vm F) (s : istate F) : Prop := {
  ag_vars : vars m = i_vars s;
  ag_qbits : Forall2 same_qbit (qbits m) (i_qbits s);
  ag_rands : rands m = i_rands s;
  ag_out : out m = pre ++ i_out s
}.

Lemma find_get_qbit n qs js : Forall2 same_qbit qs js → find_qbit n qs = get_qbit n js.
Proof. induction 1 as [|q i qs js [Hn _ _ _ _ _] _ IH]; [done|]. simpl. by rewrite Hn, IH. Qed.

Lemma find_var_index n (vs : list (string * F)) : find_var n vs = (λ i, (i, get_var n vs)) <$> var_index n vs.
Proof.
  induction vs as [|[x y] vs IH]; [done|]. simpl. destruct (x =? n)%string; [done|]. rewrite IH. by destruct (var_index n vs).
Qed.

Lemma agree_print m s fmt a : agree m s → agree (print fmt a m) (i_print (Print fmt a) s).
Proof. intros [Hv Hq Hr Ho]. split; try done. cbn [print out i_print i_out]. by rewrite Ho, app_assoc. Qed.

Lemma agree_print_qbit m s q i : agree m s → same_qbit q i → agree (print_qbit q m) (i_print (i_print_qbit i) s).
Proof.
  intros Hag [_ Ha Hb Hm Hr _]. unfold print_qbit, i_print_qbit. rewrite Hm.
  destruct (i_measured i); [rewrite Hr by done|rewrite Ha, Hb]; by apply agree_print.
Qed.

Lemma agree_lookup m s x i q :
  agree m s → lookup_qbit x s = Some (i, q) →
  find_qbit x (qbits m) = Some i ∧ ∃ q', qbits m !! i = Some q' ∧ same_qbit q' q.
Proof.
  intros [_ Hq _ _] Hl. apply lookup_qbit_get in Hl as [Hg Hi]. rewrite (find_get_qbit _ _ _ Hq).
  split; [done|]. by apply (Forall2_lookup_r _ _ _ _ _ Hq).
Qed.

Lemma agree_say x m s i q :
  agree m s → x ≠ "qmsg"%string → lookup_qbit x s = Some (i, q) → agree (vm_say x m) (i_print (i_print_qbit q) s).
Proof.
  intros Hag Hx Hl. destruct (agree_lookup _ _ _ _ _ Hag Hl) as (Hf & q' & Hq' & Hsame).
  unfold vm_say. destruct (String.eqb_spec x "qmsg"); [done|]. rewrite Hf. cbn [mbind option_bind]. rewrite Hq'.
  by apply agree_print_qbit.
Qed.

Lemma agree_set_var x v m s s1 : agree m s → i_set_var x v s = Some s1 → agree (set_var x v m) s1.
Proof.
  intros [Hv Hq Hr Ho]. unfold i_set_var, set_var. rewrite Hv, find_var_index.
  destruct (var_index x (i_vars s)) as [i|]; cbn [fmap option_fmap option_map]; [intros [= <-]; by split|].
  unfold MAX_VARS, MAX_VM_VARS. destruct (Nat.ltb_spec (length (i_vars s)) 64); [|done].
  destruct (String.length x <? NAME_BYTES)%nat; [|done]. intros [= <-].
  destruct (Nat.leb_spec 64 (length (i_vars s))); [lia|]. split; try done.
Qed.

Lemma alter_snoc {A} (f : A → A) (l : list A) x : alter f (length l) (l ++ [x]) = l ++ [f x].
Proof. induction l as [|y l IH]; [done|]. exact (f_equal (cons y) IH). Qed.

Lemma agree_create x st m s s1 ab :
  agree m s → get_qbit x (i_qbits s) = None → state_amps st = Some ab → i_create_qbit x st s = Some s1 →
  agree (create_qbit x st m) s1.
Proof.
  intros [Hv Hq Hr Ho] Hg Hst. pose proof (Forall2_length _ _ _ Hq) as Hlen.
  assert (i_state_amps st = ab) as Hab by (revert Hst; unfold state_amps, i_state_amps; repeat (case_match; [by intros [= <-]|]); done).
  unfold i_create_qbit, create_qbit. rewrite Hab, Hst, (find_get_qbit _ _ _ Hq), Hg, Hlen. destruct ab as [a b].
  unfold MAX_QBITS, MAX_VM_QBITS. destruct (Nat.ltb_spec (length (i_qbits s)) 32); [|done].
  destruct (String.length x <? NAME_BYTES)%nat; [|done]. intros [= <-].
  destruct (Nat.leb_spec 32 (length (i_qbits s))); [lia|]. split; try done.
  cbn [with_qbits qbits i_with_qbits i_qbits]. rewrite <-Hlen, alter_snoc. apply Forall2_app; [done|]. by repeat constructor.
Qed.

Lemma alter_at {A} (f : A → A) (l : list A) (i : nat) x : l !! i = Some x → alter f i l = <[i := f x]> l.
Proof. revert i. induction l as [|y l IH]; intros [|i] Hx; simplify_eq/=; [done|]. exact (f_equal (cons y) (IH i Hx)). Qed.

Lemma agree_alter f g i m s :
  (∀ q q', same_qbit q q' → same_qbit (f q) (g q')) → agree m s →
  Forall2 same_qbit (alter f i (qbits m)) (alter g i (i_qbits s)).
Proof. intros Hfg [_ Hq _ _]. by apply Forall2_alter; [|intros; apply Hfg]. Qed.

Lemma agree_hadamard i m s :
  agree m s → agree (with_qbits (alter hadamard i (qbits m)) m) (i_with_qbits (alter i_hadamard i (i_qbits s)) s).
Proof.
  intros Hag. pose proof (agree_alter hadamard i_hadamard i m s) as Hal. destruct Hag as [Hv Hq Hr Ho].
  split; try done. apply Hal; [|by split]. intros q q' [Hn Ha Hb _ _ Hf]. unfold hadamard, i_hadamard. rewrite Ha, Hb. by split.
Qed.

Lemma agree_measure x m s i q :
  agree m s → lookup_qbit x s = Some (i, q) → agree (measure_linked rand i m) (i_measure_named rand x s).
Proof.
  intros Hag Hl. destruct (agree_lookup _ _ _ _ _ Hag Hl) as (_ & q' & Hq' & Hsame).
  apply lookup_qbit_get in Hl as [Hg Hi]. pose proof Hag as [Hv Hq Hr Ho].
  unfold measure_linked, measure, i_measure_named. rewrite Hg, Hq'.
  set (res := if f_ltb _ _ then 1 else 0). cbn [with_rands with_qbits qbits].
  rewrite list_lookup_insert_eq by (by eapply lookup_lt_Some).
  assert (q_entangled (collapse res q') = EmptyString) as ->
    by (unfold collapse; destruct (res =? 0); apply Hsame).
  cbn [String.eqb]. split; try done; cbn [with_rands with_qbits qbits rands vars out i_qbits i_rands]; [|by rewrite Hr].
  rewrite (alter_at _ _ _ _ Hi). apply Forall2_insert; [done|].
  unfold i_measure, collapse. subst res. rewrite Hr, (sq_a _ _ Hsame). destruct Hsame as [Hn Ha Hb _ _ Hf].
  by destruct (f_ltb _ _).
Qed.

Definition ptr_ok (p : option ASTNode) : Prop := match p with Some m => operands_ok m = true | None => True end.

Lemma ins_ok o a1 a2 val :
  arg_ok a1 = true → arg_ok a2 = true →
  ins o (Some a1) (Some a2) val = Some {| op := o; arg1 := a1; arg2 := a2; ivalue := val |}.
Proof. unfold ins, copy_arg, arg_ok. by intros -> ->. Qed.

Lemma ins_ok1 o a1 val :
  arg_ok a1 = true → ins o (Some a1) None val = Some {| op := o; arg1 := a1; arg2 := EmptyString; ivalue := val |}.
Proof. unfold ins, copy_arg, arg_ok. by intros ->. Qed.

Lemma agree_check v op x y m s pass i n h :
  agree m s → var_index x (i_vars s) = Some i → str_forall isdigit y = true → atoi y = Some n →
  compare op (get_var x (i_vars s)) (atof y) = Some pass →
  h = {| Syntax.op := v; arg1 := x; arg2 := op; ivalue := n |} → check_pass h m = (pass, m).
Proof.
  intros Hag Hi Hy Hn Hc ->. unfold check_pass. cbn [arg1 arg2 ivalue].
  rewrite (ag_vars _ _ Hag), find_var_index, Hi. cbn [fmap option_fmap option_map].
  rewrite (atof_int (atof := atof) y n Hy Hn) in Hc. revert Hc. unfold compare. repeat (case_match; [by intros [= <-]|]). done.
Qed.

Lemma vm_means :
  (∀ p s s', means rand atof p s s' → ∀ m, ptr_ok p → agree m s → agree (exec_ptr rand atof p m) s') ∧
  (∀ k p s s', means_times rand atof k p s s' → ∀ m, ptr_ok p → agree m s →
     agree (Nat.iter k (exec_ptr rand atof p) m) s').
Proof.
  apply means_both_ind.
  - done.
  - intros v t x b n s s' i q Hx Hq _ IH m Hok Hag. cbn [ptr_ok operands_ok left_ok node_value] in Hok.
    apply andb_true_iff in Hok as [Ha Hn]. cbn [exec_ptr exec_tree simple_ins left_value fmap option_fmap option_map node_value mbind option_bind].
    rewrite ins_ok1 by done. apply IH; [by destruct n|]. by eapply agree_say.
  - intros v x b n s s' Hx Hq Hv _ IH m Hok Hag. cbn [ptr_ok operands_ok left_ok node_value] in Hok.
    apply andb_true_iff in Hok as [Ha Hn]. cbn [exec_ptr exec_tree simple_ins left_value fmap option_fmap option_map node_value mbind option_bind].
    rewrite ins_ok1 by done. apply IH; [by destruct n|]. cbn [fmap option_fmap option_map exec_simple op arg1]. unfold vm_say.
    destruct (String.eqb_spec x "qmsg"); [done|]. rewrite (find_get_qbit _ _ _ (ag_qbits _ _ Hag)), Hq.
    cbn [mbind option_bind]. rewrite (ag_vars _ _ Hag), find_var_index, Hv. by apply agree_print.
  - intros v x b n s s' i Hx Hq Hv _ IH m Hok Hag. cbn [ptr_ok operands_ok left_ok node_value] in Hok.
    apply andb_true_iff in Hok as [Ha Hn]. cbn [exec_ptr exec_tree simple_ins left_value fmap option_fmap option_map node_value mbind option_bind].
    rewrite ins_ok1 by done. apply IH; [by destruct n|]. cbn [fmap option_fmap option_map exec_simple op arg1]. unfold vm_say.
    destruct (String.eqb_spec x "qmsg"); [done|]. rewrite (find_get_qbit _ _ _ (ag_qbits _ _ Hag)), Hq.
    cbn [mbind option_bind]. rewrite (ag_vars _ _ Hag), find_var_index, Hv. by apply agree_print.
  - intros x t v b n s s1 s' Hset _ IH m Hok Hag. cbn [ptr_ok operands_ok left_ok node_value] in Hok.
    rewrite !andb_true_iff in Hok. destruct Hok as [[Hx Hv] Hn].
    cbn [exec_ptr exec_tree simple_ins left_value fmap option_fmap option_map node_value mbind option_bind].
    rewrite ins_ok by done. apply IH; [by destruct n|]. by eapply agree_set_var.
  - intros x t v b n s s1 s' ab Hg Hst Hc _ IH m Hok Hag. cbn [ptr_ok operands_ok left_ok node_value] in Hok.
    rewrite !andb_true_iff in Hok. destruct Hok as [[Hx Hv] Hn].
    cbn [exec_ptr exec_tree simple_ins left_value fmap option_fmap option_map node_value mbind option_bind].
    rewrite ins_ok by done. apply IH; [by destruct n|]. by eapply agree_create.
  - intros x b n s s' i q Hq _ IH m Hok Hag. cbn [ptr_ok operands_ok] in Hok. apply andb_true_iff in Hok as [Hx Hn].
    cbn [exec_ptr exec_tree simple_ins]. rewrite ins_ok1 by done. apply IH; [by destruct n|].
    cbn [fmap option_fmap option_map exec_simple op arg1]. destruct (agree_lookup _ _ _ _ _ Hag Hq) as (-> & _).
    by apply agree_hadamard.
  - intros x b n s s' i q Hx Hq _ IH m Hok Hag. cbn [ptr_ok operands_ok] in Hok. apply andb_true_iff in Hok as [Hax Hn].
    cbn [exec_ptr exec_tree simple_ins]. rewrite ins_ok1 by done. apply IH; [by destruct n|].
    cbn [fmap option_fmap option_map exec_simple op arg1]. destruct (String.eqb_spec x "qmsg"); [done|].
    destruct (agree_lookup _ _ _ _ _ Hag Hq) as (-> & _). by eapply agree_measure.
  - intros v op x y b n s s1 s' i pass Hi Hy Hc _ IHb _ IH m Hok Hag.
    cbn [ptr_ok operands_ok condition_ok node_left node_right node_value] in Hok. rewrite !andb_true_iff in Hok.
    destruct Hok as [[[[Hx Hop] Hnum] Hb] Hn]. unfold number_ok in Hnum. destruct (atoi y) as [k|] eqn:Hk; [|done].
    cbn [exec_ptr exec_tree head_ins check_args node_left node_right node_value]. rewrite Hk. cbn [mbind option_bind].
    rewrite ins_ok by done. rewrite (agree_check OP_CHECK op x y m s pass i k) by done.
    apply IH; [by destruct n|]. destruct pass; [|by apply (IHb m)]. apply (IHb m); [by destruct b|done].
  - intros v b n s s1 s' count Ha _ IHb _ IH m Hok Hag. cbn [ptr_ok operands_ok] in Hok. rewrite !andb_true_iff in Hok.
    destruct Hok as [[_ Hb] Hn]. cbn [exec_ptr exec_tree]. rewrite Ha. apply IH; [by destruct n|].
    apply IHb; [by destruct b|done].
  - intros v b n s s1 s' _ IHb _ IH m Hok Hag. cbn [ptr_ok operands_ok] in Hok. rewrite !andb_true_iff in Hok.
    destruct Hok as [Hb Hn]. cbn [exec_ptr exec_tree]. apply IH; [by destruct n|]. apply IHb; [by destruct b|done].
  - done.
  - intros k b s s1 s' _ IHb _ IHk m Hok Hag. rewrite Nat.iter_succ_r. apply IHk; [done|]. by apply IHb.
Qed.
End Agree.

(** C13 (two implementations agree): on a program with a meaning in the common
    part of the language, compiled and run by the byte VM with enough fuel or
    run by the tree interpreter, the two print the same lines, apart from the
    VM's banner, use the same random numbers, and end with the same variables
    and qubits. For every number type whose [atof] reads integers as [atoi]
    does. *)
Theorem implementations_agree {F} `{FloatOps F} (rand : nat → Z) (atof : string → F) `{!AtofInt atof}
    (node : ASTNode) (s' : istate F) code :
  means rand atof (Some node) static_istate s' →
  operands_ok node = true → compile node [] = Some code → (repeat_depth node <= REPEAT_STACK)%nat →
  execute rand atof node static_istate = Some s' ∧
  ∃ k m, (∀ fuel, run_bytecode rand atof (k + fuel) code Pipeline.static_vm = Halted m) ∧
    out m = Print "=== QBIT NOVA BYTECODE VM ===\n" [] :: i_out s' ∧
    vars m = i_vars s' ∧ rands m = i_rands s' ∧
    Forall2 (λ q i, q_name q = i_name i ∧ q_a q = i_a i ∧ q_b q = i_b i ∧ q_measured q = i_measured i)
      (qbits m) (i_qbits s').
Proof.
  intros Hm Hok Hc Hd. split; [exact (proj1 (interp_means rand atof) _ _ _ Hm)|].
  apply compile_gen in Hc as (c & Hg & ->).
  destruct (run_runs rand atof _ _ _ (print "=== QBIT NOVA BYTECODE VM ===\n" [] Pipeline.static_vm) (runs_tree rand atof node c Hg) Hd)
    as [k Hk].
  destruct (proj1 (vm_means rand atof [Print "=== QBIT NOVA BYTECODE VM ===\n" []]) _ _ _ Hm
    (print "=== QBIT NOVA BYTECODE VM ===\n" [] Pipeline.static_vm) Hok) as [Hv Hq Hr Ho]; [by split; try constructor|].
  do 2 eexists. split; [exact Hk|]. split; [exact Ho|]. split; [exact Hv|]. split; [exact Hr|].
  eapply Forall2_impl; [exact Hq|]. by intros q i [? ? ? ? _ _].
Qed.

(** ** A program with a meaning *)

Lemma digits_not_space y c s : y = String c s → str_forall isdigit y = true → isspace c = false ∧ c ≠ "-"%char ∧ c ≠ "+"%char.
Proof.
  intros -> [Hc _]%andb_true_iff. revert Hc. unfold isdigit, isspace. rewrite andb_true_iff, !N.leb_le. intros [H1 H2].
  split; [lia|]. split; intros ->; cbn in *; lia.
Qed.

#[export] Instance demo_atof_int : AtofInt demo_atof.
Proof.
  split. intros y n Hy Hn. unfold demo_atof. f_equal. revert Hn. unfold atoi. destruct y as [|c y]; [by intros [= <-]|].
  destruct (digits_not_space _ c y eq_refl Hy) as (Hs & Hm & Hp). cbn [skip_spaces]. rewrite Hs.
  intros Hn. destruct (_ && _) in Hn; [|done]. injection Hn as <-.
  destruct c as [[] [] [] [] [] [] [] []]; try done.
Qed.

Definition both_tree : ASTNode :=
  let leaf t v := Some (Node t v None None None None) in
  Node NODE_LET "x" (leaf NODE_NUMBER "5") None None (Some
 (Node NODE_QBIT "q" (leaf NODE_STATE "|+>") None None (Some
 (Node NODE_CHECK "" (Some (Node NODE_BINOP ">" (leaf NODE_IDENT "x") (leaf NODE_NUMBER "3") None None)) None
    (Some (Node NODE_HADAMARD "q" None None None None)) (Some
 (Node NODE_REPEAT "2" None None (Some (Node NODE_SAY "" (leaf NODE_IDENT "x") None None None)) (Some
 (Node NODE_MEASURE "q" None None None (Some
 (Node NODE_SAY "" (leaf NODE_IDENT "q") None None None)))))))))).

Lemma both_means :
  ∃ s, execute (λ _, 0) demo_atof both_tree static_istate = Some s ∧
       means (λ _, 0) demo_atof (Some both_tree) static_istate s.
Proof.
  eexists. split; [vm_compute; reflexivity|].
  eapply means_let; [vm_compute; reflexivity|].
  eapply means_qbit; [vm_compute; reflexivity..|].
  eapply means_check; [vm_compute; reflexivity..| |].
  { eapply means_hadamard; [vm_compute; reflexivity|]. apply means_end. }
  eapply means_repeat; [vm_compute; reflexivity| |].
  { do 2 (eapply means_succ; [eapply means_say_var; [done|vm_compute; reflexivity..|apply means_end]|]). apply means_zero. }
  eapply means_measure; [done|vm_compute; reflexivity|].
  eapply means_say_qbit; [done|vm_compute; reflexivity|]. apply means_end.
Qed.

Lemma implementations_agree_witness :
  ∃ s k m code, compile both_tree [] = Some code ∧
    run_bytecode (λ _, 0) demo_atof k code Pipeline.static_vm = Halted m ∧
    out m = Print "=== QBIT NOVA BYTECODE VM ===\n" [] :: i_out s ∧ length (i_out s) = 3%nat.
Proof.
  destruct both_means as (s & Hs & Hm). destruct (compile both_tree []) as [code|] eqn:Hc; [|by vm_compute in Hc].
  destruct (implementations_agree (λ _, 0) demo_atof both_tree s code Hm) as (_ & k & m & Hrun & Ho & _);
    [reflexivity|done|vm_compute; lia|].
  exists s, (k + 0)%nat, m, code. split; [done|]. split; [apply Hrun|]. split; [done|].
  vm_compute in Hs. by injection Hs as <-.
Defined.
